(* ===== verification/_CoqProject ===== *)
-Q . S2P
Prelude.v
Slices.v
Machine.v
Contacts.v
Jitter.v
DumbBucket.v
StaticBucket.v
SiblingList.v
Cache.v
SharedCache.v
Progress.v
Text.v
Crates.v
Address.v
AddressParse.v
Package.v
VersionChain.v
Wire.v
Pending.v
Datagram.v
DebugTransport.v
Stream.v
Network.v
HandleRpc.v
Serve.v
DnsKeys.v
Rpc.v
Lookup.v
Converge.v
Society.v
PutGet.v
Bootstrap.v
Joining.v
Registry.v
Publishing.v
Maintenance.v
Keeps.v
Restoring.v
Node.v
Upkeep.v
Cli.v
Shell.v
Program.v
Logging.v
Instances.v
RoutingThms.v
TransportThms.v
ToyNet.v
StorageThms.v
LookupThms.v
NetworkThms.v
JoiningThms.v
NodeThms.v
ShellThms.v
Sha256Digest.v
Replay.v
ReplayHashing.v
ReplayRouting.v
ReplayPackages.v
ReplayServer.v
ReplayShell.v
ReplayLookup.v
ReplayWires.v
ReplayNetwork.v
ReplayNodes.v
ReplayRegistry.v
