(* ===== verification/Prelude.v ===== *)
(** * A Kademlia package registry: the verification development

    The program is a node of a Kademlia network (Rust, under src/src/) that
    stores package files in a distributed hash table and lets the owner of a DNS
    domain publish signed versions of packages there.  This library models it
    and proves what makes it correct.  This file is the root: its header is the
    guide to the whole, and it holds the prelude (result type, state monad,
    bounded loop, invariants of monadic programs, tactics, hint databases).

    ** The parts and where they are

    A node has an id (the hash of its address), a routing table of contacts, a
    map of stored values and a resolver for owners' keys.  A server task answers
    four RPCs (PING, STORE, FIND_NODE, FIND_VALUE) over datagrams and over
    connections; the client side asks them of other nodes; lookups, joining,
    publishing, installing and upkeep are built on the client calls; a command
    line drives one node from the terminal.

    - Machine, Slices, Text, Address, AddressParse: bytes, fixed-width integers
      and arrays; the slice, string and address operations of the standard
      library the source uses, with their algebra.
    - Crates: sha2, bincode, ed25519_dalek, hex and domain as classes, with the
      documented behaviour relied on as separate classes of laws.
    - Contacts (close_nodes.rs): ids, XOR metric, the class CloseNodes and
      CloseNodesSpec, what every table promises.  DumbBucket, StaticBucket,
      SiblingList, Cache (close_nodes/): the tables; Cache ends with the deployed
      stack [recommended], and SharedCache takes the operations of the whole stack
      apart into what happens under one lock each.  Progress: what a query of the deployed table gives a
      lookup that looks for something nearer.
    - Package (hashing.rs, package.rs, value.rs) and VersionChain
      (version_chain.rs): versions, signed records and pointers, histories.
    - Wire (rpc_transport.rs, framing of handle_rpc.rs), Pending (pending.rs),
      Datagram (retry_transport.rs), DebugTransport (debug_transport.rs), Stream
      (stream_framing.rs), Network (networked_debug_transport.rs): from bytes to
      calls.
    - HandleRpc (handle_rpc.rs, handle_rpc/): the four handlers and the
      dispatcher.  Serve (the loops of handle_rpc.rs, data_rx_tx.rs,
      stream_listener.rs, tcp_transport.rs): the server over its sockets.
    - DnsKeys (dns_data.rs, dns_data/): the text of keys and the resolvers.
    - Rpc (rpc.rs, instrumentation.rs), Lookup (lookup.rs), Bootstrap
      (bootstrap.rs), Registry (registry.rs), Maintenance (maintenance.rs): the
      client side.  Jitter: the random periods of maintenance.rs in binary64.
    - Converge: lookups over the program's own nodes converge.  Society: a whole
      network of such nodes, each server sharing its table with its client, that
      serve each other while one of them makes its calls; what a call, a lookup, a
      search and a store come to there.  PutGet, Publishing and Restoring: what is
      stored is found, what is published can be installed, and republishing brings a
      value back to the nodes it is looked for on.  Joining: what a join does to such
      a network, and the networks that come about by joins ([assembled]).
    - Keeps: what every client operation preserves.  Node (node.rs): the shared
      state of a node's tasks and everything a node does.  Upkeep (node.rs,
      periodic_task): the timers of its background loops.
    - Cli (cli.rs): the parsing and the texts of the command line.  Shell
      (cli.rs): the commands, with the terminal and the files, and the read-eval
      loop.  Program (main.rs): arguments, start, joining, session.  Logging
      (logging.rs): the logger and where its lines go.
    - Instances, ToyNet: executable stand-ins for the crates and a small network,
      on which the model runs; they also show that the laws can hold together.
    - RoutingThms, TransportThms, StorageThms, LookupThms, NetworkThms, JoiningThms,
      NodeThms, ShellThms: the theorems about the program, each with an instance at a
      concrete input.
    - Sha256Digest, Replay and the files ReplayHashing, ReplayRouting,
      ReplayPackages, ReplayServer, ReplayShell, ReplayLookup, ReplayWires,
      ReplayNetwork, ReplayNodes, ReplayRegistry: the tests of src/ run on the
      model, with their own inputs and assertions.

    ** How code becomes definitions

    A function of the source is a definition of the same name, with the type's
    name in front where several share one; its early returns are the branches of
    its matches and tests, in the source's order.  Structs are records, enums
    inductive types, results are [result] or [option], integers keep their width
    ([uint w]), ids are 32-byte arrays, DashMap and HashMap are [gmap], HashSet is
    [gset], vectors are lists.  Stateful code is in the state monad [M S A].

    A step is what one task does without letting another in.  At an await
    anything may happen: a transport is an arbitrary function on the whole
    environment of the client (its routing table included), the wait for a reply
    an arbitrary sequence of operations on the pool of pending requests ([wait]),
    after which either branch of the select may be taken and, if it is the timer,
    more such operations follow ([settle]); the server's tasks take turns in any
    order.  STORE handlers interleave between their checks and their commit
    ([store_step]).  Node says what the other tasks of a node can do meanwhile
    ([background]), [idle] what they do while a line of input is awaited.

    The runtime has several threads, so tasks can also come between two locked
    operations that no await separates.  In the routing table that makes a
    difference, and SharedCache has a step per lock and per atomic operation; the
    operations of Cache, [make_room] and [cached_close_nodes], are the runs nobody
    disturbs, which [query_alone] proves.  Elsewhere code between two awaits is one
    step: the pool of pending requests is under one mutex, the value map is
    touched once per request, and the theorems about lookups, nodes and networks
    take one request, or one query of the table, as a step.

    What bincode does not carry is lost in the model too: a contact's IPv6 address
    comes back without its flow label and scope ([serde_address]), so the theorems
    about networks are about nodes whose addresses survive that ([homes_plain]).

    Randomness, clocks, the order in which replies arrive, the iteration order of
    hash maps, the terminal and the files are parameters.  The lines a lookup logs
    go to the environment's [metrics]; Shell appends them to the file metrics.log.

    ** What the theorems show

    - Storage (StorageThms): the walk over a version history accepts exactly the
      signed, hash-linked histories with strictly decreasing versions, and two walks
      that start from one hash take the same records unless they exhibit a collision;
      a STORE of a pointer needs such a proof; whatever arrives in whatever order and
      however the handlers interleave, stored
      values are under their own keys, stored pointers are authentic, never go
      back, and are only replaced by a continuation of their history; what is
      published is accepted and found.
    - Lookups (LookupThms): they end, ask nobody twice, and answer with the K
      nearest of all they heard of; the latest pointer is the newest acceptable one
      among the answers of all the nodes that were asked; an installed package is
      the blob the owner signed; upkeep does not empty the table.
    - Networks (NetworkThms): where the nodes of a network each know their part of
      it, a lookup finds the node nearest to its target, what one node puts every
      node can get, and what the owner publishes from one node every node can
      install: the abstract state of a package (Publishing.Edition) moves from the
      old history to the new one, whatever polite requests are served meanwhile.  A
      value that only some node still has is found again after its next round of
      republishing.
    - Joining (JoiningThms): networks of up to [K + 1] nodes come to know their part
      of the network by themselves.  A newcomer that joins through any member gets to
      know all of them, and they all get to know it; so nodes that joined one after
      the other are a network in which what one puts every one can get, and
      [complete_network] gives the other theorems about networks their premise.
    - Transport (TransportThms): a reply reaches only the request it answers,
      from the peer that was asked; retries, errors and timeouts of a call, and
      that an answered call returns its answer; datagrams fit the receive buffer;
      requests and replies are never confused; client and server agree.
    - Routing (RoutingThms): the invariants of the tables, when a query is exact
      and when it is not, how stale an answer of the cache can be however the steps
      of its users interleave, and when its capacity is kept.
    - The whole node (NodeThms): values and routing table stay sound in every run
      of a node; its upkeep is paced; DNS texts round-trip; the in-process wire
      neither forges nor misroutes; the command words are parsed as documented;
      metrics and other log lines are kept apart (Logging).
    - The program (ShellThms): the server loses no request and answers none
      twice; a session from arguments to end keeps the node sound, appends to
      metrics.log and touches no other file than those it was told to; installing never replaces a file, and what it
      writes was signed; which arguments start a node.

    ** Bounds and fuel

    The node lookup runs at most [2^257] rounds ([LOOKUP_ROUNDS], by [loop_until]);
    there are [2^256] ids to ask and [ALPHA] calls in flight, and that the loop
    ends by settling is proved.  The probe loop of value lookups has a round per
    candidate, the chain walk [MAX_CHAIN_LENGTH] records as in the source, the
    widening of a bucket query one round per bucket, decimal printing one digit
    per unit of fuel, the search for a port one turn round all ports.  Each bound
    is either in the source or shown to be enough.  The bounds on a
    jittered period, computed in binary64, are proved for periods of [s] whole
    seconds with 3 s < 2^53; the program's are 60 and 3600 seconds.

    ** What is not modelled

    The scheduler of the async runtime, whose choices are arbitrary; the kernel's
    sockets, files and terminal, the DNS resolver and the crates, which are
    parameters.  The networks of NetworkThms and JoiningThms have no node that is
    down or leaves: their nodes stay where they are and answer, sooner or later, what
    they are asked; nodes join one at a time, and only as many as fit into one table,
    since beyond that who knows whom depends on how the ids are spread.  An answer
    that is still cached from before a join may leave the newcomer out, so the
    theorems about a network that was joined are about keys nobody has just asked
    for.  Of the tests, those that measure time, run two calls at once,
    look for a deadlock or repeat random draws are not replayed; the replayed
    ones use a checksum for the hash, except where a digest is fixed.  Nothing is
    claimed about the secrecy or unforgeability of signatures: the theorems say
    which key has verified what, and where a collision of the digest would be
    needed they exhibit it. *)

From Stdlib Require Export Strings.Byte.
From stdpp Require Export base numbers list gmap strings sorting.

#[export] Set Warnings "-clear-no-such-hyp".

(** ** Scope, hint database and tactics *)

Declare Scope kad_scope.
Delimit Scope kad_scope with kad.
Create HintDb kad.
Create Rewrite HintDb kad.

(** Split boolean conjunctions and reflect the usual boolean tests. *)
Ltac brefl :=
  repeat match goal with
  | H : Is_true (_ && _) |- _ => apply andb_True in H as [? ?]
  | H : _ && _ = true |- _ => apply andb_true_iff in H as [? ?]
  | H : _ || _ = false |- _ => apply orb_false_iff in H as [? ?]
  | H : negb _ = true |- _ => apply negb_true_iff in H
  | H : negb _ = false |- _ => apply negb_false_iff in H
  | H : bool_decide _ = true |- _ => apply bool_decide_eq_true in H
  | H : bool_decide _ = false |- _ => apply bool_decide_eq_false in H
  end.

(** Case analysis on the innermost scrutinee of the goal or of a hypothesis. *)
Ltac break :=
  match goal with
  | H : context [ match ?x with _ => _ end ] |- _ =>
      lazymatch x with context [ match _ with _ => _ end ] => fail | _ => destruct x eqn:? end
  | |- context [ match ?x with _ => _ end ] =>
      lazymatch x with context [ match _ with _ => _ end ] => fail | _ => destruct x eqn:? end
  end.

(** ** [Result], [?] and the state monad *)

(** Rust's [Result<A, E>]. *)
Inductive result (E A : Type) : Type :=
  | Ok (a : A)
  | Err (e : E).
Arguments Ok {E A} a.
Arguments Err {E A} e.

#[export] Instance result_eq_dec {E A} `{EqDecision E, EqDecision A} : EqDecision (result E A).
Proof. solve_decision. Defined.

(** Rust's [?] on a [Result]: the first error is returned. *)
#[export] Instance result_ret {E} : MRet (result E) := fun _ a => Ok a.
#[export] Instance result_bind {E} : MBind (result E) :=
  fun _ _ f r => match r with Ok a => f a | Err e => Err e end.

(** [Option::ok_or]. *)
Definition ok_or {E A} (e : E) (o : option A) : result E A :=
  match o with Some a => Ok a | None => Err e end.

(** [Result::map_err]. *)
Definition map_err {E F A} (f : E -> F) (r : result E A) : result F A :=
  match r with Ok a => Ok a | Err e => Err (f e) end.

(** Stateful code: a function from the state before to the answer and the
    state after. *)
Definition M (S A : Type) : Type := S -> A * S.

#[export] Instance M_ret {S} : MRet (M S) := fun _ a s => (a, s).
#[export] Instance M_bind {S} : MBind (M S) :=
  fun _ _ f m s => let r := m s in f r.1 r.2.

(** Stateful code runs one statement at a time. *)
Lemma bind_eq {S A B} (m : M S A) (f : A -> M S B) s :
  (x ← m; f x) s = f (m s).1 (m s).2.
Proof. done. Qed.

Lemma bind_run {S A B} (m : M S A) (f : A -> M S B) s a s' :
  m s = (a, s') -> (x ← m; f x) s = f a s'.
Proof. intros E. by rewrite bind_eq, E. Qed.

Lemma ret_eq {S A} (a : A) (s : S) : (mret a : M S A) s = (a, s).
Proof. done. Qed.

Tactic Notation "mstep" := rewrite ?bind_eq, ?ret_eq; cbn beta.
Tactic Notation "mstep" "in" hyp(H) := rewrite ?bind_eq, ?ret_eq in H; cbn beta in H.

Definition get {S} : M S S := fun s => (s, s).
Definition gets {S A} (f : S -> A) : M S A := fun s => (f s, s).
Definition modify {S} (f : S -> S) : M S unit := fun s => (tt, f s).

(** [for x in l { body }] with an effectful body. *)
Fixpoint for_each {S A} (l : list A) (body : A -> M S unit) : M S unit :=
  match l with
  | [] => mret tt
  | x :: l => body x ;; for_each l body
  end.

(** [loop { body }]: the body either goes on with a new state or breaks with a
    result.  [loop_until n] runs it at most [2^n] times, so that a loop whose
    length is bounded only by a huge number still is an executable function. *)
Fixpoint loop_until {S X R} (n : nat) (step : X -> M S (X + R)) (x : X) : M S (X + R) :=
  match n with
  | O => step x
  | S n =>
      r ← loop_until n step x;
      match r with
      | inl x => loop_until n step x
      | inr r => mret (inr r)
      end
  end.

(** A loop with a decreasing measure below [2^n] breaks, and everything it goes
    through satisfies the invariant. *)
Section loop_until.
Context {S X R : Type} (step : X -> M S (X + R)) (I : X -> S -> Prop) (P : R -> S -> Prop) (measure : X -> N).
Context (step_ok : forall x s, I x s ->
  match (step x s).1 with
  | inl x' => I x' (step x s).2 /\ (measure x' < measure x)%N
  | inr r => P r (step x s).2
  end).

Lemma loop_until_progress n x s :
  I x s ->
  match (loop_until n step x s).1 with
  | inl x' => I x' (loop_until n step x s).2 /\ (measure x' + 2 ^ N.of_nat n <= measure x)%N
  | inr r => P r (loop_until n step x s).2
  end.
Proof using step_ok.
  revert x s. induction n as [|n IH]; intros x s Hx; cbn [loop_until].
  - pose proof (step_ok x s Hx) as Hs. destruct (step x s).1; [|done].
    change (2 ^ N.of_nat 0)%N with 1%N. split; [apply Hs|]. destruct Hs. lia.
  - mstep. pose proof (IH x s Hx) as H1. destruct (loop_until n step x s).1 as [x1|r]; mstep; [|done].
    destruct H1 as [Hx1 Hm1]. pose proof (IH x1 (loop_until n step x s).2 Hx1) as H2.
    destruct (loop_until n step x1 _).1 as [x2|r]; [|done].
    destruct H2 as [Hx2 Hm2]. split; [done|].
    rewrite Nat2N.inj_succ, N.pow_succ_r'. lia.
Qed.

Lemma loop_until_breaks n x s :
  I x s -> (measure x < 2 ^ N.of_nat n)%N -> exists r, (loop_until n step x s).1 = inr r /\ P r (loop_until n step x s).2.
Proof using step_ok.
  intros Hx Hm. pose proof (loop_until_progress n x s Hx) as Hp.
  destruct (loop_until n step x s).1 as [x'|r]; [|eauto]. destruct Hp. lia.
Qed.
End loop_until.

(** A state predicate that a computation preserves. *)
Definition preserves {S A} (I : S -> Prop) (m : M S A) : Prop :=
  forall s, I s -> I (m s).2.

Lemma preserves_ret {S A} (I : S -> Prop) (a : A) : preserves I (mret a).
Proof. by intros s. Qed.

Lemma preserves_bind {S A B} (I : S -> Prop) (m : M S A) (f : A -> M S B) :
  preserves I m -> (forall a, preserves I (f a)) -> preserves I (x ← m; f x).
Proof. intros Hm Hf s Hs. apply Hf, Hm, Hs. Qed.

Lemma preserves_gets {S A} (I : S -> Prop) (f : S -> A) : preserves I (gets f).
Proof. by intros s. Qed.

Lemma preserves_modify {S} (I : S -> Prop) (f : S -> S) :
  (forall s, I s -> I (f s)) -> preserves I (modify f).
Proof. intros H s. apply H. Qed.

Lemma preserves_for_each {S A} (I : S -> Prop) (l : list A) body :
  (forall x, x ∈ l -> preserves I (body x)) -> preserves I (for_each l body).
Proof.
  induction l as [|x l IH]; intros H; [apply preserves_ret|].
  apply preserves_bind; [apply H; set_solver | intros _; apply IH; set_solver].
Qed.

Lemma preserves_loop_until {S X R} (I : S -> Prop) n (step : X -> M S (X + R)) x :
  (forall x, preserves I (step x)) -> preserves I (loop_until n step x).
Proof.
  intros Hs. revert x. induction n as [|n IH]; intros x; [apply Hs|].
  apply preserves_bind; [apply IH|]. intros [x'|r]; [apply IH|apply preserves_ret].
Qed.

#[export] Hint Resolve preserves_ret preserves_bind preserves_gets preserves_modify : kad.
