(* ===== verification/Slices.v ===== *)
(** * Slices: the [Vec] and slice operations of the Rust standard library

    The routing table, the lookups and the publication code all work on
    vectors of contacts with the same few operations: the stable [sort_by],
    [dedup_by_key], [truncate], [swap_remove], [position], [max_by_key].
    They are modelled here once, with the algebra the components need.  The
    central fact is [closest_absorb]: keeping only the [k] best elements at
    every round loses nothing of the final answer. *)

From S2P Require Import Prelude.

(** ** Total comparisons *)

(** A comparison function that is a total preorder, as [Ord] promises. *)
Class TotalCmp {A} (cmp : A -> A -> comparison) : Prop := {
  cmp_refl x : cmp x x = Eq;
  cmp_sym x y : cmp y x = CompOpp (cmp x y);
  cmp_trans x y z : cmp x y <> Gt -> cmp y z <> Gt -> cmp x z <> Gt
}.
Arguments cmp_refl {A} cmp {_} x.
Arguments cmp_sym {A} cmp {_} x y.
Arguments cmp_trans {A} cmp {_} x y z.

Section total_cmp.
Context {A : Type} (cmp : A -> A -> comparison) `{!TotalCmp cmp}.

Definition cle (x y : A) : Prop := cmp x y <> Gt.
Definition clt (x y : A) : Prop := cmp x y = Lt.

#[export] Instance cle_dec : RelDecision cle.
Proof. intros x y. unfold cle. solve_decision. Defined.
#[export] Instance cle_trans : Transitive cle.
Proof. intros x y z. apply (cmp_trans cmp). Qed.
#[export] Instance cle_refl : Reflexive cle.
Proof. intros x. unfold cle. by rewrite (cmp_refl cmp). Qed.

Lemma clt_cle x y : clt x y -> cle x y.
Proof. unfold clt, cle. congruence. Qed.

Lemma not_cle x y : ~ cle x y <-> clt y x.
Proof.
  unfold cle, clt. rewrite (cmp_sym cmp x y). destruct (cmp x y); simpl; split; try congruence;
    naive_solver.
Qed.

Lemma cmp_gt x y : cmp x y = Gt <-> clt y x.
Proof. unfold clt. rewrite (cmp_sym cmp x y). destruct (cmp x y); simpl; naive_solver. Qed.

Lemma cle_clt_trans x y z : cle x y -> clt y z -> clt x z.
Proof.
  intros Hxy Hyz. apply not_cle. intros Hzx.
  assert (cle z y) as Hzy by (by etrans). by apply not_cle in Hyz.
Qed.

Lemma clt_cle_trans x y z : clt x y -> cle y z -> clt x z.
Proof.
  intros Hxy Hyz. apply not_cle. intros Hzx.
  assert (cle y x) as Hyx by (by etrans). by apply not_cle in Hxy.
Qed.

#[export] Instance clt_trans : Transitive clt.
Proof. intros x y z Hxy Hyz. eapply clt_cle_trans; [done|]. by apply clt_cle. Qed.

Lemma clt_irrefl x : ~ clt x x.
Proof. unfold clt. by rewrite (cmp_refl cmp). Qed.

Lemma cle_cases x y : cle x y -> clt x y \/ cmp x y = Eq.
Proof. unfold cle, clt. destruct (cmp x y); naive_solver. Qed.

Lemma ceq_cle x y : cmp x y = Eq -> cle x y /\ cle y x.
Proof. unfold cle. rewrite (cmp_sym cmp x y). intros ->. done. Qed.

Lemma ceq_cle_l x y : cmp x y = Eq -> cle x y.
Proof. apply ceq_cle. Qed.
Lemma ceq_cle_r x y : cmp x y = Eq -> cle y x.
Proof. apply ceq_cle. Qed.

Lemma ceq_sym x y : cmp x y = Eq -> cmp y x = Eq.
Proof. rewrite (cmp_sym cmp x y). by intros ->. Qed.

(** ** [slice::sort_by], the stable sort *)

Fixpoint insert_by (x : A) (l : list A) : list A :=
  match l with
  | [] => [x]
  | y :: l' => match cmp x y with Gt => y :: insert_by x l' | _ => x :: l end
  end.

Definition sort_by (l : list A) : list A := foldr insert_by [] l.

Lemma insert_by_Permutation x l : insert_by x l ≡ₚ x :: l.
Proof.
  induction l as [|y l IH]; [done|]; simpl.
  destruct (cmp x y); [done|done|]. rewrite IH. by apply perm_swap.
Qed.

Lemma sort_by_Permutation l : sort_by l ≡ₚ l.
Proof. induction l as [|x l IH]; [done|]; simpl. by rewrite insert_by_Permutation, IH. Qed.

Lemma insert_by_sorted x l : StronglySorted cle l -> StronglySorted cle (insert_by x l).
Proof.
  induction 1 as [|y l Hl IH Hy]; simpl; [by repeat constructor|].
  destruct (cmp x y) eqn:E.
  1,2: assert (cle x y) by (unfold cle; congruence); repeat constructor; auto;
    eapply Forall_impl; [exact Hy|]; intros z Hz; by etrans.
  constructor; [done|]. rewrite insert_by_Permutation. constructor; [|done].
  by apply clt_cle, cmp_gt.
Qed.

Lemma sort_by_sorted l : StronglySorted cle (sort_by l).
Proof. induction l; simpl; [constructor|]. by apply insert_by_sorted. Qed.

Lemma sort_by_length l : length (sort_by l) = length l.
Proof. by rewrite sort_by_Permutation. Qed.

Lemma sort_by_id l : StronglySorted cle l -> sort_by l = l.
Proof.
  induction 1 as [|x l Hl IH Hx]; simpl; [done|]. rewrite IH.
  destruct l as [|y l]; simpl; [done|]. inversion_clear Hx as [|?? Hxy _].
  unfold cle in Hxy. by destruct (cmp x y).
Qed.

Lemma elem_of_sort_by x l : x ∈ sort_by l <-> x ∈ l.
Proof. by rewrite sort_by_Permutation. Qed.

(** Stability, in the form used here: a late element goes behind its equals. *)
Fixpoint insert_last (x : A) (l : list A) : list A :=
  match l with
  | [] => [x]
  | y :: l' => match cmp y x with Gt => x :: l | _ => y :: insert_last x l' end
  end.

Lemma insert_by_last z x l :
  insert_by z (insert_last x l) = insert_last x (insert_by z l).
Proof.
  induction l as [|y l IH]; simpl.
  { destruct (cmp z x) eqn:E; by rewrite ?E. }
  destruct (cmp y x) eqn:Eyx, (cmp z y) eqn:Ezy; simpl;
    rewrite ?Ezy, ?Eyx; try by rewrite IH.
  1-4: assert (cle z x) as Hzx
    by (apply (cmp_trans cmp _ y); congruence);
    unfold cle in Hzx; destruct (cmp z x) eqn:Ezx; naive_solver.
  1,2: destruct (cmp z x) eqn:Ezx; simpl; by rewrite ?Eyx, ?Ezy.
  assert (clt x z) as Hxz by (etrans; [by apply cmp_gt|by apply cmp_gt]).
  apply cmp_gt in Hxz. by rewrite Hxz.
Qed.

Lemma sort_by_snoc l x : sort_by (l ++ [x]) = insert_last x (sort_by l).
Proof.
  induction l as [|y l IH]; [done|]. cbn. unfold sort_by in IH. rewrite IH. apply insert_by_last.
Qed.

(** ** Strictly sorted lists *)

(** Insertion into a strictly sorted list that ignores an element already
    represented. *)
Fixpoint ins (l : list A) (x : A) : list A :=
  match l with
  | [] => [x]
  | y :: l' => match cmp y x with Lt => y :: ins l' x | Eq => l | Gt => x :: l end
  end.

Lemma ins_elem_of l x y : y ∈ ins l x -> y ∈ l \/ y = x.
Proof.
  induction l as [|z l IH]; simpl; [set_solver|]. destruct (cmp z x); set_solver.
Qed.

Lemma ins_mono l x y : y ∈ l -> y ∈ ins l x.
Proof. induction l as [|z l IH]; simpl; [set_solver|]. destruct (cmp z x); set_solver. Qed.

Lemma ins_covers l x : exists y, y ∈ ins l x /\ cmp y x = Eq.
Proof using TotalCmp0.
  induction l as [|z l IH]; simpl.
  { exists x. split; [set_solver|apply (cmp_refl cmp)]. }
  destruct (cmp z x) eqn:E.
  - exists z. split; [set_solver|done].
  - destruct IH as (y & Hy & ?). exists y. split; [set_solver|done].
  - exists x. split; [set_solver|apply (cmp_refl cmp)].
Qed.

Lemma ins_sorted l x : StronglySorted clt l -> StronglySorted clt (ins l x).
Proof using TotalCmp0.
  induction 1 as [|y l Hl IH Hy]; simpl; [by repeat constructor|].
  destruct (cmp y x) eqn:E.
  - by constructor.
  - constructor; [done|]. apply Forall_forall. intros z [Hz| ->]%ins_elem_of; [|done].
    by eapply Forall_forall in Hy.
  - apply cmp_gt in E. repeat constructor; auto.
    eapply Forall_impl; [exact Hy|]. intros z Hz. by etrans.
Qed.

Lemma ins_above l x : (forall y, y ∈ l -> clt y x) -> ins l x = l ++ [x].
Proof.
  induction l as [|y l IH]; intros H; [done|]. simpl.
  pose proof (H y ltac:(set_solver)) as Hy. unfold clt in Hy. rewrite Hy. f_equal.
  apply IH. set_solver.
Qed.

Lemma take_ins k l x : take k (ins l x) = take k (ins (take k l) x).
Proof.
  revert k. induction l as [|y l IH]; intros [|k]; [done..|]. simpl.
  destruct (cmp y x); simpl; rewrite ?take_take, ?Nat.min_id; try done.
  - by rewrite IH.
  - destruct k; [done|]. simpl. by rewrite take_take, Nat.min_l by lia.
Qed.

Lemma take_foldl_ins k l l' :
  take k (foldl ins l l') = take k (foldl ins (take k l) l').
Proof.
  induction l' as [|x l' IH] using rev_ind; simpl; [by rewrite take_take, Nat.min_id|].
  rewrite !foldl_app. simpl. rewrite take_ins, IH, <- take_ins. done.
Qed.

(** ** [Vec::dedup_by]: of a run of equal elements the first stays *)

Context (same : A -> A -> bool) (same_spec : forall x y, same x y = true <-> cmp x y = Eq).

Fixpoint dedup_from (p : A) (l : list A) : list A :=
  match l with
  | [] => []
  | x :: l => if same x p then dedup_from p l else x :: dedup_from x l
  end.

Definition dedup_by (l : list A) : list A :=
  match l with [] => [] | x :: l => x :: dedup_from x l end.

Lemma same_sym x y : same x y = true -> same y x = true.
Proof. rewrite !same_spec. apply ceq_sym. Qed.

Lemma same_false x y : same x y = false <-> cmp x y <> Eq.
Proof. rewrite <- same_spec. by destruct (same x y). Qed.

Lemma dedup_insert_last p x l :
  StronglySorted cle (p :: l) -> cle p x ->
  p :: dedup_from p (insert_last x l) = ins (p :: dedup_from p l) x.
Proof using TotalCmp0 same_spec.
  revert p. induction l as [|y l IH]; intros p Hs Hpx; simpl.
  { destruct (same x p) eqn:E.
    - apply same_spec, ceq_sym in E. by rewrite E.
    - apply same_false in E. destruct (cle_cases p x Hpx) as [Hlt|Heq].
      + unfold clt in Hlt. by rewrite Hlt.
      + by apply ceq_sym in Heq. }
  apply StronglySorted_inv in Hs as [Hs Hp]. inversion_clear Hp as [|?? Hpy Hpl].
  assert (StronglySorted cle (p :: l)) as Hs'.
  { apply StronglySorted_inv in Hs as [??]. by constructor. }
  destruct (cmp y x) eqn:Eyx.
  3:{ (* x goes before y *)
    assert (clt x y) as Hxy by by apply cmp_gt.
    assert (clt p y) as Hpy' by exact (cle_clt_trans _ _ _ Hpx Hxy).
    assert (same y p = false) as Nyp
      by (apply same_false; rewrite (cmp_sym cmp p y), Hpy'; done).
    assert (same y x = false) as Nyx
      by (apply same_false; rewrite (cmp_sym cmp x y), Hxy; done).
    simpl. destruct (same x p) eqn:Exp; rewrite ?Nyp, ?Nyx.
    - apply same_spec, ceq_sym in Exp. by rewrite Exp.
    - apply same_false in Exp. destruct (cle_cases p x Hpx) as [Hlt|Heq];
        [|by apply ceq_sym in Heq].
      unfold clt in Hlt. simpl. by rewrite Hlt, Eyx. }
  1,2: assert (cle y x) as Hyx by (unfold cle; congruence); simpl;
    destruct (same y p) eqn:Eyp; [by apply (IH p)|];
    assert (clt p y) as Hpy' by (destruct (cle_cases p y Hpy) as [?|Heq]; [done|];
      apply same_false in Eyp; by apply ceq_sym in Heq);
    pose proof (clt_cle_trans _ _ _ Hpy' Hyx) as Hpx'; unfold clt in Hpx'; simpl;
    rewrite Hpx'; f_equal; by rewrite (IH y) by done.
Qed.

Definition dedup_sort (l : list A) : list A := dedup_by (sort_by l).

Lemma dedup_sort_snoc l x : dedup_sort (l ++ [x]) = ins (dedup_sort l) x.
Proof using TotalCmp0 same_spec.
  unfold dedup_sort. rewrite sort_by_snoc. pose proof (sort_by_sorted l) as Hs.
  destruct (sort_by l) as [|y l']; simpl; [done|].
  destruct (cmp y x) eqn:E.
  3: { simpl. destruct (same y x) eqn:Es; [apply same_spec in Es; congruence|done]. }
  1,2: simpl; rewrite (dedup_insert_last y x l') by (done || unfold cle; congruence);
    simpl; by rewrite E.
Qed.

Lemma dedup_sort_foldl l : dedup_sort l = foldl ins [] l.
Proof using TotalCmp0 same_spec.
  induction l as [|x l IH] using rev_ind; [done|].
  by rewrite dedup_sort_snoc, foldl_app, IH.
Qed.

Lemma dedup_sort_sorted l : StronglySorted clt (dedup_sort l).
Proof using TotalCmp0 same_spec.
  rewrite dedup_sort_foldl. induction l as [|x l IH] using rev_ind; [constructor|].
  rewrite foldl_app. by apply ins_sorted.
Qed.

Lemma dedup_sort_elem_of l x : x ∈ dedup_sort l -> x ∈ l.
Proof using TotalCmp0 same_spec.
  rewrite dedup_sort_foldl. induction l as [|y l IH] using rev_ind; [done|].
  rewrite foldl_app. simpl. intros [?| ->]%ins_elem_of; set_solver.
Qed.

Lemma dedup_sort_covers l x : x ∈ l -> exists y, y ∈ dedup_sort l /\ cmp y x = Eq.
Proof using TotalCmp0 same_spec.
  rewrite dedup_sort_foldl. induction l as [|z l IH] using rev_ind; [set_solver|].
  rewrite foldl_app. simpl. intros [Hx|Hx%list_elem_of_singleton]%elem_of_app.
  - destruct (IH Hx) as (y & Hy & ?). exists y. split; [by apply ins_mono|done].
  - subst. apply ins_covers.
Qed.

Lemma dedup_sort_id l : StronglySorted clt l -> dedup_sort l = l.
Proof using TotalCmp0 same_spec.
  rewrite dedup_sort_foldl. induction l as [|x l IH] using rev_ind; [done|].
  intros Hs. rewrite foldl_app. simpl. rewrite IH.
  - apply ins_above. intros y Hy.
    apply StronglySorted_app_1_elem_of with (x1 := y) (x2 := x) in Hs; [done|done|set_solver].
  - by apply StronglySorted_app_1_l in Hs.
Qed.

(** ** The [k] best of a list: sort, dedup, truncate *)

Definition closest (k : nat) (l : list A) : list A := take k (dedup_sort l).

Lemma closest_sorted k l : StronglySorted clt (closest k l).
Proof using TotalCmp0 same_spec.
  pose proof (dedup_sort_sorted l) as H. unfold closest.
  rewrite <- (take_drop k) in H. by apply StronglySorted_app_1_l in H.
Qed.

(** Truncating to the [k] best at every round loses nothing. *)
Lemma closest_absorb k l l' : closest k (closest k l ++ l') = closest k (l ++ l').
Proof using TotalCmp0 same_spec.
  unfold closest at 1 3. rewrite !dedup_sort_foldl, !foldl_app, <- !dedup_sort_foldl.
  rewrite (dedup_sort_id (closest k l)) by apply closest_sorted.
  unfold closest. by rewrite <- take_foldl_ins.
Qed.

Lemma closest_length k l : length (closest k l) <= k.
Proof. unfold closest. rewrite length_take. lia. Qed.

Lemma closest_elem_of k l x : x ∈ closest k l -> x ∈ l.
Proof using TotalCmp0 same_spec.
  intros H. apply dedup_sort_elem_of.
  unfold closest in H. apply elem_of_take in H as (i & ? & ?).
  by eapply list_elem_of_lookup_2.
Qed.

(** What is left out is no better than anything kept, and then the answer
    is full. *)
Lemma closest_optimal k l x :
  x ∈ l ->
  (exists y, y ∈ closest k l /\ cmp y x = Eq) \/
  (length (closest k l) = k /\ forall y, y ∈ closest k l -> clt y x).
Proof using TotalCmp0 same_spec.
  intros (y & Hy & Heq)%dedup_sort_covers. pose proof (dedup_sort_sorted l) as Hs.
  unfold closest. rewrite <- (take_drop k (dedup_sort l)) in Hy, Hs.
  apply elem_of_app in Hy as [Hy|Hy]; [by left; exists y|right]. split.
  - rewrite length_take_le; [done|]. apply list_elem_of_lookup in Hy as [i Hi].
    rewrite lookup_drop in Hi. apply lookup_lt_Some in Hi. lia.
  - intros z Hz. apply (clt_cle_trans _ y); [|by destruct (ceq_cle _ _ Heq)].
    exact (StronglySorted_app_1_elem_of _ _ _ z y Hs Hz Hy).
Qed.
End total_cmp.

(** ** [Iterator::position] and the removals by index *)

Definition position {A} (P : A -> Prop) `{forall x, Decision (P x)} (l : list A) : option nat :=
  fst <$> list_find P l.

(** [Vec::swap_remove]: the last element takes the place of element [i].
    (The code only calls it with an index [position] has returned.) *)
Definition swap_remove {A} (i : nat) (l : list A) : list A :=
  match last l with
  | Some x => take (length l - 1) (<[i := x]> l)
  | None => l
  end.

Lemma swap_remove_Permutation {A} (i : nat) (x : A) (l : list A) :
  l !! i = Some x -> l ≡ₚ x :: swap_remove i l.
Proof.
  intros Hi. destruct l as [|y l _] using rev_ind; [done|].
  unfold swap_remove. rewrite last_snoc, length_app. simpl.
  replace (length l + 1 - 1) with (length l) by lia.
  destruct (decide (i < length l)) as [Hlt|Hge].
  - rewrite lookup_app_l in Hi by done. rewrite insert_app_l by done.
    rewrite take_app_length' by by rewrite length_insert.
    rewrite (delete_Permutation _ _ _ Hi) at 1.
    rewrite (delete_Permutation (<[i:=y]> l) i y) by by apply list_lookup_insert_eq.
    rewrite !delete_take_drop, take_insert_ge, drop_insert_lt by lia. simpl.
    etrans; [apply (Permutation_app_comm (x :: _))|]. apply perm_swap.
  - assert (i = length l) as ->.
    { apply lookup_lt_Some in Hi. rewrite length_app in Hi. simpl in Hi. lia. }
    rewrite lookup_app_r, Nat.sub_diag in Hi by lia. injection Hi as <-.
    rewrite insert_app_r_alt, take_app_length by lia. by rewrite Permutation_app_comm.
Qed.

(** [l'] is [l] with one occurrence of [x], if it has any, taken out. *)
Definition removes {A} (x : A) (l l' : list A) : Prop :=
  ((x ∉ l) /\ l' = l) \/ (l ≡ₚ x :: l').

Section remove_exact.
Context {A : Type} `{EqDecision A}.

(** [if let Some(i) = v.iter().position(|c| c == x) { v.swap_remove(i); }],
    and the same with [Vec::remove], which keeps the order. *)
Definition swap_remove_exact (x : A) (l : list A) : list A :=
  match position (fun c => c = x) l with Some i => swap_remove i l | None => l end.

Definition remove_exact (x : A) (l : list A) : list A :=
  match position (fun c => c = x) l with Some i => delete i l | None => l end.

Lemma position_eq_Some (x : A) l i : position (fun c => c = x) l = Some i -> l !! i = Some x.
Proof.
  unfold position. intros ([j y] & (? & -> & _)%list_find_Some & ->)%fmap_Some. done.
Qed.

Lemma position_eq_None (x : A) l : position (fun c => c = x) l = None -> x ∉ l.
Proof.
  unfold position. intros H%fmap_None. apply list_find_None in H.
  intros Hx. by eapply Forall_forall in H.
Qed.

Lemma swap_remove_exact_spec x l :
  removes x l (swap_remove_exact x l).
Proof.
  unfold swap_remove_exact. destruct (position _ l) as [i|] eqn:E.
  - right. by apply swap_remove_Permutation, position_eq_Some.
  - left. split; [by apply position_eq_None|done].
Qed.

Lemma remove_exact_spec x l :
  removes x l (remove_exact x l).
Proof.
  unfold remove_exact. destruct (position _ l) as [i|] eqn:E.
  - right. by apply delete_Permutation, position_eq_Some.
  - left. split; [by apply position_eq_None|done].
Qed.
End remove_exact.

(** The two removals behave alike as far as membership goes. *)
Lemma removal_elem_of {A} (x y : A) (l l' : list A) :
  removes x l l' -> y ∈ l' -> y ∈ l.
Proof. intros [[_ ->]| ->]; set_solver. Qed.

Lemma removal_keeps {A} (x y : A) (l l' : list A) :
  removes x l l' -> y ∈ l -> y <> x -> y ∈ l'.
Proof. intros [[_ ->]| ->]; set_solver. Qed.

Lemma removal_length {A} (x : A) (l l' : list A) :
  removes x l l' -> length l' <= length l.
Proof. intros [[_ ->]|H]; [done|]. rewrite H. simpl. lia. Qed.

Lemma removal_NoDup_fmap {A B} (f : A -> B) (x : A) (l l' : list A) :
  removes x l l' -> NoDup (f <$> l) -> NoDup (f <$> l').
Proof.
  intros [[_ ->]|H]; [done|]. rewrite H. simpl. by intros [_ ?]%NoDup_cons.
Qed.

Lemma delete_sorted {A} (R : relation A) i (l : list A) :
  StronglySorted R l -> StronglySorted R (delete i l).
Proof.
  intros H. rewrite delete_take_drop.
  assert (StronglySorted R (take i l)) as H1.
  { rewrite <- (take_drop i) in H. by apply StronglySorted_app_1_l in H. }
  assert (StronglySorted R (drop (S i) l)) as H2.
  { rewrite <- (take_drop (S i)) in H. by apply StronglySorted_app_1_r in H. }
  apply StronglySorted_app_2; [|done|done]. intros x y Hx Hy.
  rewrite <- (take_drop (S i)) in H. eapply StronglySorted_app_1_elem_of; [exact H| |done].
  apply elem_of_take in Hx as (j & ? & ?). apply elem_of_take. exists j. split; [done|lia].
Qed.

(** ** [slice::partition_point] on a partitioned slice *)

Fixpoint partition_point {A} (f : A -> bool) (l : list A) : nat :=
  match l with
  | [] => 0
  | x :: l => if f x then S (partition_point f l) else 0
  end.

Lemma partition_point_all {A} (f : A -> bool) l :
  (forall x, x ∈ l -> f x = true) -> partition_point f l = length l.
Proof.
  induction l as [|x l IH]; intros Hf; simpl; [done|]. rewrite Hf by set_solver.
  by rewrite IH by set_solver.
Qed.

(** ** [Iterator::max_by_key]: of several maxima the last one *)

Definition max_by {A} (le : A -> A -> bool) (l : list A) : option A :=
  foldl (fun best x => match best with
    | None => Some x
    | Some b => Some (if le b x then x else b)
    end) None l.

Section max_by.
Context {A : Type} (le : A -> A -> bool)
  (le_total : forall x y, le x y = false -> le y x = true)
  (le_trans : forall x y z, le x y = true -> le y z = true -> le x z = true).

Lemma max_by_snoc l x :
  max_by le (l ++ [x]) = Some (match max_by le l with Some b => if le b x then x else b | None => x end).
Proof. unfold max_by. rewrite foldl_app. simpl. by destruct (foldl _ _ l). Qed.

Lemma max_by_spec l b :
  max_by le l = Some b -> b ∈ l /\ forall x, x ∈ l -> le x b = true.
Proof using le_total le_trans.
  assert (forall x, le x x = true) as le_refl.
  { intros x. destruct (le x x) eqn:E; [done|]. by apply le_total in E as E'; congruence. }
  revert b. induction l as [|x l IH] using rev_ind; [done|]. intros b.
  rewrite max_by_snoc. intros [= <-]. destruct (max_by le l) as [c|] eqn:E.
  - destruct (IH c eq_refl) as [Hc Hmax]. destruct (le c x) eqn:Ecx.
    + split; [set_solver|]. intros y [Hy|Hy%list_elem_of_singleton]%elem_of_app; subst; eauto.
    + split; [set_solver|]. intros y [Hy|Hy%list_elem_of_singleton]%elem_of_app; subst; eauto.
  - split; [set_solver|]. intros y [Hy|Hy%list_elem_of_singleton]%elem_of_app; [|by subst].
    destruct l as [|z l' _] using rev_ind; [set_solver|]. by rewrite max_by_snoc in E.
Qed.

Lemma max_by_None l : max_by le l = None <-> l = [].
Proof.
  destruct l as [|x l _] using rev_ind; [done|]. rewrite max_by_snoc.
  split; [done|]. intros H. by destruct l.
Qed.
End max_by.

(** [Iterator::find_map]. *)
Fixpoint find_map {A C} (f : A -> option C) (l : list A) : option C :=
  match l with
  | [] => None
  | x :: l => match f x with Some y => Some y | None => find_map f l end
  end.

Lemma find_map_Some {A C} (f : A -> option C) l y : find_map f l = Some y -> exists x, f x = Some y.
Proof.
  induction l as [|x l IH]; simpl; [done|]. destruct (f x) eqn:E; [|done]. intros [= ->]. eauto.
Qed.
