(* ===== verification/Machine.v ===== *)
(** * Machine: bytes, fixed-width integers and fixed-size byte arrays

    [u8] is [Byte.byte]; [u16], [u32] and [u64] are natural numbers below
    [2^w] ([uint w], the bound is part of the type); [[u8; n]] is a byte list
    of length [n] ([array n], likewise).  The big-endian reading of a byte
    list, its XOR and its order are developed here; node ids, request ids and
    the wire framing build on them. *)

From S2P Require Import Prelude.

Abbreviation bytes := (list byte) (only parsing).

(** ** Bytes *)

#[export] Instance byte_eq_dec : EqDecision byte := byte_eq_dec.
#[export] Program Instance byte_countable : Countable byte :=
  inj_countable Byte.to_N Byte.of_N _.
Next Obligation. apply Byte.of_to_N. Qed.

(** [n as u8]: the low eight bits. *)
Definition u8 (n : N) : byte := default x00 (Byte.of_N (n mod 256)).

Lemma to_N_u8 n : Byte.to_N (u8 n) = (n mod 256)%N.
Proof.
  unfold u8. destruct (Byte.of_N (n mod 256)) as [b|] eqn:E; simpl.
  - by apply Byte.to_of_N.
  - apply Byte.of_N_None_iff in E. pose proof (N.mod_lt n 256 ltac:(done)). lia.
Qed.

Lemma byte_lt b : (Byte.to_N b < 256)%N.
Proof. pose proof (Byte.to_N_bounded b). lia. Qed.

Lemma to_N_inj a b : Byte.to_N a = Byte.to_N b -> a = b.
Proof. intros H. apply (f_equal Byte.of_N) in H. rewrite !Byte.of_to_N in H. congruence. Qed.

Lemma u8_to_N b : u8 (Byte.to_N b) = b.
Proof. apply to_N_inj. rewrite to_N_u8, N.mod_small; [done|apply byte_lt]. Qed.

#[export] Hint Resolve byte_lt : kad.

(** [u8]'s [^] and [u8::leading_zeros]. *)
Definition bxor (a b : byte) : byte := u8 (N.lxor (Byte.to_N a) (Byte.to_N b)).
Definition byte_leading_zeros (b : byte) : nat := 8 - N.to_nat (N.size (Byte.to_N b)).

Lemma lxor_lt k a b : (a < 2 ^ k -> b < 2 ^ k -> N.lxor a b < 2 ^ k)%N.
Proof.
  intros Ha Hb. apply N.mod_small_iff; [by apply N.pow_nonzero|].
  rewrite <- (N.mod_small a (2 ^ k)), <- (N.mod_small b (2 ^ k)) by done.
  rewrite <- !N.land_ones. apply N.bits_inj. intros i.
  rewrite !N.land_spec, !N.lxor_spec, !N.land_spec.
  by destruct (N.testbit a i), (N.testbit b i), (N.testbit (N.ones k) i).
Qed.

Lemma to_N_bxor a b : Byte.to_N (bxor a b) = N.lxor (Byte.to_N a) (Byte.to_N b).
Proof.
  unfold bxor. rewrite to_N_u8. apply N.mod_small.
  apply (lxor_lt 8); apply byte_lt.
Qed.

(** ** Big-endian value of a byte list *)

Definition be_val (l : bytes) : N := foldl (fun acc b => acc * 256 + Byte.to_N b)%N 0%N l.

Lemma be_val_snoc l b : be_val (l ++ [b]) = (be_val l * 256 + Byte.to_N b)%N.
Proof. unfold be_val. by rewrite foldl_app. Qed.

Lemma be_val_app l l' : be_val (l ++ l') = (be_val l * 256 ^ N.of_nat (length l') + be_val l')%N.
Proof.
  induction l' as [|b l' IH] using rev_ind.
  - rewrite app_nil_r. simpl. rewrite N.mul_1_r. unfold be_val at 3. simpl. lia.
  - rewrite app_assoc, !be_val_snoc, IH, length_app. simpl.
    rewrite Nat.add_1_r, Nat2N.inj_succ, N.pow_succ_r'. lia.
Qed.

Lemma be_val_cons b l : be_val (b :: l) = (Byte.to_N b * 256 ^ N.of_nat (length l) + be_val l)%N.
Proof. change (b :: l) with ([b] ++ l). rewrite be_val_app. unfold be_val at 1. simpl. lia. Qed.

Lemma be_val_lt l : (be_val l < 256 ^ N.of_nat (length l))%N.
Proof.
  induction l as [|b l IH] using rev_ind; [done|].
  rewrite be_val_snoc, length_app. simpl. rewrite Nat.add_1_r, Nat2N.inj_succ, N.pow_succ_r'.
  pose proof (byte_lt b). nia.
Qed.

Lemma be_val_inj l l' : length l = length l' -> be_val l = be_val l' -> l = l'.
Proof.
  revert l'. induction l as [|b l IH] using rev_ind; intros l' Hl Hv.
  { by destruct l'. }
  destruct l' as [|b' l' _] using rev_ind; [rewrite length_app in Hl; simpl in Hl; lia|].
  rewrite !length_app in Hl. simpl in Hl. rewrite !be_val_snoc in Hv.
  pose proof (byte_lt b). pose proof (byte_lt b').
  assert (be_val l = be_val l' /\ Byte.to_N b = Byte.to_N b') as [? ?] by nia.
  f_equal; [apply IH; [lia|done]|]. f_equal. by apply to_N_inj.
Qed.

(** Lexicographic comparison of byte sequences: [Iterator::cmp], which is also
    the derived [Ord] of arrays. *)
Fixpoint lex_cmp (l l' : bytes) : comparison :=
  match l, l' with
  | [], [] => Eq
  | [], _ :: _ => Lt
  | _ :: _, [] => Gt
  | x :: l, y :: l' =>
      match N.compare (Byte.to_N x) (Byte.to_N y) with Eq => lex_cmp l l' | c => c end
  end.

(** On equal lengths it is the numeric order of the big-endian values. *)
Lemma lex_cmp_be_val l l' :
  length l = length l' -> lex_cmp l l' = N.compare (be_val l) (be_val l').
Proof.
  revert l'. induction l as [|x l IH]; intros [|y l'] Hl; try done.
  simpl in Hl. injection Hl as Hl. rewrite !be_val_cons, Hl. simpl.
  pose proof (be_val_lt l) as Hb. pose proof (be_val_lt l') as Hb'. rewrite Hl in Hb.
  set (p := (256 ^ N.of_nat (length l'))%N) in *.
  destruct (N.compare_spec (Byte.to_N x) (Byte.to_N y)) as [Heq|Hlt|Hgt].
  - rewrite IH by done. rewrite Heq.
    destruct (N.compare_spec (be_val l) (be_val l')) as [H|H|H]; symmetry.
    + apply N.compare_eq_iff. lia.
    + apply N.compare_lt_iff. lia.
    + apply N.compare_gt_iff. lia.
  - symmetry. apply N.compare_lt_iff. nia.
  - symmetry. apply N.compare_gt_iff. nia.
Qed.

(** ** XOR of byte lists, and its value *)

Lemma testbit_high k z i : (z < 2 ^ k -> k <= i -> N.testbit z i = false)%N.
Proof. intros Hz Hi. rewrite <- (N.mod_small z (2 ^ k)) by done. by apply N.mod_pow2_bits_high. Qed.

Lemma testbit_shift_add c z i :
  (z < 256)%N ->
  N.testbit (c * 256 + z) i = if (i <? 8)%N then N.testbit z i else N.testbit c (i - 8).
Proof.
  intros Hz. change 256%N with (2 ^ 8)%N in *. destruct (N.ltb_spec i 8) as [Hi|Hi].
  - rewrite <- (N.mod_pow2_bits_low (c * 2 ^ 8 + z) 8 i) by done.
    by rewrite N.add_comm, N.Div0.mod_add, N.mod_small.
  - replace i with (i - 8 + 8)%N at 1 by lia.
    rewrite <- N.div_pow2_bits, N.div_add_l, (N.div_small z), N.add_0_r by done. done.
Qed.

Lemma lxor_snoc a b x y :
  (x < 256 -> y < 256 ->
   N.lxor (a * 256 + x) (b * 256 + y) = N.lxor a b * 256 + N.lxor x y)%N.
Proof.
  intros Hx Hy. apply N.bits_inj. intros i.
  rewrite N.lxor_spec, !testbit_shift_add by (done || by apply (lxor_lt 8)).
  destruct (i <? 8)%N; by rewrite N.lxor_spec.
Qed.

Lemma be_val_xor l l' :
  length l = length l' ->
  be_val (zip_with bxor l l') = N.lxor (be_val l) (be_val l').
Proof.
  revert l'. induction l as [|b l IH] using rev_ind; intros l' Hl.
  { by destruct l'. }
  destruct l' as [|b' l' _] using rev_ind; [rewrite length_app in Hl; simpl in Hl; lia|].
  rewrite !length_app in Hl. simpl in Hl.
  rewrite zip_with_app by lia. simpl. rewrite !be_val_snoc, IH by lia.
  rewrite to_N_bxor, lxor_snoc by apply byte_lt. done.
Qed.

(** ** Fixed-width unsigned integers *)

(** Boolean facts proved by computation, so that closed terms reduce to [I]. *)
Definition by_eval {b : bool} : Is_true b -> Is_true b :=
  match b as b' return Is_true b' -> Is_true b' with true => fun _ => I | false => fun h => h end.

Record uint (w : N) : Type := MkUint {
  uval : N;
  uval_lt : Is_true (uval <? 2 ^ w)%N
}.
Arguments MkUint {w} uval uval_lt.
Arguments uval {w} u.
Arguments uval_lt {w} u.

Abbreviation u16 := (uint 16) (only parsing).
Abbreviation u32 := (uint 32) (only parsing).
Abbreviation u64 := (uint 64) (only parsing).

Lemma uint_eq {w} (a b : uint w) : uval a = uval b -> a = b.
Proof.
  destruct a as [a Ha], b as [b Hb]. simpl. intros ->. f_equal. apply proof_irrel.
Qed.

Lemma uint_bound {w} (a : uint w) : (uval a < 2 ^ w)%N.
Proof. apply N.ltb_lt, Is_true_eq_true, uval_lt. Qed.

#[export] Instance uint_eq_dec w : EqDecision (uint w).
Proof.
  intros a b. destruct (decide (uval a = uval b)) as [H|H].
  - left. by apply uint_eq.
  - right. congruence.
Defined.

(** The value modulo [2^w], Rust's [as] and the wrapping operators. *)
Program Definition wrap (w : N) (n : N) : uint w := MkUint (n mod 2 ^ w)%N (by_eval _).
Next Obligation.
  intros w n. apply Is_true_eq_left, N.ltb_lt, N.mod_lt, N.pow_nonzero. done.
Qed.

Lemma uval_wrap w n : uval (wrap w n) = (n mod 2 ^ w)%N.
Proof. done. Qed.

Lemma wrap_uval {w} (a : uint w) : wrap w (uval a) = a.
Proof. apply uint_eq. simpl. apply N.mod_small, uint_bound. Qed.

#[export] Program Instance uint_countable w : Countable (uint w) :=
  inj_countable' uval (wrap w) _.
Next Obligation. intros w a. apply wrap_uval. Qed.

(** ** Fixed-size byte arrays *)

Record array (n : nat) : Type := MkArray {
  elems : bytes;
  elems_len : Is_true (length elems =? n)
}.
Arguments MkArray {n} elems elems_len.
Arguments elems {n} a.
Arguments elems_len {n} a.

Lemma array_eq {n} (a b : array n) : elems a = elems b -> a = b.
Proof. destruct a as [a Ha], b as [b Hb]. simpl. intros ->. f_equal. apply proof_irrel. Qed.

Lemma array_length {n} (a : array n) : length (elems a) = n.
Proof. apply Nat.eqb_eq, Is_true_eq_true, elems_len. Qed.

#[export] Hint Rewrite @array_length : kad.

#[export] Instance array_eq_dec n : EqDecision (array n).
Proof.
  intros a b. destruct (decide (elems a = elems b)) as [H|H].
  - left. by apply array_eq.
  - right. congruence.
Defined.

(** [<[u8; n]>::try_from(slice)]. *)
Definition array_of (n : nat) (l : bytes) : option (array n) :=
  match decide (Is_true (length l =? n)) with
  | left H => Some (MkArray l (by_eval H))
  | right _ => None
  end.

Lemma array_of_Some n l a : array_of n l = Some a <-> elems a = l.
Proof.
  unfold array_of. destruct (decide _) as [H|H]; split; intros Ha.
  - by injection Ha as <-.
  - f_equal. by apply array_eq.
  - done.
  - subst. destruct H. apply elems_len.
Qed.

Lemma array_of_elems n (a : array n) : array_of n (elems a) = Some a.
Proof. by apply array_of_Some. Qed.

Lemma array_of_is_Some n l : length l = n -> is_Some (array_of n l).
Proof.
  intros H. unfold array_of. destruct (decide _) as [?|Hn]; [done|].
  destruct Hn. by apply Is_true_eq_left, Nat.eqb_eq.
Qed.

#[export] Program Instance array_countable n : Countable (array n) :=
  inj_countable elems (array_of n) _.
Next Obligation. intros n a. apply array_of_elems. Qed.

(** [std::array::from_fn] over two arrays, and [[b; n]]. *)
Program Definition array_zip {n} (f : byte -> byte -> byte) (a b : array n) : array n :=
  MkArray (zip_with f (elems a) (elems b)) (by_eval _).
Next Obligation.
  intros n f a b. apply Is_true_eq_left, Nat.eqb_eq.
  rewrite length_zip_with, !array_length. lia.
Qed.

Program Definition array_repeat (n : nat) (b : byte) : array n := MkArray (replicate n b) (by_eval _).
Next Obligation. intros n b. apply Is_true_eq_left, Nat.eqb_eq, length_replicate. Qed.

(** ** [to_be_bytes] / [from_be_bytes] *)

Fixpoint be_bytes (n : nat) (v : N) : bytes :=
  match n with
  | O => []
  | S n => be_bytes n (v / 256) ++ [u8 v]
  end.

Lemma be_bytes_length n v : length (be_bytes n v) = n.
Proof. revert v. induction n as [|n IH]; intros v; simpl; [done|]. rewrite length_app, IH. simpl. lia. Qed.

Lemma be_val_be_bytes n v : be_val (be_bytes n v) = (v mod 256 ^ N.of_nat n)%N.
Proof.
  revert v. induction n as [|n IH]; intros v; [by rewrite N.mod_1_r|].
  cbn [be_bytes]. rewrite be_val_snoc, IH, to_N_u8, Nat2N.inj_succ, N.pow_succ_r'.
  rewrite N.Div0.mod_mul_r. lia.
Qed.

Lemma be_bytes_be_val l : be_bytes (length l) (be_val l) = l.
Proof.
  apply be_val_inj; [apply be_bytes_length|].
  rewrite be_val_be_bytes. apply N.mod_small, be_val_lt.
Qed.
