(* ===== verification/Contacts.v ===== *)
(** * Contacts: ids, the XOR metric and the routing-table interface

    Models [src/close_nodes.rs]: node ids and keys, contacts, [xor_distance],
    [xor_distance_cmp], [leading_zeros], the tuning constants, and the
    [CloseNodes] trait as a type class.  [CloseNodesSpec] states what every
    routing table promises to its clients (the RPC client, the request
    handlers, the lookups); the files on the four tables discharge it. *)

From S2P Require Import Prelude Slices Machine.

(** ** Time *)

(** [std::time::Instant] and [Duration], in nanoseconds. *)
Abbreviation Instant := N (only parsing).
Abbreviation Duration := N (only parsing).
Definition from_millis (n : N) : Duration := (n * 1000000)%N.
Definition from_secs (n : N) : Duration := (n * 1000000000)%N.

(** [Instant::elapsed], which saturates at zero. *)
Definition elapsed (now stored : Instant) : Duration := (now - stored)%N.

(** ** Ids, addresses and contacts *)

Definition B : nat := 256.
Definition ID_BYTES : nat := B / 8.

Abbreviation NodeId := (array 32) (only parsing).
Abbreviation Key := (array 32) (only parsing).

(** [std::net::SocketAddr]. *)
Inductive SocketAddr : Type :=
  | V4 (ip : array 4) (port : u16)
  | V6 (ip : array 16) (port : u16) (flowinfo scope_id : u32).

#[export] Instance SocketAddr_eq_dec : EqDecision SocketAddr.
Proof. solve_decision. Defined.
#[export] Program Instance SocketAddr_countable : Countable SocketAddr :=
  inj_countable'
    (fun a => match a with
      | V4 ip p => inl (ip, p)
      | V6 ip p f s => inr (ip, p, f, s) end)
    (fun c => match c with
      | inl (ip, p) => V4 ip p
      | inr (ip, p, f, s) => V6 ip p f s end) _.
Next Obligation. by intros []. Qed.

Record Contact : Type := MkContact {
  id : NodeId;
  address : SocketAddr
}.

#[export] Instance Contact_eq_dec : EqDecision Contact.
Proof. solve_decision. Defined.
#[export] Program Instance Contact_countable : Countable Contact :=
  inj_countable' (fun c => (id c, address c)) (fun p => MkContact p.1 p.2) _.
Next Obligation. by intros []. Qed.

(** Kademlia's replication parameter. *)
Definition K : nat := 10.

(** ** The XOR metric *)

Definition xor_distance (id target : NodeId) : NodeId := array_zip bxor id target.

Definition xor_distance_cmp (a b target : NodeId) : comparison :=
  lex_cmp (zip_with bxor (elems a) (elems target)) (zip_with bxor (elems b) (elems target)).

Fixpoint leading_zeros_from (zeros : nat) (l : bytes) : nat :=
  match l with
  | [] => zeros
  | byte :: l =>
      if bool_decide (byte <> x00) then zeros + byte_leading_zeros byte
      else leading_zeros_from (zeros + 8) l
  end.

Definition leading_zeros (id : NodeId) : nat := leading_zeros_from 0 (elems id).

(** ** Tuning constants *)

Definition ROUTING_BUCKETS : nat := B.
Definition SIBLINGS : nat := K.
Definition CACHE_TTL : Duration := from_millis 500.
Definition CACHE_CAPACITY : nat := 64.

(** ** The value of an id *)

Definition id_val (a : NodeId) : N := be_val (elems a).

Lemma id_val_inj a b : id_val a = id_val b -> a = b.
Proof. intros H. apply array_eq, be_val_inj; [by rewrite !array_length|done]. Qed.

Lemma id_val_lt a : (id_val a < 2 ^ 256)%N.
Proof.
  unfold id_val. pose proof (be_val_lt (elems a)) as H. by rewrite array_length in H.
Qed.

Lemma id_val_xor a b : id_val (xor_distance a b) = N.lxor (id_val a) (id_val b).
Proof. unfold id_val. simpl. apply be_val_xor. by rewrite !array_length. Qed.

(** [xor_distance_cmp] compares the numeric XOR distances. *)
Lemma xor_distance_cmp_val a b t :
  xor_distance_cmp a b t =
  N.compare (N.lxor (id_val a) (id_val t)) (N.lxor (id_val b) (id_val t)).
Proof.
  unfold xor_distance_cmp. rewrite lex_cmp_be_val.
  - unfold id_val. by rewrite !be_val_xor by by rewrite !array_length.
  - by rewrite !length_zip_with, !array_length.
Qed.

Lemma xor_distance_cmp_eq a b t : xor_distance_cmp a b t = Eq <-> a = b.
Proof.
  rewrite xor_distance_cmp_val, N.compare_eq_iff. split; [|by intros ->].
  intros H. apply id_val_inj. apply (f_equal (fun x => N.lxor x (id_val t))) in H.
  by rewrite !N.lxor_assoc, !N.lxor_nilpotent, !N.lxor_0_r in H.
Qed.

(** Contacts by distance to [t], the order of every [sort_by] in the code. *)
Definition by_distance (t : NodeId) (a b : Contact) : comparison :=
  xor_distance_cmp (id a) (id b) t.

#[export] Instance by_distance_total t : TotalCmp (by_distance t).
Proof.
  unfold by_distance. split.
  - intros x. rewrite xor_distance_cmp_val. by apply N.compare_refl.
  - intros x y. rewrite !xor_distance_cmp_val. by apply N.compare_antisym.
  - intros x y z. rewrite !xor_distance_cmp_val, !N.compare_ngt_iff. lia.
Qed.

(** [dedup_by(|a, b| a.id == b.id)] and [dedup_by_key(|c| c.id)]. *)
Definition same_id (a b : Contact) : bool := bool_decide (id a = id b).

Lemma same_id_spec t a b : same_id a b = true <-> by_distance t a b = Eq.
Proof.
  unfold same_id, by_distance. by rewrite bool_decide_eq_true, xor_distance_cmp_eq.
Qed.

Definition sort_by_distance (t : NodeId) : list Contact -> list Contact := sort_by (by_distance t).

(** [sort_by(xor_distance_cmp(.., t)); dedup_by_key(id); truncate(k)]. *)
Definition closest_to (t : NodeId) (k : nat) (l : list Contact) : list Contact :=
  closest (by_distance t) same_id k l.

(** [a] is at most as far from [t] as [b]; strictly nearer. *)
Abbreviation near_le t := (cle (by_distance t)) (only parsing).
Abbreviation near_lt t := (clt (by_distance t)) (only parsing).

Lemma near_lt_ids t a b : near_lt t a b -> id a <> id b.
Proof.
  unfold clt, by_distance. intros H Heq. rewrite Heq in H.
  assert (xor_distance_cmp (id b) (id b) t = Eq) by by apply xor_distance_cmp_eq.
  congruence.
Qed.

Lemma near_lt_val t a b :
  near_lt t a b <->
  (id_val (xor_distance (id a) t) < id_val (xor_distance (id b) t))%N.
Proof. unfold clt, by_distance. by rewrite xor_distance_cmp_val, !id_val_xor. Qed.

(** ** Leading zeros *)

Lemma size_le_iff v k : (N.size v <= k <-> v < 2 ^ k)%N.
Proof.
  split; intros H.
  - eapply N.lt_le_trans; [apply N.size_gt|]. by apply N.pow_le_mono_r.
  - destruct (N.le_gt_cases (N.size v) k) as [?|Hk]; [done|exfalso].
    destruct (N.eq_dec v 0%N) as [->|Hv]; [simpl in Hk; lia|].
    rewrite N.size_log2 in Hk by done.
    assert (2 ^ k <= 2 ^ N.log2 v)%N by (apply N.pow_le_mono_r; lia).
    pose proof (N.log2_spec v ltac:(lia)). lia.
Qed.

Lemma leading_zeros_from_size z l :
  (N.of_nat (leading_zeros_from z l) =
   N.of_nat z + (8 * N.of_nat (length l) - N.size (be_val l)))%N.
Proof.
  revert z. induction l as [|b l IH]; intros z; simpl; [lia|].
  rewrite be_val_cons. case_bool_decide as Hb.
  - assert (Byte.to_N b <> 0%N) as Hb0.
    { intros H. apply Hb, to_N_inj. by rewrite H. }
    pose proof (byte_lt b) as Hlt. pose proof (be_val_lt l) as Hl.
    assert (256 ^ N.of_nat (length l) = 2 ^ (8 * N.of_nat (length l)))%N as Hp
      by (rewrite N.pow_mul_r; done).
    rewrite Hp in *. set (n := N.of_nat (length l)) in *.
    rewrite (N.size_log2 (_ + _)) by nia.
    assert (N.log2 (Byte.to_N b * 2 ^ (8 * n) + be_val l) = N.log2 (Byte.to_N b) + 8 * n)%N as ->.
    { apply N.log2_unique; [lia|]. pose proof (N.log2_spec (Byte.to_N b) ltac:(lia)) as [H1 H2].
      rewrite N.pow_succ_r' in *. rewrite !N.pow_add_r. split; nia. }
    unfold byte_leading_zeros. rewrite (N.size_log2 (Byte.to_N b)) by done.
    assert (N.log2 (Byte.to_N b) < 8)%N by (apply N.log2_lt_pow2; [lia|done]). lia.
  - subst b. rewrite IH.
    assert (N.size (be_val l) <= 8 * N.of_nat (length l))%N.
    { apply size_le_iff. rewrite N.pow_mul_r. apply be_val_lt. }
    change (Byte.to_N x00) with 0%N. rewrite N.mul_0_l, N.add_0_l. lia.
Qed.

Lemma leading_zeros_size a : (N.of_nat (leading_zeros a) = 256 - N.size (id_val a))%N.
Proof.
  unfold leading_zeros. rewrite leading_zeros_from_size, array_length. unfold id_val. lia.
Qed.

Lemma leading_zeros_le a : leading_zeros a <= 256.
Proof. pose proof (leading_zeros_size a). lia. Qed.

(** [n] leading zeros means a value below [2^(256-n)]. *)
Lemma leading_zeros_ge a n : n <= 256 -> n <= leading_zeros a <-> (id_val a < 2 ^ (256 - N.of_nat n))%N.
Proof.
  intros Hn. rewrite <- size_le_iff. pose proof (leading_zeros_size a).
  pose proof (proj2 (size_le_iff (id_val a) 256) (id_val_lt a)). lia.
Qed.

(** Two ids share their first [n] bits. *)
Definition shares_prefix (n : nat) (a b : NodeId) : Prop :=
  N.shiftr (id_val a) (256 - N.of_nat n) = N.shiftr (id_val b) (256 - N.of_nat n).

Lemma shared_prefix a b n :
  n <= 256 -> n <= leading_zeros (xor_distance a b) <-> shares_prefix n a b.
Proof.
  intros Hn. rewrite leading_zeros_ge by done. unfold shares_prefix.
  rewrite id_val_xor. set (m := (256 - N.of_nat n)%N).
  rewrite <- (N.lxor_eq_0_iff (N.shiftr _ _)), <- N.shiftr_lxor, N.shiftr_div_pow2.
  split; intros H; [by apply N.div_small|].
  apply N.div_small_iff in H; [done|by apply N.pow_nonzero].
Qed.

#[export] Instance shares_prefix_equiv n : Equivalence (shares_prefix n).
Proof. unfold shares_prefix. split; [done|by intros ??|]. intros a b c -> ->. done. Qed.

Lemma shares_prefix_mono m n a b : m <= n -> n <= 256 -> shares_prefix n a b -> shares_prefix m a b.
Proof. intros ??. rewrite <- !shared_prefix by lia. lia. Qed.

(** Two ids that leave a third one at the same bit agree on that bit. *)
Lemma shares_prefix_branch n a b c :
  n < 256 -> shares_prefix n a c -> shares_prefix n b c ->
  ~ shares_prefix (S n) a c -> ~ shares_prefix (S n) b c -> shares_prefix (S n) a b.
Proof.
  intros Hn. unfold shares_prefix. replace (256 - N.of_nat n)%N with (256 - N.of_nat (S n) + 1)%N by lia.
  rewrite <- !N.shiftr_shiftr. set (m := (256 - N.of_nat (S n))%N).
  rewrite !(N.shiftr_div_pow2 (N.shiftr _ _) 1). change (2 ^ 1)%N with 2%N.
  generalize (N.shiftr (id_val a) m) (N.shiftr (id_val b) m) (N.shiftr (id_val c) m).
  assert (forall x, x = 2 * (x / 2) + x mod 2 /\ x mod 2 < 2)%N as Hdiv
    by (intros x; split; [apply N.div_mod'|by apply N.mod_lt]).
  intros x y z. destruct (Hdiv x), (Hdiv y), (Hdiv z).
  generalize dependent (x / 2)%N; generalize dependent (y / 2)%N; generalize dependent (z / 2)%N.
  generalize dependent (x mod 2)%N; generalize dependent (y mod 2)%N; generalize dependent (z mod 2)%N.
  intros. lia.
Qed.

(** Sharing a longer prefix with [t] is being nearer to it. *)
Lemma shares_prefix_near n t a b :
  n <= 256 -> shares_prefix n (id a) t -> ~ shares_prefix n (id b) t -> near_lt t a b.
Proof.
  intros Hn. rewrite <- !shared_prefix by done. rewrite !leading_zeros_ge by done.
  rewrite near_lt_val. lia.
Qed.

(** ** The routing-table interface *)

(** The [CloseNodes] trait.  A query may change the table (a cache does), so
    it is stateful; time is passed to it.  The lazy [contacts_iter] is a
    sequence of chunks, each read off the table when the walk reaches it. *)
Class CloseNodes (A : Type) := {
  close_nodes : Instant -> NodeId -> M A (list Contact);
  maybe_add_contact : Contact -> A -> A;
  remove_contact : Contact -> A -> A;
  contacts_chunks : A -> list (A -> list Contact)
}.

(** [contacts_iter] on a table that does not change meanwhile. *)
Definition contacts_iter {A} `{CloseNodes A} (a : A) : list Contact :=
  mjoin ((fun chunk => chunk a) <$> contacts_chunks a).

(** What a routing table promises its clients. *)
Class CloseNodesSpec (A : Type) `{CloseNodes A} := {
  cn_inv : A -> Prop;
  cn_inv_query now t a : cn_inv a -> cn_inv (close_nodes now t a).2;
  cn_inv_add c a : cn_inv a -> cn_inv (maybe_add_contact c a);
  cn_inv_remove c a : cn_inv a -> cn_inv (remove_contact c a);
  cn_query_length now t a : cn_inv a -> length (close_nodes now t a).1 <= K;
  cn_query_sorted now t a : cn_inv a -> StronglySorted (near_le t) (close_nodes now t a).1;
  cn_query_iter now t a : contacts_iter (close_nodes now t a).2 = contacts_iter a;
  cn_add_iter c a x :
    x ∈ contacts_iter (maybe_add_contact c a) -> x = c \/ x ∈ contacts_iter a;
  cn_remove_iter c a x : x ∈ contacts_iter (remove_contact c a) -> x ∈ contacts_iter a;
  cn_remove_keeps c a x : x ∈ contacts_iter a -> x <> c -> x ∈ contacts_iter (remove_contact c a)
}.
#[export] Hint Resolve cn_inv_query cn_inv_add cn_inv_remove : kad.
