(* ===== verification/Jitter.v ===== *)
(** * Jitter: the length of a period

    Models [jittered] of [src/maintenance.rs] with the binary64 arithmetic of
    [Duration::mul_f64]: a finite non-negative double is a dyadic fraction, and
    every operation rounds its exact result to 53 significant bits, to nearest
    and ties to even.  The random factor is a parameter. *)

From S2P Require Import Prelude Machine Contacts.

Local Open Scope N_scope.

(** ** Doubles *)

(** [n / d], to the nearest integer and ties to even. *)
Definition div_half_even (n d : N) : N :=
  let q := n / d in
  let r := 2 * (n mod d) in
  if (d <? r) || (r =? d) && N.odd q then q + 1 else q.

(** The value [f_num / 2 ^ f_exp]. *)
Record f64 : Type := F64 { f_num : N; f_exp : N }.

(** Rounding to 53 bits. *)
Definition round_f64 (x : f64) : f64 :=
  let extra := N.size (f_num x) - 53 in
  let q := div_half_even (f_num x) (2 ^ extra) in
  if extra <=? f_exp x then F64 q (f_exp x - extra) else F64 (q * 2 ^ (extra - f_exp x)) 0.

Definition f64_of_N (n : N) : f64 := round_f64 (F64 n 0).

Definition f64_mul (a b : f64) : f64 := round_f64 (F64 (f_num a * f_num b) (f_exp a + f_exp b)).

Definition f64_add (a b : f64) : f64 :=
  round_f64 (F64 (f_num a * 2 ^ f_exp b + f_num b * 2 ^ f_exp a) (f_exp a + f_exp b)).

(** [n / d] for integers: enough bits of the quotient and a sticky one. *)
Definition f64_div (n d : N) : f64 :=
  let k := 55 + N.size d - N.size n in
  let t := n * 2 ^ k / d in
  round_f64 (F64 (2 * t + (if n * 2 ^ k mod d =? 0 then 0 else 1)) (k + 1)).

(** ** [Duration] *)

Definition NANOS_PER_SEC : N := 1000000000.

Definition as_secs_f64 (d : Duration) : f64 :=
  f64_add (f64_of_N (d / NANOS_PER_SEC)) (f64_div (d mod NANOS_PER_SEC) NANOS_PER_SEC).

(** To the nearest nanosecond, ties to even. *)
Definition from_secs_f64 (x : f64) : Duration := div_half_even (f_num x * NANOS_PER_SEC) (2 ^ f_exp x).

Definition mul_f64 (d : Duration) (factor : f64) : Duration := from_secs_f64 (f64_mul factor (as_secs_f64 d)).

(** ** [jittered] *)

(** 0.5, as a fraction. *)
Definition JITTER : f64 := F64 1 1.

(** [rand::random_range(1.0 - JITTER..1.0 + JITTER)] can give [factor]. *)
Definition in_jitter_range (factor : f64) : bool :=
  let one := 2 ^ f_exp JITTER in
  ((one - f_num JITTER) * 2 ^ f_exp factor <=? f_num factor * one) &&
  (f_num factor * one <? (one + f_num JITTER) * 2 ^ f_exp factor).

Definition jittered (factor : f64) (period : Duration) : Duration := mul_f64 period factor.

Example jittered_examples :
  (jittered (F64 1 1) (from_secs 10), jittered (F64 5 2) (from_secs 3600), jittered (F64 1 0) (from_millis 1500),
   jittered (F64 6004799503160661 53) (from_secs 3), jittered (F64 1 1) 3)
  = (from_secs 5, from_secs 4500, from_millis 1500, from_secs 2, 1).
Proof. vm_compute. reflexivity. Qed.

(** ** Bounds *)

Lemma div_half_even_le n d x : d <> 0 -> x * d <= n -> x <= div_half_even n d.
Proof.
  intros Hd Hx. assert (x <= n / d) by (apply N.div_le_lower_bound; lia).
  unfold div_half_even. case_match; lia.
Qed.

Lemma div_half_even_ge n d x : d <> 0 -> n <= x * d -> div_half_even n d <= x.
Proof.
  intros Hd Hx. pose proof (N.div_mod n d Hd) as Hn.
  assert (n / d <= x) by (apply N.Div0.div_le_upper_bound; lia).
  unfold div_half_even. set (q := n / d) in *. set (r := n mod d) in *. clearbody q r.
  destruct (decide (q = x)) as [->|]; [|case_match; lia].
  assert (r = 0) as -> by lia. rewrite (proj2 (N.ltb_ge d (2 * 0))) by lia.
  by rewrite (proj2 (N.eqb_neq (2 * 0) d)) by lia.
Qed.

Lemma div_half_even_1 n : div_half_even n 1 = n.
Proof. apply N.le_antisymm; [apply div_half_even_ge|apply div_half_even_le]; lia. Qed.

(** A number of more than 53 bits is at least this large. *)
Lemma size_extra a : 0 < N.size a - 53 -> 2 ^ 52 * 2 ^ (N.size a - 53) <= a.
Proof.
  intros He. rewrite <- N.pow_add_r. assert (a <> 0) as Ha by (intros ->; simpl in He; lia).
  rewrite N.size_log2 by done. rewrite N.size_log2 in He by done.
  replace (52 + (N.succ (N.log2 a) - 53)) with (N.log2 a) by lia. apply N.log2_spec. lia.
Qed.

Section rounding.
Context (a k m : N) (m_small : m < 2 ^ 53).
Let extra := N.size a - 53.
Let q := div_half_even a (2 ^ extra).

(** Rounding keeps a value on its side of any half of a number of 53 bits. *)
Lemma rounded_above : m * 2 ^ k <= 2 * a -> m * 2 ^ k <= 2 * (q * 2 ^ extra).
Proof using m_small.
  intros Hm. destruct (N.lt_ge_cases extra k) as [Hk|Hk].
  - assert (m * 2 ^ k = 2 * (m * 2 ^ (k - 1 - extra) * 2 ^ extra)) as E.
    { rewrite <- N.mul_assoc, <- N.pow_add_r. replace k with (N.succ (k - 1)) at 1 by lia.
      rewrite N.pow_succ_r'. replace (k - 1 - extra + extra) with (k - 1) by lia. lia. }
    rewrite E in *. assert (m * 2 ^ (k - 1 - extra) <= q) as Hq
      by (apply div_half_even_le; [apply N.pow_nonzero|]; lia).
    apply N.mul_le_mono_l, N.mul_le_mono_r, Hq.
  - destruct (N.eq_0_gt_0_cases extra) as [E|E].
    + unfold q. rewrite E. change (2 ^ 0) with 1. rewrite div_half_even_1. lia.
    + assert (2 ^ 52 <= q) as Hq by (apply div_half_even_le; [apply N.pow_nonzero; lia|by apply size_extra]).
      transitivity (2 ^ 53 * 2 ^ extra).
      * apply N.mul_le_mono; [lia|apply N.pow_le_mono_r; lia].
      * change (2 ^ 53) with (2 * 2 ^ 52). rewrite <- N.mul_assoc. apply N.mul_le_mono_l, N.mul_le_mono_r, Hq.
Qed.

Lemma rounded_below : 2 * a <= m * 2 ^ k -> 2 * (q * 2 ^ extra) <= m * 2 ^ k.
Proof using m_small.
  intros Hm. destruct (N.lt_ge_cases extra k) as [Hk|Hk].
  - assert (m * 2 ^ k = 2 * (m * 2 ^ (k - 1 - extra) * 2 ^ extra)) as E.
    { rewrite <- N.mul_assoc, <- N.pow_add_r. replace k with (N.succ (k - 1)) at 1 by lia.
      rewrite N.pow_succ_r'. replace (k - 1 - extra + extra) with (k - 1) by lia. lia. }
    rewrite E in *. assert (q <= m * 2 ^ (k - 1 - extra)) as Hq
      by (apply div_half_even_ge; [apply N.pow_nonzero|]; lia).
    apply N.mul_le_mono_l, N.mul_le_mono_r, Hq.
  - destruct (N.eq_0_gt_0_cases extra) as [E|E].
    + unfold q. rewrite E. change (2 ^ 0) with 1. rewrite div_half_even_1. lia.
    + exfalso. pose proof (size_extra a E) as Ha. fold extra in Ha.
      assert (m * 2 ^ k <= (2 ^ 53 - 1) * 2 ^ extra) as Hle
        by (apply N.mul_le_mono; [lia|apply N.pow_le_mono_r; lia]).
      assert (0 < 2 ^ extra) by (apply N.neq_0_lt_0, N.pow_nonzero; lia).
      change (2 ^ 53) with 9007199254740992 in *. change (2 ^ 52) with 4503599627370496 in *. lia.
Qed.
End rounding.

Lemma round_f64_value x :
  let extra := N.size (f_num x) - 53 in
  f_num (round_f64 x) * 2 ^ f_exp x =
  div_half_even (f_num x) (2 ^ extra) * 2 ^ extra * 2 ^ f_exp (round_f64 x).
Proof.
  cbv zeta. unfold round_f64. set (extra := N.size (f_num x) - 53). set (q := div_half_even _ _). clearbody q extra.
  destruct (N.leb_spec extra (f_exp x)) as [Hle|Hgt]; cbn [f_num f_exp].
  - rewrite <- N.mul_assoc, <- N.pow_add_r. do 2 f_equal. lia.
  - rewrite <- !N.mul_assoc, <- !N.pow_add_r. do 2 f_equal. lia.
Qed.

Lemma round_f64_bounds m x :
  m < 2 ^ 53 ->
  (m * 2 ^ f_exp x <= 2 * f_num x -> m * 2 ^ f_exp (round_f64 x) <= 2 * f_num (round_f64 x)) /\
  (2 * f_num x <= m * 2 ^ f_exp x -> 2 * f_num (round_f64 x) <= m * 2 ^ f_exp (round_f64 x)).
Proof.
  intros Hm. pose proof (round_f64_value x) as Hv. cbv zeta in Hv.
  pose proof (rounded_above (f_num x) (f_exp x) m Hm) as Ha. pose proof (rounded_below (f_num x) (f_exp x) m Hm) as Hb.
  set (p := _ * 2 ^ (N.size (f_num x) - 53)) in *. set (y := round_f64 x) in *. clearbody p y.
  assert (0 < 2 ^ f_exp x /\ 0 < 2 ^ f_exp y) as [Hpx Hpy] by (split; apply N.neq_0_lt_0, N.pow_nonzero; lia).
  set (u := 2 ^ f_exp x) in *. set (v := 2 ^ f_exp y) in *. clearbody u v.
  split; intros Hx; apply (N.mul_le_mono_pos_r _ _ u Hpx); [specialize (Ha Hx)|specialize (Hb Hx)]; nia.
Qed.

(** Whole seconds are exact. *)
Lemma as_secs_exact s :
  s < 2 ^ 52 -> exists j, as_secs_f64 (from_secs s) = F64 (s * 2 ^ j) j.
Proof.
  intros Hs. unfold as_secs_f64, from_secs, NANOS_PER_SEC. rewrite N.div_mul, N.Div0.mod_mul by done.
  assert (f64_of_N s = F64 s 0) as ->.
  { unfold f64_of_N, round_f64. cbn [f_num f_exp].
    assert (N.size s - 53 = 0) as ->.
    { destruct (N.eq_dec s 0) as [->|Hne]; [done|]. rewrite N.size_log2 by done.
      apply N.log2_lt_pow2 in Hs; lia. }
    change (2 ^ 0) with 1. by rewrite div_half_even_1. }
  change (f64_div 0 1000000000) with (F64 0 86). unfold f64_add. cbn [f_num f_exp].
  set (x := F64 _ _). destruct (round_f64_bounds (2 * s) x) as [Hlo Hhi]; [change (2 ^ 53) with (2 * 2 ^ 52); lia|].
  subst x. cbn [f_num f_exp] in *. destruct (round_f64 _) as [n j]. cbn [f_num f_exp] in *. exists j. f_equal.
  change (0 + 86) with 86 in *. specialize (Hlo ltac:(lia)). specialize (Hhi ltac:(lia)). lia.
Qed.

(** A jittered period of whole seconds is at least half and at most one and a
    half of it. *)
Lemma jittered_bounds factor s :
  3 * s < 2 ^ 53 -> in_jitter_range factor = true ->
  from_secs s <= 2 * jittered factor (from_secs s) <= 3 * from_secs s.
Proof.
  intros Hs Hf. unfold jittered, mul_f64, f64_mul.
  assert (s < 2 ^ 52) as Hs' by (change (2 ^ 53) with (2 * 2 ^ 52) in Hs; lia).
  destruct (as_secs_exact s Hs') as (j & ->). cbn [f_num f_exp].
  unfold in_jitter_range, JITTER in Hf. cbn [f_num f_exp] in Hf. change (2 ^ 1) with 2 in Hf.
  apply andb_prop in Hf as [Hlo%N.leb_le Hhi%N.ltb_lt]. destruct factor as [n k]. cbn [f_num f_exp] in *.
  set (x := F64 (n * (s * 2 ^ j)) (k + j)).
  destruct (round_f64_bounds s x) as [Hr _]; [lia|]. destruct (round_f64_bounds (3 * s) x Hs) as [_ Hr'].
  subst x. cbn [f_num f_exp] in *. rewrite N.pow_add_r in *.
  specialize (Hr ltac:(nia)). specialize (Hr' ltac:(nia)). destruct (round_f64 _) as [num e]. cbn [f_num f_exp] in *.
  unfold from_secs_f64, from_secs, NANOS_PER_SEC. cbn [f_num f_exp].
  assert (2 ^ e <> 0) by (apply N.pow_nonzero; lia).
  assert (s * 500000000 <= div_half_even (num * 1000000000) (2 ^ e)) by (apply div_half_even_le; [done|nia]).
  assert (div_half_even (num * 1000000000) (2 ^ e) <= 3 * s * 500000000) by (apply div_half_even_ge; [done|nia]).
  lia.
Qed.
