(* ===== verification/DumbBucket.v ===== *)
(** * DumbBucket: the baseline routing table

    Models [src/close_nodes/dumb_bucket.rs]: one vector that keeps every
    contact and sorts it on every query.  Its query is the reference answer
    ([k_nearest]) that the real tables are compared with. *)

From S2P Require Import Prelude Slices Machine Contacts.

Record DumbBucket : Type := MkDumb { dumb_contacts : list Contact }.

Definition dumb_close_nodes (now : Instant) (id : NodeId) : M DumbBucket (list Contact) :=
  fun b => (take K (sort_by_distance id (dumb_contacts b)), b).

Definition dumb_maybe_add_contact (contact : Contact) (b : DumbBucket) : DumbBucket :=
  MkDumb (dumb_contacts b ++ [contact]).

Definition dumb_contacts_chunks (b : DumbBucket) : list (DumbBucket -> list Contact) :=
  let snapshot := dumb_contacts b in [fun _ => snapshot].

Definition dumb_remove_contact (contact : Contact) (b : DumbBucket) : DumbBucket :=
  MkDumb (swap_remove_exact contact (dumb_contacts b)).

#[export] Instance DumbBucket_CloseNodes : CloseNodes DumbBucket := {
  close_nodes := dumb_close_nodes;
  maybe_add_contact := dumb_maybe_add_contact;
  remove_contact := dumb_remove_contact;
  contacts_chunks := dumb_contacts_chunks
}.

(** ** The reference answer *)

(** [out] is an answer of the [k] contacts of [known] nearest to [t]: sorted,
    made of known contacts, and a contact is left out only when [k] others at
    most as far are in. *)
Record k_nearest (k : nat) (t : NodeId) (known out : list Contact) : Prop := {
  kn_sorted : StronglySorted (near_le t) out;
  kn_length : length out = min k (length known);
  kn_split : exists rest, known ≡ₚ out ++ rest /\
      forall x y, x ∈ out -> y ∈ rest -> near_le t x y
}.

Lemma take_sort_k_nearest k t known :
  k_nearest k t known (take k (sort_by_distance t known)).
Proof.
  pose proof (sort_by_sorted (by_distance t) known) as Hs.
  pose proof (sort_by_Permutation (by_distance t) known) as Hp.
  unfold sort_by_distance. rewrite <- (take_drop k (sort_by _ known)) in Hs, Hp. split.
  - by apply StronglySorted_app_1_l in Hs.
  - by rewrite length_take, sort_by_length.
  - exists (drop k (sort_by (by_distance t) known)). split; [by rewrite Hp|].
    intros x y Hx Hy. by eapply StronglySorted_app_1_elem_of.
Qed.

Lemma dumb_iter b :
  contacts_iter b = dumb_contacts b.
Proof. unfold contacts_iter. simpl. by rewrite app_nil_r. Qed.

(** ** The interface *)

#[export] Program Instance DumbBucket_Spec : CloseNodesSpec DumbBucket := {| cn_inv := fun _ => True |}.
Solve Obligations with try done.
Next Obligation. intros now t a _. simpl. rewrite length_take. lia. Qed.
Next Obligation. intros now t a _. apply (kn_sorted _ _ _ _ (take_sort_k_nearest K t _)). Qed.
Next Obligation. intros c a x. rewrite !dumb_iter. simpl. set_solver. Qed.
Next Obligation.
  intros c a x. rewrite !dumb_iter. apply removal_elem_of with c, swap_remove_exact_spec.
Qed.
Next Obligation.
  intros c a x. rewrite !dumb_iter. apply removal_keeps, swap_remove_exact_spec.
Qed.
