(* ===== verification/StaticBucket.v ===== *)
(** * StaticBucket: the routing table with a fixed array of buckets

    Models [src/close_nodes/static_bucket.rs].  A bucket per shared-prefix
    length with our own id; a query starts in the target's home bucket and
    widens in both directions until it has [K] candidates.  The invariant is
    [sb_inv]; the query is characterised by the range of buckets it visited
    ([static_close_nodes_range]) and compared with the reference answer. *)

From S2P Require Import Prelude Slices Machine Contacts DumbBucket.

Record StaticBucket (BUCKET_SIZE SEARCH_SHIFT MAX_BUCKETS : nat) : Type := MkStatic {
  sb_contacts : list (list Contact);
  sb_my_id : NodeId
}.
Arguments MkStatic {BUCKET_SIZE SEARCH_SHIFT MAX_BUCKETS} sb_contacts sb_my_id.
Arguments sb_contacts {BUCKET_SIZE SEARCH_SHIFT MAX_BUCKETS} s.
Arguments sb_my_id {BUCKET_SIZE SEARCH_SHIFT MAX_BUCKETS} s.

(** [iter_mut().find(|known| known.id == contact.id)] and, if there is one,
    its address set. *)
Fixpoint refresh_address (contact : Contact) (l : list Contact) : option (list Contact) :=
  match l with
  | [] => None
  | known :: l =>
      if bool_decide (id known = id contact)
      then Some (MkContact (id known) (address contact) :: l)
      else cons known <$> refresh_address contact l
  end.

(** [heapless::Vec::push]: a full vector stays as it is. *)
Definition push_bounded {A} (capacity : nat) (x : A) (l : list A) : list A :=
  if length l <? capacity then l ++ [x] else l.

(** What becomes of a bucket when [contact] is offered to it: a known node gets
    its address refreshed, a new one is pushed. *)
Definition offer (capacity : nat) (contact : Contact) (l : list Contact) : list Contact :=
  match refresh_address contact l with
  | Some refreshed => refreshed
  | None => push_bounded capacity contact l
  end.

(** ** Refreshing and pushing *)

Lemma refresh_address_Some c l l' :
  refresh_address c l = Some l' ->
  (id <$> l') = (id <$> l) /\ c ∈ l' /\ forall x, x ∈ l' -> x = c \/ x ∈ l.
Proof.
  revert l'. induction l as [|k l IH]; intros l' H; simpl in H; [done|].
  case_bool_decide as Hk.
  - injection H as <-. rewrite Hk. replace (MkContact (id c) (address c)) with c by by destruct c.
    split_and!; [by rewrite !fmap_cons, Hk|set_solver|set_solver].
  - apply fmap_Some in H as (l'' & H & ->). destruct (IH _ H) as (Hid & Hc & Hx).
    split_and!; [by rewrite !fmap_cons, Hid|set_solver|set_solver].
Qed.

Lemma refresh_address_None c l : refresh_address c l = None <-> id c ∉ (id <$> l).
Proof.
  induction l as [|k l IH]; simpl; [set_solver|].
  case_bool_decide as Hk; [rewrite Hk; set_solver|]. rewrite fmap_None, IH. set_solver.
Qed.

Lemma offer_elem_of n c l x : x ∈ offer n c l -> x = c \/ x ∈ l.
Proof.
  unfold offer. destruct (refresh_address c l) eqn:E.
  - by apply (refresh_address_Some _ _ _ E).
  - unfold push_bounded. destruct (_ <? _); set_solver.
Qed.

Lemma offer_bounded n c l : length l <= n -> length (offer n c l) <= n.
Proof.
  unfold offer. destruct (refresh_address c l) as [l'|] eqn:E.
  - apply refresh_address_Some in E as [E _]. apply (f_equal length) in E.
    rewrite !length_fmap in E. lia.
  - unfold push_bounded. destruct (Nat.ltb_spec (length l) n); [|done].
    rewrite length_app. simpl. lia.
Qed.

Lemma offer_ids n c l : NoDup (id <$> l) -> NoDup (id <$> offer n c l).
Proof.
  unfold offer. destruct (refresh_address c l) as [l'|] eqn:E.
  - by apply refresh_address_Some in E as [-> _].
  - apply refresh_address_None in E. unfold push_bounded. destruct (_ <? _); [|done].
    rewrite fmap_app. intros H. apply NoDup_app. split_and!; [done| |apply NoDup_singleton].
    set_solver.
Qed.

Section StaticBucket.
Context {BUCKET_SIZE SEARCH_SHIFT MAX_BUCKETS : nat}.
Abbreviation table := (StaticBucket BUCKET_SIZE SEARCH_SHIFT MAX_BUCKETS).
Implicit Types (s : table) (c contact : Contact).

Definition static_new (my_id : NodeId) : table := MkStatic (replicate MAX_BUCKETS []) my_id.

Definition bucket_index s (id : NodeId) : nat :=
  let shared := leading_zeros (xor_distance id (sb_my_id s)) in
  Nat.min (Nat.shiftr shared SEARCH_SHIFT) (MAX_BUCKETS - 1).

Definition bucket s (index : nat) : list Contact := default [] (sb_contacts s !! index).

Definition extend_from_bucket s (out : list Contact) (index : nat) : list Contact :=
  out ++ bucket s index.

Definition non_empty_buckets s : list (nat * list Contact) :=
  filter (fun '(_, contacts) => contacts <> []) (imap pair (sb_contacts s)).

(** The [while] loop of [close_nodes]: the candidates and the range of
    buckets visited.  Every round widens the range on a side, so
    [MAX_BUCKETS] rounds are enough ([widen_spec]). *)
Fixpoint widen (fuel : nat) s (out : list Contact) (low high : nat) : list Contact * nat * nat :=
  match fuel with
  | O => (out, low, high)
  | S fuel =>
      if (length out <? K) && ((0 <? low) || (high + 1 <? MAX_BUCKETS)) then
        let '(out, high) :=
          if high + 1 <? MAX_BUCKETS
          then (extend_from_bucket s out (high + 1), high + 1) else (out, high) in
        let '(out, low) :=
          if 0 <? low
          then (extend_from_bucket s out (low - 1), low - 1) else (out, low) in
        widen fuel s out low high
      else (out, low, high)
  end.

Definition static_close_nodes (now : Instant) (id : NodeId) : M table (list Contact) := fun s =>
  let home := bucket_index s id in
  let out := extend_from_bucket s [] home in
  let '(out, _, _) := widen MAX_BUCKETS s out home home in
  (take K (sort_by_distance id out), s).

Definition static_maybe_add_contact contact s : table :=
  if bool_decide (id contact = sb_my_id s) then s else
  let i := bucket_index s (id contact) in
  MkStatic (<[i := offer BUCKET_SIZE contact (bucket s i)]> (sb_contacts s)) (sb_my_id s).

Definition static_remove_contact contact s : table :=
  let i := bucket_index s (id contact) in
  MkStatic (<[i := swap_remove_exact contact (bucket s i)]> (sb_contacts s)) (sb_my_id s).

Definition static_contacts_chunks s : list (table -> list Contact) :=
  (fun i s' => bucket s' i) <$> seq 0 (length (sb_contacts s)).

#[export] Instance StaticBucket_CloseNodes : CloseNodes table := {
  close_nodes := static_close_nodes;
  maybe_add_contact := static_maybe_add_contact;
  remove_contact := static_remove_contact;
  contacts_chunks := static_contacts_chunks
}.

(** ** Buckets as a whole *)

Lemma static_iter s : contacts_iter s = mjoin (sb_contacts s).
Proof.
  unfold contacts_iter. simpl. unfold static_contacts_chunks. f_equal.
  apply list_eq. intros i. rewrite !list_lookup_fmap.
  destruct (decide (i < length (sb_contacts s))) as [Hi|Hi].
  - rewrite lookup_seq_lt by done. simpl. unfold bucket.
    destruct (lookup_lt_is_Some_2 _ _ Hi) as [b Hb]. by rewrite Hb.
  - rewrite lookup_seq_ge, lookup_ge_None_2 by lia. done.
Qed.

Lemma elem_of_buckets s c : c ∈ contacts_iter s <-> exists i, c ∈ bucket s i.
Proof.
  rewrite static_iter, list_elem_of_join. unfold bucket. split.
  - intros (l & Hc & [i Hi]%list_elem_of_lookup). exists i. by rewrite Hi.
  - intros [i Hc]. destruct (sb_contacts s !! i) as [l|] eqn:E; [|set_solver].
    exists l. split; [done|]. by eapply list_elem_of_lookup_2.
Qed.

Lemma bucket_insert s i b j :
  bucket (MkStatic (<[i := b]> (sb_contacts s)) (sb_my_id s) : table) j =
  if decide (i = j /\ i < length (sb_contacts s)) then b else bucket s j.
Proof.
  unfold bucket. simpl. destruct (decide _) as [[-> Hi]|Hn].
  - by rewrite list_lookup_insert_eq.
  - destruct (decide (i = j)) as [->|Hne]; [|by rewrite list_lookup_insert_ne].
    rewrite list_insert_ge by lia. done.
Qed.

Lemma bucket_index_lt s i : 0 < MAX_BUCKETS -> bucket_index s i < MAX_BUCKETS.
Proof. unfold bucket_index. lia. Qed.

(** ** The invariant *)

(** Every contact sits in the bucket of its id, buckets are bounded and hold
    an id once, and we are not our own contact. *)
Record sb_inv s : Prop := {
  sb_max : 0 < MAX_BUCKETS;
  sb_len : length (sb_contacts s) = MAX_BUCKETS;
  sb_bounded i : length (bucket s i) <= BUCKET_SIZE;
  sb_home i c : c ∈ bucket s i -> bucket_index s (id c) = i;
  sb_ids i : NoDup (id <$> bucket s i);
  sb_not_me i c : c ∈ bucket s i -> id c <> sb_my_id s
}.

Lemma bucket_new my_id i : bucket (static_new my_id) i = [].
Proof.
  unfold bucket. simpl. destruct (replicate _ _ !! i) eqn:E; [|done].
  by apply lookup_replicate in E as [-> _].
Qed.

Lemma static_new_inv my_id : 0 < MAX_BUCKETS -> sb_inv (static_new my_id).
Proof.
  intros Hmax. split; [done|apply length_replicate|..]; intros i; rewrite ?bucket_new; simpl;
    try constructor; try lia; intros; set_solver.
Qed.
Lemma static_add_inv c s : sb_inv s -> sb_inv (static_maybe_add_contact c s).
Proof.
  intros Hs. unfold static_maybe_add_contact. case_bool_decide as Hme; [done|].
  destruct Hs as [Hmax Hlen Hb Hh Hids Hnm].
  split; [done|by simpl; rewrite length_insert|intros i|intros i x|intros i|intros i x];
    rewrite bucket_insert; destruct (decide _) as [[<- _]|_];
    auto using offer_bounded, offer_ids; try (by apply Hh); try (by apply Hnm).
  - by intros [->|Hx%Hh]%offer_elem_of.
  - by intros [->|Hx%Hnm]%offer_elem_of.
Qed.

Lemma static_remove_inv c s : sb_inv s -> sb_inv (static_remove_contact c s).
Proof.
  intros [Hmax Hlen Hb Hh Hids Hnm]. unfold static_remove_contact.
  pose proof (swap_remove_exact_spec c (bucket s (bucket_index s (id c)))) as Hr.
  split; [done|by simpl; rewrite length_insert|intros i|intros i x|intros i|intros i x];
    rewrite bucket_insert; destruct (decide _) as [[<- _]|_];
    auto; try (by apply Hh); try (by apply Hnm).
  - etrans; [by eapply removal_length|done].
  - intros Hx. eapply (Hh _ x), removal_elem_of; [exact Hr|exact Hx].
  - by eapply removal_NoDup_fmap.
  - intros Hx. eapply (Hnm _ x), removal_elem_of; [exact Hr|exact Hx].
Qed.

(** ** The loop of [close_nodes] *)

(** The contacts of the buckets [low..high]. *)
Definition range s (low high : nat) : list Contact :=
  mjoin (bucket s <$> seq low (S high - low)).

Lemma range_high s low high :
  low <= high -> range s low (high + 1) = range s low high ++ bucket s (high + 1).
Proof.
  intros H. unfold range. replace (S (high + 1) - low) with (S (S high - low)) by lia.
  rewrite seq_S, fmap_app. replace (low + (S high - low)) with (high + 1) by lia.
  rewrite !list_join_bind, bind_app. simpl. by rewrite app_nil_r.
Qed.

Lemma range_low s low high :
  0 < low <= high -> range s (low - 1) high = bucket s (low - 1) ++ range s low high.
Proof.
  intros H. unfold range. replace (S high - (low - 1)) with (S (S high - low)) by lia.
  simpl. by replace (S (low - 1)) with low by lia.
Qed.

Lemma widen_spec fuel s out low high :
  low <= high -> out ≡ₚ range s low high ->
  exists out' low' high',
    widen fuel s out low high = (out', low', high') /\
    out' ≡ₚ range s low' high' /\ low' <= low /\ high <= high' /\
    (high < MAX_BUCKETS -> high' < MAX_BUCKETS) /\
    (low <= fuel -> MAX_BUCKETS <= high + 1 + fuel ->
     K <= length out' \/ (low' = 0 /\ MAX_BUCKETS <= high' + 1)).
Proof.
  revert out low high. induction fuel as [|fuel IH]; intros out low high Hle Hout; cbn [widen].
  { exists out, low, high. split_and!; (done || lia). }
  destruct (Nat.ltb_spec (length out) K) as [Hk|Hk]; simpl.
  2:{ exists out, low, high. split_and!; (done || lia). }
  destruct (Nat.ltb_spec 0 low) as [Hl|Hl], (Nat.ltb_spec (high + 1) MAX_BUCKETS) as [Hh|Hh];
    simpl; unfold extend_from_bucket;
    [edestruct (IH ((out ++ bucket s (high + 1)) ++ bucket s (low - 1)) (low - 1) (high + 1))
      as (o & l & h & ? & ? & ? & ? & ? & ?)
    |edestruct (IH (out ++ bucket s (low - 1)) (low - 1) high)
      as (o & l & h & ? & ? & ? & ? & ? & ?)
    |edestruct (IH (out ++ bucket s (high + 1)) low (high + 1))
      as (o & l & h & ? & ? & ? & ? & ? & ?)
    |exists out, low, high; split_and!; (done || lia)];
    try lia;
    [rewrite range_low, range_high, Hout, Permutation_app_comm by lia; done
    |exists o, l, h; split_and!; (done || lia)
    |rewrite range_low, Hout, Permutation_app_comm by lia; done
    |exists o, l, h; split_and!; (done || lia)
    |rewrite range_high, Hout by lia; done
    |exists o, l, h; split_and!; (done || lia)].
Qed.

Lemma widen_full fuel s out low high : K <= length out -> widen fuel s out low high = (out, low, high).
Proof. intros H. destruct fuel; [done|]. simpl. by destruct (Nat.ltb_spec (length out) K); [lia|]. Qed.

(** The answer is exact over the range of buckets visited, which contains
    the home bucket and holds [K] contacts unless it is the whole table. *)
Lemma static_close_nodes_range now t s :
  sb_inv s ->
  exists low high,
    low <= bucket_index s t <= high /\ high < MAX_BUCKETS /\
    k_nearest K t (range s low high) (static_close_nodes now t s).1 /\
    (K <= length (range s low high) \/ (low = 0 /\ high = MAX_BUCKETS - 1)).
Proof.
  intros Hs. pose proof (bucket_index_lt s t (sb_max s Hs)) as Hi.
  unfold static_close_nodes. set (home := bucket_index s t) in *.
  destruct (widen_spec MAX_BUCKETS s (extend_from_bucket s [] home) home home)
    as (out & low & high & -> & Hout & Hlow & Hhigh & Hlt & Hdone); [done|..].
  { unfold extend_from_bucket, range. replace (S home - home) with 1 by lia. simpl.
    by rewrite app_nil_r. }
  exists low, high. simpl. split_and!; [lia..| |].
  - destruct (take_sort_k_nearest K t out) as [H1 H2 (rest & Hr & H3)]. split; [done| |].
    + by rewrite H2, Hout.
    + exists rest. by rewrite <- Hout.
  - rewrite <- Hout. destruct (Hdone ltac:(lia) ltac:(lia)) as [?|[??]]; [by left|].
    right. lia.
Qed.
(** ** The interface *)

Lemma static_query_length now t s : length (static_close_nodes now t s).1 <= K.
Proof.
  unfold static_close_nodes. destruct (widen _ _ _ _ _) as [[out ?] ?]. simpl.
  rewrite length_take. lia.
Qed.

Lemma static_query_sorted now t s : StronglySorted (near_le t) (static_close_nodes now t s).1.
Proof.
  unfold static_close_nodes. destruct (widen _ _ _ _ _) as [[out ?] ?].
  apply (kn_sorted _ _ _ _ (take_sort_k_nearest K t out)).
Qed.

Lemma static_query_state now t s : (static_close_nodes now t s).2 = s.
Proof. unfold static_close_nodes. by destruct (widen _ _ _ _ _) as [[??] ?]. Qed.

Lemma static_add_iter c s x :
  x ∈ contacts_iter (static_maybe_add_contact c s) -> x = c \/ x ∈ contacts_iter s.
Proof.
  rewrite !elem_of_buckets. unfold static_maybe_add_contact.
  case_bool_decide; [by right|]. intros [i Hx]. rewrite bucket_insert in Hx.
  destruct (decide _); [|eauto]. apply offer_elem_of in Hx as [->|Hx]; eauto.
Qed.

Lemma static_remove_iter c s x :
  x ∈ contacts_iter (static_remove_contact c s) -> x ∈ contacts_iter s.
Proof.
  rewrite !elem_of_buckets. intros [i Hx]. unfold static_remove_contact in Hx.
  rewrite bucket_insert in Hx. destruct (decide _) as [[<- _]|]; [|eauto].
  eexists. eapply removal_elem_of; [apply swap_remove_exact_spec|done].
Qed.

Lemma static_remove_keeps c s x :
  x ∈ contacts_iter s -> x <> c -> x ∈ contacts_iter (static_remove_contact c s).
Proof.
  rewrite !elem_of_buckets. intros [i Hx] Hne. exists i. unfold static_remove_contact.
  rewrite bucket_insert. destruct (decide _) as [[<- _]|]; [|done].
  eapply removal_keeps; [apply swap_remove_exact_spec|done|done].
Qed.

#[export] Program Instance StaticBucket_Spec : CloseNodesSpec table := {| cn_inv := sb_inv |}.
Next Obligation. intros now t s. simpl. by rewrite static_query_state. Qed.
Next Obligation. intros c s. apply static_add_inv. Qed.
Next Obligation. intros c s. apply static_remove_inv. Qed.
Next Obligation. intros now t s _. apply static_query_length. Qed.
Next Obligation. intros now t s _. apply static_query_sorted. Qed.
Next Obligation. intros now t s. simpl. by rewrite static_query_state. Qed.
Next Obligation. intros c s x. apply static_add_iter. Qed.
Next Obligation. intros c s x. apply static_remove_iter. Qed.
Next Obligation. intros c s x. apply static_remove_keeps. Qed.

(** ** Reachable tables *)

(** The tables that any history of writes can produce. *)
Inductive sb_reach (my_id : NodeId) : table -> Prop :=
  | sb_reach_new : sb_reach my_id (static_new my_id)
  | sb_reach_add c s : sb_reach my_id s -> sb_reach my_id (static_maybe_add_contact c s)
  | sb_reach_remove c s : sb_reach my_id s -> sb_reach my_id (static_remove_contact c s).

Lemma sb_reach_inv my_id s : 0 < MAX_BUCKETS -> sb_reach my_id s -> sb_inv s.
Proof.
  intros Hmax. induction 1; auto using static_new_inv, static_add_inv, static_remove_inv.
Qed.

(** Ids are distinct across the whole table, not only within a bucket. *)
Lemma sb_iter_ids s : sb_inv s -> NoDup (id <$> contacts_iter s).
Proof.
  intros Hs. rewrite static_iter.
  assert (forall l n, (forall i, l !! i = sb_contacts s !! (n + i)) -> NoDup (id <$> mjoin l)) as H;
    [|by apply (H _ 0)].
  induction l as [|b l IH]; intros n Hl; [constructor|]. cbn [mjoin list_join]. rewrite fmap_app.
  assert (bucket s n = b) as Hb.
  { unfold bucket. specialize (Hl 0). rewrite Nat.add_0_r in Hl. by rewrite <- Hl. }
  apply NoDup_app. split_and!.
  - rewrite <- Hb. by apply sb_ids.
  - intros i (c & -> & Hc)%list_elem_of_fmap (d & Hid & Hd)%list_elem_of_fmap.
    apply list_elem_of_join in Hd as (b' & Hd & [j Hj]%list_elem_of_lookup).
    specialize (Hl (S j)). simpl in Hl. rewrite Hj in Hl.
    assert (d ∈ bucket s (n + S j)) as Hd' by (unfold bucket; by rewrite <- Hl).
    apply (sb_home s Hs) in Hd'. rewrite <- Hb in Hc. apply (sb_home s Hs) in Hc.
    rewrite Hid in Hc. lia.
  - apply (IH (S n)). intros i. specialize (Hl (S i)). simpl in Hl.
    by rewrite Hl, Nat.add_succ_r.
Qed.
End StaticBucket.

(** ** How good the answers are *)

Section exactness.
Context {BUCKET_SIZE SEARCH_SHIFT MAX_BUCKETS : nat}.
Implicit Type s : StaticBucket BUCKET_SIZE SEARCH_SHIFT MAX_BUCKETS.

Lemma range_whole s : sb_inv s -> range s 0 (MAX_BUCKETS - 1) = contacts_iter s.
Proof.
  intros [Hmax Hlen _ _ _ _]. unfold range, contacts_iter.
  cbn [contacts_chunks StaticBucket_CloseNodes]. unfold static_contacts_chunks.
  rewrite Hlen. replace (S (MAX_BUCKETS - 1) - 0) with MAX_BUCKETS by lia.
  by rewrite <- list_fmap_compose.
Qed.

Lemma range_split s low high :
  sb_inv s -> low <= high < MAX_BUCKETS ->
  exists pre post, contacts_iter s = pre ++ range s low high ++ post /\
    forall c, c ∈ pre ++ post -> ~ low <= bucket_index s (id c) <= high.
Proof.
  intros Hs Hr. rewrite <- range_whole by done. unfold range.
  replace (S (MAX_BUCKETS - 1) - 0)
    with (low + ((S high - low) + (MAX_BUCKETS - 1 - high))) by lia.
  rewrite !seq_app, !fmap_app, !list_join_bind, !bind_app.
  eexists _, _. split; [done|]. intros c. rewrite <- !list_join_bind.
  intros [Hc|Hc]%elem_of_app; apply list_elem_of_join in Hc as (b & Hc & Hb);
    apply list_elem_of_fmap in Hb as (i & -> & Hi%elem_of_seq);
    apply (sb_home s Hs) in Hc; lia.
Qed.

(** A table of at most [K] contacts answers with all of them, as the baseline does. *)
Lemma static_exact_small now t s :
  sb_inv s -> length (contacts_iter s) <= K ->
  k_nearest K t (contacts_iter s) (static_close_nodes now t s).1.
Proof.
  intros Hs Hlen.
  destruct (static_close_nodes_range now t s Hs) as (low & high & ? & ? & Hk & [Hbig|[-> ->]]).
  - destruct (range_split s low high Hs ltac:(lia)) as (pre & post & Heq & _).
    assert (pre = [] /\ post = []) as [-> ->].
    { rewrite Heq, !length_app in Hlen. split; apply nil_length_inv; lia. }
    by rewrite Heq, app_nil_r.
  - by rewrite range_whole in Hk by done.
Qed.
End exactness.

Section home.
(** The parameters of the deployed table: a bucket per prefix length. *)
Context {BUCKET_SIZE : nat}.
Implicit Type s : StaticBucket BUCKET_SIZE 0 ROUTING_BUCKETS.

(** The contacts of the home bucket are nearer to the target than any other. *)
Lemma home_nearest s t c d :
  bucket_index s (id c) = bucket_index s t ->
  bucket_index s (id d) <> bucket_index s t ->
  near_lt t c d.
Proof.
  unfold bucket_index. change (ROUTING_BUCKETS - 1) with 255. simpl.
  set (me := sb_my_id s). intros Hc Hd.
  set (lc := leading_zeros (xor_distance (id c) me)) in *.
  set (ld := leading_zeros (xor_distance (id d) me)) in *.
  set (lt := leading_zeros (xor_distance t me)) in *.
  assert (forall n x, n <= 256 -> n <= leading_zeros (xor_distance x me) -> shares_prefix n x me) as Hsh
    by (intros; by apply shared_prefix).
  assert (forall n x, n <= 256 -> leading_zeros (xor_distance x me) < n -> ~ shares_prefix n x me) as Hns
    by (intros n x ? ? ?%shared_prefix; lia).
  destruct (decide (ld < Nat.min lt 255)) as [Hlt|Hge].
  - (* d leaves us earlier than the target does *)
    apply (shares_prefix_near (Nat.min lt 255)); [lia|..].
    + etrans; [apply (Hsh _ (id c)); lia|symmetry; apply (Hsh _ t); lia].
    + intros H. apply (Hns (S ld) (id d)); [lia|lia|].
      etrans; [apply (shares_prefix_mono _ (Nat.min lt 255)); [lia|lia|exact H]|].
      apply (Hsh _ t); lia.
  - (* d stays with us where both c and the target leave *)
    apply (shares_prefix_near (S lt)); [lia|..].
    + apply shares_prefix_branch with me; [lia|apply Hsh; lia|apply Hsh; lia|apply Hns; lia|apply Hns; lia].
    + intros H. apply (Hns (S lt) t); [lia|lia|]. etrans; [symmetry; exact H|].
      apply (Hsh _ (id d)); lia.
Qed.

(** With [K] contacts in the home bucket the answer is the [K] nearest of
    the whole table. *)
Lemma static_exact_home now t s :
  sb_inv s -> K <= length (bucket s (bucket_index s t)) ->
  k_nearest K t (contacts_iter s) (static_close_nodes now t s).1.
Proof.
  intros Hs Hk. unfold static_close_nodes, extend_from_bucket.
  set (home := bucket_index s t) in *. rewrite app_nil_l, widen_full by done. cbn [fst].
  pose proof (take_sort_k_nearest K t (bucket s home)) as [H1 H2 (rest & Hr & H3)].
  pose proof (bucket_index_lt s t (sb_max s Hs)) as Hi.
  destruct (range_split s home home Hs ltac:(lia)) as (pre & post & Heq & Hout).
  assert (range s home home = bucket s home) as Hrange.
  { unfold range. replace (S home - home) with 1 by lia. simpl. apply app_nil_r. }
  rewrite Hrange in Heq. split; [done| |].
  - rewrite H2, Heq, !length_app. lia.
  - exists (rest ++ pre ++ post). split.
    { rewrite Heq, Permutation_app_swap_app. rewrite Hr at 1. by rewrite <- app_assoc. }
    intros x y Hx [Hy|Hy]%elem_of_app; [by apply H3|].
    assert (x ∈ bucket s home) as Hxb by (rewrite Hr; set_solver).
    apply clt_cle, (home_nearest s); [by apply (sb_home s Hs)|].
    fold home. specialize (Hout y Hy). lia.
Qed.
End home.
