(* ===== verification/SiblingList.v ===== *)
(** * SiblingList: the nodes nearest to us, kept apart from the buckets

    Models [src/close_nodes/sibling_list.rs], an overlay over any other
    routing table.  [sl_inv] is the invariant of the sibling set; the
    refinement [offers_spec] says that, as long as nothing is removed, the
    set is exactly the nearest of all the contacts ever offered, each with the
    address it was last seen at. *)

From S2P Require Import Prelude Slices Machine Contacts DumbBucket StaticBucket.

Record SiblingList (C : Type) (SIBLINGS : nat) : Type := MkSiblings {
  sl_siblings : list Contact;
  sl_fallback : C;
  sl_my_id : NodeId
}.
Arguments MkSiblings {C SIBLINGS} sl_siblings sl_fallback sl_my_id.
Arguments sl_siblings {C SIBLINGS} s.
Arguments sl_fallback {C SIBLINGS} s.
Arguments sl_my_id {C SIBLINGS} s.

(** [heapless::Vec::insert]. *)
Definition insert_at {A} (capacity pos : nat) (x : A) (l : list A) : list A :=
  if (length l <? capacity) && (pos <=? length l) then take pos l ++ x :: drop pos l else l.

(** [heapless::Vec::pop], whose value the code discards. *)
Definition pop {A} (l : list A) : list A := take (length l - 1) l.

(** The write to the sibling set itself. *)
Definition offer_sibling (capacity : nat) (my_id : NodeId) (contact : Contact)
    (siblings : list Contact) : list Contact :=
  match refresh_address contact siblings with
  | Some refreshed => refreshed
  | None =>
      let pos := partition_point
        (fun s => bool_decide (xor_distance_cmp (id s) (id contact) my_id = Lt)) siblings in
      if length siblings =? capacity then
        if pos =? length siblings then siblings
        else insert_at capacity pos contact (pop siblings)
      else insert_at capacity pos contact siblings
  end.

Section SiblingList.
Context {C : Type} `{CloseNodes C} {SIBLINGS : nat}.
Abbreviation table := (SiblingList C SIBLINGS).
Implicit Types (s : table) (c contact : Contact).

Definition sibling_new (my_id : NodeId) (fallback : C) : table := MkSiblings [] fallback my_id.

Definition siblings s : list Contact := sl_siblings s.

Definition sibling_close_nodes (now : Instant) (id : NodeId) : M table (list Contact) := fun s =>
  let (out, fallback) := close_nodes now id (sl_fallback s) in
  (closest_to id K (out ++ sl_siblings s), MkSiblings (sl_siblings s) fallback (sl_my_id s)).

Definition sibling_maybe_add_contact contact s : table :=
  if bool_decide (id contact = sl_my_id s) then s else
  MkSiblings (offer_sibling SIBLINGS (sl_my_id s) contact (sl_siblings s))
    (maybe_add_contact contact (sl_fallback s)) (sl_my_id s).

(** The siblings are cloned when the walk starts, the fallback is lazy. *)
Definition sibling_contacts_chunks s : list (table -> list Contact) :=
  let snapshot := sl_siblings s in
  (fun _ => snapshot) ::
  ((fun chunk s' => chunk (sl_fallback s')) <$> contacts_chunks (sl_fallback s)).

Definition sibling_remove_contact contact s : table :=
  MkSiblings (remove_exact contact (sl_siblings s))
    (remove_contact contact (sl_fallback s)) (sl_my_id s).

#[export] Instance SiblingList_CloseNodes : CloseNodes table := {
  close_nodes := sibling_close_nodes;
  maybe_add_contact := sibling_maybe_add_contact;
  remove_contact := sibling_remove_contact;
  contacts_chunks := sibling_contacts_chunks
}.

Lemma sibling_iter s : contacts_iter s = sl_siblings s ++ contacts_iter (sl_fallback s).
Proof.
  unfold contacts_iter. cbn [contacts_chunks SiblingList_CloseNodes].
  unfold sibling_contacts_chunks. rewrite fmap_cons. by rewrite <- list_fmap_compose.
Qed.
End SiblingList.

(** ** The sibling set *)

(** Insertion by distance where a known id takes the new address. *)
Fixpoint upsert (t : NodeId) (l : list Contact) (c : Contact) : list Contact :=
  match l with
  | [] => [c]
  | y :: l' =>
      match by_distance t y c with
      | Lt => y :: upsert t l' c
      | Eq => c :: l'
      | Gt => c :: l
      end
  end.

Lemma upsert_take t k l c : take k (upsert t l c) = take k (upsert t (take k l) c).
Proof.
  revert k. induction l as [|y l IH]; intros [|k]; [done..|]. simpl.
  destruct (by_distance t y c); simpl; rewrite ?take_take, ?Nat.min_id; try done.
  - by rewrite IH.
  - destruct k; [done|]. simpl. by rewrite take_take, Nat.min_l by lia.
Qed.

Lemma upsert_elem_of t l c x : x ∈ upsert t l c -> x = c \/ x ∈ l.
Proof. induction l as [|y l IH]; simpl; [set_solver|]. destruct (by_distance t y c); set_solver. Qed.

Lemma upsert_sorted t l c : StronglySorted (near_lt t) l -> StronglySorted (near_lt t) (upsert t l c).
Proof.
  induction 1 as [|y l Hl IH Hy]; simpl; [by repeat constructor|].
  destruct (by_distance t y c) eqn:E.
  - constructor; [done|]. eapply Forall_impl; [exact Hy|]. intros z Hz.
    eapply (cle_clt_trans (by_distance t)); [|exact Hz]. by apply ceq_cle_r; [apply _|].
  - constructor; [done|]. apply Forall_forall. intros z [->|Hz]%upsert_elem_of; [done|].
    by eapply Forall_forall in Hy.
  - apply cmp_gt in E; [|apply _]. repeat constructor; [done..|].
    eapply Forall_impl; [exact Hy|]. intros z Hz. etrans; [exact E|exact Hz].
Qed.

Lemma upsert_refresh t l l' c :
  StronglySorted (near_lt t) l -> refresh_address c l = Some l' -> upsert t l c = l'.
Proof.
  intros Hs. revert l'. induction Hs as [|y l Hl IH Hy]; intros l' H; simpl in H; [done|].
  case_bool_decide as Hid; simpl.
  - injection H as <-. assert (by_distance t y c = Eq) as -> by by apply xor_distance_cmp_eq.
    rewrite Hid. by destruct c.
  - apply fmap_Some in H as (l'' & H & ->). destruct (refresh_address_Some _ _ _ H) as (Hids & Hc & _).
    assert (id c ∈ (id <$> l)) as (d & Hd & Hin)%list_elem_of_fmap by (rewrite <- Hids; set_solver).
    assert (near_lt t y c) as Hlt.
    { eapply (clt_cle_trans (by_distance t)); [by eapply Forall_forall in Hy|].
      apply ceq_cle_l; [apply _|]. by apply xor_distance_cmp_eq. }
    unfold clt in Hlt. rewrite Hlt. f_equal. by apply IH.
Qed.

Lemma upsert_insert t l c :
  refresh_address c l = None ->
  let pos := partition_point (fun s => bool_decide (xor_distance_cmp (id s) (id c) t = Lt)) l in
  pos <= length l /\ upsert t l c = take pos l ++ c :: drop pos l.
Proof.
  induction l as [|y l IH]; intros H; simpl in *; [done|].
  case_bool_decide as Hid; [done|]. apply fmap_None in H. destruct (IH H) as [Hle Heq].
  unfold by_distance at 1. case_bool_decide as Hlt; simpl.
  - rewrite Hlt. split; [lia|]. by rewrite Heq.
  - split; [lia|]. destruct (xor_distance_cmp (id y) (id c) t) eqn:E; [|done|done].
    by apply xor_distance_cmp_eq in E.
Qed.

Lemma upsert_length t l c : length (upsert t l c) <= S (length l).
Proof. induction l as [|y l IH]; simpl; [done|]. destruct (by_distance t y c); simpl; lia. Qed.

(** The write keeps the nearest [capacity] of the set and the newcomer. *)
Lemma offer_sibling_spec capacity t c l :
  StronglySorted (near_lt t) l -> length l <= capacity ->
  offer_sibling capacity t c l = take capacity (upsert t l c).
Proof.
  intros Hs Hlen. unfold offer_sibling. destruct (refresh_address c l) as [l'|] eqn:E.
  - rewrite (upsert_refresh _ _ _ _ Hs E). rewrite take_ge; [done|].
    apply refresh_address_Some in E as [E _]. apply (f_equal length) in E.
    rewrite !length_fmap in E. lia.
  - pose proof (upsert_insert t l c E) as [Hpos Hins]. cbn zeta in *.
    set (pos := partition_point _ l) in *. rewrite Hins.
    destruct (Nat.eqb_spec (length l) capacity) as [Hfull|Hnf].
    + destruct (Nat.eqb_spec pos (length l)) as [->|Hp].
      * rewrite firstn_all, drop_all, take_app_le, take_ge by lia. done.
      * unfold insert_at, pop. rewrite length_take.
        rewrite (proj2 (Nat.ltb_lt _ _)), (proj2 (Nat.leb_le _ _)) by lia. simpl.
        rewrite take_take, Nat.min_l by lia. rewrite skipn_firstn_comm.
        rewrite take_app_ge by (rewrite length_take; lia). f_equal.
        rewrite length_take, Nat.min_l by lia.
        replace (capacity - pos) with (S (length l - 1 - pos)) by lia. done.
    + unfold insert_at. rewrite (proj2 (Nat.ltb_lt _ _)), (proj2 (Nat.leb_le _ _)) by lia. simpl.
      rewrite (take_ge (_ ++ _)); [done|]. rewrite length_app, length_take. simpl. rewrite length_drop. lia.
Qed.

Lemma StronglySorted_take {A} (R : relation A) k (l : list A) :
  StronglySorted R l -> StronglySorted R (take k l).
Proof. intros H. rewrite <- (take_drop k l) in H. by apply StronglySorted_app_1_l in H. Qed.

Lemma offer_sibling_sorted capacity t c l :
  StronglySorted (near_lt t) l -> length l <= capacity ->
  StronglySorted (near_lt t) (offer_sibling capacity t c l).
Proof.
  intros Hs Hl. rewrite offer_sibling_spec by done. by apply StronglySorted_take, upsert_sorted.
Qed.

Lemma offer_sibling_elem_of capacity t c l x :
  StronglySorted (near_lt t) l -> length l <= capacity ->
  x ∈ offer_sibling capacity t c l -> x = c \/ x ∈ l.
Proof.
  intros Hs Hl. rewrite offer_sibling_spec by done. intros (i & Hi & _)%elem_of_take.
  by eapply upsert_elem_of, list_elem_of_lookup_2.
Qed.

(** Without the invariant, by cases on the code. *)
Lemma offer_sibling_elem_of' capacity t c l x :
  x ∈ offer_sibling capacity t c l -> x = c \/ x ∈ l.
Proof.
  assert (forall n m (l : list Contact), x ∈ insert_at n m c l -> x = c \/ x ∈ l) as Hins.
  { intros n m l'. unfold insert_at. destruct (_ && _); [|by right].
    rewrite elem_of_app, elem_of_cons, elem_of_take.
    intros [(i & ? & _)|[->|Hx]]; [right; by eapply list_elem_of_lookup_2|by left|right].
    rewrite <- (take_drop m l'). set_solver. }
  unfold offer_sibling. destruct (refresh_address c l) eqn:E.
  { by apply (refresh_address_Some _ _ _ E). }
  destruct (_ =? _); [destruct (_ =? _)|]; [by right| |by apply Hins].
  intros [->|(i & Hi & _)%elem_of_take]%Hins; [by left|right].
  by eapply list_elem_of_lookup_2.
Qed.

(** ** Invariant and interface *)

Section spec.
Context {C : Type} `{CloseNodesSpec C} {SIBLINGS : nat}.
Abbreviation table := (SiblingList C SIBLINGS).
Implicit Types (s : table) (c : Contact).

(** Sorted by distance to us with distinct ids, bounded, without ourselves,
    over a table that is well formed. *)
Record sl_inv s : Prop := {
  sl_sorted : StronglySorted (near_lt (sl_my_id s)) (sl_siblings s);
  sl_bounded : length (sl_siblings s) <= SIBLINGS;
  sl_not_me c : c ∈ sl_siblings s -> id c <> sl_my_id s;
  sl_fallback_inv : cn_inv (sl_fallback s)
}.

Lemma sibling_new_inv my_id fb : cn_inv fb -> sl_inv (sibling_new my_id fb).
Proof. intros Hfb. split; simpl; [constructor|lia|set_solver|done]. Qed.

Lemma sibling_add_inv c s : sl_inv s -> sl_inv (sibling_maybe_add_contact c s).
Proof.
  intros [Hs Hb Hm Hf]. unfold sibling_maybe_add_contact. case_bool_decide as Hme; [done|].
  split; simpl; [by apply offer_sibling_sorted| | |by apply cn_inv_add].
  - rewrite offer_sibling_spec by done. rewrite length_take. lia.
  - intros x [->|Hx]%offer_sibling_elem_of; auto.
Qed.

Lemma sibling_remove_inv c s : sl_inv s -> sl_inv (sibling_remove_contact c s).
Proof.
  intros [Hs Hb Hm Hf]. pose proof (remove_exact_spec c (sl_siblings s)) as Hr.
  split; simpl; [| | |by apply cn_inv_remove].
  - unfold remove_exact. destruct (position _ _); [by apply delete_sorted|done].
  - etrans; [by eapply removal_length|done].
  - intros x Hx. eapply Hm, removal_elem_of; [exact Hr|exact Hx].
Qed.

Lemma sibling_query_eq now t s :
  (sibling_close_nodes now t s).1 =
  closest_to t K ((close_nodes now t (sl_fallback s)).1 ++ sl_siblings s).
Proof. unfold sibling_close_nodes. by destruct (close_nodes now t (sl_fallback s)). Qed.

Lemma sibling_query_state now t s :
  (sibling_close_nodes now t s).2 =
  MkSiblings (sl_siblings s) (close_nodes now t (sl_fallback s)).2 (sl_my_id s).
Proof. unfold sibling_close_nodes. by destruct (close_nodes now t (sl_fallback s)). Qed.

Lemma sibling_query_sorted now t s :
  StronglySorted (near_lt t) (sibling_close_nodes now t s).1.
Proof. rewrite sibling_query_eq. apply closest_sorted; [apply _|]. apply same_id_spec. Qed.

#[export] Program Instance SiblingList_Spec : CloseNodesSpec table := {| cn_inv := sl_inv |}.
Next Obligation.
  intros now t s [Hs Hb Hm Hf]. simpl. rewrite sibling_query_state.
  split; simpl; auto with kad.
Qed.
Next Obligation. intros c s. apply sibling_add_inv. Qed.
Next Obligation. intros c s. apply sibling_remove_inv. Qed.
Next Obligation. intros now t s _. simpl. rewrite sibling_query_eq. apply closest_length. Qed.
Next Obligation.
  intros now t s _. simpl. pose proof (sibling_query_sorted now t s) as Hs.
  induction Hs as [|x l Hl IH Hx]; constructor; [done|].
  eapply Forall_impl; [exact Hx|]. intros y. apply clt_cle.
Qed.
Next Obligation.
  intros now t s. simpl. rewrite sibling_query_state, !sibling_iter. simpl.
  by rewrite cn_query_iter.
Qed.
Next Obligation.
  intros c s x. simpl. unfold sibling_maybe_add_contact. case_bool_decide; [by right|].
  rewrite !sibling_iter. simpl. rewrite !elem_of_app.
  intros [Hx%offer_sibling_elem_of'|Hx%cn_add_iter]; tauto.
Qed.
Next Obligation.
  intros c s x. simpl. rewrite !sibling_iter. simpl. rewrite !elem_of_app.
  intros [Hx|Hx%cn_remove_iter]; [left|by right].
  eapply removal_elem_of; [apply remove_exact_spec|exact Hx].
Qed.
Next Obligation.
  intros c s x. simpl. rewrite !sibling_iter. simpl. rewrite !elem_of_app.
  intros [Hx|Hx] Hne; [left|right; by apply cn_remove_keeps].
  eapply removal_keeps; [apply remove_exact_spec|exact Hx|exact Hne].
Qed.
End spec.

(** ** Refinement: the nearest of everything offered *)

(** The abstract state: the address each id was last offered with. *)
Definition latest_offers (offers : list Contact) : gmap NodeId SocketAddr :=
  foldl (fun m c => <[id c := address c]> m) ∅ offers.

Lemma upsert_other t l c x : id x <> id c -> x ∈ l -> x ∈ upsert t l c.
Proof.
  intros Hne. induction l as [|y l IH]; simpl; [set_solver|].
  destruct (by_distance t y c) eqn:E; [|set_solver|set_solver].
  apply xor_distance_cmp_eq in E. intros [->|Hx]%elem_of_cons; [done|set_solver].
Qed.

Lemma upsert_new t l c : c ∈ upsert t l c.
Proof. induction l as [|y l IH]; simpl; [set_solver|]. destruct (by_distance t y c); set_solver. Qed.

Lemma sorted_ids_unique t l x y :
  StronglySorted (near_lt t) l -> x ∈ l -> y ∈ l -> id x = id y -> x = y.
Proof.
  induction 1 as [|z l Hl IH Hz]; [set_solver|]. rewrite Forall_forall in Hz.
  intros [->|Hx]%elem_of_cons [->|Hy]%elem_of_cons Hid; [done| | |by apply IH].
  - by apply Hz, near_lt_ids in Hy.
  - by apply Hz, near_lt_ids in Hx.
Qed.

Lemma foldl_upsert_sorted t l : StronglySorted (near_lt t) (foldl (upsert t) [] l).
Proof.
  induction l as [|c l IH] using rev_ind; [constructor|]. rewrite foldl_app. by apply upsert_sorted.
Qed.

Lemma foldl_upsert_latest t l x :
  x ∈ foldl (upsert t) [] l <-> latest_offers l !! id x = Some (address x).
Proof.
  revert x. induction l as [|c l IH] using rev_ind; intros x; [set_solver|].
  unfold latest_offers. rewrite !foldl_app. simpl. fold (latest_offers l).
  pose proof (upsert_sorted t _ c (foldl_upsert_sorted t l)) as Hs.
  destruct (decide (id c = id x)) as [Hid|Hid].
  - rewrite Hid, lookup_insert_eq. split.
    + intros Hx. by rewrite (sorted_ids_unique t _ x c Hs Hx (upsert_new _ _ _) (eq_sym Hid)).
    + intros [= Ha]. replace x with c by (destruct x, c; simpl in *; congruence). apply upsert_new.
  - rewrite lookup_insert_ne by done. rewrite <- IH. split.
    + intros [->|Hx]%upsert_elem_of; done.
    + by apply upsert_other.
Qed.

Lemma foldl_upsert_take t k l offers :
  take k (foldl (upsert t) l offers) = take k (foldl (upsert t) (take k l) offers).
Proof.
  induction offers as [|c offers IH] using rev_ind; simpl; [by rewrite take_take, Nat.min_id|].
  rewrite !foldl_app. simpl. by rewrite upsert_take, IH, <- upsert_take.
Qed.

Section refinement.
Context {C : Type} `{CloseNodesSpec C} {SIBLINGS : nat}.
Implicit Type s : SiblingList C SIBLINGS.

(** The contacts that are not ourselves. *)
Definition others (me : NodeId) (offers : list Contact) : list Contact :=
  filter (fun c => id c <> me) offers.

Lemma offers_spec s offers :
  sl_inv s ->
  let s' := foldl (fun s c => sibling_maybe_add_contact c s) s offers in
  sl_inv s' /\ sl_my_id s' = sl_my_id s /\
  sl_siblings s' = take SIBLINGS (foldl (upsert (sl_my_id s)) (sl_siblings s) (others (sl_my_id s) offers)).
Proof.
  intros Hs. induction offers as [|c offers IH] using rev_ind; simpl.
  { split_and!; [done|done|]. by rewrite take_ge by apply (sl_bounded s Hs). }
  rewrite foldl_app. simpl in *. set (s' := foldl _ s offers) in *.
  destruct IH as (Hs' & Hme & Heq). split; [by apply sibling_add_inv|].
  unfold sibling_maybe_add_contact, others. rewrite Hme, filter_app. simpl.
  case_bool_decide as Hc; simpl.
  - rewrite filter_cons_False, app_nil_r by naive_solver. done.
  - rewrite filter_cons_True, foldl_app by done. simpl. split; [done|].
    rewrite offer_sibling_spec.
    + rewrite Heq. by rewrite <- upsert_take.
    + rewrite <- Hme. by apply sl_sorted.
    + by apply sl_bounded.
Qed.
End refinement.
