(* ===== verification/Cache.v ===== *)
(** * Cache: the memoising layer, and the deployed routing table

    Models [src/close_nodes/cache.rs] and [recommended] of
    [src/close_nodes.rs].  The operations here are those of a cache
    that is asked by one task at a time: then one built with [cached_new] is
    transparent ([cache_reach_exact]), and one built with [ttl_only] never serves
    an answer across a removal.  The code holds no lock from the load of the
    generation to the insertion; SharedCache takes the same operations apart into
    the steps between which other threads can come, and shows that a query that
    nobody disturbs is [cached_close_nodes]. *)

From S2P Require Import Prelude Slices Machine Contacts DumbBucket StaticBucket SiblingList.

Record Entry : Type := MkEntry {
  e_contacts : list Contact;
  e_generation : u64;
  e_stored : Instant
}.

Record CachedCloseNodes (C : Type) : Type := MkCached {
  inner : C;
  entries : gmap NodeId Entry;
  generation : u64;
  ttl : Duration;
  capacity : nat;
  invalidate_on_write : bool
}.
Arguments MkCached {C} inner entries generation ttl capacity invalidate_on_write.
Arguments inner {C} c.
Arguments entries {C} c.
Arguments generation {C} c.
Arguments ttl {C} c.
Arguments capacity {C} c.
Arguments invalidate_on_write {C} c.

(** [AtomicU64::fetch_add(1)] wraps around. *)
Definition fetch_add_1 (g : u64) : u64 := wrap 64 (uval g + 1).

Section Cache.
Context {C : Type} `{CloseNodes C}.
Abbreviation cache := (CachedCloseNodes C).
Implicit Types (s : cache) (c contact : Contact).

Definition set_entries (m : gmap NodeId Entry) s : cache :=
  MkCached (inner s) m (generation s) (ttl s) (capacity s) (invalidate_on_write s).
Definition set_inner (x : C) s : cache :=
  MkCached x (entries s) (generation s) (ttl s) (capacity s) (invalidate_on_write s).
Definition bump s : cache :=
  MkCached (inner s) (entries s) (fetch_add_1 (generation s)) (ttl s) (capacity s)
    (invalidate_on_write s).

Definition cached_new (inner : C) (ttl : Duration) (capacity : nat) : cache :=
  MkCached inner ∅ (wrap 64 0) ttl capacity true.

Definition ttl_only (inner : C) (ttl : Duration) (capacity : nat) : cache :=
  let base := cached_new inner ttl capacity in
  MkCached (Cache.inner base) (entries base) (generation base) (Cache.ttl base)
    (Cache.capacity base) false.

Definition clear s : cache := set_entries ∅ s.

Definition is_fresh (now : Instant) s (entry : Entry) (generation : u64) : bool :=
  bool_decide (e_generation entry = generation) &&
  (elapsed now (e_stored entry) <? ttl s)%N.

(** Nobody else uses the cache meanwhile; otherwise [SharedCache.query_step]. *)
Definition make_room (now : Instant) (generation : u64) s : cache :=
  if size (entries s) <? capacity s then s else
  let s := set_entries (filter (fun '(_, entry) => is_fresh now s entry generation) (entries s)) s in
  if capacity s <=? size (entries s) then clear s else s.

(** Nobody else uses the cache meanwhile; otherwise [SharedCache.query_step]. *)
Definition cached_close_nodes (now : Instant) (id : NodeId) : M cache (list Contact) := fun s =>
  let generation := generation s in
  let recompute :=
    let (contacts, x) := close_nodes now id (inner s) in
    let s := make_room now generation (set_inner x s) in
    (contacts, set_entries (<[id := MkEntry contacts generation now]> (entries s)) s) in
  match entries s !! id with
  | Some entry => if is_fresh now s entry generation then (e_contacts entry, s) else recompute
  | None => recompute
  end.

Definition cached_remove_contact contact s : cache :=
  bump (set_inner (remove_contact contact (inner s)) s).

Definition cached_contacts_chunks s : list (cache -> list Contact) :=
  (fun chunk s' => chunk (inner s')) <$> contacts_chunks (inner s).

Definition cached_maybe_add_contact contact s : cache :=
  let s := set_inner (maybe_add_contact contact (inner s)) s in
  if invalidate_on_write s then bump s else s.

#[export] Instance CachedCloseNodes_CloseNodes : CloseNodes cache := {
  close_nodes := cached_close_nodes;
  maybe_add_contact := cached_maybe_add_contact;
  remove_contact := cached_remove_contact;
  contacts_chunks := cached_contacts_chunks
}.

Lemma cached_iter s : contacts_iter s = contacts_iter (inner s).
Proof.
  unfold contacts_iter. cbn [contacts_chunks CachedCloseNodes_CloseNodes].
  unfold cached_contacts_chunks. by rewrite <- list_fmap_compose.
Qed.

(** ** Making room *)

Lemma make_room_entries now g s t e :
  entries (make_room now g s) !! t = Some e -> entries s !! t = Some e.
Proof.
  unfold make_room. destruct (_ <? _); [done|].
  set (s' := set_entries _ s). destruct (_ <=? _); [done|].
  simpl. intros [? _]%map_lookup_filter_Some. done.
Qed.

Lemma make_room_inner now g s : inner (make_room now g s) = inner s.
Proof. unfold make_room. by destruct (_ <? _); [|destruct (_ <=? _)]. Qed.

Lemma make_room_generation now g s : generation (make_room now g s) = generation s.
Proof. unfold make_room. by destruct (_ <? _); [|destruct (_ <=? _)]. Qed.

Lemma make_room_flags now g s : invalidate_on_write (make_room now g s) = invalidate_on_write s.
Proof. unfold make_room. by destruct (_ <? _); [|destruct (_ <=? _)]. Qed.

Lemma make_room_capacity now g s : capacity (make_room now g s) = capacity s.
Proof. unfold make_room. by destruct (_ <? _); [|destruct (_ <=? _)]. Qed.

Lemma make_room_size now g s :
  0 < capacity s -> size (entries (make_room now g s)) < capacity s.
Proof.
  intros Hc. unfold make_room. destruct (Nat.ltb_spec (size (entries s)) (capacity s)); [done|].
  set (s' := set_entries _ s). destruct (Nat.leb_spec (capacity s') (size (entries s'))); [|done].
  simpl. by rewrite map_size_empty.
Qed.
End Cache.

(** Queries that depend on neither time nor hidden state. *)
Class PureQuery (C : Type) `{CloseNodes C} := {
  pure_state now t (x : C) : (close_nodes now t x).2 = x;
  pure_time now now' t (x : C) : (close_nodes now t x).1 = (close_nodes now' t x).1
}.

#[export] Instance DumbBucket_Pure : PureQuery DumbBucket.
Proof. by split. Qed.

#[export] Instance StaticBucket_Pure n m k : PureQuery (StaticBucket n m k).
Proof. split; [|done]. intros now t x. apply static_query_state. Qed.

#[export] Instance SiblingList_Pure C n `{PureQuery C} : PureQuery (SiblingList C n).
Proof.
  split.
  - intros now t x. simpl. unfold sibling_close_nodes.
    pose proof (pure_state now t (sl_fallback x)) as Hp.
    destruct (close_nodes now t (sl_fallback x)). simpl in *. subst. by destruct x.
  - intros now now' t x. simpl. unfold sibling_close_nodes.
    pose proof (pure_time now now' t (sl_fallback x)) as Hp.
    by destruct (close_nodes now t (sl_fallback x)), (close_nodes now' t (sl_fallback x));
      simpl in *; subst.
Qed.

Section query.
Context {C : Type} `{CloseNodes C}.
Implicit Type s : CachedCloseNodes C.

(** A query is a hit on a fresh entry or a recomputation. *)
Lemma cached_query_cases now t s :
  (exists e, entries s !! t = Some e /\ is_fresh now s e (generation s) = true /\
     cached_close_nodes now t s = (e_contacts e, s)) \/
  ((cached_close_nodes now t s).1 = (close_nodes now t (inner s)).1 /\
   inner (cached_close_nodes now t s).2 = (close_nodes now t (inner s)).2 /\
   generation (cached_close_nodes now t s).2 = generation s /\
   capacity (cached_close_nodes now t s).2 = capacity s /\
   (0 < capacity s -> size (entries (cached_close_nodes now t s).2) <= capacity s) /\
   forall u e, entries (cached_close_nodes now t s).2 !! u = Some e ->
     entries s !! u = Some e \/
     (u = t /\ e = MkEntry (close_nodes now t (inner s)).1 (generation s) now)).
Proof.
  unfold cached_close_nodes. destruct (entries s !! t) as [e|] eqn:E;
    [destruct (is_fresh now s e (generation s)) eqn:Ef; [left; eauto|]|].
  all: right; destruct (close_nodes now t (inner s)) as [l x]; cbn -[make_room];
    rewrite make_room_inner, make_room_generation, make_room_capacity; split_and!; try done;
    [intros Hc; rewrite map_size_insert; pose proof (make_room_size now (generation s) (set_inner x s) Hc);
     simpl in *; destruct (entries (make_room _ _ _) !! t); unfold Datatypes.id; lia|];
    intros u e' [[<- <-]|[_ He]]%lookup_insert_Some; [by right|left];
    by apply make_room_entries in He.
Qed.
End query.

Section spec.
Context {C : Type} `{CloseNodesSpec C}.
Implicit Type s : CachedCloseNodes C.

(** Every cached answer is one the interface allows. *)
Record ca_inv s : Prop := {
  ca_inner_inv : cn_inv (inner s);
  ca_entries t e : entries s !! t = Some e ->
    length (e_contacts e) <= K /\ StronglySorted (near_le t) (e_contacts e)
}.

Lemma cached_new_inv x n k : cn_inv x -> ca_inv (cached_new x n k).
Proof. intros Hx. split; [done|]. intros t e. simpl. by rewrite lookup_empty. Qed.

Lemma ttl_only_inv x n k : cn_inv x -> ca_inv (ttl_only x n k).
Proof. intros Hx. split; [done|]. intros t e. simpl. by rewrite lookup_empty. Qed.

Lemma cached_query_inv now t s : ca_inv s -> ca_inv (cached_close_nodes now t s).2.
Proof.
  intros [Hi He]. destruct (cached_query_cases now t s)
    as [(e & _ & _ & ->)|(_ & Hin & _ & _ & _ & Hent)]; [done|].
  split; [rewrite Hin; by apply cn_inv_query|].
  intros u e [Hu|[-> ->]]%Hent; [by apply He|]. split; [by apply cn_query_length|by apply cn_query_sorted].
Qed.

#[export] Program Instance CachedCloseNodes_Spec : CloseNodesSpec (CachedCloseNodes C) :=
  {| cn_inv := ca_inv |}.
Next Obligation. intros now t s. apply cached_query_inv. Qed.
Next Obligation.
  intros c s [Hi He]. simpl. unfold cached_maybe_add_contact. simpl.
  destruct (invalidate_on_write s); split; simpl; auto with kad.
Qed.
Next Obligation. intros c s [Hi He]. split; simpl; auto with kad. Qed.
Next Obligation.
  intros now t s Hs. simpl. destruct (cached_query_cases now t s) as [(e & He & _ & ->)|(-> & _)].
  - apply (ca_entries s Hs t e He).
  - apply cn_query_length, Hs.
Qed.
Next Obligation.
  intros now t s Hs. simpl. destruct (cached_query_cases now t s) as [(e & He & _ & ->)|(-> & _)].
  - apply (ca_entries s Hs t e He).
  - apply cn_query_sorted, Hs.
Qed.
Next Obligation.
  intros now t s. simpl. rewrite !cached_iter.
  destruct (cached_query_cases now t s) as [(e & _ & _ & ->)|(_ & -> & _)]; [done|apply cn_query_iter].
Qed.
Next Obligation.
  intros c s x. simpl. rewrite !cached_iter. unfold cached_maybe_add_contact. simpl.
  destruct (invalidate_on_write s); simpl; apply cn_add_iter.
Qed.
Next Obligation. intros c s x. simpl. rewrite !cached_iter. apply cn_remove_iter. Qed.
Next Obligation. intros c s x. simpl. rewrite !cached_iter. apply cn_remove_keeps. Qed.
End spec.

(** ** Freshness *)

Section freshness.
Context {C : Type} `{PureQuery C}.
Implicit Type s : CachedCloseNodes C.

(** No entry is from the future of the generation counter. *)
Definition ca_old s : Prop :=
  forall t e, entries s !! t = Some e -> (uval (e_generation e) <= uval (generation s))%N.

(** An entry of the current generation is what the table would answer. *)
Definition ca_exact s : Prop :=
  forall t e, entries s !! t = Some e -> e_generation e = generation s ->
    forall now, e_contacts e = (close_nodes now t (inner s)).1.

Lemma no_entries s : entries s = ∅ -> ca_old s /\ ca_exact s.
Proof. intros Hs. split; intros t e; rewrite Hs, lookup_empty; done. Qed.

Lemma query_exact now t s : ca_exact s -> (cached_close_nodes now t s).1 = (close_nodes now t (inner s)).1.
Proof.
  intros Hs. destruct (cached_query_cases now t s) as [(e & He & Hf & ->)|(-> & _)]; [|done].
  unfold is_fresh in Hf. brefl. by apply (Hs t e).
Qed.

Lemma query_keeps_old now t s : ca_old s -> ca_old (cached_close_nodes now t s).2.
Proof.
  intros Ho. destruct (cached_query_cases now t s) as [(e & _ & _ & ->)|(_ & _ & Hg & _ & _ & Hent)]; [done|].
  intros u e. rewrite Hg. intros [Hu|[-> ->]]%Hent; [by eapply Ho|done].
Qed.

Lemma query_keeps_exact now t s : ca_exact s -> ca_exact (cached_close_nodes now t s).2.
Proof.
  intros He. destruct (cached_query_cases now t s)
    as [(e & _ & _ & ->)|(_ & Hin & Hg & _ & _ & Hent)]; [done|].
  rewrite pure_state in Hin. intros u e.
  rewrite Hg, Hin. intros [Hu|[-> ->]]%Hent Hge now'; [by apply He|]. apply pure_time.
Qed.

(** Bumping the generation makes every entry stale. *)
Lemma bump_exact s x :
  (uval (generation s) + 1 < 2 ^ 64)%N -> ca_old s ->
  ca_old (bump (set_inner x s)) /\ ca_exact (bump (set_inner x s)) /\
  uval (generation (bump (set_inner x s))) = (uval (generation s) + 1)%N.
Proof.
  intros Hlt Ho.
  assert (uval (fetch_add_1 (generation s)) = (uval (generation s) + 1)%N) as Hg.
  { unfold fetch_add_1. rewrite uval_wrap. by apply N.mod_small. }
  split_and!; [..|done]; intros t e He; specialize (Ho t e He).
  - change (uval (e_generation e) <= uval (fetch_add_1 (generation s)))%N. lia.
  - intros Heq. change (e_generation e = fetch_add_1 (generation s)) in Heq.
    rewrite Heq in Ho. lia.
Qed.

(** A cache as it is built: no entries, nothing written. *)
Definition built s : Prop := entries s = ∅ /\ uval (generation s) = 0%N.

Lemma cached_new_built x d k : built (cached_new x d k).
Proof. done. Qed.
Lemma ttl_only_built x d k : built (ttl_only x d k).
Proof. done. Qed.

(** The states of the cache [s0] after [n] writes, one operation at a time. *)
Inductive cache_reach s0 : N -> CachedCloseNodes C -> Prop :=
  | cr_built : cache_reach s0 0 s0
  | cr_query n s now t : cache_reach s0 n s -> cache_reach s0 n (cached_close_nodes now t s).2
  | cr_clear n s : cache_reach s0 n s -> cache_reach s0 n (clear s)
  | cr_add n s c : cache_reach s0 n s -> cache_reach s0 (n + 1) (cached_maybe_add_contact c s)
  | cr_remove n s c : cache_reach s0 n s -> cache_reach s0 (n + 1) (cached_remove_contact c s).

Lemma cached_query_flags now t s :
  invalidate_on_write (cached_close_nodes now t s).2 = invalidate_on_write s.
Proof.
  unfold cached_close_nodes.
  destruct (close_nodes now t (inner s)) as [l x], (entries s !! t) as [e|]; simpl;
    [destruct (is_fresh _ _ _ _); [done|]|]; simpl; by rewrite make_room_flags.
Qed.

Lemma cache_reach_exact s0 n s :
  built s0 -> cache_reach s0 n s -> (n < 2 ^ 64)%N ->
  ca_old s /\ (uval (generation s) <= n)%N /\ invalidate_on_write s = invalidate_on_write s0 /\
  (invalidate_on_write s0 = true -> ca_exact s).
Proof.
  intros [He0 Hg0]. induction 1 as [|n s now t Hr IH|n s Hr IH|n s c Hr IH|n s c Hr IH]; intros Hn.
  - destruct (no_entries s0 He0) as [? ?]. split_and!; [done|lia|done|done].
  - destruct (IH Hn) as (Ho & Hg & Hi & He). rewrite cached_query_flags.
    assert (generation (cached_close_nodes now t s).2 = generation s) as Hg'
      by (destruct (cached_query_cases now t s) as [(e & _ & _ & ->)|(_ & _ & ? & _)]; done).
    rewrite Hg'. split; [by apply query_keeps_old|]. split; [done|]. split; [done|].
    intros Hinv. by apply query_keeps_exact, He.
  - destruct (IH Hn) as (Ho & Hg & Hi & He). destruct (no_entries (clear s) eq_refl) as [? ?]. by split_and!.
  - destruct (IH ltac:(lia)) as (Ho & Hg & Hi & He). unfold cached_maybe_add_contact. simpl.
    destruct (invalidate_on_write s) eqn:Hw.
    + destruct (bump_exact s (maybe_add_contact c (inner s))) as (? & ? & Hg'); [lia|done|].
      split_and!; [done|lia|by rewrite <- Hi, <- Hw|done].
    + split; [done|]. split; [simpl; lia|]. split; [simpl; congruence|]. intros Hinv. congruence.
  - destruct (IH ltac:(lia)) as (Ho & Hg & Hi & He). unfold cached_remove_contact.
    destruct (bump_exact s (remove_contact c (inner s))) as (? & ? & Hg'); [lia|done|].
    split_and!; [done|lia|done|done].
Qed.
End freshness.

(** ** The deployed table *)

(** The stack [recommended] builds. *)
Definition RecommendedCloseNodes : Type :=
  CachedCloseNodes (SiblingList (StaticBucket K 0 ROUTING_BUCKETS) SIBLINGS).

Definition recommended (my_id : NodeId) : RecommendedCloseNodes :=
  ttl_only (sibling_new my_id (static_new my_id)) CACHE_TTL CACHE_CAPACITY.

#[export] Instance Recommended_CloseNodes : CloseNodes RecommendedCloseNodes :=
  CachedCloseNodes_CloseNodes.
#[export] Instance Recommended_Spec : CloseNodesSpec RecommendedCloseNodes :=
  CachedCloseNodes_Spec.

Lemma recommended_inv my_id : cn_inv (recommended my_id).
Proof.
  apply ttl_only_inv, sibling_new_inv. simpl. apply static_new_inv.
  apply (Nat.lt_0_succ 255).
Qed.
