(* ===== verification/SharedCache.v ===== *)
(** * SharedCache: the routing table under concurrent use

    The tables of [src/close_nodes] are shared between threads: each bucket and
    the sibling list has a lock of its own, the cache of [cache.rs] is a
    [DashMap] (a lock per shard) beside an atomic counter, and nothing is held
    from one of them to the next.  Here a query of the cache is a task of many
    steps, one per lock or atomic operation, and a write is one step per table it
    touches and one for the counter; any number of tasks take their steps in any
    order.  A task that nobody disturbs does what the operations of Cache do
    ([query_alone], [add_alone], [remove_alone]).  Whatever the interleaving, a
    query answers what a query of the wrapped table answered that began after all
    the writes finished by then ([shared_steps_current]); the capacity is kept as
    long as no two queries overlap ([lone_capacity]); RoutingThms has a run of two
    that overlap and exceed it. *)

From S2P Require Import Prelude Slices Machine Contacts DumbBucket StaticBucket SiblingList Cache.

(** ** Tables, one lock at a time *)

(** A query in progress and what it does while it holds one lock, and the parts
    of a write, each under one lock.  (The removal of [SiblingList] holds the lock
    of the siblings over the removal below it; letting other tasks in between
    allows more than the code does.) *)
Class SharedTable (C : Type) `{CloseNodes C} := {
  Reading : Type;
  begin_query : NodeId -> Reading;
  read_step : Reading -> C -> Reading + list Contact;
  add_parts : Contact -> list (C -> C);
  remove_parts : Contact -> list (C -> C)
}.

Section alone.
Context {C : Type} `{SharedTable C}.

Fixpoint read_run (n : nat) (r : Reading) (x : C) : option (list Contact) :=
  match n with
  | O => None
  | S n => match read_step r x with inl r => read_run n r x | inr l => Some l end
  end.

Definition apply_parts (x : C) (parts : list (C -> C)) : C := foldl (fun x f => f x) x parts.
End alone.

Class SharedTableLaws (C : Type) `{SharedTable C} := {
  (** undisturbed, they are the operations *)
  read_alone now t x : exists n, read_run n (begin_query t) x = Some (close_nodes now t x).1;
  add_alone_parts c x : apply_parts x (add_parts c) = maybe_add_contact c x;
  remove_alone_parts c x : apply_parts x (remove_parts c) = remove_contact c x;
  (** disturbed or not, an answer is one the interface allows *)
  reading_for : NodeId -> Reading -> Prop;
  reading_begin t : reading_for t (begin_query t);
  reading_step t r x :
    reading_for t r ->
    match read_step r x with
    | inl r' => reading_for t r'
    | inr l => length l <= K /\ StronglySorted (near_le t) l
    end
}.

Lemma take_sort_allowed t out :
  length (take K (sort_by_distance t out)) <= K /\ StronglySorted (near_le t) (take K (sort_by_distance t out)).
Proof. split; [rewrite length_take; lia|apply (kn_sorted _ _ _ _ (take_sort_k_nearest K t out))]. Qed.

#[export] Instance DumbBucket_Shared : SharedTable DumbBucket := {|
  Reading := NodeId;
  begin_query t := t;
  read_step t x := inr (take K (sort_by_distance t (dumb_contacts x)));
  add_parts c := [dumb_maybe_add_contact c];
  remove_parts c := [dumb_remove_contact c]
|}.

#[export] Instance DumbBucket_Shared_laws : SharedTableLaws DumbBucket.
Proof.
  refine {| reading_for t (r : Reading (C := DumbBucket)) := r = t |}; try done.
  - intros now t x. by exists 1.
  - intros t r x ->. apply take_sort_allowed.
Defined.

(** *** The bucket table: [extend_from_bucket] locks one bucket *)

Inductive BucketReading : Type :=
  | Home (t : NodeId)
  | Widen (t : NodeId) (out : list Contact) (low high : nat)
  | WidenLow (t : NodeId) (out : list Contact) (low high : nat).

Section buckets.
Context {BUCKET_SIZE SEARCH_SHIFT MAX_BUCKETS : nat}.
Abbreviation table := (StaticBucket BUCKET_SIZE SEARCH_SHIFT MAX_BUCKETS).

Definition bucket_read (r : BucketReading) (s : table) : BucketReading + list Contact :=
  match r with
  | Home t => let home := bucket_index s t in inl (Widen t (extend_from_bucket s [] home) home home)
  | Widen t out low high =>
      if (length out <? K) && ((0 <? low) || (high + 1 <? MAX_BUCKETS)) then
        if high + 1 <? MAX_BUCKETS
        then inl (WidenLow t (extend_from_bucket s out (high + 1)) low (high + 1))
        else inl (WidenLow t out low high)
      else inr (take K (sort_by_distance t out))
  | WidenLow t out low high =>
      if 0 <? low
      then inl (Widen t (extend_from_bucket s out (low - 1)) (low - 1) high)
      else inl (Widen t out low high)
  end.

#[export] Instance StaticBucket_Shared : SharedTable table := {|
  Reading := BucketReading;
  begin_query := Home;
  read_step := bucket_read;
  add_parts c := [static_maybe_add_contact c];
  remove_parts c := [static_remove_contact c]
|}.

Definition bucket_target (r : BucketReading) : NodeId :=
  match r with Home t | Widen t _ _ _ | WidenLow t _ _ _ => t end.

Lemma widen_read fuel t (s : table) : forall out low high,
  low + (MAX_BUCKETS - 1 - high) <= fuel ->
  exists n, read_run n (Widen t out low high) s = Some (take K (sort_by_distance t (widen fuel s out low high).1.1)).
Proof.
  induction fuel as [|fuel IH]; intros out low high Hf.
  - exists 1. cbn [read_run read_step StaticBucket_Shared bucket_read widen fst].
    destruct (Nat.ltb_spec 0 low); [lia|]. destruct (Nat.ltb_spec (high + 1) MAX_BUCKETS); [lia|].
    by rewrite andb_false_r.
  - cbn [widen]. destruct ((length out <? K) && _) eqn:Ht.
    2: { exists 1. cbn [read_run read_step StaticBucket_Shared bucket_read fst]. by rewrite Ht. }
    assert (0 < low \/ high + 1 < MAX_BUCKETS) as Hroom.
    { apply andb_true_iff in Ht as [_ Ht]. apply orb_true_iff in Ht as [Ht|Ht]; apply Nat.ltb_lt in Ht; lia. }
    destruct (high + 1 <? MAX_BUCKETS) eqn:Hh, (0 <? low) eqn:Hl;
      (edestruct IH as [n Hn]; [|exists (S (S n)); cbn [read_run read_step StaticBucket_Shared bucket_read];
        rewrite ?Hh, ?Hl, Ht; cbn [read_run read_step StaticBucket_Shared bucket_read]; rewrite ?Hl; exact Hn]);
      rewrite ?Nat.ltb_lt, ?Nat.ltb_ge in *; lia.
Qed.

#[export] Instance StaticBucket_Shared_laws : SharedTableLaws table.
Proof.
  refine {| reading_for t (r : Reading (C := table)) := bucket_target r = t |}; try done.
  - intros now t s. set (home := bucket_index s t).
    destruct (widen_read MAX_BUCKETS t s (extend_from_bucket s [] home) home home) as [n Hn].
    { unfold home, bucket_index. lia. }
    exists (S n). cbn [read_run read_step begin_query StaticBucket_Shared bucket_read]. fold home. rewrite Hn.
    cbn [close_nodes StaticBucket_CloseNodes]. unfold static_close_nodes. fold home. by destruct (widen _ _ _ _ _) as [[? ?] ?].
  - intros t r s <-. destruct r as [t|t out low high|t out low high]; cbn [read_step StaticBucket_Shared bucket_read bucket_target].
    + done.
    + destruct (_ && _); [by destruct (_ <? _)|apply take_sort_allowed].
    + by destruct (_ <? _).
Defined.
End buckets.

(** *** The sibling list: the query below, then the siblings under their lock *)

Inductive SiblingReading (R : Type) : Type :=
  | Fallback (t : NodeId) (below : R)
  | Siblings (t : NodeId) (out : list Contact).
Arguments Fallback {R} t below.
Arguments Siblings {R} t out.

Section siblings.
Context {C : Type} `{SharedTable C} {SIBLINGS : nat}.
Abbreviation table := (SiblingList C SIBLINGS).

Definition sibling_read (r : SiblingReading Reading) (s : table) : SiblingReading Reading + list Contact :=
  match r with
  | Fallback t below =>
      match read_step below (sl_fallback s) with
      | inl below => inl (Fallback t below)
      | inr out => inl (Siblings t out)
      end
  | Siblings t out => inr (closest_to t K (out ++ sl_siblings s))
  end.

Definition on_fallback (f : C -> C) (s : table) : table :=
  MkSiblings (sl_siblings s) (f (sl_fallback s)) (sl_my_id s).

(** Our own id is never added. *)
Definition unless_me (contact : Contact) (f : table -> table) (s : table) : table :=
  if bool_decide (id contact = sl_my_id s) then s else f s.

#[export] Instance SiblingList_Shared : SharedTable table := {|
  Reading := SiblingReading Reading;
  begin_query t := Fallback t (begin_query t);
  read_step := sibling_read;
  add_parts c :=
    ((fun part => unless_me c (on_fallback part)) <$> add_parts c) ++
    [unless_me c (fun s => MkSiblings (offer_sibling SIBLINGS (sl_my_id s) c (sl_siblings s)) (sl_fallback s) (sl_my_id s))];
  remove_parts c :=
    (fun s => MkSiblings (remove_exact c (sl_siblings s)) (sl_fallback s) (sl_my_id s)) ::
    (on_fallback <$> remove_parts c)
|}.

Lemma apply_on_fallback parts (s : table) :
  apply_parts s (on_fallback <$> parts) = on_fallback (fun x => apply_parts x parts) s.
Proof. unfold apply_parts. revert s. induction parts as [|f parts IH]; intros s; [by destruct s|]. exact (IH (on_fallback f s)). Qed.

Lemma apply_unless_me c parts (s : table) :
  apply_parts s ((fun part => unless_me c (on_fallback part)) <$> parts) =
  unless_me c (on_fallback (fun x => apply_parts x parts)) s.
Proof.
  unfold apply_parts. revert s. induction parts as [|f parts IH]; intros s.
  - unfold unless_me. case_bool_decide; [done|]. by destruct s.
  - rewrite fmap_cons. cbn [foldl]. rewrite IH. unfold unless_me.
    destruct (bool_decide (id c = sl_my_id s)) eqn:Hc; [by rewrite Hc|].
    cbn [on_fallback sl_my_id]. by rewrite Hc.
Qed.

Lemma sibling_read_run n t below (s : table) out :
  read_run n below (sl_fallback s) = Some out ->
  read_run (C := table) (n + 1) (Fallback t below : Reading (C := table)) s = Some (closest_to t K (out ++ sl_siblings s)).
Proof.
  revert below. induction n as [|n IH]; intros below Hn; [done|].
  cbn [Nat.add read_run read_step SiblingList_Shared sibling_read] in *.
  destruct (read_step below (sl_fallback s)) as [below'|l]; [by apply IH|]. injection Hn as ->.
  rewrite Nat.add_comm. done.
Qed.

#[export] Instance SiblingList_Shared_laws `{!SharedTableLaws C} : SharedTableLaws table.
Proof.
  refine {| reading_for t (r : Reading (C := table)) :=
    match r with Fallback u below => u = t /\ reading_for t below | Siblings u _ => u = t end |}.
  - intros now t s. destruct (read_alone now t (sl_fallback s)) as [n Hn]. exists (n + 1).
    cbn [begin_query SiblingList_Shared]. rewrite (sibling_read_run n t _ s _ Hn).
    cbn [close_nodes SiblingList_CloseNodes]. unfold sibling_close_nodes. by destruct (close_nodes now t (sl_fallback s)).
  - intros c s. cbn [add_parts SiblingList_Shared]. unfold apply_parts. rewrite foldl_app. cbn [foldl].
    change (foldl (fun x f => f x) s ?l) with (apply_parts s l). rewrite apply_unless_me.
    cbn [maybe_add_contact SiblingList_CloseNodes]. unfold unless_me, sibling_maybe_add_contact.
    destruct (bool_decide (id c = sl_my_id s)) eqn:Hc; [by rewrite Hc|].
    cbn [on_fallback sl_my_id sl_siblings sl_fallback]. rewrite Hc. by rewrite add_alone_parts.
  - intros c s. cbn [remove_parts SiblingList_Shared]. unfold apply_parts. cbn [foldl].
    change (foldl (fun x f => f x) ?s0 ?l) with (apply_parts s0 l). rewrite apply_on_fallback.
    cbn [remove_contact SiblingList_CloseNodes]. unfold on_fallback, sibling_remove_contact.
    cbn [sl_my_id sl_siblings sl_fallback]. by rewrite remove_alone_parts.
  - intros t. split; [done|apply reading_begin].
  - intros t [u below|u out] s; cbn [read_step SiblingList_Shared sibling_read].
    + intros [-> Hr]. pose proof (reading_step t below (sl_fallback s) Hr) as Hs. by destruct (read_step below _).
    + intros ->. split; [apply closest_length|].
      assert (StronglySorted (near_lt t) (closest_to t K (out ++ sl_siblings s))) as Hs
        by (apply closest_sorted; [apply _|apply same_id_spec]).
      induction Hs as [|x l Hl IH Hx]; constructor; [done|].
      eapply Forall_impl; [exact Hx|]. intros y. apply clt_cle.
Defined.
End siblings.

(** ** The cache *)

Section tasks.
Context {C : Type} `{SharedTable C}.
Abbreviation cache := (CachedCloseNodes C).

(** [DashMap]: an entry lives in the shard of its key; a traversal ([len],
    [retain], [clear]) locks the shards one after the other. *)
Context (shards : nat) (shard : NodeId -> nat).

(** Where a query is.  [g] is the generation it loaded, [contacts] its answer. *)
Inductive QueryTask : Type :=
  | Start
  | Loaded (g : u64)
  | Asking (g : u64) (r : Reading)
  | Counting (again : bool) (g : u64) (contacts : list Contact) (i len : nat)
  | Retaining (g : u64) (contacts : list Contact) (i : nat)
  | Clearing (g : u64) (contacts : list Contact) (i : nat)
  | Inserting (g : u64) (contacts : list Contact)
  | Answered (contacts : list Contact).

Definition in_shard (i : nat) (m : gmap NodeId Entry) : gmap NodeId Entry := filter (fun '(k, _) => shard k = i) m.
Definition clear_shard (i : nat) (s : cache) : cache :=
  set_entries (filter (fun '(k, _) => shard k <> i) (entries s)) s.
Definition retain_shard (now : Instant) (g : u64) (i : nat) (s : cache) : cache :=
  set_entries (filter (fun '(k, e) => shard k <> i \/ is_fresh now s e g) (entries s)) s.

(** The next step of [CachedCloseNodes::close_nodes]. *)
Definition query_step (now : Instant) (t : NodeId) (q : QueryTask) (s : cache) : QueryTask * cache :=
  match q with
  | Start => (Loaded (generation s), s)
  | Loaded g =>
      match entries s !! t with
      | Some e => (if is_fresh now s e g then Answered (e_contacts e) else Asking g (begin_query t), s)
      | None => (Asking g (begin_query t), s)
      end
  | Asking g r =>
      (match read_step r (inner s) with inl r => Asking g r | inr contacts => Counting false g contacts 0 0 end, s)
  | Counting again g contacts i len =>
      (if i <? shards then Counting again g contacts (i + 1) (len + size (in_shard i (entries s)))
       else if len <? capacity s then Inserting g contacts
       else if again then Clearing g contacts 0 else Retaining g contacts 0, s)
  | Retaining g contacts i =>
      if i <? shards then (Retaining g contacts (i + 1), retain_shard now g i s)
      else (Counting true g contacts 0 0, s)
  | Clearing g contacts i =>
      if i <? shards then (Clearing g contacts (i + 1), clear_shard i s)
      else (Inserting g contacts, s)
  | Inserting g contacts => (Answered contacts, set_entries (<[t := MkEntry contacts g now]> (entries s)) s)
  | Answered contacts => (Answered contacts, s)
  end.
(** A query of [t]; what is left of a write, and whether it then bumps the
    generation; [clear], from shard [i] on.  [loaded] and [began] are for the
    statements only: how often the generation had been bumped when the query
    loaded it, and when it began to ask the wrapped table. *)
Inductive CacheTask : Type :=
  | Query (t : NodeId) (q : QueryTask) (loaded began : N)
  | Write (parts : list (C -> C)) (bumps : bool)
  | ClearAll (i : nat).

Definition add_task (c : Contact) (s : cache) : CacheTask := Write (add_parts c) (invalidate_on_write s).
Definition remove_task (c : Contact) : CacheTask := Write (remove_parts c) true.
Definition query_task (t : NodeId) : CacheTask := Query t Start 0 0.

(** The cache and, for the statements, the number of bumps so far and what
    queries of the wrapped table answered: the target, the number of bumps when
    the query began, the answer. *)
Record Shared : Type := MkShared { sh_cache : cache; sh_bumps : N; sh_asked : list (NodeId * N * list Contact) }.

Definition shared (s : cache) : Shared := MkShared s 0 [].

Definition task_step (now : Instant) (task : CacheTask) (w : Shared) : CacheTask * Shared :=
  let s := sh_cache w in
  match task with
  | Query t q loaded began =>
      let r := query_step now t q s in
      (Query t r.1 (match q with Start => sh_bumps w | _ => loaded end)
         (match q with Loaded _ => sh_bumps w | _ => began end),
       MkShared r.2 (sh_bumps w)
         (match q, r.1 with
          | Asking _ _, Counting _ _ contacts _ _ => (t, began, contacts) :: sh_asked w
          | _, _ => sh_asked w
          end))
  | Write (f :: parts) bumps => (Write parts bumps, MkShared (set_inner (f (inner s)) s) (sh_bumps w) (sh_asked w))
  | Write [] true => (Write [] false, MkShared (bump s) (sh_bumps w + 1) (sh_asked w))
  | Write [] false => (Write [] false, w)
  | ClearAll i =>
      if i <? shards then (ClearAll (i + 1), MkShared (clear_shard i s) (sh_bumps w) (sh_asked w))
      else (ClearAll i, w)
  end.

(** Calls arrive, and tasks take their steps, in any order and at any time. *)
Inductive shared_step : list CacheTask * Shared -> list CacheTask * Shared -> Prop :=
  | step_query ts w t : shared_step (ts, w) (ts ++ [query_task t], w)
  | step_add ts w c : shared_step (ts, w) (ts ++ [add_task c (sh_cache w)], w)
  | step_remove ts w c : shared_step (ts, w) (ts ++ [remove_task c], w)
  | step_clear ts w : shared_step (ts, w) (ts ++ [ClearAll 0], w)
  | step_run ts w i task now : ts !! i = Some task ->
      shared_step (ts, w) (<[i := (task_step now task w).1]> ts, (task_step now task w).2).

(** *** Undisturbed tasks *)

Fixpoint run_alone (now : Instant) (n : nat) (task : CacheTask) (w : Shared) : CacheTask * Shared :=
  match n with
  | O => (task, w)
  | S n => let r := task_step now task w in run_alone now n r.1 r.2
  end.

Lemma run_alone_add now n m task w :
  run_alone now (n + m) task w = run_alone now m (run_alone now n task w).1 (run_alone now n task w).2.
Proof. revert task w. induction n as [|n IH]; intros task w; [done|]. exact (IH _ _). Qed.

Lemma write_alone now parts bumps w :
  run_alone now (length parts) (Write parts bumps) w =
  (Write [] bumps, MkShared (set_inner (apply_parts (inner (sh_cache w)) parts) (sh_cache w)) (sh_bumps w) (sh_asked w)).
Proof.
  revert w. induction parts as [|f parts IH]; intros w; cbn [length run_alone].
  - by destruct w as [[] ? ?].
  - cbn [task_step fst snd]. by rewrite IH.
Qed.

(** What the interleaved query and the operation of Cache have in common: the
    answer and the state it leaves. *)
Definition does (now : Instant) (t : NodeId) (q : QueryTask) (s : cache) (l : list Contact) (s' : cache) : Prop :=
  forall loaded began b asked, exists n loaded' began' asked',
    run_alone now n (Query t q loaded began) (MkShared s b asked) =
    (Query t (Answered l) loaded' began', MkShared s' b asked').

Lemma does_step now t q s l s' :
  does now t (query_step now t q s).1 (query_step now t q s).2 l s' -> does now t q s l s'.
Proof.
  intros Hd loaded began b asked.
  destruct (Hd (match q with Start => b | _ => loaded end) (match q with Loaded _ => b | _ => began end) b
    (match q, (query_step now t q s).1 with
     | Asking _ _, Counting _ _ contacts _ _ => (t, began, contacts) :: asked | _, _ => asked end))
    as (n & lo & be & as' & Hn).
  exists (S n), lo, be, as'. exact Hn.
Qed.

Lemma does_reads now t g n : forall r s out l s',
  read_run n r (inner s) = Some out -> does now t (Counting false g out 0 0) s l s' -> does now t (Asking g r) s l s'.
Proof.
  induction n as [|n IH]; intros r s out l s' Hr Hd; [done|]. cbn [read_run] in Hr.
  apply does_step. cbn [query_step fst snd]. destruct (read_step r (inner s)) as [r'|out'].
  - by eapply IH.
  - by injection Hr as ->.
Qed.

Definition below (i : nat) (m : gmap NodeId Entry) : gmap NodeId Entry := filter (fun '(k, _) => shard k < i) m.

Lemma below_S i m : size (below (S i) m) = size (below i m) + size (in_shard i m).
Proof.
  assert (below (S i) m = below i m ∪ in_shard i m) as ->.
  { apply map_eq. intros k. apply option_eq. intros e. unfold below, in_shard.
    rewrite lookup_union_Some_raw, !map_lookup_filter_Some, map_lookup_filter_None.
    destruct (m !! k) as [e'|]; [|naive_solver]. split.
    - intros [[= ->] Hk]. destruct (decide (shard k < i)); [by left|right]. split; [|split; [done|lia]].
      right. intros x [= <-]. lia.
    - intros [[? ?]|[_ [? ?]]]; (split; [done|lia]). }
  apply map_size_disj_union. apply map_disjoint_spec. unfold below, in_shard.
  intros k e1 e2 [_ ?]%map_lookup_filter_Some [_ ?]%map_lookup_filter_Some. lia.
Qed.

Lemma below_0 m : below 0 m = ∅.
Proof. apply map_empty. intros k. apply map_lookup_filter_None. right. intros e _. lia. Qed.

(** Undisturbed writes are the operations of Cache. *)
Lemma remove_alone `{!SharedTableLaws C} now c w :
  exists n, run_alone now n (remove_task c) w =
    (Write [] false, MkShared (cached_remove_contact c (sh_cache w)) (sh_bumps w + 1) (sh_asked w)).
Proof.
  exists (length (remove_parts c) + 1). rewrite run_alone_add. unfold remove_task. rewrite write_alone.
  cbn [run_alone task_step fst snd sh_cache sh_bumps sh_asked]. by rewrite remove_alone_parts.
Qed.

Lemma add_alone `{!SharedTableLaws C} now c w :
  let s := sh_cache w in
  exists n, run_alone now n (add_task c s) w =
    (Write [] false, MkShared (cached_maybe_add_contact c s)
       (if invalidate_on_write s then sh_bumps w + 1 else sh_bumps w)%N (sh_asked w)).
Proof.
  exists (length (add_parts c) + 1). rewrite run_alone_add. unfold add_task. rewrite write_alone.
  unfold cached_maybe_add_contact. cbn [invalidate_on_write set_inner].
  by destruct (invalidate_on_write (sh_cache w)); cbn [run_alone task_step fst snd sh_cache sh_bumps sh_asked];
    rewrite add_alone_parts.
Qed.

(** *** What every step keeps *)

Lemma query_step_frame now t q (s : cache) :
  let s' := (query_step now t q s).2 in
  inner s' = inner s /\ generation s' = generation s /\ capacity s' = capacity s /\ ttl s' = ttl s.
Proof.
  destruct q; cbn [query_step]; try done; [by destruct (entries s !! t)|by destruct (_ <? _)..].
Qed.

Lemma query_step_entries now t q (s : cache) u e :
  entries (query_step now t q s).2 !! u = Some e ->
  entries s !! u = Some e \/ exists g l, q = Inserting g l /\ u = t /\ e = MkEntry l g now.
Proof.
  destruct q as [|g|g r|again g l i len|g l i|g l i|g l|l]; cbn [query_step snd]; try (intros ?; by left).
  - destruct (entries s !! t); intros ?; by left.
  - destruct (_ <? _); [|intros ?; by left]. cbn [snd retain_shard set_entries entries].
    intros [? _]%map_lookup_filter_Some. by left.
  - destruct (_ <? _); [|intros ?; by left]. cbn [snd clear_shard set_entries entries].
    intros [? _]%map_lookup_filter_Some. by left.
  - cbn [set_entries entries]. intros [[<- <-]|[_ ?]]%lookup_insert_Some; [right; by exists g, l|by left].
Qed.

(** *** Answers are current *)

(** [l] is what a query of the wrapped table for [t] answered that began after
    the generation had been bumped [n] times. *)
Definition asked_since (w : Shared) (t : NodeId) (n : N) (l : list Contact) : Prop :=
  exists n', (n <= n')%N /\ (t, n', l) ∈ sh_asked w.

Definition query_current (w : Shared) (t : NodeId) (q : QueryTask) (loaded began : N) : Prop :=
  match q with
  | Start => True
  | Loaded g => uval g = loaded /\ (loaded <= sh_bumps w)%N
  | Asking g _ => uval g = loaded /\ (loaded <= began)%N
  | Counting _ g l _ _ | Retaining g l _ | Clearing g l _ | Inserting g l =>
      uval g = loaded /\ asked_since w t loaded l
  | Answered l => asked_since w t loaded l
  end.

Record current (ts : list CacheTask) (w : Shared) : Prop := {
  cu_generation : uval (generation (sh_cache w)) = sh_bumps w;
  cu_entries t e : entries (sh_cache w) !! t = Some e -> asked_since w t (uval (e_generation e)) (e_contacts e);
  cu_tasks i t q loaded began : ts !! i = Some (Query t q loaded began) -> query_current w t q loaded began
}.

Lemma asked_since_mono w w' t n l : sh_asked w ⊆ sh_asked w' -> asked_since w t n l -> asked_since w' t n l.
Proof. intros Hs (n' & Hn & Hin). exists n'. split; [done|by apply Hs]. Qed.

Lemma query_current_mono w w' t q loaded began :
  (sh_bumps w <= sh_bumps w')%N -> sh_asked w ⊆ sh_asked w' ->
  query_current w t q loaded began -> query_current w' t q loaded began.
Proof.
  intros Hb Ha. pose proof (fun n l => asked_since_mono w w' t n l Ha) as Hm.
  destruct q; cbn [query_current]; intros Hq; [done|destruct Hq; split; [done|lia]|done|..];
    first [by apply Hm|destruct Hq; split; [done|by apply Hm]].
Qed.

Lemma task_step_mono now task w :
  let w' := (task_step now task w).2 in (sh_bumps w <= sh_bumps w')%N /\ sh_asked w ⊆ sh_asked w'.
Proof.
  destruct task as [t q loaded began|[|f parts] [|]|i]; cbn [task_step snd sh_bumps sh_asked]; try (split; [lia|done]).
  - split; [lia|]. destruct q; try done. destruct (query_step _ _ _ _).1; set_solver.
  - by destruct (_ <? _).
Qed.

Lemma query_step_current now t q loaded began w :
  (forall e, entries (sh_cache w) !! t = Some e -> asked_since w t (uval (e_generation e)) (e_contacts e)) ->
  uval (generation (sh_cache w)) = sh_bumps w -> query_current w t q loaded began ->
  match (task_step now (Query t q loaded began) w).1 with
  | Query u q' loaded' began' => query_current (task_step now (Query t q loaded began) w).2 u q' loaded' began'
  | _ => True
  end.
Proof.
  intros He Hg Hq. destruct (task_step_mono now (Query t q loaded began) w) as [Hb Ha].
  destruct q as [|g|g r|again g l i len|g l i|g l i|g l|l]; cbn [task_step fst snd query_step] in *;
    cbn [query_current sh_bumps] in *.
  - split; [done|lia].
  - destruct Hq as [<- Hle]. destruct (entries (sh_cache w) !! t) as [e|] eqn:E; [|by split].
    destruct (is_fresh now (sh_cache w) e g) eqn:Hf; cbn [fst query_current]; [|by split].
    unfold is_fresh in Hf. brefl. subst g. by apply (asked_since_mono w), He.
  - destruct Hq as [<- Hle]. destruct (read_step r (inner (sh_cache w))) as [r'|l]; cbn [fst query_current]; [by split|].
    split; [done|]. exists began. split; [done|by left].
  - destruct Hq as [<- Hl]. pose proof (asked_since_mono w _ t _ l Ha Hl).
    by repeat case_match.
  - destruct Hq as [<- Hl]. by destruct (i <? shards).
  - destruct Hq as [<- Hl]. by destruct (i <? shards).
  - by destruct Hq as [<- Hl].
  - done.
Qed.

Lemma task_step_generation now task w :
  uval (generation (sh_cache w)) = sh_bumps w -> (sh_bumps (task_step now task w).2 < 2 ^ 64)%N ->
  uval (generation (sh_cache (task_step now task w).2)) = sh_bumps (task_step now task w).2.
Proof.
  intros Hg. destruct task as [t q loaded began|[|f parts] [|]|i]; cbn [task_step snd sh_cache sh_bumps]; try done.
  - destruct (query_step_frame now t q (sh_cache w)) as (_ & -> & _). done.
  - intros Hlt. cbn [bump generation]. unfold fetch_add_1. rewrite uval_wrap, Hg. by apply N.mod_small.
  - by destruct (_ <? _).
Qed.

Lemma task_step_entries now task w t e :
  (forall u q loaded began, task = Query u q loaded began -> query_current w u q loaded began) ->
  (forall t e, entries (sh_cache w) !! t = Some e -> asked_since w t (uval (e_generation e)) (e_contacts e)) ->
  entries (sh_cache (task_step now task w).2) !! t = Some e ->
  asked_since (task_step now task w).2 t (uval (e_generation e)) (e_contacts e).
Proof.
  intros Hq He Hin. destruct (task_step_mono now task w) as [_ Ha]. apply (asked_since_mono w); [exact Ha|].
  destruct task as [u q loaded began|[|f parts] [|]|i]; cbn [task_step snd sh_cache] in Hin.
  - apply query_step_entries in Hin as [Hin|(g & l & -> & -> & ->)]; [by apply He|].
    destruct (Hq u _ loaded began eq_refl) as [<- Hl]. exact Hl.
  - by apply He.
  - by apply He.
  - by apply He.
  - by apply He.
  - destruct (i <? shards); [|by apply He]. cbn in Hin. apply map_lookup_filter_Some in Hin as [? _]. by apply He.
Qed.

Lemma shared_step_current a b :
  shared_step a b -> (sh_bumps b.2 < 2 ^ 64)%N -> current a.1 a.2 -> current b.1 b.2.
Proof.
  intros Hs Hlt [Hg He Ht].
  assert (forall ts w task, (forall t q lo be, task = Query t q lo be -> query_current w t q lo be) ->
    (forall i t q lo be, ts !! i = Some (Query t q lo be) -> query_current w t q lo be) ->
    forall i t q lo be, (ts ++ [task]) !! i = Some (Query t q lo be) -> query_current w t q lo be) as Hnew.
  { intros ts w task Htask Hts i t q lo be [Hi|[_ Hi]]%lookup_app_Some; [by eapply Hts|].
    apply list_lookup_singleton_Some in Hi as [_ Hi]. by eapply Htask. }
  destruct Hs as [ts w t|ts w c|ts w c|ts w|ts w i task now Hi]; cbn [fst snd] in *.
  - split; [done|done|]. apply Hnew; [by intros u q lo be [= <- <- <- <-]|done].
  - split; [done|done|]. apply Hnew; [done|done].
  - split; [done|done|]. apply Hnew; [done|done].
  - split; [done|done|]. apply Hnew; [done|done].
  - destruct (task_step_mono now task w) as [Hb Ha]. split.
    + by apply task_step_generation.
    + intros t e. apply task_step_entries; [|done]. intros u q lo be ->. by eapply Ht.
    + intros j u q lo be [(_ & Heq & _)|[_ Hj]]%list_lookup_insert_Some.
      * destruct task as [t' q' lo' be'|parts bumps|k].
        -- pose proof (query_step_current now t' q' lo' be' w ltac:(by intros e; apply He) Hg ltac:(by eapply Ht)) as Hq.
           by rewrite Heq in Hq.
        -- by destruct parts, bumps.
        -- cbn [task_step] in Heq. by destruct (k <? shards).
      * apply (query_current_mono w); [exact Hb|exact Ha|by eapply Ht].
Qed.

Lemma shared_steps_current (s : cache) a b :
  rtc shared_step a b -> (sh_bumps b.2 < 2 ^ 64)%N -> current a.1 a.2 -> current b.1 b.2.
Proof.
  induction 1 as [a|a a1 b Hs Hrest IH]; intros Hlt Ha; [done|]. apply IH; [done|].
  apply (shared_step_current a); [done| |done].
  enough (sh_bumps a1.2 <= sh_bumps b.2)%N by lia. clear -Hrest.
  induction Hrest as [a1|a1 a2 b Hs _ IH]; [done|]. etransitivity; [|exact IH].
  destruct Hs as [| | | |ts w i task now _]; try done. apply task_step_mono.
Qed.

Lemma built_current s : built s -> current [] (shared s).
Proof. intros [He Hg]. split; [done| |done]. intros t e. cbn. by rewrite He, lookup_empty. Qed.

(** *** Answers are allowed *)

Definition allowed (t : NodeId) (l : list Contact) : Prop := length l <= K /\ StronglySorted (near_le t) l.

Definition query_allowed `{!SharedTableLaws C} (t : NodeId) (q : QueryTask) : Prop :=
  match q with
  | Start | Loaded _ => True
  | Asking _ r => reading_for t r
  | Counting _ _ l _ _ | Retaining _ l _ | Clearing _ l _ | Inserting _ l | Answered l => allowed t l
  end.

Definition all_allowed `{!SharedTableLaws C} (a : list CacheTask * Shared) : Prop :=
  (forall t e, entries (sh_cache a.2) !! t = Some e -> allowed t (e_contacts e)) /\
  (forall i t q lo be, a.1 !! i = Some (Query t q lo be) -> query_allowed t q).

Lemma query_step_allowed `{!SharedTableLaws C} now t q (s : cache) :
  (forall e, entries s !! t = Some e -> allowed t (e_contacts e)) -> query_allowed t q ->
  query_allowed t (query_step now t q s).1.
Proof.
  intros He Hq. destruct q as [|g|g r|again g l i len|g l i|g l i|g l|l]; cbn [query_step fst query_allowed] in *; try done.
  - destruct (entries s !! t) as [e|] eqn:E; [|apply reading_begin].
    destruct (is_fresh now s e g); cbn; [by apply He|apply reading_begin].
  - pose proof (reading_step t r (inner s) Hq) as Hr. by destruct (read_step r (inner s)).
  - by repeat case_match.
  - by destruct (i <? shards).
  - by destruct (i <? shards).
Qed.

Lemma shared_step_allowed `{!SharedTableLaws C} a b : shared_step a b -> all_allowed a -> all_allowed b.
Proof.
  intros Hs [He Ht].
  assert (forall ts task, (forall t q lo be, task = Query t q lo be -> query_allowed t q) ->
    (forall i t q lo be, ts !! i = Some (Query t q lo be) -> query_allowed t q) ->
    forall i t q lo be, (ts ++ [task]) !! i = Some (Query t q lo be) -> query_allowed t q) as Hnew.
  { intros ts task Htask Hts i t q lo be [Hi|[_ Hi]]%lookup_app_Some; [by eapply Hts|].
    apply list_lookup_singleton_Some in Hi as [_ Hi]. by eapply Htask. }
  destruct Hs as [ts w t|ts w c|ts w c|ts w|ts w i task now Hi]; cbn [fst snd] in *.
  1-4: split; [done|]; cbn [fst]; apply Hnew; [by intros u q lo be [= <- <- <- <-]|done].
  split; cbn [fst snd].
  - intros t e. destruct task as [u q lo be|[|f parts] [|]|j]; cbn [task_step snd sh_cache]; try by apply He.
    + intros [Hin|(g & l & -> & -> & ->)]%query_step_entries; [by apply He|]. exact (Ht i u _ lo be Hi).
    + destruct (j <? shards); [|by apply He]. cbn. intros [? _]%map_lookup_filter_Some. by apply He.
  - intros j u q lo be [(_ & Heq & _)|[_ Hj]]%list_lookup_insert_Some; [|by eapply Ht].
    destruct task as [t' q' lo' be'|parts bumps|k]; [|by destruct parts, bumps|cbn [task_step] in Heq; by destruct (k <? shards)].
    injection Heq as <- <- _ _. apply query_step_allowed; [by intros e; apply He|by eapply Ht].
Qed.
(** *** A query that nobody disturbs *)

Lemma shared_steps_allowed `{!SharedTableLaws C} a b : rtc shared_step a b -> all_allowed a -> all_allowed b.
Proof. induction 1; eauto using shared_step_allowed. Qed.

Context (shard_lt : forall k, shard k < shards).

Lemma below_all m : below shards m = m.
Proof using shard_lt. apply map_filter_id. intros k e _. apply shard_lt. Qed.

Lemma counts now t again g out s l s' :
  does now t (Counting again g out shards (size (entries s))) s l s' -> does now t (Counting again g out 0 0) s l s'.
Proof using shard_lt.
  intros Hd. assert (forall j, j <= shards ->
    does now t (Counting again g out (shards - j) (size (below (shards - j) (entries s)))) s l s') as Hall.
  { intros j. induction j as [|j IH]; intros Hj; [by rewrite Nat.sub_0_r, below_all|].
    apply does_step. cbn [query_step]. destruct (Nat.ltb_spec (shards - S j) shards); [|lia]. cbn [fst snd].
    rewrite <- below_S. replace (S (shards - S j)) with (shards - j) by lia.
    replace (shards - S j + 1) with (shards - j) by lia. apply IH. lia. }
  specialize (Hall shards ltac:(lia)). by rewrite Nat.sub_diag, below_0, map_size_empty in Hall.
Qed.

Lemma retains now t g out s l s' :
  does now t (Counting true g out 0 0)
    (set_entries (filter (fun '(_, e) => is_fresh now s e g) (entries s)) s) l s' ->
  does now t (Retaining g out 0) s l s'.
Proof using shard_lt.
  intros Hd. set (kept i := set_entries (filter (fun '(k, e) => i <= shard k \/ is_fresh now s e g) (entries s)) s).
  assert (forall j, j <= shards -> does now t (Retaining g out (shards - j)) (kept (shards - j)) l s') as Hall.
  { intros j. induction j as [|j IH]; intros Hj.
    - rewrite Nat.sub_0_r. apply does_step. cbn [query_step]. rewrite Nat.ltb_irrefl. cbn [fst snd].
      assert (kept shards = set_entries (filter (fun '(_, e) => is_fresh now s e g) (entries s)) s) as ->; [|exact Hd].
      unfold kept. f_equal. apply map_filter_ext. intros k e _. pose proof (shard_lt k).
      split; [intros [?|?]; [lia|done]|by right].
    - apply does_step. cbn [query_step]. destruct (Nat.ltb_spec (shards - S j) shards); [|lia]. cbn [fst snd].
      replace (shards - S j + 1) with (shards - j) by lia.
      assert (retain_shard now g (shards - S j) (kept (shards - S j)) = kept (shards - j)) as ->; [|apply IH; lia].
      unfold retain_shard, kept, is_fresh, set_entries. cbn [inner entries generation ttl capacity invalidate_on_write]. f_equal.
      rewrite map_filter_filter. apply map_filter_ext. intros k e _. cbn.
      destruct (decide (is_fresh now s e g)) as [Hf|Hf]; unfold is_fresh in Hf; [tauto|].
      assert (forall P : Prop, P \/ (bool_decide (e_generation e = g) && (elapsed now (e_stored e) <? ttl s)%N) <-> P) as Hor
        by tauto.
      rewrite !Hor. lia. }
  specialize (Hall shards ltac:(lia)). rewrite Nat.sub_diag in Hall. unfold kept in Hall.
  rewrite map_filter_id in Hall by (intros k e _; left; lia). by destruct s.
Qed.

Lemma clears now t g out s l s' :
  does now t (Inserting g out) (clear s) l s' -> does now t (Clearing g out 0) s l s'.
Proof using shard_lt.
  intros Hd. set (kept i := set_entries (filter (fun '(k, _) => i <= shard k) (entries s)) s).
  assert (forall j, j <= shards -> does now t (Clearing g out (shards - j)) (kept (shards - j)) l s') as Hall.
  { intros j. induction j as [|j IH]; intros Hj.
    - rewrite Nat.sub_0_r. apply does_step. cbn [query_step]. rewrite Nat.ltb_irrefl. cbn [fst snd].
      assert (kept shards = clear s) as ->; [|done]. unfold kept, clear. f_equal.
      apply map_empty. intros k. apply map_lookup_filter_None. right. intros e _. pose proof (shard_lt k). lia.
    - apply does_step. cbn [query_step]. destruct (Nat.ltb_spec (shards - S j) shards); [|lia]. cbn [fst snd].
      replace (shards - S j + 1) with (shards - j) by lia.
      assert (clear_shard (shards - S j) (kept (shards - S j)) = kept (shards - j)) as ->; [|apply IH; lia].
      unfold clear_shard, kept, set_entries. cbn [inner entries generation ttl capacity invalidate_on_write]. f_equal.
      rewrite map_filter_filter. apply map_filter_ext. intros k e _. cbn. lia. }
  specialize (Hall shards ltac:(lia)). rewrite Nat.sub_diag in Hall. unfold kept in Hall.
  rewrite map_filter_id in Hall by (intros k e _; lia). by destruct s.
Qed.

(** Counting, sweeping and inserting, undisturbed, are [make_room] and the
    insertion. *)
Lemma make_room_alone now t g out s :
  does now t (Counting false g out 0 0) s out
    (set_entries (<[t := MkEntry out g now]> (entries (make_room now g s))) (make_room now g s)).
Proof using shard_lt.
  assert (forall s1, does now t (Inserting g out) s1 out (set_entries (<[t := MkEntry out g now]> (entries s1)) s1)) as Hins.
  { intros s1. apply does_step. cbn [query_step fst snd]. intros lo be b asked. by exists 0, lo, be, asked. }
  apply counts, does_step. cbn [query_step]. rewrite Nat.ltb_irrefl. unfold make_room.
  destruct (size (entries s) <? capacity s) eqn:Hlt; cbn [fst snd]; [apply Hins|].
  apply retains. set (s1 := set_entries _ s). apply counts, does_step. cbn [query_step]. rewrite Nat.ltb_irrefl.
  destruct (Nat.ltb_spec (size (entries s1)) (capacity s1)), (Nat.leb_spec (capacity s1) (size (entries s1))); try lia;
    cbn [fst snd]; [apply Hins|apply clears, Hins].
Qed.

(** A query that nobody disturbs is the operation of Cache. *)
Lemma query_alone `{!PureQuery C} `{!SharedTableLaws C} now t (s : cache) :
  does now t Start s (cached_close_nodes now t s).1 (cached_close_nodes now t s).2.
Proof using shard_lt.
  apply does_step, does_step. cbn [query_step fst snd]. unfold cached_close_nodes.
  assert (does now t (Asking (generation s) (begin_query t)) s (close_nodes now t (inner s)).1
    (set_entries (<[t := MkEntry (close_nodes now t (inner s)).1 (generation s) now]>
      (entries (make_room now (generation s) s))) (make_room now (generation s) s))) as Hmiss.
  { destruct (read_alone now t (inner s)) as [n Hn]. eapply does_reads; [exact Hn|apply make_room_alone]. }
  pose proof (pure_state now t (inner s)) as Hp. destruct (close_nodes now t (inner s)) as [l x]. cbn [fst snd] in *. subst x.
  replace (set_inner (inner s) s) with s by by destruct s.
  destruct (entries s !! t) as [e|]; [destruct (is_fresh now s e (generation s)); [|exact Hmiss]|exact Hmiss].
  intros lo be b asked. by exists 0, lo, be, asked.
Qed.


(** *** The capacity *)

Definition unfinished (task : CacheTask) : Prop :=
  match task with Query _ (Answered _) _ _ => False | Query _ _ _ _ => True | _ => False end.

(** No two queries overlap: at most one is between its first and its last step. *)
Definition one_query (ts : list CacheTask) : Prop :=
  forall i j a b, ts !! i = Some a -> ts !! j = Some b -> unfinished a -> unfinished b -> i = j.

Definition lone_step (a b : list CacheTask * Shared) : Prop := one_query a.1 /\ shared_step a b.

Definition stage_ok (s : cache) (task : CacheTask) : Prop :=
  match task with
  | Query _ (Counting _ _ _ i len) _ _ => size (below i (entries s)) <= len
  | Query _ (Clearing _ _ i) _ _ => below i (entries s) = ∅
  | Query _ (Inserting _ _) _ _ => size (entries s) < capacity s
  | _ => True
  end.

Definition within (a : list CacheTask * Shared) : Prop :=
  size (entries (sh_cache a.2)) <= capacity (sh_cache a.2) /\
  forall i task, a.1 !! i = Some task -> stage_ok (sh_cache a.2) task.

Lemma below_mono i m m' : m' ⊆ m -> below i m' ⊆ below i m.
Proof. apply map_filter_subseteq_mono. Qed.

Lemma stage_ok_mono s s' task :
  entries s' ⊆ entries s -> capacity s' = capacity s -> stage_ok s task -> stage_ok s' task.
Proof.
  intros Hs Hc. destruct task as [t q lo be|parts bumps|i]; [|done..]. destruct q; cbn [stage_ok]; try done.
  - pose proof (map_subseteq_size _ _ (below_mono i _ _ Hs)). lia.
  - intros He. apply map_size_empty_inv. pose proof (map_subseteq_size _ _ (below_mono i _ _ Hs)) as Hsz.
    rewrite He, map_size_empty in Hsz. lia.
  - pose proof (map_subseteq_size _ _ Hs). rewrite Hc. lia.
Qed.

Lemma below_from i m : shards <= i -> below i m = m.
Proof using shard_lt. intros Hi. apply map_filter_id. intros k e _. pose proof (shard_lt k). lia. Qed.

(** A step that does not insert only takes entries away. *)
Lemma query_step_shrinks now t q (s : cache) :
  (forall g l, q <> Inserting g l) -> entries (query_step now t q s).2 ⊆ entries s.
Proof.
  intros Hq. destruct q as [|g|g r|again g l i len|g l i|g l i|g l|l]; cbn [query_step snd]; try done.
  - by destruct (entries s !! t).
  - destruct (_ <? _); [|done]. apply map_filter_subseteq.
  - destruct (_ <? _); [|done]. apply map_filter_subseteq.
  - by destruct (Hq g l).
Qed.

Lemma query_step_stage now t q lo be (s : cache) :
  0 < capacity s -> stage_ok s (Query t q lo be) ->
  stage_ok (query_step now t q s).2 (Query t (query_step now t q s).1 lo be).
Proof using shard_lt.
  intros Hcap Hq. destruct q as [|g|g r|again g l i len|g l i|g l i|g l|l]; cbn [query_step fst snd stage_ok] in *; try done.
  - destruct (entries s !! t) as [e|]; [by destruct (is_fresh now s e g)|done].
  - destruct (read_step r (inner s)); [done|]. by rewrite below_0, map_size_empty.
  - destruct (Nat.ltb_spec i shards) as [Hi|Hi]; cbn [stage_ok].
    + replace (i + 1) with (S i) by lia. rewrite below_S. lia.
    + rewrite below_from in Hq by done. destruct (Nat.ltb_spec len (capacity s)) as [Hlen|Hlen]; cbn [stage_ok]; [lia|].
      destruct again; [apply below_0|done].
  - destruct (i <? shards); cbn [fst snd stage_ok]; [done|]. by rewrite below_0, map_size_empty.
  - destruct (Nat.ltb_spec i shards) as [Hi|Hi]; cbn [fst snd stage_ok].
    + apply map_empty. intros k. apply map_lookup_filter_None. right. intros e He Hk.
      cbn in He. apply map_lookup_filter_Some in He as [He Hne].
      assert (below i (entries s) !! k = Some e) as Hbad; [|by rewrite Hq, lookup_empty in Hbad].
      apply map_lookup_filter_Some. split; [done|]. lia.
    + rewrite below_from in Hq by done. by rewrite Hq, map_size_empty.
Qed.

Lemma lone_step_within a b :
  lone_step a b -> 0 < capacity (sh_cache a.2) -> within a ->
  within b /\ capacity (sh_cache b.2) = capacity (sh_cache a.2).
Proof using shard_lt.
  intros [Hone Hs] Hcap [Hsz Hst].
  assert (forall ts s task, stage_ok s task -> (forall i x, ts !! i = Some x -> stage_ok s x) ->
    forall i x, (ts ++ [task]) !! i = Some x -> stage_ok s x) as Hnew.
  { intros ts s task Htask Hts i x [Hi|[_ Hi]]%lookup_app_Some; [by eapply Hts|].
    apply list_lookup_singleton_Some in Hi as [_ <-]. done. }
  destruct Hs as [ts w t|ts w c|ts w c|ts w|ts w i task now Hi]; cbn [fst snd] in *.
  1-4: split; [split; [done|]|done]; by apply Hnew.
  destruct w as [s0 b0 as0]. cbn [sh_cache] in *.
  assert (forall s', entries s' ⊆ entries s0 -> capacity s' = capacity s0 ->
    size (entries s') <= capacity s' /\ forall j x, ts !! j = Some x -> stage_ok s' x) as Hless.
  { intros s' Hsub Hc. split; [pose proof (map_subseteq_size _ _ Hsub); lia|].
    intros j x Hj. apply (stage_ok_mono s0); [done|done|by eapply Hst]. }
  assert (forall s' task', (size (entries s') <= capacity s' /\ forall j x, j <> i -> ts !! j = Some x -> stage_ok s' x) ->
    stage_ok s' task' -> capacity s' = capacity s0 ->
    forall b asked, within (<[i := task']> ts, MkShared s' b asked) /\ capacity s' = capacity s0) as Hput.
  { intros s' task' [Hs' Hrest] Htask Hc b asked. split; [|done]. split; [done|].
    intros j x [(-> & <- & _)|[Hj Hx]]%list_lookup_insert_Some; [done|]. by eapply Hrest. }
  destruct task as [t q lo be|[|f parts] [|]|k]; cbn [task_step fst snd].
  2-5: apply Hput; [destruct (Hless s0) as [? Hl]; [done|done|]; split; [done|intros j x _; apply Hl]|done|done].
  - destruct (query_step_frame now t q s0) as (_ & _ & Hc & _).
    apply Hput; [|exact (query_step_stage now t q lo be s0 Hcap (Hst i _ Hi))|done].
    assert ((exists g l, q = Inserting g l) \/ forall g l, q <> Inserting g l) as [(g & l & ->)|Hq]
      by (destruct q; [by right..|left; eauto|by right]).
    + specialize (Hst i _ Hi) as Hlt. cbn [stage_ok] in Hlt. split.
      * change (size (<[t := MkEntry l g now]> (entries s0)) <= capacity s0). rewrite map_size_insert. destruct (entries s0 !! t); unfold Datatypes.id; lia.
      * intros j x Hj Hx. specialize (Hone i j _ _ Hi Hx I). destruct x as [u q lo' be'|parts bumps|k]; [|done..].
        destruct q; try done; by destruct Hj; symmetry; apply Hone.
    + destruct (Hless (query_step now t q s0).2) as [? Hl]; [|done|by split; [|intros j x _; apply Hl]].
      by apply query_step_shrinks.
  - destruct (k <? shards); apply Hput; try done.
    + destruct (Hless (clear_shard k s0)) as [? Hl]; [apply map_filter_subseteq|done|by split; [|intros j x _; apply Hl]].
    + destruct (Hless s0) as [? Hl]; [done|done|]; split; [done|intros j x _; apply Hl].
Qed.

(** As long as no two queries overlap, the cache keeps its capacity, whatever
    writes happen meanwhile. *)
Lemma lone_capacity (s : cache) b :
  entries s = ∅ -> 0 < capacity s -> rtc lone_step ([], shared s) b ->
  size (entries (sh_cache b.2)) <= capacity s /\ capacity (sh_cache b.2) = capacity s.
Proof using shard_lt.
  intros He Hcap Hrun.
  assert (within ([], shared s)) as Hw by (split; [cbn; rewrite He, map_size_empty; lia|done]).
  change (capacity s) with (capacity (sh_cache ([] : list CacheTask, shared s).2)) in *. revert Hcap Hw. clear He.
  induction Hrun as [a|a a1 b Hs _ IH]; intros Hcap Hw; [split; [apply Hw|done]|].
  destruct (lone_step_within a a1 Hs Hcap Hw) as [Hw1 Hc1]. rewrite <- Hc1. apply IH; [by rewrite Hc1|done].
Qed.
End tasks.
