(* ===== verification/Progress.v ===== *)
(** * Progress: why a query brings a lookup nearer

    What the tables of [src/close_nodes/] do for a network: a node whose bucket
    for every other node's prefix is not empty, and whose sibling list holds its
    true neighbours, answers a query with somebody strictly nearer to the target
    unless it is itself the nearest.  The buckets give progress while somebody
    shares a longer prefix with the target ([home_progress]); once nobody does,
    the buckets alone may fail and the siblings are what is needed
    ([sibling_progress]).  Learning a contact and caching answers keep it so. *)

From S2P Require Import Prelude Slices Machine Contacts DumbBucket StaticBucket SiblingList Cache.

Lemma K_two : 2 <= K.
Proof. unfold K. lia. Qed.

#[local] Opaque K.

(** ** Nearer ids *)

(** [a] is strictly nearer to [t] than [b]. *)
Definition nearer (t a b : NodeId) : Prop := xor_distance_cmp a b t = Lt.

(** The leading bits two ids share. *)
Definition shared (a b : NodeId) : nat := leading_zeros (xor_distance a b).

#[export] Instance nearer_dec t a b : Decision (nearer t a b).
Proof. unfold nearer. solve_decision. Defined.

Lemma nearer_val t a b :
  nearer t a b <-> (id_val (xor_distance a t) < id_val (xor_distance b t))%N.
Proof. unfold nearer. by rewrite xor_distance_cmp_val, !id_val_xor. Qed.

Lemma near_le_val t a b :
  near_le t a b <-> (id_val (xor_distance (id a) t) <= id_val (xor_distance (id b) t))%N.
Proof. unfold cle, by_distance. by rewrite xor_distance_cmp_val, !id_val_xor. Qed.

#[export] Instance nearer_trans t : Transitive (nearer t).
Proof. intros a b c. rewrite !nearer_val. lia. Qed.

Lemma nearer_irrefl t a : ~ nearer t a a.
Proof. rewrite nearer_val. lia. Qed.

(** Ids at different distances, and only those, are different ids. *)
Lemma nearer_total t a b : a = b \/ nearer t a b \/ nearer t b a.
Proof.
  rewrite !nearer_val. destruct (N.lt_trichotomy (id_val (xor_distance a t)) (id_val (xor_distance b t)))
    as [?|[Heq|?]]; [by right; left| |by right; right].
  left. apply (xor_distance_cmp_eq a b t). by rewrite xor_distance_cmp_val, <- !id_val_xor, Heq, N.compare_refl.
Qed.

Lemma shared_spec n a b : n <= 256 -> n <= shared a b <-> shares_prefix n a b.
Proof. apply shared_prefix. Qed.

Lemma shared_le a b : shared a b <= 256.
Proof. apply leading_zeros_le. Qed.

Lemma shared_sym a b : shared a b = shared b a.
Proof.
  unfold shared. f_equal. apply id_val_inj. by rewrite !id_val_xor, N.lxor_comm.
Qed.

(** The nearer of two ids shares at least as many bits. *)
Lemma nearer_shared t a b : nearer t a b -> shared b t <= shared a t.
Proof.
  rewrite nearer_val. intros Hn. pose proof (shared_le b t). unfold shared in *.
  pose proof (proj1 (leading_zeros_ge (xor_distance b t) _ ltac:(done)) (le_n _)).
  apply leading_zeros_ge; lia.
Qed.

Lemma shared_nearer t a b : shared b t < shared a t -> nearer t a b.
Proof.
  intros Hlt. pose proof (shared_le a t). rewrite nearer_val. unfold shared in *.
  pose proof (proj1 (leading_zeros_ge (xor_distance a t) _ ltac:(done)) (le_n _)).
  assert (~ leading_zeros (xor_distance a t) <= leading_zeros (xor_distance b t)) as Hb by lia.
  rewrite leading_zeros_ge in Hb by done. lia.
Qed.

Lemma shared_self a : shared a a = 256.
Proof. pose proof (shared_le a a). assert (256 <= shared a a) by by apply shared_spec. lia. Qed.

Lemma shared_lt a b : a <> b -> shared a b < 256.
Proof.
  intros Hne. pose proof (shared_le a b). destruct (decide (shared a b = 256)) as [E|]; [|lia].
  exfalso. apply Hne, id_val_inj. assert (shares_prefix 256 a b) as Hs by (apply shared_spec; lia).
  unfold shares_prefix in Hs. by rewrite !N.shiftr_0_r in Hs.
Qed.

(** Leaving [c] at the same bit, two ids agree up to and on that bit. *)
Lemma shared_branch a b c : shared a c = shared b c -> a <> c -> shared a c < shared b a.
Proof.
  intros Heq Hne. pose proof (shared_lt a c Hne). rewrite (shared_sym b a).
  apply shared_spec; [lia|]. apply shares_prefix_branch with c; [done|..];
    rewrite <- shared_spec by lia; lia.
Qed.

(** Sharing more with [t] than [p] does is sharing with [p] what [t] does. *)
Lemma shared_ultra t p j : shared p t < shared j t -> shared j p = shared p t.
Proof.
  intros Hlt. pose proof (shared_le j t). pose proof (shared_le j p).
  assert (forall n, n <= shared j t -> n <= shared j p <-> n <= shared p t) as Hn.
  { intros n Hn. assert (shares_prefix n j t) as Hj by (apply shared_spec; lia).
    rewrite !shared_spec by lia. split; intros Hp; [etrans; [symmetry; exact Hp|done]|].
    etrans; [exact Hj|by symmetry]. }
  pose proof (proj2 (Hn (shared p t) ltac:(lia)) (le_n _)).
  destruct (decide (S (shared p t) <= shared j p)) as [Hs|]; [|lia].
  apply (Hn (S (shared p t)) ltac:(lia)) in Hs. lia.
Qed.

(** ** Keeping somebody nearer *)

Section population.
(** The other nodes of the network, and one more id that takes part: the node
    that is looking. *)
Context (nodes : gset NodeId) (guest : NodeId).

Definition everyone : gset NodeId := {[guest]} ∪ nodes.

Lemma elem_of_everyone i : i ∈ everyone <-> i = guest \/ i ∈ nodes.
Proof. unfold everyone. set_solver. Qed.

(** [l] names somebody of the network nearer to [t] than [p]. *)
Definition improves (t p : NodeId) (l : list Contact) : Prop :=
  exists c, c ∈ l /\ id c ∈ nodes /\ nearer t (id c) p.

(** Of two contacts one is not the guest. *)
Lemma two_ids l : NoDup (id <$> l) -> 2 <= length l -> exists y, y ∈ l /\ id y <> guest.
Proof.
  intros Hnd H2. destruct l as [|a [|b l]]; simpl in H2; [lia|lia|].
  apply NoDup_cons in Hnd as [Ha _].
  destruct (decide (id a = guest)) as [Hga|]; [|exists a; set_solver].
  exists b. split; [set_solver|]. intros Hgb. apply Ha. rewrite Hga, <- Hgb. by left.
Qed.

(** An answer that leaves a contact out only for [K] others at most as far
    still improves, since at most one of them is the guest. *)
Lemma improves_selection t p known out :
  (forall c, c ∈ out -> id c ∈ everyone) -> NoDup (id <$> out) ->
  (forall x, x ∈ known -> (exists y, y ∈ out /\ id y = id x) \/
     (length out = K /\ forall y, y ∈ out -> near_le t y x)) ->
  improves t p known -> improves t p out.
Proof.
  intros Hall Hnd Hsel (x & Hx & Hn & Hp).
  destruct (Hsel x Hx) as [(y & Hy & Hid)|[Hlen Hbest]].
  { exists y. rewrite Hid. done. }
  destruct (two_ids out Hnd) as (y & Hy & Hg); [rewrite Hlen; apply K_two|].
  exists y. split_and!; [done| |].
  - specialize (Hall y Hy). apply elem_of_everyone in Hall. naive_solver.
  - specialize (Hbest y Hy). rewrite near_le_val in Hbest. rewrite nearer_val in *. lia.
Qed.

Lemma k_nearest_selection t known out :
  k_nearest K t known out ->
  forall x, x ∈ known -> (exists y, y ∈ out /\ id y = id x) \/
    (length out = K /\ forall y, y ∈ out -> near_le t y x).
Proof.
  intros [_ Hlen (rest & Hp & Hle)] x Hx. rewrite Hp in Hx.
  apply elem_of_app in Hx as [Hx|Hx]; [left; eauto|right]. split; [|auto].
  assert (0 < length rest) by (destruct rest; [set_solver|simpl; lia]).
  rewrite Hp, length_app in Hlen. lia.
Qed.

Lemma closest_to_selection t l x :
  x ∈ l -> (exists y, y ∈ closest_to t K l /\ id y = id x) \/
    (length (closest_to t K l) = K /\ forall y, y ∈ closest_to t K l -> near_le t y x).
Proof.
  unfold closest_to.
  intros [(y & Hy & Heq)|[Hl Hfull]]%(closest_optimal (by_distance t) same_id (same_id_spec t) K).
  - left. exists y. split; [done|]. by apply xor_distance_cmp_eq in Heq.
  - right. split; [done|]. intros y Hy. by apply clt_cle, Hfull.
Qed.

Lemma sorted_ids t l : StronglySorted (near_lt t) l -> NoDup (id <$> l).
Proof.
  induction 1 as [|x l Hl IH Hx]; [constructor|]. rewrite fmap_cons. constructor; [|done].
  intros (y & Hid & Hy)%list_elem_of_fmap. rewrite Forall_forall in Hx. by apply Hx, near_lt_ids in Hy.
Qed.

Lemma closest_to_NoDup t k l : NoDup (id <$> closest_to t k l).
Proof. apply (sorted_ids t), closest_sorted; [apply _|apply same_id_spec]. Qed.
End population.

Lemma offer_keeps_id n c l x : x ∈ l -> exists y, y ∈ offer n c l /\ id y = id x.
Proof.
  intros Hx. unfold offer. destruct (refresh_address c l) as [l'|] eqn:E.
  - apply refresh_address_Some in E as (Hids & _ & _).
    assert (id x ∈ (id <$> l')) as (y & ? & ?)%list_elem_of_fmap by (rewrite Hids; apply list_elem_of_fmap; eauto).
    eauto.
  - exists x. split; [|done]. unfold push_bounded. destruct (_ <? _); set_solver.
Qed.

Lemma offer_length n c l : length l <= length (offer n c l).
Proof.
  unfold offer. destruct (refresh_address c l) as [l'|] eqn:E.
  - apply refresh_address_Some in E as (Hids & _ & _). apply (f_equal length) in Hids.
    rewrite !length_fmap in Hids. lia.
  - unfold push_bounded. destruct (_ <? _); rewrite ?length_app; lia.
Qed.

Lemma offer_covers n c l :
  length l <= n -> (exists y, y ∈ offer n c l /\ id y = id c) \/ length (offer n c l) = n.
Proof.
  intros Hl. unfold offer. destruct (refresh_address c l) as [l'|] eqn:E.
  - apply refresh_address_Some in E as (_ & Hc & _). eauto.
  - unfold push_bounded. destruct (Nat.ltb_spec (length l) n); [left; exists c; set_solver|right; lia].
Qed.

(** The answer of the buckets is a selection of a range that holds the home bucket. *)
Lemma bucket_answer now t (fb : StaticBucket K 0 ROUTING_BUCKETS) :
  sb_inv fb -> exists known, k_nearest K t known (close_nodes now t fb).1 /\
    known ⊆ contacts_iter fb /\ NoDup (id <$> known) /\ bucket fb (bucket_index fb t) ⊆ known.
Proof.
  intros Hb. destruct (static_close_nodes_range now t fb Hb) as (low & high & Hr & Hh & Hk & _).
  destruct (range_split fb low high Hb ltac:(lia)) as (pre & post & Heq & _).
  exists (range fb low high). split_and!; [done|rewrite Heq; set_solver|..].
  - pose proof (sb_iter_ids _ Hb) as Hnd. rewrite Heq, !fmap_app in Hnd.
    by apply NoDup_app in Hnd as (_ & _ & (Hnd & _ & _)%NoDup_app).
  - intros c Hc. unfold range. apply list_elem_of_join. eexists. split; [exact Hc|].
    apply list_elem_of_fmap. eexists. split; [done|]. apply elem_of_seq. lia.
Qed.

Lemma bucket_out now t (fb : StaticBucket K 0 ROUTING_BUCKETS) :
  sb_inv fb -> (close_nodes now t fb).1 ⊆ contacts_iter fb.
Proof.
  intros Hb. destruct (bucket_answer now t fb Hb) as (known & [_ _ (rest & Hp & _)] & Hsub & _).
  intros x Hx. apply Hsub. rewrite Hp. set_solver.
Qed.

(** ** A node that knows its part of the network *)

Section informed.
(** Who is there, who is looking, and where everyone is reached. *)
Context (nodes : gset NodeId) (guest : NodeId) (home_of : NodeId -> SocketAddr).

(** A contact of the network, with its true address. *)
Definition belongs (c : Contact) : Prop :=
  id c ∈ everyone nodes guest /\ address c = home_of (id c).

Abbreviation siblings_over_buckets := (SiblingList (StaticBucket K 0 ROUTING_BUCKETS) SIBLINGS).
Implicit Type s : siblings_over_buckets.

(** A well-formed table of contacts of the network in which no bucket that some
    node belongs to is without one, and the sibling list holds the nearest. *)
Record informed s : Prop := {
  if_inv : sl_inv s;
  if_me : sb_my_id (sl_fallback s) = sl_my_id s;
  if_known c : c ∈ contacts_iter s -> belongs c;
  if_buckets j : j ∈ nodes -> j <> sl_my_id s ->
    exists c, c ∈ bucket (sl_fallback s) (bucket_index (sl_fallback s) j) /\ id c ∈ nodes;
  if_siblings j : j ∈ everyone nodes guest -> j <> sl_my_id s ->
    (exists c, c ∈ sl_siblings s /\ id c = j) \/
    (length (sl_siblings s) = SIBLINGS /\ forall c, c ∈ sl_siblings s -> nearer (sl_my_id s) (id c) j)
}.

(** The ids of [everyone] that share at least [m] bits with [t]. *)
Definition sharing (t : NodeId) (m : nat) : gset NodeId :=
  filter (fun i => m <= shared i t) (everyone nodes guest).

(** Around [t] there are not more nodes than a sibling list and its owner. *)
Definition uncrowded (t : NodeId) : Prop :=
  forall p, p ∈ nodes -> (forall j, j ∈ nodes -> shared j t <= shared p t) ->
    size (sharing t (shared p t)) <= S SIBLINGS.

(** The bucket of an id is the number of bits it shares with us. *)
Lemma bucket_shared s i :
  informed s -> i <> sl_my_id s -> bucket_index (sl_fallback s) i = shared i (sl_my_id s).
Proof.
  intros Hs Hne. unfold bucket_index. rewrite (if_me s Hs). fold (shared i (sl_my_id s)).
  change (Nat.shiftr ?x 0) with x. change (ROUTING_BUCKETS - 1) with 255.
  pose proof (shared_lt _ _ Hne). lia.
Qed.

(** Somebody shares more bits with the target than we do: the home bucket knows
    such a node. *)
Lemma home_progress t s j :
  informed s -> j ∈ nodes -> shared (sl_my_id s) t < shared j t ->
  exists c, c ∈ bucket (sl_fallback s) (bucket_index (sl_fallback s) t) /\
    id c ∈ nodes /\ nearer t (id c) (sl_my_id s).
Proof.
  intros Hs Hj Hlt. assert (j <> sl_my_id s) as Hne by (intros ->; lia).
  assert (t <> sl_my_id s) as Htp.
  { intros ->. rewrite shared_self in Hlt. pose proof (shared_le j (sl_my_id s)). lia. }
  destruct (if_buckets s Hs j Hj Hne) as (c & Hc & Hn).
  assert (id c <> sl_my_id s) as Hcp.
  { rewrite <- (if_me s Hs). apply (sb_not_me _ (sl_fallback_inv s (if_inv s Hs)) _ _ Hc). }
  pose proof (sb_home _ (sl_fallback_inv s (if_inv s Hs)) _ _ Hc) as Hb.
  rewrite !bucket_shared, (shared_ultra _ _ _ Hlt) in * by done.
  rewrite (shared_sym t). exists c. split_and!; [done|done|].
  apply shared_nearer. rewrite (shared_sym _ t). apply shared_branch; [|done].
  by rewrite (shared_sym t).
Qed.

Lemma bucket_improves now t s j :
  informed s -> j ∈ nodes -> shared (sl_my_id s) t < shared j t ->
  improves nodes t (sl_my_id s) (close_nodes now t (sl_fallback s)).1.
Proof.
  intros Hs Hj Hlt. destruct (home_progress t s j Hs Hj Hlt) as (c & Hc & Hn & Hp).
  destruct (bucket_answer now t _ (sl_fallback_inv s (if_inv s Hs))) as (known & Hk & Hsub & Hnd & Hhome).
  apply (improves_selection nodes guest) with known.
  - intros x Hx%(bucket_out now t _ (sl_fallback_inv s (if_inv s Hs))). eapply proj1, (if_known s Hs). rewrite sibling_iter. set_solver.
  - destruct (kn_split _ _ _ _ Hk) as (rest & Hperm & _).
    rewrite Hperm, fmap_app in Hnd. by apply NoDup_app in Hnd as (? & _).
  - by apply k_nearest_selection.
  - exists c. split_and!; [by apply Hhome|done|done].
Qed.

(** Nobody shares more bits: with few enough nodes around, the siblings know
    every one that is nearer. *)
Lemma sibling_progress t s j :
  informed s -> uncrowded t -> sl_my_id s ∈ nodes -> j ∈ nodes -> nearer t j (sl_my_id s) ->
  (forall i, i ∈ nodes -> shared i t <= shared (sl_my_id s) t) ->
  exists c, c ∈ sl_siblings s /\ id c = j.
Proof.
  intros Hs Hu Hp Hj Hn Hmax. set (p := sl_my_id s) in *.
  assert (j <> p) as Hne by (intros ->; by apply nearer_irrefl in Hn).
  assert (j ∈ everyone nodes guest) as Hje by (apply elem_of_everyone; by right).
  destruct (if_siblings s Hs j Hje Hne) as [?|[Hlen Hfar]]; [done|exfalso]. fold p in Hfar.
  assert (shared j t = shared p t) as Heq
    by (pose proof (nearer_shared _ _ _ Hn); pose proof (Hmax j Hj); lia).
  assert (p <> t) as Hpt.
  { intros E. apply nearer_shared in Hn. rewrite E, shared_self in Hn.
    apply Hne. destruct (decide (j = t)) as [|Hjt%shared_lt]; [congruence|lia]. }
  assert (list_to_set (id <$> sl_siblings s) ∪ {[j; p]} ⊆ sharing t (shared p t)) as Hsub.
  { intros i. unfold sharing. rewrite elem_of_filter, elem_of_everyone, elem_of_union, elem_of_list_to_set.
    intros [(c & -> & Hc)%list_elem_of_fmap|Hi].
    - split; [|eapply elem_of_everyone, proj1, (if_known s Hs); rewrite sibling_iter; set_solver].
      specialize (Hfar c Hc). apply nearer_shared in Hfar.
      pose proof (shared_branch p j t ltac:(done) Hpt) as Hbr.
      rewrite (shared_sym p t) in *. rewrite (shared_ultra p t (id c)); lia.
    - apply elem_of_union in Hi as [->%elem_of_singleton| ->%elem_of_singleton]; (split; [lia|by right]). }
  apply subseteq_size in Hsub. specialize (Hu p Hp Hmax).
  rewrite size_union, size_list_to_set, length_fmap, Hlen, size_union, !size_singleton in Hsub.
  - lia.
  - set_solver.
  - apply (sorted_ids p), (sl_sorted s (if_inv s Hs)).
  - intros i (c & -> & Hc)%elem_of_list_to_set%list_elem_of_fmap.
    intros [E%elem_of_singleton|E%elem_of_singleton]%elem_of_union.
    + specialize (Hfar c Hc). rewrite E in Hfar. by apply nearer_irrefl in Hfar.
    + by apply (sl_not_me s (if_inv s Hs)) in Hc.
Qed.

(** What an answer to a lookup for [t] has to be. *)
Definition helpful (t p : NodeId) (l : list Contact) : Prop :=
  (forall c, c ∈ l -> belongs c) /\
  ((forall j, j ∈ nodes -> ~ nearer t j p) \/ improves nodes t p l).

Lemma informed_helpful now t s :
  informed s -> uncrowded t -> sl_my_id s ∈ nodes ->
  helpful t (sl_my_id s) (close_nodes now t s).1.
Proof.
  intros Hs Hu Hp. cbn [close_nodes SiblingList_CloseNodes]. rewrite sibling_query_eq.
  set (out := (close_nodes now t (sl_fallback s)).1).
  assert (forall c, c ∈ out ++ sl_siblings s -> belongs c) as Hall.
  { intros c Hc. apply (if_known s Hs). rewrite sibling_iter.
    apply elem_of_app in Hc as [Hc|Hc]; [|set_solver]. apply elem_of_app. right.
    by apply (bucket_out now t _ (sl_fallback_inv s (if_inv s Hs))). }
  split; [intros c Hc; apply Hall; by eapply closest_elem_of in Hc; [|apply _|apply same_id_spec]|].
  destruct (decide (set_Exists (fun j => nearer t j (sl_my_id s)) nodes)) as [(j & Hj & Hn)|Hnone]; [right|left].
  2: { intros j Hj Hn. apply Hnone. by exists j. }
  apply (improves_selection nodes guest) with (out ++ sl_siblings s).
  - intros c Hc. eapply proj1, Hall. by eapply closest_elem_of in Hc; [|apply _|apply same_id_spec].
  - apply closest_to_NoDup.
  - apply closest_to_selection.
  - destruct (decide (set_Exists (fun j => shared (sl_my_id s) t < shared j t) nodes)) as [(i & Hi & Hlt)|Hnone].
    + destruct (bucket_improves now t s i Hs Hi Hlt) as (c & Hc & ?). exists c. set_solver.
    + destruct (sibling_progress t s j Hs Hu Hp Hj Hn) as (c & Hc & Hid).
      { intros i Hi. destruct (decide (shared (sl_my_id s) t < shared i t)) as [Hlt|]; [|lia].
        exfalso. apply Hnone. by exists i. }
      exists c. rewrite Hid. set_solver.
Qed.

(** An informed sibling list takes in nobody new: only addresses change. *)
Lemma known_sibling c s :
  informed s -> id c ∈ everyone nodes guest -> id c <> sl_my_id s ->
  (id <$> offer_sibling SIBLINGS (sl_my_id s) c (sl_siblings s)) = (id <$> sl_siblings s).
Proof.
  intros Hs Hc Hne. unfold offer_sibling. destruct (refresh_address c (sl_siblings s)) as [l|] eqn:E.
  { by apply refresh_address_Some in E as (-> & _). }
  apply refresh_address_None in E.
  destruct (if_siblings s Hs (id c) Hc Hne) as [(x & Hx & Hid)|[Hfull Hnear]].
  { destruct E. apply list_elem_of_fmap. eauto. }
  rewrite Hfull, Nat.eqb_refl. rewrite partition_point_all, Hfull, Nat.eqb_refl; [done|].
  intros x Hx. apply bool_decide_eq_true, Hnear, Hx.
Qed.

(** Learning a contact of the network leaves a node informed. *)
Lemma informed_add c s :
  informed s -> belongs c -> informed (maybe_add_contact c s).
Proof.
  intros Hs Hc. cbn [maybe_add_contact SiblingList_CloseNodes].
  pose proof (sibling_add_inv c s (if_inv s Hs)) as Hinv.
  unfold sibling_maybe_add_contact in *. case_bool_decide as Hme; [done|].
  split; [done|..].
  - cbn. unfold static_maybe_add_contact. case_bool_decide; apply (if_me s Hs).
  - intros x. rewrite sibling_iter. cbn [sl_siblings sl_fallback].
    intros [[->|Hx]%offer_sibling_elem_of'|[->|Hx]%cn_add_iter]%elem_of_app; try done;
      apply (if_known s Hs); rewrite sibling_iter; set_solver.
  - intros j Hj Hne. destruct (if_buckets s Hs j Hj Hne) as (x & Hx & Hn).
    cbn [sl_fallback maybe_add_contact StaticBucket_CloseNodes]. unfold static_maybe_add_contact.
    case_bool_decide as Hcm; [by exists x|].
    set (fb := sl_fallback s) in *. set (i := bucket_index fb (id c)).
    change (bucket_index (MkStatic _ _) j) with (bucket_index fb j). rewrite bucket_insert.
    destruct (decide _) as [[Hi _]|_]; [|by exists x].
    destruct (offer_keeps_id K c (bucket fb i) x) as (y & Hy & Hid); [by rewrite Hi|].
    exists y. by rewrite Hid.
  - intros j Hj Hne. cbn [sl_siblings sl_my_id] in *.
    pose proof (known_sibling c s Hs (proj1 Hc) Hme) as Hids.
    pose proof (f_equal length Hids) as Hl. rewrite !length_fmap in Hl. rewrite Hl.
    destruct (if_siblings s Hs j Hj Hne) as [(x & Hx & <-)|[Hf Hnear]]; [left|right].
    + assert (id x ∈ (id <$> sl_siblings s)) as Hin by (apply list_elem_of_fmap; eauto).
      rewrite <- Hids in Hin. apply list_elem_of_fmap in Hin as (y & ? & ?). eauto.
    + split; [done|]. intros x Hx. assert (id x ∈ (id <$> sl_siblings s)) as (y & -> & Hy)%list_elem_of_fmap.
      { rewrite <- Hids. apply list_elem_of_fmap. eauto. }
      by apply Hnear.
Qed.
(** ** Becoming informed *)

(** A new table that contacts were offered to. *)
Definition offered (p : NodeId) (offers : list Contact) : siblings_over_buckets :=
  foldl (fun s c => maybe_add_contact c s) (sibling_new p (static_new p)) offers.

Lemma offered_snoc p offers c : offered p (offers ++ [c]) = maybe_add_contact c (offered p offers).
Proof. unfold offered. by rewrite foldl_app. Qed.

Lemma offered_inv p offers : sl_inv (offered p offers).
Proof.
  induction offers as [|c offers IH] using rev_ind; [|rewrite offered_snoc; by apply sibling_add_inv].
  apply sibling_new_inv, static_new_inv, (Nat.lt_0_succ 255).
Qed.

Lemma offered_me p offers :
  sl_my_id (offered p offers) = p /\ sb_my_id (sl_fallback (offered p offers)) = p.
Proof.
  induction offers as [|c offers [IH1 IH2]] using rev_ind; [done|]. rewrite offered_snoc. cbn.
  unfold sibling_maybe_add_contact. case_bool_decide; cbn; [done|].
  unfold static_maybe_add_contact. by case_bool_decide.
Qed.

Lemma offered_known p offers x : x ∈ contacts_iter (offered p offers) -> x ∈ offers.
Proof.
  induction offers as [|c offers IH] using rev_ind.
  - unfold offered. cbn [foldl]. rewrite sibling_iter. cbn [sl_siblings sl_fallback sibling_new].
    rewrite elem_of_app, elem_of_buckets. intros [?|[i Hi]]; [set_solver|]. rewrite bucket_new in Hi. set_solver.
  - rewrite offered_snoc. intros [->|Hx]%cn_add_iter; set_solver.
Qed.

(** The bucket of an id that was offered holds it, or is full. *)
Lemma offered_bucket p offers x :
  x ∈ offers -> id x <> p ->
  let fb := sl_fallback (offered p offers) in
  let b := bucket fb (bucket_index fb (id x)) in
  (exists y, y ∈ b /\ id y = id x) \/ length b = K.
Proof.
  intros Hx Hne. induction offers as [|c offers IH] using rev_ind; [set_solver|].
  destruct (offered_me p offers) as [Hme Hfb]. pose proof (offered_inv p offers) as Hinv.
  rewrite offered_snoc. cbn [maybe_add_contact SiblingList_CloseNodes]. unfold sibling_maybe_add_contact.
  rewrite Hme. case_bool_decide as Hc.
  { apply IH. apply elem_of_app in Hx as [?| ->%list_elem_of_singleton]; done. }
  cbn [sl_fallback maybe_add_contact StaticBucket_CloseNodes]. unfold static_maybe_add_contact. rewrite Hfb.
  rewrite bool_decide_false by done. cbv zeta in IH |- *.
  set (fb := sl_fallback (offered p offers)) in *. set (i := bucket_index fb (id c)).
  pose proof (sl_fallback_inv _ Hinv) as Hsb. fold fb in Hsb.
  replace (MkStatic _ p) with (MkStatic (<[i:=offer K c (bucket fb i)]> (sb_contacts fb)) (sb_my_id fb)
    : StaticBucket K 0 ROUTING_BUCKETS) by by rewrite Hfb.
  change (bucket_index (MkStatic _ _) (id x)) with (bucket_index fb (id x)). rewrite bucket_insert.
  assert (i < length (sb_contacts fb)) as Hi
    by (rewrite (sb_len _ Hsb); apply bucket_index_lt, (sb_max _ Hsb)).
  destruct (decide _) as [[E _]|Hn].
  - rewrite <- E in IH. apply elem_of_app in Hx as [Hx| ->%list_elem_of_singleton].
    + destruct (IH Hx) as [(y & Hy & <-)|Hfull]; [left|right].
      * destruct (offer_keeps_id K c (bucket fb i) y Hy) as (z & ? & ?). eauto.
      * pose proof (offer_length K c (bucket fb i)).
        pose proof (offer_bounded K c (bucket fb i) (sb_bounded _ Hsb i)). lia.
    + apply offer_covers, (sb_bounded _ Hsb).
  - apply elem_of_app in Hx as [Hx| ->%list_elem_of_singleton]; [by apply IH|]. by destruct Hn.
Qed.

(** The siblings of a table are the nearest of what it was offered. *)
Lemma offered_siblings p offers x :
  x ∈ offers -> id x <> p ->
  let l := sl_siblings (offered p offers) in
  (exists y, y ∈ l /\ id y = id x) \/ (length l = SIBLINGS /\ forall y, y ∈ l -> nearer p (id y) (id x)).
Proof.
  intros Hx Hne.
  destruct (offers_spec (sibling_new p (static_new p) : siblings_over_buckets) offers) as (_ & _ & Heq).
  { apply (offered_inv p []). }
  cbn [sl_my_id sibling_new sl_siblings] in Heq. cbv zeta.
  change (sl_siblings (offered p offers)) with
    (sl_siblings (foldl (fun s c => sibling_maybe_add_contact c s)
       (sibling_new p (static_new p) : siblings_over_buckets) offers)).
  rewrite Heq. set (l := foldl (upsert p) [] (others p offers)).
  assert (x ∈ others p offers) as Ho by by apply list_elem_of_filter.
  assert (exists y, y ∈ l /\ id y = id x) as (y & Hy & Hid).
  { destruct (latest_offers (others p offers) !! id x) as [a|] eqn:E.
    - exists (MkContact (id x) a). split; [|done]. by apply foldl_upsert_latest.
    - exfalso. revert Ho E. generalize (others p offers). clear. intros l.
      induction l as [|c l IH] using rev_ind; [set_solver|]. unfold latest_offers. rewrite foldl_app. cbn.
      intros [Hx| ->%list_elem_of_singleton]%elem_of_app [Hl Hn]%lookup_insert_None; [by apply IH|done]. }
  pose proof (foldl_upsert_sorted p (others p offers)) as Hs. fold l in Hs.
  rewrite <- (take_drop SIBLINGS l) in Hy, Hs. apply elem_of_app in Hy as [Hy|Hy]; [left; eauto|right]. split.
  - rewrite length_take_le; [done|]. apply list_elem_of_lookup in Hy as [i Hi].
    rewrite lookup_drop in Hi. apply lookup_lt_Some in Hi. lia.
  - intros z Hz. rewrite <- Hid. exact (StronglySorted_app_1_elem_of _ _ _ z y Hs Hz Hy).
Qed.

(** A node that was told once of everyone, in any order, is informed. *)
Lemma informed_offered p offers :
  (forall c, c ∈ offers -> belongs c) ->
  (forall j, j ∈ everyone nodes guest -> j <> p -> exists c, c ∈ offers /\ id c = j) ->
  informed (offered p offers).
Proof.
  intros Hb Hall. destruct (offered_me p offers) as [Hme Hfb].
  pose proof (offered_inv p offers) as Hinv. split; rewrite ?Hme.
  - done.
  - done.
  - intros c Hc. by apply Hb, (offered_known p).
  - intros j Hj Hne. destruct (Hall j) as (x & Hx & <-); [apply elem_of_everyone; by right|done|].
    destruct (offered_bucket p offers x Hx Hne) as [(y & Hy & Hid)|Hfull].
    { exists y. by rewrite Hid. }
    set (fb := sl_fallback (offered p offers)) in *. set (i := bucket_index fb (id x)) in *.
    assert (exists y, y ∈ bucket fb i /\ id y <> guest) as (y & Hy & Hg).
    { apply two_ids; [apply (sb_ids _ (sl_fallback_inv _ Hinv))|]. rewrite Hfull. apply K_two. }
    exists y. split; [done|].
    assert (belongs y) as [[?|?]%elem_of_everyone _]; [|done|done].
    apply Hb, (offered_known p). rewrite sibling_iter. apply elem_of_app. right.
    apply elem_of_buckets. by exists i.
  - intros j Hj Hne. destruct (Hall j Hj Hne) as (x & Hx & <-).
    by apply (offered_siblings p).
Qed.

(** ** Behind the cache *)

(** The deployed table: what it has cached for [t] is helpful too. *)
Record informed_for (t p : NodeId) (a : RecommendedCloseNodes) : Prop := {
  ff_inner : informed (inner a);
  ff_me : sl_my_id (inner a) = p;
  ff_cached e : entries a !! t = Some e -> helpful t p (e_contacts e)
}.

Lemma informed_for_query now t u p (a : RecommendedCloseNodes) :
  uncrowded t -> p ∈ nodes -> informed_for t p a ->
  informed_for t p (close_nodes now u a).2 /\ (u = t -> helpful t p (close_nodes now u a).1).
Proof.
  intros Hu Hp [Hi <- Hc].
  assert (close_nodes now u (inner a) = ((close_nodes now u (inner a)).1, inner a)) as Hq.
  { rewrite <- (pure_state now u (inner a)) at 3. apply surjective_pairing. }
  change (close_nodes now u a) with (cached_close_nodes now u a).
  unfold RecommendedCloseNodes in *.
  destruct (cached_query_cases now u a) as [(e & He & _ & ->)|(-> & Hin & _ & _ & _ & Hent)].
  - split; [by split|]. intros ->. by apply Hc.
  - rewrite Hq in Hin. cbn [snd] in Hin. split; [split; rewrite ?Hin; [done..|]|].
    + intros e [He|[<- ->]]%Hent; [by apply Hc|]. by apply informed_helpful.
    + intros ->. by apply informed_helpful.
Qed.

Lemma informed_for_add t p c (a : RecommendedCloseNodes) :
  belongs c -> informed_for t p a -> informed_for t p (maybe_add_contact c a).
Proof.
  intros Hc [Hi Hme He]. cbn [maybe_add_contact Recommended_CloseNodes CachedCloseNodes_CloseNodes].
  pose proof (informed_add c (inner a) Hi Hc) as Hadd.
  assert (sl_my_id (maybe_add_contact c (inner a)) = p) as Hid.
  { cbn. unfold sibling_maybe_add_contact. by case_bool_decide. }
  unfold cached_maybe_add_contact. by destruct (invalidate_on_write _).
Qed.
End informed.

(** The deployed table, offered contacts, is the inner one behind an empty cache. *)
Lemma recommended_offered p offers :
  let a := foldl (fun a c => maybe_add_contact c a) (recommended p) offers in
  inner a = offered p offers /\ entries a = ∅ /\ invalidate_on_write a = false.
Proof.
  induction offers as [|c offers IH] using rev_ind; [done|]. cbv zeta in *.
  rewrite foldl_app, offered_snoc. cbn [foldl]. destruct IH as (Hi & He & Hw).
  set (a := foldl _ _ offers) in *. change (maybe_add_contact c a) with (cached_maybe_add_contact c a).
  unfold cached_maybe_add_contact. cbn [invalidate_on_write set_inner].
  rewrite Hw. cbn [inner entries invalidate_on_write set_inner]. by rewrite Hi.
Qed.
