(* ===== verification/Text.v ===== *)
(** * Text: the string operations of the Rust standard library

    [str::split], [split_once], [rsplit_once], [contains], [strip_prefix],
    decimal [Display] and [FromStr] of unsigned integers.  A Rust string is
    modelled by its UTF-8 bytes, a Rocq [string]; every separator the program
    uses is ASCII, so splitting bytes is splitting characters. *)

From Stdlib Require Import Strings.Ascii.
From Stdlib Require Strings.String.
From S2P Require Import Prelude Machine.

Local Open Scope string_scope.

(** [str::as_bytes], and back. *)
Definition as_bytes (s : string) : bytes := String.list_byte_of_string s.

Lemma as_bytes_inj s s' : as_bytes s = as_bytes s' -> s = s'.
Proof.
  intros H. apply (f_equal String.string_of_list_byte) in H. unfold as_bytes in H.
  by rewrite !String.string_of_list_byte_of_string in H.
Qed.

(** ** Splitting *)

Fixpoint contains_char (c : ascii) (s : string) : bool :=
  match s with
  | "" => false
  | String a s => if ascii_dec a c then true else contains_char c s
  end.

(** [str::split(c)]. *)
Fixpoint split_on (c : ascii) (s : string) : list string :=
  match s with
  | "" => [""]
  | String a s' =>
      if ascii_dec a c then "" :: split_on c s'
      else match split_on c s' with
           | h :: t => String a h :: t
           | [] => [String a ""]
           end
  end.

(** [str::split_once(c)] and [str::rsplit_once(c)]. *)
Fixpoint split_once (c : ascii) (s : string) : option (string * string) :=
  match s with
  | "" => None
  | String a s' =>
      if ascii_dec a c then Some ("", s')
      else '(h, t) ← split_once c s'; Some (String a h, t)
  end.

Fixpoint rsplit_once (c : ascii) (s : string) : option (string * string) :=
  match s with
  | "" => None
  | String a s' =>
      match rsplit_once c s' with
      | Some (h, t) => Some (String a h, t)
      | None => if ascii_dec a c then Some ("", s') else None
      end
  end.

(** [str::strip_prefix]. *)
Fixpoint strip_prefix (p s : string) : option string :=
  match p, s with
  | "", _ => Some s
  | String a p, String b s => if ascii_dec a b then strip_prefix p s else None
  | String _ _, "" => None
  end.

Lemma contains_char_app c s s' :
  contains_char c (s +:+ s') = contains_char c s || contains_char c s'.
Proof. induction s as [|a s IH]; simpl; [done|]. by destruct (ascii_dec a c). Qed.

Lemma split_on_free c s : contains_char c s = false -> split_on c s = [s].
Proof.
  induction s as [|a s IH]; simpl; [done|]. destruct (ascii_dec a c); [done|].
  intros H. by rewrite IH.
Qed.

Lemma split_on_sep c s s' :
  contains_char c s = false -> split_on c (s +:+ String c s') = s :: split_on c s'.
Proof.
  induction s as [|a s IH]; simpl.
  - intros _. by destruct (ascii_dec c c).
  - destruct (ascii_dec a c); [done|]. intros H. by rewrite IH.
Qed.

Lemma split_once_sep c s s' :
  contains_char c s = false -> split_once c (s +:+ String c s') = Some (s, s').
Proof.
  induction s as [|a s IH]; simpl.
  - intros _. by destruct (ascii_dec c c).
  - destruct (ascii_dec a c); [done|]. intros H. by rewrite IH.
Qed.

Lemma split_once_Some c s h t :
  split_once c s = Some (h, t) -> s = h +:+ String c t /\ contains_char c h = false.
Proof.
  revert h. induction s as [|a s IH]; intros h; simpl; [done|].
  destruct (ascii_dec a c) as [->|Ha].
  - by intros [= <- <-].
  - destruct (split_once c s) as [[h' t']|]; [|done]. intros [= <- <-].
    destruct (IH h' eq_refl) as [-> ?]. split; [done|]. simpl. by destruct (ascii_dec a c).
Qed.

Lemma rsplit_once_None c s : rsplit_once c s = None <-> contains_char c s = false.
Proof.
  induction s as [|a s IH]; simpl; [done|].
  destruct (rsplit_once c s) as [[h t]|] eqn:E, (ascii_dec a c); naive_solver.
Qed.

Lemma rsplit_once_sep c s s' :
  contains_char c s' = false -> rsplit_once c (s +:+ String c s') = Some (s, s').
Proof.
  intros H. induction s as [|a s IH]; simpl.
  - rewrite (proj2 (rsplit_once_None _ _) H). by destruct (ascii_dec c c).
  - by rewrite IH.
Qed.

Lemma rsplit_once_Some c s h t :
  rsplit_once c s = Some (h, t) -> s = h +:+ String c t /\ contains_char c t = false.
Proof.
  revert h. induction s as [|a s IH]; intros h; simpl; [done|].
  destruct (rsplit_once c s) as [[h' t']|] eqn:E.
  - intros [= <- <-]. destruct (IH h' eq_refl) as [-> ?]. done.
  - destruct (ascii_dec a c) as [->|]; [|done]. intros [= <- <-]. split; [done|].
    by apply rsplit_once_None.
Qed.

Lemma strip_prefix_app p s : strip_prefix p (p +:+ s) = Some s.
Proof. induction p as [|a p IH]; simpl; [done|]. by destruct (ascii_dec a a). Qed.

(** Separated by [c], with no [c] on the left, two strings can be told apart. *)
Lemma sep_inj c s1 s2 t1 t2 :
  contains_char c s1 = false -> contains_char c s2 = false ->
  s1 +:+ String c t1 = s2 +:+ String c t2 -> s1 = s2 /\ t1 = t2.
Proof.
  intros H1 H2 H. apply (f_equal (split_once c)) in H.
  rewrite !split_once_sep in H by done. by injection H.
Qed.

Lemma string_length_app (s t : string) : String.length (s +:+ t) = String.length s + String.length t.
Proof. induction s as [|a s IH]; simpl; [done|]. by rewrite IH. Qed.

Lemma string_app_nil (s : string) : s +:+ "" = s.
Proof. induction s as [|a s IH]; [done|]. change (String a (s +:+ "") = String a s). by rewrite IH. Qed.

Lemma append_assoc (s t u : string) : (s +:+ t) +:+ u = s +:+ (t +:+ u).
Proof.
  induction s as [|a s IH]; [done|]. change (String a ((s +:+ t) +:+ u) = String a (s +:+ (t +:+ u))).
  by rewrite IH.
Qed.

Lemma app_inj_r (s1 s2 t : string) : s1 +:+ t = s2 +:+ t -> s1 = s2.
Proof.
  intros H. revert s2 H. induction s1 as [|a s1 IH]; intros [|b s2] H; simpl in *; try done.
  - exfalso. apply (f_equal String.length) in H. simpl in H. rewrite !string_length_app in H. simpl in H. lia.
  - exfalso. apply (f_equal String.length) in H. simpl in H. rewrite !string_length_app in H. simpl in H. lia.
  - injection H as -> H. f_equal. by apply IH.
Qed.

(** ** Decimal numbers *)

Definition digit_char (d : N) : ascii := ascii_of_N (48 + d).

Definition char_digit (a : ascii) : option N :=
  let n := N_of_ascii a in
  if (48 <=? n)%N && (n <=? 57)%N then Some (n - 48)%N else None.

(** [Display] of an unsigned integer; [fuel] bounds the number of digits. *)
Fixpoint decimal (fuel : nat) (n : N) : string :=
  match fuel with
  | O => ""
  | S fuel =>
      if (n <? 10)%N then String (digit_char n) ""
      else decimal fuel (n / 10) +:+ String (digit_char (n mod 10)) ""
  end.

(** Ten digits are enough for a [u32], twenty for a [u64]. *)
Definition show_u32 (n : u32) : string := decimal 10 (uval n).
Definition show_u64 (n : u64) : string := decimal 20 (uval n).

(** The digit loop of [from_str_radix]: [checked_mul(10)] then [checked_add]. *)
Fixpoint parse_digits (max : N) (acc : N) (s : string) : option N :=
  match s with
  | "" => Some acc
  | String a s =>
      d ← char_digit a;
      let acc' := (acc * 10 + d)%N in
      if (acc' <? max)%N then parse_digits max acc' s else None
  end.

(** [str::parse::<uint>()]: an optional plus sign, then at least one digit. *)
Definition parse_uint (w : N) (s : string) : option (uint w) :=
  let digits := match s with String "+" rest => rest | _ => s end in
  match digits with
  | "" => None
  | _ => wrap w <$> parse_digits (2 ^ w) 0 digits
  end.

Lemma char_digit_char d : (d < 10)%N -> char_digit (digit_char d) = Some d.
Proof.
  intros H. unfold char_digit, digit_char. rewrite N_ascii_embedding by lia.
  rewrite (proj2 (N.leb_le 48 (48 + d))), (proj2 (N.leb_le (48 + d) 57)) by lia.
  simpl. f_equal. lia.
Qed.

Lemma parse_digits_app max acc s s' :
  parse_digits max acc (s +:+ s') = acc' ← parse_digits max acc s; parse_digits max acc' s'.
Proof.
  revert acc. induction s as [|a s IH]; intros acc; simpl; [done|].
  destruct (char_digit a); simpl; [|done]. destruct (_ <? _)%N; [apply IH|done].
Qed.

Lemma parse_decimal max fuel n :
  (n < 10 ^ N.of_nat fuel)%N -> (n < max)%N -> parse_digits max 0 (decimal fuel n) = Some n.
Proof.
  revert n. induction fuel as [|fuel IH]; intros n Hn Hmax.
  { simpl in *. f_equal. lia. }
  cbn [decimal]. destruct (N.ltb_spec n 10) as [H10|H10].
  - simpl. rewrite char_digit_char by done. simpl. rewrite N.add_0_l, (proj2 (N.ltb_lt n max)) by done. done.
  - rewrite parse_digits_app, IH.
    + simpl. rewrite char_digit_char by (by apply N.mod_lt). simpl.
      replace (n / 10 * 10 + n mod 10)%N with n by (rewrite (N.div_mod' n 10) at 1; lia).
      by rewrite (proj2 (N.ltb_lt n max)).
    + rewrite Nat2N.inj_succ, N.pow_succ_r' in Hn. by apply N.Div0.div_lt_upper_bound.
    + eapply N.le_lt_trans; [|exact Hmax]. by apply N.Div0.div_le_upper_bound; lia.
Qed.

(** Digits are neither a plus sign nor a separator. *)
Lemma decimal_head fuel n :
  0 < fuel -> exists d s, decimal fuel n = String (digit_char d) s /\ (d < 10)%N.
Proof.
  revert n. induction fuel as [|fuel IH]; intros n Hf; [lia|]. cbn [decimal].
  destruct (N.ltb_spec n 10) as [H|H]; [by eauto|].
  destruct fuel as [|fuel]; [simpl; exists (n mod 10)%N, ""; split; [done|by apply N.mod_lt]|].
  destruct (IH (n / 10)%N ltac:(lia)) as (d & s & -> & Hd). simpl. eauto.
Qed.

Lemma digit_char_inj c d : (d < 10)%N -> char_digit c = None -> digit_char d <> c.
Proof. intros Hd Hc <-. by rewrite char_digit_char in Hc. Qed.

Lemma decimal_free c fuel n : char_digit c = None -> contains_char c (decimal fuel n) = false.
Proof.
  intros Hc. revert n. induction fuel as [|fuel IH]; intros n; [done|]. cbn [decimal].
  destruct (N.ltb_spec n 10) as [H|H]; [|rewrite contains_char_app, IH]; simpl;
    (destruct (ascii_dec _ c) as [E|]; [|done]; exfalso; revert E; apply digit_char_inj; [|done]);
    [done|by apply N.mod_lt].
Qed.

Lemma parse_show_u32 n : parse_uint 32 (show_u32 n) = Some n.
Proof.
  unfold parse_uint, show_u32. pose proof (uint_bound n) as Hn.
  assert (uval n < 10 ^ N.of_nat 10)%N by (etrans; [exact Hn|done]).
  pose proof (parse_decimal (2 ^ 32) 10 (uval n) ltac:(done) Hn) as Hp.
  destruct (decimal_head 10 (uval n) ltac:(lia)) as (d & s & Hd & Hlt).
  rewrite Hd in *. assert (digit_char d <> "+"%char) as Hplus by by apply digit_char_inj.
  assert (match digit_char d with "+"%char => s | _ => String (digit_char d) s end =
    String (digit_char d) s) as ->.
  { destruct (digit_char d) as [[] [] [] [] [] [] [] []]; done. }
  rewrite Hp. simpl. by rewrite wrap_uval.
Qed.
