(* ===== verification/Crates.v ===== *)
(** * Crates: the third-party code the program calls

    The sources of [sha2], [bincode], [ed25519_dalek], [hex] and [domain] are
    not part of the program; they are parameters here, one class each.  What
    the program relies on of their documented behaviour is a separate class of
    laws ([BincodeLaws], [Ed25519Laws], [HexLaws]), so that a theorem shows
    which of them it needs.  [DashMap], [heapless::Vec] and the standard
    collections are used as plain data and are modelled by stdpp's [gmap] and
    by lists. *)

From S2P Require Import Prelude Machine Text.

(** [sha2::Sha256::digest]. *)
Class Sha256 := sha256_digest : bytes -> array 32.

(** [bincode] at one type: [serialize], [deserialize], [serialized_size]. *)
Class Bincode (A : Type) := {
  serialize : A -> option bytes;
  deserialize : bytes -> option A;
  serialized_size : A -> option N
}.

(** What has been encoded decodes to the same value. *)
Class BincodeLaws (A : Type) `{Bincode A} : Prop :=
  deserialize_serialize (a : A) (bs : bytes) : serialize a = Some bs -> deserialize bs = Some a.

(** [ed25519_dalek]. *)
Class Ed25519 := {
  SigningKey : Type;
  VerifyingKey : Type;
  Signature : Type;
  VerifyingKey_eq_dec :: EqDecision VerifyingKey;
  verifying_key : SigningKey -> VerifyingKey;
  sk_from_bytes : array 32 -> SigningKey;
  sk_sign : SigningKey -> bytes -> Signature;
  sig_to_bytes : Signature -> bytes;
  sig_from_slice : bytes -> option Signature;
  vk_verify : VerifyingKey -> bytes -> Signature -> bool;
  vk_to_bytes : VerifyingKey -> array 32;
  vk_from_bytes : array 32 -> option VerifyingKey
}.

(** Encodings round-trip, and a signature verifies under the signer's key. *)
Class Ed25519Laws `{Ed25519} : Prop := {
  sig_round_trip s : sig_from_slice (sig_to_bytes s) = Some s;
  sign_verify k m : vk_verify (verifying_key k) m (sk_sign k m) = true;
  vk_round_trip v : vk_from_bytes (vk_to_bytes v) = Some v
}.

(** [hex]: lower-case encoding; decoding takes any bytes. *)
Class Hex := {
  hex_encode : bytes -> string;
  hex_decode : bytes -> option bytes
}.

Definition hex_digit (b : byte) : bool := existsb (Byte.eqb b) (as_bytes "0123456789abcdefABCDEF").

(** Encoding round-trips; only hexadecimal digits decode, two to a byte. *)
Class HexLaws `{Hex} : Prop := {
  hex_round_trip bs : hex_decode (as_bytes (hex_encode bs)) = Some bs;
  hex_decode_digits s bs b : hex_decode s = Some bs -> b ∈ s -> hex_digit b = true;
  hex_decode_length s bs : hex_decode s = Some bs -> length s = 2 * length bs
}.

(** [domain::base::Name]: parsing a textual name, and [name_eq]. *)
Class DomainName := {
  Name : Type;
  name_from_str : string -> option Name;
  name_eq : Name -> Name -> bool
}.
