(* ===== verification/Address.v ===== *)
(** * Address: the text form of socket addresses

    [Display] of [std::net::SocketAddr], whose text is what a node id hashes
    ([hashing.rs]) and what the logs and the CLI print.  IPv6 addresses follow
    the standard library: the first longest run of at least two zero segments
    is elided, IPv4-mapped addresses keep their dotted part, and a non-zero
    scope id is appended. *)

From Stdlib Require Import Strings.Ascii.
From S2P Require Import Prelude Machine Contacts Text.

Local Open Scope string_scope.

Definition show_byte (b : byte) : string := decimal 3 (Byte.to_N b).
Definition show_u16 (n : u16) : string := decimal 5 (uval n).

(** [[String]::join]. *)
Fixpoint join (sep : string) (l : list string) : string :=
  match l with
  | [] => ""
  | [s] => s
  | s :: l => s +:+ sep +:+ join sep l
  end.

Definition ipv4_to_string (octets : bytes) : string := join "." (show_byte <$> octets).

(** [{:x}]: lower-case hexadecimal without leading zeros. *)
Definition hex_char (d : N) : ascii :=
  if (d <? 10)%N then ascii_of_N (48 + d) else ascii_of_N (87 + d).

Fixpoint hexadecimal (fuel : nat) (n : N) : string :=
  match fuel with
  | O => ""
  | S fuel =>
      if (n <? 16)%N then String (hex_char n) ""
      else hexadecimal fuel (n / 16) +:+ String (hex_char (n mod 16)) ""
  end.

(** [Ipv6Addr::segments]. *)
Fixpoint segments (octets : bytes) : list N :=
  match octets with
  | a :: b :: rest => (Byte.to_N a * 256 + Byte.to_N b)%N :: segments rest
  | _ => []
  end.

(** The first longest run of zero segments: its start and length. *)
Fixpoint longest_zero_run (i : nat) (current longest : nat * nat) (l : list N) : nat * nat :=
  match l with
  | [] => longest
  | segment :: l =>
      if (segment =? 0)%N then
        let current := ((if snd current =? 0 then i else fst current), S (snd current))%nat in
        let longest := if (snd longest <? snd current)%nat then current else longest in
        longest_zero_run (S i) current longest l
      else longest_zero_run (S i) (0, 0)%nat longest l
  end.

Definition show_segments (l : list N) : string := join ":" (hexadecimal 4 <$> l).

Definition ipv6_to_string (octets : bytes) : string :=
  if bool_decide (take 12 octets = (replicate 10 x00 ++ [xff; xff])%list) then
    "::ffff:" +:+ ipv4_to_string (drop 12 octets)
  else
    let l := segments octets in
    let (start, len) := longest_zero_run 0 (0, 0)%nat (0, 0)%nat l in
    if (1 <? len)%nat
    then show_segments (take start l) +:+ "::" +:+ show_segments (drop (start + len) l)
    else show_segments l.

Definition socket_to_string (a : SocketAddr) : string :=
  match a with
  | V4 ip port => ipv4_to_string (elems ip) +:+ ":" +:+ show_u16 port
  | V6 ip port _ scope_id =>
      let scope := if (uval scope_id =? 0)%N then "" else "%" +:+ show_u32 scope_id in
      "[" +:+ ipv6_to_string (elems ip) +:+ scope +:+ "]:" +:+ show_u16 port
  end.

(** ** [{:#x}] of an integer and [{:?}] of a duration *)

Definition show_hex (n : u64) : string := "0x" +:+ hexadecimal 16 (uval n).

(** The decimals after the point, without trailing zeros. *)
Fixpoint decimals (fuel : nat) (rest divisor : N) : string :=
  match fuel with
  | O => ""
  | S fuel =>
      if (rest =? 0)%N then ""
      else String (digit_char (rest / divisor)) (decimals fuel (rest mod divisor) (divisor / 10))
  end.

Definition fmt_decimal (integer fraction divisor : N) (suffix : string) : string :=
  let frac := decimals 9 fraction divisor in
  decimal 20 integer +:+ (if String.eqb frac "" then "" else "." +:+ frac) +:+ suffix.

(** Seconds, milliseconds, microseconds or nanoseconds, whichever is largest. *)
Definition debug_duration (d : Duration) : string :=
  if (1000000000 <=? d)%N then fmt_decimal (d / 1000000000) (d mod 1000000000) 100000000 "s"
  else if (1000000 <=? d)%N then fmt_decimal (d / 1000000) (d mod 1000000) 100000 "ms"
  else if (1000 <=? d)%N then fmt_decimal (d / 1000) (d mod 1000) 100 "µs"
  else fmt_decimal d 0 1 "ns".

Example duration_text :
  (debug_duration (from_secs 2), debug_duration (from_millis 1500), debug_duration (from_millis 20))
  = ("2s", "1.5s", "20ms").
Proof. by vm_compute. Qed.

Example ipv4_text :
  socket_to_string (V4 (array_zip bxor (array_repeat 4 x7f) (array_repeat 4 x00)) (wrap 16 8000))
  = "127.127.127.127:8000".
Proof. by vm_compute. Qed.

Example ipv6_text :
  (ipv6_to_string (replicate 15 x00 ++ [x01])%list,
   ipv6_to_string ([x20; x01; x0d; xb8] ++ replicate 10 x00 ++ [x00; x01])%list,
   ipv6_to_string (replicate 10 x00 ++ [xff; xff; x7f; x00; x00; x01])%list)
  = ("::1", "2001:db8::1", "::ffff:127.0.0.1").
Proof. by vm_compute. Qed.
