(* ===== verification/AddressParse.v ===== *)
(** * AddressParse: reading socket addresses

    [FromStr] of [std::net::SocketAddr], which the command line ([src/cli.rs])
    and the program's arguments ([src/main.rs]) go through.  The standard
    library's parser reads from a position and steps back when an alternative
    fails ([read_atomically]); here a reader takes the text that is left and
    gives back a value and the rest, or nothing. *)

From Stdlib Require Import Strings.Ascii.
From S2P Require Import Prelude Machine Contacts Text Address.

Local Open Scope string_scope.

Definition Reader (A : Type) : Type := string -> option (A * string).

Definition read_given_char (c : ascii) : Reader unit := fun s =>
  match s with
  | String a s => if ascii_dec a c then Some (tt, s) else None
  | "" => None
  end.

(** A separator before every element but the first. *)
Definition read_separator {A} (sep : ascii) (index : nat) (inner : Reader A) : Reader A := fun s =>
  match index with
  | O => inner s
  | S _ => '(_, s) ← read_given_char sep s; inner s
  end.

(** [char::to_digit(radix)], for radixes ten and sixteen. *)
Definition to_digit (radix : N) (a : ascii) : option N :=
  let n := N_of_ascii a in
  let d :=
    if ((48 <=? n) && (n <=? 57))%N then Some (n - 48)%N
    else if ((97 <=? n) && (n <=? 122))%N then Some (n - 87)%N
    else if ((65 <=? n) && (n <=? 90))%N then Some (n - 55)%N
    else None in
  match d with Some d => if (d <? radix)%N then Some d else None | None => None end.

(** The digits at the front: how many, their value, and the rest.  [None] as
    soon as there are more than [max_digits], or the value is [bound] or more
    with no limit on the digits. *)
Fixpoint read_digits (radix bound : N) (max_digits : option nat) (count : nat) (result : N) (s : string)
    : option (nat * N * string) :=
  match s with
  | String a s' =>
      match to_digit radix a with
      | Some d =>
          let result := (result * radix + d)%N in
          match max_digits with
          | Some m => if (m <? S count)%nat then None else read_digits radix bound max_digits (S count) result s'
          | None => if (bound <=? result)%N then None else read_digits radix bound max_digits (S count) result s'
          end
      | None => Some (count, result, s)
      end
  | "" => Some (count, result, s)
  end.

Definition starts_with_zero (s : string) : bool :=
  match s with String "0" _ => true | _ => false end.

(** [read_number]: the value has to be below [bound], the size of its type. *)
Definition read_number (radix bound : N) (max_digits : option nat) (allow_zero_prefix : bool) : Reader N := fun s =>
  '(count, result, rest) ← read_digits radix bound max_digits 0 0 s;
  if (count =? 0)%nat then None
  else if negb allow_zero_prefix && starts_with_zero s && (1 <? count)%nat then None
  else if (result <? bound)%N then Some (result, rest) else None.

Fixpoint read_octets (index room : nat) : Reader bytes := fun s =>
  match room with
  | O => Some ([], s)
  | S room =>
      '(octet, s) ← read_separator "." index (read_number 10 (2 ^ 8) (Some 3) false) s;
      '(octets, s) ← read_octets (S index) room s;
      Some (u8 octet :: octets, s)
  end.

Definition read_ipv4_addr : Reader (array 4) := fun s =>
  '(octets, s) ← read_octets 0 4 s; a ← array_of 4 octets; Some (a, s).

(** [read_groups]: as many groups as there are, at most [limit]; the flag says
    that the last two were written as an IPv4 address. *)
Fixpoint read_groups (index room : nat) (s : string) : list N * bool * string :=
  match room with
  | O => ([], false, s)
  | S room' =>
      let v4 := if (1 <? room)%nat then read_separator ":" index read_ipv4_addr s else None in
      match v4 with
      | Some (ip, s) => (segments (elems ip), true, s)
      | None =>
          match read_separator ":" index (read_number 16 (2 ^ 16) (Some 4) true) s with
          | None => ([], false, s)
          | Some (group, s) =>
              let '(groups, ipv4, s) := read_groups (S index) room' s in (group :: groups, ipv4, s)
          end
      end
  end.

(** [<Ipv6Addr as From<[u16; 8]>>]. *)
Definition ipv6_of_groups (groups : list N) : option (array 16) :=
  array_of 16 (groups ≫= fun g => [u8 (g / 256); u8 g]).

Definition read_ipv6_addr : Reader (array 16) := fun s =>
  let '(head, head_ipv4, s) := read_groups 0 8 s in
  if (length head =? 8)%nat then ip ← ipv6_of_groups head; Some (ip, s)
  else if head_ipv4 then None
  else
    '(_, s) ← read_given_char ":" s;
    '(_, s) ← read_given_char ":" s;
    let '(tail, _, s) := read_groups 0 (8 - (length head + 1)) s in
    ip ← ipv6_of_groups (head ++ replicate (8 - length head - length tail) 0%N ++ tail)%list;
    Some (ip, s).

Definition read_port : Reader u16 := fun s =>
  '(_, s) ← read_given_char ":" s;
  '(port, s) ← read_number 10 (2 ^ 16) None true s;
  Some (wrap 16 port, s).

Definition read_scope_id : Reader u32 := fun s =>
  '(_, s) ← read_given_char "%" s;
  '(scope_id, s) ← read_number 10 (2 ^ 32) None true s;
  Some (wrap 32 scope_id, s).

Definition read_socket_addr_v4 : Reader SocketAddr := fun s =>
  '(ip, s) ← read_ipv4_addr s;
  '(port, s) ← read_port s;
  Some (V4 ip port, s).

Definition read_socket_addr_v6 : Reader SocketAddr := fun s =>
  '(_, s) ← read_given_char "[" s;
  '(ip, s) ← read_ipv6_addr s;
  let '(scope_id, s) := default (wrap 32 0, s) (read_scope_id s) in
  '(_, s) ← read_given_char "]" s;
  '(port, s) ← read_port s;
  Some (V6 ip port (wrap 32 0) scope_id, s).

Definition read_socket_addr : Reader SocketAddr := fun s =>
  match read_socket_addr_v4 s with
  | Some r => Some r
  | None => read_socket_addr_v6 s
  end.

(** [str::parse::<SocketAddr>()]: everything has to be read. *)
Definition parse_socket_addr (s : string) : option SocketAddr :=
  match read_socket_addr s with
  | Some (a, "") => Some a
  | _ => None
  end.

Example parse_examples :
  (socket_to_string <$> parse_socket_addr "127.0.0.1:4000") = Some "127.0.0.1:4000" /\
  (socket_to_string <$> parse_socket_addr "[2001:db8::1]:80") = Some "[2001:db8::1]:80" /\
  (socket_to_string <$> parse_socket_addr "[::ffff:1.2.3.4%7]:0080") = Some "[::ffff:1.2.3.4%7]:80" /\
  parse_socket_addr "127.0.0.01:4000" = None /\ parse_socket_addr "256.0.0.1:4000" = None /\
  parse_socket_addr "127.0.0.1:65536" = None /\ parse_socket_addr "localhost:4000" = None /\
  parse_socket_addr "[1::2::3]:1" = None /\ parse_socket_addr "127.0.0.1:4000 " = None.
Proof. by vm_compute. Qed.

(** ** Numbers are read back *)

(** The value of a text of digits, after [acc]. *)
Fixpoint digit_fold (radix acc : N) (s : string) : option N :=
  match s with
  | "" => Some acc
  | String a s => d ← to_digit radix a; digit_fold radix (acc * radix + d)%N s
  end.

(** What comes next is not a digit. *)
Definition no_digit (radix : N) (s : string) : Prop :=
  match s with String a _ => to_digit radix a = None | "" => True end.

Lemma digit_fold_app radix acc s t :
  digit_fold radix acc (s +:+ t) = v ← digit_fold radix acc s; digit_fold radix v t.
Proof.
  revert acc. induction s as [|a s IH]; intros acc; [done|].
  change (String a s +:+ t) with (String a (s +:+ t)). cbn [digit_fold].
  destruct (to_digit radix a); cbn; [apply IH|done].
Qed.

Lemma digit_fold_ge radix acc s v : (0 < radix)%N -> digit_fold radix acc s = Some v -> (acc <= v)%N.
Proof.
  intros Hr. revert acc. induction s as [|a s IH]; intros acc; cbn; [intros [= ->]; lia|].
  destruct (to_digit radix a) as [d|]; cbn; [|done]. intros Hv%IH. nia.
Qed.

(** The digits of [s], with room for them, are read and nothing after. *)
Lemma read_digits_fold radix bound max count acc s rest v :
  (0 < radix)%N -> digit_fold radix acc s = Some v -> no_digit radix rest ->
  match max with Some m => count + String.length s <= m | None => (v < bound)%N end ->
  read_digits radix bound max count acc (s +:+ rest) = Some (count + String.length s, v, rest).
Proof.
  intros Hr. revert count acc. induction s as [|a s IH]; intros count acc Hv Hrest Hroom.
  - injection Hv as ->. change ("" +:+ rest) with rest. rewrite Nat.add_0_r.
    destruct rest as [|a rest]; [done|]. cbn in Hrest |- *. by rewrite Hrest.
  - change (String a s +:+ rest) with (String a (s +:+ rest)). cbn [read_digits digit_fold] in *.
    destruct (to_digit radix a) as [d|]; [|done]. cbn in Hv. cbn [String.length] in Hroom |- *.
    rewrite <- Nat.add_succ_comm in Hroom |- *. destruct max as [m|].
    + destruct (Nat.ltb_spec m (S count)); [lia|]. by apply IH.
    + pose proof (digit_fold_ge _ _ _ _ Hr Hv). destruct (N.leb_spec bound (acc * radix + d)); [lia|]. by apply IH.
Qed.

Lemma read_number_fold radix bound max zeros s rest v :
  (0 < radix)%N -> digit_fold radix 0 s = Some v -> no_digit radix rest -> (v < bound)%N -> s <> "" ->
  match max with Some m => String.length s <= m | None => True end ->
  (zeros = true \/ starts_with_zero s = false \/ String.length s = 1) ->
  read_number radix bound max zeros (s +:+ rest) = Some (v, rest).
Proof.
  intros Hr Hv Hrest Hb Hne Hmax Hz. unfold read_number.
  rewrite (read_digits_fold _ _ _ 0 0 s rest v) by (done || by destruct max). cbn -[Nat.ltb].
  destruct (Nat.eqb_spec (String.length s) 0) as [E|_]; [by destruct s|].
  rewrite (proj2 (N.ltb_lt _ _) Hb).
  assert (negb zeros && starts_with_zero (s +:+ rest) && (1 <? String.length s)%nat = false) as ->; [|done].
  assert (starts_with_zero (s +:+ rest) = starts_with_zero s) as -> by by destruct s.
  destruct Hz as [->|[->| ->]]; [done|by rewrite andb_false_r|]. by rewrite andb_false_r.
Qed.

Lemma to_digit_decimal d : (d < 10)%N -> to_digit 10 (digit_char d) = Some d.
Proof.
  intros Hd. assert (d ∈ [0; 1; 2; 3; 4; 5; 6; 7; 8; 9]%N) as Hin by (rewrite !elem_of_cons; lia).
  repeat (apply elem_of_cons in Hin as [->|Hin]; [done|]). set_solver.
Qed.

Lemma to_digit_hex d : (d < 16)%N -> to_digit 16 (hex_char d) = Some d.
Proof.
  intros Hd. assert (d ∈ [0; 1; 2; 3; 4; 5; 6; 7; 8; 9; 10; 11; 12; 13; 14; 15]%N) as Hin
    by (rewrite !elem_of_cons; lia).
  repeat (apply elem_of_cons in Hin as [->|Hin]; [done|]). set_solver.
Qed.

Lemma decimal_fold fuel n : (n < 10 ^ N.of_nat fuel)%N -> digit_fold 10 0 (decimal fuel n) = Some n.
Proof.
  revert n. induction fuel as [|fuel IH]; intros n Hn; [cbn in *; f_equal; lia|]. cbn [decimal].
  destruct (N.ltb_spec n 10) as [H|H].
  - cbn. rewrite to_digit_decimal by done. cbn. f_equal; lia.
  - rewrite digit_fold_app, IH by (rewrite Nat2N.inj_succ, N.pow_succ_r' in Hn; by apply N.Div0.div_lt_upper_bound).
    cbn. rewrite to_digit_decimal by by apply N.mod_lt. cbn. f_equal; rewrite (N.div_mod' n 10) at 3. lia.
Qed.

Lemma hexadecimal_fold fuel n : (n < 16 ^ N.of_nat fuel)%N -> digit_fold 16 0 (hexadecimal fuel n) = Some n.
Proof.
  revert n. induction fuel as [|fuel IH]; intros n Hn; [cbn in *; f_equal; lia|]. cbn [hexadecimal].
  destruct (N.ltb_spec n 16) as [H|H].
  - cbn. rewrite to_digit_hex by done. cbn. f_equal; lia.
  - rewrite digit_fold_app, IH by (rewrite Nat2N.inj_succ, N.pow_succ_r' in Hn; by apply N.Div0.div_lt_upper_bound).
    cbn. rewrite to_digit_hex by by apply N.mod_lt. cbn. f_equal; rewrite (N.div_mod' n 16) at 3. lia.
Qed.

Lemma decimal_length fuel n : String.length (decimal fuel n) <= fuel.
Proof.
  revert n. induction fuel as [|fuel IH]; intros n; cbn; [done|]. destruct (n <? 10)%N; cbn; [lia|].
  rewrite string_length_app. cbn. specialize (IH (n / 10)%N). lia.
Qed.

Lemma hexadecimal_length fuel n : String.length (hexadecimal fuel n) <= fuel.
Proof.
  revert n. induction fuel as [|fuel IH]; intros n; cbn; [done|]. destruct (n <? 16)%N; cbn; [lia|].
  rewrite string_length_app. cbn. specialize (IH (n / 16)%N). lia.
Qed.

Lemma decimal_not_empty fuel n : 0 < fuel -> decimal fuel n <> "".
Proof. intros Hf. destruct (decimal_head fuel n Hf) as (d & s & -> & _). done. Qed.

Lemma hexadecimal_not_empty fuel n : 0 < fuel -> hexadecimal fuel n <> "".
Proof. destruct fuel; [lia|]. intros _. cbn. destruct (n <? 16)%N; [done|]. by destruct (hexadecimal fuel _). Qed.

(** No superfluous zero in front. *)
Lemma decimal_zero fuel n :
  (n < 10 ^ N.of_nat fuel)%N -> 0 < fuel ->
  starts_with_zero (decimal fuel n) = false \/ String.length (decimal fuel n) = 1.
Proof.
  assert (forall fuel n, 0 < n < 10 ^ N.of_nat fuel ->
    starts_with_zero (decimal fuel n) = false)%N as Hpos.
  { clear. induction fuel as [|fuel IH]; intros n Hn; [done|]. cbn [decimal].
    destruct (N.ltb_spec n 10) as [H|H].
    - assert (n ∈ [1; 2; 3; 4; 5; 6; 7; 8; 9]%N) as Hin by (rewrite !elem_of_cons; lia).
      repeat (apply elem_of_cons in Hin as [->|Hin]; [done|]). set_solver.
    - assert (starts_with_zero (decimal fuel (n / 10)) = false) as Hz.
      { apply IH. rewrite Nat2N.inj_succ, N.pow_succ_r' in Hn. split.
        - apply N.div_str_pos. lia.
        - apply N.Div0.div_lt_upper_bound, Hn. }
      destruct fuel as [|fuel]; [rewrite Nat2N.inj_succ in Hn; cbn in Hn; lia|].
      destruct (decimal_head (S fuel) (n / 10)) as (d & s & E & _); [lia|]. rewrite E in *. done. }
  intros Hn Hf. destruct (N.eq_dec n 0%N) as [->|]; [right; by destruct fuel; [lia|]|left; apply Hpos; lia].
Qed.

(** A decimal in front of something else is read back. *)
Lemma read_decimal fuel n bound max rest :
  0 < fuel -> (n < 10 ^ N.of_nat fuel)%N -> (n < bound)%N -> no_digit 10 rest ->
  match max with Some m => fuel <= m | None => True end ->
  forall zeros, read_number 10 bound max zeros (decimal fuel n +:+ rest) = Some (n, rest).
Proof.
  intros Hf Hn Hb Hrest Hmax zeros. apply read_number_fold; try done.
  - by apply decimal_fold.
  - by apply decimal_not_empty.
  - destruct max; [|done]. pose proof (decimal_length fuel n). lia.
  - right. by apply decimal_zero.
Qed.

Lemma read_hexadecimal n rest :
  (n < 2 ^ 16)%N -> no_digit 16 rest ->
  read_number 16 (2 ^ 16) (Some 4) true (hexadecimal 4 n +:+ rest) = Some (n, rest).
Proof.
  intros Hn Hrest. apply read_number_fold; try done.
  - by apply hexadecimal_fold.
  - by apply hexadecimal_not_empty; lia.
  - apply hexadecimal_length.
  - by left.
Qed.

(** ** IPv4 *)

Lemma show_byte_read b rest :
  no_digit 10 rest -> read_number 10 (2 ^ 8) (Some 3) false (show_byte b +:+ rest) = Some (Byte.to_N b, rest).
Proof.
  intros Hrest. pose proof (byte_lt b) as Hb. apply read_decimal; try done; try lia;
    change (10 ^ N.of_nat 3)%N with 1000%N; lia.
Qed.

(** The separated rest of a joined list. *)
Fixpoint tail_text (sep : string) (l : list string) : string :=
  match l with
  | [] => ""
  | s :: l => sep +:+ s +:+ tail_text sep l
  end.

Lemma join_tail sep s l : join sep (s :: l) = s +:+ tail_text sep l.
Proof.
  revert s. induction l as [|t l IH]; intros s; [cbn; by rewrite (string_app_nil s)|].
  change (join sep (s :: t :: l)) with (s +:+ sep +:+ join sep (t :: l)). by rewrite IH.
Qed.

Lemma read_octets_tail index octets rest :
  no_digit 10 rest ->
  read_octets (S index) (length octets) (tail_text "." (show_byte <$> octets) +:+ rest) = Some (octets, rest).
Proof.
  intros Hrest. revert index. induction octets as [|b octets IH]; intros index; [done|].
  change (tail_text "." (show_byte <$> b :: octets)) with ("." +:+ show_byte b +:+ tail_text "." (show_byte <$> octets)).
  cbn [length read_octets]. rewrite !append_assoc. cbn [read_separator].
  change (read_given_char "." ("." +:+ ?x)) with (Some (tt, x)). cbn [mbind option_bind].
  rewrite show_byte_read; [|by destruct octets]. cbn [mbind option_bind].
  rewrite IH. cbn. by rewrite u8_to_N.
Qed.

Lemma read_ipv4_text (ip : array 4) rest :
  no_digit 10 rest -> read_ipv4_addr (ipv4_to_string (elems ip) +:+ rest) = Some (ip, rest).
Proof.
  intros Hrest. unfold read_ipv4_addr, ipv4_to_string.
  pose proof (array_length ip) as Hl. destruct (elems ip) as [|b octets] eqn:E; [done|].
  rewrite fmap_cons, join_tail, append_assoc. injection Hl as Hl.
  assert (forall n, n = length octets ->
    read_octets 0 (S n) (show_byte b +:+ tail_text "." (show_byte <$> octets) +:+ rest) = Some (b :: octets, rest))
    as Hread.
  { intros n ->. cbn [read_octets read_separator]. rewrite show_byte_read; [|by destruct octets].
    cbn [mbind option_bind]. rewrite read_octets_tail by done. cbn. by rewrite u8_to_N. }
  rewrite (Hread 3) by done.
  cbn. assert (array_of 4 (b :: octets) = Some ip) as -> by by apply array_of_Some. done.
Qed.

Lemma read_port_text (port : u16) : read_port (":" +:+ show_u16 port) = Some (port, "").
Proof.
  unfold read_port. change (read_given_char ":" (":" +:+ ?x)) with (Some (tt, x)). cbn [mbind option_bind].
  rewrite <- (string_app_nil (show_u16 port)). unfold show_u16.
  pose proof (uint_bound port) as Hp. rewrite read_decimal; try done; try lia.
  cbn. by rewrite wrap_uval.
Qed.

Lemma parse_v4 ip port : parse_socket_addr (socket_to_string (V4 ip port)) = Some (V4 ip port).
Proof.
  unfold parse_socket_addr, read_socket_addr, read_socket_addr_v4. cbn [socket_to_string].
  rewrite read_ipv4_text by done. cbn [mbind option_bind]. by rewrite read_port_text.
Qed.

(** ** IPv6 *)

(** What may follow a group: the end, or a separator that is not a dot. *)
Definition ends_group (s : string) : Prop :=
  match s with
  | "" => True
  | String a _ => to_digit 16 a = None /\ a <> "."%char
  end.

Lemma ends_group_digit s : ends_group s -> no_digit 16 s.
Proof. destruct s; [done|]. by intros []. Qed.

Lemma to_digit_10_16 a d : to_digit 10 a = Some d -> to_digit 16 a = Some d.
Proof.
  unfold to_digit. set (n := N_of_ascii a). destruct ((48 <=? n) && (n <=? 57))%N.
  - destruct (N.ltb_spec (n - 48) 10); [|done]. intros [= <-]. by rewrite (proj2 (N.ltb_lt _ 16)) by lia.
  - destruct ((97 <=? n) && (n <=? 122))%N eqn:E1.
    + destruct (N.ltb_spec (n - 87) 10); [|done]. intros [= <-]. by rewrite (proj2 (N.ltb_lt _ 16)) by lia.
    + destruct ((65 <=? n) && (n <=? 90))%N; [|done].
      destruct (N.ltb_spec (n - 55) 10); [|done]. intros [= <-]. by rewrite (proj2 (N.ltb_lt _ 16)) by lia.
Qed.

(** Reading digits stops inside a group or at its end, never before a dot. *)
(** A text of hexadecimal digits. *)
Fixpoint all_hex (s : string) : Prop :=
  match s with "" => True | String a s => is_Some (to_digit 16 a) /\ all_hex s end.

Lemma digit_fold_all_hex acc s v : digit_fold 16 acc s = Some v -> all_hex s.
Proof.
  revert acc. induction s as [|a s IH]; intros acc; cbn; [done|].
  destruct (to_digit 16 a) eqn:E; cbn; [|done]. intros Hv. split; [by eexists|by eapply IH].
Qed.

(** Decimal digits read off a group stop inside it or at its end, not at a dot. *)
Lemma read_digits_no_dot bound max count acc s rest :
  all_hex s -> ends_group rest ->
  match read_digits 10 bound max count acc (s +:+ rest) with
  | Some (_, _, String a _) => a <> "."%char
  | _ => True
  end.
Proof.
  revert count acc. induction s as [|a s IH]; intros count acc Hs Hr.
  - change ("" +:+ rest) with rest. destruct rest as [|b rest]; [done|]. destruct Hr as [Hd Hb]. cbn [read_digits].
    destruct (to_digit 10 b) as [d|] eqn:E; [|done]. apply to_digit_10_16 in E. congruence.
  - destruct Hs as [[d16 Ha] Hs]. change (String a s +:+ rest) with (String a (s +:+ rest)). cbn [read_digits].
    destruct (to_digit 10 a) as [d|] eqn:E.
    + destruct max as [m|]; [destruct (_ <? _)%nat|destruct (_ <=? _)%N]; try done; by apply IH.
    + intros ->. done.
Qed.

Lemma read_number_no_dot bound max zeros s rest :
  all_hex s -> ends_group rest ->
  match read_number 10 bound max zeros (s +:+ rest) with
  | Some (_, String a _) => a <> "."%char
  | _ => True
  end.
Proof.
  intros Hs Hr. unfold read_number. pose proof (read_digits_no_dot bound max 0 0 s rest Hs Hr) as Hd.
  destruct (read_digits 10 bound max 0 0 (s +:+ rest)) as [[[count v] left]|]; [|done].
  cbn -[Nat.ltb]. destruct (count =? 0)%nat; [done|]. destruct (_ && _); [done|]. by destruct (_ <? _)%N.
Qed.

Lemma group_not_ipv4 s rest : all_hex s -> ends_group rest -> read_ipv4_addr (s +:+ rest) = None.
Proof.
  intros Hs Hr. unfold read_ipv4_addr.
  enough (forall n, read_octets 0 (S (S n)) (s +:+ rest) = None) as Hn by by rewrite (Hn 2).
  intros n. cbn [read_octets]. cbn [read_separator].
  pose proof (read_number_no_dot (2 ^ 8) (Some 3) false s rest Hs Hr) as Hd.
  destruct (read_number _ _ _ _ (s +:+ rest)) as [[v left]|]; [|done]. cbn -[read_given_char].
  destruct left as [|a left]; [done|]. cbn. by destruct (ascii_dec a ".").
Qed.

(** The text of groups, each after a colon. *)
Definition groups_text (l : list N) : string := tail_text ":" (hexadecimal 4 <$> l).

Definition small (l : list N) : Prop := forall g, g ∈ l -> (g < 2 ^ 16)%N.

(** What stops the reading of groups. *)
Definition ends_groups (s : string) : Prop :=
  ends_group s /\ read_separator ":" 1 (read_number 16 (2 ^ 16) (Some 4) true) s = None /\
  read_separator ":" 1 read_ipv4_addr s = None.

Lemma groups_text_ends l rest : ends_group rest -> ends_group (groups_text l +:+ rest).
Proof. by destruct l. Qed.

Lemma read_groups_tail index room l rest :
  small l -> length l <= room -> ends_group rest -> (length l = room \/ ends_groups rest) ->
  read_groups (S index) room (groups_text l +:+ rest) = (l, false, rest).
Proof.
  intros Hs Hl He Hstop. revert index room Hl Hstop. induction l as [|g l IH]; intros index room Hl Hstop.
  - change (groups_text [] +:+ rest) with rest. destruct room as [|room]; [done|].
    destruct Hstop as [?|(_ & Hn & H4)]; [done|]. cbn [read_groups].
    change (read_separator ":" (S index)) with (@read_separator (array 4) ":" 1) at 1.
    rewrite H4. rewrite Tauto.if_same.
    change (@read_separator N ":" (S index)) with (@read_separator N ":" 1). by rewrite Hn.
  - destruct room as [|room]; [simpl in Hl; lia|].
    change (groups_text (g :: l)) with (":" +:+ hexadecimal 4 g +:+ groups_text l). rewrite !append_assoc.
    assert (g < 2 ^ 16)%N as Hg by (apply Hs; by left).
    assert (ends_group (groups_text l +:+ rest)) as He' by by apply groups_text_ends.
    cbn [read_groups read_separator].
    change (read_given_char ":" (":" +:+ ?x)) with (Some (tt, x)). cbn [mbind option_bind].
    rewrite group_not_ipv4; [|by eapply digit_fold_all_hex, hexadecimal_fold|done]. rewrite Tauto.if_same.
    rewrite read_hexadecimal by (done || by apply ends_group_digit).
    rewrite IH; [done| |simpl in Hl; lia|simpl in Hstop; naive_solver lia].
    intros x Hx. apply Hs. by right.
Qed.

(** Nothing to read: neither a number nor an IPv4 address. *)
Definition no_group (s : string) : Prop :=
  read_number 16 (2 ^ 16) (Some 4) true s = None /\ read_ipv4_addr s = None.

Lemma read_groups_head room l rest :
  small l -> length l <= room -> ends_group rest -> (length l = room \/ ends_groups rest) ->
  (l = [] -> no_group rest) ->
  read_groups 0 room (show_segments l +:+ rest) = (l, false, rest).
Proof.
  intros Hs Hl He Hstop Hnil. destruct l as [|g l].
  - change (show_segments [] +:+ rest) with rest. destruct room as [|room]; [done|].
    destruct (Hnil eq_refl) as [Hn H4]. cbn [read_groups read_separator]. rewrite H4, Tauto.if_same. by rewrite Hn.
  - destruct room as [|room]; [simpl in Hl; lia|].
    change (show_segments (g :: l)) with (join ":" (hexadecimal 4 g :: (hexadecimal 4 <$> l))).
    rewrite join_tail. fold (groups_text l). rewrite append_assoc.
    assert (g < 2 ^ 16)%N as Hg by (apply Hs; by left).
    assert (ends_group (groups_text l +:+ rest)) as He' by by apply groups_text_ends.
    cbn [read_groups read_separator].
    rewrite group_not_ipv4; [|by eapply digit_fold_all_hex, hexadecimal_fold|done]. rewrite Tauto.if_same.
    rewrite read_hexadecimal by (done || by apply ends_group_digit).
    rewrite read_groups_tail; [done| |simpl in Hl; lia|done|simpl in Hstop; naive_solver lia].
    intros x Hx. apply Hs. by right.
Qed.

(** Segments and bytes. *)
Definition group_bytes (g : N) : bytes := [u8 (g / 256); u8 g].

Lemma segments_bytes l : Nat.even (length l) = true -> segments l ≫= group_bytes = l.
Proof.
  induction l as [[|a [|b l]] IH] using (induction_ltof1 _ length); intros He; [done|done|].
  cbn [segments]. rewrite bind_cons, IH; [|unfold ltof; simpl; lia|done].
  unfold group_bytes. pose proof (byte_lt a). pose proof (byte_lt b).
  rewrite N.div_add_l, (N.div_small (Byte.to_N b)), N.add_0_r, u8_to_N by done. cbn. do 2 f_equal.
  apply to_N_inj. by rewrite to_N_u8, N.add_comm, N.Div0.mod_add, N.mod_small.
Qed.

Lemma segments_small l : small (segments l).
Proof.
  induction l as [[|a [|b l]] IH] using (induction_ltof1 _ length); intros g; cbn [segments]; [set_solver|set_solver|].
  intros [->|Hg]%elem_of_cons.
  - pose proof (byte_lt a). pose proof (byte_lt b). change (2 ^ 16)%N with 65536%N. lia.
  - eapply IH; [|exact Hg]. unfold ltof. simpl. lia.
Qed.

Lemma segments_length l : Nat.even (length l) = true -> 2 * length (segments l) = length l.
Proof.
  induction l as [[|a [|b l]] IH] using (induction_ltof1 _ length); intros He; [done|done|].
  cbn [segments length]. specialize (IH l ltac:(unfold ltof; simpl; lia) He). lia.
Qed.

(** The run that is left out is one of zeros. *)
Definition zeros_at (l : list N) (run : nat * nat) : Prop :=
  forall k, fst run <= k < fst run + snd run -> l !! k = Some 0%N.

Lemma longest_zero_run_zeros l i current longest :
  zeros_at l current -> zeros_at l longest -> (snd current = 0 \/ fst current + snd current = i)%nat ->
  zeros_at l (longest_zero_run i current longest (drop i l)).
Proof.
  remember (drop i l) as rest eqn:Hrest. revert i current longest Hrest.
  induction rest as [|g rest IH]; intros i current longest Hrest Hc Hl Hi; [done|].
  assert (l !! i = Some g) as Hg.
  { rewrite <- (Nat.add_0_r i), <- lookup_drop, <- Hrest. done. }
  assert (rest = drop (S i) l) as Hrest'.
  { rewrite <- Nat.add_1_r, <- drop_drop, <- Hrest. done. }
  cbn [longest_zero_run]. destruct (N.eqb_spec g 0) as [->|_].
  - set (c := (if (snd current =? 0)%nat then i else fst current, S (snd current))).
    assert (zeros_at l c /\ fst c + snd c = S i)%nat as [Hcz Hce].
    { subst c. cbn. destruct (Nat.eqb_spec (snd current) 0) as [E|E].
      - rewrite E. split; [|lia]. intros k Hk. cbn in Hk. by replace k with i by lia.
      - destruct Hi as [?|Hi]; [done|]. split; [|lia]. intros k Hk. cbn in Hk.
        destruct (decide (k = i)) as [->|]; [done|]. apply Hc. lia. }
    apply IH; [done|done| |by right]. by destruct (_ <? _)%nat.
  - apply IH; [done| |done|by left]. intros k Hk. cbn in Hk. lia.
Qed.

Lemma zeros_split l start len :
  zeros_at l (start, len) -> 0 < len ->
  start + len <= length l /\ l = (take start l ++ replicate len 0%N ++ drop (start + len) l)%list.
Proof.
  intros Hz Hlen. assert (start + len <= length l) as Hle.
  { assert (l !! (start + len - 1) = Some 0%N) as Hk%lookup_lt_Some by (apply Hz; cbn; lia). lia. }
  split; [done|]. rewrite <- (take_drop start l) at 1. f_equal.
  rewrite <- (take_drop len (drop start l)) at 1. rewrite drop_drop. f_equal.
  apply list_eq. intros i. destruct (decide (i < len)) as [Hi|Hi].
  - rewrite lookup_take_lt, lookup_drop, lookup_replicate_2 by done. apply Hz. cbn. lia.
  - rewrite lookup_take_ge, lookup_ge_None_2 by (rewrite ?length_replicate; lia). done.
Qed.

(** What follows the address inside the brackets. *)
Definition closes (s : string) : Prop := exists t, s = "]" +:+ t \/ s = "%" +:+ t.

Lemma closes_ends s : closes s -> ends_groups s /\ no_group s /\ no_digit 10 s.
Proof. by intros (t & [->| ->]). Qed.

Lemma ipv6_of_segments (ip : array 16) groups :
  groups = segments (elems ip) -> ipv6_of_groups groups = Some ip.
Proof.
  intros ->. unfold ipv6_of_groups. change (fun g : N => [u8 (g / 256); u8 g]) with group_bytes.
  rewrite segments_bytes by by rewrite array_length. apply array_of_elems.
Qed.

Lemma segments_app l l' : Nat.even (length l) = true -> segments (l ++ l') = (segments l ++ segments l')%list.
Proof.
  induction l as [[|a [|b l]] IH] using (induction_ltof1 _ length); intros He; [done|done|].
  cbn [segments app]. rewrite IH; [done|unfold ltof; simpl; lia|done].
Qed.

Lemma read_ipv6_mapped (ip : array 16) rest :
  take 12 (elems ip) = (replicate 10 x00 ++ [xff; xff])%list -> closes rest ->
  read_ipv6_addr (("::ffff:" +:+ ipv4_to_string (drop 12 (elems ip))) +:+ rest) = Some (ip, rest).
Proof.
  intros Hmap Hrest. destruct (closes_ends _ Hrest) as (_ & _ & Hd).
  assert (length (drop 12 (elems ip)) = 4) as Hlen by by rewrite length_drop, array_length.
  destruct (array_of_is_Some _ _ Hlen) as [ip4 Hip4]. apply array_of_Some in Hip4. rewrite <- Hip4.
  unfold read_ipv6_addr. rewrite append_assoc.
  set (text := ipv4_to_string (elems ip4) +:+ rest).
  change (read_groups 0 8 ("::ffff:" +:+ text)) with (@nil N, false, "::ffff:" +:+ text).
  cbn [length Nat.eqb]. change (read_given_char ":" ("::ffff:" +:+ text)) with (Some (tt, ":ffff:" +:+ text)).
  cbn [mbind option_bind]. change (read_given_char ":" (":ffff:" +:+ text)) with (Some (tt, "ffff" +:+ (":" +:+ text))).
  cbn [mbind option_bind].
  assert (read_groups 0 (8 - (0 + 1)) ("ffff" +:+ (":" +:+ text)) = (65535%N :: segments (elems ip4), true, rest)) as ->.
  { change (8 - (0 + 1)) with 7. enough (forall n, read_groups 0 (S (S (S n))) ("ffff" +:+ (":" +:+ text)) =
      (65535%N :: segments (elems ip4), true, rest)) as Hn by apply (Hn 4).
    intros n. cbn [read_groups read_separator]. rewrite group_not_ipv4; [|cbn; eauto 8|done].
    change ("ffff" +:+ (":" +:+ text)) with (hexadecimal 4 65535 +:+ (":" +:+ text)).
    rewrite read_hexadecimal by done. cbn [Nat.ltb Nat.leb].
    change (read_given_char ":" (":" +:+ text)) with (Some (tt, text)). cbn [mbind option_bind].
    unfold text. rewrite read_ipv4_text by done. done. }
  rewrite (ipv6_of_segments ip); [done|].
  rewrite <- (take_drop 12 (elems ip)), Hmap, segments_app by done. rewrite <- Hip4.
  assert (length (segments (elems ip4)) = 2) as Hl2.
  { pose proof (segments_length (elems ip4)) as Hs. rewrite array_length in Hs. specialize (Hs eq_refl). lia. }
  cbn [length app]. rewrite Hl2. done.
Qed.

Lemma read_ipv6_text (ip : array 16) rest :
  closes rest -> read_ipv6_addr (ipv6_to_string (elems ip) +:+ rest) = Some (ip, rest).
Proof.
  intros Hrest. destruct (closes_ends _ Hrest) as (He & Hno & _).
  unfold ipv6_to_string. case_bool_decide as Hmap; [by apply read_ipv6_mapped|].
  set (l := segments (elems ip)).
  assert (length l = 8) as Hl.
  { pose proof (segments_length (elems ip)) as Hs. rewrite array_length in Hs. specialize (Hs eq_refl).
    unfold l. lia. }
  pose proof (segments_small (elems ip) : small l) as Hsmall.
  pose proof (longest_zero_run_zeros l 0 (0, 0)%nat (0, 0)%nat) as Hz. rewrite drop_0 in Hz.
  destruct (longest_zero_run 0 (0, 0)%nat (0, 0)%nat l) as [start len] eqn:Hrun.
  assert (zeros_at l (start, len)) as Hzeros by (apply Hz; [intros k; cbn; lia|intros k; cbn; lia|by left]).
  unfold read_ipv6_addr. destruct (Nat.ltb_spec 1 len) as [Hlen|Hlen].
  - destruct (zeros_split l start len Hzeros ltac:(lia)) as [Hle Hsplit]. rewrite append_assoc.
    rewrite (append_assoc "::").
    set (tail := drop (start + len) l) in *. set (head := take start l) in *.
    assert (length head = start) as Hhl by (unfold head; rewrite length_take; lia).
    assert (length tail = 8 - (start + len)) as Htl by (unfold tail; rewrite length_drop; lia).
    rewrite read_groups_head; [|..|done]; cycle 1.
    + intros g Hg. apply Hsmall. rewrite Hsplit. set_solver.
    + lia.
    + done.
    + by right.
    + cbv zeta. rewrite Hhl. destruct (Nat.eqb_spec start 8); [lia|].
      change (read_given_char ":" ("::" +:+ ?x)) with (Some (tt, ":" +:+ x)). cbn [mbind option_bind].
      change (read_given_char ":" (":" +:+ ?x)) with (Some (tt, x)). cbn [mbind option_bind].
      rewrite read_groups_head; [|..|done]; cycle 1.
      * intros g Hg. apply Hsmall. rewrite Hsplit. set_solver.
      * lia.
      * apply He.
      * by right.
      * rewrite (ipv6_of_segments ip); [done|]. fold l. rewrite Htl.
        replace (8 - start - (8 - (start + len))) with len by lia. by symmetry.
  - rewrite read_groups_head; [|done|lia|apply He|by left|intros E; by rewrite E in Hl].
    cbv zeta. rewrite Hl. cbn [Nat.eqb]. by rewrite (ipv6_of_segments ip).
Qed.

Lemma read_scope_text (scope : u32) rest :
  uval scope <> 0%N -> no_digit 10 rest -> read_scope_id ("%" +:+ show_u32 scope +:+ rest) = Some (scope, rest).
Proof.
  intros _ Hrest. unfold read_scope_id.
  change (read_given_char "%" ("%" +:+ ?x)) with (Some (tt, x)). cbn [mbind option_bind]. unfold show_u32.
  pose proof (uint_bound scope) as Hs. rewrite read_decimal; try done; try lia.
  cbn. by rewrite wrap_uval.
Qed.

(** Reading back what was printed: every address is, but for the flow label of
    IPv6, which the text does not have. *)
Definition without_flow (a : SocketAddr) : SocketAddr :=
  match a with V4 ip port => V4 ip port | V6 ip port _ scope => V6 ip port (wrap 32 0) scope end.

Lemma parse_socket_text a : parse_socket_addr (socket_to_string a) = Some (without_flow a).
Proof.
  destruct a as [ip port|ip port flow scope]; [apply parse_v4|].
  unfold parse_socket_addr, read_socket_addr.
  assert (read_socket_addr_v4 (socket_to_string (V6 ip port flow scope)) = None) as -> by done.
  unfold read_socket_addr_v6. cbn [socket_to_string].
  change (read_given_char "[" ("[" +:+ ?x)) with (Some (tt, x)). cbn [mbind option_bind].
  assert (forall x, read_given_char "]" ("]:" +:+ x) = Some (tt, ":" +:+ x)) as Hclose by done.
  destruct (N.eqb_spec (uval scope) 0) as [E|E].
  - change ("" +:+ ?x) with x. rewrite read_ipv6_text by (eexists; by left).
    cbn [mbind option_bind]. assert (forall x, read_scope_id ("]:" +:+ x) = None) as -> by done.
    cbn [from_option]. rewrite Hclose. cbn [mbind option_bind]. rewrite read_port_text. cbn. do 2 f_equal. by apply uint_eq.
  - rewrite !append_assoc. rewrite read_ipv6_text by (eexists; by right). cbn [mbind option_bind].
    rewrite read_scope_text by done. cbn [from_option]. unfold Datatypes.id. rewrite Hclose.
    cbn [mbind option_bind].
    by rewrite read_port_text.
Qed.
