(* ===== verification/Package.v ===== *)
(** * Package: hashing, versions, signed records and stored values

    Models [src/hashing.rs], [src/package.rs] and [src/value.rs]: the keys of
    values and nodes, [Version] with its text form and its order, the signed
    [VersionRecord] and [LatestPointer], and the [Value] the DHT stores with
    the one key it may live under. *)

From S2P Require Import Prelude Slices Machine Contacts Crates Text Address.
From Stdlib Require Import Strings.Ascii.

Local Open Scope string_scope.

(** ** [hashing.rs] *)

Section hashing.
Context `{Sha256}.

Definition hash_bytes (data : bytes) : array 32 := sha256_digest data.

Definition key_for_value (value : bytes) : Key := hash_bytes value.

Definition node_id_from_address (address : SocketAddr) : NodeId :=
  hash_bytes (as_bytes (socket_to_string address)).
End hashing.

(** ** Versions *)

Record Version : Type := MkVersion { major : u32; minor : u32; patch : u32 }.

#[export] Instance Version_eq_dec : EqDecision Version.
Proof. solve_decision. Defined.

Inductive ParseVersionError : Type := MkParseVersionError.

Definition version_from_str (s : string) : result ParseVersionError Version :=
  match split_on "." s with
  | [major; minor; patch] =>
      major ← ok_or MkParseVersionError (parse_uint 32 major);
      minor ← ok_or MkParseVersionError (parse_uint 32 minor);
      patch ← ok_or MkParseVersionError (parse_uint 32 patch);
      Ok (MkVersion major minor patch)
  | _ => Err MkParseVersionError
  end.

Definition version_to_string (v : Version) : string :=
  show_u32 (major v) +:+ "." +:+ show_u32 (minor v) +:+ "." +:+ show_u32 (patch v).

(** The derived [Ord]: lexicographic in the order of the fields. *)
Definition version_cmp (a b : Version) : comparison :=
  match N.compare (uval (major a)) (uval (major b)) with
  | Eq => match N.compare (uval (minor a)) (uval (minor b)) with
          | Eq => N.compare (uval (patch a)) (uval (patch b))
          | c => c
          end
  | c => c
  end.

Definition version_lt (a b : Version) : bool := bool_decide (version_cmp a b = Lt).
Definition version_le (a b : Version) : bool := bool_decide (version_cmp a b <> Gt).

(** ** Signed records *)

Record Signed (T : Type) : Type := MkSigned { body : T; sig : bytes }.
Arguments MkSigned {T} body sig.
Arguments body {T} s.
Arguments sig {T} s.

Record VersionRecord : Type := MkVersionRecord {
  vr_tag : string;
  vr_domain : string;
  vr_package : string;
  vr_version : Version;
  vr_blob_hash : Key;
  vr_prev : Key
}.

Record LatestPointer : Type := MkLatestPointer {
  lp_tag : string;
  lp_domain : string;
  lp_package : string;
  lp_version : Version;
  lp_version_record_hash : Key
}.

#[export] Instance VersionRecord_eq_dec : EqDecision VersionRecord.
Proof. solve_decision. Defined.
#[export] Instance LatestPointer_eq_dec : EqDecision LatestPointer.
Proof. solve_decision. Defined.
#[export] Instance Signed_eq_dec {T} `{EqDecision T} : EqDecision (Signed T).
Proof. solve_decision. Defined.

Definition VERSION_RECORD_TAG : string := "version-record".
Definition LATEST_POINTER_TAG : string := "latest-pointer".

(** What the DHT stores. *)
Inductive Value : Type :=
  | Blob (bytes : bytes)
  | Latest (pointer : Signed LatestPointer).

#[export] Instance Value_eq_dec : EqDecision Value.
Proof. solve_decision. Defined.

Section records.
Context `{Sha256}.

Definition record_key `{Bincode (Signed VersionRecord)} (record : Signed VersionRecord) : option Key :=
  hash_bytes <$> serialize record.

(** [format!("{}:{}:latest", domain, package)]. *)
Definition latest_name (domain package : string) : string :=
  domain +:+ String ":" (package +:+ ":latest").

Definition latest_key (domain package : string) : Key :=
  hash_bytes (as_bytes (latest_name domain package)).

Definition body_hash {T} `{Bincode T} (body : T) : option Key := hash_bytes <$> serialize body.

Definition sign `{Ed25519} {T} `{Bincode T} (body : T) (key : SigningKey) : option (Signed T) :=
  hash ← body_hash body;
  Some (MkSigned body (sig_to_bytes (sk_sign key (elems hash)))).

Definition verify `{Ed25519} {T} `{Bincode T} (s : Signed T) (owner : VerifyingKey) : bool :=
  match sig_from_slice (sig s) with
  | None => false
  | Some signature =>
      match body_hash (body s) with
      | None => false
      | Some hash => vk_verify owner (elems hash) signature
      end
  end.

Definition latest_is_valid `{Ed25519} `{Bincode LatestPointer}
    (pointer : Signed LatestPointer) (owner : VerifyingKey) : bool :=
  bool_decide (lp_tag (body pointer) = LATEST_POINTER_TAG) &&
  negb (contains_char ":" (lp_domain (body pointer))) &&
  verify pointer owner.

Definition value_key (v : Value) : Key :=
  match v with
  | Blob bytes => key_for_value bytes
  | Latest pointer => latest_key (lp_domain (body pointer)) (lp_package (body pointer))
  end.

Definition value_len `{Bincode (Signed LatestPointer)} (v : Value) : N :=
  match v with
  | Blob bytes => N.of_nat (length bytes)
  | Latest pointer => default 0%N (serialized_size pointer)
  end.

Definition value_from (bytes : bytes) : Value := Blob bytes.
End records.

(** ** Versions: order and text *)

Lemma version_cmp_eq a b : version_cmp a b = Eq <-> a = b.
Proof.
  unfold version_cmp. split.
  - destruct (N.compare_spec (uval (major a)) (uval (major b))) as [H1| |]; try done.
    destruct (N.compare_spec (uval (minor a)) (uval (minor b))) as [H2| |]; try done.
    intros H3%N.compare_eq_iff. destruct a, b. simpl in *.
    f_equal; by apply uint_eq.
  - intros ->. by rewrite !N.compare_refl.
Qed.

(** Versions as numbers, [u32] digits in base [2^32]. *)
Definition version_val (v : Version) : N :=
  ((uval (major v) * 2 ^ 32 + uval (minor v)) * 2 ^ 32 + uval (patch v))%N.

Lemma version_cmp_val a b : version_cmp a b = N.compare (version_val a) (version_val b).
Proof.
  unfold version_cmp, version_val.
  pose proof (uint_bound (minor a)). pose proof (uint_bound (minor b)).
  pose proof (uint_bound (patch a)). pose proof (uint_bound (patch b)).
  set (p := (2 ^ 32)%N) in *. assert (0 < p)%N by done.
  destruct (N.compare_spec (uval (major a)) (uval (major b))) as [E| |]; symmetry;
    [rewrite E|apply N.compare_lt_iff; nia|apply N.compare_gt_iff; nia].
  destruct (N.compare_spec (uval (minor a)) (uval (minor b))) as [E'| |];
    [rewrite E'|apply N.compare_lt_iff; nia|apply N.compare_gt_iff; nia].
  destruct (N.compare_spec (uval (patch a)) (uval (patch b)));
    [apply N.compare_eq_iff|apply N.compare_lt_iff|apply N.compare_gt_iff]; lia.
Qed.

#[export] Instance version_cmp_total : TotalCmp version_cmp.
Proof.
  split.
  - intros x. by apply version_cmp_eq.
  - intros x y. rewrite !version_cmp_val. apply N.compare_antisym.
  - intros x y z. rewrite !version_cmp_val, !N.compare_ngt_iff. lia.
Qed.

Lemma version_lt_val a b : version_lt a b = true <-> (version_val a < version_val b)%N.
Proof. unfold version_lt. rewrite bool_decide_eq_true, version_cmp_val. apply N.compare_lt_iff. Qed.

Lemma version_le_val a b : version_le a b = true <-> (version_val a <= version_val b)%N.
Proof. unfold version_le. rewrite bool_decide_eq_true, version_cmp_val. apply N.compare_le_iff. Qed.

Lemma version_le_false a b : version_le a b = false <-> version_lt b a = true.
Proof.
  rewrite version_lt_val. destruct (version_le a b) eqn:E.
  - apply version_le_val in E. split; [done|lia].
  - split; [|done]. intros _. apply N.nle_gt. by intros ?%version_le_val; congruence.
Qed.

Lemma version_text_round_trip v : version_from_str (version_to_string v) = Ok v.
Proof.
  unfold version_from_str, version_to_string.
  assert (forall n, contains_char "." (show_u32 n) = false) as Hfree
    by (intros n; by apply decimal_free).
  assert (forall s, "." +:+ s = String "." s) as Hdot by done.
  rewrite !Hdot, split_on_sep, split_on_sep, split_on_free by done.
  rewrite !parse_show_u32. simpl. by destruct v.
Qed.

(** ** Signing *)

Section signing.
Context `{Sha256} `{Ed25519Laws} {T : Type} `{Bincode T}.

Lemma sign_body (b : T) k s : sign b k = Some s -> body s = b.
Proof. unfold sign. destruct (body_hash b); simpl; [|done]. by intros [= <-]. Qed.

Lemma sign_verifies (b : T) k s : sign b k = Some s -> verify s (verifying_key k) = true.
Proof.
  unfold sign, verify. destruct (body_hash b) as [h|] eqn:E; simpl; [|done].
  intros [= <-]. simpl. by rewrite sig_round_trip, E, sign_verify.
Qed.
End signing.

(** The text a latest key hashes determines domain and package, when the
    domain has no colon. *)
Lemma latest_name_inj d1 p1 d2 p2 :
  contains_char ":" d1 = false -> contains_char ":" d2 = false ->
  latest_name d1 p1 = latest_name d2 p2 -> d1 = d2 /\ p1 = p2.
Proof.
  intros H1 H2 [-> Hp]%sep_inj; [|done|done]. split; [done|]. by apply app_inj_r in Hp.
Qed.
