(* ===== verification/VersionChain.v ===== *)
(** * VersionChain: walking and proving a package's version history

    Models [src/version_chain.rs] up to [load_chain] (which needs the lookups
    and is in Registry): the error and relation types, [compare_chains], the
    chain walker over an arbitrary stateful [fetch], and
    [validate_chain_proof].  The walker is characterised by [history]: what it
    accepts is exactly the signed, hash-linked, strictly decreasing history
    that starts at the pointer's record. *)

From S2P Require Import Prelude Slices Machine Contacts Crates Text Package.

Definition END_OF_CHAIN : Key := array_repeat 32 x00.
Definition MAX_CHAIN_LENGTH : nat := N.to_nat 10000.

Inductive ChainError : Type :=
  | NoDnsKey
  | NoLatestPointer
  | InvalidLatestPointer
  | MissingRecord (key : Key)
  | HashMismatch (key : Key)
  | InvalidEncoding (key : Key)
  | InvalidRecord (key : Key)
  | HeadVersionMismatch
  | NonDecreasingVersion
  | Cycle (key : Key)
  | TooManyVersions
  | EmptyChain
  | DifferentPackage
  | UnexpectedRecords.

#[export] Instance ChainError_eq_dec : EqDecision ChainError.
Proof. solve_decision. Defined.

Inductive ChainRelation : Type := Same | Extends | Rollback | Fork.

#[export] Instance ChainRelation_eq_dec : EqDecision ChainRelation.
Proof. solve_decision. Defined.

(** [<[T]>::ends_with]. *)
Definition ends_with {A} `{EqDecision A} (l needle : list A) : bool :=
  (length needle <=? length l)%nat &&
  bool_decide (drop (length l - length needle) l = needle).

Definition in_package (domain package : string) (r : Signed VersionRecord) : bool :=
  bool_decide (vr_domain (body r) = domain) && bool_decide (vr_package (body r) = package).

Definition compare_chains (stored proposed : list (Signed VersionRecord))
    : result ChainError ChainRelation :=
  match stored, proposed with
  | [], _ | _, [] => Err EmptyChain
  | first :: _, _ =>
      if existsb (fun r => negb (in_package (vr_domain (body first)) (vr_package (body first)) r))
           (stored ++ proposed)
      then Err DifferentPackage
      else if bool_decide (stored = proposed) then Ok Same
      else if ends_with proposed stored then Ok Extends
      else if ends_with stored proposed then Ok Rollback
      else Ok Fork
  end.

Section walk.
Context `{Sha256} `{Ed25519} `{Bincode VersionRecord} `{Bincode LatestPointer}
  `{Bincode (Signed VersionRecord)}.
Context {W : Type}.

(** The tests on a fetched record before it joins the chain. *)
Definition check_record (latest : Signed LatestPointer) (owner : VerifyingKey)
    (domain package : string) (newer_version : option Version) (current : Key)
    (bytes : bytes) : result ChainError (Signed VersionRecord) :=
  if bool_decide (key_for_value bytes <> current) then Err (HashMismatch current) else
  match deserialize bytes with
  | None => Err (InvalidEncoding current)
  | Some record =>
      if bool_decide (record_key record <> Some current)
         || bool_decide (vr_tag (body record) <> VERSION_RECORD_TAG)
         || bool_decide (vr_domain (body record) <> domain)
         || bool_decide (vr_package (body record) <> package)
         || negb (verify record owner)
      then Err (InvalidRecord current) else
      match newer_version with
      | None =>
          if bool_decide (vr_version (body record) <> lp_version (body latest))
          then Err HeadVersionMismatch else Ok record
      | Some newer =>
          if version_le newer (vr_version (body record))
          then Err NonDecreasingVersion else Ok record
      end
  end.

(** The loop.  [room] is [MAX_CHAIN_LENGTH - chain.len()]. *)
Fixpoint walk_loop (latest : Signed LatestPointer) (owner : VerifyingKey)
    (domain package : string) (fetch : Key -> M W (option bytes)) (room : nat)
    (current : Key) (seen : gset Key) (newer_version : option Version)
    (chain : list (Signed VersionRecord))
    : M W (result ChainError (list (Signed VersionRecord))) :=
  match room with
  | O => mret (Err TooManyVersions)
  | S room =>
      if bool_decide (current ∈ seen) then mret (Err (Cycle current)) else
      fetched ← fetch current;
      match fetched with
      | None => mret (Err (MissingRecord current))
      | Some bytes =>
          match check_record latest owner domain package newer_version current bytes with
          | Err e => mret (Err e)
          | Ok record =>
              let previous := vr_prev (body record) in
              let chain := chain ++ [record] in
              if bool_decide (previous = END_OF_CHAIN) then mret (Ok chain)
              else walk_loop latest owner domain package fetch room previous
                     ({[current]} ∪ seen) (Some (vr_version (body record))) chain
          end
      end
  end.

Definition walk_chain (latest : Signed LatestPointer) (owner : VerifyingKey)
    (domain package : string) (fetch : Key -> M W (option bytes))
    : M W (result ChainError (list (Signed VersionRecord))) :=
  if bool_decide (lp_domain (body latest) <> domain)
     || bool_decide (lp_package (body latest) <> package)
     || negb (latest_is_valid latest owner)
     || bool_decide (lp_version_record_hash (body latest) = END_OF_CHAIN)
  then mret (Err InvalidLatestPointer)
  else walk_loop latest owner domain package fetch MAX_CHAIN_LENGTH
         (lp_version_record_hash (body latest)) ∅ None [].
End walk.

Section proofs.
Context `{Sha256} `{Ed25519} `{Bincode VersionRecord} `{Bincode LatestPointer}
  `{Bincode (Signed VersionRecord)}.

(** The temporary store of the supplied records, by content hash. *)
Fixpoint index_records (records : gmap Key bytes) (proof : list (Signed VersionRecord))
    : result ChainError (gmap Key bytes) :=
  match proof with
  | [] => Ok records
  | record :: proof =>
      key ← ok_or (InvalidEncoding (array_repeat 32 x00)) (record_key record);
      bytes ← ok_or (InvalidEncoding key) (serialize record);
      match records !! key with
      | Some _ => Err UnexpectedRecords
      | None => index_records (<[key := bytes]> records) proof
      end
  end.

Definition validate_chain_proof (latest : Signed LatestPointer) (owner : VerifyingKey)
    (proof : list (Signed VersionRecord)) : result ChainError (list (Signed VersionRecord)) :=
  if (MAX_CHAIN_LENGTH <? length proof)%nat then Err TooManyVersions else
  records ← index_records ∅ proof;
  validated ← (walk_chain latest owner (lp_domain (body latest)) (lp_package (body latest))
                 (fun key => gets (fun records : gmap Key bytes => records !! key)) records).1;
  if (length validated =? length proof)%nat then Ok validated else Err UnexpectedRecords.
End proofs.

#[global] Opaque MAX_CHAIN_LENGTH.

(** ** What a history is *)

Section history.
Context `{Sha256} `{Ed25519} `{Bincode VersionRecord} `{Bincode LatestPointer}
  `{Bincode (Signed VersionRecord)}.
Context (owner : VerifyingKey) (domain package : string).

(** [r] is the owner's record of this package stored under [k]. *)
Definition record_ok (k : Key) (r : Signed VersionRecord) : Prop :=
  record_key r = Some k /\ vr_tag (body r) = VERSION_RECORD_TAG /\
  vr_domain (body r) = domain /\ vr_package (body r) = package /\ verify r owner = true.

(** A history from key [k], newest first: each record names the next by its
    hash, versions strictly decrease, and the last one names no other. *)
Inductive history : Key -> list (Signed VersionRecord) -> Prop :=
  | history_first k r :
      record_ok k r -> vr_prev (body r) = END_OF_CHAIN -> history k [r]
  | history_more k r older rest :
      record_ok k r -> vr_prev (body r) <> END_OF_CHAIN ->
      history (vr_prev (body r)) (older :: rest) ->
      version_lt (vr_version (body older)) (vr_version (body r)) = true ->
      history k (r :: older :: rest).

Lemma history_head k c : history k c -> exists r rest, c = r :: rest /\ record_ok k r.
Proof. destruct 1; eauto. Qed.

Lemma history_ok k c r : history k c -> r ∈ c -> exists k', record_ok k' r.
Proof.
  induction 1 as [k r0 Hr|k r0 older rest Hr ? ? IH]; intros Hin.
  - apply list_elem_of_singleton in Hin as ->. eauto.
  - apply elem_of_cons in Hin as [->|Hin]; eauto.
Qed.

(** Every older record has a smaller version. *)
Lemma history_decreasing k r rest r' :
  history k (r :: rest) -> r' ∈ rest ->
  version_lt (vr_version (body r')) (vr_version (body r)) = true.
Proof.
  remember (r :: rest) as c eqn:Hc. intros Hh. revert r rest r' Hc.
  induction Hh as [k r0 Hr|k r0 older rest0 Hr ? ? IH Hlt]; intros r rest r' [= -> <-] Hin.
  - by apply not_elem_of_nil in Hin.
  - apply elem_of_cons in Hin as [->|Hin]; [done|].
    pose proof (IH _ _ _ eq_refl Hin). rewrite !version_lt_val in *. lia.
Qed.

Lemma history_tail k r older rest :
  history k (r :: older :: rest) -> history (vr_prev (body r)) (older :: rest).
Proof. by inversion 1. Qed.

Lemma version_lt_irrefl v : version_lt v v = false.
Proof. destruct (version_lt v v) eqn:E; [apply version_lt_val in E; lia|done]. Qed.

Lemma history_NoDup k c : history k c -> NoDup c.
Proof.
  intros Hh. induction Hh as [|k r older rest Hr Hp Hh IH Hlt]; [apply NoDup_singleton|].
  constructor; [|done]. intros Hin.
  assert (history k (r :: older :: rest)) as Hall by by constructor.
  pose proof (history_decreasing _ _ _ _ Hall Hin) as Hbad.
  by rewrite version_lt_irrefl in Hbad.
Qed.

Definition newer_ok (latest : Signed LatestPointer) (newer : option Version) (v : Version) : Prop :=
  match newer with
  | None => v = lp_version (body latest)
  | Some n => version_lt v n = true
  end.

Lemma check_record_Ok latest newer current bs r :
  check_record latest owner domain package newer current bs = Ok r <->
  key_for_value bs = current /\ deserialize bs = Some r /\ record_ok current r /\
  newer_ok latest newer (vr_version (body r)).
Proof.
  unfold check_record, record_ok, newer_ok. split.
  - intros Hc. repeat case_bool_decide; try done.
    all: destruct (deserialize bs) as [r'|]; [|done].
    all: repeat case_bool_decide; simpl in Hc; try done.
    all: destruct (verify r' owner) eqn:Hv; simpl in Hc; [|done].
    all: destruct newer as [n|].
    all: try (destruct (version_le n _) eqn:Hle; [done|]; apply version_le_false in Hle).
    all: repeat case_bool_decide; simplify_eq; repeat split; try done.
    all: try (by apply dec_stable).
    all: auto using dec_stable.
  - intros (Hb & -> & (Hk & Ht & Hd & Hp & Hv) & Hn).
    rewrite !bool_decide_false by (intros Hx; by apply Hx). rewrite Hv. simpl.
    destruct newer as [n|].
    + apply version_le_false in Hn. by rewrite Hn.
    + by rewrite bool_decide_false by (intros Hx; by apply Hx).
Qed.
End history.

(** Two histories from one key agree, or exhibit two different records with
    one hash. *)
Lemma history_unique `{Sha256} `{Ed25519} `{Bincode VersionRecord} `{Bincode (Signed VersionRecord)}
    owner d p owner' d' p' k c1 c2 :
  history owner d p k c1 -> history owner' d' p' k c2 ->
  c1 = c2 \/ exists r1 r2, r1 ∈ c1 /\ r2 ∈ c2 /\ r1 <> r2 /\ record_key r1 = record_key r2.
Proof.
  intros Ha. revert c2. induction Ha as [k r [Hk _] Hend|k r older rest [Hk _] Hend Hh IH Hlt];
    intros c2 Hb; pose proof Hb as (r2 & rest2 & -> & [Hk2 _])%history_head;
    (destruct (decide (r = r2)) as [<-|Hne];
      [|right; exists r, r2; rewrite Hk, Hk2; repeat split; [by left|by left|done]]).
  - inversion Hb; subst; [by left|done].
  - inversion Hb as [|? ? older2 rest2']; subst; [done|].
    destruct (IH (older2 :: rest2')) as [Heq|(r1 & r2 & ? & ? & ? & ?)]; [done| |].
    + left. congruence.
    + right. exists r1, r2. set_solver.
Qed.

(** The part of a history from one of its records on is that record's own. *)
Lemma history_from `{Sha256} `{Ed25519} `{Bincode VersionRecord} `{Bincode (Signed VersionRecord)}
    owner d p k c r :
  history owner d p k c -> r ∈ c ->
  exists k' newer rest, c = newer ++ r :: rest /\ record_key r = Some k' /\
    history owner d p k' (r :: rest).
Proof.
  induction 1 as [k r0 Hr|k r0 older rest Hr Hne Hh IH Hlt]; intros Hin.
  - apply list_elem_of_singleton in Hin as ->. exists k, [], []. split; [done|].
    split; [apply Hr|by constructor].
  - apply elem_of_cons in Hin as [->|Hin].
    + exists k, [], (older :: rest). split; [done|]. split; [apply Hr|by constructor].
    + destruct (IH Hin) as (k' & newer & rest' & Heq & Hk & Hh').
      exists k', (r0 :: newer), rest'. split; [by rewrite Heq|done].
Qed.

(** ** The walker accepts exactly the histories *)

Section walker.
Context `{Sha256} `{Ed25519} `{Bincode VersionRecord} `{Bincode LatestPointer}
  `{Bincode (Signed VersionRecord)} {W : Type}.

Definition pointer_ok (latest : Signed LatestPointer) (owner : VerifyingKey)
    (domain package : string) : Prop :=
  lp_domain (body latest) = domain /\ lp_package (body latest) = package /\
  latest_is_valid latest owner = true /\ lp_version_record_hash (body latest) <> END_OF_CHAIN.

Lemma walk_chain_cases latest owner d p (fetch : Key -> M W (option bytes)) w :
  (pointer_ok latest owner d p /\
   walk_chain latest owner d p fetch w =
   walk_loop latest owner d p fetch MAX_CHAIN_LENGTH
     (lp_version_record_hash (body latest)) ∅ None [] w) \/
  (~ pointer_ok latest owner d p /\
   walk_chain latest owner d p fetch w = (Err InvalidLatestPointer, w)).
Proof.
  unfold walk_chain, pointer_ok.
  destruct (bool_decide (lp_domain _ <> d)) eqn:E1; [right|];
    [split; [|done]; brefl; tauto|].
  destruct (bool_decide (lp_package _ <> p)) eqn:E2; [right|];
    [split; [|done]; brefl; tauto|].
  destruct (latest_is_valid latest owner) eqn:E3; [|right; split; [naive_solver|done]].
  destruct (bool_decide (_ = END_OF_CHAIN)) eqn:E4; [right|left]; (split; [|done]); brefl.
  - tauto.
  - apply dec_stable in E1, E2. done.
Qed.

Lemma walk_loop_sound latest owner d p (fetch : Key -> M W (option bytes)) room :
  forall cur seen newer chain w c w',
  walk_loop latest owner d p fetch room cur seen newer chain w = (Ok c, w') ->
  exists r rest, c = chain ++ r :: rest /\ history owner d p cur (r :: rest) /\
    S (length rest) <= room /\ newer_ok latest newer (vr_version (body r)).
Proof.
  induction room as [|room IH]; intros cur seen newer chain w c w' Hw; simpl in Hw; [done|].
  case_bool_decide as Hseen; mstep in Hw; [done|].
  destruct (fetch cur w).1 as [bs|]; mstep in Hw; [|done].
  destruct (check_record latest owner d p newer cur bs) as [r|e] eqn:Hc; mstep in Hw; [|done].
  apply check_record_Ok in Hc as (_ & _ & Hr & Hn).
  case_bool_decide as Hend; mstep in Hw.
  - injection Hw as <- _. exists r, []. repeat split; try done; [by constructor|simpl; lia].
  - apply IH in Hw as (r' & rest & -> & Hh & Hl & Hlt).
    exists r, (r' :: rest). rewrite <- app_assoc. repeat split; [by constructor|simpl; lia|done].
Qed.

Lemma walk_chain_sound latest owner d p (fetch : Key -> M W (option bytes)) w c w' :
  walk_chain latest owner d p fetch w = (Ok c, w') ->
  pointer_ok latest owner d p /\
  history owner d p (lp_version_record_hash (body latest)) c /\
  (vr_version ∘ body <$> head c) = Some (lp_version (body latest)) /\
  length c <= MAX_CHAIN_LENGTH.
Proof.
  destruct (walk_chain_cases latest owner d p fetch w) as [[Hp ->]|[_ ->]]; [|done].
  intros (r & rest & -> & Hh & Hl & Hn)%walk_loop_sound. simpl in *.
  repeat split; try done; [apply Hp..|by rewrite Hn].
Qed.

(** [fetch] answers with the encoding of every record of [c], in every state
    that satisfies [I]. *)
Definition serves (I : W -> Prop) (fetch : Key -> M W (option bytes))
    (c : list (Signed VersionRecord)) : Prop :=
  forall r k w, r ∈ c -> record_key r = Some k -> I w ->
    (fetch k w).1 = serialize r /\ I (fetch k w).2.

Lemma record_key_serialize r k :
  record_key r = Some k -> exists bs, serialize r = Some bs /\ key_for_value bs = k.
Proof.
  unfold record_key. destruct (serialize r) as [bs|]; simpl; [|done].
  intros [= <-]. eauto.
Qed.

Lemma serves_key_inj `{!BincodeLaws (Signed VersionRecord)} I fetch c w r1 r2 k :
  serves I fetch c -> I w -> r1 ∈ c -> r2 ∈ c ->
  record_key r1 = Some k -> record_key r2 = Some k -> r1 = r2.
Proof.
  intros Hs Hw Hin1 Hin2 Hk1 Hk2.
  destruct (Hs r1 k w Hin1 Hk1 Hw) as [E1 _], (Hs r2 k w Hin2 Hk2 Hw) as [E2 _].
  apply record_key_serialize in Hk1 as (bs & Hb & _). rewrite E1, Hb in E2.
  apply deserialize_serialize in Hb. symmetry in E2. apply deserialize_serialize in E2. congruence.
Qed.

Lemma walk_loop_complete `{!BincodeLaws (Signed VersionRecord)}
    latest owner d p (fetch : Key -> M W (option bytes)) I room :
  forall cur seen newer chain r rest w,
  history owner d p cur (r :: rest) -> serves I fetch (r :: rest) -> I w ->
  S (length rest) <= room -> newer_ok latest newer (vr_version (body r)) ->
  (forall r' k, r' ∈ r :: rest -> record_key r' = Some k -> k ∉ seen) ->
  (walk_loop latest owner d p fetch room cur seen newer chain w).1 = Ok (chain ++ r :: rest) /\
  I (walk_loop latest owner d p fetch room cur seen newer chain w).2.
Proof.
  induction room as [|room IH]; intros cur seen newer chain r rest w Hh Hs Hw Hl Hn Hseen; [lia|].
  pose proof (history_head _ _ _ _ _ Hh) as (r0 & rest0 & [= <- <-] & Hok).
  pose proof Hok as (Hk & _).
  destruct (Hs r cur w ltac:(by left) Hk Hw) as [Hfetch Hw'].
  destruct (record_key_serialize _ _ Hk) as (bs & Hb & Hkv).
  simpl. rewrite bool_decide_false by (eapply Hseen; [by left|done]). mstep.
  rewrite Hfetch, Hb.
  assert (check_record latest owner d p newer cur bs = Ok r) as ->.
  { apply check_record_Ok. repeat split; try done; [|apply Hok..]. by apply deserialize_serialize. }
  inversion Hh as [k0 r0 _ Hend|k0 r0 older rest' _ Hend Hh' Hlt]; subst.
  - by rewrite bool_decide_true.
  - rewrite bool_decide_false by done.
    match goal with |- (walk_loop _ _ _ _ _ _ _ ?sn ?nv ?ch ?w0).1 = _ /\ _ =>
      destruct (IH (vr_prev (body r)) sn nv ch older rest' w0) as [-> Hw''] end.
    7: by rewrite <- app_assoc.
    + done.
    + intros r' k' w' ?. apply Hs. set_solver.
    + done.
    + simpl in Hl. lia.
    + done.
    + intros r' k Hin Hk'. apply not_elem_of_union. split; [|eapply Hseen; [by right|done]].
      intros ->%elem_of_singleton.
      assert (r = r') as <- by (eapply (serves_key_inj I fetch); eauto; [by left|by right]).
      pose proof (history_decreasing _ _ _ _ _ _ _ Hh Hin) as Hbad.
      by rewrite version_lt_irrefl in Hbad.
Qed.

Lemma walk_chain_complete `{!BincodeLaws (Signed VersionRecord)}
    latest owner d p (fetch : Key -> M W (option bytes)) I c w :
  pointer_ok latest owner d p ->
  history owner d p (lp_version_record_hash (body latest)) c ->
  (vr_version ∘ body <$> head c) = Some (lp_version (body latest)) ->
  length c <= MAX_CHAIN_LENGTH -> serves I fetch c -> I w ->
  (walk_chain latest owner d p fetch w).1 = Ok c /\ I (walk_chain latest owner d p fetch w).2.
Proof.
  intros Hp Hh Hv Hl Hs Hw.
  destruct (walk_chain_cases latest owner d p fetch w) as [[_ ->]|[? _]]; [|done].
  pose proof Hh as (r & rest & -> & _)%history_head. simpl in Hv, Hl. injection Hv as Hv.
  apply (walk_loop_complete _ _ _ _ _ I _ _ _ _ [] r rest w); try done; set_solver.
Qed.
End walker.

(** ** Proofs supplied with a STORE *)

Section supplied.
Context `{Sha256} `{Ed25519} `{Bincode VersionRecord} `{Bincode LatestPointer}
  `{Bincode (Signed VersionRecord)} `{!BincodeLaws (Signed VersionRecord)}.

(** The index maps exactly the keys of the supplied records. *)
Lemma index_records_spec proof : forall records out,
  index_records records proof = Ok out ->
  forall k bs, out !! k = Some bs ->
    records !! k = Some bs \/
    exists r, r ∈ proof /\ record_key r = Some k /\ serialize r = Some bs.
Proof.
  induction proof as [|r proof IH]; intros records out Hi k bs Hk; simpl in Hi.
  - injection Hi as <-. by left.
  - destruct (record_key r) as [key|] eqn:Hr; simpl in Hi; [|done].
    destruct (serialize r) as [rb|] eqn:Hb; simpl in Hi; [|done].
    destruct (records !! key) eqn:Hold; [done|].
    destruct (IH _ _ Hi _ _ Hk) as [Hin|(r' & ? & ? & ?)]; [|right; set_solver].
    destruct (decide (k = key)) as [->|Hne].
    + rewrite lookup_insert_eq in Hin. injection Hin as <-. right. exists r. set_solver.
    + rewrite lookup_insert_ne in Hin by done. by left.
Qed.

Lemma index_records_complete proof : forall records,
  (forall r, r ∈ proof -> is_Some (record_key r)) ->
  NoDup (record_key <$> proof) ->
  (forall r k, r ∈ proof -> record_key r = Some k -> records !! k = None) ->
  exists out, index_records records proof = Ok out /\
    (forall k bs, records !! k = Some bs -> out !! k = Some bs) /\
    (forall r k, r ∈ proof -> record_key r = Some k -> out !! k = serialize r).
Proof.
  induction proof as [|r proof IH]; intros records Hsome Hnd Hfresh; simpl.
  { exists records. set_solver. }
  destruct (Hsome r) as [key Hr]; [by left|]. rewrite Hr. simpl.
  destruct (record_key_serialize _ _ Hr) as (bs & Hb & _). rewrite Hb. simpl.
  rewrite (Hfresh r key) by (done || by left).
  apply NoDup_cons in Hnd as [Hnew Hnd].
  destruct (IH (<[key := bs]> records)) as (out & Hout & Hkeep & Hall); [set_solver|done| |].
  { intros r' k Hin Hk. rewrite lookup_insert_ne; [eapply Hfresh; [by right|done]|].
    intros ->. apply Hnew. rewrite Hr, <- Hk. by apply list_elem_of_fmap_2. }
  exists out. split; [done|]. split.
  - intros k bs' Hk. apply Hkeep. rewrite lookup_insert_ne; [done|].
    intros ->. by rewrite (Hfresh r k) in Hk by (done || by left).
  - intros r' k [->|Hin]%elem_of_cons Hk; [|by apply Hall].
    simplify_eq. rewrite Hb. apply Hkeep. apply lookup_insert_eq.
Qed.

(** The records a walk over an index returns are records of the index. *)
Lemma walk_indexed latest owner d p out proof (c : list (Signed VersionRecord)) :
  index_records ∅ proof = Ok out ->
  (walk_chain latest owner d p (fun k => gets (fun m : gmap Key bytes => m !! k)) out).1 = Ok c ->
  c ⊆ proof.
Proof.
  intros Hi Hw.
  destruct (walk_chain_cases latest owner d p (fun k => gets (fun m : gmap Key bytes => m !! k)) out)
    as [[_ Heq]|[_ Heq]]; rewrite Heq in Hw; [|done]. clear Heq.
  revert Hw. generalize MAX_CHAIN_LENGTH (lp_version_record_hash (body latest))
    (∅ : gset Key) (None : option Version).
  assert (([] : list (Signed VersionRecord)) ⊆ proof) as Hc by set_solver. revert Hc.
  generalize (@nil (Signed VersionRecord)). intros chain Hc room. revert chain Hc.
  induction room as [|room IH]; intros chain Hc cur seen newer Hw; simpl in Hw; [done|].
  case_bool_decide; mstep in Hw; [done|]. simpl in Hw.
  destruct (out !! cur) as [bs|] eqn:Hf; mstep in Hw; [|done].
  destruct (check_record latest owner d p newer cur bs) as [r|e] eqn:Hr; mstep in Hw; [|done].
  apply check_record_Ok in Hr as (_ & Hdes & _).
  destruct (index_records_spec _ _ _ Hi _ _ Hf) as [?|(r' & Hin & _ & Hser)]; [done|].
  apply deserialize_serialize in Hser. assert (r' = r) as -> by congruence.
  assert (chain ++ [r] ⊆ proof) as Hc' by set_solver.
  case_bool_decide; mstep in Hw; [|by eapply IH in Hw].
  by injection Hw as <-.
Qed.

(** An accepted proof is the pointer's history, in some order. *)
Lemma validate_sound latest owner proof c :
  validate_chain_proof latest owner proof = Ok c ->
  pointer_ok latest owner (lp_domain (body latest)) (lp_package (body latest)) /\
  history owner (lp_domain (body latest)) (lp_package (body latest))
    (lp_version_record_hash (body latest)) c /\
  (vr_version ∘ body <$> head c) = Some (lp_version (body latest)) /\
  Permutation c proof.
Proof.
  unfold validate_chain_proof. destruct (_ <? _); [done|].
  destruct (index_records ∅ proof) as [out|] eqn:Hi; simpl; [|done].
  match goal with |- context [walk_chain ?a ?b ?d ?p ?f ?s] =>
    destruct (walk_chain a b d p f s) as [[c'|] w'] eqn:Hw; simpl; [|done] end.
  destruct (_ =? _) eqn:Hl; [|done]. intros [= ->]. apply Nat.eqb_eq in Hl.
  pose proof (walk_chain_sound _ _ _ _ _ _ _ _ Hw) as (Hp & Hh & Hv & _).
  repeat split; try done; [apply Hp..|].
  apply submseteq_length_Permutation; [|lia].
  apply NoDup_submseteq; [by eapply history_NoDup|].
  eapply walk_indexed; [done|]. by rewrite Hw.
Qed.

(** The complete history is accepted in any order, unless two of its records
    share a hash. *)
Lemma validate_complete latest owner proof c :
  pointer_ok latest owner (lp_domain (body latest)) (lp_package (body latest)) ->
  history owner (lp_domain (body latest)) (lp_package (body latest))
    (lp_version_record_hash (body latest)) c ->
  (vr_version ∘ body <$> head c) = Some (lp_version (body latest)) ->
  Permutation c proof -> (length c <= MAX_CHAIN_LENGTH)%nat -> NoDup (record_key <$> c) ->
  validate_chain_proof latest owner proof = Ok c.
Proof.
  intros Hp Hh Hv Hperm Hlen Hnd. unfold validate_chain_proof.
  rewrite <- Hperm. destruct (Nat.ltb_spec MAX_CHAIN_LENGTH (length c)); [lia|].
  destruct (index_records_complete proof ∅) as (out & -> & _ & Hout).
  - intros r Hin. rewrite <- Hperm in Hin.
    destruct (history_ok _ _ _ _ _ _ Hh Hin) as (k & Hk & _). by rewrite Hk.
  - by rewrite <- Hperm.
  - done.
  - simpl. match goal with |- context [walk_chain ?l ?o ?d ?p ?f ?w] =>
      destruct (walk_chain_complete l o d p f (fun m => m = out) c w) as [-> _]; try done end.
    + intros r k w Hin Hk ->. rewrite Hperm in Hin. split; [|done]. simpl. by apply Hout.
    + simpl. by rewrite (Permutation_length Hperm), Nat.eqb_refl.
Qed.
End supplied.

(** ** Comparing two histories *)

Lemma ends_with_spec {A} `{EqDecision A} (l needle : list A) :
  ends_with l needle = true <-> needle `suffix_of` l.
Proof.
  unfold ends_with. rewrite andb_true_iff, Nat.leb_le, bool_decide_eq_true. split.
  - intros [Hl Hd]. exists (take (length l - length needle) l).
    rewrite <- Hd at 2. by rewrite take_drop.
  - intros [pre ->]. rewrite length_app. split; [lia|].
    replace (length pre + length needle - length needle) with (length pre) by lia.
    by rewrite drop_app_length.
Qed.

Definition one_package (stored proposed : list (Signed VersionRecord)) : Prop :=
  forall r1 r2, r1 ∈ stored ++ proposed -> r2 ∈ stored ++ proposed ->
    vr_domain (body r1) = vr_domain (body r2) /\ vr_package (body r1) = vr_package (body r2).

Lemma one_package_test first stored proposed :
  existsb (fun r => negb (in_package (vr_domain (body first)) (vr_package (body first)) r))
    ((first :: stored) ++ proposed) = false <->
  one_package (first :: stored) proposed.
Proof.
  rewrite <- not_true_iff_false, existsb_exists. unfold in_package. split.
  - intros Hno.
    assert (forall r, r ∈ (first :: stored) ++ proposed ->
      vr_domain (body r) = vr_domain (body first) /\ vr_package (body r) = vr_package (body first)) as Hall.
    { intros r Hin. destruct (in_package (vr_domain (body first)) (vr_package (body first)) r) eqn:E.
      - unfold in_package in E. by brefl.
      - destruct Hno. exists r. split; [by apply list_elem_of_In|]. unfold in_package in E. by rewrite E. }
    intros r1 r2 [-> ->]%Hall [-> ->]%Hall. done.
  - intros Hone (r & Hin%list_elem_of_In & Hr).
    destruct (Hone r first Hin) as [Hd Hp]; [by left|].
    by rewrite !bool_decide_true in Hr by done.
Qed.

(** What each answer of [compare_chains] means. *)
Definition relates (stored proposed : list (Signed VersionRecord)) (rel : ChainRelation) : Prop :=
  match rel with
  | Same => stored = proposed
  | Extends => stored `suffix_of` proposed /\ stored <> proposed
  | Rollback => proposed `suffix_of` stored /\ stored <> proposed
  | Fork => ~ stored `suffix_of` proposed /\ ~ proposed `suffix_of` stored
  end.

Lemma compare_chains_spec stored proposed rel :
  compare_chains stored proposed = Ok rel <->
  stored <> [] /\ proposed <> [] /\ one_package stored proposed /\ relates stored proposed rel.
Proof.
  destruct stored as [|first stored]; [naive_solver|].
  destruct proposed as [|p0 proposed]; [naive_solver|].
  cbn [compare_chains].
  set (st := first :: stored). set (pr := p0 :: proposed).
  pose proof (one_package_test first stored pr) as Ho. fold st in Ho.
  destruct (existsb _ _).
  { split; [done|]. intros (_ & _ & Hone & _). by apply Ho in Hone. }
  assert (one_package st pr) as Hone by by apply Ho. clear Ho.
  pose proof (ends_with_spec pr st) as He. pose proof (ends_with_spec st pr) as He'.
  case_bool_decide as Hsame.
  - split; [intros [= <-]; done|]. intros (_ & _ & _ & Hrel). destruct rel; simpl in Hrel.
    + done.
    + by destruct Hrel.
    + by destruct Hrel.
    + destruct Hrel as [[] _]. by rewrite Hsame.
  - destruct (ends_with pr st).
    + assert (st `suffix_of` pr) as Hs by tauto.
      split; [intros [= <-]; done|]. intros (_ & _ & _ & Hrel). destruct rel; simpl in Hrel; try tauto.
      destruct Hsame. destruct Hrel as [Hrel _].
      destruct Hs as [l1 H1], Hrel as [l2 H2].
      assert (l2 = []) as ->; [|done]. apply length_zero_iff_nil.
      apply (f_equal length) in H1, H2. rewrite length_app in H1, H2. lia.
    + destruct (ends_with st pr); (split; [intros [= <-]; simpl|intros (_ & _ & _ & Hrel)]).
      * split_and!; try done. by apply He'.
      * destruct rel; simpl in Hrel; try tauto. exfalso. intuition congruence.
      * split_and!; try done; intuition congruence.
      * destruct rel; simpl in Hrel; try tauto; exfalso; intuition congruence.
Qed.

Definition mirror (rel : ChainRelation) : ChainRelation :=
  match rel with Same => Same | Extends => Rollback | Rollback => Extends | Fork => Fork end.

Lemma relates_mirror stored proposed rel :
  relates stored proposed rel -> relates proposed stored (mirror rel).
Proof. destruct rel; simpl; naive_solver. Qed.

(** The proposed chain of an extension has a strictly newer head. *)
Lemma extends_newer `{Sha256} `{Ed25519} `{Bincode VersionRecord} `{Bincode (Signed VersionRecord)}
    owner d p k k' s stored pr proposed :
  history owner d p k (s :: stored) -> history owner d p k' (pr :: proposed) ->
  compare_chains (s :: stored) (pr :: proposed) = Ok Extends ->
  version_lt (vr_version (body s)) (vr_version (body pr)) = true.
Proof.
  intros Hs Hp (_ & _ & _ & [pre Hpre] & Hne)%compare_chains_spec.
  destruct pre as [|x pre]; simpl in Hpre; [congruence|]. injection Hpre as -> Hpre.
  eapply history_decreasing; [exact Hp|]. set_solver.
Qed.
