(* ===== verification/Wire.v ===== *)
(** * Wire: request ids, framing and method tags

    Models the id bit of [src/rpc_transport.rs], [frame_reply], [Method],
    [Request] and [parse_framed] of [src/handle_rpc.rs], and the request
    framing the client side writes ([Rpc::call] in [src/rpc.rs], the datagram
    of [retry_transport.rs]).  The two sides agree: what one frames the other
    reads back, and a reply is never taken for a request. *)

From S2P Require Import Prelude Slices Machine Contacts Crates Text Package.

(** ** [std::io::Error] *)

Inductive ErrorKind : Type :=
  | TimedOut
  | ConnectionRefused
  | ConnectionReset
  | InvalidData
  | UnexpectedEof
  | OtherKind (name : string).

#[export] Instance ErrorKind_eq_dec : EqDecision ErrorKind.
Proof. solve_decision. Defined.

Record IoError : Type := MkIoError { kind : ErrorKind; message : string }.

#[export] Instance IoError_eq_dec : EqDecision IoError.
Proof. solve_decision. Defined.

(** ** Ids and [REPLY_TAG] *)

Definition REPLY_TAG : N := N.shiftl 1 63.

(** [!x] on a [u64]. *)
Definition not_u64 (n : N) : N := N.lxor n (N.ones 64).

Definition request_id (id : u64) : u64 := wrap 64 (N.land (uval id) (not_u64 REPLY_TAG)).
Definition reply_id (id : u64) : u64 := wrap 64 (N.lor (uval id) REPLY_TAG).
Definition is_reply (id : u64) : bool := negb (N.land (uval id) REPLY_TAG =? 0)%N.

(** [u64::to_be_bytes] and [u64::from_be_bytes]. *)
Definition to_be_bytes (id : u64) : bytes := be_bytes 8 (uval id).
Definition from_be_bytes (l : bytes) : u64 := wrap 64 (be_val l).

Definition ID_LEN : nat := 8.
Definition NODE_ID_LEN : nat := 32.

Definition frame_reply (id : u64) (body : bytes) : bytes := to_be_bytes (reply_id id) ++ body.

(** The datagram of [RetryTransport::send_receive] and the bytes
    [stream_send_receive] writes. *)
Definition frame_request (id : u64) (payload : bytes) : bytes := to_be_bytes id ++ payload.

(** ** Methods *)

Inductive Method : Type := Ping | Store | FindNode | FindValue.

#[export] Instance Method_eq_dec : EqDecision Method.
Proof. solve_decision. Defined.

Definition Method_ALL : list Method := [Ping; Store; FindNode; FindValue].

Definition tag (m : Method) : bytes :=
  match m with
  | Ping => as_bytes "PING"
  | Store => as_bytes "STORE"
  | FindNode => as_bytes "FIND_NODE"
  | FindValue => as_bytes "FIND_VALUE"
  end.

(** [<[u8]>::strip_prefix]. *)
Fixpoint strip_bytes (prefix l : bytes) : option bytes :=
  match prefix, l with
  | [], _ => Some l
  | b :: prefix, c :: l => if bool_decide (b = c) then strip_bytes prefix l else None
  | _, _ => None
  end.

Definition split_tag (payload : bytes) : option (Method * bytes) :=
  find_map (fun method => (fun body => (method, body)) <$> strip_bytes (tag method) payload) Method_ALL.

(** ** Requests *)

(** [<[T]>::split_at_checked]. *)
Definition split_at_checked {A} (n : nat) (l : list A) : option (list A * list A) :=
  if n <=? length l then Some (take n l, drop n l) else None.

Record Request : Type := MkRequest {
  req_id : u64;
  req_from : SocketAddr;
  from_is_reachable : bool;
  req_payload : bytes
}.

Definition from_datagram (from : SocketAddr) (datagram : bytes) : option Request :=
  '(id, payload) ← split_at_checked ID_LEN datagram;
  Some (MkRequest (from_be_bytes id) from true payload).

Definition from_connection (from : SocketAddr) (datagram : bytes) : option Request :=
  r ← from_datagram from datagram;
  Some (MkRequest (req_id r) (req_from r) false (req_payload r)).

Definition parse_framed (payload : bytes) : option (NodeId * Method * bytes) :=
  '(sender, rest) ← split_at_checked NODE_ID_LEN payload;
  '(method, body) ← split_tag rest;
  sender_id ← array_of 32 sender;
  Some (sender_id, method, body).

(** What [Rpc::call] puts on the wire for [method]: our id, the tag, the body. *)
Definition rpc_request (my_id : NodeId) (method : Method) (body : bytes) : bytes :=
  elems my_id ++ tag method ++ body.

(** ** Ids *)

Lemma u64_bits_above (id : u64) i : (64 <= i)%N -> N.testbit (uval id) i = false.
Proof.
  intros Hi. pose proof (uint_bound id) as Hb.
  rewrite <- (N.mod_small _ _ Hb). by apply N.mod_pow2_bits_high.
Qed.

Lemma REPLY_TAG_bits i : N.testbit REPLY_TAG i = bool_decide (i = 63%N).
Proof.
  unfold REPLY_TAG. rewrite N.shiftl_1_l, N.pow2_bits_eqb.
  case_bool_decide; [by apply N.eqb_eq|apply N.eqb_neq; congruence].
Qed.

Lemma request_id_bits id i :
  N.testbit (uval (request_id id)) i = N.testbit (uval id) i && bool_decide (i <> 63%N).
Proof.
  unfold request_id, not_u64. rewrite uval_wrap.
  destruct (N.lt_ge_cases i 64) as [Hi|Hi].
  - rewrite N.mod_pow2_bits_low by done.
    rewrite N.land_spec, N.lxor_spec, REPLY_TAG_bits, N.ones_spec_low by done.
    f_equal. repeat case_bool_decide; done.
  - rewrite N.mod_pow2_bits_high by done. by rewrite u64_bits_above.
Qed.

Lemma reply_id_bits id i :
  N.testbit (uval (reply_id id)) i = N.testbit (uval id) i || bool_decide (i = 63%N).
Proof.
  unfold reply_id. rewrite uval_wrap.
  destruct (N.lt_ge_cases i 64) as [Hi|Hi].
  - by rewrite N.mod_pow2_bits_low, N.lor_spec, REPLY_TAG_bits by done.
  - rewrite N.mod_pow2_bits_high, u64_bits_above by done.
    rewrite bool_decide_false; [done|]. intros ->. lia.
Qed.

Lemma is_reply_bit id : is_reply id = N.testbit (uval id) 63.
Proof.
  unfold is_reply. replace REPLY_TAG with (2 ^ 63)%N by done.
  destruct (N.testbit (uval id) 63) eqn:E.
  - apply negb_true_iff, N.eqb_neq. intros Hz. apply (f_equal (fun n => N.testbit n 63)) in Hz.
    by rewrite N.land_spec, E, N.pow2_bits_true in Hz.
  - apply negb_false_iff, N.eqb_eq, N.bits_inj. intros i.
    rewrite N.land_spec, N.pow2_bits_eqb, N.bits_0.
    destruct (N.eqb_spec 63 i) as [<-|]; [by rewrite E|by rewrite andb_false_r].
Qed.

Lemma u64_bits_inj (a b : u64) : (forall i, N.testbit (uval a) i = N.testbit (uval b) i) -> a = b.
Proof. intros Hi. apply uint_eq, N.bits_inj. exact Hi. Qed.

(** Bitwise reasoning on ids. *)
Ltac id_bits :=
  apply u64_bits_inj; intros i; rewrite ?request_id_bits, ?reply_id_bits, ?request_id_bits;
  repeat case_bool_decide; rewrite ?andb_true_r, ?andb_false_r, ?orb_true_r, ?orb_false_r; try done.

Lemma request_id_reply_id id : request_id (reply_id id) = request_id id.
Proof. id_bits. Qed.

Lemma is_reply_reply_id id : is_reply (reply_id id) = true.
Proof. by rewrite is_reply_bit, reply_id_bits, orb_true_r. Qed.

Lemma is_reply_request_id id : is_reply (request_id id) = false.
Proof. by rewrite is_reply_bit, request_id_bits, andb_false_r. Qed.

Lemma request_id_of_request id : is_reply id = false -> request_id id = id.
Proof. rewrite is_reply_bit. intros E. id_bits. by subst. Qed.

Lemma request_id_idemp id : request_id (request_id id) = request_id id.
Proof. apply request_id_of_request, is_reply_request_id. Qed.

Lemma reply_id_request_id id : is_reply id = true -> reply_id (request_id id) = id.
Proof. rewrite is_reply_bit. intros E. id_bits. by subst. Qed.

Lemma to_be_bytes_length id : length (to_be_bytes id) = ID_LEN.
Proof. apply be_bytes_length. Qed.

Lemma from_to_be_bytes id : from_be_bytes (to_be_bytes id) = id.
Proof.
  unfold from_be_bytes, to_be_bytes. rewrite be_val_be_bytes.
  replace (256 ^ N.of_nat 8)%N with (2 ^ 64)%N by done.
  rewrite N.mod_small by apply uint_bound. apply wrap_uval.
Qed.

(** ** Framing *)

Lemma split_at_app {A} n (l l' : list A) : length l = n -> split_at_checked n (l ++ l') = Some (l, l').
Proof.
  intros <-. unfold split_at_checked. rewrite length_app.
  destruct (Nat.leb_spec (length l) (length l + length l')); [|lia].
  by rewrite take_app_length, drop_app_length.
Qed.

Lemma split_at_Some {A} n (l a b : list A) :
  split_at_checked n l = Some (a, b) <-> l = a ++ b /\ length a = n.
Proof.
  split; [|intros [-> <-]; by apply split_at_app].
  unfold split_at_checked. destruct (Nat.leb_spec n (length l)); [|done].
  intros [= <- <-]. rewrite take_drop, length_take. split; [done|lia].
Qed.

Lemma from_datagram_request from id payload :
  from_datagram from (frame_request id payload) = Some (MkRequest id from true payload).
Proof.
  unfold from_datagram, frame_request. rewrite split_at_app by apply to_be_bytes_length.
  simpl. by rewrite from_to_be_bytes.
Qed.

Lemma from_connection_request from id payload :
  from_connection from (frame_request id payload) = Some (MkRequest id from false payload).
Proof. unfold from_connection. by rewrite from_datagram_request. Qed.

Lemma strip_bytes_Some p l r : strip_bytes p l = Some r <-> l = p ++ r.
Proof.
  revert l. induction p as [|b p IH]; intros [|c l]; simpl; try naive_solver.
  case_bool_decide as E; [subst; rewrite IH; naive_solver|naive_solver].
Qed.

Lemma split_tag_tag m body : split_tag (tag m ++ body) = Some (m, body).
Proof. by destruct m. Qed.

Lemma split_tag_Some payload m body : split_tag payload = Some (m, body) <-> payload = tag m ++ body.
Proof.
  split; [|intros ->; apply split_tag_tag].
  intros (m' & Hm)%find_map_Some.
  destruct (strip_bytes (tag m') payload) eqn:E; simpl in Hm; [|done].
  injection Hm as -> ->. by apply strip_bytes_Some.
Qed.

(** [parse_framed] accepts exactly what [Rpc::call] writes. *)
Lemma parse_framed_Some payload sender m body :
  parse_framed payload = Some (sender, m, body) <-> payload = rpc_request sender m body.
Proof.
  unfold parse_framed, rpc_request. split.
  - destruct (split_at_checked _ payload) as [[s rest]|] eqn:E1; simpl; [|done].
    apply split_at_Some in E1 as [-> Hl].
    destruct (split_tag rest) as [[m' body']|] eqn:E2; simpl; [|done].
    apply split_tag_Some in E2 as ->.
    destruct (array_of 32 s) as [sid|] eqn:E3; simpl; [|done].
    apply array_of_Some in E3 as <-. by intros [= -> -> ->].
  - intros ->. rewrite split_at_app by apply array_length. simpl.
    by rewrite split_tag_tag; simpl; rewrite array_of_elems.
Qed.
