(* ===== verification/Pending.v ===== *)
(** * Pending: the pool of in-flight requests

    Models [src/pending.rs]: the slots by request id, the one-shot channel
    behind each, and the four operations that touch them ([register],
    [deliver], [poll] and the [Drop] of [PendingResponse]).  Each is one atomic
    step on the shared pool (the entry API and [remove_if] hold the shard
    lock), so every interleaving of tasks is a sequence of these steps; the
    theorems are about all such sequences. *)

From S2P Require Import Prelude Machine Contacts Wire.

(** A [tokio::sync::oneshot] channel: what was sent, and which halves live. *)
Record Channel : Type := MkChannel {
  ch_value : option bytes;
  tx_alive : bool;
  rx_alive : bool
}.

Record PendingSlot : Type := MkPendingSlot {
  expected_peer : SocketAddr;
  tx : N
}.

Record Pending : Type := MkPending {
  slots : gmap u64 PendingSlot;
  channels : gmap N Channel;
  next_channel : N
}.

(** The awaitable half. *)
Record PendingResponse : Type := MkPendingResponse {
  pr_id : u64;
  rx : N
}.

Inductive Poll (A : Type) : Type := Ready (a : A) | NotReady.
Arguments Ready {A} a.
Arguments NotReady {A}.

Definition pending_new : Pending := MkPending ∅ ∅ 0.

(** [oneshot::channel()]. *)
Definition oneshot_channel : M Pending N :=
  fun p => (next_channel p,
    MkPending (slots p) (<[next_channel p := MkChannel None true true]> (channels p))
      (next_channel p + 1)).

(** [Sender::send], which consumes the sender: [false] when the receiver is gone. *)
Definition oneshot_send (c : N) (payload : bytes) : M Pending bool :=
  fun p =>
    match channels p !! c with
    | Some ch =>
        if rx_alive ch
        then (true, MkPending (slots p) (<[c := MkChannel (Some payload) false true]> (channels p)) (next_channel p))
        else (false, MkPending (slots p) (<[c := MkChannel (ch_value ch) false false]> (channels p)) (next_channel p))
    | None => (false, p)
    end.

Definition drop_sender (c : N) (p : Pending) : Pending :=
  match channels p !! c with
  | Some ch => MkPending (slots p) (<[c := MkChannel (ch_value ch) false (rx_alive ch)]> (channels p)) (next_channel p)
  | None => p
  end.

Definition drop_receiver (c : N) (p : Pending) : Pending :=
  match channels p !! c with
  | Some ch => MkPending (slots p) (<[c := MkChannel (ch_value ch) (tx_alive ch) false]> (channels p)) (next_channel p)
  | None => p
  end.

Definition set_slots (f : gmap u64 PendingSlot -> gmap u64 PendingSlot) (p : Pending) : Pending :=
  MkPending (f (slots p)) (channels p) (next_channel p).

Definition register (id : u64) (expected_peer : SocketAddr) : M Pending (option PendingResponse) :=
  c ← oneshot_channel;
  s ← get;
  match slots s !! id with
  | None =>
      modify (set_slots <[id := MkPendingSlot expected_peer c]>);;
      mret (Some (MkPendingResponse id c))
  | Some _ =>
      (* both halves of the unused channel are dropped *)
      modify (drop_receiver c ∘ drop_sender c);;
      mret None
  end.

Definition deliver (id : u64) (from : SocketAddr) (payload : bytes) : M Pending bool :=
  p ← get;
  match slots p !! id with
  | Some slot =>
      if bool_decide (expected_peer slot = from)
      then modify (set_slots (delete id));; oneshot_send (tx slot) payload
      else mret false
  | None => mret false
  end.

(** Polling the future: [None] when the sender went away without a value. *)
Definition poll (r : PendingResponse) (p : Pending) : Poll (option bytes) :=
  match channels p !! rx r with
  | Some ch =>
      match ch_value ch with
      | Some v => Ready (Some v)
      | None => if tx_alive ch then NotReady else Ready None
      end
  | None => Ready None
  end.

(** [Drop for PendingResponse]: the slot under our id goes, whoever's it is. *)
Definition drop_response (r : PendingResponse) : M Pending unit :=
  p ← get;
  match slots p !! pr_id r with
  | Some slot => modify (drop_sender (tx slot) ∘ set_slots (delete (pr_id r)))
  | None => mret tt
  end;;
  modify (drop_receiver (rx r)).

(** ** Steps and histories *)

Inductive Event : Type :=
  | Registered (id : u64) (peer : SocketAddr) (got : option PendingResponse)
  | Delivered (id : u64) (from : SocketAddr) (payload : bytes) (taken : bool)
  | Dropped (r : PendingResponse).

(** One atomic operation, with the event it is. *)
Inductive pending_step : Pending -> Event -> Pending -> Prop :=
  | step_register id peer p :
      pending_step p (Registered id peer (register id peer p).1) (register id peer p).2
  | step_deliver id from payload p :
      pending_step p (Delivered id from payload (deliver id from payload p).1) (deliver id from payload p).2
  | step_drop r p : pending_step p (Dropped r) (drop_response r p).2.

(** Only a response that was handed out and is still held can be dropped. *)
Definition admissible (tr : list Event) (e : Event) : Prop :=
  match e with
  | Dropped r => (exists id peer, Registered id peer (Some r) ∈ tr) /\ Dropped r ∉ tr
  | _ => True
  end.

(** Histories, latest event first. *)
Inductive pending_run : list Event -> Pending -> Prop :=
  | run_new : pending_run [] pending_new
  | run_step tr p e p' :
      pending_run tr p -> admissible tr e -> pending_step p e p' -> pending_run (e :: tr) p'.

(** ** The operations, case by case *)

Lemma register_vacant id peer p :
  slots p !! id = None ->
  register id peer p =
  (Some (MkPendingResponse id (next_channel p)),
   MkPending (<[id := MkPendingSlot peer (next_channel p)]> (slots p))
     (<[next_channel p := MkChannel None true true]> (channels p)) (next_channel p + 1)).
Proof. intros E. unfold register. mstep. simpl. by rewrite E. Qed.

Lemma register_occupied id peer p s :
  slots p !! id = Some s ->
  register id peer p =
  (None, MkPending (slots p)
     (<[next_channel p := MkChannel None false false]> (channels p)) (next_channel p + 1)).
Proof.
  intros E. unfold register. mstep. simpl. rewrite E. mstep. simpl.
  unfold drop_sender, drop_receiver. simpl. rewrite lookup_insert_eq. simpl.
  rewrite lookup_insert_eq. simpl. by rewrite !insert_insert_eq.
Qed.

Lemma deliver_other id from payload p :
  (forall s, slots p !! id = Some s -> expected_peer s <> from) ->
  deliver id from payload p = (false, p).
Proof.
  intros H. unfold deliver. mstep. simpl. destruct (slots p !! id) as [s|]; [|done].
  by rewrite bool_decide_false by by apply H.
Qed.

Lemma deliver_match id s payload p ch :
  slots p !! id = Some s -> channels p !! tx s = Some ch ->
  deliver id (expected_peer s) payload p =
  (rx_alive ch,
   MkPending (delete id (slots p))
     (<[tx s := MkChannel (if rx_alive ch then Some payload else ch_value ch) false (rx_alive ch)]> (channels p))
     (next_channel p)).
Proof.
  intros Hs Hc. unfold deliver. mstep. simpl. rewrite Hs, bool_decide_true by done.
  mstep. simpl. unfold oneshot_send. simpl. rewrite Hc. by destruct (rx_alive ch).
Qed.

(** What dropping a response does to the channel of number [c]. *)
Definition after_drop (r : PendingResponse) (p : Pending) (c : N) (ch : Channel) : Channel :=
  MkChannel (ch_value ch)
    (tx_alive ch && negb (bool_decide (tx <$> slots p !! pr_id r = Some c)))
    (rx_alive ch && negb (bool_decide (rx r = c))).

Lemma drop_sender_lookup c p c' :
  channels (drop_sender c p) !! c' =
  (fun ch => MkChannel (ch_value ch) (tx_alive ch && negb (bool_decide (c = c'))) (rx_alive ch))
    <$> channels p !! c'.
Proof.
  unfold drop_sender. destruct (channels p !! c) as [ch|] eqn:E; simpl.
  - destruct (decide (c = c')) as [->|Hne].
    + rewrite lookup_insert_eq, E. simpl. by rewrite bool_decide_true, andb_false_r by done.
    + rewrite lookup_insert_ne, bool_decide_false by done.
      by destruct (channels p !! c') as [[]|]; simpl; rewrite ?andb_true_r.
  - destruct (channels p !! c') as [[]|] eqn:E'; simpl; [|done].
    rewrite bool_decide_false by congruence. by rewrite andb_true_r.
Qed.

Lemma drop_receiver_lookup c p c' :
  channels (drop_receiver c p) !! c' =
  (fun ch => MkChannel (ch_value ch) (tx_alive ch) (rx_alive ch && negb (bool_decide (c = c'))))
    <$> channels p !! c'.
Proof.
  unfold drop_receiver. destruct (channels p !! c) as [ch|] eqn:E; simpl.
  - destruct (decide (c = c')) as [->|Hne].
    + rewrite lookup_insert_eq, E. simpl. by rewrite bool_decide_true, andb_false_r by done.
    + rewrite lookup_insert_ne, bool_decide_false by done.
      by destruct (channels p !! c') as [[]|]; simpl; rewrite ?andb_true_r.
  - destruct (channels p !! c') as [[]|] eqn:E'; simpl; [|done].
    rewrite bool_decide_false by congruence. by rewrite andb_true_r.
Qed.

Lemma drop_sender_rest c p :
  slots (drop_sender c p) = slots p /\ next_channel (drop_sender c p) = next_channel p.
Proof. unfold drop_sender. by destruct (channels p !! c). Qed.

Lemma drop_receiver_rest c p :
  slots (drop_receiver c p) = slots p /\ next_channel (drop_receiver c p) = next_channel p.
Proof. unfold drop_receiver. by destruct (channels p !! c). Qed.

Lemma drop_response_spec r p :
  let p' := (drop_response r p).2 in
  slots p' = delete (pr_id r) (slots p) /\ next_channel p' = next_channel p /\
  forall c, channels p' !! c = after_drop r p c <$> channels p !! c.
Proof.
  unfold drop_response. mstep. simpl. unfold after_drop.
  destruct (drop_receiver_rest (rx r)
    ((match slots p !! pr_id r with
      | Some slot => modify (drop_sender (tx slot) ∘ set_slots (delete (pr_id r)))
      | None => mret tt
      end) p).2) as [Hs Hn].
  split_and!; [rewrite Hs|rewrite Hn|intros c; rewrite drop_receiver_lookup];
    destruct (slots p !! pr_id r) as [s|] eqn:E; simpl.
  - apply drop_sender_rest.
  - by rewrite delete_id.
  - apply (drop_sender_rest (tx s) (set_slots (delete (pr_id r)) p)).
  - done.
  - rewrite drop_sender_lookup. simpl. destruct (channels p !! c) as [ch|]; simpl; [|done].
    f_equal. f_equal. f_equal. f_equal. apply bool_decide_ext. naive_solver.
  - destruct (channels p !! c) as [[]|]; simpl; [|done].
    by rewrite andb_true_r.
Qed.

(** ** The invariant of every history *)

(** [e2] happened after [e1]. *)
Definition since (tr : list Event) (e1 e2 : Event) : Prop :=
  exists later earlier, tr = later ++ e1 :: earlier /\ e2 ∈ later.

Lemma since_cons tr e e1 e2 : since tr e1 e2 -> since (e :: tr) e1 e2.
Proof. intros (l & r & -> & Hin). exists (e :: l), r. split; [done|by right]. Qed.

Lemma since_now tr e1 e2 : e1 ∈ tr -> since (e2 :: tr) e1 e2.
Proof.
  intros (l & r & ->)%list_elem_of_split. exists (e2 :: l), r. split; [done|by left].
Qed.

Record pinv (tr : list Event) (p : Pending) : Prop := {
  pi_chan c ch : channels p !! c = Some ch -> (c < next_channel p)%N;
  pi_slot id s : slots p !! id = Some s ->
    Registered id (expected_peer s) (Some (MkPendingResponse id (tx s))) ∈ tr /\
    exists alive, channels p !! tx s = Some (MkChannel None true alive);
  pi_value c ch v : channels p !! c = Some ch -> ch_value ch = Some v ->
    exists id peer,
      since tr (Registered id peer (Some (MkPendingResponse id c))) (Delivered id peer v true);
  pi_reg id peer r : Registered id peer (Some r) ∈ tr -> pr_id r = id /\ (rx r < next_channel p)%N;
  pi_uniq id peer r id' peer' r' :
    Registered id peer (Some r) ∈ tr -> Registered id' peer' (Some r') ∈ tr ->
    rx r = rx r' -> id = id' /\ peer = peer'
}.

(** Slots of different ids hold different channels. *)
Lemma pinv_slot_inj tr p id id' s s' :
  pinv tr p -> slots p !! id = Some s -> slots p !! id' = Some s' -> tx s = tx s' -> id = id'.
Proof.
  intros Hp Hs Hs' Ht. apply (pi_slot _ _ Hp) in Hs as [Hs _], Hs' as [Hs' _].
  by destruct (pi_uniq _ _ Hp _ _ _ _ _ _ Hs Hs' Ht).
Qed.

Lemma pinv_new : pinv [] pending_new.
Proof. split; set_solver. Qed.

Lemma pinv_skip tr p e :
  (forall id peer r, e <> Registered id peer (Some r)) -> pinv tr p -> pinv (e :: tr) p.
Proof.
  intros He Hp. split.
  - apply Hp.
  - intros i s Hs. destruct (pi_slot _ _ Hp _ _ Hs) as [? ?]. split; [by right|done].
  - intros c ch v Hc Hv. destruct (pi_value _ _ Hp _ _ _ Hc Hv) as (i & q & ?).
    exists i, q. by apply since_cons.
  - intros i q r [Heq|Hin]%elem_of_cons; [by destruct (He i q r)|by apply (pi_reg _ _ Hp) in Hin].
  - intros i q r i' q' r' [Heq|Hin]%elem_of_cons [Heq'|Hin']%elem_of_cons;
      try by destruct (He i q r). { by destruct (He i' q' r'). }
    by apply (pi_uniq _ _ Hp).
Qed.

Lemma pinv_alloc tr p a b :
  pinv tr p ->
  pinv tr (MkPending (slots p) (<[next_channel p := MkChannel None a b]> (channels p)) (next_channel p + 1)).
Proof.
  intros Hp. split; simpl.
  - intros c ch [[<- _]|[_ Hc]]%lookup_insert_Some; [lia|]. apply (pi_chan _ _ Hp) in Hc. lia.
  - intros i s Hs. destruct (pi_slot _ _ Hp _ _ Hs) as [Hin [al Hc]].
    split; [done|]. exists al. rewrite lookup_insert_ne; [done|].
    apply (pi_chan _ _ Hp) in Hc. lia.
  - intros c ch v [[<- <-]|[_ Hc]]%lookup_insert_Some Hv; [done|].
    by apply (pi_value _ _ Hp _ _ _ Hc Hv).
  - intros i q r Hin. apply (pi_reg _ _ Hp) in Hin as [? ?]. split; [done|lia].
  - apply Hp.
Qed.

Lemma pinv_register tr p id peer :
  pinv tr p -> pinv (Registered id peer (register id peer p).1 :: tr) (register id peer p).2.
Proof.
  intros Hp. destruct (slots p !! id) as [s0|] eqn:E.
  - rewrite (register_occupied _ _ _ _ E). apply pinv_skip; [done|]. by apply pinv_alloc.
  - rewrite (register_vacant _ _ _ E). simpl.
    pose proof (pinv_alloc _ _ true true Hp) as Ha. split; simpl.
    + apply Ha.
    + intros i s [[<- <-]|[_ Hs]]%lookup_insert_Some; simpl.
      * split; [by left|]. exists true. by rewrite lookup_insert_eq.
      * destruct (pi_slot _ _ Ha _ _ Hs) as [Hin Hc]. split; [by right|done].
    + intros c ch v Hc Hv. destruct (pi_value _ _ Ha _ _ _ Hc Hv) as (i & q & ?).
      exists i, q. by apply since_cons.
    + intros i q r [[= -> -> ->]|Hin]%elem_of_cons; simpl; [split; [done|lia]|].
      by apply (pi_reg _ _ Ha) in Hin.
    + intros i q r i' q' r' [[= -> -> ->]|Hin]%elem_of_cons [[= -> -> ->]|Hin']%elem_of_cons Hr; simpl in Hr.
      * done.
      * apply (pi_reg _ _ Hp) in Hin' as [_ ?]. lia.
      * apply (pi_reg _ _ Hp) in Hin as [_ ?]. lia.
      * by apply (pi_uniq _ _ Hp i q r i' q' r').
Qed.

Lemma slot_for_dec id from (p : Pending) :
  (exists s, slots p !! id = Some s /\ expected_peer s = from) \/
  (forall s, slots p !! id = Some s -> expected_peer s <> from).
Proof.
  destruct (slots p !! id) as [s|]; [|by right].
  destruct (decide (expected_peer s = from)); [left; eauto|right; naive_solver].
Qed.

Lemma pinv_deliver tr p id from v :
  pinv tr p -> pinv (Delivered id from v (deliver id from v p).1 :: tr) (deliver id from v p).2.
Proof.
  intros Hp. destruct (slot_for_dec id from p) as [(s & Hs & <-)|Hno].
  2: { rewrite deliver_other by done. by apply pinv_skip. }
  destruct (pi_slot _ _ Hp _ _ Hs) as [Hreg [alive Hc]].
  rewrite (deliver_match _ _ _ _ _ Hs Hc). simpl. split; simpl.
  - intros c ch [[<- _]|[_ Hch]]%lookup_insert_Some; by eapply (pi_chan _ _ Hp).
  - intros i s' [Hne Hs']%lookup_delete_Some. destruct (pi_slot _ _ Hp _ _ Hs') as [Hin Hc'].
    split; [by right|]. rewrite lookup_insert_ne; [done|].
    intros Heq. by eapply Hne, pinv_slot_inj.
  - intros c ch v' [[<- <-]|[_ Hch]]%lookup_insert_Some Hv; simpl in Hv.
    + destruct alive; [|done]. injection Hv as <-.
      exists id, (expected_peer s). by apply since_now.
    + destruct (pi_value _ _ Hp _ _ _ Hch Hv) as (i & q & ?). exists i, q. by apply since_cons.
  - intros i q r [?|Hin]%elem_of_cons; [done|by apply (pi_reg _ _ Hp) in Hin].
  - intros i q r i' q' r' [?|Hin]%elem_of_cons [?|Hin']%elem_of_cons; try done.
    by apply (pi_uniq _ _ Hp).
Qed.

Lemma pinv_drop tr p r : pinv tr p -> pinv (Dropped r :: tr) (drop_response r p).2.
Proof.
  intros Hp. apply pinv_skip; [done|].
  destruct (drop_response_spec r p) as (Hsl & Hn & Hch). split.
  - intros c ch. rewrite Hch, Hn, fmap_Some. intros (ch' & Hc & _). by eapply (pi_chan _ _ Hp).
  - intros i s. rewrite Hsl. intros [Hne Hs]%lookup_delete_Some.
    destruct (pi_slot _ _ Hp _ _ Hs) as [Hin [al Hc]]. split; [done|].
    rewrite Hch, Hc. simpl. unfold after_drop. simpl. eexists. f_equal. f_equal.
    apply negb_true_iff, bool_decide_eq_false. intros Heq.
    apply fmap_Some in Heq as (s' & Hs' & Ht). by eapply Hne, pinv_slot_inj.
  - intros c ch v. rewrite Hch, fmap_Some. intros (ch' & Hc & ->) Hv.
    by apply (pi_value _ _ Hp _ _ _ Hc Hv).
  - rewrite Hn. apply Hp.
  - apply Hp.
Qed.

Lemma pending_run_inv tr p : pending_run tr p -> pinv tr p.
Proof.
  induction 1 as [|tr p e p' _ IH _ Hs]; [apply pinv_new|].
  destruct Hs; [by apply pinv_register|by apply pinv_deliver|by apply pinv_drop].
Qed.

Lemma pending_run_dropped tr p r :
  pending_run tr p -> Dropped r ∈ tr -> exists id peer, Registered id peer (Some r) ∈ tr.
Proof.
  induction 1 as [|tr p e p' _ IH Hadm Hs]; intros Hin; [by apply not_elem_of_nil in Hin|].
  apply elem_of_cons in Hin as [<-|Hin].
  - destruct Hadm as [(i & q & ?) _]. exists i, q. by right.
  - destruct (IH Hin) as (i & q & ?). exists i, q. by right.
Qed.

(** A payload a waiter reads was delivered to its id by the peer it asked. *)
Lemma poll_authentic tr p id peer r v :
  pending_run tr p -> Registered id peer (Some r) ∈ tr -> poll r p = Ready (Some v) ->
  since tr (Registered id peer (Some r)) (Delivered id peer v true).
Proof.
  intros Hp%pending_run_inv Hreg Hpoll. unfold poll in Hpoll.
  destruct (channels p !! rx r) as [ch|] eqn:Hc; [|done].
  destruct (ch_value ch) as [v'|] eqn:Hv; [|by destruct (tx_alive ch)]. injection Hpoll as ->.
  destruct (pi_value _ _ Hp _ _ _ Hc Hv) as (id' & peer' & Hsince).
  assert (Registered id' peer' (Some (MkPendingResponse id' (rx r))) ∈ tr) as Hreg'
    by (destruct Hsince as (? & ? & -> & _); set_solver).
  destruct (pi_uniq _ _ Hp _ _ _ _ _ _ Hreg Hreg' eq_refl) as [-> ->].
  destruct (pi_reg _ _ Hp _ _ _ Hreg) as [<- _]. by destruct r.
Qed.

(** ** Waiters are never left without an answer *)

(** No id is handed out again while an earlier response for it is still held. *)
Fixpoint no_overlap (tr : list Event) : Prop :=
  match tr with
  | [] => True
  | Registered id _ (Some _) :: tr =>
      (forall peer r, Registered id peer (Some r) ∈ tr -> Dropped r ∈ tr) /\ no_overlap tr
  | _ :: tr => no_overlap tr
  end.

Lemma no_overlap_tail e tr : no_overlap (e :: tr) -> no_overlap tr.
Proof. destruct e as [? ? []| |]; simpl; tauto. Qed.

Lemma no_overlap_unique tr id peer peer' r r' :
  no_overlap tr ->
  Registered id peer (Some r) ∈ tr -> Registered id peer' (Some r') ∈ tr ->
  Dropped r ∉ tr -> Dropped r' ∉ tr -> r = r'.
Proof.
  induction tr as [|e tr IH]; intros Hno Hr Hr' Hd Hd'; [set_solver|].
  apply not_elem_of_cons in Hd as [_ Hd], Hd' as [_ Hd'].
  pose proof (no_overlap_tail _ _ Hno) as Htl.
  apply elem_of_cons in Hr as [<-|Hr], Hr' as [Heq|Hr'].
  - congruence.
  - destruct Hno as [Hno _]. by apply Hno in Hr'.
  - subst e. destruct Hno as [Hno _]. by apply Hno in Hr.
  - by apply IH.
Qed.

(** A held response either has its slot or has been answered. *)
Definition waiting (p : Pending) (id : u64) (peer : SocketAddr) (r : PendingResponse) : Prop :=
  slots p !! id = Some (MkPendingSlot peer (rx r)) /\
    channels p !! rx r = Some (MkChannel None true true).
Definition answered (p : Pending) (r : PendingResponse) : Prop :=
  exists v b a, channels p !! rx r = Some (MkChannel (Some v) b a).

Definition live (tr : list Event) (p : Pending) : Prop :=
  forall id peer r, Registered id peer (Some r) ∈ tr -> Dropped r ∉ tr ->
    waiting p id peer r \/ answered p r.

Lemma live_register tr p id peer :
  pinv tr p -> live tr p -> no_overlap (Registered id peer (register id peer p).1 :: tr) ->
  live (Registered id peer (register id peer p).1 :: tr) (register id peer p).2.
Proof.
  intros Hp Hl Hno i q r Hreg [_ Hd]%not_elem_of_cons.
  assert (forall c ch, channels p !! c = Some ch -> next_channel p <> c) as Hfresh.
  { intros c ch Hc%(pi_chan _ _ Hp). lia. }
  destruct (slots p !! id) as [s0|] eqn:E.
  - rewrite (register_occupied _ _ _ _ E) in *. simpl in *.
    apply elem_of_cons in Hreg as [?|Hreg]; [done|].
    destruct (Hl _ _ _ Hreg Hd) as [[Hs Hc]|(v & b & a & Hc)]; [left|right]; unfold waiting, answered; simpl;
      rewrite lookup_insert_ne by (by eapply Hfresh); eauto.
  - rewrite (register_vacant _ _ _ E) in *. simpl in *.
    apply elem_of_cons in Hreg as [[= -> -> ->]|Hreg].
    { left. split; simpl; by rewrite lookup_insert_eq. }
    destruct (Hl _ _ _ Hreg Hd) as [[Hs Hc]|(v & b & a & Hc)]; [left|right]; unfold waiting, answered; simpl.
    + rewrite !lookup_insert_ne; [done|by eapply Hfresh|congruence].
    + rewrite lookup_insert_ne by (by eapply Hfresh). eauto.
Qed.

Lemma live_deliver tr p id from v :
  pinv tr p -> live tr p ->
  live (Delivered id from v (deliver id from v p).1 :: tr) (deliver id from v p).2.
Proof.
  intros Hp Hl i q r [?|Hreg]%elem_of_cons [_ Hd]%not_elem_of_cons; [done|].
  destruct (slot_for_dec id from p) as [(s & Hs & <-)|Hno].
  2: { rewrite deliver_other by done. by apply Hl. }
  destruct (pi_slot _ _ Hp _ _ Hs) as [_ [al Hcs]]. rewrite (deliver_match _ _ _ _ _ Hs Hcs).
  unfold waiting, answered. simpl.
  destruct (Hl _ _ _ Hreg Hd) as [[Hsr Hc]|(v' & b & a & Hc)].
  - destruct (decide (i = id)) as [->|Hne].
    + right. simplify_eq/=. exists v. rewrite lookup_insert_eq. eauto.
    + left. rewrite lookup_delete_ne by done. rewrite lookup_insert_ne; [done|].
      intros Heq. by eapply Hne, pinv_slot_inj.
  - right. destruct (decide (tx s = rx r)) as [Heq|Hne]; [congruence|].
    exists v', b, a. by rewrite lookup_insert_ne.
Qed.

Lemma live_drop tr p r0 :
  pinv tr p -> live tr p -> no_overlap tr -> admissible tr (Dropped r0) ->
  live (Dropped r0 :: tr) (drop_response r0 p).2.
Proof.
  intros Hp Hl Hno [(i0 & q0 & Hreg0) Hd0] i q r [?|Hreg]%elem_of_cons [Hne Hd]%not_elem_of_cons; [done|].
  assert (r <> r0) as Hr by congruence.
  destruct (drop_response_spec r0 p) as (Hsl & _ & Hch).
  pose proof (pi_reg _ _ Hp _ _ _ Hreg) as [Hid _]. pose proof (pi_reg _ _ Hp _ _ _ Hreg0) as [Hid0 _].
  assert (pr_id r0 <> i) as Hii.
  { intros Heq. assert (i0 = i) as -> by congruence. apply Hr. by eapply no_overlap_unique. }
  assert (rx r0 <> rx r) as Hrx.
  { intros Heq. destruct (pi_uniq _ _ Hp _ _ _ _ _ _ Hreg0 Hreg Heq). congruence. }
  destruct (Hl _ _ _ Hreg Hd) as [[Hsr Hc]|(v & b & a & Hc)]; [left|right].
  - split; [by rewrite Hsl, lookup_delete_ne|]. rewrite Hch, Hc. simpl. unfold after_drop. simpl.
    rewrite (bool_decide_false (rx r0 = rx r)), bool_decide_false; [done| |done].
    intros (s' & Hs' & Ht)%fmap_Some. apply Hii. symmetry. by eapply (pinv_slot_inj _ _ _ _ _ _ Hp Hsr Hs').
  - unfold answered. rewrite Hch, Hc. simpl. unfold after_drop. simpl. eauto.
Qed.

Lemma pending_run_live tr p : pending_run tr p -> no_overlap tr -> live tr p.
Proof.
  induction 1 as [|tr p e p' Hrun IH Hadm Hs]; intros Hno; [by intros ? ? ? ?%not_elem_of_nil|].
  pose proof (pending_run_inv _ _ Hrun) as Hp.
  specialize (IH (no_overlap_tail _ _ Hno)).
  destruct Hs; [by apply live_register|by apply live_deliver|].
  by apply live_drop.
Qed.

(** So the [unwrap] of a polled response cannot panic. *)
Lemma poll_never_none tr p id peer r :
  pending_run tr p -> no_overlap tr ->
  Registered id peer (Some r) ∈ tr -> Dropped r ∉ tr -> poll r p <> Ready None.
Proof.
  intros Hrun Hno Hreg Hd. unfold poll.
  destruct (pending_run_live _ _ Hrun Hno _ _ _ Hreg Hd) as [[_ ->]|(v & b & a & ->)]; done.
Qed.

(** A reply of the expected peer reaches the waiter. *)
Lemma deliver_reaches p id peer r v :
  waiting p id peer r ->
  (deliver id peer v p).1 = true /\ poll r (deliver id peer v p).2 = Ready (Some v).
Proof.
  intros [Hs Hc]. pose proof (deliver_match id _ v p _ Hs Hc) as Hd. simpl in Hd. rewrite Hd.
  split; [done|]. simpl.
  unfold poll. simpl. by rewrite lookup_insert_eq.
Qed.

Lemma since_inv tr e e1 e2 : since (e :: tr) e1 e2 -> since tr e1 e2 \/ (e = e2 /\ e1 ∈ tr).
Proof.
  intros ([|x later] & earlier & Heq & Hin); [set_solver|]. injection Heq as <- ->.
  apply elem_of_cons in Hin as [->|Hin]; [right; set_solver|left]. by exists later, earlier.
Qed.

(** What was answered stays answered. *)
Lemma answered_step tr p e p' r : pinv tr p -> pending_step p e p' -> answered p r -> answered p' r.
Proof.
  intros Hp Hs (v & b & a & Hc). destruct Hs as [id peer p|id from payload p|r0 p].
  - assert (next_channel p <> rx r) by (apply (pi_chan _ _ Hp) in Hc; lia).
    exists v, b, a. destruct (slots p !! id) as [s|] eqn:E;
      [rewrite (register_occupied _ _ _ _ E)|rewrite (register_vacant _ _ _ E)]; simpl; by rewrite lookup_insert_ne.
  - destruct (slot_for_dec id from p) as [(s & Hs & <-)|Hno].
    2: { rewrite deliver_other by done. by exists v, b, a. }
    destruct (pi_slot _ _ Hp _ _ Hs) as [_ [al Hcs]]. rewrite (deliver_match _ _ _ _ _ Hs Hcs).
    exists v, b, a. simpl. destruct (decide (tx s = rx r)) as [Heq|Hne]; [congruence|by rewrite lookup_insert_ne].
  - destruct (drop_response_spec r0 p) as (_ & _ & Hch). unfold answered. rewrite Hch, Hc. simpl.
    unfold after_drop. simpl. eauto.
Qed.

Lemma answered_poll p r : answered p r -> exists v, poll r p = Ready (Some v).
Proof. intros (v & b & a & Hc). exists v. unfold poll. by rewrite Hc. Qed.

(** Whatever else happens, a reply of the expected peer that arrives while the
    response is held is not lost. *)
Lemma delivered_answers tr p id peer r v ok :
  pending_run tr p -> no_overlap tr -> Dropped r ∉ tr ->
  since tr (Registered id peer (Some r)) (Delivered id peer v ok) -> answered p r.
Proof.
  induction 1 as [|tr p e p' Hrun IH Hadm Hs]; intros Hno Hd Hsince.
  { destruct Hsince as (later & earlier & Heq & _). by destruct later. }
  pose proof (pending_run_inv _ _ Hrun) as Hp. pose proof (no_overlap_tail _ _ Hno) as Hno'.
  apply not_elem_of_cons in Hd as [_ Hd].
  apply since_inv in Hsince as [Hsince|[-> Hreg]]; [by eapply answered_step; eauto|].
  destruct (pending_run_live _ _ Hrun Hno' _ _ _ Hreg Hd) as [Hw|Ha]; [|by eapply answered_step].
  inversion Hs; subst. destruct Hw as [Hslot Hc].
  pose proof (deliver_match id _ v p _ Hslot Hc) as Hdel. simpl in Hdel. rewrite Hdel.
  unfold answered. simpl. rewrite lookup_insert_eq. eauto.
Qed.

(** ** The slot of a later request *)

(** [rereg id a b v]: a request on [id] to [a] is answered, a second request
    draws the same id before the first response is dropped, and then the first
    is dropped. *)
Definition rereg (id : u64) (a b : SocketAddr) (v : bytes) : M Pending (option PendingResponse) :=
  r1 ← register id a;
  _ ← deliver id a v;
  r2 ← register id b;
  match r1 with Some r1 => drop_response r1 | None => mret tt end;;
  mret r2.

Lemma rereg_orphans id a b v :
  exists r2, (rereg id a b v pending_new).1 = Some r2 /\
    poll r2 (rereg id a b v pending_new).2 = Ready None.
Proof.
  unfold rereg. mstep. rewrite (register_vacant id a pending_new) by done. simpl.
  pose proof (fun p ch => deliver_match id (MkPendingSlot a 0) v p ch) as Hd. simpl in Hd.
  erewrite Hd; [|simpl; by rewrite lookup_insert_eq..].
  simpl. rewrite register_vacant by (simpl; by rewrite delete_insert_id by done). simpl.
  eexists. split; [done|]. unfold poll, drop_response. mstep. simpl.
  rewrite lookup_insert_eq. simpl.
  rewrite drop_receiver_lookup, drop_sender_lookup. simpl. by rewrite lookup_insert_eq.
Qed.
