(* ===== verification/Datagram.v ===== *)
(** * Datagram: the retrying datagram transport

    Models [src/rpc_transport/retry_transport.rs] over the channel interface of
    [data_rx_tx.rs]: the receive loop that splits replies from requests on
    [REPLY_TAG], and [send_receive], which registers a fresh id, sends, waits
    and resends.  The socket, the clock and the other tasks are an environment
    that acts on the shared [Pending] pool only by its own operations.  Where a reply and
    the timer are both ready, the select takes either. *)

From S2P Require Import Prelude Machine Contacts Wire Pending.

Definition RESEND_INTERVAL : Duration := from_millis 200.
Definition MAX_ATTEMPTS : nat := 5.

(** ** The receive loop *)

(** The bounded [mpsc] channel to the server side. *)
Record RequestQueue : Type := MkRequestQueue {
  capacity : nat;
  queued : list Request;
  rx_open : bool
}.

(** [Sender::try_send]: a full or closed queue sheds the request. *)
Definition try_send (request : Request) (q : RequestQueue) : bool * RequestQueue :=
  if rx_open q && (length (queued q) <? capacity q)
  then (true, MkRequestQueue (capacity q) (queued q ++ [request]) true)
  else (false, q).

Record Receiver : Type := MkReceiver {
  rcv_pending : Pending;
  rcv_requests : option RequestQueue
}.

Definition RECEIVE_BUFFER : nat := N.to_nat 1024.

(** One turn of the loop, on a datagram that arrived. *)
Definition receive_datagram (datagram : bytes) (addr : SocketAddr) (s : Receiver) : Receiver :=
  let buf := take RECEIVE_BUFFER datagram in
  if length buf <? ID_LEN then s else
  let id := from_be_bytes (take ID_LEN buf) in
  if negb (is_reply id) then
    match rcv_requests s with
    | None => s
    | Some requests =>
        match from_datagram addr buf with
        | None => s
        | Some request => MkReceiver (rcv_pending s) (Some (try_send request requests).2)
        end
    end
  else MkReceiver (deliver (request_id id) addr (drop ID_LEN buf) (rcv_pending s)).2 (rcv_requests s).

(** The loop over what the channel yields, until it fails. *)
Fixpoint receive_loop (arrivals : list (result IoError (bytes * SocketAddr))) (s : Receiver) : Receiver :=
  match arrivals with
  | [] => s
  | Err _ :: _ => s
  | Ok (datagram, addr) :: arrivals => receive_loop arrivals (receive_datagram datagram addr s)
  end.

(** ** [send_receive] *)

Section client.
Context {W : Type}.

(** The client's view: the shared pool (with its history, kept for the
    statements), the rest of the world, and what was handed to the socket. *)
Record Client : Type := MkClient {
  cl_pending : Pending;
  cl_history : list Event;
  cl_world : W;
  cl_outbox : list (SocketAddr * bytes)
}.

(** The world as the pool's other users see it. *)
Definition env_state : Type := (Pending * list Event) * W.

(** The socket's [send_packet]; everything that happens in the [select!] between
    one send and the reply or the resend, and whether the timer has fired when the
    branches are polled and its branch is the one that is taken; and what happens
    after the last [select!] until the response is dropped.  (What other tasks do
    to the pool while the send itself is awaited happens before the pool is read
    again, and counts as part of [wait].) *)
Context (send_packet : bytes -> SocketAddr -> M W (result IoError unit)).
Context (wait : PendingResponse -> Duration -> M env_state bool).
Context (settle : PendingResponse -> env_state -> env_state).

Definition env_of (s : Client) : env_state := (cl_pending s, cl_history s, cl_world s).
Definition with_env (e : env_state) (s : Client) : Client :=
  MkClient e.1.1 e.1.2 e.2 (cl_outbox s).

Definition client_register (id : u64) (address : SocketAddr) : M Client (option PendingResponse) :=
  fun s =>
    let r := register id address (cl_pending s) in
    (r.1, MkClient r.2 (Registered id address r.1 :: cl_history s) (cl_world s) (cl_outbox s)).

Definition client_drop (msg : PendingResponse) : M Client unit :=
  modify (fun s => MkClient (drop_response msg (cl_pending s)).2 (Dropped msg :: cl_history s)
                     (cl_world s) (cl_outbox s)).

Definition client_send (datagram : bytes) (address : SocketAddr) : M Client (result IoError unit) :=
  fun s =>
    let r := send_packet datagram address (cl_world s) in
    (r.1, MkClient (cl_pending s) (cl_history s) r.2 (cl_outbox s ++ [(address, datagram)])).

Definition client_wait (msg : PendingResponse) : M Client bool :=
  fun s => let r := wait msg RESEND_INTERVAL (env_of s) in (r.1, with_env r.2 s).

Definition client_settle (msg : PendingResponse) : M Client unit :=
  modify (fun s => with_env (settle msg (env_of s)) s).

Inductive Outcome : Type :=
  | Returned (r : result IoError bytes)
  | Panicked
  | NoDraw.

Definition timed_out : IoError := MkIoError TimedOut "no response after maximum attempts".

(** [for _attempt in 0..MAX_ATTEMPTS].  Of two branches that are ready [select!]
    takes either, so a reply that is there can still lose to the timer. *)
Fixpoint attempts (n : nat) (datagram : bytes) (address : SocketAddr) (msg : PendingResponse)
    : M Client Outcome :=
  match n with
  | O => mret (Returned (Err timed_out))
  | S n =>
      sent ← client_send datagram address;
      match sent with
      | Err e => mret (Returned (Err e))
      | Ok _ =>
          timer ← client_wait msg;
          polled ← gets (fun s => poll msg (cl_pending s));
          match polled with
          | Ready res =>
              if timer : bool then attempts n datagram address msg else
              match res with
              | Some res => mret (Returned (Ok res))
              | None => mret Panicked
              end
          | NotReady => attempts n datagram address msg
          end
      end
  end.

(** [draws] are the values of [rand::random::<u64>()], until one is free. *)
Fixpoint send_receive (draws : list u64) (payload : bytes) (address : SocketAddr) : M Client Outcome :=
  match draws with
  | [] => mret NoDraw
  | draw :: draws =>
      let id := request_id draw in
      got ← client_register id address;
      match got with
      | Some msg =>
          out ← attempts MAX_ATTEMPTS (frame_request id payload) address msg;
          client_settle msg;;
          client_drop msg;;
          mret out
      | None => send_receive draws payload address
      end
  end.
End client.
Arguments Client W : clear implicits.

(** ** The receive loop splits replies from requests *)

Section receiving.
Context (addr : SocketAddr) (s : Receiver).

Lemma receive_short datagram : length datagram < ID_LEN -> receive_datagram datagram addr s = s.
Proof.
  intros H. unfold receive_datagram. rewrite length_take.
  destruct (Nat.ltb_spec (RECEIVE_BUFFER `min` length datagram) ID_LEN); [done|lia].
Qed.

(** Reading a framed message that fits the buffer. *)
Lemma receive_framed (id : u64) body :
  ID_LEN + length body <= RECEIVE_BUFFER ->
  receive_datagram (to_be_bytes id ++ body) addr s =
  if is_reply id
  then MkReceiver (deliver (request_id id) addr body (rcv_pending s)).2 (rcv_requests s)
  else MkReceiver (rcv_pending s)
         ((fun q => (try_send (MkRequest id addr true body) q).2) <$> rcv_requests s).
Proof.
  intros Hl. unfold receive_datagram.
  rewrite take_ge by (rewrite length_app, to_be_bytes_length; lia).
  rewrite length_app, to_be_bytes_length.
  destruct (Nat.ltb_spec (ID_LEN + length body) ID_LEN); [lia|].
  rewrite (take_app_length' (to_be_bytes id) body ID_LEN) by by rewrite to_be_bytes_length.
  rewrite (drop_app_length' (to_be_bytes id) body ID_LEN) by by rewrite to_be_bytes_length.
  rewrite from_to_be_bytes. destruct (is_reply id); [done|]. cbn [negb].
  pose proof (from_datagram_request addr id body) as Hd. unfold frame_request in Hd. rewrite Hd.
  by destruct s as [p [q|]].
Qed.

Lemma receive_reply id body :
  ID_LEN + length body <= RECEIVE_BUFFER ->
  receive_datagram (frame_reply id body) addr s =
  MkReceiver (deliver (request_id id) addr body (rcv_pending s)).2 (rcv_requests s).
Proof.
  intros Hl. unfold frame_reply. rewrite receive_framed by done.
  by rewrite is_reply_reply_id, request_id_reply_id.
Qed.

Lemma receive_request draw payload :
  ID_LEN + length payload <= RECEIVE_BUFFER ->
  receive_datagram (frame_request (request_id draw) payload) addr s =
  MkReceiver (rcv_pending s)
    ((fun q => (try_send (MkRequest (request_id draw) addr true payload) q).2) <$> rcv_requests s).
Proof.
  intros Hl. unfold frame_request. rewrite receive_framed by done.
  by rewrite is_reply_request_id.
Qed.

(** Any datagram at all leaves the pool alone or is one delivery from its
    sender. *)
Lemma receive_pending datagram :
  rcv_pending (receive_datagram datagram addr s) = rcv_pending s \/
  exists id body, rcv_pending (receive_datagram datagram addr s) = (deliver id addr body (rcv_pending s)).2.
Proof.
  unfold receive_datagram. destruct (_ <? _); [by left|]. destruct (negb _).
  - destruct (rcv_requests s); [|by left]. destruct (from_datagram _ _); by left.
  - right. eauto.
Qed.
End receiving.

Lemma receive_loop_run arrivals s tr :
  pending_run tr (rcv_pending s) ->
  exists tr', pending_run (tr' ++ tr) (rcv_pending (receive_loop arrivals s)) /\
    forall e, e ∈ tr' -> exists id from body ok, e = Delivered id from body ok.
Proof.
  revert s tr. induction arrivals as [|[[dg a]|e] arrivals IH]; intros s tr Hrun; simpl.
  - exists []. set_solver.
  - destruct (receive_pending a s dg) as [Heq|(id & body & Heq)].
    + apply IH. by rewrite Heq.
    + destruct (IH (receive_datagram dg a s) (Delivered id a body (deliver id a body (rcv_pending s)).1 :: tr))
        as (tr' & Hrun' & Hall).
      { rewrite Heq. econstructor; [done|done|constructor]. }
      exists (tr' ++ [Delivered id a body (deliver id a body (rcv_pending s)).1]).
      rewrite <- app_assoc. split; [done|]. set_solver.
  - exists []. set_solver.
Qed.

(** ** What [send_receive] returns *)

(** The pool moves by its own operations, and nobody drops [msg]. *)
Definition evolves {W} (msg : PendingResponse) (e e' : @env_state W) : Prop :=
  pending_run e.1.2 e.1.1 ->
  exists tr, e'.1.2 = tr ++ e.1.2 /\ pending_run e'.1.2 e'.1.1 /\ Dropped msg ∉ tr.

Section sending.
Context {W : Type} (send_packet : bytes -> SocketAddr -> M W (result IoError unit)).
Context (wait : PendingResponse -> Duration -> M (@env_state W) bool).
Context (settle : PendingResponse -> @env_state W -> @env_state W).
Context (wait_evolves : forall msg d e, evolves msg e (wait msg d e).2).
Context (settle_evolves : forall msg e, evolves msg e (settle msg e)).

Definition consistent (s : Client W) : Prop := pending_run (cl_history s) (cl_pending s).

(** The end of a wait that the timer ended: no reply was there, or the timer was
    taken although one was. *)
Definition gave_up (msg : PendingResponse) (s : Client W) : Prop :=
  exists e, pending_run e.1.2 e.1.1 /\ env_of s = (wait msg RESEND_INTERVAL e).2 /\
    (poll msg (cl_pending s) = NotReady \/
     (poll msg (cl_pending s) <> NotReady /\ (wait msg RESEND_INTERVAL e).1 = true)).

(** Why an attempt loop that may send [n] times stopped after [sends] sends. *)
Definition explains (msg : PendingResponse) (s : Client W) (n sends : nat) (out : Outcome) : Prop :=
  match out with
  | Returned (Ok v) => 1 <= sends /\ poll msg (cl_pending s) = Ready (Some v)
  | Returned (Err e) =>
      (sends = n /\ e = timed_out /\ (0 < n -> gave_up msg s)) \/
      (1 <= sends /\ exists dg a w, (send_packet dg a w).1 = Err e)
  | Panicked => 1 <= sends /\ poll msg (cl_pending s) = Ready None
  | NoDraw => False
  end.

Lemma attempts_S n datagram address msg s :
  attempts send_packet wait (S n) datagram address msg s =
  let s1 := (client_send send_packet datagram address s).2 in
  let r2 := client_wait wait msg s1 in
  match (client_send send_packet datagram address s).1 with
  | Err e => (Returned (Err e), s1)
  | Ok _ =>
      match poll msg (cl_pending r2.2) with
      | Ready res =>
          if r2.1 then attempts send_packet wait n datagram address msg r2.2 else
          match res with Some res => (Returned (Ok res), r2.2) | None => (Panicked, r2.2) end
      | NotReady => attempts send_packet wait n datagram address msg r2.2
      end
  end.
Proof.
  cbn [attempts]. mstep. cbv zeta.
  destruct (client_send send_packet datagram address s).1 as [[]|e]; [|done].
  mstep. cbn [modify gets fst snd]. destruct (poll _ _) as [[]|]; [| |done]; by destruct (client_wait _ _ _).1.
Qed.

Lemma attempts_spec n datagram address msg s :
  consistent s ->
  let r := attempts send_packet wait n datagram address msg s in
  consistent r.2 /\
  (exists tr, cl_history r.2 = tr ++ cl_history s /\ Dropped msg ∉ tr) /\
  exists sends, sends <= n /\
    cl_outbox r.2 = cl_outbox s ++ replicate sends (address, datagram) /\
    explains msg r.2 n sends r.1.
Proof using wait_evolves settle_evolves.
  revert s. induction n as [|n IH]; intros s Hs.
  { simpl. split; [done|]. split; [by exists []; set_solver|].
    exists 0. rewrite app_nil_r. split_and!; [done|done|left]. split; [done|]. split; [done|lia]. }
  rewrite attempts_S. cbv zeta.
  set (s1 := (client_send send_packet datagram address s).2).
  assert (cl_outbox s1 = cl_outbox s ++ [(address, datagram)]) as Ho1 by done.
  destruct (client_send send_packet datagram address s).1 as [[]|e] eqn:Hsend.
  2: { split; [done|]. split; [by exists []; set_solver|]. exists 1. split; [lia|]. split; [done|].
       right. split; [lia|]. by exists datagram, address, (cl_world s). }
  destruct (wait_evolves msg RESEND_INTERVAL (env_of s1) Hs) as (tr & Htr & Hrun & Hd).
  set (r2 := client_wait wait msg s1).
  assert (cl_history r2.2 = tr ++ cl_history s) as Hh2 by done.
  assert (cl_outbox r2.2 = cl_outbox s ++ [(address, datagram)]) as Ho2 by done.
  assert (consistent r2.2) as Hs2 by done.
  assert (poll msg (cl_pending r2.2) = NotReady \/ (poll msg (cl_pending r2.2) <> NotReady /\ r2.1 = true) ->
    gave_up msg r2.2) as Hgave.
  { intros Hp. exists (env_of s1). split; [exact Hs|]. split; [|exact Hp].
    unfold r2, client_wait, env_of, with_env. cbn [snd cl_pending cl_history cl_world].
    by destruct (wait msg RESEND_INTERVAL _) as [? [[? ?] ?]]. }
  clearbody r2 s1.
  assert (poll msg (cl_pending r2.2) = NotReady \/ (poll msg (cl_pending r2.2) <> NotReady /\ r2.1 = true) ->
    let r := attempts send_packet wait n datagram address msg r2.2 in
    consistent r.2 /\ (exists tr, cl_history r.2 = tr ++ cl_history s /\ Dropped msg ∉ tr) /\
    exists sends, sends <= S n /\ cl_outbox r.2 = cl_outbox s ++ replicate sends (address, datagram) /\
      explains msg r.2 (S n) sends r.1) as Hagain.
  { intros Hp. specialize (Hgave Hp).
    destruct (IH r2.2 Hs2) as (Hc & (tr' & Hh & Hd') & sends & Hle & Ho & Hex). split; [done|]. split.
    { exists (tr' ++ tr). rewrite Hh, Hh2, app_assoc. split; [done|set_solver]. }
    exists (S sends). split; [lia|]. split; [by rewrite Ho, Ho2, <- app_assoc|].
    destruct n as [|n]; [destruct sends; [left|lia]; done|].
    unfold explains in *. destruct (attempts _ _ _ _ _ _ _).1 as [[v|e]| |]; naive_solver lia. }
  destruct (poll msg (cl_pending r2.2)) as [res|] eqn:Hp; [|apply Hagain; by left].
  destruct r2.1; [apply Hagain; right; by split|].
  destruct res as [v|]; simpl; (split; [done|]); (split; [by exists tr|]); exists 1; simpl; auto with lia.
Qed.

(** The call gave up at the end of a wait: until then nobody had delivered a reply
    to it, or the timer was taken although the reply was there.  What is delivered
    later, before the response is dropped, is lost. *)
Definition unanswered (id : u64) (address : SocketAddr) (msg : PendingResponse) (history : list Event) : Prop :=
  exists e, let last := wait msg RESEND_INTERVAL e in
    pending_run e.1.2 e.1.1 /\ history = Dropped msg :: (settle msg last.2).1.2 /\
    ((poll msg last.2.1.1 <> NotReady /\ last.1 = true) \/ (no_overlap history -> forall v ok,
       ~ since last.2.1.2 (Registered id address (Some msg)) (Delivered id address v ok))).

(** What a call that got an id has done, and what its answer means. *)
Definition called (address : SocketAddr) (payload : bytes) (id : u64) (msg : PendingResponse)
    (sends : nat) (s s' : Client W) (out : Outcome) : Prop :=
  slots (cl_pending s) !! id = None /\ sends <= MAX_ATTEMPTS /\
  cl_outbox s' = cl_outbox s ++ replicate sends (address, frame_request id payload) /\
  Registered id address (Some msg) ∈ cl_history s' /\
  match out with
  | Returned (Ok v) =>
      since (cl_history s') (Registered id address (Some msg)) (Delivered id address v true)
  | Returned (Err e) =>
      (sends = MAX_ATTEMPTS /\ e = timed_out /\ unanswered id address msg (cl_history s')) \/
      exists dg a w, (send_packet dg a w).1 = Err e
  | Panicked => ~ no_overlap (cl_history s')
  | NoDraw => False
  end.

Definition call_contract (address : SocketAddr) (payload : bytes) (draws : list u64)
    (s s' : Client W) (out : Outcome) : Prop :=
  match out with
  | NoDraw =>
      cl_outbox s' = cl_outbox s /\
      forall draw, draw ∈ draws -> is_Some (slots (cl_pending s) !! request_id draw)
  | _ => exists draw msg sends, draw ∈ draws /\
      called address payload (request_id draw) msg sends s s' out
  end.

Lemma no_overlap_suffix tr tr' : no_overlap (tr' ++ tr) -> no_overlap tr.
Proof. induction tr' as [|e tr' IH]; [done|]. intros Hno%no_overlap_tail. by apply IH. Qed.

(** A reply that was delivered by the end of a wait was there. *)
Lemma not_ready_undelivered id address msg (s : Client W) v ok :
  consistent s -> no_overlap (cl_history s) -> Dropped msg ∉ cl_history s -> poll msg (cl_pending s) = NotReady ->
  ~ since (cl_history s) (Registered id address (Some msg)) (Delivered id address v ok).
Proof.
  intros Hc Hno Hd Hpoll Hsince. destruct (answered_poll (cl_pending s) msg) as [w Hw]; [|congruence].
  by eapply delivered_answers.
Qed.

(** A call whose id was free, from its registration on. *)
Lemma attempts_called id payload address s :
  consistent s -> slots (cl_pending s) !! id = None ->
  let msg := MkPendingResponse id (next_channel (cl_pending s)) in
  let res := attempts send_packet wait MAX_ATTEMPTS (frame_request id payload) address msg (client_register id address s).2 in
  let s' := (client_drop msg (client_settle settle msg res.2).2).2 in
  consistent s' /\ res.1 <> NoDraw /\ exists sends, called address payload id msg sends s s' res.1.
Proof using wait_evolves settle_evolves.
  intros Hs Hslot msg.
  assert (consistent (client_register id address s).2) as Hs1 by (econstructor; [done|done|constructor]).
  assert ((client_register id address s).1 = Some msg) as Hgot by (unfold client_register; by rewrite (register_vacant _ _ _ Hslot)).
  assert (Registered id address (Some msg) ∈ cl_history (client_register id address s).2) as Hreg
    by (rewrite <- Hgot; by left).
  assert (Dropped msg ∉ cl_history (client_register id address s).2) as Hfresh.
  { intros [?|Hd]%elem_of_cons; [done|]. apply (pending_run_dropped _ _ _ Hs) in Hd as (i & q & Hin).
    apply (pi_reg _ _ (pending_run_inv _ _ Hs)) in Hin as [_ ?]. simpl in *. lia. }
  set (s1 := (client_register id address s).2) in *.
  assert (cl_outbox s1 = cl_outbox s) as Ho1 by done. clearbody s1. clear Hgot.
  destruct (attempts_spec MAX_ATTEMPTS (frame_request id payload) address msg s1 Hs1)
    as (Hc & (tr & Hh & Hd) & sends & Hle & Ho & Hex).
  cbv zeta. set (res := attempts _ _ _ _ _ _ _) in *. clearbody res.
  assert (Registered id address (Some msg) ∈ cl_history res.2) as Hreg2 by (rewrite Hh; set_solver).
  assert (Dropped msg ∉ cl_history res.2) as Hd2 by (rewrite Hh; set_solver).
  destruct (settle_evolves msg (env_of res.2) Hc) as (tr2 & Hh3 & Hrun3 & Hd3).
  set (s3 := (client_settle settle msg res.2).2).
  assert (cl_history s3 = tr2 ++ cl_history res.2) as Hh3' by done.
  assert (cl_history s3 = (settle msg (env_of res.2)).1.2) as Hs3 by done.
  assert (pending_run (Dropped msg :: cl_history s3) (drop_response msg (cl_pending s3)).2) as Hrun.
  { assert (pending_run (cl_history s3) (cl_pending s3)) as Hrun3' by exact Hrun3.
    econstructor; [exact Hrun3'| |constructor]. rewrite Hh3'. split; [exists id, address; set_solver|set_solver]. }
  split; [done|]. split; [intros E; by rewrite E in Hex|]. exists sends. split; [done|]. split; [done|].
  split; [by rewrite <- Ho1|]. split; [cbn [client_drop modify snd cl_history]; rewrite Hh3'; set_solver|].
  destruct res as [[[v|e]| |] s2]; cbn [fst snd explains] in *.
  - assert (since (cl_history s2) (Registered id address (Some msg)) (Delivered id address v true)) as Hv
      by (apply (poll_authentic _ (cl_pending s2)); [done|done|apply Hex]).
    cbn [client_drop modify snd cl_history]. rewrite Hh3'. destruct Hv as (later & earlier & Heq & Hin).
    exists (Dropped msg :: tr2 ++ later), earlier. split; [rewrite Heq; cbn; by rewrite <- app_assoc|set_solver].
  - destruct Hex as [(-> & -> & Hgave)|[_ ?]]; [left|by right]. split; [done|]. split; [done|].
    destruct Hgave as (e & Hrune & He & Hend); [unfold MAX_ATTEMPTS; lia|]. exists e. cbv zeta. rewrite <- He.
    split; [done|]. split; [done|]. destruct Hend as [Hpoll|?]; [right|by left]. intros Hno v ok.
    apply not_ready_undelivered; [done| |done|done].
    cbn [client_drop modify snd cl_history] in Hno. rewrite Hh3' in Hno. exact (no_overlap_suffix _ _ (no_overlap_tail _ _ Hno)).
  - intros Hno. cbn [client_drop modify snd cl_history] in Hno. rewrite Hh3' in Hno.
    eapply (poll_never_none (cl_history s2) (cl_pending s2) id address msg);
      [done|exact (no_overlap_suffix _ _ (no_overlap_tail _ _ Hno))|done|done|apply Hex].
  - done.
Qed.

Lemma send_receive_spec draws payload address s :
  consistent s ->
  let r := send_receive send_packet wait settle draws payload address s in
  consistent r.2 /\ call_contract address payload draws s r.2 r.1.
Proof using wait_evolves settle_evolves.
  revert s. induction draws as [|draw draws IH]; intros s Hs; [by split; [|split; set_solver]|].
  cbn [send_receive]. mstep. set (id := request_id draw).
  destruct (slots (cl_pending s) !! id) as [slot|] eqn:Hslot.
  - assert (consistent (client_register id address s).2) as Hs1 by (econstructor; [done|done|constructor]).
    unfold client_register in *. rewrite (register_occupied _ _ _ _ Hslot) in *.
    destruct (IH _ Hs1) as [Hc Hcon]. split; [done|].
    unfold call_contract in *. simpl in *.
    set (res := send_receive _ _ _ _ _ _ _) in *. clearbody res.
    destruct res.1 as [[v|e]| |].
    1-3: destruct Hcon as (d & msg & sends & Hin & Hcon); exists d, msg, sends; split; [by right|done].
    destruct Hcon as [Ho Hall]. split; [done|].
    intros d [->|Hin]%elem_of_cons; [by exists slot|by apply Hall].
  - destruct (attempts_called id payload address s Hs Hslot) as (Hc & Hdraw & sends & Hcalled).
    assert ((client_register id address s).1 = Some (MkPendingResponse id (next_channel (cl_pending s)))) as ->
      by (unfold client_register; by rewrite (register_vacant _ _ _ Hslot)).
    mstep. set (msg := MkPendingResponse id (next_channel (cl_pending s))) in *.
    set (res := attempts _ _ _ _ _ _ _) in *. clearbody res. simpl in *. split; [done|]. unfold call_contract.
    destruct res as [[| |] s2]; simpl in *; [exists draw, msg, sends; by split; [left|]..|done].
Qed.
End sending.
