(* ===== verification/DebugTransport.v ===== *)
(** * DebugTransport: the transport a test answers by hand

    Models [src/rpc_transport/debug_transport.rs]: every call is left in a shared
    map, under a counter, with the sending half of its channel; whoever holds the
    map takes the entry out and answers.  Calls are numbered here in the order
    they were made; [dt_done] is what their receivers find. *)

From S2P Require Import Prelude Machine Contacts Wire.

(** What became of a call: a reply, or a sender dropped without one, on which
    the [unwrap] panics. *)
Inductive Settled : Type := Replied (reply : bytes) | SenderDropped.

Record DebugTransport : Type := MkDebug {
  dt_map : gmap u64 (SocketAddr * bytes * nat);
  dt_counter : u64;
  dt_calls : nat;
  dt_done : gmap nat Settled
}.

Definition debug_new : DebugTransport := MkDebug ∅ (wrap 64 0) 0 ∅.

(** Dropping an entry of the map drops its sender. *)
Definition drop_entry (old : option (SocketAddr * bytes * nat)) (done : gmap nat Settled) : gmap nat Settled :=
  match old with Some (_, _, call) => <[call := SenderDropped]> done | None => done end.

(** [send_receive] up to its await: the call's number. *)
Definition debug_send (payload : bytes) (address : SocketAddr) : M DebugTransport nat := fun t =>
  let id := dt_counter t in
  (dt_calls t,
   MkDebug (<[id := (address, payload, dt_calls t)]> (dt_map t)) (wrap 64 (uval id + 1)) (S (dt_calls t))
     (drop_entry (dt_map t !! id) (dt_done t))).

(** The holder of the map takes an entry out and answers it. *)
Definition debug_answer (id : u64) (reply : bytes) : M DebugTransport (option (SocketAddr * bytes)) := fun t =>
  match dt_map t !! id with
  | None => (None, t)
  | Some (address, payload, call) =>
      (Some (address, payload),
       MkDebug (delete id (dt_map t)) (dt_counter t) (dt_calls t) (<[call := Replied reply]> (dt_done t)))
  end.

(** [rx.await]: nothing yet, a reply, or the panic. *)
Definition debug_result (call : nat) (t : DebugTransport) : option Settled := dt_done t !! call.

(** The calls made so far, and who may still answer them. *)
Record debug_inv (t : DebugTransport) : Prop := {
  di_counter : uval (dt_counter t) = N.of_nat (dt_calls t);
  di_entry id a p call : dt_map t !! id = Some (a, p, call) -> uval id = N.of_nat call /\ call < dt_calls t /\ dt_done t !! call = None;
  di_done call r : dt_done t !! call = Some r -> call < dt_calls t
}.

Lemma debug_new_inv : debug_inv debug_new.
Proof. split; [done|..]; intros; cbn in *; by rewrite lookup_empty in *. Qed.

Lemma debug_send_inv payload address t :
  debug_inv t -> (N.of_nat (dt_calls t) + 1 < 2 ^ 64)%N -> debug_inv (debug_send payload address t).2.
Proof.
  intros [Hc He Hd] Hlt. assert (dt_map t !! dt_counter t = None) as Hnew.
  { destruct (dt_map t !! dt_counter t) as [[[a p] call]|] eqn:E; [|done]. apply He in E. lia. }
  unfold debug_send. rewrite Hnew. cbn. split; cbn -[N.of_nat].
  - rewrite N.mod_small by lia. lia.
  - intros id a p call [[<- [= <- <- <-]]|[_ E]]%lookup_insert_Some.
    + split_and!; [done|lia|]. destruct (dt_done t !! dt_calls t) eqn:E; [|done]. apply Hd in E. lia.
    + destruct (He _ _ _ _ E) as (? & ? & ?). split_and!; [done|lia|done].
  - intros call r E%Hd. lia.
Qed.

Lemma debug_answer_inv id reply t : debug_inv t -> debug_inv (debug_answer id reply t).2.
Proof.
  intros [Hc He Hd]. unfold debug_answer. destruct (dt_map t !! id) as [[[a p] call]|] eqn:E; [|done].
  destruct (He _ _ _ _ E) as (Hid & Hlt & Hn). cbn. split; cbn; [done|..].
  - intros i a' p' c' [Hne E']%lookup_delete_Some. destruct (He _ _ _ _ E') as (Hi & Hl & Hno).
    split_and!; [done|done|]. rewrite lookup_insert_ne; [done|]. intros ->. apply Hne, uint_eq. lia.
  - intros c' r [[-> _]|[_ E']]%lookup_insert_Some; [done|by eapply Hd].
Qed.

(** A call is answered with the reply given to its own entry, and stays so. *)
Lemma debug_call_answered payload address reply t :
  debug_inv t -> (N.of_nat (dt_calls t) + 1 < 2 ^ 64)%N ->
  let sent := debug_send payload address t in
  let answered := debug_answer (dt_counter t) reply sent.2 in
  answered.1 = Some (address, payload) /\ debug_result sent.1 answered.2 = Some (Replied reply) /\
  forall other, other <> sent.1 -> debug_result other answered.2 = debug_result other t.
Proof.
  intros Hi Hlt. assert (dt_map t !! dt_counter t = None) as Hnew.
  { destruct (dt_map t !! dt_counter t) as [[[a p] call]|] eqn:E; [|done].
    apply (di_entry _ Hi) in E. pose proof (di_counter _ Hi). lia. }
  cbv zeta. unfold debug_answer, debug_send. rewrite Hnew. cbn. rewrite lookup_insert_eq. cbn.
  split_and!; [done|unfold debug_result; cbn; by rewrite lookup_insert_eq|].
  intros other Hne. unfold debug_result. cbn. by rewrite lookup_insert_ne.
Qed.
