(* ===== verification/Stream.v ===== *)
(** * Stream: one request per connection

    Models [src/rpc_transport/stream_framing.rs]: the client half of the
    connection-shaped framing over any connection ([AsyncRead + AsyncWrite] is
    the class [AsyncStream]), and the deadline [dial_and_send] puts over it,
    which is all [tcp_transport.rs] adds to a real socket. *)

From S2P Require Import Prelude Machine Contacts Address Wire.

(** [AsyncRead + AsyncWrite], as far as the framing uses them. *)
Class AsyncStream (S : Type) := {
  write_all : bytes -> M S (result IoError unit);
  shutdown : M S (result IoError unit);
  read_exact : nat -> M S (result IoError bytes);
  read_to_end : M S (result IoError bytes)
}.

(** The [?] of an [async] block: stop at the first error. *)
Definition try_io {S A C} (m : M S (result IoError A)) (k : A -> M S (result IoError C))
    : M S (result IoError C) :=
  r ← m;
  match r with Ok a => k a | Err e => mret (Err e) end.

Definition STREAM_DEADLINE : Duration := from_secs 2.

Definition id_mismatch (echoed id : u64) : IoError :=
  MkIoError InvalidData ("reply echoed request id " +:+ show_hex echoed +:+ ", expected " +:+ show_hex id).

Section framing.
Context {S : Type} `{AsyncStream S}.

(** [draw] is the value of [rand::random::<u64>()]. *)
Definition stream_send_receive (draw : u64) (payload : bytes) : M S (result IoError bytes) :=
  let id := request_id draw in
  try_io (write_all (to_be_bytes id)) (fun _ =>
  try_io (write_all payload) (fun _ =>
  try_io shutdown (fun _ =>
  try_io (read_exact ID_LEN) (fun id_bytes =>
  let echoed := from_be_bytes id_bytes in
  if bool_decide (request_id echoed <> id)
  then mret (Err (id_mismatch echoed id))
  else try_io read_to_end (fun body => mret (Ok body)))))).

Definition no_reply (deadline : Duration) : IoError :=
  MkIoError TimedOut ("no reply within " +:+ debug_duration deadline).

(** [took] is how long connecting and the exchange take together. *)
Definition dial_and_send (connect : result IoError S) (draw : u64) (payload : bytes)
    (deadline took : Duration) : result IoError bytes :=
  if (took <=? deadline)%N
  then stream ← connect; (stream_send_receive draw payload stream).1
  else Err (no_reply deadline).
End framing.

(** ** A connection to a server that answers the whole request *)

(** The in-process pipe: [to_peer] is what was written, and on the half-close
    the peer reads it all and writes its answer. *)
Record Pipe : Type := MkPipe {
  answer : bytes -> bytes;
  to_peer : bytes;
  half_closed : bool;
  from_peer : bytes
}.

Definition pipe_to (answer : bytes -> bytes) : Pipe := MkPipe answer [] false [].

#[export] Instance pipe_stream : AsyncStream Pipe := {
  write_all l := fun p =>
    if half_closed p then (Err (MkIoError (OtherKind "BrokenPipe") "write after shutdown"), p)
    else (Ok tt, MkPipe (answer p) (to_peer p ++ l) false (from_peer p));
  shutdown := fun p => (Ok tt, MkPipe (answer p) (to_peer p) true (answer p (to_peer p)));
  read_exact n := fun p =>
    if n <=? length (from_peer p)
    then (Ok (take n (from_peer p)), MkPipe (answer p) (to_peer p) (half_closed p) (drop n (from_peer p)))
    else (Err (MkIoError UnexpectedEof "early eof"), p);
  read_to_end := fun p => (Ok (from_peer p), MkPipe (answer p) (to_peer p) (half_closed p) [])
}.

(** What the client makes of the peer's bytes. *)
Definition read_reply (id : u64) (reply : bytes) : result IoError bytes :=
  match split_at_checked ID_LEN reply with
  | None => Err (MkIoError UnexpectedEof "early eof")
  | Some (id_bytes, body) =>
      if bool_decide (request_id (from_be_bytes id_bytes) <> id)
      then Err (id_mismatch (from_be_bytes id_bytes) id) else Ok body
  end.

Lemma stream_over_pipe draw payload answer :
  (stream_send_receive draw payload (pipe_to answer)).1 =
  read_reply (request_id draw) (answer (frame_request (request_id draw) payload)).
Proof.
  unfold stream_send_receive, read_reply, frame_request, split_at_checked, try_io. cbv zeta.
  generalize (to_be_bytes (request_id draw)). generalize (request_id draw). generalize ID_LEN.
  intros n id idb.
  mstep. cbn. mstep. cbn. mstep. cbn. mstep.
  generalize (answer (idb ++ payload)). intros reply. cbn.
  destruct (n <=? length reply); cbn; [|done].
  case_bool_decide; mstep; done.
Qed.

Lemma read_reply_framed draw body :
  read_reply (request_id draw) (frame_reply (request_id draw) body) = Ok body.
Proof.
  unfold read_reply, frame_reply. rewrite split_at_app by apply to_be_bytes_length.
  rewrite from_to_be_bytes, request_id_reply_id, request_id_idemp.
  by rewrite bool_decide_false by (intros Hx; by apply Hx).
Qed.

(** An accepted reply carries our id, in either tag, in front of the body. *)
Lemma read_reply_Ok id reply body :
  read_reply id reply = Ok body ->
  exists echoed, reply = to_be_bytes echoed ++ body /\ request_id echoed = id.
Proof.
  unfold read_reply. destruct (split_at_checked ID_LEN reply) as [[l b]|] eqn:E; [|done].
  apply split_at_Some in E as [-> Hl]. case_bool_decide as Hid; [done|]. intros [= ->].
  exists (from_be_bytes l). split; [|destruct (decide (request_id (from_be_bytes l) = id)); [done|by destruct Hid]].
  f_equal. unfold to_be_bytes, from_be_bytes. rewrite uval_wrap, N.mod_small.
  - pose proof (be_bytes_be_val l) as Hb. rewrite Hl in Hb. symmetry. exact Hb.
  - pose proof (be_val_lt l) as Hb. rewrite Hl in Hb. done.
Qed.
