(* ===== verification/Network.v ===== *)
(** * Network: the in-process wire

    Models [src/rpc_transport/networked_debug_transport.rs], the network of
    channels that in-process nodes run on.  Channels are modelled as a shared
    store: an endpoint is a number, its two inboxes live in the network's state,
    and the bound senders in [sockets] refer to it by that number, so that a
    receiver which lost its sender and a sender whose receiver is gone are both
    states of the model.  A datagram delayed by the configured latency sits in
    [in_flight] until it lands; which one lands when is up to the scheduler.
    Loss compares an [f64] with a random one; both are rationals here. *)

From Stdlib Require Import QArith.QArith.
From S2P Require Import Prelude Slices Machine Contacts Address Wire Pending Datagram Stream.

Local Open Scope nat_scope.

Definition FIRST_EPHEMERAL_PORT : u16 := wrap 16 49152.

Abbreviation Packet := (SocketAddr * bytes)%type.

Record NetworkConfig : Type := MkNetworkConfig {
  latency : Duration;
  loss : Q
}.

Definition default_config : NetworkConfig := MkNetworkConfig 0%N 0%Q.

(** The receiving halves an endpoint owns.  A connection is the number of its
    pipe. *)
Record Endpoint : Type := MkEndpoint {
  ep_addr : SocketAddr;
  ep_inbox : list Packet;
  ep_connections : list (SocketAddr * nat)
}.

Record Network : Type := MkNetwork {
  sockets : gmap SocketAddr nat;
  config : NetworkConfig;
  next_port : u16;
  endpoints : gmap nat Endpoint;
  fresh : nat;
  in_flight : list (SocketAddr * SocketAddr * bytes);
  pipes : nat
}.

Definition with_config (config : NetworkConfig) : Network :=
  MkNetwork ∅ config FIRST_EPHEMERAL_PORT ∅ 0 [] 0.

Definition network_new : Network := with_config default_config.

Definition set_sockets (f : gmap SocketAddr nat -> gmap SocketAddr nat) (n : Network) : Network :=
  MkNetwork (f (sockets n)) (config n) (next_port n) (endpoints n) (fresh n) (in_flight n) (pipes n).
Definition set_endpoints (f : gmap nat Endpoint -> gmap nat Endpoint) (n : Network) : Network :=
  MkNetwork (sockets n) (config n) (next_port n) (f (endpoints n)) (fresh n) (in_flight n) (pipes n).
Definition set_in_flight (f : list (SocketAddr * SocketAddr * bytes) -> list (SocketAddr * SocketAddr * bytes))
    (n : Network) : Network :=
  MkNetwork (sockets n) (config n) (next_port n) (endpoints n) (fresh n) (f (in_flight n)) (pipes n).

(** ** Binding *)

Definition bind (addr : SocketAddr) : M Network (option nat) :=
  fun n =>
    match sockets n !! addr with
    | Some _ => (None, n)
    | None =>
        (Some (fresh n),
         MkNetwork (<[addr := fresh n]> (sockets n)) (config n) (next_port n)
           (<[fresh n := MkEndpoint addr [] []]> (endpoints n)) (S (fresh n)) (in_flight n) (pipes n))
    end.

Definition localhost : array 4 := MkArray (n:=4) [x7f; x00; x00; x01] I.

(** [next_port.fetch_add(1)]: ports wrap. *)
Definition fetch_port : M Network u16 :=
  fun n => (next_port n,
    MkNetwork (sockets n) (config n) (wrap 16 (uval (next_port n) + 1)) (endpoints n) (fresh n)
      (in_flight n) (pipes n)).

(** The loop skips port 0 and so runs at most twice ([next_addr_port]). *)
Definition next_addr : M Network SocketAddr :=
  port ← fetch_port;
  if (uval port =? 0)%N
  then port ← fetch_port; mret (V4 localhost port)
  else mret (V4 localhost port).

(** [loop { if let Some(x) = attempt(self.next_addr()) { return x } }], for at
    most [tries] rounds. *)
Fixpoint search {X} (tries : nat) (attempt : SocketAddr -> M Network (option X)) : M Network (option X) :=
  match tries with
  | O => mret None
  | S tries =>
      addr ← next_addr;
      found ← attempt addr;
      match found with
      | Some x => mret (Some x)
      | None => search tries attempt
      end
  end.

(** Once round all ports. *)
Definition PORTS : nat := N.to_nat 65536.

Definition bind_any : M Network (option nat) := search PORTS bind.

Definition unbind (addr : SocketAddr) : M Network bool :=
  fun n => (bool_decide (is_Some (sockets n !! addr)), set_sockets (delete addr) n).

(** ** Datagrams *)

Definition deliver_to (from to : SocketAddr) (payload : bytes) (n : Network) : Network :=
  match sockets n !! to with
  | Some ep =>
      set_endpoints (alter (fun e => MkEndpoint (ep_addr e) (ep_inbox e ++ [(from, payload)]) (ep_connections e)) ep) n
  | None => n
  end.

Definition qlt (a b : Q) : bool := negb (Qle_bool b a).

(** [draw] is the value of [rand::random::<f64>()]. *)
Definition send (draw : Q) (from to : SocketAddr) (payload : bytes) (n : Network) : Network :=
  if qlt 0 (loss (config n)) && qlt draw (loss (config n)) then n
  else if (latency (config n) =? 0)%N then deliver_to from to payload n
  else set_in_flight (fun l => l ++ [(from, to, payload)]) n.

(** The task spawned for a delayed datagram wakes up. *)
Definition land (i : nat) (n : Network) : Network :=
  match in_flight n !! i with
  | Some (from, to, payload) => deliver_to from to payload (set_in_flight (delete i) n)
  | None => n
  end.

(** ** Connections *)

Definition unbound (addr : SocketAddr) : M Network (option SocketAddr) :=
  gets (fun n => match sockets n !! addr with Some _ => None | None => Some addr end).

Definition refused (to : SocketAddr) : IoError :=
  MkIoError ConnectionRefused ("nothing listening at " +:+ socket_to_string to)%string.

(** The endpoint bound at an address, if it is still there. *)
Definition listener (to : SocketAddr) (n : Network) : option (nat * Endpoint) :=
  match sockets n !! to with
  | Some ep => match endpoints n !! ep with Some e => Some (ep, e) | None => None end
  | None => None
  end.

(** Queue the far end of a new pipe at [to], if somebody listens there. *)
Definition hand_over (from to : SocketAddr) : M Network (result IoError nat) :=
  fun n =>
    let pipe := pipes n in
    let n := MkNetwork (sockets n) (config n) (next_port n) (endpoints n) (fresh n) (in_flight n) (S pipe) in
    match listener to n with
    | Some (ep, e) =>
        (Ok pipe,
         set_endpoints (<[ep := MkEndpoint (ep_addr e) (ep_inbox e) (ep_connections e ++ [(from, pipe)])]>) n)
    | None => (Err (refused to), n)
    end.

(** [None] when no loopback port is free, where the source would loop. *)
Definition connect (to : SocketAddr) : M Network (option (result IoError nat)) :=
  from ← search PORTS unbound;
  match from with
  | None => mret None
  | Some from => connected ← hand_over from to; mret (Some connected)
  end.

(** ** Endpoints *)

Definition unbound_error : IoError := MkIoError (OtherKind "NotConnected") "endpoint unbound".

(** Whether the sender of this endpoint's queues is still in [sockets]. *)
Definition sender_bound (ep : nat) (e : Endpoint) (n : Network) : bool :=
  bool_decide (sockets n !! ep_addr e = Some ep).

(** [mpsc::UnboundedReceiver::recv]: queued items first, then [None] once the
    sender is gone. *)
Definition recv_from (ep : nat) : M Network (Poll (option Packet)) :=
  fun n =>
    match endpoints n !! ep with
    | Some (MkEndpoint addr (packet :: inbox) connections) =>
        (Ready (Some packet), set_endpoints (<[ep := MkEndpoint addr inbox connections]>) n)
    | Some e => (if sender_bound ep e n then NotReady else Ready None, n)
    | None => (Ready None, n)
    end.

Definition receive_packet (buf : nat) (ep : nat) : M Network (Poll (result IoError (bytes * SocketAddr))) :=
  got ← recv_from ep;
  mret (match got with
        | NotReady => NotReady
        | Ready None => Ready (Err unbound_error)
        | Ready (Some (from, datagram)) => Ready (Ok (take (length datagram `min` buf) datagram, from))
        end).

Definition accept (ep : nat) : M Network (Poll (result IoError (nat * SocketAddr))) :=
  fun n =>
    match endpoints n !! ep with
    | Some (MkEndpoint addr inbox ((from, stream) :: connections)) =>
        (Ready (Ok (stream, from)), set_endpoints (<[ep := MkEndpoint addr inbox connections]>) n)
    | Some e => (if sender_bound ep e n then NotReady else Ready (Err unbound_error), n)
    | None => (Ready (Err unbound_error), n)
    end.

Definition send_packet (draw : Q) (ep : nat) (payload : bytes) (address : SocketAddr)
    : M Network (result IoError unit) :=
  fun n =>
    match endpoints n !! ep with
    | Some e => (Ok tt, send draw (ep_addr e) address payload n)
    | None => (Ok tt, n)
    end.

(** [Drop for Endpoint]: the entry under the address goes, whoever's it is. *)
Definition drop_endpoint (ep : nat) (n : Network) : Network :=
  match endpoints n !! ep with
  | Some e => set_endpoints (delete ep) (set_sockets (delete (ep_addr e)) n)
  | None => n
  end.

(** [NetworkedStreamTransport::send_receive]; [open] gives the client end of a
    pipe, [took] how long the exchange takes. *)
Definition networked_send_receive {S} `{AsyncStream S} (open : nat -> S) (draw : u64) (took : Duration)
    (payload : bytes) (address : SocketAddr) : M Network (option (result IoError bytes)) :=
  connected ← connect address;
  mret ((fun c => dial_and_send (match c with Ok p => Ok (open p) | Err e => Err e end)
                    draw payload STREAM_DEADLINE took) <$> connected).

(** ** Finding a free port *)

Lemma next_addr_port (n : Network) :
  exists port, (next_addr n).1 = V4 localhost port /\ (uval port <> 0)%N /\
    sockets (next_addr n).2 = sockets n /\ endpoints (next_addr n).2 = endpoints n /\
    uval (next_port (next_addr n).2) = ((uval port + 1) mod 65536)%N /\
    (port = next_port n \/ uval (next_port n) = 0%N /\ uval port = 1%N).
Proof.
  unfold next_addr. mstep. destruct (uval (fetch_port n).1 =? 0)%N eqn:Hz; mstep; cbn in Hz |- *.
  - apply N.eqb_eq in Hz. eexists. split; [done|]. cbn. rewrite Hz. cbn. split_and!; try done. by right.
  - apply N.eqb_neq in Hz. eexists. split; [done|]. cbn. split_and!; try done. by left.
Qed.

(** An attempt that fails only on a bound address, and then changes nothing. *)
Definition wants_unbound {X} (attempt : SocketAddr -> M Network (option X)) : Prop :=
  forall a n, match sockets n !! a with
              | Some _ => attempt a n = (None, n)
              | None => is_Some (attempt a n).1
              end.

Lemma bind_wants : wants_unbound bind.
Proof. intros a n. unfold bind. by destruct (sockets n !! a). Qed.

Lemma unbound_wants : wants_unbound unbound.
Proof. intros a n. unfold unbound, gets. by destruct (sockets n !! a). Qed.

(** Ports still to go before the search comes to [port]. *)
Definition ahead (port next : N) : nat :=
  N.to_nat (if (next <=? port)%N then port - next else port + 65536 - next).

Section search.
Context {X : Type} (attempt : SocketAddr -> M Network (option X)) (ok : wants_unbound attempt).

Lemma search_finds tries n port :
  (uval port <> 0)%N -> sockets n !! V4 localhost port = None ->
  ahead (uval port) (uval (next_port n)) < tries -> is_Some (search tries attempt n).1.
Proof using ok.
  revert n. induction tries as [|tries IH]; intros n Hp Hfree Ht; [lia|]. cbn [search]. mstep.
  destruct (next_addr_port n) as (q & Hq & Hq0 & Hs & _ & Hnext & Hcase). rewrite Hq.
  pose proof (ok (V4 localhost q) (next_addr n).2) as Ha. rewrite Hs in Ha.
  destruct (sockets n !! V4 localhost q) as [ep|] eqn:Hb.
  - rewrite Ha. cbn [fst snd]. apply IH; [done|by rewrite Hs|].
    assert (uval q <> uval port) as Hne by (intros ?%uint_eq; congruence).
    pose proof (uint_bound q). pose proof (uint_bound port). change (2 ^ 16)%N with 65536%N in *.
    rewrite Hnext. revert Ht. unfold ahead.
    destruct (decide (uval q + 1 = 65536)%N) as [He|He].
    + rewrite He. change (65536 mod 65536)%N with 0%N.
      destruct Hcase as [<-|[Hz H1]]; [|lia].
      destruct (uval q <=? uval port)%N eqn:E1; [apply N.leb_le in E1; lia|].
      apply N.leb_gt in E1. destruct (0 <=? uval port)%N eqn:E3; [|apply N.leb_gt in E3]; lia.
    + rewrite N.mod_small by lia.
      destruct Hcase as [<-|[Hz H1]].
      * destruct (uval q <=? uval port)%N eqn:E1, (uval q + 1 <=? uval port)%N eqn:E2;
          repeat match goal with H : (_ <=? _)%N = true |- _ => apply N.leb_le in H
                               | H : (_ <=? _)%N = false |- _ => apply N.leb_gt in H end; lia.
      * rewrite Hz, H1. destruct (1 + 1 <=? uval port)%N eqn:E2;
          [apply N.leb_le in E2|apply N.leb_gt in E2]; destruct (0 <=? uval port)%N eqn:E3;
          try apply N.leb_gt in E3; lia.
  - destruct Ha as [x Hx]. rewrite Hx. by mstep.
Qed.

(** If every port is bound the search never returns. *)
Lemma search_exhausted tries n :
  (forall port, (uval port <> 0)%N -> is_Some (sockets n !! V4 localhost port)) ->
  (search tries attempt n).1 = None.
Proof using ok.
  revert n. induction tries as [|tries IH]; intros n Hall; [done|]. cbn [search]. mstep.
  destruct (next_addr_port n) as (q & Hq & Hq0 & Hs & _). rewrite Hq.
  pose proof (ok (V4 localhost q) (next_addr n).2) as Ha. rewrite Hs in Ha.
  destruct (Hall q Hq0) as [ep Hep]. rewrite Hep in Ha. rewrite Ha. cbn [fst snd].
  apply IH. intros port Hport. rewrite Hs. by apply Hall.
Qed.
End search.

Lemma ahead_lt port next : (port < 65536)%N -> (next < 65536)%N -> ahead port next < PORTS.
Proof.
  unfold ahead, PORTS. intros Hp Hn.
  destruct (next <=? port)%N eqn:E; [apply N.leb_le in E|apply N.leb_gt in E]; lia.
Qed.

(** One turn round the ports is enough: a search finds a free one exactly when
    there is one. *)
Lemma search_total {X} (attempt : SocketAddr -> M Network (option X)) n :
  wants_unbound attempt ->
  is_Some (search PORTS attempt n).1 <->
  exists port, (uval port <> 0)%N /\ sockets n !! V4 localhost port = None.
Proof.
  intros ok. split.
  - intros Hf. destruct (decide (Forall (fun v => v = 0%N \/ is_Some (sockets n !! V4 localhost (wrap 16 v)))
                                (N.of_nat <$> seq 0 PORTS))) as [Hall|Hex].
    + rewrite search_exhausted in Hf; [by destruct Hf| |]; [done|]. intros port Hp.
      rewrite Forall_forall in Hall. destruct (Hall (uval port)) as [?|Hb]; [|done|by rewrite wrap_uval in Hb].
      apply list_elem_of_fmap. exists (N.to_nat (uval port)). split; [lia|].
      apply elem_of_seq. pose proof (uint_bound port). change (2 ^ 16)%N with 65536%N in *. unfold PORTS. lia.
    + apply not_Forall_Exists in Hex; [|apply _]. apply Exists_exists in Hex as (v & Hv & Hn).
      apply list_elem_of_fmap in Hv as (i & -> & Hi%elem_of_seq). exists (wrap 16 (N.of_nat i)).
      rewrite uval_wrap, N.mod_small by (change (2 ^ 16)%N with 65536%N; unfold PORTS in Hi; lia).
      split; [intros ?; apply Hn; by left|]. destruct (sockets n !! _) eqn:E; [|done]. destruct Hn. right. eauto.
  - intros (port & Hp & Hfree). eapply search_finds; [done|done|done|].
    apply ahead_lt; apply (uint_bound (w:=16)).
Qed.

(** ** What travels over the wire *)

Inductive NetEvent : Type :=
| EvBind (addr : SocketAddr)
| EvBindAny
| EvUnbind (addr : SocketAddr)
| EvSend (draw : Q) (from to : SocketAddr) (payload : bytes)
| EvLand (i : nat)
| EvConnect (to : SocketAddr)
| EvRecv (ep : nat)
| EvAccept (ep : nat)
| EvDrop (ep : nat).

Definition net_step (n : Network) (ev : NetEvent) : Network :=
  match ev with
  | EvBind addr => (bind addr n).2
  | EvBindAny => (bind_any n).2
  | EvUnbind addr => (unbind addr n).2
  | EvSend draw from to payload => send draw from to payload n
  | EvLand i => land i n
  | EvConnect to => (connect to n).2
  | EvRecv ep => (recv_from ep n).2
  | EvAccept ep => (accept ep n).2
  | EvDrop ep => drop_endpoint ep n
  end.

(** Any interleaving of the operations, in order. *)
Definition net_run (tr : list NetEvent) (n : Network) : Network := foldl net_step n tr.

(** Bound addresses lead to live endpoints of that address, and every datagram
    was sent to where it is. *)
Record net_ok (tr : list NetEvent) (n : Network) : Prop := {
  no_bound a ep : sockets n !! a = Some ep -> exists e, endpoints n !! ep = Some e /\ ep_addr e = a;
  no_fresh ep e : endpoints n !! ep = Some e -> ep < fresh n;
  no_inbox ep e from p : endpoints n !! ep = Some e -> (from, p) ∈ ep_inbox e ->
    exists d, EvSend d from (ep_addr e) p ∈ tr;
  no_flight from to p : (from, to, p) ∈ in_flight n -> exists d, EvSend d from to p ∈ tr
}.

Lemma net_ok_more tr ev n : net_ok tr n -> net_ok (tr ++ [ev]) n.
Proof.
  intros [Hb Hf Hi Hl]. split; [done|done| |].
  - intros ep e from p He Hp. destruct (Hi ep e from p He Hp) as [d Hd]. exists d. set_solver.
  - intros from to p Hp. destruct (Hl from to p Hp) as [d Hd]. exists d. set_solver.
Qed.

Lemma net_ok_next_addr tr : preserves (net_ok tr) next_addr.
Proof.
  assert (preserves (net_ok tr) fetch_port) by (by intros n []).
  unfold next_addr. apply preserves_bind; [done|]. intros port.
  destruct (uval port =? 0)%N; [|apply preserves_ret].
  apply preserves_bind; [done|]. intros; apply preserves_ret.
Qed.

Lemma net_ok_search {X} tr tries (attempt : SocketAddr -> M Network (option X)) :
  (forall a, preserves (net_ok tr) (attempt a)) -> preserves (net_ok tr) (search tries attempt).
Proof.
  intros Ha. induction tries as [|tries IH]; [apply preserves_ret|]. cbn [search].
  apply preserves_bind; [apply net_ok_next_addr|]. intros a.
  apply preserves_bind; [apply Ha|]. intros [x|]; [apply preserves_ret|apply IH].
Qed.

Lemma net_ok_bind tr a : preserves (net_ok tr) (bind a).
Proof.
  intros n Hok. unfold bind. destruct (sockets n !! a) eqn:Ha; [done|]. destruct Hok as [Hb Hf Hi Hl].
  split; cbn; [| | |done].
  - intros b ep [[<- <-]|[Hne Hs]]%lookup_insert_Some; [rewrite lookup_insert_eq; eauto|].
    destruct (Hb b ep Hs) as (e & He & Hea). exists e. split; [|done].
    rewrite lookup_insert_ne; [done|]. apply Hf in He. lia.
  - intros ep e [[<- _]|[_ He]]%lookup_insert_Some; [lia|]. apply Hf in He. lia.
  - intros ep e from p [[_ <-]|[_ He]]%lookup_insert_Some Hp; [set_solver|by eapply Hi].
Qed.

(** Replacing an endpoint's queues by queues of accounted datagrams. *)
Lemma net_ok_update tr n ep e e' :
  net_ok tr n -> endpoints n !! ep = Some e -> ep_addr e' = ep_addr e ->
  (forall from p, (from, p) ∈ ep_inbox e' -> (from, p) ∈ ep_inbox e \/ exists d, EvSend d from (ep_addr e) p ∈ tr) ->
  net_ok tr (set_endpoints (<[ep := e']>) n).
Proof.
  intros [Hb Hf Hi Hl] He Ha Hq. split; cbn; [| | |done].
  - intros a ep1 Hs. destruct (Hb a ep1 Hs) as (e1 & He1 & Hea).
    destruct (decide (ep = ep1)) as [->|Hne]; [|rewrite lookup_insert_ne; eauto].
    rewrite lookup_insert_eq. exists e'. split; [done|]. congruence.
  - intros ep1 e1 [[<- _]|[_ He1]]%lookup_insert_Some; [by eapply Hf|by eapply Hf].
  - intros ep1 e1 from p [[<- <-]|[_ He1]]%lookup_insert_Some Hp; [|by eapply Hi].
    rewrite Ha. destruct (Hq from p Hp) as [?|?]; [by eapply Hi|done].
Qed.

Lemma net_ok_deliver tr n from to p :
  net_ok tr n -> (exists d, EvSend d from to p ∈ tr) -> net_ok tr (deliver_to from to p n).
Proof.
  intros Hok Hd. unfold deliver_to. destruct (sockets n !! to) as [ep|] eqn:Hs; [|done].
  destruct (no_bound _ _ Hok to ep Hs) as (e & He & Ha).
  assert (forall f, alter f ep (endpoints n) = <[ep := f e]> (endpoints n)) as Halt.
  { intros f. apply map_eq. intros i. destruct (decide (ep = i)) as [->|Hne].
    - by rewrite lookup_alter_eq, lookup_insert_eq, He.
    - by rewrite lookup_alter_ne, lookup_insert_ne. }
  unfold set_endpoints. rewrite Halt. apply (net_ok_update tr n ep e _ Hok He); [done|].
  intros from' p' [Hp|Hp]%elem_of_app; [by left|]. right.
  apply list_elem_of_singleton in Hp. injection Hp as -> ->. by rewrite Ha.
Qed.

Lemma net_ok_land tr i n : net_ok tr n -> net_ok tr (land i n).
Proof.
  intros Hok. unfold land. destruct (in_flight n !! i) as [[[from to] p]|] eqn:Hi; [|done].
  apply net_ok_deliver; [|by eapply no_flight, list_elem_of_lookup_2].
  destruct Hok as [Hb Hf Hin Hl]. split; cbn; [done..|]. intros from' to' p' Hp. apply Hl.
  apply list_elem_of_lookup in Hp as [j Hj]. apply list_elem_of_lookup.
  destruct (decide (j < i)); [exists j; by rewrite list_lookup_delete_lt in Hj|].
  exists (S j). rewrite list_lookup_delete_ge in Hj by lia. done.
Qed.

Lemma net_ok_send tr d from to p n : net_ok tr n -> net_ok (tr ++ [EvSend d from to p]) (send d from to p n).
Proof.
  intros Hok%(net_ok_more _ (EvSend d from to p)). unfold send. destruct (_ && _); [done|].
  destruct (latency (config n) =? 0)%N; [apply net_ok_deliver; [done|exists d; set_solver]|].
  destruct Hok as [Hb Hf Hi Hl]. split; cbn; [done..|].
  intros from' to' p' [Hp|Hp]%elem_of_app; [by apply Hl|].
  apply list_elem_of_singleton in Hp. injection Hp as -> -> ->. exists d. set_solver.
Qed.

Lemma net_ok_connect tr to : preserves (net_ok tr) (connect to).
Proof.
  unfold connect. apply preserves_bind; [apply net_ok_search; intros a; apply preserves_gets|].
  intros [from|]; [|apply preserves_ret]. apply preserves_bind; [|intros; apply preserves_ret].
  intros n Hok. unfold hand_over, listener. cbn [sockets endpoints].
  destruct (sockets n !! to) as [ep|] eqn:Hs; [|destruct Hok; by split].
  destruct (endpoints n !! ep) as [e|] eqn:He; [|destruct Hok; by split].
  apply (net_ok_update tr (MkNetwork _ _ _ _ _ _ _) ep e); [destruct Hok; by split|done|done|]. by left.
Qed.

Lemma net_ok_drop tr ep n : net_ok tr n -> net_ok tr (drop_endpoint ep n).
Proof.
  intros Hok. unfold drop_endpoint. destruct (endpoints n !! ep) as [e|] eqn:He; [|done].
  destruct Hok as [Hb Hf Hi Hl]. split; cbn; [| | |done].
  - intros a ep1 [Hne Hs]%lookup_delete_Some. destruct (Hb a ep1 Hs) as (e1 & He1 & Ha).
    exists e1. rewrite lookup_delete_ne; [done|]. intros ->. congruence.
  - intros ep1 e1 [_ ?]%lookup_delete_Some. by eapply Hf.
  - intros ep1 e1 from p [_ ?]%lookup_delete_Some. by eapply Hi.
Qed.

Lemma net_ok_step tr n ev : net_ok tr n -> net_ok (tr ++ [ev]) (net_step n ev).
Proof.
  intros Hok. destruct ev as [a| |a|d from to p|i|to|ep|ep|ep]; cbn [net_step].
  - by apply net_ok_bind, net_ok_more.
  - apply net_ok_search; [apply net_ok_bind|by apply net_ok_more].
  - apply (net_ok_more _ (EvUnbind a)) in Hok as [Hb Hf Hi Hl]. split; cbn; [|done..].
    intros b ep [_ Hs]%lookup_delete_Some. by apply Hb.
  - by apply net_ok_send.
  - by apply net_ok_land, net_ok_more.
  - by apply net_ok_connect, net_ok_more.
  - apply (net_ok_more _ (EvRecv ep)) in Hok. unfold recv_from.
    destruct (endpoints n !! ep) as [[a [|packet inbox] cs]|] eqn:He; [done| |done].
    apply (net_ok_update _ n ep _ _ Hok He); [done|]. intros from p Hp. left. by right.
  - apply (net_ok_more _ (EvAccept ep)) in Hok. unfold accept.
    destruct (endpoints n !! ep) as [[a inbox [|[from s] cs]]|] eqn:He; [done| |done].
    apply (net_ok_update _ n ep _ _ Hok He); [done|]. by left.
  - by apply net_ok_drop, net_ok_more.
Qed.

Lemma net_run_ok tr c : net_ok tr (net_run tr (with_config c)).
Proof.
  induction tr as [|ev tr IH] using rev_ind.
  - split; cbn; set_solver.
  - unfold net_run in *. rewrite foldl_app. cbn [foldl]. by apply net_ok_step.
Qed.

(** On a perfect wire a datagram to a bound address is at once the last one in
    the inbox there, and nobody else sees it. *)
Lemma send_perfect d from to p n ep e :
  loss (config n) = 0%Q -> latency (config n) = 0%N ->
  sockets n !! to = Some ep -> endpoints n !! ep = Some e ->
  send d from to p n =
    set_endpoints (<[ep := MkEndpoint (ep_addr e) (ep_inbox e ++ [(from, p)]) (ep_connections e)]>) n.
Proof.
  intros Hl Hz Hs He. unfold send, deliver_to. rewrite Hl, Hz, Hs. cbn. unfold set_endpoints. f_equal.
  apply map_eq. intros i. destruct (decide (ep = i)) as [->|Hne].
  - by rewrite lookup_alter_eq, lookup_insert_eq, He.
  - by rewrite lookup_alter_ne, lookup_insert_ne.
Qed.

(** An address that was unbound and bound again is unbound once more when the
    first endpoint is dropped: the second one is left without a sender. *)
Definition rebind (a : SocketAddr) : list NetEvent := [EvBind a; EvUnbind a; EvBind a; EvDrop 0].

Lemma rebind_orphans a :
  let n := net_run (rebind a) network_new in
  sockets n !! a = None /\ endpoints n !! 1 = Some (MkEndpoint a [] []) /\
  (recv_from 1 n).1 = Ready None.
Proof.
  cbn. unfold bind. cbn. rewrite lookup_empty. cbn. rewrite delete_insert_eq, lookup_delete_eq. cbn.
  unfold drop_endpoint. cbn. rewrite lookup_insert_ne, lookup_insert_eq by done. cbn.
  split; [apply lookup_delete_eq|].
  assert (delete 0 (<[1 := MkEndpoint a [] []]> (<[0 := MkEndpoint a [] []]> (∅ : gmap nat Endpoint))) !! 1
          = Some (MkEndpoint a [] [])) as Hep.
  { rewrite lookup_delete_ne by done. by rewrite lookup_insert_eq. }
  split; [done|]. unfold recv_from. cbn. rewrite Hep. unfold sender_bound. cbn.
  by rewrite lookup_delete_eq.
Qed.
