(* ===== verification/HandleRpc.v ===== *)
(** * HandleRpc: the server side of the four RPCs

    Models [src/handle_rpc.rs] and its handlers [ping.rs], [find_node.rs],
    [find_value.rs] and [store.rs]: the node's [Context], [dispatch], and the
    two serve loops' per-request work.  A handler runs on its own task.  STORE is
    in two parts: everything up to the value map ([store_check], with its awaits),
    and one atomic operation on an entry of the map ([store_commit], under the
    lock of the entry).  [store_handle] is the one after the other; [store_step]
    is any number of handlers whose parts interleave in any order, starting from
    arbitrary bodies of requests.  The theorems: every stored value belongs under
    its key, a stored pointer is signed by its domain's owner and has a verified
    history, and a stored pointer is only ever replaced by a continuation of its
    own history. *)

From S2P Require Import Prelude Slices Machine Contacts Crates Text Package VersionChain Wire Stream.

(** ** Messages *)

(** [rpc::FindValue]. *)
Inductive FindValueReply : Type :=
  | FoundValue (value : Value)
  | Closest (contacts : list Contact).

#[export] Instance FindValueReply_eq_dec : EqDecision FindValueReply.
Proof. solve_decision. Defined.

Record StoreRequest : Type := MkStoreRequest {
  sr_key : Key;
  sr_value : Value;
  sr_proof : list (Signed VersionRecord)
}.

(** [bincode] at every type the program encodes. *)
Class Codec := {
  bincode_id :: Bincode (array 32);
  bincode_contacts :: Bincode (list Contact);
  bincode_find_value :: Bincode FindValueReply;
  bincode_store :: Bincode StoreRequest;
  bincode_record :: Bincode VersionRecord;
  bincode_pointer :: Bincode LatestPointer;
  bincode_signed_record :: Bincode (Signed VersionRecord);
  bincode_signed_pointer :: Bincode (Signed LatestPointer)
}.

(** serde writes a [SocketAddrV6] as its ip and its port; what is read back has
    neither flow information nor a scope. *)
Definition serde_address (a : SocketAddr) : SocketAddr :=
  match a with
  | V4 ip port => V4 ip port
  | V6 ip port _ _ => V6 ip port (wrap 32 0) (wrap 32 0)
  end.

Definition serde_contact (c : Contact) : Contact := MkContact (id c) (serde_address (address c)).

Definition serde_find_value (r : FindValueReply) : FindValueReply :=
  match r with
  | FoundValue v => FoundValue v
  | Closest l => Closest (serde_contact <$> l)
  end.

(** What has been encoded decodes to the same value, up to that. *)
Class CodecLaws `{Codec} : Prop := {
  laws_id :: BincodeLaws (array 32);
  laws_contacts (l : list Contact) (bs : bytes) :
    serialize l = Some bs -> deserialize bs = Some (serde_contact <$> l);
  laws_find_value (r : FindValueReply) (bs : bytes) :
    serialize r = Some bs -> deserialize bs = Some (serde_find_value r);
  laws_store :: BincodeLaws StoreRequest;
  laws_signed_record :: BincodeLaws (Signed VersionRecord)
}.

(** An address serde keeps as it is. *)
Definition plain (a : SocketAddr) : Prop := serde_address a = a.

Lemma serde_contact_plain c : plain (address c) -> serde_contact c = c.
Proof. unfold plain, serde_contact. intros ->. by destruct c. Qed.

Lemma serde_contacts_plain (l : list Contact) : (forall c, c ∈ l -> plain (address c)) -> serde_contact <$> l = l.
Proof.
  induction l as [|c l IH]; intros Hl; [done|]. rewrite fmap_cons, serde_contact_plain, IH; [done| |by apply Hl; left].
  intros x Hx. apply Hl. by right.
Qed.

(** The sizes of what goes over datagrams: an id is its 32 bytes, a list its
    length and its elements.  (A contact takes at most 54 bytes; the law leaves
    room.) *)
Class CodecSizes `{Codec} : Prop := {
  size_id (i : array 32) (q : bytes) : serialize i = Some q -> length q = 32;
  size_contacts (l : list Contact) (q : bytes) : serialize l = Some q -> length q <= 8 + 64 * length l
}.

Definition STORED : bytes := as_bytes "STORED".

(** [dns_data::DnsData]: a resolver may answer differently over time. *)
Class DnsData `{Ed25519} (D : Type) := get_dns_vk : string -> M D (option VerifyingKey).

(** ** The node's state *)

Record Context (A D : Type) : Type := MkContext {
  my_id : NodeId;
  ctx_nodes : A;
  ctx_values : gmap Key Value;
  ctx_dns : D
}.
Arguments MkContext {A D} my_id ctx_nodes ctx_values ctx_dns.
Arguments my_id {A D} c.
Arguments ctx_nodes {A D} c.
Arguments ctx_values {A D} c.
Arguments ctx_dns {A D} c.

Section handlers.
Context `{Sha256} `{Ed25519} `{Codec} {A D : Type} `{CloseNodes A} `{!DnsData D}.

Definition context_new (my_id : NodeId) (close_nodes : A) (dns : D) : Context A D :=
  MkContext my_id close_nodes ∅ dns.

Definition on_nodes {X} (m : M A X) : M (Context A D) X :=
  fun c => let r := m (ctx_nodes c) in (r.1, MkContext (my_id c) r.2 (ctx_values c) (ctx_dns c)).
Definition on_dns {X} (m : M D X) : M (Context A D) X :=
  fun c => let r := m (ctx_dns c) in (r.1, MkContext (my_id c) (ctx_nodes c) (ctx_values c) r.2).
Definition insert_value (k : Key) (v : Value) : M (Context A D) unit :=
  modify (fun c => MkContext (my_id c) (ctx_nodes c) (<[k := v]> (ctx_values c)) (ctx_dns c)).

(** *** PING *)

Definition ping_decode_reply (reply : bytes) : option NodeId := deserialize reply.

Definition ping_handle (body : bytes) : M (Context A D) (option bytes) :=
  gets (fun c => serialize (my_id c)).

(** *** FIND_NODE *)

Definition find_node_encode_request (target : NodeId) : option bytes := serialize target.
Definition find_node_decode_reply (reply : bytes) : option (list Contact) := deserialize reply.

Definition find_node_handle (now : Instant) (body : bytes) : M (Context A D) (option bytes) :=
  match deserialize body with
  | None => mret None
  | Some target =>
      contacts ← on_nodes (close_nodes now target);
      mret (serialize contacts)
  end.

(** *** FIND_VALUE *)

Definition find_value_handle (now : Instant) (body : bytes) : M (Context A D) (option bytes) :=
  match deserialize body with
  | None => mret None
  | Some key =>
      stored ← gets (fun c => ctx_values c !! key);
      match stored with
      | Some value => mret (serialize (FoundValue value))
      | None =>
          contacts ← on_nodes (close_nodes now key);
          mret (serialize (Closest contacts))
      end
  end.

(** *** STORE *)

Definition encode_request_with_proof (key : Key) (value : Value)
    (proof : list (Signed VersionRecord)) : option bytes :=
  serialize (MkStoreRequest key value proof).

Definition encode_request (key : Key) (value : Value) : option bytes :=
  encode_request_with_proof key value [].

Definition continues_previous (old proposed : Signed LatestPointer)
    (verified_chain : list (Signed VersionRecord)) : bool :=
  if bool_decide (old = proposed) then true
  else if version_le (lp_version (body proposed)) (lp_version (body old)) then false
  else existsb (fun record =>
         bool_decide (record_key record = Some (lp_version_record_hash (body old))) &&
         bool_decide (vr_version (body record) = lp_version (body old))) verified_chain.

(** The entry operation of the blob arm. *)
Definition commit_blob (key : Key) (value : Value) : M (Context A D) (option bytes) :=
  stored ← gets (fun c => ctx_values c !! key);
  match stored with
  | Some (Latest _) => mret None
  | _ => insert_value key value;; mret (Some STORED)
  end.

(** The entry operation of the pointer arm. *)
Definition commit_latest (key : Key) (pointer : Signed LatestPointer)
    (verified_chain : list (Signed VersionRecord)) : M (Context A D) (option bytes) :=
  stored ← gets (fun c => ctx_values c !! key);
  match stored with
  | Some (Latest old) =>
      if continues_previous old pointer verified_chain
      then insert_value key (Latest pointer);; mret (Some STORED)
      else mret None
  | _ => insert_value key (Latest pointer);; mret (Some STORED)
  end.

(** What a handler that has let a request through is about to do. *)
Inductive Commit : Type :=
  | CommitBlob (key : Key) (value : Value)
  | CommitLatest (key : Key) (pointer : Signed LatestPointer) (verified_chain : list (Signed VersionRecord)).

(** The handler up to its entry operation: it reads nothing the other tasks
    write but the resolver. *)
Definition store_check (req_body : bytes) : M (Context A D) (option Commit) :=
  match deserialize req_body with
  | None => mret None
  | Some (MkStoreRequest key value proof) =>
      if bool_decide (key <> value_key value) then mret None else
      match value with
      | Blob _ =>
          match proof with
          | [] => mret (Some (CommitBlob key value))
          | _ :: _ => mret None
          end
      | Latest pointer =>
          owner ← on_dns (get_dns_vk (lp_domain (body pointer)));
          match owner with
          | None => mret None
          | Some owner =>
              if negb (latest_is_valid pointer owner) then mret None else
              match validate_chain_proof pointer owner proof with
              | Err _ => mret None
              | Ok verified_chain => mret (Some (CommitLatest key pointer verified_chain))
              end
          end
      end
  end.

(** The entry operation, whatever other handlers have done since the check. *)
Definition store_commit (what : Commit) : M (Context A D) (option bytes) :=
  match what with
  | CommitBlob key value => commit_blob key value
  | CommitLatest key pointer verified_chain => commit_latest key pointer verified_chain
  end.

Definition store_handle (req_body : bytes) : M (Context A D) (option bytes) :=
  checked ← store_check req_body;
  match checked with
  | None => mret None
  | Some what => store_commit what
  end.

(** *** Dispatch *)

Definition handle (now : Instant) (method : Method) (req_body : bytes) : M (Context A D) (option bytes) :=
  match method with
  | Ping => ping_handle req_body
  | Store => store_handle req_body
  | FindNode => find_node_handle now req_body
  | FindValue => find_value_handle now req_body
  end.

(** A request off a datagram wire is evidence of a reachable contact. *)
Definition learn_sender (request : Request) (sender_id : NodeId) : M (Context A D) unit :=
  if from_is_reachable request
  then on_nodes (modify (maybe_add_contact (MkContact sender_id (req_from request))))
  else mret tt.

Definition dispatch (now : Instant) (request : Request) : M (Context A D) (option bytes) :=
  match parse_framed (req_payload request) with
  | None => mret None
  | Some (sender_id, method, req_body) =>
      learn_sender request sender_id;;
      reply ← handle now method req_body;
      match reply with
      | None => mret None
      | Some reply => mret (Some (frame_reply (req_id request) reply))
      end
  end.

(** One request off the datagram channel: the reply and where it goes. *)
Definition serve_datagram (now : Instant) (request : Request)
    : M (Context A D) (option (bytes * SocketAddr)) :=
  datagram ← dispatch now request;
  mret ((fun d => (d, req_from request)) <$> datagram).

(** One accepted connection: what its task does with it.  The stream is the
    connection's own state, beside the shared context. *)
Definition serve_connection {S} `{AsyncStream S} (now : Instant) (from : SocketAddr)
    : M (Context A D * S) unit :=
  fun '(c, stream) =>
    let r := read_to_end stream in
    match r.1 with
    | Err _ => (tt, (c, r.2))
    | Ok datagram =>
        match from_connection from datagram with
        | None => (tt, (c, r.2))
        | Some request =>
            let d := dispatch now request c in
            match d.1 with
            | None => (tt, (d.2, (shutdown r.2).2))
            | Some reply =>
                let w := write_all reply r.2 in
                match w.1 with
                | Err _ => (tt, (d.2, w.2))
                | Ok _ => (tt, (d.2, (shutdown w.2).2))
                end
            end
        end
    end.
End handlers.

(** ** What the value map may hold, and how it may change *)

Section storage.
Context `{Sha256} `{Ed25519} `{Codec}.
(** The keys DNS gives for a domain. *)
Context (Auth : string -> VerifyingKey -> Prop).

(** [chain] is the pointer's verified history, under [owner]. *)
Definition verified (p : Signed LatestPointer) (owner : VerifyingKey)
    (chain : list (Signed VersionRecord)) : Prop :=
  pointer_ok p owner (lp_domain (body p)) (lp_package (body p)) /\
  history owner (lp_domain (body p)) (lp_package (body p)) (lp_version_record_hash (body p)) chain /\
  (vr_version ∘ body <$> head chain) = Some (lp_version (body p)).

Definition authentic (p : Signed LatestPointer) : Prop :=
  exists owner chain, Auth (lp_domain (body p)) owner /\ verified p owner chain.

(** Every value is under its own key, and every pointer is authentic. *)
Definition values_ok (m : gmap Key Value) : Prop :=
  forall k v, m !! k = Some v ->
    value_key v = k /\ match v with Blob _ => True | Latest p => authentic p end.

(** The atomic changes handlers make to the map. *)
Inductive commit_step (m : gmap Key Value) : gmap Key Value -> Prop :=
  | step_blob b :
      (forall p, m !! key_for_value b <> Some (Latest p)) ->
      commit_step m (<[key_for_value b := Blob b]> m)
  | step_latest p owner chain :
      Auth (lp_domain (body p)) owner -> verified p owner chain ->
      (forall old, m !! value_key (Latest p) = Some (Latest old) ->
         continues_previous old p chain = true) ->
      commit_step m (<[value_key (Latest p) := Latest p]> m).

Lemma commit_step_ok m m' : values_ok m -> commit_step m m' -> values_ok m'.
Proof.
  intros Hm Hs k v. destruct Hs as [b _|p owner chain Ha Hv _].
  - intros [[<- <-]|[_ Hk]]%lookup_insert_Some; [done|by apply Hm].
  - intros [[<- <-]|[_ Hk]]%lookup_insert_Some; [|by apply Hm].
    split; [done|]. by exists owner, chain.
Qed.

Lemma commits_ok m m' : rtc commit_step m m' -> values_ok m -> values_ok m'.
Proof. induction 1; eauto using commit_step_ok. Qed.

(** How the pointer under a key may change in one commit. *)
Definition continues (old new : Signed LatestPointer) : Prop :=
  old = new \/
  version_lt (lp_version (body old)) (lp_version (body new)) = true /\
  exists owner chain r, Auth (lp_domain (body new)) owner /\ verified new owner chain /\
    r ∈ chain /\ record_key r = Some (lp_version_record_hash (body old)) /\
    vr_version (body r) = lp_version (body old).

Lemma continues_previous_spec old new chain :
  continues_previous old new chain = true <->
  old = new \/
  version_lt (lp_version (body old)) (lp_version (body new)) = true /\
  exists r, r ∈ chain /\ record_key r = Some (lp_version_record_hash (body old)) /\
    vr_version (body r) = lp_version (body old).
Proof.
  unfold continues_previous. case_bool_decide as Heq; [tauto|].
  destruct (version_le _ _) eqn:Hle.
  - split; [done|]. intros [?|[Hlt _]]; [done|].
    apply version_le_val in Hle. apply version_lt_val in Hlt. lia.
  - apply version_le_false in Hle. rewrite existsb_exists. split.
    + intros (r & Hin & Hr). right. split; [done|]. exists r. brefl.
      by rewrite list_elem_of_In.
    + intros [?|(_ & r & Hin & Hk & Hv)]; [done|]. exists r. rewrite <- list_elem_of_In.
      by rewrite !bool_decide_true.
Qed.

(** A pointer, once there, is only replaced by a continuation. *)
Lemma commit_step_pointer m m' k old :
  commit_step m m' -> m !! k = Some (Latest old) ->
  exists new, m' !! k = Some (Latest new) /\ continues old new.
Proof.
  intros [b Hb|p owner chain Ha Hv Hc] Hk.
  - exists old. split; [|by left]. rewrite lookup_insert_ne; [done|]. intros <-. by apply Hb in Hk.
  - destruct (decide (value_key (Latest p) = k)) as [<-|Hne].
    + exists p. split; [by rewrite lookup_insert_eq|].
      destruct (proj1 (continues_previous_spec old p chain) (Hc _ Hk)) as [->|(Hlt & r & Hin & Hr & Hrv)];
        [by left|]. right. split; [done|]. by exists owner, chain, r.
    + exists old. split; [by rewrite lookup_insert_ne|by left].
Qed.

(** A pointer that is there after a commit was there before, or was verified. *)
Lemma commit_step_new m m' k p :
  commit_step m m' -> m' !! k = Some (Latest p) ->
  m !! k = Some (Latest p) \/
  exists owner chain, Auth (lp_domain (body p)) owner /\ verified p owner chain.
Proof.
  intros [b Hb|p' owner chain Ha Hv Hc]; intros [[_ Heq]|[_ Hk]]%lookup_insert_Some; [done|by left| |by left].
  injection Heq as ->. eauto.
Qed.

(** Across any number of interleaved commits its version never decreases. *)
Lemma commits_pointer m m' k old :
  rtc commit_step m m' -> m !! k = Some (Latest old) ->
  exists new, m' !! k = Some (Latest new) /\
    (old = new \/ version_lt (lp_version (body old)) (lp_version (body new)) = true).
Proof.
  intros Hs. revert old. induction Hs as [|m m1 m' Hs _ IH]; intros old Hk; [eauto|].
  destruct (commit_step_pointer _ _ _ _ Hs Hk) as (mid & Hmid & Hc).
  destruct (IH _ Hmid) as (new & Hnew & Hv). exists new. split; [done|].
  destruct Hc as [->|[Hlt _]]; [done|]. right. destruct Hv as [->|Hv]; [done|].
  rewrite version_lt_val in *. lia.
Qed.

(** A replacing pointer's history ends in the old one's, unless two records
    with one hash are exhibited. *)
Lemma continues_history old new owner chain :
  verified old owner chain -> continues old new ->
  old = new \/ exists owner' chain', Auth (lp_domain (body new)) owner' /\ verified new owner' chain' /\
    (chain `suffix_of` chain' \/
     exists r1 r2, r1 ∈ chain' /\ r2 ∈ chain /\ r1 <> r2 /\ record_key r1 = record_key r2).
Proof.
  intros (_ & Hold & _) [->|(_ & owner' & chain' & r & Ha & Hnew & Hin & Hk & _)]; [by left|].
  right. exists owner', chain'. split; [done|]. split; [done|].
  destruct (history_from _ _ _ _ _ _ (proj1 (proj2 Hnew)) Hin) as (k' & newer & rest & Heq & Hk' & Hh).
  assert (k' = lp_version_record_hash (body old)) as -> by congruence.
  destruct (history_unique _ _ _ _ _ _ _ _ _ Hh Hold) as [<-|(r1 & r2 & H1' & H2' & ? & ?)].
  - left. by exists newer.
  - right. exists r1, r2. subst. set_solver.
Qed.
End storage.

(** ** Handlers refine commits *)

Section storing.
Context `{Sha256} `{Ed25519} `{CodecLaws} {A D : Type} `{CloseNodes A} `{!DnsData D}.
Context (Auth : string -> VerifyingKey -> Prop).

(** What a check lets through: the right key, and of a pointer the owner's
    signature and a verified history. *)
Definition commit_ok (what : Commit) : Prop :=
  match what with
  | CommitBlob key value => exists b, value = Blob b /\ key = value_key value
  | CommitLatest key p chain =>
      key = value_key (Latest p) /\ exists owner, Auth (lp_domain (body p)) owner /\ verified p owner chain
  end.

Lemma store_check_ok (c : Context A D) req_body what :
  (forall domain vk, (get_dns_vk domain (ctx_dns c)).1 = Some vk -> Auth domain vk) ->
  (store_check req_body c).1 = Some what ->
  commit_ok what /\ exists key value proof, deserialize req_body = Some (MkStoreRequest key value proof) /\
    match what with CommitBlob k v => k = key /\ v = value | CommitLatest k p _ => k = key /\ Latest p = value end.
Proof using H2.
  intros dns_auth. unfold store_check. destruct (deserialize req_body) as [[key value proof]|]; [|done].
  case_bool_decide as Hkey; [done|]. subst key.
  destruct value as [b|pointer].
  - destruct proof as [|r proof]; [|done]. intros [= <-]. split; [by exists b|]. by exists (value_key (Blob b)), (Blob b), [].
  - mstep. unfold on_dns.
    destruct (get_dns_vk (lp_domain (body pointer)) (ctx_dns c)) as [[owner|] d'] eqn:Hdns; [|done].
    cbn [fst snd].
    pose proof (dns_auth (lp_domain (body pointer)) owner ltac:(by rewrite Hdns)) as Ha.
    destruct (latest_is_valid pointer owner); [|done]. cbn [negb].
    destruct (validate_chain_proof pointer owner proof) as [chain|] eqn:Hval; [|done].
    apply validate_sound in Hval as (Hok & Hh & Hv & _). intros [= <-]. split; [split; [done|by exists owner]|].
    by exists (value_key (Latest pointer)), (Latest pointer), proof.
Qed.

(** A check changes nothing but the resolver's state. *)
Lemma store_check_frame (c : Context A D) req_body :
  let c' := (store_check req_body c).2 in
  my_id c' = my_id c /\ ctx_nodes c' = ctx_nodes c /\ ctx_values c' = ctx_values c /\
  (ctx_dns c' = ctx_dns c \/ exists domain, ctx_dns c' = (get_dns_vk domain (ctx_dns c)).2).
Proof.
  cbv zeta. unfold store_check. destruct (deserialize req_body) as [[key value proof]|]; [|auto].
  case_bool_decide; [auto|]. destruct value as [b|pointer]; [destruct proof; auto|].
  mstep. unfold on_dns. destruct (get_dns_vk (lp_domain (body pointer)) (ctx_dns c)) as [[owner|] d'] eqn:Hd;
    cbn [fst snd]; [destruct (negb _); [|destruct (validate_chain_proof _ _ _)]|];
    (split_and!; [done..|right; exists (lp_domain (body pointer)); by rewrite Hd]).
Qed.

(** What the entry operation does: the value under its key, or nothing. *)
Lemma store_commit_cases (c : Context A D) what :
  let r := store_commit what c in
  let '(key, value) := match what with CommitBlob k v => (k, v) | CommitLatest k p _ => (k, Latest p) end in
  r.1 = None /\ r.2 = c \/
  r = (Some STORED, MkContext (my_id c) (ctx_nodes c) (<[key := value]> (ctx_values c)) (ctx_dns c)) /\
  forall old, ctx_values c !! key = Some (Latest old) ->
    match what with CommitBlob _ _ => False | CommitLatest _ p chain => continues_previous old p chain = true end.
Proof.
  destruct what as [key value|key p chain]; cbn [store_commit]; unfold commit_blob, commit_latest; mstep;
    cbn [gets fst snd]; destruct (ctx_values c !! key) as [[b|old]|] eqn:Hold.
  5: destruct (continues_previous old p chain) eqn:Hc; [|by left].
  2: by left.
  all: right; split; [done|]; intros old' Hold'; by simplify_eq.
Qed.

Lemma store_commit_step (c : Context A D) what :
  commit_ok what ->
  ctx_values (store_commit what c).2 = ctx_values c \/
  commit_step Auth (ctx_values c) (ctx_values (store_commit what c).2).
Proof.
  intros Hok. pose proof (store_commit_cases c what) as Hc. destruct what as [key value|key p chain]; cbv zeta in Hc.
  - destruct Hok as (b & -> & ->), Hc as [[_ ->]|[-> Hold]]; [by left|right].
    apply (step_blob Auth (ctx_values c) b). intros q Hq. exact (Hold q Hq).
  - destruct Hok as (-> & owner & Ha & Hv), Hc as [[_ ->]|[-> Hold]]; [by left|right].
    exact (step_latest Auth (ctx_values c) p owner chain Ha Hv Hold).
Qed.

(** A refused STORE changes no value; an accepted one is one commit. *)
Definition store_effect (c c' : Context A D) (req_body : bytes) (reply : option bytes) : Prop :=
  ctx_nodes c' = ctx_nodes c /\ my_id c' = my_id c /\
  match reply with
  | None => ctx_values c' = ctx_values c
  | Some r => r = STORED /\ exists key value proof,
      deserialize req_body = Some (MkStoreRequest key value proof) /\ key = value_key value /\
      ctx_values c' = <[key := value]> (ctx_values c) /\
      commit_step Auth (ctx_values c) (ctx_values c')
  end.

Lemma store_handle_commits c req_body :
  (forall domain vk, (get_dns_vk domain (ctx_dns c)).1 = Some vk -> Auth domain vk) ->
  store_effect c (store_handle req_body c).2 req_body (store_handle req_body c).1.
Proof using H2.
  intros dns_auth. pose proof (store_check_frame c req_body) as (Hid & Hn & Hv & _).
  unfold store_handle. mstep. destruct (store_check req_body c).1 as [what|] eqn:Hw; [|done].
  destruct (store_check_ok c req_body what dns_auth Hw) as (Hok & key & value & proof & Hd & Hkv).
  set (c1 := (store_check req_body c).2) in *. clearbody c1.
  pose proof (store_commit_cases c1 what) as Hc.
  unfold store_effect. rewrite <- Hv, <- Hid, <- Hn.
  destruct what as [k v|k p chain]; cbv zeta in Hc; destruct Hc as [[-> ->]|[-> Hold]];
    cbn [fst snd ctx_values ctx_nodes my_id]; [done| |done|].
  - destruct Hok as (b & -> & ->), Hkv as [<- <-]. split; [done|]. split; [done|]. split; [done|].
    exists (value_key (Blob b)), (Blob b), proof. split_and!; [done..|].
    apply (step_blob Auth (ctx_values c1) b). exact Hold.
  - destruct Hok as (-> & owner & Ha & Hver), Hkv as [<- <-]. split; [done|]. split; [done|]. split; [done|].
    exists (value_key (Latest p)), (Latest p), proof. split_and!; [done..|].
    exact (step_latest Auth (ctx_values c1) p owner chain Ha Hver Hold).
Qed.

(** It asks the resolver once, or not at all. *)
Lemma store_handle_dns (c : Context A D) req_body :
  ctx_dns (store_handle req_body c).2 = ctx_dns c \/
  exists domain, ctx_dns (store_handle req_body c).2 = (get_dns_vk domain (ctx_dns c)).2.
Proof.
  pose proof (store_check_frame c req_body) as (_ & _ & _ & Hd). unfold store_handle. mstep.
  destruct (store_check req_body c).1 as [what|]; [|done].
  set (c1 := (store_check req_body c).2) in *. clearbody c1.
  pose proof (store_commit_cases c1 what) as Hc.
  destruct what as [k v|k p chain]; cbv zeta in Hc; destruct Hc as [[_ ->]|[-> _]]; done.
Qed.
End storing.

Section serving.
Context `{Sha256} `{Ed25519} `{CodecLaws} {A D : Type} `{CloseNodes A} `{!DnsData D}.
Context (Auth : string -> VerifyingKey -> Prop)
  (dns_auth : forall domain d vk, (get_dns_vk domain d).1 = Some vk -> Auth domain vk).

Lemma store_handle_effect (c : Context A D) req_body :
  store_effect Auth c (store_handle req_body c).2 req_body (store_handle req_body c).1.
Proof using dns_auth H2. apply store_handle_commits. intros domain. apply dns_auth. Qed.

Lemma on_nodes_values {X} (m : M A X) (c : Context A D) :
  ctx_values (on_nodes m c).2 = ctx_values c /\ my_id (on_nodes m c).2 = my_id c.
Proof. done. Qed.

Lemma handle_values now method req_body (c : Context A D) :
  ctx_values (handle now method req_body c).2 = ctx_values c \/
  commit_step Auth (ctx_values c) (ctx_values (handle now method req_body c).2).
Proof using dns_auth H2.
  destruct method; cbn [handle].
  - by left.
  - destruct (store_handle_effect c req_body) as (_ & _ & He).
    destruct (store_handle req_body c).1; [right|by left]. naive_solver.
  - left. unfold find_node_handle. by destruct (deserialize req_body).
  - left. unfold find_value_handle. destruct (deserialize req_body); [|done]. mstep.
    by destruct (gets _ c).1.
Qed.

(** Serving any request makes at most one commit. *)
Lemma dispatch_values now request (c : Context A D) :
  ctx_values (dispatch now request c).2 = ctx_values c \/
  commit_step Auth (ctx_values c) (ctx_values (dispatch now request c).2).
Proof using dns_auth H2.
  unfold dispatch. destruct (parse_framed _) as [[[sender method] req_body]|]; [|by left].
  mstep.
  set (c1 := (learn_sender request sender c).2).
  assert (ctx_values c1 = ctx_values c) as Hc1
    by (unfold c1, learn_sender; by destruct (from_is_reachable request)).
  rewrite <- Hc1. clearbody c1.
  destruct (handle now method req_body c1) as [[reply|] c2] eqn:Hh; cbn;
    pose proof (handle_values now method req_body c1) as Hv; by rewrite Hh in Hv.
Qed.

(** A pointer with a valid proof that continues what is stored is accepted. *)
Lemma store_accepts (c : Context A D) req_body p proof owner chain :
  deserialize req_body = Some (MkStoreRequest (value_key (Latest p)) (Latest p) proof) ->
  (get_dns_vk (lp_domain (body p)) (ctx_dns c)).1 = Some owner ->
  validate_chain_proof p owner proof = Ok chain ->
  (forall old, ctx_values c !! value_key (Latest p) = Some (Latest old) ->
     continues_previous old p chain = true) ->
  (store_handle req_body c).1 = Some STORED /\
  ctx_values (store_handle req_body c).2 !! value_key (Latest p) = Some (Latest p).
Proof using H2.
  intros Hd Hdns Hval Hcont. pose proof (validate_sound _ _ _ _ Hval) as (Hok & _).
  unfold store_handle, store_check. rewrite Hd. rewrite bool_decide_false by (intros Hx; by apply Hx).
  mstep. unfold on_dns.
  destruct (get_dns_vk (lp_domain (body p)) (ctx_dns c)) as [o d'] eqn:E. cbn in Hdns. subst o.
  cbn [fst snd]. destruct Hok as (_ & _ & Hvalid & _). rewrite Hvalid. cbn [negb]. rewrite Hval. mstep.
  cbn [fst snd store_commit]. unfold commit_latest. mstep. cbn [gets fst snd ctx_values].
  destruct (ctx_values c !! value_key (Latest p)) as [[b|old]|] eqn:Hold.
  2: rewrite Hcont by done.
  all: mstep; cbn [insert_value modify fst snd ctx_values]; by rewrite lookup_insert_eq.
Qed.

(** What was stored is what FIND_VALUE answers with. *)
Lemma store_after_find (c : Context A D) now req_body key value proof reply :
  deserialize req_body = Some (MkStoreRequest key value proof) ->
  (store_handle req_body c).1 = Some reply ->
  forall query, serialize key = Some query ->
  (find_value_handle now query (store_handle req_body c).2).1 = serialize (FoundValue value).
Proof using dns_auth H2.
  intros Hd Hr query Hq. destruct (store_handle_effect c req_body) as (_ & _ & He).
  rewrite Hr in He. destruct He as (_ & k & v & p & Hd' & _ & Hval & _).
  assert (k = key /\ v = value) as [-> ->] by (split; congruence).
  unfold find_value_handle. rewrite (deserialize_serialize _ _ Hq). mstep. cbn.
  by rewrite Hval, lookup_insert_eq.
Qed.
End serving.

(** ** Interleaved STORE handlers

    Each request runs [store_handle] on a task of its own.  Between a handler's
    check and its entry operation any other task may take its steps. *)

Inductive StoreTask `{Sha256} `{Ed25519} : Type :=
  | Arrived (req_body : bytes)
  | Passed (what : Commit)
  | Finished (reply : option bytes).

Section interleaving.
Context `{Sha256} `{Ed25519} `{CodecLaws} {A D : Type} `{CloseNodes A} `{!DnsData D}.

(** One step of one task, on the shared context. *)
Definition store_task (t : StoreTask) : M (Context A D) StoreTask :=
  match t with
  | Arrived req_body =>
      checked ← store_check req_body;
      mret (match checked with Some what => Passed what | None => Finished None end)
  | Passed what => reply ← store_commit what; mret (Finished reply)
  | Finished reply => mret (Finished reply)
  end.

(** A new request, a step of any task, or anything else the process does, which
    leaves the stored values alone. *)
Inductive store_step : list StoreTask * Context A D -> list StoreTask * Context A D -> Prop :=
  | step_arrive ts c req_body : store_step (ts, c) (ts ++ [Arrived req_body], c)
  | step_task ts c i t : ts !! i = Some t ->
      store_step (ts, c) (<[i := (store_task t c).1]> ts, (store_task t c).2)
  | step_other ts c c' : ctx_values c' = ctx_values c -> store_step (ts, c) (ts, c').

(** A task that runs undisturbed is the handler. *)
Lemma store_task_alone req_body (c : Context A D) :
  let r := store_task (Arrived req_body) c in
  store_task r.1 r.2 = (Finished (store_handle req_body c).1, (store_handle req_body c).2).
Proof.
  cbv zeta. cbn [store_task]. unfold store_handle. mstep.
  destruct (store_check req_body c).1 as [what|]; cbn [store_task]; by mstep.
Qed.

Context (Auth : string -> VerifyingKey -> Prop)
  (dns_auth : forall domain d vk, (get_dns_vk domain d).1 = Some vk -> Auth domain vk).

Definition tasks_ok (ts : list StoreTask) : Prop :=
  forall i what, ts !! i = Some (Passed what) -> commit_ok Auth what.

Lemma store_step_commits s s' :
  store_step s s' -> tasks_ok s.1 ->
  tasks_ok s'.1 /\
  (ctx_values s'.2 = ctx_values s.2 \/ commit_step Auth (ctx_values s.2) (ctx_values s'.2)).
Proof using dns_auth H2.
  intros Hs Hok. destruct Hs as [ts c req_body|ts c i t Ht|ts c c' Hv]; cbn [fst snd] in *.
  - split; [|by left]. intros j what [Hj|[_ Hj]]%lookup_app_Some; [by eapply Hok|].
    by apply list_lookup_singleton_Some in Hj as [_ ?].
  - assert (forall t', (forall what, t' = Passed what -> commit_ok Auth what) -> tasks_ok (<[i := t']> ts)) as Hins.
    { intros t' Ht' j what [(_ & Heq & _)|[_ Hj]]%list_lookup_insert_Some; [by apply Ht'|by eapply Hok]. }
    destruct t as [req_body|what|reply]; cbn [store_task]; mstep.
    + split; [|left; apply store_check_frame]. apply Hins.
      destruct (store_check req_body c).1 as [w|] eqn:Hw; [|done]. intros what [= <-].
      by apply (store_check_ok Auth c req_body w (fun domain => dns_auth domain (ctx_dns c))).
    + split; [by apply Hins|]. apply store_commit_step. by eapply Hok.
    + split; [by apply Hins|by left].
  - split; [done|by left].
Qed.

Lemma store_steps_commits s s' :
  rtc store_step s s' -> tasks_ok s.1 ->
  tasks_ok s'.1 /\ rtc (commit_step Auth) (ctx_values s.2) (ctx_values s'.2).
Proof using dns_auth H2.
  induction 1 as [s|s s1 s' Hs _ IH]; intros Hok; [by split; [|apply rtc_refl]|].
  destruct (store_step_commits _ _ Hs Hok) as [Hok1 Hc], (IH Hok1) as [Hok' Hcs]. split; [done|].
  destruct Hc as [<-|Hc]; [done|by eapply rtc_l].
Qed.
End interleaving.

(** ** Routing *)

(** The contact a request teaches the table. *)
Definition learns (request : Request) : option Contact :=
  '(sender, _, _) ← parse_framed (req_payload request);
  if from_is_reachable request then Some (MkContact sender (req_from request)) else None.

Section routing.
Context `{Sha256} `{Ed25519} `{Codec} {A D : Type} `{CloseNodesSpec A} `{!DnsData D}.

Lemma store_handle_nodes req_body (c : Context A D) :
  ctx_nodes (store_handle req_body c).2 = ctx_nodes c.
Proof.
  pose proof (store_check_frame c req_body) as (_ & Hn & _). unfold store_handle. mstep.
  destruct (store_check req_body c).1 as [what|]; [|done].
  set (c1 := (store_check req_body c).2) in *. clearbody c1.
  pose proof (store_commit_cases c1 what) as Hc. rewrite <- Hn.
  destruct what as [k v|k p chain]; cbv zeta in Hc; destruct Hc as [[_ ->]|[-> _]]; done.
Qed.

(** A handler leaves the table alone or queries it once. *)
Lemma handle_nodes now method req_body (c : Context A D) :
  ctx_nodes (handle now method req_body c).2 = ctx_nodes c \/
  exists t, ctx_nodes (handle now method req_body c).2 = (close_nodes now t (ctx_nodes c)).2.
Proof.
  destruct method; cbn [handle].
  - by left.
  - left. apply store_handle_nodes.
  - unfold find_node_handle. destruct (deserialize req_body) as [t|]; [right|by left]. by exists t.
  - unfold find_value_handle. destruct (deserialize req_body) as [t|]; [|by left]. mstep. cbn.
    destruct (ctx_values c !! t); [by left|right]. by exists t.
Qed.

Lemma dispatch_nodes now request (c : Context A D) :
  let n1 := match learns request with
            | Some x => maybe_add_contact x (ctx_nodes c)
            | None => ctx_nodes c
            end in
  ctx_nodes (dispatch now request c).2 = n1 \/
  exists t, ctx_nodes (dispatch now request c).2 = (close_nodes now t n1).2.
Proof.
  unfold dispatch, learns. destruct (parse_framed _) as [[[sender method] req_body]|]; [|by left].
  cbn. mstep. set (c1 := (learn_sender request sender c).2).
  assert (ctx_nodes c1 = match (if from_is_reachable request
      then Some (MkContact sender (req_from request)) else None) with
      | Some x => maybe_add_contact x (ctx_nodes c) | None => ctx_nodes c end) as <-
    by (unfold c1, learn_sender; by destruct (from_is_reachable request)).
  clearbody c1. pose proof (handle_nodes now method req_body c1) as Hn.
  by destruct (handle now method req_body c1) as [[reply|] c2].
Qed.

Lemma dispatch_inv now request (c : Context A D) :
  cn_inv (ctx_nodes c) -> cn_inv (ctx_nodes (dispatch now request c).2).
Proof.
  intros Hc. destruct (dispatch_nodes now request c) as [->|[t ->]]; destruct (learns request); auto with kad.
Qed.

(** Serving a request teaches the table at most its sender. *)
Lemma dispatch_learns now request (c : Context A D) x :
  x ∈ contacts_iter (ctx_nodes (dispatch now request c).2) ->
  x ∈ contacts_iter (ctx_nodes c) \/ learns request = Some x.
Proof.
  destruct (dispatch_nodes now request c) as [->|[t ->]]; rewrite ?cn_query_iter;
    (destruct (learns request) as [y|]; [|by left]);
    (intros [->|?]%cn_add_iter; [by right|by left]).
Qed.

(** FIND_NODE answers with at most [K] contacts, nearest first. *)
Lemma find_node_reply now query t (c : Context A D) reply :
  cn_inv (ctx_nodes c) -> deserialize query = Some t ->
  (find_node_handle now query c).1 = Some reply ->
  exists contacts, serialize contacts = Some reply /\ length contacts <= K /\
    StronglySorted (near_le t) contacts.
Proof.
  intros Hc Hq. unfold find_node_handle. rewrite Hq. mstep. cbn. intros Hr.
  eexists. split; [exact Hr|]. split; [by apply cn_query_length|by apply cn_query_sorted].
Qed.
End routing.

(** ** How long the replies are *)

Section sizes.
Context `{Sha256} `{Ed25519} `{CodecSizes} {A D : Type} `{CloseNodesSpec A} `{!DnsData D}.

(** PING and FIND_NODE, the methods asked over datagrams, answer with at most
    [K] contacts. *)
Lemma short_reply now method req_body (c : Context A D) reply :
  method = Ping \/ method = FindNode -> cn_inv (ctx_nodes c) ->
  (handle now method req_body c).1 = Some reply -> length reply <= 8 + 64 * K.
Proof using H2.
  intros [->| ->] Hc; cbn [handle].
  - unfold ping_handle. cbn [gets fst]. intros Hr%size_id. unfold K. lia.
  - unfold find_node_handle. destruct (deserialize req_body) as [t|]; [|done]. mstep. cbn [fst on_nodes].
    intros Hr%size_contacts. pose proof (cn_query_length now t _ Hc). lia.
Qed.

Lemma dispatch_short now request sender method req_body (c : Context A D) framed :
  req_payload request = rpc_request sender method req_body ->
  method = Ping \/ method = FindNode -> cn_inv (ctx_nodes c) ->
  (dispatch now request c).1 = Some framed ->
  exists reply, framed = frame_reply (req_id request) reply /\ length reply <= 8 + 64 * K.
Proof using H2.
  intros Hp Hm Hc. unfold dispatch. rewrite Hp, (proj2 (parse_framed_Some _ _ _ _) eq_refl). mstep.
  set (c1 := (learn_sender request sender c).2).
  assert (cn_inv (ctx_nodes c1)) as Hc1.
  { unfold c1, learn_sender. destruct (from_is_reachable request); [|done]. cbn. auto with kad. }
  destruct (handle now method req_body c1).1 as [reply|] eqn:Hr; mstep; [|done]. intros [= <-].
  exists reply. split; [done|]. by eapply short_reply.
Qed.
End sizes.
