(* ===== verification/Serve.v ===== *)
(** * Serve: the server's loops and tasks

    Models [serve], [serve_datagrams] and [serve_streams] of [src/handle_rpc.rs]
    over the channel traits of [src/rpc_transport/data_rx_tx.rs] and
    [stream_listener.rs], which the sockets of [udp_transport.rs] and
    [tcp_transport.rs] implement.  Each request is answered by a task of its own;
    which task runs next is the scheduler's choice, so a run of the server is a
    sequence of events.  [accepted] and [outcomes] are not in the code: they record
    what came in and what became of it, for the statements.  (A STORE may await
    the resolver in the middle; HandleRpc lets handlers interleave there,
    [store_step].) *)

From S2P Require Import Prelude Slices Machine Contacts Crates Text Package VersionChain Wire Datagram Stream HandleRpc.

(** ** The channels *)

(** [DataRxTx]: [receive_packet n] gives at most [n] bytes of a datagram. *)
Class DataRxTx (T : Type) := {
  send_packet : bytes -> SocketAddr -> M T (result IoError unit);
  receive_packet : nat -> M T (result IoError (bytes * SocketAddr))
}.

(** [StreamListener]. *)
Class StreamListener (L S : Type) := accept : M L (result IoError (S * SocketAddr)).

(** [tokio::net::UdpSocket]: [send_to] says how many bytes went out, [recv_from]
    fills a buffer of the given size. *)
Class UdpSocket (T : Type) := {
  send_to : bytes -> SocketAddr -> M T (result IoError nat);
  recv_from : nat -> M T (result IoError (bytes * SocketAddr))
}.

#[export] Instance UdpSocket_DataRxTx {T} `{UdpSocket T} : DataRxTx T := {
  send_packet payload address :=
    sent ← send_to payload address; mret (match sent with Ok _ => Ok tt | Err e => Err e end);
  receive_packet := recv_from
}.

(** [tokio::net::TcpStream::connect] and [TcpListener::accept]. *)
Class Tcp (L S : Type) := {
  tcp_connect : SocketAddr -> result IoError S;
  tcp_accept : M L (result IoError (S * SocketAddr))
}.

#[export] Instance TcpListener_StreamListener {L S} `{Tcp L S} : StreamListener L S := tcp_accept.

(** [TcpTransport::send_receive]; [took] is how long it all takes. *)
Definition tcp_send_receive {L S} `{Tcp L S} `{AsyncStream S} (draw : u64) (took : Duration)
    (payload : bytes) (address : SocketAddr) : result IoError bytes :=
  dial_and_send (tcp_connect address) draw payload STREAM_DEADLINE took.

(** ** The server *)

(** What was spawned and has not run yet. *)
Inductive Task (S : Type) : Type :=
  | AnswerTask (request : Request)
  | ConnectionTask (stream : S) (from : SocketAddr).
Arguments AnswerTask {S} request.
Arguments ConnectionTask {S} stream from.

Record Server (A D T S : Type) : Type := MkServer {
  srv_context : Context A D;
  requests : RequestQueue;
  senders_alive : bool;
  datagrams_open : bool;
  socket : T;
  tasks : list (Task S);
  accepted : list Request;
  outcomes : list (Request * option (bytes * SocketAddr))
}.
Arguments MkServer {A D T S} srv_context requests senders_alive datagrams_open socket tasks accepted outcomes.
Arguments srv_context {A D T S} s.
Arguments requests {A D T S} s.
Arguments senders_alive {A D T S} s.
Arguments datagrams_open {A D T S} s.
Arguments socket {A D T S} s.
Arguments tasks {A D T S} s.
Arguments accepted {A D T S} s.
Arguments outcomes {A D T S} s.

Section serve.
Context `{Sha256} `{Ed25519} `{Codec} {A D T S : Type} `{CloseNodes A} `{!DnsData D} `{DataRxTx T} `{AsyncStream S}.
Abbreviation server := (Server A D T S).

(** [serve]: the loop over datagram requests is spawned, the accept loop runs. *)
Definition serve (context : Context A D) (requests : RequestQueue) (socket : T) : server :=
  MkServer context requests true true socket [] [] [].

(** The transport's receive loop hands a request over. *)
Definition arrive (request : Request) (s : server) : server :=
  let r := try_send request (requests s) in
  MkServer (srv_context s) r.2 (senders_alive s) (datagrams_open s) (socket s) (tasks s)
    (if r.1 then accepted s ++ [request] else accepted s) (outcomes s).

(** One turn of [while let Some(request) = requests.recv().await]: spawn the
    answer, or stop when the channel is empty for good. *)
Definition serve_datagrams (s : server) : server :=
  if negb (datagrams_open s) then s else
  match queued (requests s) with
  | request :: rest =>
      MkServer (srv_context s) (MkRequestQueue (capacity (requests s)) rest (rx_open (requests s)))
        (senders_alive s) true (socket s) (tasks s ++ [AnswerTask request]) (accepted s) (outcomes s)
  | [] =>
      if senders_alive s then s
      else MkServer (srv_context s) (MkRequestQueue (capacity (requests s)) [] false)
             false false (socket s) (tasks s) (accepted s) (outcomes s)
  end.

(** One turn of the accept loop: spawn the connection's task, or carry on after
    an error. *)
Definition serve_streams (connection : result IoError (S * SocketAddr)) (s : server) : server :=
  match connection with
  | Err _ => s
  | Ok (stream, from) =>
      MkServer (srv_context s) (requests s) (senders_alive s) (datagrams_open s) (socket s)
        (tasks s ++ [ConnectionTask stream from]) (accepted s) (outcomes s)
  end.

(** A spawned task: a reply that cannot be sent is only logged. *)
Definition run_task (now : Instant) (task : Task S) (s : server) : server :=
  match task with
  | AnswerTask request =>
      let r := serve_datagram now request (srv_context s) in
      let socket := match r.1 with
                    | None => socket s
                    | Some (datagram, to) => (send_packet datagram to (socket s)).2
                    end in
      MkServer r.2 (requests s) (senders_alive s) (datagrams_open s) socket (tasks s) (accepted s)
        (outcomes s ++ [(request, r.1)])
  | ConnectionTask stream from =>
      let r := serve_connection now from (srv_context s, stream) in
      MkServer r.2.1 (requests s) (senders_alive s) (datagrams_open s) (socket s) (tasks s) (accepted s) (outcomes s)
  end.

Definition set_tasks (tasks : list (Task S)) (s : server) : server :=
  MkServer (srv_context s) (requests s) (senders_alive s) (datagrams_open s) (socket s) tasks (accepted s) (outcomes s).

(** What happens next. *)
Inductive ServeEvent : Type :=
  | Arrives (request : Request)
  | SendersGone
  | TurnDatagrams
  | TurnStreams (connection : result IoError (S * SocketAddr))
  | RunTask (i : nat) (now : Instant).

Definition serve_event (e : ServeEvent) (s : server) : server :=
  match e with
  | Arrives request => arrive request s
  | SendersGone => MkServer (srv_context s) (requests s) false (datagrams_open s) (socket s) (tasks s) (accepted s) (outcomes s)
  | TurnDatagrams => serve_datagrams s
  | TurnStreams connection => serve_streams connection s
  | RunTask i now =>
      match tasks s !! i with
      | Some task => run_task now task (set_tasks (delete i (tasks s)) s)
      | None => s
      end
  end.

Definition serve_events (events : list ServeEvent) (s : server) : server :=
  foldl (fun s e => serve_event e s) s events.
End serve.
Arguments ServeEvent S : clear implicits.

(** ** Nothing is lost, nothing is answered twice *)

Definition task_request {S} (t : Task S) : option Request :=
  match t with AnswerTask r => Some r | ConnectionTask _ _ => None end.

Section serving.
Context `{Sha256} `{Ed25519} `{CodecLaws} {A D T S : Type} `{CloseNodesSpec A} `{!DnsData D} `{DataRxTx T} `{AsyncStream S}.
Context (Auth : string -> VerifyingKey -> Prop)
  (dns_auth : forall domain d vk, (get_dns_vk domain d).1 = Some vk -> Auth domain vk).
Abbreviation server := (Server A D T S).
Implicit Type s : server.

(** Every accepted request is queued, being answered or answered. *)
Definition conserved s : Prop :=
  accepted s ≡ₚ queued (requests s) ++ omap task_request (tasks s) ++ (fst <$> outcomes s).

(** What was sent back is a reply to the request, under its id, to its sender. *)
Definition answered s : Prop :=
  forall request datagram to, (request, Some (datagram, to)) ∈ outcomes s ->
    to = req_from request /\ exists reply, datagram = frame_reply (req_id request) reply.

Record server_ok (m0 : gmap Key Value) s : Prop := {
  so_conserved : conserved s;
  so_answered : answered s;
  so_table : cn_inv (ctx_nodes (srv_context s));
  so_values : rtc (commit_step Auth) m0 (ctx_values (srv_context s))
}.

Lemma dispatch_framed now request (c : Context A D) datagram :
  (dispatch now request c).1 = Some datagram -> exists reply, datagram = frame_reply (req_id request) reply.
Proof.
  unfold dispatch. destruct (parse_framed _) as [[[sender method] req_body]|]; [|done]. mstep.
  destruct (handle now method req_body _).1 as [reply|]; mstep; [|done]. intros [= <-]. eauto.
Qed.

Lemma dispatch_ok now request (c : Context A D) m0 :
  cn_inv (ctx_nodes c) -> rtc (commit_step Auth) m0 (ctx_values c) ->
  cn_inv (ctx_nodes (dispatch now request c).2) /\
  rtc (commit_step Auth) m0 (ctx_values (dispatch now request c).2).
Proof using dns_auth H2.
  intros Ht Hv. split; [by apply dispatch_inv|].
  destruct (dispatch_values Auth dns_auth now request c) as [->|Hs]; [done|by eapply rtc_r].
Qed.

(** The task of a connection touches the node only through [dispatch]. *)
Lemma serve_connection_context now from (c : Context A D) (stream : S) :
  (serve_connection now from (c, stream)).2.1 = c \/
  exists request, (serve_connection now from (c, stream)).2.1 = (dispatch now request c).2.
Proof.
  unfold serve_connection. destruct (read_to_end stream).1 as [datagram|e]; [|by left].
  destruct (from_connection from datagram) as [request|]; [|by left].
  destruct (dispatch now request c).1 as [reply|] eqn:Hd; [|right; by exists request].
  destruct (write_all reply _).1; right; by exists request.
Qed.

Lemma serve_event_ok m0 e s : server_ok m0 s -> server_ok m0 (serve_event e s).
Proof using dns_auth H2.
  intros [Hc Ha Ht Hv]. unfold conserved, answered in *.
  destruct e as [request| | |[[stream from]|e]|i now]; cbn [serve_event].
  - unfold arrive, try_send. destruct (rx_open (requests s) && _); split; try done; unfold conserved; cbn.
    rewrite <- app_assoc, Hc. solve_Permutation.
  - by split.
  - unfold serve_datagrams. destruct (datagrams_open s); [|by split].
    destruct (queued (requests s)) as [|request rest] eqn:Hq.
    { destruct (senders_alive s); (split; [unfold conserved; cbn; rewrite ?Hq; done|done..]). }
    split; try done. unfold conserved. cbn. rewrite omap_app, Hc. cbn. solve_Permutation.
  - split; try done. unfold conserved. cbn. rewrite omap_app, Hc. cbn. solve_Permutation.
  - by split.
  - destruct (tasks s !! i) as [task|] eqn:Hi; [|by split].
    assert (omap task_request (tasks s) ≡ₚ option_list (task_request task) ++ omap task_request (delete i (tasks s))) as Hp.
    { rewrite <- (take_drop_middle (tasks s) i task Hi) at 1. rewrite delete_take_drop, !omap_app. cbn.
      destruct (task_request task); cbn; solve_Permutation. }
    destruct task as [request|stream from]; cbn [run_task task_request option_list] in *.
    + unfold serve_datagram. rewrite bind_eq, ret_eq. cbn [fst snd].
      destruct (dispatch_ok now request (srv_context s) m0 Ht Hv) as [Ht' Hv'].
      split; [|..|exact Ht'|exact Hv']; unfold conserved, answered; cbn.
      * rewrite Hc, Hp, fmap_app. cbn. solve_Permutation.
      * intros r d to [Hin|Hin%list_elem_of_singleton]%elem_of_app; [by eapply Ha|].
        injection Hin as -> Hd. symmetry in Hd. apply fmap_Some in Hd as (d' & Hd & [= -> ->]).
        split; [done|]. by eapply dispatch_framed.
    + split; [by unfold conserved; cbn; rewrite Hc, Hp|done|..]; cbn -[serve_connection];
        (destruct (serve_connection_context now from (srv_context s) stream) as [->|[request ->]]; [done|]);
        by destruct (dispatch_ok now request (srv_context s) m0 Ht Hv).
Qed.

Lemma serve_events_ok m0 events s : server_ok m0 s -> server_ok m0 (serve_events events s).
Proof using dns_auth H2.
  revert s. induction events as [|e events IH]; intros s Hs; [done|]. by apply IH, serve_event_ok.
Qed.
(** ** Everything accepted gets its answer *)

Lemma serve_events_app l l' s : serve_events (l ++ l') s = serve_events l' (serve_events l s).
Proof. unfold serve_events. by rewrite foldl_app. Qed.

Lemma turns_drain n s :
  datagrams_open s = true -> n = length (queued (requests s)) ->
  let s' := serve_events (replicate n TurnDatagrams) s in
  queued (requests s') = [] /\ length (tasks s') = length (tasks s) + n /\ accepted s' = accepted s.
Proof.
  revert s. induction n as [|n IH]; intros s Ho Hn.
  { destruct (queued (requests s)) eqn:Hq; [|done]. cbn. split_and!; [done|lia|done]. }
  cbn [replicate]. change (serve_events (TurnDatagrams :: ?l) s) with (serve_events l (serve_datagrams s)).
  unfold serve_datagrams. rewrite Ho. cbn [negb].
  destruct (queued (requests s)) as [|request rest] eqn:Hq; [done|]. injection Hn as Hn.
  match goal with |- context [ serve_events _ ?x ] => destruct (IH x eq_refl) as (H1' & H2' & H3'); [done|] end.
  split_and!; [done| |done]. rewrite H2'. cbn. rewrite length_app. cbn. lia.
Qed.

Lemma tasks_drain now n s :
  n = length (tasks s) ->
  let s' := serve_events (replicate n (RunTask 0 now)) s in
  tasks s' = [] /\ queued (requests s') = queued (requests s) /\ accepted s' = accepted s.
Proof.
  revert s. induction n as [|n IH]; intros s Hn.
  { destruct (tasks s) eqn:Ht; [|done]. done. }
  cbn [replicate]. change (serve_events (RunTask 0 now :: ?l) s) with (serve_events l (serve_event (RunTask 0 now) s)).
  cbn [serve_event]. destruct (tasks s) as [|task rest] eqn:Ht; [done|]. injection Hn as Hn. cbn [lookup list_lookup delete list_delete].
  set (s1 := run_task now task (set_tasks rest s)).
  assert (tasks s1 = rest /\ queued (requests s1) = queued (requests s) /\ accepted s1 = accepted s) as (E1 & E2 & E3)
    by (by destruct task).
  destruct (IH s1) as (H1' & H2' & H3'); [by rewrite E1|]. cbv zeta in *. by rewrite H1', H2', H3', E2, E3.
Qed.

(** The server's own turns are enough to answer all it has taken in. *)
Lemma all_served m0 now s :
  server_ok m0 s -> datagrams_open s = true ->
  let queue := length (queued (requests s)) in
  let own := replicate queue TurnDatagrams ++ replicate (length (tasks s) + queue) (RunTask 0 now) in
  let s' := serve_events own s in
  queued (requests s') = [] /\ tasks s' = [] /\ (fst <$> outcomes s') ≡ₚ accepted s.
Proof using dns_auth H2.
  intros Hs Ho. cbv zeta. rewrite serve_events_app.
  destruct (turns_drain _ s Ho eq_refl) as (Hq1 & Ht1 & Ha1). cbv zeta in *.
  pose proof (serve_events_ok m0 (replicate (length (queued (requests s))) TurnDatagrams) s Hs) as Hs1.
  set (s1 := serve_events _ s) in *.
  destruct (tasks_drain now (length (tasks s) + length (queued (requests s))) s1) as (Ht2 & Hq2 & Ha2); [by rewrite Ht1|].
  cbv zeta in *.
  pose proof (serve_events_ok m0 (replicate (length (tasks s) + length (queued (requests s))) (RunTask 0 now)) s1 Hs1) as Hs2.
  set (s2 := serve_events _ s1) in *. rewrite Hq1 in Hq2. split_and!; [done|done|].
  pose proof (so_conserved _ _ Hs2) as Hc. unfold conserved in Hc. rewrite Hq2, Ht2, Ha2, Ha1 in Hc. cbn in Hc. by rewrite Hc.
Qed.
End serving.
