(* ===== verification/DnsKeys.v ===== *)
(** * DnsKeys: the keys that domains publish

    The text of a TXT record ([dns_data.rs]), the resolver over real DNS
    ([dns_data/dns.rs]), the table of test keys ([dns_data/fake_dns.rs]) and the
    choice between the two.  The resolver library is a parameter: what a TXT
    query for a name answers. *)

From S2P Require Import Prelude Slices Machine Text Crates Wire HandleRpc.

Local Open Scope string_scope.

(** ** The text of a key *)

(** [u8::is_ascii_whitespace]: space, tab, line feed, form feed, return. *)
Definition ascii_whitespace (b : byte) : bool :=
  match b with
  | x20 | x09 | x0a | x0c | x0d => true
  | _ => false
  end.

Fixpoint trim_ascii_start (l : bytes) : bytes :=
  match l with
  | b :: l' => if ascii_whitespace b then trim_ascii_start l' else l
  | [] => []
  end.

Definition trim_ascii (l : bytes) : bytes :=
  reverse (trim_ascii_start (reverse (trim_ascii_start l))).

Definition TXT_PREFIX : string := "d7024ePK=".

Section text.
Context `{Ed25519} `{Hex}.

(** [hex::decode_to_slice] into an array of [n] bytes. *)
Definition decode_to_slice (n : nat) (s : bytes) : option (array n) :=
  bs ← hex_decode s; array_of n bs.

Definition format_vk (vk : VerifyingKey) : string := TXT_PREFIX +:+ hex_encode (elems (vk_to_bytes vk)).

Definition parse_vk (txt : bytes) : option VerifyingKey :=
  hex_key ← strip_bytes (as_bytes TXT_PREFIX) (trim_ascii txt);
  bytes ← decode_to_slice 32 hex_key;
  vk_from_bytes bytes.

(** ** Test keys *)

Record FakeKey : Type := MkFakeKey {
  fk_domain : string;
  fk_secret : string;
  fk_public : string
}.

Definition fk_signing_key (k : FakeKey) : option SigningKey :=
  sk_from_bytes <$> decode_to_slice 32 (as_bytes (fk_secret k)).

Definition fk_verifying_key (k : FakeKey) : option VerifyingKey :=
  bytes ← decode_to_slice 32 (as_bytes (fk_public k)); vk_from_bytes bytes.

Definition FAKE_KEYS : list FakeKey := [
  MkFakeKey "node0.d7024e.test"
    "db0e232ecbf4392f6024d7d60f2a607e76806386eef28f49ce7c545199f225df"
    "5156ad53f8a8149e5e3b563c242f529fc868696a2a3f10d28f38dea5566d399d";
  MkFakeKey "node1.d7024e.test"
    "9bac258b10589885bfd4f1e66f568e13d55d397e30bd32bf03bee22ef0afb647"
    "8bbb1a371a13f8b249611a97b87db20eb78c88807450e928d564683945f07d86";
  MkFakeKey "node2.d7024e.test"
    "347a651033fd5862f274252ba5cbaff0acdb0f0c80e00cc4ec9a1178ce6c5b17"
    "64444f23d6b8558aff9db73edc5aa009e53fd15fc317a015432e6faa7ec56afa";
  MkFakeKey "node3.d7024e.test"
    "185b7ba881d096e99a11d53025753f9bf5329b39f233dc4eefd19e394272ce91"
    "6bde32011a06049181c4650096ab5482bbad9a27dca4f8283847aa3f8af7f92a";
  MkFakeKey "node4.d7024e.test"
    "473b42df5527cac51674af7ed40cecc3b060245a03c17cae6e36b71f5c0a5998"
    "87fbdb8b3f9e64330ece6f18830b0826f9872a96bacba9a7870078e2b96d1faf"
].

(** ** The resolvers *)

Context `{DomainName}.

Record FakeDns : Type := MkFakeDns { fd_records : list (Name * string) }.

Definition fake_dns_new : FakeDns :=
  MkFakeDns (omap (fun key =>
    name ← name_from_str (fk_domain key);
    vk ← fk_verifying_key key;
    Some (name, format_vk vk)) FAKE_KEYS).

#[export] Instance FakeDns_DnsData : DnsData FakeDns := fun domain =>
  gets (fun dns =>
    name ← name_from_str domain;
    find_map (fun r => parse_vk (as_bytes r.2))
      (List.filter (fun r => name_eq r.1 name) (fd_records dns))).

(** The resolver of [domain::resolv]: [None] if the query or its answer section
    fails, else its TXT records, [None] for one that does not parse. *)
Class Resolver (R : Type) := query_txt : Name -> M R (option (list (option bytes))).

Record Dns (R : Type) : Type := MkDns { dns_resolver : R }.

Context {R : Type} `{!Resolver R}.

#[export] Instance Dns_DnsData : DnsData (Dns R) := fun domain dns =>
  match name_from_str domain with
  | None => (None, dns)
  | Some name =>
      let r := query_txt name (dns_resolver R dns) in
      (records ← r.1; find_map parse_vk (omap (fun x => x) records), MkDns R r.2)
  end.

Inductive DnsBackend : Type :=
| Real (dns : Dns R)
| Fake (dns : FakeDns).

#[export] Instance DnsBackend_DnsData : DnsData DnsBackend := fun domain backend =>
  match backend with
  | Real dns => let r := get_dns_vk domain dns in (r.1, Real r.2)
  | Fake dns => let r := get_dns_vk domain dns in (r.1, Fake r.2)
  end.
End text.

Arguments MkDns {R} dns_resolver.
Arguments dns_resolver {R} d.

Local Close Scope string_scope.

(** ** Text round trips *)

Local Open Scope list_scope.

Abbreviation blank l := (Forall (fun b => ascii_whitespace b = true) l) (only parsing).

Lemma as_bytes_app s s' : as_bytes (s +:+ s') = as_bytes s ++ as_bytes s'.
Proof.
  unfold as_bytes, String.list_byte_of_string. induction s as [|a s IH]; simpl; [done|]. by rewrite IH.
Qed.

Lemma trim_start_blank w l : blank w -> trim_ascii_start (w ++ l) = trim_ascii_start l.
Proof. induction 1 as [|b w Hb Hw IH]; simpl; [done|]. by rewrite Hb. Qed.

Lemma trim_start_split l : exists w, l = w ++ trim_ascii_start l /\ blank w.
Proof.
  induction l as [|b l (w & Hl & Hw)]; [by exists []|]. simpl.
  destruct (ascii_whitespace b) eqn:Hb; [|by exists []].
  exists (b :: w). split; [simpl; by f_equal|by constructor].
Qed.

(** Trimming removes blanks at both ends and nothing else. *)
Lemma trim_ascii_split l : exists w1 w2, l = w1 ++ trim_ascii l ++ w2 /\ blank w1 /\ blank w2.
Proof.
  unfold trim_ascii. destruct (trim_start_split l) as (w1 & Hl & H1).
  destruct (trim_start_split (reverse (trim_ascii_start l))) as (w2 & Hr & H2).
  exists w1, (reverse w2). split_and!; [|done|by apply Forall_reverse].
  apply (f_equal reverse) in Hr. rewrite reverse_involutive, reverse_app in Hr. by rewrite <- Hr.
Qed.

Lemma trim_ascii_solid w1 w2 l :
  blank w1 -> blank w2 ->
  (forall b, head l = Some b -> ascii_whitespace b = false) ->
  (forall b, last l = Some b -> ascii_whitespace b = false) -> trim_ascii (w1 ++ l ++ w2) = l.
Proof.
  intros H1 H2 Hh Hl. unfold trim_ascii. rewrite trim_start_blank by done.
  destruct l as [|b l].
  { simpl. destruct (trim_start_split w2) as (w & Hw & _).
    assert (trim_ascii_start w2 = []) as ->; [|done].
    rewrite <- (app_nil_r w2). by rewrite trim_start_blank. }
  cbn [app trim_ascii_start]. rewrite (Hh b) by done.
  rewrite app_comm_cons, reverse_app, trim_start_blank by by apply Forall_reverse.
  destruct (exists_last (l:=b :: l)) as (l' & c & Heq); [done|]. rewrite Heq in *.
  rewrite reverse_snoc. cbn [trim_ascii_start].
  rewrite (Hl c) by by rewrite last_snoc. by rewrite reverse_cons, reverse_involutive.
Qed.

Lemma hex_digit_solid b : hex_digit b = true -> ascii_whitespace b = false.
Proof. by destruct b. Qed.

Section keys.
Context `{Ed25519} `{HexLaws}.

Lemma decode_to_slice_length n s (a : array n) : decode_to_slice n s = Some a -> length s = 2 * n.
Proof.
  unfold decode_to_slice. intros (bs & Hd & Ha)%bind_Some. apply hex_decode_length in Hd.
  apply array_of_Some in Ha. rewrite Hd, <- Ha. by rewrite array_length.
Qed.

(** A text holds a key exactly when, blanks aside, it is the prefix followed by
    the 64 digits of the key. *)
Lemma parse_vk_spec txt vk :
  parse_vk txt = Some vk <->
  exists w1 w2 digits key, txt = w1 ++ (as_bytes TXT_PREFIX ++ digits) ++ w2 /\ blank w1 /\ blank w2 /\
    length digits = 64 /\ decode_to_slice 32 digits = Some key /\ vk_from_bytes key = Some vk.
Proof.
  unfold parse_vk. split.
  - intros (digits & Hp & (key & Hd & Hv)%bind_Some)%bind_Some.
    apply strip_bytes_Some in Hp. destruct (trim_ascii_split txt) as (w1 & w2 & Ht & Hb1 & Hb2).
    exists w1, w2, digits, key. rewrite <- Hp. split_and!; try done.
    by apply (decode_to_slice_length 32) in Hd.
  - intros (w1 & w2 & digits & key & -> & Hb1 & Hb2 & Hlen & Hd & Hv).
    rewrite trim_ascii_solid; [|done|done| |].
    + apply bind_Some. exists digits. split; [by apply strip_bytes_Some|].
      apply bind_Some. by exists key.
    + cbn. by intros b [= <-].
    + intros b Hb. apply hex_digit_solid. unfold decode_to_slice in Hd.
      apply bind_Some in Hd as (bs & Hd & _). apply (hex_decode_digits _ _ _ Hd).
      destruct (exists_last (l:=digits)) as (l' & c & ->); [by destruct digits|].
      rewrite app_assoc, last_snoc in Hb. injection Hb as ->. set_solver.
Qed.

Context `{!Ed25519Laws}.

Lemma parse_format_vk w1 w2 vk :
  blank w1 -> blank w2 -> parse_vk (w1 ++ as_bytes (format_vk vk) ++ w2) = Some vk.
Proof.
  intros Hb1 Hb2. assert (decode_to_slice 32 (as_bytes (hex_encode (elems (vk_to_bytes vk)))) = Some (vk_to_bytes vk)) as Hd.
  { unfold decode_to_slice. rewrite hex_round_trip. apply array_of_elems. }
  apply parse_vk_spec. unfold format_vk. rewrite as_bytes_app.
  exists w1, w2, (as_bytes (hex_encode (elems (vk_to_bytes vk)))), (vk_to_bytes vk).
  split_and!; [done|done|done| |done|apply vk_round_trip]. by apply (decode_to_slice_length 32) in Hd.
Qed.

Context `{DomainName}.

(** The table of test keys answers with the key of the first entry whose name
    is the one asked for: nothing is lost on the way through the TXT text. *)
Lemma fake_dns_lookup domain :
  (get_dns_vk domain fake_dns_new).1 =
    (name ← name_from_str domain;
     find_map (fun key =>
       n ← name_from_str (fk_domain key); vk ← fk_verifying_key key;
       if name_eq n name then Some vk else None) FAKE_KEYS).
Proof.
  unfold get_dns_vk, FakeDns_DnsData, gets, fake_dns_new. cbn [fst fd_records]. generalize FAKE_KEYS. intros keys.
  destruct (name_from_str domain) as [name|]; [|done]. cbn -[parse_vk format_vk as_bytes].
  induction keys as [|k keys IH]; [done|]. cbn [omap list_omap].
  destruct (name_from_str (fk_domain k)) as [n|] eqn:Hn; cbn -[parse_vk format_vk as_bytes]; rewrite ?Hn; [|apply IH].
  destruct (fk_verifying_key k) as [vk|]; cbn -[parse_vk format_vk as_bytes]; [|apply IH].
  destruct (name_eq n name); cbn -[parse_vk format_vk as_bytes]; [|apply IH].
  pose proof (parse_format_vk [] [] vk) as Hp. cbn [app] in Hp. rewrite app_nil_r in Hp. by rewrite Hp.
Qed.

(** Real DNS answers with the first TXT record that holds a key. *)
Lemma dns_first_key {R} `{!Resolver R} domain name (dns : Dns R) records :
  name_from_str domain = Some name -> (query_txt name (dns_resolver dns)).1 = Some records ->
  forall vk, (get_dns_vk domain dns).1 = Some vk <->
    exists before txt after, records = before ++ Some txt :: after /\ parse_vk txt = Some vk /\
      forall t, Some t ∈ before -> parse_vk t = None.
Proof.
  intros Hn Hq vk. unfold get_dns_vk, Dns_DnsData. rewrite Hn, Hq. cbn -[parse_vk]. clear Hq.
  induction records as [|r records IH]; cbn -[parse_vk].
  { split; [done|]. intros (b & t & a & Hr & _). by destruct b. }
  destruct r as [t|]; cbn -[parse_vk]; [destruct (parse_vk t) as [v|] eqn:Hp|].
  - split.
    + intros [= ->]. exists [], t, records. split_and!; [done|done|]. set_solver.
    + intros (b & t' & a & Hr & Ht & Hb). destruct b as [|x b]; simplify_eq/=; [congruence|].
      specialize (Hb t ltac:(by left)). congruence.
  - rewrite IH. split.
    + intros (b & t' & a & -> & Ht & Hb). exists (Some t :: b), t', a. split_and!; [done|done|].
      intros x [[= ->]|?]%elem_of_cons; [done|by apply Hb].
    + intros (b & t' & a & Hr & Ht & Hb). destruct b as [|x b]; simplify_eq/=.
      exists b, t', a. split_and!; [done|done|]. intros x Hx. apply Hb. by right.
  - rewrite IH. split.
    + intros (b & t' & a & -> & Ht & Hb). exists (None :: b), t', a. split_and!; [done|done|].
      intros x [?|?]%elem_of_cons; [done|by apply Hb].
    + intros (b & t' & a & Hr & Ht & Hb). destruct b as [|x b]; simplify_eq/=.
      exists b, t', a. split_and!; [done|done|]. intros x Hx. apply Hb. by right.
Qed.
End keys.
