(* ===== verification/Rpc.v ===== *)
(** * Rpc: the client side of the four RPCs

    Models [src/rpc.rs], and [src/instrumentation.rs] that the lookups log to.
    A node's tasks share its routing table; while one awaits a reply the others
    may change it, so a transport is an arbitrary function on the whole
    environment: the table, the log, and the rest of the world (wire, peers,
    clock).  The synchronous parts between awaits are single steps. *)

From S2P Require Import Prelude Slices Machine Contacts Crates Text Address Package Wire Stream HandleRpc.

Local Open Scope string_scope.

(** ** The environment *)

Record Env (A W : Type) : Type := MkEnv {
  table : A;
  metrics : list string;
  next_lookup : u64;
  world : W
}.
Arguments MkEnv {A W} table metrics next_lookup world.
Arguments table {A W} e.
Arguments metrics {A W} e.
Arguments next_lookup {A W} e.
Arguments world {A W} e.

(** The clock [Instant::now()] reads. *)
Class Clock (W : Type) := clock : W -> Instant.

Section env.
Context {A W : Type}.

Definition on_table {X} (m : M A X) : M (Env A W) X :=
  fun e => let r := m (table e) in (r.1, MkEnv r.2 (metrics e) (next_lookup e) (world e)).

Definition query_table `{CloseNodes A} `{Clock W} (target : NodeId) : M (Env A W) (list Contact) :=
  now ← gets (fun e => clock (world e));
  on_table (close_nodes now target).

Definition offer_contact `{CloseNodes A} (contact : Contact) : M (Env A W) unit :=
  on_table (modify (maybe_add_contact contact)).

(** ** [instrumentation.rs] *)

Definition next_lookup_id : M (Env A W) u64 :=
  fun e => (next_lookup e,
    MkEnv (table e) (metrics e) (wrap 64 (uval (next_lookup e) + 1)) (world e)).

Definition info (line : string) : M (Env A W) unit :=
  modify (fun e => MkEnv (table e) (metrics e ++ [line])%list (next_lookup e) (world e)).

Context `{Hex}.

Definition encode_id (id : NodeId) : string := hex_encode (elems id).

Definition show_usize (n : nat) : string := decimal 20 (N.of_nat n).
Definition show_bool (b : bool) : string := if b then "true" else "false".

Definition lookup_start (lookup_id : u64) (kind : string) (node target : NodeId) : M (Env A W) unit :=
  info ("event=lookup_start lookup_id=" +:+ show_u64 lookup_id +:+ " kind=" +:+ kind +:+
        " node=" +:+ encode_id node +:+ " target=" +:+ encode_id target).

Definition lookup_probe (lookup_id : u64) (kind : string) (node : NodeId) (contact : Contact)
    : M (Env A W) unit :=
  info ("event=lookup_probe lookup_id=" +:+ show_u64 lookup_id +:+ " kind=" +:+ kind +:+
        " node=" +:+ encode_id node +:+ " peer=" +:+ socket_to_string (address contact)).

Definition node_lookup_end (lookup_id : u64) (node : NodeId) (probes result_count : nat)
    (exact_match : bool) : M (Env A W) unit :=
  info ("event=lookup_end lookup_id=" +:+ show_u64 lookup_id +:+ " kind=node node=" +:+ encode_id node +:+
        " probes=" +:+ show_usize probes +:+ " result_count=" +:+ show_usize result_count +:+
        " exact_match=" +:+ show_bool exact_match).

Definition value_lookup_end (lookup_id : u64) (node : NodeId) (probes : nat) (success : bool)
    : M (Env A W) unit :=
  info ("event=lookup_end lookup_id=" +:+ show_u64 lookup_id +:+ " kind=value node=" +:+ encode_id node +:+
        " probes=" +:+ show_usize probes +:+ " success=" +:+ show_bool success).
End env.

Local Close Scope string_scope.

(** ** [Rpc] *)

(** [RpcTransport::send_receive], as the environment sees it. *)
Definition RpcTransport (A W : Type) : Type := bytes -> SocketAddr -> M (Env A W) (result IoError bytes).

Record Rpc (A W : Type) : Type := MkRpc {
  my_contact : Contact;
  transport : RpcTransport A W;
  robust_transport : RpcTransport A W
}.
Arguments MkRpc {A W} my_contact transport robust_transport.
Arguments my_contact {A W} r.
Arguments transport {A W} r.
Arguments robust_transport {A W} r.

Definition peer_is_gone (e : IoError) : bool :=
  match kind e with
  | TimedOut | ConnectionRefused | ConnectionReset => true
  | _ => false
  end.

(** [contacts_iter().any(..)]: stop as soon as more than [K] ids were seen. *)
Fixpoint plenty (distinct : gset NodeId) (l : list Contact) : bool :=
  match l with
  | [] => false
  | known :: l =>
      let distinct := {[id known]} ∪ distinct in
      if K <? size distinct then true else plenty distinct l
  end.

Section rpc.
Context `{Codec} {A W : Type} `{CloseNodes A}.

Definition forget (contact : Contact) : M (Env A W) unit :=
  on_table (modify (fun t =>
    if plenty ∅ (contacts_iter t) then remove_contact contact t else t)).

Definition call (rpc : Rpc A W) (transport : RpcTransport A W) (method : Method) (req_body : bytes)
    (peer : SocketAddr) (known : option Contact) : M (Env A W) (option bytes) :=
  reply ← transport (rpc_request (id (my_contact rpc)) method req_body) peer;
  match reply with
  | Ok reply => mret (Some reply)
  | Err e =>
      (match known with
       | Some contact => if peer_is_gone e then forget contact else mret tt
       | None => mret tt
       end);;
      mret None
  end.

Definition ping (rpc : Rpc A W) (peer : SocketAddr) : M (Env A W) (option NodeId) :=
  reply ← call rpc (transport rpc) Ping [] peer None;
  mret (reply ≫= ping_decode_reply).

Definition store_with_proof (rpc : Rpc A W) (peer : Contact) (key : Key) (value : Value)
    (proof : list (Signed VersionRecord)) : M (Env A W) bool :=
  match encode_request_with_proof key value proof with
  | None => mret false
  | Some req_body =>
      reply ← call rpc (robust_transport rpc) Store req_body (address peer) (Some peer);
      mret (match reply with Some bytes => bool_decide (bytes = STORED) | None => false end)
  end.

Definition store (rpc : Rpc A W) (peer : Contact) (key : Key) (value : Value) : M (Env A W) bool :=
  store_with_proof rpc peer key value [].

Definition find_node (rpc : Rpc A W) (peer : Contact) (target : NodeId) : M (Env A W) (list Contact) :=
  match find_node_encode_request target with
  | None => mret []
  | Some req_body =>
      reply ← call rpc (transport rpc) FindNode req_body (address peer) (Some peer);
      match reply with
      | None => mret []
      | Some reply => mret (default [] (find_node_decode_reply reply))
      end
  end.

Definition find_value (rpc : Rpc A W) (peer : Contact) (key : Key) : M (Env A W) FindValueReply :=
  match serialize key with
  | None => mret (Closest [])
  | Some req_body =>
      reply ← call rpc (robust_transport rpc) FindValue req_body (address peer) (Some peer);
      match reply with
      | None => mret (Closest [])
      | Some reply => mret (default (Closest []) (deserialize reply))
      end
  end.
End rpc.

(** ** The floor under [forget] *)

Definition ids_of (l : list Contact) : gset NodeId := list_to_set (id <$> l).

Lemma plenty_spec seen l :
  size seen <= K -> plenty seen l = true <-> K < size (seen ∪ ids_of l).
Proof.
  revert seen. induction l as [|c l IH]; intros seen Hs; simpl.
  - unfold ids_of. simpl. rewrite union_empty_r_L. split; [done|lia].
  - assert (seen ∪ ids_of (c :: l) = ({[id c]} ∪ seen) ∪ ids_of l) as ->
      by (unfold ids_of; rewrite fmap_cons; simpl; set_solver).
    destruct (Nat.ltb_spec K (size ({[id c]} ∪ seen))) as [Hlt|Hge]; [|by apply IH].
    split; [intros _|done].
    eapply Nat.lt_le_trans; [exact Hlt|]. apply subseteq_size. set_solver.
Qed.

Section floor.
Context {A W : Type} `{CloseNodesSpec A}.

Lemma forget_inv c (e : Env A W) : cn_inv (table e) -> cn_inv (table (forget c e).2).
Proof. intros Hi. simpl. destruct (plenty _ _); auto with kad. Qed.

(** Forgetting never takes the table to fewer than [K] distinct ids. *)
Lemma forget_floor c (e : Env A W) :
  size (ids_of (contacts_iter (table e))) `min` K <= size (ids_of (contacts_iter (table (forget c e).2))).
Proof.
  simpl. pose proof (plenty_spec ∅ (contacts_iter (table e))) as Hp.
  rewrite union_empty_l_L, size_empty in Hp. specialize (Hp ltac:(unfold K; lia)).
  destruct (plenty ∅ _); [|lia]. destruct Hp as [Hp _]. specialize (Hp eq_refl).
  set (before := ids_of (contacts_iter (table e))) in *.
  assert (before ∖ {[id c]} ⊆ ids_of (contacts_iter (remove_contact c (table e)))) as Hsub.
  { intros i [Hi Hne]%elem_of_difference. unfold before, ids_of in *.
    rewrite elem_of_list_to_set, list_elem_of_fmap in *. destruct Hi as (x & -> & Hx).
    exists x. split; [done|]. apply cn_remove_keeps; [done|]. set_solver. }
  apply subseteq_size in Hsub.
  assert (size before <= size (before ∖ {[id c]}) + 1); [|lia].
  transitivity (size (before ∖ {[id c]} ∪ {[id c]})).
  - apply subseteq_size. intros x. destruct (decide (x = id c)); set_solver.
  - rewrite size_union by set_solver. rewrite size_singleton. lia.
Qed.

(** A small table is left alone. *)
Lemma forget_small c (e : Env A W) :
  size (ids_of (contacts_iter (table e))) <= K -> table (forget c e).2 = table e.
Proof.
  intros Hs. simpl. destruct (plenty _ _) eqn:E; [|done].
  apply plenty_spec in E; rewrite ?size_empty; [|unfold K; lia].
  rewrite union_empty_l_L in E. lia.
Qed.
End floor.

(** ** Client and server agree *)

Section agree.
Context `{Sha256} `{Ed25519} `{CodecLaws} {A D : Type} `{CloseNodes A} `{!DnsData D}.

(** A request of [me], served by [c] and read back by the client. *)
Definition served (now : Instant) (from : SocketAddr) (reachable : bool) (draw : u64)
    (me : NodeId) (method : Method) (req_body : bytes) : M (Context A D) (option bytes) :=
  framed ← dispatch now (MkRequest (request_id draw) from reachable (rpc_request me method req_body));
  mret (framed ≫= fun f => match read_reply (request_id draw) f with Ok b => Some b | Err _ => None end).

(** The server as it is after learning the sender. *)
Definition after_learning (from : SocketAddr) (reachable : bool) (me : NodeId) (c : Context A D) : Context A D :=
  if reachable
  then MkContext (my_id c) (maybe_add_contact (MkContact me from) (ctx_nodes c)) (ctx_values c) (ctx_dns c)
  else c.

(** The client reads exactly what the handler answered. *)
Lemma served_handle now from reachable draw me method req_body c :
  served now from reachable draw me method req_body c =
  handle now method req_body (after_learning from reachable me c).
Proof.
  unfold served. mstep. unfold dispatch. cbn [req_payload].
  rewrite (proj2 (parse_framed_Some _ _ _ _) eq_refl). mstep.
  assert ((learn_sender (MkRequest (request_id draw) from reachable (rpc_request me method req_body)) me c).2
          = after_learning from reachable me c) as -> by (unfold learn_sender; by destruct reachable).
  destruct (handle now method req_body _) as [[reply|] c'] eqn:Hh; cbn [fst snd]; mstep;
    cbn [fst snd req_id mbind option_bind]; rewrite ?read_reply_framed; done.
Qed.

Lemma served_find_node now from reachable draw me t q c reply :
  serialize t = Some q ->
  (served now from reachable draw me FindNode q c).1 = Some reply ->
  find_node_decode_reply reply =
    Some (serde_contact <$> (close_nodes now t (ctx_nodes (after_learning from reachable me c))).1).
Proof using H2.
  intros Hq. rewrite served_handle. cbn [handle]. unfold find_node_handle.
  rewrite (deserialize_serialize _ _ Hq). mstep. cbn. apply laws_contacts.
Qed.

Lemma served_find_value now from reachable draw me key q c reply :
  serialize key = Some q ->
  (served now from reachable draw me FindValue q c).1 = Some reply ->
  deserialize reply = Some
    match ctx_values c !! key with
    | Some v => FoundValue v
    | None => Closest (serde_contact <$> (close_nodes now key (ctx_nodes (after_learning from reachable me c))).1)
    end.
Proof using H2.
  intros Hq. rewrite served_handle. cbn [handle]. unfold find_value_handle.
  rewrite (deserialize_serialize _ _ Hq). mstep. cbn.
  assert (ctx_values (after_learning from reachable me c) = ctx_values c) as -> by by destruct reachable.
  destruct (ctx_values c !! key); cbn; apply laws_find_value.
Qed.

Lemma served_ping now from reachable draw me c reply :
  (served now from reachable draw me Ping [] c).1 = Some reply ->
  ping_decode_reply reply = Some (my_id c).
Proof using H2.
  rewrite served_handle. cbn.
  replace (my_id (after_learning from reachable me c)) with (my_id c) by by destruct reachable.
  apply deserialize_serialize.
Qed.
End agree.
