(* ===== verification/Lookup.v ===== *)
(** * Lookup: iterative node and value lookups

    Models [src/lookup.rs].  A lookup keeps up to [ALPHA] calls in flight; the
    one that resolves next is the environment's choice ([pick], the order of
    [FuturesUnordered]), and a call acts on the environment when it resolves.
    The node lookup's loop is bounded by [2^LOOKUP_ROUNDS] rounds, which is more
    than there are ids to ask; that it always ends by settling, never by running
    out of rounds, is part of the theorems.  The field [heard] of its state is
    not in the code: it records every contact the answers named, for the
    statements. *)

From S2P Require Import Prelude Slices Machine Contacts Crates Text Package VersionChain Wire HandleRpc Rpc.

Definition ALPHA : nat := 3.

(** More than there are ids: [2^257] rounds. *)
Definition LOOKUP_ROUNDS : nat := 257.

Record Lookup : Type := MkLookup {
  candidates : list Contact;
  queried : gset NodeId;
  in_flight : list Contact;
  probe_count : nat;
  heard : list Contact
}.

(** [candidates.iter().find(|contact| !queried.contains(&contact.id))]. *)
Definition next_unqueried (queried : gset NodeId) (l : list Contact) : option Contact :=
  find (fun c => negb (bool_decide (id c ∈ queried))) l.

Section lookup.
Context `{Sha256} `{Ed25519} `{Codec} `{Hex} {A W : Type} `{CloseNodes A} `{Clock W}.

(** Which of the calls in flight resolves next. *)
Context (pick : W -> nat).

(** [in_flight.next()]: the peer that answered, and the ones still to. *)
Definition take_next (in_flight : list Contact) : M (Env A W) (option (Contact * list Contact)) :=
  gets (fun e =>
    let i := pick (world e) mod length in_flight in
    (fun c => (c, delete i in_flight)) <$> in_flight !! i).

Section node.
Context (rpc : Rpc A W) (target : NodeId) (lookup_id : u64).

Definition me : NodeId := id (my_contact rpc).

(** [while in_flight.len() < ALPHA]; [room] is [ALPHA - in_flight.len()]. *)
Fixpoint top_up (room : nat) (s : Lookup) : M (Env A W) Lookup :=
  match room with
  | O => mret s
  | S room =>
      match next_unqueried (queried s) (candidates s) with
      | None => mret s
      | Some next =>
          lookup_probe lookup_id "node" me next;;
          top_up room
            (MkLookup (candidates s) ({[id next]} ∪ queried s) (in_flight s ++ [next])
               (probe_count s + 1) (heard s))
      end
  end.

(** [new_contacts.retain(|c| c.id != my_id)]. *)
Definition not_me (l : list Contact) : list Contact :=
  filter (fun c => id c <> me) l.

(** One round of the loop: [inr] is the [break]. *)
Definition lookup_round (s : Lookup) : M (Env A W) (Lookup + Lookup) :=
  s ← top_up (ALPHA - length (in_flight s)) s;
  next ← take_next (in_flight s);
  match next with
  | None => mret (inr s)
  | Some (peer, still) =>
      reply ← find_node rpc peer target;
      let new_contacts := not_me reply in
      for_each new_contacts offer_contact;;
      mret (inl (MkLookup (closest_to target K (candidates s ++ new_contacts)) (queried s) still
                   (probe_count s) (heard s ++ new_contacts)))
  end.

Definition lookup_loop (s : Lookup) : M (Env A W) (Lookup + Lookup) :=
  loop_until LOOKUP_ROUNDS lookup_round s.
End node.

(** The state of a node lookup that has not asked anyone. *)
Definition lookup_begin (l : list Contact) : Lookup := MkLookup l ∅ [] 0 [].

(** The lookup up to the point where it has settled. *)
Definition lookup_run (rpc : Rpc A W) (target : NodeId) : M (Env A W) (u64 * (Lookup + Lookup)) :=
  lookup_id ← next_lookup_id;
  lookup_start lookup_id "node" (id (my_contact rpc)) target;;
  known ← query_table target;
  out ← lookup_loop rpc target lookup_id (lookup_begin (take K (sort_by_distance target known)));
  mret (lookup_id, out).

Definition lookup_node (rpc : Rpc A W) (target : NodeId) : M (Env A W) (list Contact) :=
  run ← lookup_run rpc target;
  let lookup_id := run.1 in
  let s := match run.2 with inl s => s | inr s => s end in
  let exact_match := existsb (fun c => bool_decide (id c = target)) (candidates s) in
  node_lookup_end lookup_id (id (my_contact rpc)) (probe_count s) (length (candidates s)) exact_match;;
  mret (candidates s).

(** The nodes a value belongs on, ourselves included. *)
Definition with_us (rpc : Rpc A W) (key : Key) (l : list Contact) : list Contact :=
  closest_to key K (l ++ [my_contact rpc]).

(** The probe loop of [lookup_values].  [budget] counts the candidates not yet
    asked together with the calls in flight. *)
Fixpoint values_loop (rpc : Rpc A W) (key : Key) (accept : Value -> bool) (stop_at_first : bool)
    (lookup_id : u64) (budget : nat) (cands flight : list Contact) (probes : nat)
    (found : list (Contact * Value)) : M (Env A W) (nat * list (Contact * Value)) :=
  match budget with
  | O => mret (probes, found)
  | S budget =>
      let starting := take (ALPHA - length flight) cands in
      for_each starting (lookup_probe lookup_id "value" (id (my_contact rpc)));;
      let cands := drop (ALPHA - length flight) cands in
      let flight := flight ++ starting in
      let probes := probes + length starting in
      next ← take_next flight;
      match next with
      | None => mret (probes, found)
      | Some (source, still) =>
          reply ← find_value rpc source key;
          match reply with
          | FoundValue value =>
              if accept value then
                if stop_at_first then mret (probes, found ++ [(source, value)])
                else values_loop rpc key accept stop_at_first lookup_id budget cands still probes
                       (found ++ [(source, value)])
              else values_loop rpc key accept stop_at_first lookup_id budget cands still probes found
          | Closest contacts =>
              for_each contacts offer_contact;;
              values_loop rpc key accept stop_at_first lookup_id budget cands still probes found
          end
      end
  end.

Definition lookup_values (rpc : Rpc A W) (key : Key) (accept : Value -> bool)
    (stop_at_first : bool) : M (Env A W) (list (Contact * Value)) :=
  lookup_id ← next_lookup_id;
  let my_id := id (my_contact rpc) in
  lookup_start lookup_id "value" my_id key;;
  near ← lookup_node rpc key;
  let cands := with_us rpc key near in
  out ← values_loop rpc key accept stop_at_first lookup_id (length cands) cands [] 0 [];
  value_lookup_end lookup_id my_id out.1 (bool_decide (out.2 <> []));;
  mret out.2.

Definition accept_blob (key : Key) (value : Value) : bool :=
  match value with
  | Blob bytes => bool_decide (key_for_value bytes = key)
  | Latest _ => false
  end.

Definition lookup_value (rpc : Rpc A W) (key : Key) : M (Env A W) (option (Contact * bytes)) :=
  found ← lookup_values rpc key (accept_blob key) true;
  mret (match found with
        | (source, Blob bytes) :: _ => Some (source, bytes)
        | _ => None
        end).

Definition accept_latest (owner : VerifyingKey) (domain package : string) (value : Value) : bool :=
  match value with
  | Latest pointer =>
      bool_decide (lp_domain (body pointer) = domain) &&
      bool_decide (lp_package (body pointer) = package) &&
      latest_is_valid pointer owner
  | Blob _ => false
  end.

Definition pointers (found : list (Contact * Value)) : list (Signed LatestPointer) :=
  omap (fun p => match p.2 with Latest pointer => Some pointer | Blob _ => None end) found.

Definition older_pointer (a b : Signed LatestPointer) : bool :=
  version_le (lp_version (body a)) (lp_version (body b)).

Definition get_latest (rpc : Rpc A W) (dns : string -> M (Env A W) (option VerifyingKey))
    (domain package : string) : M (Env A W) (option (Signed LatestPointer)) :=
  owner ← dns domain;
  match owner with
  | None => mret None
  | Some owner =>
      found ← lookup_values rpc (latest_key domain package) (accept_latest owner domain package) false;
      mret (max_by older_pointer (pointers found))
  end.

(** [for target in targets { if store(..).await { accepted += 1 } }]. *)
Fixpoint store_on (rpc : Rpc A W) (key : Key) (value : Value) (proof : list (Signed VersionRecord))
    (targets : list Contact) (accepted : nat) : M (Env A W) nat :=
  match targets with
  | [] => mret accepted
  | target :: targets =>
      ok ← store_with_proof rpc target key value proof;
      store_on rpc key value proof targets (if ok : bool then accepted + 1 else accepted)
  end.

Definition store_value_with_proof (rpc : Rpc A W) (value : Value)
    (proof : list (Signed VersionRecord)) : M (Env A W) (Key * nat) :=
  let key := value_key value in
  targets ← lookup_node rpc key;
  accepted ← store_on rpc key value proof (with_us rpc key targets) 0;
  mret (key, accepted).

Definition store_value (rpc : Rpc A W) (value : Value) : M (Env A W) Key :=
  out ← store_value_with_proof rpc value [];
  mret out.1.
End lookup.

#[local] Opaque K.

(** ** The node lookup *)

Lemma next_unqueried_Some q l c :
  next_unqueried q l = Some c -> c ∈ l /\ id c ∉ q.
Proof.
  unfold next_unqueried. intros [Hin Hq]%find_some. apply list_elem_of_In in Hin.
  split; [done|]. by brefl.
Qed.

Lemma next_unqueried_None q l :
  next_unqueried q l = None -> forall c, c ∈ l -> id c ∈ q.
Proof.
  unfold next_unqueried. intros Hn c Hin%list_elem_of_In.
  pose proof (find_none _ _ Hn _ Hin) as Hf. simpl in Hf. by brefl.
Qed.

Section node_lookup.
Context `{Codec} `{Hex} {A W : Type} `{CloseNodes A} `{Clock W}.
Context (pick : W -> nat) (rpc : Rpc A W) (target : NodeId) (lookup_id : u64).

(** What one round of [top_up] did. *)
Record topped_up (room : nat) (s s' : Lookup) : Prop := {
  tu_candidates : candidates s' = candidates s;
  tu_heard : heard s' = heard s;
  tu_started : exists started,
    in_flight s' = in_flight s ++ started /\ queried s' = ids_of started ∪ queried s /\
    probe_count s' = probe_count s + length started /\
    size (queried s') = size (queried s) + length started /\
    length started <= room /\ started ⊆ candidates s /\
    (length started < room -> forall c, c ∈ candidates s -> id c ∈ queried s')
}.

Lemma top_up_spec room s (e : Env A W) :
  topped_up room s (top_up rpc lookup_id room s e).1 /\
  table (top_up rpc lookup_id room s e).2 = table e /\
  world (top_up rpc lookup_id room s e).2 = world e.
Proof.
  revert s e. induction room as [|room IH]; intros s e; cbn [top_up].
  { split; [|done]. split; [done|done|]. exists []. unfold ids_of. simpl.
    rewrite app_nil_r, union_empty_l_L. split_and!; [done..|lia|done| |set_solver|lia]. lia. }
  destruct (next_unqueried (queried s) (candidates s)) as [next|] eqn:Hn.
  2: { split; [|done]. split; [done|done|]. exists []. unfold ids_of. simpl.
       rewrite app_nil_r, union_empty_l_L.
       split_and!; [done|done|lia|lia|lia|set_solver|]. intros _. by apply next_unqueried_None. }
  apply next_unqueried_Some in Hn as [Hin Hq]. mstep.
  set (s1 := MkLookup _ _ _ _ _). set (e1 := (lookup_probe _ _ _ _ e).2).
  destruct (IH s1 e1) as ([Hc Hh (st & Hf & Hqs & Hp & Hsz & Hl & Hsub & Hall)] & Ht & Hw).
  split; [|by rewrite Ht, Hw]. split; [done|done|]. exists (next :: st).
  rewrite Hf, Hp, Hsz. subst s1. simpl in *. split_and!.
  - by rewrite <- app_assoc.
  - rewrite Hqs. unfold ids_of. rewrite fmap_cons. simpl. set_solver.
  - lia.
  - rewrite size_union by set_solver. rewrite size_singleton. lia.
  - lia.
  - set_solver.
  - intros Hlt. apply Hall. lia.
Qed.

(** The invariant of the loop: [base] is what it began with. *)
Record linv (base : list Contact) (s : Lookup) : Prop := {
  li_flight c : c ∈ in_flight s -> id c ∈ queried s;
  li_alpha : length (in_flight s) <= ALPHA;
  li_probes : probe_count s = size (queried s);
  li_asked : queried s ⊆ ids_of (base ++ heard s);
  li_candidates :
    (candidates s = base /\ heard s = [] /\ queried s ⊆ ids_of (in_flight s)) \/
    candidates s = closest_to target K (base ++ heard s)
}.

Lemma linv_begin base : linv base (lookup_begin base).
Proof. split; simpl; [set_solver|unfold ALPHA; lia|done|set_solver|left; set_solver]. Qed.

Lemma candidates_known base s : linv base s -> candidates s ⊆ base ++ heard s.
Proof.
  intros Hi c Hc. destruct (li_candidates _ _ Hi) as [(Hb & _ & _)|Hb]; rewrite Hb in Hc.
  - set_solver.
  - unfold closest_to in Hc. by eapply closest_elem_of in Hc; [|apply _|apply same_id_spec].
Qed.

Lemma ids_of_app l l' : ids_of (l ++ l') = ids_of l ∪ ids_of l'.
Proof. unfold ids_of. by rewrite fmap_app, list_to_set_app_L. Qed.

Lemma elem_of_ids i l : i ∈ ids_of l <-> exists c, c ∈ l /\ id c = i.
Proof.
  unfold ids_of. rewrite elem_of_list_to_set, list_elem_of_fmap. naive_solver.
Qed.

Lemma linv_top_up base s s' :
  linv base s -> topped_up (ALPHA - length (in_flight s)) s s' -> linv base s'.
Proof.
  intros Hi [Hc Hh (st & Hf & Hq & Hp & Hsz & Hl & Hsub & _)]. split.
  - intros c. rewrite Hf, Hq. intros [Hin|Hin]%elem_of_app.
    + apply (li_flight _ _ Hi) in Hin. set_solver.
    + apply elem_of_union_l, elem_of_ids. eauto.
  - rewrite Hf, length_app. pose proof (li_alpha _ _ Hi). lia.
  - rewrite Hp, Hsz. by rewrite (li_probes _ _ Hi).
  - rewrite Hq, Hh. pose proof (li_asked _ _ Hi). pose proof (candidates_known _ _ Hi) as Hk.
    intros i [(c & Hin & <-)%elem_of_ids|Hin]%elem_of_union; [|set_solver].
    apply elem_of_ids. exists c. split; [apply Hk, Hsub, Hin|done].
  - rewrite Hc, Hh, Hq, Hf. destruct (li_candidates _ _ Hi) as [(Hb & Hn & Hin)|Hb]; [left|by right].
    split_and!; [done|done|]. rewrite ids_of_app. set_solver.
Qed.

Lemma take_next_spec flight (e : Env A W) :
  (take_next pick flight e).2 = e /\
  match (take_next pick flight e).1 with
  | None => flight = []
  | Some (peer, still) => exists a b, flight = a ++ peer :: b /\ still = a ++ b
  end.
Proof.
  unfold take_next. cbn. split; [done|]. destruct flight as [|c l]; [by destruct (pick _ `mod` _)|].
  set (fl := c :: l). set (i := pick (world e) mod length fl).
  assert (i < length fl) as Hlt by (apply Nat.mod_upper_bound; done).
  destruct (fl !! i) as [peer|] eqn:Hp; cbn.
  - exists (take i fl), (drop (S i) fl). rewrite delete_take_drop.
    split; [symmetry; by apply take_drop_middle|done].
  - apply lookup_ge_None in Hp. lia.
Qed.

Lemma linv_answer base s peer still a b new :
  linv base s -> in_flight s = a ++ peer :: b -> still = a ++ b ->
  linv base (MkLookup (closest_to target K (candidates s ++ new)) (queried s) still
               (probe_count s) (heard s ++ new)).
Proof.
  intros Hi Hf ->. split; simpl.
  - intros c Hc. apply (li_flight _ _ Hi). rewrite Hf. set_solver.
  - pose proof (li_alpha _ _ Hi) as Hl. rewrite Hf, length_app in Hl. rewrite length_app. simpl in Hl. lia.
  - apply Hi.
  - pose proof (li_asked _ _ Hi). rewrite app_assoc, ids_of_app. set_solver.
  - right. rewrite app_assoc. destruct (li_candidates _ _ Hi) as [(-> & -> & _)| ->]; [by rewrite app_nil_r|].
    unfold closest_to. rewrite closest_absorb; [done|apply _|apply same_id_spec].
Qed.
End node_lookup.

(** The ids with a value below [z], and all ids there are. *)
Definition ids_below (z : Z) : gset NodeId :=
  list_to_set (omap (fun n => array_of 32 (be_bytes 32 n)) (Z.to_N <$> seqZ 0 z)).
Definition all_ids : gset NodeId := ids_below (2 ^ 256).

Lemma elem_of_ids_below i z : (Z.of_N (id_val i) < z)%Z -> i ∈ ids_below z.
Proof.
  intros Hi. unfold ids_below. apply elem_of_list_to_set, list_elem_of_omap.
  exists (id_val i). split.
  - apply list_elem_of_fmap. exists (Z.of_N (id_val i)). split; [by rewrite N2Z.id|].
    apply elem_of_seqZ. lia.
  - apply array_of_Some. unfold id_val. pose proof (be_bytes_be_val (elems i)) as Hb.
    by rewrite array_length in Hb.
Qed.

Lemma elem_of_all_ids i : i ∈ all_ids.
Proof. apply elem_of_ids_below. pose proof (id_val_lt i). lia. Qed.

Lemma size_list_to_set_le (l : list NodeId) : size (list_to_set l : gset NodeId) <= length l.
Proof.
  induction l as [|x l IH]; simpl; [done|]. rewrite size_union_alt, size_singleton.
  assert (size ((list_to_set l : gset NodeId) ∖ {[x]}) <= size (list_to_set l : gset NodeId))
    by (apply subseteq_size; set_solver). lia.
Qed.

Lemma ids_below_size z : (0 <= z)%Z -> (Z.of_nat (size (ids_below z)) <= z)%Z.
Proof.
  intros Hz. unfold ids_below. set (f := fun n => array_of 32 (be_bytes 32 n)).
  set (l := Z.to_N <$> seqZ 0 z).
  assert (length l = Z.to_nat z) as Hl by (unfold l; by rewrite length_fmap, length_seqZ).
  pose proof (size_list_to_set_le (omap f l)).
  assert (length (omap f l) <= length l).
  { clear. induction l as [|x l IH]; simpl; [lia|]. unfold omap in *. destruct (f x); simpl; lia. }
  lia.
Qed.

Lemma all_ids_size : (N.of_nat (size all_ids) <= 2 ^ 256)%N.
Proof.
  assert (0 <= 2 ^ 256)%Z as Hz by done. pose proof (ids_below_size _ Hz) as Hs.
  unfold all_ids. revert Hs. generalize (size (ids_below (2 ^ 256))). intros n. lia.
Qed.

(** ** Lookups find what they heard of, and stop *)

Section node_loop.
Context `{Codec} `{Hex} {A W : Type} `{CloseNodes A} `{Clock W}.
Context (pick : W -> nat) (rpc : Rpc A W) (target : NodeId) (lookup_id : u64).

(** A settled lookup: nobody left to ask or to wait for. *)
Record settled (base : list Contact) (s : Lookup) : Prop := {
  se_inv : linv target base s;
  se_flight : in_flight s = [];
  se_queried c : c ∈ candidates s -> id c ∈ queried s
}.

(** The rounds left: ids not yet asked, and answers still to come. *)
Definition rounds_left (s : Lookup) : N :=
  N.of_nat (size all_ids - size (queried s) + length (in_flight s)).

Lemma lookup_round_ok base s (e : Env A W) :
  linv target base s ->
  match (lookup_round pick rpc target lookup_id s e).1 with
  | inl s' => linv target base s' /\ (rounds_left s' < rounds_left s)%N
  | inr s' => settled base s'
  end.
Proof.
  intros Hi. unfold lookup_round. mstep.
  destruct (top_up_spec rpc lookup_id (ALPHA - length (in_flight s)) s e) as (Htu & _).
  set (r1 := top_up _ _ _ _ e) in *.
  pose proof (linv_top_up _ _ _ _ Hi Htu) as Hi1.
  destruct (take_next_spec pick (in_flight r1.1) r1.2) as [_ Hnext].
  destruct Htu as [Hc _ (st & Hf' & _ & _ & Hsz & _ & _ & Hall)].
  destruct (take_next pick (in_flight r1.1) r1.2).1 as [[peer still]|]; mstep; cbn [fst].
  - destruct Hnext as (a & b & Hf & Hst). split; [by eapply linv_answer|].
    assert (size (queried r1.1) <= size all_ids) as Hle.
    { apply subseteq_size. intros i _. apply elem_of_all_ids. }
    assert (length (in_flight r1.1) = length (in_flight s) + length st) by by rewrite Hf', length_app.
    assert (length (in_flight r1.1) = S (length still)) by (rewrite Hf, Hst, !length_app; simpl; lia).
    unfold rounds_left. cbn [queried in_flight]. lia.
  - split; [done|done|]. rewrite Hc. apply Hall.
    rewrite Hnext in Hf'. symmetry in Hf'. apply app_eq_nil in Hf' as [-> ->]. unfold ALPHA. simpl. lia.
Qed.

(** We never count as somebody we were told of. *)
Definition others (s : Lookup) : Prop := forall c, c ∈ heard s -> id c <> me rpc.

Lemma lookup_round_others s (e : Env A W) :
  others s -> match (lookup_round pick rpc target lookup_id s e).1 with inl s' | inr s' => others s' end.
Proof.
  intros Ho. unfold lookup_round. mstep.
  destruct (top_up_spec rpc lookup_id (ALPHA - length (in_flight s)) s e) as ([_ Hh _] & _).
  set (r1 := top_up _ _ _ _ e) in *.
  destruct (take_next pick (in_flight r1.1) r1.2).1 as [[peer still]|]; mstep; cbn [fst]; unfold others.
  - cbn [heard]. rewrite Hh. intros c [Hc|Hc]%elem_of_app; [by apply Ho|].
    unfold not_me in Hc. by apply list_elem_of_filter in Hc as [? _].
  - by rewrite Hh.
Qed.

Lemma rounds_enough s :
  length (in_flight s) <= ALPHA -> (rounds_left s < 2 ^ N.of_nat LOOKUP_ROUNDS)%N.
Proof.
  intros Hf. unfold rounds_left. pose proof all_ids_size as Hs.
  assert (2 ^ N.of_nat LOOKUP_ROUNDS = 2 * 2 ^ 256)%N as -> by reflexivity.
  assert (3 < 2 ^ 256)%N by reflexivity. unfold ALPHA in Hf.
  revert Hs. generalize (size all_ids). generalize dependent (2 ^ 256)%N. intros. lia.
Qed.

(** The loop always settles, with whatever else its rounds preserve. *)
Lemma lookup_loop_settles_with (Q R : Lookup -> Env A W -> Prop) base s (e : Env A W) :
  (forall x e', linv target base x -> Q x e' ->
     match (lookup_round pick rpc target lookup_id x e').1 with
     | inl x' => Q x' (lookup_round pick rpc target lookup_id x e').2
     | inr x' => R x' (lookup_round pick rpc target lookup_id x e').2
     end) ->
  linv target base s -> Q s e ->
  exists s', (lookup_loop pick rpc target lookup_id s e).1 = inr s' /\ settled base s' /\
    R s' (lookup_loop pick rpc target lookup_id s e).2.
Proof.
  intros HQ Hi Hq. unfold lookup_loop.
  apply (loop_until_breaks _ (fun s e => linv target base s /\ Q s e)
           (fun s e => settled base s /\ R s e) rounds_left); [|done|].
  - intros x e' [Hx Hxq]. pose proof (lookup_round_ok base x e' Hx) as Hr.
    pose proof (HQ x e' Hx Hxq) as Hxq'. clear - Hr Hxq'.
    destruct (lookup_round pick rpc target lookup_id x e') as [[x'|x'] e'']; cbn [fst snd] in *;
      [destruct Hr; split_and!; assumption|split; assumption].
  - apply rounds_enough, (li_alpha _ _ _ Hi).
Qed.

Lemma lookup_loop_settles base s (e : Env A W) :
  linv target base s -> others s ->
  exists s', (lookup_loop pick rpc target lookup_id s e).1 = inr s' /\ settled base s' /\ others s'.
Proof.
  intros Hi Ho. apply (lookup_loop_settles_with (fun s _ => others s) (fun s _ => others s)); [|done..].
  intros x e' _ Hx. pose proof (lookup_round_others x e' Hx) as Hr.
  by destruct (lookup_round pick rpc target lookup_id x e').1.
Qed.

(** Of the [K] closest of [l], each other one is a repetition or further away. *)
Lemma closest_to_optimal l x :
  x ∈ l ->
  (exists y, y ∈ closest_to target K l /\ id y = id x) \/
  (length (closest_to target K l) = K /\ forall y, y ∈ closest_to target K l -> near_lt target y x).
Proof.
  unfold closest_to.
  intros [(y & Hy & Heq)|Hfull]%(closest_optimal (by_distance target) same_id (same_id_spec target) K); [left|by right].
  exists y. split; [done|]. by apply xor_distance_cmp_eq in Heq.
Qed.

(** A settled lookup answers with the best [K] of all it ever heard of. *)
Lemma settled_closest base s : settled base s -> candidates s = closest_to target K (base ++ heard s).
Proof.
  intros Hs. destruct (li_candidates _ _ _ (se_inv _ _ Hs)) as [(Hb & Hh & Hq)|?]; [|done].
  rewrite (se_flight _ _ Hs) in Hq.
  assert (base = []) as ->.
  { destruct base as [|c base]; [done|].
    pose proof (se_queried _ _ Hs c ltac:(rewrite Hb; by left)). set_solver. }
  by rewrite Hb, Hh.
Qed.

End node_loop.

Section node_result.
Context `{Codec} `{Hex} {A W : Type} `{CloseNodes A} `{Clock W}.
Context (pick : W -> nat) (rpc : Rpc A W).

(** What a node lookup returns. *)
Lemma lookup_node_settled target (e : Env A W) :
  exists s, (lookup_run pick rpc target e).1.2 = inr s /\
    settled target (take K (sort_by_distance target
      (close_nodes (clock (world e)) target (table e)).1)) s /\ others rpc s /\
    (lookup_node pick rpc target e).1 = candidates s.
Proof.
  assert (exists s, (lookup_run pick rpc target e).1.2 = inr s /\
    settled target (take K (sort_by_distance target
      (close_nodes (clock (world e)) target (table e)).1)) s /\ others rpc s) as (s & Hs & Hset & Ho).
  { unfold lookup_run. mstep. cbn [fst snd].
    set (e1 := (lookup_start _ _ _ _ _).2).
    change (query_table target e1).1 with (close_nodes (clock (world e)) target (table e)).1.
    apply lookup_loop_settles; [apply linv_begin|]. intros c. cbn [lookup_begin heard]. set_solver. }
  exists s. split; [done|]. split; [done|]. split; [done|]. unfold lookup_node. mstep. cbv zeta. by rewrite Hs.
Qed.
End node_result.

(** ** Value lookups *)

(** Of the calls in flight and the candidates, one was answered and the rest is
    still to be asked. *)
Lemma flight_taken k (cands flight a b : list Contact) source :
  flight ++ take k cands = a ++ source :: b ->
  (forall x, x ∈ flight ++ cands <-> x = source \/ x ∈ (a ++ b) ++ drop k cands) /\
  S (length (drop k cands) + length (a ++ b)) = length cands + length flight.
Proof.
  intros Hf. split.
  - intros x. rewrite <- (take_drop k cands) at 1. rewrite app_assoc, Hf. clear. set_solver.
  - apply (f_equal length) in Hf. rewrite <- (take_drop k cands) at 2. rewrite !length_app in *. simpl in Hf. lia.
Qed.

Section value_lookup.
Context `{Sha256} `{Ed25519} `{Codec} `{Hex} {A W : Type} `{CloseNodes A} `{Clock W}.
Context (pick : W -> nat) (rpc : Rpc A W) (key : Key) (accept : Value -> bool) (stop : bool).
Context (lookup_id : u64).

Let vloop := values_loop pick rpc key accept stop lookup_id.

(** Only accepted replies are kept, and only from nodes that were asked. *)
Lemma values_loop_sound budget cands flight probes found (e : Env A W) c v :
  (c, v) ∈ (vloop budget cands flight probes found e).1.2 ->
  (c, v) ∈ found \/ accept v = true /\ c ∈ flight ++ cands.
Proof.
  unfold vloop. revert cands flight probes found e.
  induction budget as [|budget IH]; intros cands flight probes found e Hin; [by left|].
  cbn [values_loop] in Hin. mstep in Hin. cbv zeta in Hin.
  set (k := ALPHA - length flight) in *. set (e1 := (for_each _ _ e).2) in *.
  destruct (take_next_spec pick (flight ++ take k cands) e1) as [_ Hnext].
  destruct (take_next pick (flight ++ take k cands) e1).1 as [[source still]|]; mstep in Hin; [|by left].
  destruct Hnext as (a & b & [Hall _]%flight_taken & ->).
  assert (source ∈ flight ++ cands) as Hs by (apply Hall; by left).
  assert (forall x, x ∈ (a ++ b) ++ drop k cands -> x ∈ flight ++ cands) as Hrest by (intros x Hx; apply Hall; by right).
  destruct (find_value rpc source key _).1 as [value|contacts].
  - destruct (accept value) eqn:Ha.
    + destruct stop; mstep in Hin.
      * apply elem_of_app in Hin as [?|Hin%list_elem_of_singleton]; [by left|].
        injection Hin as -> ->. auto.
      * apply IH in Hin as [[?|Hin%list_elem_of_singleton]%elem_of_app|[? Hin]]; [by left| |].
        -- injection Hin as -> ->. auto.
        -- right. split; [done|]. by apply Hrest.
    + apply IH in Hin as [?|[? Hin]]; [by left|right]. split; [done|]. by apply Hrest.
  - mstep in Hin. apply IH in Hin as [?|[? Hin]]; [by left|right]. split; [done|]. by apply Hrest.
Qed.

(** Unless told to stop, every candidate is asked: a bad reply costs one probe. *)
Lemma values_loop_all budget cands flight probes found (e : Env A W) :
  stop = false -> length cands + length flight <= budget ->
  (vloop budget cands flight probes found e).1.1 = probes + length cands.
Proof.
  intros Hstop. unfold vloop. rewrite Hstop. revert cands flight probes found e.
  induction budget as [|budget IH]; intros cands flight probes found e Hb.
  { destruct cands; simpl in *; lia. }
  cbn [values_loop]. mstep. cbv zeta.
  set (k := ALPHA - length flight). set (e1 := (for_each _ _ e).2).
  destruct (take_next_spec pick (flight ++ take k cands) e1) as [_ Hnext].
  destruct (take_next pick (flight ++ take k cands) e1).1 as [[source still]|]; mstep.
  - destruct Hnext as (a & b & [_ Hlen]%flight_taken & ->).
    assert (probes + length (take k cands) + length (drop k cands) = probes + length cands) as Hp
      by (rewrite <- (take_drop k cands) at 3; rewrite length_app; lia).
    destruct (find_value rpc source key _).1 as [value|contacts].
    + destruct (accept value); (rewrite IH; [done|lia]).
    + mstep. rewrite IH; [done|lia].
  - apply app_eq_nil in Hnext as [-> Ht]. subst k. simpl in *.
    destruct cands; [done|]. by unfold ALPHA in Ht.
Qed.

(** What the search does between two calls. *)
Inductive aside (e : Env A W) : Env A W -> Prop :=
  | aside_log line : aside e (info line e).2
  | aside_offer c : aside e (offer_contact c e).2.

(** [find_value] was called on these nodes, one after the other as their answers
    were taken, and they answered so. *)
Inductive asks : list (Contact * FindValueReply) -> Env A W -> Env A W -> Prop :=
  | asks_done e : asks [] e e
  | asks_aside calls e e1 e' : aside e e1 -> asks calls e1 e' -> asks calls e e'
  | asks_call source calls e e' :
      asks calls (find_value rpc source key e).2 e' ->
      asks ((source, (find_value rpc source key e).1) :: calls) e e'.

(** The answers that are kept. *)
Definition kept_answers (calls : list (Contact * FindValueReply)) : list (Contact * Value) :=
  omap (fun call => match call.2 with
    | FoundValue v => if accept v then Some (call.1, v) else None
    | Closest _ => None
    end) calls.

Lemma asks_asides {X} (f : X -> M (Env A W) unit) l calls e e' :
  (forall x e1, aside e1 (f x e1).2) -> asks calls (for_each l f e).2 e' -> asks calls e e'.
Proof.
  intros Hf. revert e. induction l as [|x l IH]; intros e Ha; [done|].
  cbn [for_each] in Ha. mstep in Ha. eapply asks_aside; [apply Hf|by apply IH].
Qed.

(** Unless told to stop, the loop asks every candidate once, and keeps all that
    pass. *)
Lemma values_loop_asks budget cands flight probes found (e : Env A W) :
  stop = false -> length cands + length flight <= budget ->
  exists calls, asks calls e (vloop budget cands flight probes found e).2 /\
    Permutation calls.*1 (flight ++ cands) /\
    (vloop budget cands flight probes found e).1.2 = found ++ kept_answers calls.
Proof.
  intros Hstop. unfold vloop. rewrite Hstop. revert cands flight probes found e.
  induction budget as [|budget IH]; intros cands flight probes found e Hb.
  { destruct cands, flight; simpl in Hb; try lia. exists []. split; [constructor|]. split; [done|].
    cbn. by rewrite app_nil_r. }
  cbn [values_loop]. mstep. cbv zeta.
  set (k := ALPHA - length flight). set (e1 := (for_each _ _ e).2).
  assert (forall calls e', asks calls e1 e' -> asks calls e e') as Hlog
    by (intros calls e'; apply asks_asides; intros x e2; apply aside_log).
  clearbody e1. destruct (take_next_spec pick (flight ++ take k cands) e1) as [He1 Hnext].
  destruct (take_next pick (flight ++ take k cands) e1) as [next e1']. cbn [fst snd] in *. subst e1'.
  destruct next as [[source still]|]; mstep.
  - destruct Hnext as (a & b & Hf & ->). pose proof (flight_taken _ _ _ _ _ _ Hf) as [_ Hlen].
    assert (Permutation (flight ++ cands) (source :: (a ++ b) ++ drop k cands)) as Hperm.
    { assert (flight ++ cands = (a ++ source :: b) ++ drop k cands) as -> by (by rewrite <- Hf, <- app_assoc, take_drop).
      by rewrite <- Permutation_middle. }
    assert (length (drop k cands) + length (a ++ b) <= budget) as Hb' by lia.
    set (r := find_value rpc source key e1).
    assert (forall out kept calls e3, (forall e', asks calls e3 e' -> asks calls r.2 e') ->
      kept = kept_answers [(source, r.1)] ->
      asks calls e3 (out : nat * list (Contact * Value) * Env A W).2 /\ Permutation calls.*1 ((a ++ b) ++ drop k cands) /\
      out.1.2 = (found ++ kept) ++ kept_answers calls ->
      exists calls, asks calls e out.2 /\ Permutation calls.*1 (flight ++ cands) /\ out.1.2 = found ++ kept_answers calls)
      as Hdone.
    { intros out kept calls e3 Hlocal -> (Ha & Hc & Hk). exists ((source, r.1) :: calls).
      split; [apply Hlog, asks_call, Hlocal, Ha|]. split; [rewrite Hperm; cbn; by rewrite Hc|].
      rewrite Hk, <- app_assoc. f_equal. unfold kept_answers. change ((source, r.1) :: calls) with ([(source, r.1)] ++ calls).
      by rewrite omap_app. }
    destruct r.1 as [value|contacts] eqn:Hr.
    + destruct (accept value) eqn:Ha.
      * edestruct (IH (drop k cands) (a ++ b)) as (calls & Hcalls); [exact Hb'|].
        eapply (Hdone _ [(source, value)] calls r.2); [done| |exact Hcalls]. cbn. by rewrite Ha.
      * edestruct (IH (drop k cands) (a ++ b)) as (calls & Hcalls); [exact Hb'|].
        eapply (Hdone _ [] calls r.2); [done| |rewrite app_nil_r; exact Hcalls]. cbn. by rewrite Ha.
    + mstep. edestruct (IH (drop k cands) (a ++ b)) as (calls & Hcalls); [exact Hb'|].
      eapply (Hdone _ [] calls); [|done|rewrite app_nil_r; exact Hcalls].
      intros e'. apply asks_asides. intros x e3. apply aside_offer.
  - apply app_eq_nil in Hnext as [-> Ht]. subst k. simpl in *.
    destruct cands; [|by unfold ALPHA in Ht]. exists []. split; [apply Hlog; constructor|].
    split; [done|]. cbn. by rewrite app_nil_r.
Qed.

(** The budget is never what ends the loop. *)
Lemma values_loop_budget budget n cands flight probes found (e : Env A W) :
  length cands + length flight <= budget ->
  vloop (budget + n) cands flight probes found e = vloop budget cands flight probes found e.
Proof.
  unfold vloop. revert cands flight probes found e.
  induction budget as [|budget IH]; intros cands flight probes found e Hb.
  { destruct cands; [|simpl in Hb; lia]. destruct flight; [|simpl in Hb; lia].
    destruct n as [|n]; [done|]. cbn [Nat.add values_loop]. mstep. cbv zeta.
    rewrite take_nil. cbn. by rewrite Nat.add_0_r. }
  cbn [Nat.add values_loop]. mstep. cbv zeta.
  set (k := ALPHA - length flight). set (e1 := (for_each _ _ e).2).
  destruct (take_next_spec pick (flight ++ take k cands) e1) as [_ Hnext].
  destruct (take_next pick (flight ++ take k cands) e1).1 as [[source still]|]; mstep; [|done].
  destruct Hnext as (a & b & [_ Hlen]%flight_taken & ->).
  assert (length (drop k cands) + length (a ++ b) <= budget) by lia.
  destruct (find_value rpc source key _).1 as [value|contacts]; mstep; [|by rewrite IH].
  by destruct (accept value), stop; rewrite ?IH.
Qed.

(** Stopping at the first keeps at most one. *)
Lemma values_loop_first budget cands flight probes (e : Env A W) :
  stop = true -> length (vloop budget cands flight probes [] e).1.2 <= 1.
Proof.
  intros Hstop. unfold vloop. rewrite Hstop. revert cands flight probes e.
  induction budget as [|budget IH]; intros cands flight probes e; [simpl; lia|].
  cbn [values_loop]. mstep. cbv zeta.
  destruct (take_next pick _ _).1 as [[source still]|]; mstep; [|simpl; lia].
  destruct (find_value rpc source key _).1 as [value|contacts]; mstep; [|apply IH].
  destruct (accept value); [simpl; lia|apply IH].
Qed.
End value_lookup.

Section value_result.
Context `{Sha256} `{Ed25519} `{Codec} `{Hex} {A W : Type} `{CloseNodes A} `{Clock W}.
Context (pick : W -> nat) (rpc : Rpc A W).

Lemma with_us_length key l : length (with_us rpc key l) <= K.
Proof. apply closest_length. Qed.

(** A value lookup is a node lookup and its probe loop, over at most [K]
    candidates; around them it only writes to the log. *)
Lemma lookup_values_parts key accept stop (e : Env A W) :
  exists lookup_id e1, table e1 = table e /\ world e1 = world e /\
    forall near out, near = lookup_node pick rpc key e1 ->
      (let cands := with_us rpc key near.1 in
       out = values_loop pick rpc key accept stop lookup_id (length cands) cands [] 0 [] near.2) ->
      (lookup_values pick rpc key accept stop e).1 = out.1.2 /\
      table (lookup_values pick rpc key accept stop e).2 = table out.2 /\
      world (lookup_values pick rpc key accept stop e).2 = world out.2.
Proof.
  exists (next_lookup_id e).1, (lookup_start (next_lookup_id e).1 "value" (id (my_contact rpc)) key (next_lookup_id e).2).2.
  split; [done|]. split; [done|]. intros near out Hnear Hout. unfold lookup_values.
  cbv zeta in *. do 3 rewrite bind_eq. rewrite <- Hnear, bind_eq, <- Hout. by destruct out as [[probes found] e2].
Qed.

Lemma lookup_values_eq key accept stop (e : Env A W) :
  exists cands lookup_id e1, length cands <= K /\
    (lookup_values pick rpc key accept stop e).1 =
    (values_loop pick rpc key accept stop lookup_id (length cands) cands [] 0 [] e1).1.2.
Proof.
  destruct (lookup_values_parts key accept stop e) as (i & e1 & _ & _ & Hparts).
  destruct (Hparts _ _ eq_refl eq_refl) as [-> _]. eexists _, _, _. split; [apply with_us_length|reflexivity].
Qed.

Lemma lookup_values_accepted key accept stop (e : Env A W) c v :
  (c, v) ∈ (lookup_values pick rpc key accept stop e).1 -> accept v = true.
Proof.
  destruct (lookup_values_eq key accept stop e) as (cands & i & e1 & _ & ->). intros Hin.
  apply values_loop_sound in Hin as [?|[? _]]; [set_solver|done].
Qed.

(** The bytes of a value lookup hash to the key that was asked for. *)
Lemma lookup_value_hash key (e : Env A W) source bs :
  (lookup_value pick rpc key e).1 = Some (source, bs) -> key_for_value bs = key.
Proof.
  unfold lookup_value. mstep.
  pose proof (lookup_values_accepted key (accept_blob key) true e) as Ha.
  destruct (lookup_values pick rpc key (accept_blob key) true e).1 as [|[c [b|p]] found]; cbn; try done.
  intros [= <- <-]. specialize (Ha c (Blob b) ltac:(by left)). cbn in Ha. by brefl.
Qed.

Lemma older_pointer_total x y : older_pointer x y = false -> older_pointer y x = true.
Proof. unfold older_pointer. rewrite version_le_false, version_lt_val, version_le_val. lia. Qed.

Lemma older_pointer_trans x y z :
  older_pointer x y = true -> older_pointer y z = true -> older_pointer x z = true.
Proof. unfold older_pointer. rewrite !version_le_val. lia. Qed.

Lemma elem_of_pointers p found : p ∈ pointers found <-> exists c, (c, Latest p) ∈ found.
Proof.
  unfold pointers. rewrite list_elem_of_omap. split.
  - intros ([c [b|q]] & Hin & Hq); simpl in Hq; [done|]. injection Hq as ->. eauto.
  - intros [c Hin]. by exists (c, Latest p).
Qed.

(** [lookup_value] and [get_latest] read off a value lookup. *)
Lemma lookup_value_eq key (e : Env A W) :
  exists r, r = lookup_values pick rpc key (accept_blob key) true e /\
    lookup_value pick rpc key e =
    (match r.1 with (source, Blob bytes) :: _ => Some (source, bytes) | _ => None end, r.2).
Proof. eexists. split; [reflexivity|]. unfold lookup_value. rewrite bind_eq. apply ret_eq. Qed.

Lemma get_latest_eq dns domain package (e : Env A W) owner :
  (dns domain e).1 = Some owner ->
  exists r, r = lookup_values pick rpc (latest_key domain package) (accept_latest owner domain package) false (dns domain e).2 /\
    get_latest pick rpc dns domain package e = (max_by older_pointer (pointers r.1), r.2).
Proof.
  intros Hd. eexists. split; [reflexivity|]. unfold get_latest. rewrite bind_eq, Hd, bind_eq. apply ret_eq.
Qed.

(** A value lookup that does not stop early asks each of the nodes the key
    belongs on once, and returns every answer that passes. *)
Lemma lookup_values_asked key accept (e : Env A W) :
  exists e1 calls e2, table e1 = table e /\ world e1 = world e /\
    let near := lookup_node pick rpc key e1 in
    asks rpc key calls near.2 e2 /\ Permutation calls.*1 (with_us rpc key near.1) /\
    (lookup_values pick rpc key accept false e).1 = kept_answers accept calls /\
    table (lookup_values pick rpc key accept false e).2 = table e2 /\
    world (lookup_values pick rpc key accept false e).2 = world e2.
Proof.
  destruct (lookup_values_parts key accept false e) as (i & e1 & Ht & Hw & Hparts).
  destruct (Hparts _ _ eq_refl eq_refl) as (Hr & Ht2 & Hw2).
  set (near := lookup_node pick rpc key e1) in *. set (cands := with_us rpc key near.1) in *.
  destruct (values_loop_asks pick rpc key accept false i (length cands) cands [] 0 [] near.2)
    as (calls & Ha & Hp & Hk); [done|simpl; lia|].
  eexists e1, calls, _. split; [done|]. split; [done|]. split; [exact Ha|]. split; [exact Hp|].
  split; [rewrite Hr; exact Hk|]. split; [exact Ht2|exact Hw2].
Qed.

Lemma elem_of_kept accept calls c v :
  (c, v) ∈ kept_answers accept calls <-> (c, FoundValue v) ∈ calls /\ accept v = true.
Proof.
  unfold kept_answers. rewrite list_elem_of_omap. split.
  - intros ([c' [v'|l]] & Hin & Hv); simpl in Hv; [|done]. destruct (accept v') eqn:Ha; [|done].
    injection Hv as -> ->. done.
  - intros [Hin Ha]. exists (c, FoundValue v). simpl. by rewrite Ha.
Qed.

Lemma store_on_bound key value proof targets n (e : Env A W) :
  (store_on rpc key value proof targets n e).1 <= n + length targets.
Proof.
  revert n e. induction targets as [|t targets IH]; intros n e; cbn [store_on]; [simpl; lia|].
  mstep. etransitivity; [apply IH|]. destruct (store_with_proof _ _ _ _ _ e).1; simpl; lia.
Qed.

(** A store is a node lookup and its rounds of calls. *)
Lemma store_value_parts value proof (e : Env A W) :
  exists near out, near = lookup_node pick rpc (value_key value) e /\
    out = store_on rpc (value_key value) value proof (with_us rpc (value_key value) near.1) 0 near.2 /\
    store_value_with_proof pick rpc value proof e = ((value_key value, out.1), out.2).
Proof.
  eexists _, _. split; [reflexivity|]. split; [reflexivity|].
  unfold store_value_with_proof. cbv zeta. rewrite bind_eq, bind_eq. apply ret_eq.
Qed.

Lemma store_value_snd value (e : Env A W) :
  (store_value pick rpc value e).2 = (store_value_with_proof pick rpc value [] e).2.
Proof.
  unfold store_value. rewrite bind_eq, ret_eq. generalize (store_value_with_proof pick rpc value [] e). by intros [].
Qed.

Lemma store_value_bound value proof (e : Env A W) :
  (store_value_with_proof pick rpc value proof e).1.1 = value_key value /\
  (store_value_with_proof pick rpc value proof e).1.2 <= K.
Proof.
  unfold store_value_with_proof. mstep. cbv zeta. cbn [fst snd]. split; [done|].
  etransitivity; [apply store_on_bound|]. apply with_us_length.
Qed.
End value_result.
