(* ===== verification/Converge.v ===== *)
(** * Converge: a lookup ends at the nearest node

    The liveness of [lookup_node] ([src/lookup.rs]): the loop keeps asking until
    everybody it keeps has answered, so if every node asked names somebody nearer
    unless nobody is, the first contact of the result is the nearest node there
    is.  The second half puts the server of [src/handle_rpc.rs] and the deployed
    routing table ([Progress]) at the other end of the calls. *)

From S2P Require Import Prelude Slices Machine Contacts StaticBucket SiblingList Cache Progress.
From S2P Require Import Crates Text Package Wire Stream HandleRpc Rpc Lookup.

#[local] Opaque K.

Section converge.
Context `{Codec} `{Hex} {A W : Type} `{CloseNodes A} `{Clock W}.
Context (pick : W -> nat) (rpc : Rpc A W) (target : NodeId).
Context (nodes : gset NodeId) (home_of : NodeId -> SocketAddr) (J : Env A W -> Prop).

Abbreviation guest := (me rpc).
Abbreviation helpful := (helpful nodes guest home_of).

(** A node of the network, at its true address. *)
Definition member (c : Contact) : Prop := id c ∈ nodes /\ address c = home_of (id c).

(** Every node answers helpfully, and the world stays one in which it does. *)
Definition answering : Prop :=
  forall c e, J e -> member c ->
    J (find_node rpc c target e).2 /\ helpful target (id c) (find_node rpc c target e).1.

(** What a lookup does itself leaves it so: logging, learning a member, asking
    our own table. *)
Record undisturbed : Prop := {
  un_log e e' : J e -> table e' = table e -> world e' = world e -> J e';
  un_offer c e : J e -> member c -> J (offer_contact c e).2;
  un_query e : J e -> J (query_table target e).2
}.

Context (guest_out : guest ∉ nodes) (answers : answering) (calm : undisturbed).

(** Nobody is nearer than [i], or [l] names somebody nearer. *)
Definition beaten (i : NodeId) (l : list Contact) : Prop :=
  (forall j, j ∈ nodes -> ~ nearer target j i) \/ improves nodes target i l.

Lemma beaten_app i l l' : beaten i l -> beaten i (l ++ l').
Proof. intros [?|(c & Hc & ?)]; [by left|right]. exists c. split; [set_solver|done]. Qed.

(** Whom we keep is a member; whoever was asked is still to answer, or beaten. *)
Record asking (base : list Contact) (s : Lookup) (e : Env A W) : Prop := {
  as_world : J e;
  as_members c : c ∈ base ++ heard s ++ in_flight s -> member c;
  as_answered i : i ∈ queried s -> (exists c, c ∈ in_flight s /\ id c = i) \/ beaten i (heard s)
}.

(** Everyone we kept is a member, and everyone we asked is beaten. *)
Definition all_beaten (base : list Contact) (s : Lookup) : Prop :=
  (forall c, c ∈ base ++ heard s -> member c) /\ forall i, i ∈ queried s -> beaten i (heard s).

Lemma asking_top_up lookup_id base s (e : Env A W) :
  linv target base s -> asking base s e ->
  let r := top_up rpc lookup_id (ALPHA - length (in_flight s)) s e in asking base r.1 r.2.
Proof using All.
  intros Hi [Hw Hm Ha] r.
  destruct (top_up_spec rpc lookup_id (ALPHA - length (in_flight s)) s e) as (Htu & Htable & Hworld).
  fold r in Htu, Htable, Hworld. pose proof (candidates_known _ _ _ Hi) as Hk.
  destruct Htu as [_ Hh (st & Hf & Hq & _ & _ & _ & Hsub & _)]. split; rewrite ?Hh, ?Hf; [by apply (un_log calm e)|..].
  - intros c Hc. assert (c ∈ base ++ heard s ++ in_flight s \/ c ∈ st) as [?|Hst] by set_solver; [by apply Hm|].
    apply Hm. apply Hsub, Hk in Hst. set_solver.
  - intros i. rewrite Hq. intros [(c & Hc & <-)%elem_of_ids|Hi']%elem_of_union.
    + left. exists c. set_solver.
    + destruct (Ha i Hi') as [(c & Hc & <-)|?]; [left|by right]. exists c. set_solver.
Qed.

Lemma offers_keep l (e : Env A W) : J e -> (forall c, c ∈ l -> member c) -> J (for_each l offer_contact e).2.
Proof using calm.
  revert e. induction l as [|c l IH]; intros e He Hl; [done|]. cbn [for_each]. mstep.
  apply IH; [apply (un_offer calm); [done|apply Hl; by left]|intros x Hx; apply Hl; by right].
Qed.

Lemma not_me_improves p l : improves nodes target p l -> improves nodes target p (not_me rpc l).
Proof using guest_out.
  intros (c & Hc & Hn & Hp). exists c. split_and!; [|done|done].
  apply list_elem_of_filter. split; [|done]. intros E. by rewrite E in Hn.
Qed.

(** A round keeps it so; when it breaks, everyone asked is beaten. *)
Lemma asking_round lookup_id base s (e : Env A W) :
  linv target base s -> asking base s e ->
  let r := lookup_round pick rpc target lookup_id s e in
  match r.1 with
  | inl s' => asking base s' r.2
  | inr s' => all_beaten base s' /\ J r.2
  end.
Proof using All.
  intros Hi Has. pose proof (asking_top_up lookup_id base s e Hi Has) as Htop. cbv zeta in Htop |- *.
  unfold lookup_round. mstep. set (r1 := top_up _ _ _ _ e) in *.
  destruct (take_next_spec pick (in_flight r1.1) r1.2) as [He2 Hnext]. destruct Htop as [Hw Hm Ha].
  destruct (take_next pick (in_flight r1.1) r1.2) as [[[peer still]|] e2]; cbn [fst snd] in *; subst e2; mstep.
  2: { split; [|done]. split; [intros c Hc; apply Hm; set_solver|]. intros i Hq. destruct (Ha i Hq) as [(c & Hc & _)|?]; [|done]. rewrite Hnext in Hc. set_solver. }
  destruct Hnext as (a & b & Hf & ->). rewrite Hf in *.
  destruct (answers peer r1.2 Hw) as (Hw' & Hbel & Hbeat); [apply Hm; set_solver|].
  set (r2 := find_node rpc peer target r1.2) in *. cbn [fst snd].
  assert (forall c, c ∈ not_me rpc r2.1 -> member c) as Hnew.
  { intros c [Hne Hin]%list_elem_of_filter. destruct (Hbel c Hin) as [[?|?]%elem_of_everyone ?]; done. }
  split; cbn [heard in_flight queried].
  - by apply offers_keep.
  - intros c Hc.
    assert (c ∈ base ++ heard r1.1 ++ a ++ peer :: b \/ c ∈ not_me rpc r2.1) as [?|Hin] by set_solver; [by apply Hm|].
    by apply Hnew.
  - intros i Hq. destruct (Ha i Hq) as [(c & Hc & <-)|?]; [|right; by apply beaten_app].
    assert (c = peer \/ c ∈ a ++ b) as [->|?] by set_solver; [right|left; eauto].
    destruct Hbeat as [?|Himp]; [by left|right]. apply not_me_improves in Himp as (x & Hx & ?).
    exists x. split; [set_solver|done].
Qed.

(** Where everyone kept is beaten, the first is the nearest of all. *)
Lemma beaten_nearest base s :
  settled target base s -> base <> [] -> all_beaten base s ->
  exists best rest, candidates s = best :: rest /\ member best /\
    forall j, j ∈ nodes -> j = id best \/ nearer target (id best) j.
Proof.
  intros Hs Hne [Hm Hb]. pose proof (settled_closest _ _ _ Hs) as Hc.
  assert (StronglySorted (near_lt target) (candidates s)) as Hsort
    by (rewrite Hc; apply closest_sorted; [apply _|apply same_id_spec]).
  destruct (candidates s) as [|best rest] eqn:E.
  { exfalso. destruct base as [|c base]; [done|].
    destruct (closest_to_selection target ((c :: base) ++ heard s) c) as [(y & Hy & _)|[Hl _]]; [set_solver|..].
    - rewrite <- Hc in Hy. set_solver.
    - rewrite <- Hc in Hl. pose proof K_two. simpl in Hl. lia. }
  assert (best ∈ candidates s) as Hin by (rewrite E; by left).
  exists best, rest. split; [done|]. split.
  { apply Hm. rewrite E, Hc in Hin. by eapply closest_elem_of in Hin; [|apply _|apply same_id_spec]. }
  destruct (Hb (id best)) as [Hno|(c & Hch & Hcn & Hlt)]; [by apply (se_queried _ _ _ Hs)|..].
  - intros j Hj. destruct (nearer_total target j (id best)) as [?|[?|?]]; [by left|by destruct (Hno j)|by right].
  - exfalso. apply StronglySorted_inv in Hsort as [_ Hfirst]. rewrite Forall_forall in Hfirst.
    assert (forall y, y ∈ closest_to target K (base ++ heard s) -> near_le target best y) as Hbest.
    { intros y. rewrite <- Hc. intros [->|Hy]%elem_of_cons; [reflexivity|by apply clt_cle, Hfirst]. }
    destruct (closest_to_selection target (base ++ heard s) c) as [(y & Hy & Hid)|[_ Hall]]; [set_solver|..].
    + specialize (Hbest y Hy). rewrite near_le_val, Hid in Hbest. rewrite nearer_val in Hlt. lia.
    + assert (near_le target best c) as Hle by (apply Hall; rewrite <- Hc; by left).
      rewrite near_le_val in Hle. rewrite nearer_val in Hlt. lia.
Qed.

Lemma lookup_run_from (e : Env A W) :
  let known := (close_nodes (clock (world e)) target (table e)).1 in
  exists lookup_id e1, table e1 = table e /\ world e1 = world e /\
    let out := lookup_loop pick rpc target lookup_id (lookup_begin (take K (sort_by_distance target known)))
      (query_table target e1).2 in
    (lookup_run pick rpc target e).1.2 = out.1 /\ (lookup_run pick rpc target e).2 = out.2.
Proof.
  cbv zeta. unfold lookup_run. rewrite !bind_eq, ret_eq.
  set (e1 := (lookup_start _ _ _ _ _).2).
  exists (next_lookup_id e).1, e1. split; [done|]. split; [done|].
  change (query_table target e1).1 with (close_nodes (clock (world e)) target (table e)).1.
  generalize (lookup_loop pick rpc target (next_lookup_id e).1
    (lookup_begin (take K (sort_by_distance target (close_nodes (clock (world e)) target (table e)).1)))
    (query_table target e1).2). by intros r.
Qed.

Lemma lookup_node_run (e : Env A W) s :
  (lookup_run pick rpc target e).1.2 = inr s ->
  (lookup_node pick rpc target e).1 = candidates s /\
  table (lookup_node pick rpc target e).2 = table (lookup_run pick rpc target e).2 /\
  world (lookup_node pick rpc target e).2 = world (lookup_run pick rpc target e).2.
Proof.
  unfold lookup_node. rewrite bind_eq. generalize (lookup_run pick rpc target e). intros r Hr.
  cbv zeta. by rewrite Hr.
Qed.

(** The lookup finds the nearest node of the network. *)
Lemma lookup_node_nearest (e : Env A W) :
  J e ->
  let known := (close_nodes (clock (world e)) target (table e)).1 in
  known <> [] -> (forall c, c ∈ known -> member c) ->
  J (lookup_node pick rpc target e).2 /\
  (forall c, c ∈ (lookup_node pick rpc target e).1 -> member c) /\
  exists best rest, (lookup_node pick rpc target e).1 = best :: rest /\ member best /\
    forall j, j ∈ nodes -> j = id best \/ nearer target (id best) j.
Proof using All.
  intros HJ known Hne Hm. set (base := take K (sort_by_distance target known)).
  assert (base ⊆ known) as Hsub.
  { intros c (i & Hi & _)%elem_of_take. apply (elem_of_sort_by (by_distance target)).
    by eapply list_elem_of_lookup_2. }
  assert (base <> []) as Hbase.
  { intros Hb%(f_equal length). unfold base, sort_by_distance in Hb.
    rewrite length_take, sort_by_length in Hb. pose proof K_two. destruct known; [done|]. simpl in Hb. lia. }
  assert (exists s, (lookup_run pick rpc target e).1.2 = inr s /\ settled target base s /\ all_beaten base s /\
    J (lookup_run pick rpc target e).2) as (s & Hrun & Hset & Hbeat & HJ').
  { destruct (lookup_run_from e) as (lookup_id & e1 & Ht1 & Hw1 & -> & ->). fold known base.
    apply (lookup_loop_settles_with pick rpc target lookup_id (asking base) (fun s e => all_beaten base s /\ J e)).
    - intros x e' Hx Hq. apply (asking_round _ base x e' Hx Hq).
    - apply linv_begin.
    - split; cbn [lookup_begin heard in_flight queried]; [by apply (un_query calm), (un_log calm e)|..|set_solver].
      intros c Hc. apply Hm, Hsub. set_solver. }
  destruct (beaten_nearest base s Hset Hbase Hbeat) as (best & rest & Hc & Hbest).
  destruct (lookup_node_run e s Hrun) as (Hout & Htable & Hworld). rewrite Hout.
  split; [by eapply (un_log calm)|]. split; [|exists best, rest; exact (conj Hc Hbest)].
  intros x Hx. apply Hbeat. rewrite (settled_closest _ _ _ Hset) in Hx.
  by eapply closest_elem_of in Hx; [|apply _|apply same_id_spec].
Qed.
End converge.

(** ** A network of the program's own nodes *)

Section swarm.
Context `{Sha256} `{Ed25519} `{CodecLaws} `{Hex} {A W D : Type} `{CloseNodes A} `{Clock W} `{!DnsData D}.
Context (peers : W -> gmap SocketAddr (Context RecommendedCloseNodes D)).
Context (rpc : Rpc A W) (target : NodeId) (nodes : gset NodeId) (home_of : NodeId -> SocketAddr).

(** The datagram transport brings a request to the node at its address, whenever
    that is, and brings back its reply. *)
Definition delivers : Prop :=
  forall payload a e c, peers (world e) !! a = Some c ->
    exists now draw,
      let r := dispatch now (MkRequest (request_id draw) (address (my_contact rpc)) true payload) c in
      (forall framed, r.1 = Some framed ->
         (transport rpc payload a e).1 = read_reply (request_id draw) framed) /\
      peers (world (transport rpc payload a e).2) = <[a := r.2]> (peers (world e)).

(** Every node is at its address and knows its part of the network. *)
Definition swarm_ok (w : W) : Prop :=
  forall j, j ∈ nodes -> exists c, peers w !! home_of j = Some c /\
    informed_for nodes (me rpc) home_of target j (ctx_nodes c).

Context (target_total : is_Some (serialize target)).
Context (contacts_total : forall l : list Contact, is_Some (serialize l)).
Context (home_inj : forall i j, i ∈ nodes -> j ∈ nodes -> home_of i = home_of j -> i = j).
Context (home_me : address (my_contact rpc) = home_of (me rpc)).
Context (homes_plain : forall j, j ∈ everyone nodes (me rpc) -> plain (home_of j)).
Context (few : uncrowded nodes (me rpc) target) (delivery : delivers).

(** What one node does with a FIND_NODE request. *)
Lemma serve_find_node now draw q j c :
  serialize target = Some q -> j ∈ nodes ->
  informed_for nodes (me rpc) home_of target j (ctx_nodes c) ->
  let r := dispatch now (MkRequest (request_id draw) (address (my_contact rpc)) true
             (rpc_request (me rpc) FindNode q)) c in
  informed_for nodes (me rpc) home_of target j (ctx_nodes r.2) /\
  exists framed reply l, r.1 = Some framed /\ read_reply (request_id draw) framed = Ok reply /\
    find_node_decode_reply reply = Some l /\ helpful nodes (me rpc) home_of target j l.
Proof using H2 contacts_total few home_me homes_plain.
  intros Hq Hj Hc r.
  pose proof (served_handle now (address (my_contact rpc)) true draw (me rpc) FindNode q c) as Hs.
  unfold served in Hs. rewrite bind_eq, ret_eq in Hs. fold r in Hs. cbn [handle] in Hs.
  unfold find_node_handle in Hs. rewrite (deserialize_serialize _ _ Hq), bind_eq, ret_eq in Hs.
  set (c1 := after_learning (address (my_contact rpc)) true (me rpc) c) in Hs.
  assert (informed_for nodes (me rpc) home_of target j (ctx_nodes c1)) as Hc1.
  { apply informed_for_add; [|done]. split; [apply elem_of_everyone; by left|done]. }
  destruct (informed_for_query nodes (me rpc) home_of now target target j (ctx_nodes c1) few Hj Hc1) as [Hc2 Hh].
  specialize (Hh eq_refl).
  destruct (contacts_total (close_nodes now target (ctx_nodes c1)).1) as [reply Hr].
  pose proof (f_equal fst Hs : _ = serialize (close_nodes now target (ctx_nodes c1)).1) as Hout.
  pose proof (f_equal snd Hs : r.2 = MkContext _ (close_nodes now target (ctx_nodes c1)).2 _ _) as Hstate.
  split; [rewrite Hstate; exact Hc2|].
  rewrite Hr in Hout. destruct r.1 as [framed|] eqn:Hf; [|done]. cbn in Hout.
  destruct (read_reply (request_id draw) framed) as [b|] eqn:Hrd; [|done].
  injection Hout as ->. exists framed, reply, (close_nodes now target (ctx_nodes c1)).1.
  split_and!; [done|done| |exact Hh]. unfold find_node_decode_reply. rewrite (laws_contacts _ _ Hr).
  f_equal. apply serde_contacts_plain. intros x Hx. destruct (proj1 Hh x Hx) as [Hin ->]. by apply homes_plain.
Qed.

(** The nodes of such a network answer a lookup for [target] helpfully. *)
Lemma swarm_answers : answering rpc target nodes home_of (fun e => swarm_ok (world e)).
Proof using All.
  intros c e He [Hn Ha]. destruct (He (id c) Hn) as (ctx & Hctx & Hi).
  destruct target_total as [q Hq]. unfold find_node, find_node_encode_request. rewrite Hq.
  unfold call. mstep. rewrite Ha.
  destruct (delivery (rpc_request (me rpc) FindNode q) (home_of (id c)) e ctx Hctx) as (now & draw & Hreply & Hw).
  destruct (serve_find_node now draw q (id c) ctx Hq Hn Hi) as (Hi' & framed & reply & l & Hf & Hrd & Hdec & Hh).
  specialize (Hreply framed Hf). rewrite Hrd in Hreply.
  change (id (my_contact rpc)) with (me rpc). rewrite Hreply. mstep. cbn [fst snd].
  rewrite Hdec. split; [|exact Hh]. intros j Hj. mstep. cbn [fst snd]. rewrite Hw.
  destruct (decide (id c = j)) as [<-|Hne].
  - rewrite lookup_insert_eq. eexists. split; [done|exact Hi'].
  - rewrite lookup_insert_ne by (intros E; apply Hne, home_inj; done). by apply He.
Qed.

(** Our own table is no part of that network. *)
Lemma swarm_undisturbed : undisturbed target nodes home_of (fun e : Env A W => swarm_ok (world e)).
Proof. split; [|done..]. by intros e e' He _ ->. Qed.
End swarm.
