(* ===== verification/Society.v ===== *)
(** * Society: a network of the program's own nodes

    Every node of the population runs the program: its server
    ([src/handle_rpc.rs]) over the deployed routing table, and its client
    ([src/rpc.rs]) over the same table.  While one of them makes its calls, the
    others go on serving each other, as long as what they serve is polite: senders
    give their own ids and addresses, and what is stored is [permitted].  The
    lemmas say what a call, a lookup and a search for a value come to in such a
    network. *)

From S2P Require Import Prelude Slices Machine Contacts StaticBucket SiblingList Cache Progress.
From S2P Require Import Crates Text Package Wire Stream HandleRpc Rpc Lookup Converge.

#[local] Opaque K.

Definition set_table {A D} (t : A) (c : Context A D) : Context A D := MkContext (my_id c) t (ctx_values c) (ctx_dns c).
Definition set_dns {A D} (d : D) (c : Context A D) : Context A D := MkContext (my_id c) (ctx_nodes c) (ctx_values c) d.

(** Some id of a set is the nearest to a key. *)
Lemma nearest_exists (key : Key) (ids : gset NodeId) :
  ids <> ∅ -> exists z, z ∈ ids /\ forall j, j ∈ ids -> j = z \/ nearer key z j.
Proof.
  induction ids as [|x X Hx IH] using set_ind_L; [done|]. intros _.
  destruct (decide (X = ∅)) as [->|Hne]; [exists x; split; set_solver|].
  destruct (IH Hne) as (z & Hz & Hmin). destruct (nearer_total key x z) as [->|[Hlt|Hlt]]; [done|..].
  - exists x. split; [set_solver|]. intros j [->%elem_of_singleton|Hj]%elem_of_union; [by left|right].
    destruct (Hmin j Hj) as [->|?]; [done|by transitivity z].
  - exists z. split; [set_solver|]. intros j [->%elem_of_singleton|Hj]%elem_of_union; auto.
Qed.

(** ** The members and what they know *)

Section tables.
Context (population : gset NodeId) (home_of : NodeId -> SocketAddr) (keys : Key -> Prop).

(** The others, from the point of view of one of them. *)
Definition others (g : NodeId) : gset NodeId := population ∖ {[g]}.

Lemma elem_of_others g i : i ∈ others g <-> i ∈ population /\ i <> g.
Proof. unfold others. by rewrite elem_of_difference, elem_of_singleton. Qed.

Lemma elem_of_all g i : g ∈ population -> i ∈ everyone (others g) g <-> i ∈ population.
Proof.
  intros Hg. rewrite elem_of_everyone, elem_of_others. split; [by intros [->|[? _]]|].
  intros Hi. destruct (decide (i = g)); auto.
Qed.

(** A contact of the network, at its true address. *)
Definition resident (c : Contact) : Prop := id c ∈ population /\ address c = home_of (id c).

Lemma resident_belongs g c : g ∈ population -> resident c <-> belongs (others g) g home_of c.
Proof. intros Hg. unfold resident, belongs. by rewrite elem_of_all. Qed.

Lemma resident_member g c : resident c -> id c <> g -> member (others g) home_of c.
Proof. intros [Hc Ha] Hne. split; [by apply elem_of_others|done]. Qed.

Lemma member_resident g c : member (others g) home_of c -> resident c /\ id c <> g.
Proof. by intros [[Hc Hne]%elem_of_others Ha]. Qed.

(** Contacts to start a lookup of the node [j] from. *)
Definition welcoming (j : NodeId) (l : list Contact) : Prop :=
  l <> [] /\ forall c, c ∈ l -> resident c /\ id c <> j.

(** Whoever asks for one of the keys, the node [j] knows its part of the network,
    and it has others to ask itself. *)
Record peer_ok (j : NodeId) (a : RecommendedCloseNodes) : Prop := {
  po_informed key g : keys key -> g ∈ population -> g <> j -> informed_for (others g) g home_of key j a;
  po_cached key e : keys key -> entries a !! key = Some e -> welcoming j (e_contacts e)
}.

Context (few : forall key g, keys key -> g ∈ population -> uncrowded (others g) g key).
Context (company : forall j, j ∈ population -> exists g, g ∈ population /\ g <> j).

Lemma peer_ok_add j c a : resident c -> peer_ok j a -> peer_ok j (maybe_add_contact c a).
Proof.
  intros Hc [Hi He]. split.
  - intros key g Hk Hg Hne. apply informed_for_add; [by apply resident_belongs|by apply Hi].
  - intros key e Hk. cbn [maybe_add_contact Recommended_CloseNodes CachedCloseNodes_CloseNodes].
    unfold cached_maybe_add_contact. destruct (invalidate_on_write _); by apply He.
Qed.

(** What an informed table answers is where a lookup of its owner can start. *)
Lemma informed_welcoming now t g s :
  informed (others g) g home_of s -> g ∈ population -> g <> sl_my_id s ->
  welcoming (sl_my_id s) (close_nodes now t s).1.
Proof using Type.
  intros Hs Hg Hne. cbn [close_nodes SiblingList_CloseNodes]. rewrite sibling_query_eq.
  set (out := (close_nodes now t (sl_fallback s)).1).
  assert (exists c, c ∈ sl_siblings s) as (x & Hx).
  { destruct (if_siblings _ _ _ s Hs g) as [(c & Hc & _)|[Hl _]]; [by apply elem_of_all|done|by exists c|].
    destruct (sl_siblings s) as [|c l]; [done|]. exists c. by left. }
  split.
  - intros E. destruct (closest_to_selection t (out ++ sl_siblings s) x) as [(y & Hy & _)|[Hl _]].
    + apply elem_of_app. by right.
    + rewrite E in Hy. by apply not_elem_of_nil in Hy.
    + rewrite E in Hl. pose proof K_two. simpl in Hl. lia.
  - intros c Hc. eapply closest_elem_of in Hc; [|apply _|apply same_id_spec].
    assert (c ∈ sl_siblings s \/ c ∈ contacts_iter (sl_fallback s)) as Hin.
    { apply elem_of_app in Hc as [Hc|Hc]; [right|by left]. by apply (bucket_out now t _ (sl_fallback_inv s (if_inv _ _ _ s Hs))). }
    split.
    + apply (resident_belongs g); [done|]. apply (if_known _ _ _ s Hs). rewrite sibling_iter. apply elem_of_app. tauto.
    + destruct Hin as [Hin|Hin]; [by apply (sl_not_me s (if_inv _ _ _ s Hs))|].
      apply elem_of_buckets in Hin as (i & Hin). rewrite <- (if_me _ _ _ s Hs).
      by apply (sb_not_me _ (sl_fallback_inv s (if_inv _ _ _ s Hs)) _ _ Hin).
Qed.

Lemma peer_ok_query now u j a :
  j ∈ population -> peer_ok j a ->
  peer_ok j (close_nodes now u a).2 /\ (keys u -> welcoming j (close_nodes now u a).1).
Proof using few company.
  intros Hj [Hi He]. destruct (company j Hj) as (g & Hg & Hgj).
  assert (forall key, keys key -> welcoming j (close_nodes now u (inner a)).1) as Hwel.
  { intros key Hk. destruct (Hi key g Hk Hg Hgj) as [Hin Hme _]. rewrite <- Hme in Hgj |- *. by eapply informed_welcoming. }
  assert (close_nodes now u (inner a) = ((close_nodes now u (inner a)).1, inner a)) as Hq.
  { rewrite <- (pure_state now u (inner a)) at 3. apply surjective_pairing. }
  split; [split|].
  - intros key g' Hk Hg' Hne'. apply informed_for_query; [by apply few|by apply elem_of_others|by apply Hi].
  - intros key e Hk. change (close_nodes now u a) with (cached_close_nodes now u a). unfold RecommendedCloseNodes in *.
    destruct (cached_query_cases now u a) as [(e' & _ & _ & ->)|(_ & _ & _ & _ & _ & Hent)]; [by apply He|].
    intros [Hold|[<- ->]]%Hent; [by eapply He|by eapply Hwel].
  - intros Hk. change (close_nodes now u a) with (cached_close_nodes now u a). unfold RecommendedCloseNodes in *.
    destruct (cached_query_cases now u a) as [(e' & He' & _ & ->)|(-> & _)]; [by eapply He|by eapply Hwel].
Qed.
End tables.

(** ** Serving each other *)

Section society.
Context `{Sha256} `{Ed25519} `{CodecLaws} `{Hex} {W D : Type} `{Clock W} `{!DnsData D}.
Abbreviation node := (Context RecommendedCloseNodes D).
Context (peers : W -> gmap SocketAddr node).
Context (population : gset NodeId) (home_of : NodeId -> SocketAddr).
Context (keys : Key -> Prop) (permitted : gmap SocketAddr node -> bytes -> Prop).

Abbreviation peer_ok := (peer_ok population home_of keys).
Abbreviation resident := (resident population home_of).
Abbreviation others := (others population).
Abbreviation env := (Env RecommendedCloseNodes W).

(** Of the node [j]: its table is fit, and its values and its resolver are as
    [Q] says. *)
Implicit Type Q : NodeId -> gmap Key Value -> D -> Prop.

Definition fit Q (j : NodeId) (c : node) : Prop := peer_ok j (ctx_nodes c) /\ Q j (ctx_values c) (ctx_dns c).

(** Every node is at its address, and as [F] says. *)
Definition net (F : NodeId -> node -> Prop) (m : gmap SocketAddr node) : Prop :=
  forall j, j ∈ population -> exists c, m !! home_of j = Some c /\ F j c.

(** Every node is at its address, and fit. *)
Definition network Q (m : gmap SocketAddr node) : Prop := net (fit Q) m.

(** A request whose sender is who it says it is, where that is looked at, and
    that stores only what is permitted as the network is. *)
Definition polite (m : gmap SocketAddr node) (r : Request) : Prop :=
  forall sender method q, parse_framed (req_payload r) = Some (sender, method, q) ->
    (from_is_reachable r = true -> sender ∈ population /\ req_from r = home_of sender) /\
    (method = Store -> permitted m q).

(** What the nodes do meanwhile: they serve polite requests, their own lookups
    ask their tables and offer them contacts of the network, and their resolvers
    are asked. *)
Inductive happens (m : gmap SocketAddr node) (c : node) : node -> Prop :=
  | happens_served now r : polite m r -> happens m c (dispatch now r c).2
  | happens_asked now key : happens m c (set_table (close_nodes now key (ctx_nodes c)).2 c)
  | happens_offered x : resident x -> happens m c (set_table (maybe_add_contact x (ctx_nodes c)) c)
  | happens_resolved domain : happens m c (set_dns (get_dns_vk domain (ctx_dns c)).2 c).

Inductive meanwhile (m : gmap SocketAddr node) : gmap SocketAddr node -> Prop :=
  | meanwhile_at j c c' :
      j ∈ population -> m !! home_of j = Some c -> happens m c c' -> meanwhile m (<[home_of j := c']> m).

(** What happens to a node leaves it as [F] says. *)
Definition closed (F : NodeId -> node -> Prop) : Prop :=
  forall m j c c', j ∈ population -> net F m -> F j c -> happens m c c' -> F j c'.

(** In a network of nodes of which [Q] holds, permitted stores and asking the
    resolver keep [P]. *)
Record kept Q (P : NodeId -> gmap Key Value -> D -> Prop) : Prop := {
  ke_store m j (c : node) q : network Q m -> j ∈ population -> permitted m q ->
    Q j (ctx_values c) (ctx_dns c) -> P j (ctx_values c) (ctx_dns c) ->
    P j (ctx_values (store_handle q c).2) (ctx_dns (store_handle q c).2);
  ke_dns j v d domain : Q j v d -> P j v d -> P j v (get_dns_vk domain d).2
}.

Definition stable Q : Prop := kept Q Q.

(** All nodes as they are in an environment of a client, whose own node uses the
    client's table. *)
Definition swarm (rpc : Rpc RecommendedCloseNodes W) (e : env) : gmap SocketAddr node :=
  alter (set_table (table e)) (address (my_contact rpc)) (peers (world e)).

(** A transport that carries a request, sooner or later, to the node at its
    address, and its reply, if there is one, back.  A connection that is closed
    without a reply is an error that does not speak against the peer. *)
Definition exchanges (rpc : Rpc RecommendedCloseNodes W) (tr : RpcTransport RecommendedCloseNodes W) (reachable : bool)
    : Prop :=
  forall payload a e c, swarm rpc e !! a = Some c ->
    exists m1 c1 now draw from,
      rtc meanwhile (swarm rpc e) m1 /\ m1 !! a = Some c1 /\
      (reachable = true -> from = address (my_contact rpc)) /\
      let r := dispatch now (MkRequest (request_id draw) from reachable payload) c1 in
      match r.1 with
      | Some framed => (tr payload a e).1 = read_reply (request_id draw) framed
      | None => reachable = false -> exists err, (tr payload a e).1 = Err err /\ peer_is_gone err = false
      end /\
      rtc meanwhile (<[a := r.2]> m1) (swarm rpc (tr payload a e).2).

(** One of the nodes, as a client whose transports work. *)
Record participant (rpc : Rpc RecommendedCloseNodes W) : Prop := {
  pa_in : me rpc ∈ population;
  pa_home : address (my_contact rpc) = home_of (me rpc);
  pa_datagrams : exchanges rpc (transport rpc) true;
  pa_streams : exchanges rpc (robust_transport rpc) false
}.

Context (contacts_total : forall l : list Contact, is_Some (serialize l)).
Context (keys_total : forall k : Key, is_Some (serialize k)).
Context (replies_total : forall r : FindValueReply, is_Some (serialize r)).
Context (home_inj : forall i j, i ∈ population -> j ∈ population -> home_of i = home_of j -> i = j).
Context (homes_plain : forall j, j ∈ population -> plain (home_of j)).
Context (few : forall key g, keys key -> g ∈ population -> uncrowded (others g) g key).
Context (company : forall j, j ∈ population -> exists g, g ∈ population /\ g <> j).

(** What a request does to a server. *)
Lemma dispatch_cases now r (c : node) :
  (dispatch now r c = (None, c) /\ parse_framed (req_payload r) = None) \/
  exists sender method q, parse_framed (req_payload r) = Some (sender, method, q) /\
    let h := handle now method q (after_learning (req_from r) (from_is_reachable r) sender c) in
    dispatch now r c = (frame_reply (req_id r) <$> h.1, h.2).
Proof.
  unfold dispatch. destruct (parse_framed (req_payload r)) as [[[sender method] q]|]; [right|by left].
  exists sender, method, q. split; [done|]. mstep.
  assert ((learn_sender r sender c).2 = after_learning (req_from r) (from_is_reachable r) sender c) as ->
    by (unfold learn_sender, after_learning; by destruct (from_is_reachable r)).
  by destruct (handle now method q _) as [[reply|] c'].
Qed.

(** *** Networks of whatever nodes *)

Section nets.
Implicit Type F : NodeId -> node -> Prop.

(** One node changed. *)
Lemma net_insert F F' m j c' :
  net F m -> j ∈ population -> F' j c' -> (forall i c, i <> j -> F i c -> F' i c) ->
  net F' (<[home_of j := c']> m).
Proof using home_inj.
  intros Hm Hj Hc Hrest i Hi. destruct (decide (i = j)) as [->|Hne].
  - rewrite lookup_insert_eq. eauto.
  - rewrite lookup_insert_ne by (intros E; apply Hne; symmetry; by apply home_inj).
    destruct (Hm i Hi) as (c & ? & ?). exists c. auto.
Qed.

Lemma net_meanwhile F m m' : closed F -> rtc meanwhile m m' -> net F m -> net F m'.
Proof using home_inj.
  intros HF. induction 1 as [|m m1 m' [j c c' Hj Hc Hc'] _ IH]; intros Hm; [done|]. apply IH.
  destruct (Hm j Hj) as (c0 & Hc0 & Hfit). rewrite Hc in Hc0. injection Hc0 as <-.
  apply (net_insert F); [done|done|by eapply HF|done].
Qed.

(** A step of the client alone. *)
Lemma net_local F F' rpc e e' :
  participant rpc -> net F (swarm rpc e) -> world e' = world e ->
  (forall i c, i <> me rpc -> F i c -> F' i c) ->
  (forall c, ctx_nodes c = table e -> F (me rpc) c -> F' (me rpc) (set_table (table e') c)) ->
  net F' (swarm rpc e').
Proof using home_inj.
  intros Hp Hm Hw Hrest Ht j Hj. destruct (Hm j Hj) as (c & Hc & Hfit). unfold swarm in *. rewrite Hw, (pa_home _ Hp) in *.
  destruct (decide (j = me rpc)) as [->|Hne].
  - rewrite lookup_alter_eq in Hc |- *. destruct (peers (world e) !! home_of (me rpc)) as [c0|]; [|done].
    injection Hc as <-. exists (set_table (table e') c0). split; [done|]. exact (Ht (set_table (table e) c0) eq_refl Hfit).
  - assert (home_of (me rpc) <> home_of j)
      by (intros E; apply Hne; symmetry; apply home_inj; [apply (pa_in _ Hp)|done|done]).
    rewrite lookup_alter_ne in Hc |- * by done. eauto.
Qed.

(** A call is served by its peer as it is after learning the sender. *)
Lemma call_served F rpc tr reachable method q j known e :
  closed F -> participant rpc -> exchanges rpc tr reachable -> net F (swarm rpc e) -> j ∈ population ->
  exists now from c1, F j c1 /\ (reachable = true -> from = home_of (me rpc)) /\
    let h := handle now method q (after_learning from reachable (me rpc) c1) in
    let out := call rpc tr method q (home_of j) known e in
    (reachable = false \/ is_Some h.1) ->
    out.1 = h.1 /\
    forall F', closed F' -> (forall i c, i <> j -> F i c -> F' i c) -> F' j h.2 -> net F' (swarm rpc out.2).
Proof using home_inj.
  intros HF Hp Htr Hm Hj. destruct (Hm j Hj) as (c0 & Hc0 & _).
  destruct (Htr (rpc_request (me rpc) method q) (home_of j) e c0 Hc0)
    as (m1 & c1 & now & draw & from & Hbefore & Hc1 & Hfrom & Hout & Hafter).
  pose proof (net_meanwhile F _ _ HF Hbefore Hm) as Hm1.
  destruct (Hm1 j Hj) as (c1' & Hc1' & Hfit). rewrite Hc1 in Hc1'. injection Hc1' as <-.
  set (r := MkRequest (request_id draw) from reachable (rpc_request (me rpc) method q)) in *.
  destruct (dispatch_cases now r c1) as [[_ Hbad]|(sender & method' & q' & Hparse & Hd)].
  { change (req_payload r) with (rpc_request (me rpc) method q) in Hbad. by rewrite (proj2 (parse_framed_Some _ _ _ _) eq_refl) in Hbad. }
  change (req_payload r) with (rpc_request (me rpc) method q) in Hparse.
  rewrite (proj2 (parse_framed_Some _ _ _ _) eq_refl) in Hparse. injection Hparse as <- <- <-.
  change (req_from r) with from in Hd. change (from_is_reachable r) with reachable in Hd.
  change (req_id r) with (request_id draw) in Hd.
  exists now, from, c1. split; [done|]. split; [intros Hr; rewrite (Hfrom Hr); apply (pa_home _ Hp)|].
  set (c := after_learning from reachable (me rpc) c1) in *.
  intros h out Hans. subst h out. rewrite Hd in Hout, Hafter. cbn [fst snd] in Hout, Hafter.
  assert (forall F', closed F' -> (forall i c, i <> j -> F i c -> F' i c) -> F' j (handle now method q c).2 ->
    net F' (swarm rpc (tr (rpc_request (me rpc) method q) (home_of j) e).2)) as Hpost.
  { intros F' HF' Hrest Hfit'. eapply net_meanwhile; [done|exact Hafter|]. by eapply net_insert. }
  unfold call. rewrite bind_eq. change (id (my_contact rpc)) with (me rpc).
  destruct (tr (rpc_request (me rpc) method q) (home_of j) e) as [res e']. cbn [fst snd] in *.
  destruct (handle now method q c).1 as [reply|]; cbn [fmap option_fmap option_map] in Hout.
  - rewrite Hout, read_reply_framed. by split.
  - destruct Hans as [->|[? ?]]; [|done]. destruct (Hout eq_refl) as (err & -> & Hgone).
    destruct known as [x|]; rewrite ?Hgone; (split; [done|exact Hpost]).
Qed.
End nets.

(** *** Networks of fit nodes *)

Lemma network_weaken Q Q' m : (forall j v d, Q j v d -> Q' j v d) -> network Q m -> network Q' m.
Proof. intros HQ Hm j Hj. destruct (Hm j Hj) as (c & ? & ? & ?). exists c. split; [done|]. split; auto. Qed.

Lemma fit_other (Q Q' : NodeId -> gmap Key Value -> D -> Prop) j :
  (forall i v d, i <> j -> Q i v d -> Q' i v d) -> forall i (c : node), i <> j -> fit Q i c -> fit Q' i c.
Proof. intros HQ i c Hne [? ?]. split; auto. Qed.

(** One node of the network changed. *)
Lemma network_insert Q Q' m j c' :
  network Q m -> j ∈ population -> fit Q' j c' -> (forall i v d, i <> j -> Q i v d -> Q' i v d) ->
  network Q' (<[home_of j := c']> m).
Proof using home_inj. intros Hm Hj Hc Hrest. by eapply net_insert, fit_other. Qed.

Lemma fit_handle Q now method q j c :
  stable Q -> j ∈ population -> (method = Store -> exists m, network Q m /\ permitted m q) -> fit Q j c ->
  fit Q j (handle now method q c).2.
Proof using few company H2.
  intros HQ Hj Hper [Ht Hv]. destruct method; cbn [handle].
  - done.
  - destruct (store_handle_effect (fun _ _ => True) ltac:(done) c q) as (Hn & _). split; [by rewrite Hn|].
    destruct (Hper eq_refl) as (m & Hm & Hq). by apply (ke_store _ _ HQ m).
  - unfold find_node_handle. destruct (deserialize q); [|done]. mstep. split; [|done]. cbn. by apply peer_ok_query.
  - unfold find_value_handle. destruct (deserialize q) as [k|]; [|done]. mstep. cbn [gets fst snd].
    destruct (ctx_values c !! k); [done|]. mstep. split; [|done]. cbn. by apply peer_ok_query.
Qed.

Lemma fit_learning Q from reachable sender j c :
  (reachable = true -> sender ∈ population /\ from = home_of sender) -> fit Q j c ->
  fit Q j (after_learning from reachable sender c).
Proof.
  intros Hs [Ht Hv]. destruct reachable; [|done]. split; [|done]. cbn. apply peer_ok_add; [|done]. by apply Hs.
Qed.

Lemma fit_dispatch Q m now r j c :
  stable Q -> network Q m -> j ∈ population -> polite m r -> fit Q j c -> fit Q j (dispatch now r c).2.
Proof using few company H2.
  intros HQ Hm Hj Hr Hc. destruct (dispatch_cases now r c) as [[-> _]|(sender & method & q & Hp & ->)]; [done|].
  destruct (Hr _ _ _ Hp) as [Hs Hper]. cbn [snd]. apply fit_handle; [done|done|eauto|]. by apply fit_learning.
Qed.

Lemma fit_closed Q : stable Q -> closed (fit Q).
Proof using few company H2.
  intros HQ m j c c' Hj Hm Hfit Hc'. destruct Hc' as [now r Hr|now key|x Hx|domain]; [by eapply fit_dispatch|..];
    destruct Hfit as [Ht Hv].
  - split; [by apply peer_ok_query|done].
  - split; [by apply peer_ok_add|done].
  - split; [done|by apply (ke_dns _ _ HQ)].
Qed.

Lemma network_meanwhile Q m m' : stable Q -> rtc meanwhile m m' -> network Q m -> network Q m'.
Proof using few company home_inj H2. intros HQ. by apply net_meanwhile, fit_closed. Qed.

(** *** The client's own node *)

Lemma swarm_me Q rpc e :
  participant rpc -> network Q (swarm rpc e) -> peer_ok (me rpc) (table e).
Proof using Type.
  intros Hp Hm. destruct (Hm (me rpc) (pa_in _ Hp)) as (c & Hc & Hok & _). unfold swarm in Hc.
  rewrite (pa_home _ Hp), lookup_alter_eq in Hc. destruct (peers (world e) !! home_of (me rpc)); [|done].
  by injection Hc as <-.
Qed.

(** A step of the client alone. *)
Lemma network_local Q rpc e e' :
  participant rpc -> network Q (swarm rpc e) -> world e' = world e ->
  (peer_ok (me rpc) (table e) -> peer_ok (me rpc) (table e')) -> network Q (swarm rpc e').
Proof using home_inj.
  intros Hp Hm Hw Ht. eapply net_local; [done|exact Hm|done|done|]. intros c Hc [Hok Hv].
  rewrite Hc in Hok. split; [by apply Ht|exact Hv].
Qed.

(** *** A call *)

Lemma call_exchange Q rpc tr reachable method q j known e :
  stable Q -> participant rpc -> exchanges rpc tr reachable -> network Q (swarm rpc e) -> j ∈ population ->
  exists now c, fit Q j c /\
    let h := handle now method q c in
    let out := call rpc tr method q (home_of j) known e in
    (reachable = false \/ is_Some h.1) ->
    out.1 = h.1 /\
    forall Q', stable Q' -> (forall i v d, i <> j -> Q i v d -> Q' i v d) -> fit Q' j h.2 ->
      network Q' (swarm rpc out.2).
Proof using few company home_inj H2.
  intros HQ Hp Htr Hm Hj.
  destruct (call_served (fit Q) rpc tr reachable method q j known e (fit_closed Q HQ) Hp Htr Hm Hj)
    as (now & from & c1 & Hfit & Hfrom & Hcall).
  exists now, (after_learning from reachable (me rpc) c1). split.
  { apply fit_learning; [|done]. intros Hr. split; [apply (pa_in _ Hp)|by apply Hfrom]. }
  cbv zeta in *. intros Hans. destruct (Hcall Hans) as [Hout Hnet]. split; [exact Hout|].
  intros Q' HQ' Hrest Hh. apply (Hnet (fit Q')); [by apply fit_closed|by apply fit_other|exact Hh].
Qed.

(** What is sent of residents arrives as it is. *)
Lemma residents_sent (l : list Contact) : (forall c, c ∈ l -> resident c) -> serde_contact <$> l = l.
Proof using homes_plain. intros Hl. apply serde_contacts_plain. intros c Hc. destruct (Hl c Hc) as [Hin ->]. by apply homes_plain. Qed.

(** A FIND_NODE brings the lookup forward. *)
Lemma find_node_network Q rpc key c e :
  stable Q -> participant rpc -> keys key -> network Q (swarm rpc e) -> resident c -> id c <> me rpc ->
  network Q (swarm rpc (find_node rpc c key e).2) /\
  helpful (others (me rpc)) (me rpc) home_of key (id c) (find_node rpc c key e).1.
Proof using home_inj homes_plain few company contacts_total keys_total H2.
  intros HQ Hp Hkey Hm [Hc Ha] Hne. destruct (keys_total key) as [q Hq].
  destruct (call_exchange Q rpc (transport rpc) true FindNode q (id c) (Some c) e HQ Hp (pa_datagrams _ Hp) Hm Hc)
    as (now & c1 & Hfit & Hcall). cbv zeta in Hcall.
  pose proof (fit_handle Q now FindNode q (id c) c1 HQ Hc ltac:(done) Hfit) as Hfit'.
  cbn [handle] in *. unfold find_node_handle in *. rewrite (deserialize_serialize _ _ Hq), bind_eq, ret_eq in *.
  cbn [on_nodes fst snd] in *.
  destruct (contacts_total (close_nodes now key (ctx_nodes c1)).1) as [reply Hreply]. rewrite Hreply in Hcall.
  destruct (Hcall ltac:(by right)) as [Hout Hnet]. unfold find_node, find_node_encode_request. rewrite Hq, Ha.
  rewrite bind_eq, Hout, ret_eq. cbn [fst snd]. unfold find_node_decode_reply. rewrite (laws_contacts _ _ Hreply).
  split; [by apply Hnet|]. cbn [default].
  assert (helpful (others (me rpc)) (me rpc) home_of key (id c) (close_nodes now key (ctx_nodes c1)).1) as Hhelp.
  { apply (informed_for_query (others (me rpc)) (me rpc) home_of now key key (id c) (ctx_nodes c1)); [| | |done].
    - apply few; [done|apply (pa_in _ Hp)].
    - by apply elem_of_others.
    - apply (po_informed _ _ _ _ _ (proj1 Hfit)); [done|apply (pa_in _ Hp)|done]. }
  rewrite residents_sent; [exact Hhelp|]. intros x Hx. apply (resident_belongs population home_of (me rpc)); [apply (pa_in _ Hp)|].
  by apply (proj1 Hhelp).
Qed.

(** A FIND_VALUE gives the value, or contacts of the network. *)
Lemma find_value_network Q rpc key c e :
  stable Q -> participant rpc -> keys key -> network Q (swarm rpc e) -> resident c ->
  network Q (swarm rpc (find_value rpc c key e).2) /\
  exists v d, Q (id c) v d /\
    match v !! key with
    | Some value => (find_value rpc c key e).1 = FoundValue value
    | None => exists l, (find_value rpc c key e).1 = Closest l /\ forall x, x ∈ l -> resident x
    end.
Proof using home_inj homes_plain few company replies_total keys_total H2.
  intros HQ Hp Hkey Hm [Hc Ha]. destruct (keys_total key) as [q Hq].
  destruct (call_exchange Q rpc (robust_transport rpc) false FindValue q (id c) (Some c) e HQ Hp (pa_streams _ Hp) Hm Hc)
    as (now & c1 & Hfit & Hcall). cbv zeta in Hcall. specialize (Hcall ltac:(by left)) as [Hout Hnet].
  pose proof (fit_handle Q now FindValue q (id c) c1 HQ Hc ltac:(done) Hfit) as Hfit'.
  unfold find_value. rewrite Hq, Ha, bind_eq, Hout.
  specialize (Hnet Q HQ ltac:(done) Hfit'). set (e' := (call _ _ _ _ _ _ e).2) in *. clearbody e'. clear Hout.
  assert (forall r : option bytes, ((match r with
      | Some reply => mret (default (Closest []) (deserialize reply))
      | None => mret (Closest [])
      end : M env FindValueReply) e').2 = e') as Hstate by (by intros [?|]).
  rewrite Hstate. split; [exact Hnet|]. exists (ctx_values c1), (ctx_dns c1). split; [apply Hfit|].
  cbn [handle]. unfold find_value_handle. rewrite (deserialize_serialize _ _ Hq), bind_eq. cbn [gets fst snd].
  destruct (ctx_values c1 !! key) as [v|].
  - destruct (replies_total (FoundValue v)) as [reply Hreply]. rewrite ret_eq. cbn [fst snd]. rewrite Hreply, ret_eq.
    cbn [fst]. by rewrite (laws_find_value _ _ Hreply).
  - rewrite bind_eq, ret_eq. cbn [on_nodes fst snd]. set (l := (close_nodes now key (ctx_nodes c1)).1).
    destruct (replies_total (Closest l)) as [reply Hreply]. rewrite Hreply, ret_eq.
    cbn [fst]. rewrite (laws_find_value _ _ Hreply). cbn [serde_find_value default].
    assert (forall x, x ∈ l -> resident x) as Hres.
    { intros x Hx. destruct (peer_ok_query population home_of keys few company now key (id c) (ctx_nodes c1) Hc (proj1 Hfit))
        as [_ Hwel]. by apply (Hwel Hkey). }
    exists l. by rewrite (residents_sent l Hres).
Qed.

(** ** Lookups *)

Lemma network_undisturbed Q rpc key :
  participant rpc -> undisturbed key (others (me rpc)) home_of (fun e => network Q (swarm rpc e)).
Proof using home_inj few company.
  intros Hp. split.
  - intros e e' Hm Ht Hw. eapply network_local; [done|exact Hm|done|]. by rewrite Ht.
  - intros c e Hm [Hc Hne]%member_resident. eapply network_local; [done|exact Hm|done|]. by apply peer_ok_add.
  - intros e Hm. eapply network_local; [done|exact Hm|done|]. intros Ht.
    apply peer_ok_query; [done|done|apply (pa_in _ Hp)|done].
Qed.

Lemma network_offers Q rpc l e :
  participant rpc -> network Q (swarm rpc e) -> (forall x, x ∈ l -> resident x) ->
  network Q (swarm rpc (for_each l offer_contact e).2).
Proof using home_inj.
  intros Hp. revert e. induction l as [|x l IH]; intros e Hm Hl; [done|]. cbn [for_each]. mstep. apply IH.
  - eapply network_local; [done|exact Hm|done|]. apply peer_ok_add. apply Hl. by left.
  - intros y Hy. apply Hl. by right.
Qed.

(** The node of the population a key belongs to. *)
Definition nearest (key : Key) (z : NodeId) : Prop :=
  z ∈ population /\ forall j, j ∈ population -> j = z \/ nearer key z j.

Lemma nearest_inhabited rpc key : participant rpc -> exists z, nearest key z.
Proof using Type.
  intros Hp. apply nearest_exists. intros E. pose proof (pa_in _ Hp) as Hin. rewrite E in Hin.
  by apply not_elem_of_empty in Hin.
Qed.

(** The [K] closest of any residents keep the nearest node. *)
Lemma nearest_kept key z l :
  nearest key z -> (forall c, c ∈ l -> resident c) -> (exists c, c ∈ l /\ id c = z) ->
  exists c, c ∈ closest_to key K l /\ id c = z.
Proof using Type.
  intros [Hz Hmin] Hres (c & Hc & Hid).
  destruct (closest_to_selection key l c Hc) as [(y & Hy & Hyc)|[Hlen Hall]]; [exists y; by rewrite Hyc|].
  destruct (closest_to key K l) as [|y rest] eqn:E; [pose proof K_two; simpl in Hlen; lia|].
  exists y. split; [by left|]. specialize (Hall y ltac:(by left)).
  assert (y ∈ l) as Hy.
  { assert (y ∈ closest_to key K l) as Hin by (rewrite E; by left).
    by eapply closest_elem_of in Hin; [|apply _|apply same_id_spec]. }
  destruct (Hmin (id y)) as [?|Hlt]; [by apply Hres|done|].
  rewrite near_le_val, Hid in Hall. rewrite nearer_val in Hlt. lia.
Qed.

(** The nodes a participant takes a value to, or looks for it on, are residents
    and the nearest node is among them. *)
Lemma lookup_reaches pick Q rpc key e :
  stable Q -> participant rpc -> keys key -> network Q (swarm rpc e) ->
  network Q (swarm rpc (lookup_node pick rpc key e).2) /\
  let targets := with_us rpc key (lookup_node pick rpc key e).1 in
  (forall c, c ∈ targets -> resident c) /\
  forall z, nearest key z -> exists c, c ∈ targets /\ id c = z.
Proof using home_inj homes_plain few company contacts_total keys_total H2.
  intros HQ Hp Hkey Hm. pose proof (swarm_me Q rpc e Hp Hm) as Hmine.
  destruct (peer_ok_query population home_of keys few company (clock (world e)) key (me rpc) (table e) (pa_in _ Hp) Hmine)
    as [_ Hwel]. destruct (Hwel Hkey) as [Hne Hknown].
  destruct (lookup_node_nearest pick rpc key (others (me rpc)) home_of (fun e => network Q (swarm rpc e))
    ltac:(rewrite elem_of_others; naive_solver)
    ltac:(intros c e0 Hm0 [Hc Hcm]%member_resident; by apply find_node_network)
    (network_undisturbed Q rpc key Hp) e Hm Hne) as (Hm' & Hall & best & rest & Hout & _ & Hbest).
  { intros c Hc. apply resident_member; by apply Hknown. }
  split; [exact Hm'|]. cbv zeta. set (near := (lookup_node pick rpc key e).1) in *. clearbody near.
  assert (forall c, c ∈ near ++ [my_contact rpc] -> resident c) as Hres.
  { intros c [Hc|Hc%list_elem_of_singleton]%elem_of_app.
    - by eapply member_resident, Hall.
    - subst c. split; [apply (pa_in _ Hp)|apply (pa_home _ Hp)]. }
  split.
  - intros c Hc. apply Hres. unfold with_us in Hc. by eapply closest_elem_of in Hc; [|apply _|apply same_id_spec].
  - intros z Hz. apply nearest_kept; [done|done|]. destruct (decide (z = me rpc)) as [->|Hzme].
    + exists (my_contact rpc). split; [apply elem_of_app; right; by apply list_elem_of_singleton|done].
    + exists best. split; [rewrite Hout; by left|].
      assert (best ∈ near) as Hin by (rewrite Hout; by left). destruct (Hall best Hin) as [[Hb _]%elem_of_others _].
      destruct Hz as [Hzp Hz]. destruct (Hz (id best) Hb) as [?|Hlt]; [done|].
      destruct (Hbest z) as [->|Hgt]; [by apply elem_of_others|done|].
      by destruct (nearer_irrefl key z (transitivity Hlt Hgt)).
Qed.
(** ** Values *)

(** What the node [z] had of the key when it was asked is in the result, unless
    the search had stopped before. *)
Definition heeds Q (key : Key) (accept : Value -> bool) (stop : bool) (z : NodeId) (result : list (Contact * Value))
    : Prop :=
  (stop = true /\ result <> []) \/
  exists v d, Q z v d /\ forall value, v !! key = Some value -> accept value = true -> value ∈ result.*2.

(** A result that some node of the network gave. *)
Definition from_network Q (key : Key) (accept : Value -> bool) (p : Contact * Value) : Prop :=
  accept p.2 = true /\ exists j v d, j ∈ population /\ Q j v d /\ v !! key = Some p.2.

(** What a search that still has to ask the contacts of [pending], and has
    [found] so far, comes to. *)
Record probed Q rpc key accept stop (pending : list Contact) (found : list (Contact * Value))
    (out : (nat * list (Contact * Value)) * env) : Prop := {
  pr_network : network Q (swarm rpc out.2);
  pr_kept : found ⊆ out.1.2;
  pr_sound p : p ∈ out.1.2 -> p ∈ found \/ from_network Q key accept p;
  pr_heeded c : c ∈ pending -> heeds Q key accept stop (id c) out.1.2
}.

(** One of them answered. *)
Lemma probed_answer Q rpc key accept stop source rest pending found found' v d out :
  probed Q rpc key accept stop rest found' out ->
  (forall x, x ∈ pending <-> x = source \/ x ∈ rest) -> Q (id source) v d ->
  found ⊆ found' -> (forall p, p ∈ found' -> p ∈ found \/ from_network Q key accept p) ->
  (forall value, v !! key = Some value -> accept value = true -> value ∈ found'.*2) ->
  probed Q rpc key accept stop pending found out.
Proof.
  intros [Hm Hsub Hsound Hheed] Hall Hv Hf Hf' Hval. split; [done|by etransitivity|..].
  - intros p [?%Hf'|?]%Hsound; auto.
  - intros c [->|Hc]%Hall; [|by apply Hheed]. right. exists v, d. split; [done|]. intros value Hk Hacc.
    specialize (Hval value Hk Hacc). apply list_elem_of_fmap in Hval as (p & -> & Hp). apply list_elem_of_fmap. eauto.
Qed.

Lemma network_probes Q rpc lookup_id kind l e :
  participant rpc -> network Q (swarm rpc e) ->
  network Q (swarm rpc (for_each l (lookup_probe lookup_id kind (me rpc)) e).2).
Proof using home_inj.
  intros Hp. revert e. induction l as [|x l IH]; intros e Hm; [done|]. cbn [for_each]. mstep. apply IH.
  by eapply network_local; [done|exact Hm|..].
Qed.

(** The probe loop of a search asks every candidate, unless it may stop. *)
Lemma values_loop_network pick Q rpc key accept stop lookup_id budget cands flight probes found e :
  stable Q -> participant rpc -> keys key -> network Q (swarm rpc e) ->
  (forall c, c ∈ flight ++ cands -> resident c) -> length cands + length flight <= budget ->
  probed Q rpc key accept stop (flight ++ cands) found
    (values_loop pick rpc key accept stop lookup_id budget cands flight probes found e).
Proof using home_inj homes_plain few company replies_total keys_total H2.
  intros HQ Hp Hkey. revert cands flight probes found e.
  induction budget as [|budget IH]; intros cands flight probes found e Hm Hres Hb; cbn [values_loop].
  { destruct cands, flight; simpl in Hb; [|lia..]. split; [done|done|by left|by intros c ?%not_elem_of_nil]. }
  mstep. cbv zeta. set (k := ALPHA - length flight). set (e1 := (for_each _ _ e).2).
  assert (network Q (swarm rpc e1)) as Hm1 by (by apply network_probes). clearbody e1. clear Hm.
  destruct (take_next_spec pick (flight ++ take k cands) e1) as [He2 Hnext].
  destruct (take_next pick (flight ++ take k cands) e1) as [[[source still]|] e2]; cbn [fst snd] in *; subst e2; mstep.
  2: { apply app_eq_nil in Hnext as [-> Ht]. split; [done|done|by left|].
       destruct cands as [|x cands]; [by intros c ?%not_elem_of_nil|]. subst k. by unfold ALPHA in Ht. }
  destruct Hnext as (a & b & [Hall Hlen]%flight_taken & ->).
  destruct (find_value_network Q rpc key source e1 HQ Hp Hkey Hm1) as (Hm' & v & d & Hv & Hreply);
    [apply Hres, Hall; by left|].
  assert (forall x, x ∈ (a ++ b) ++ drop k cands -> resident x) as Hres' by (intros x Hx; apply Hres, Hall; by right).
  assert (length (drop k cands) + length (a ++ b) <= budget) as Hb' by lia.
  assert (id source ∈ population) as Hsrc by (apply Hres, Hall; by left).
  set (e' := (find_value rpc source key e1).2) in *. clearbody e'.
  destruct (v !! key) as [value|] eqn:Hval.
  - rewrite Hreply. destruct (accept value) eqn:Hacc; [destruct stop|].
    + rewrite ret_eq. split; cbn [fst snd]; [done|by apply list_subseteq_app_l|..].
      * intros p [?|Hin%list_elem_of_singleton]%elem_of_app; [by left|right]. subst p. split; eauto 6.
      * intros c _. left. split; [done|]. by destruct found.
    + eapply probed_answer; [by apply IH|exact Hall|exact Hv|by apply list_subseteq_app_l|..].
      * intros p [?|Hin%list_elem_of_singleton]%elem_of_app; [by left|right]. subst p. split; eauto 6.
      * rewrite Hval. intros ? [= <-] _. rewrite fmap_app. apply elem_of_app. right. by left.
    + eapply probed_answer; [by apply IH|exact Hall|exact Hv|done|by left|]. rewrite Hval. intros ? [= <-]. congruence.
  - destruct Hreply as (l & -> & Hl). mstep.
    eapply probed_answer; [apply IH; [by apply network_offers|done|done]|exact Hall|exact Hv|done|by left|]. by rewrite Hval.
Qed.

(** A search hears the nearest node. *)
Lemma lookup_values_network pick Q rpc key accept stop e out :
  stable Q -> participant rpc -> keys key -> network Q (swarm rpc e) -> out = lookup_values pick rpc key accept stop e ->
  network Q (swarm rpc out.2) /\ (forall p, p ∈ out.1 -> from_network Q key accept p) /\
  forall z, nearest key z -> heeds Q key accept stop z out.1.
Proof using home_inj homes_plain few company contacts_total replies_total keys_total H2.
  intros HQ Hp Hkey Hm ->.
  destruct (lookup_values_parts pick rpc key accept stop e) as (i & e1 & Ht1 & Hw1 & Hparts).
  assert (network Q (swarm rpc e1)) as Hm1 by (eapply network_local; [done|exact Hm|done|by rewrite Ht1]).
  destruct (lookup_reaches pick Q rpc key e1 HQ Hp Hkey Hm1) as (Hm2 & Hres & Hreach). cbv zeta in Hres, Hreach.
  specialize (Hparts _ _ eq_refl eq_refl). set (near := lookup_node pick rpc key e1) in *. clearbody near.
  destruct Hparts as (-> & Ht & Hw).
  pose proof (values_loop_network pick Q rpc key accept stop i (length (with_us rpc key near.1))
    (with_us rpc key near.1) [] 0 [] near.2 HQ Hp Hkey Hm2 Hres ltac:(simpl; lia)) as [Hm3 _ Hsound Hheed].
  set (out := values_loop _ _ _ _ _ _ _ _ _ _ _ near.2) in *. clearbody out. split_and!.
  - eapply network_local; [done|exact Hm3|exact Hw|by rewrite Ht].
  - intros p [Hin|?]%Hsound; [by apply not_elem_of_nil in Hin|done].
  - intros z Hz. destruct (Hreach z Hz) as (c & Hc & <-). by apply Hheed.
Qed.
(** ** Stores *)

(** A store request that a node of which [Q] holds takes, keeping [Q] and
    bringing about [P]. *)
Definition welcome Q (P : NodeId -> gmap Key Value -> D -> Prop) (q : bytes) : Prop :=
  forall m j (c : node), network Q m -> j ∈ population -> Q j (ctx_values c) (ctx_dns c) ->
    let h := store_handle q c in
    h.1 = Some STORED /\ Q j (ctx_values h.2) (ctx_dns h.2) /\ P j (ctx_values h.2) (ctx_dns h.2).

(** [Q] of all, and [P] of those that [who] says. *)
Definition among Q (P : NodeId -> gmap Key Value -> D -> Prop) (who : NodeId -> Prop) (j : NodeId)
    (v : gmap Key Value) (d : D) : Prop := Q j v d /\ (who j -> P j v d).

Lemma stable_among Q P who : stable Q -> kept Q P -> stable (among Q P who).
Proof.
  intros HQ HP.
  assert (forall m, network (among Q P who) m -> network Q m) as Hweak
    by (intros m; apply network_weaken; by intros j v d [? _]).
  split.
  - intros m j c q Hm%Hweak Hj Hq [Hc Hw] _. split; [by apply (ke_store _ _ HQ m)|].
    intros Hwho. by apply (ke_store _ _ HP m); auto.
  - intros j v d domain [Hc Hw] _. split; [by apply (ke_dns _ _ HQ)|]. intros Hwho. by apply (ke_dns _ _ HP); auto.
Qed.

Lemma store_network Q P who rpc c key value proof q e :
  stable Q -> kept Q P -> participant rpc ->
  encode_request_with_proof key value proof = Some q -> welcome Q P q ->
  network (among Q P who) (swarm rpc e) -> resident c ->
  (store_with_proof rpc c key value proof e).1 = true /\
  network (among Q P (fun j => j = id c \/ who j)) (swarm rpc (store_with_proof rpc c key value proof e).2).
Proof using home_inj few company H2.
  intros HQ HP Hp Hq Hwel Hm [Hc Ha]. unfold store_with_proof. rewrite Hq, Ha, bind_eq, ret_eq. cbn [fst snd].
  destruct (call_exchange _ rpc (robust_transport rpc) false Store q (id c) (Some c) e
    (stable_among Q P who HQ HP) Hp (pa_streams _ Hp) Hm Hc) as (now & c1 & [Ht [Hv Hold]] & Hcall).
  cbv zeta in Hcall. cbn [handle] in Hcall. 
  destruct (Hwel (swarm rpc e) (id c) c1 ltac:(eapply network_weaken; [|exact Hm]; by intros j v d [? _]) Hc Hv)
    as (Hst & Hv' & Hp').
  destruct (Hcall ltac:(by left)) as [Hout Hnet]. rewrite Hout, Hst, bool_decide_true by done. split; [done|].
  apply Hnet; [by apply stable_among|..].
  - intros i v d Hne [Hi Hwho]. split; [done|]. intros [?|?]; [done|auto].
  - split; [|by split]. destruct (store_handle_effect (fun _ _ => True) ltac:(done) c1 q) as (Hn & _). by rewrite Hn.
Qed.

Lemma store_on_network Q P who rpc key value proof q targets accepted e :
  stable Q -> kept Q P -> participant rpc ->
  encode_request_with_proof key value proof = Some q -> welcome Q P q ->
  network (among Q P who) (swarm rpc e) -> (forall c, c ∈ targets -> resident c) ->
  let out := store_on rpc key value proof targets accepted e in
  out.1 = accepted + length targets /\
  network (among Q P (fun j => j ∈ id <$> targets \/ who j)) (swarm rpc out.2).
Proof using home_inj few company H2.
  intros HQ HP Hp Hq Hwel. revert who accepted e.
  induction targets as [|c targets IH]; intros who accepted e Hm Hres; cbv zeta; cbn [store_on].
  - rewrite ret_eq. cbn [fst snd length]. split; [lia|]. eapply network_weaken; [|exact Hm]. intros j v d [Hj Hw].
    split; [done|]. intros [Hin|?]; [by apply not_elem_of_nil in Hin|auto].
  - destruct (store_network Q P who rpc c key value proof q e HQ HP Hp Hq Hwel Hm) as [Hok Hm'];
      [apply Hres; by left|]. rewrite bind_eq, Hok.
    destruct (IH _ (accepted + 1) _ Hm') as [-> Hm'']; [intros x Hx; apply Hres; by right|].
    split; [cbn [length]; lia|]. eapply network_weaken; [|exact Hm'']. intros j v d [Hj Hw]. split; [done|].
    intros [[->|?]%elem_of_cons|?]; auto.
Qed.

(** A welcome value gets to the nearest node. *)
Lemma store_round_network pick Q P rpc key value proof q e near out :
  stable Q -> kept Q P -> participant rpc -> keys key ->
  encode_request_with_proof key value proof = Some q -> welcome Q P q -> network Q (swarm rpc e) ->
  near = lookup_node pick rpc key e -> out = store_on rpc key value proof (with_us rpc key near.1) 0 near.2 ->
  0 < out.1 /\ network (among Q P (nearest key)) (swarm rpc out.2).
Proof using home_inj homes_plain few company contacts_total keys_total H2.
  intros HQ HP Hp Hkey Hq Hwel Hm Hnear Hout.
  destruct (lookup_reaches pick Q rpc key e HQ Hp Hkey Hm) as (Hm' & Hres & Hreach). cbv zeta in Hres, Hreach.
  rewrite <- Hnear in *. clear Hnear. set (targets := with_us rpc key near.1) in *. clearbody targets.
  destruct (store_on_network Q P (fun _ => False) rpc key value proof q targets 0 near.2
    HQ HP Hp Hq Hwel ltac:(eapply network_weaken; [|exact Hm']; by split) Hres) as [Hn Hm''].
  rewrite <- Hout in *. clear Hout. rewrite Hn. split.
  - destruct (nearest_inhabited rpc key Hp) as (z & (c & Hc & _)%Hreach).
    destruct targets; [by apply not_elem_of_nil in Hc|cbn [length]; lia].
  - eapply network_weaken; [|exact Hm'']. intros j v d [Hj Hw]. split; [done|]. intros (c & Hc & <-)%Hreach.
    apply Hw. left. apply list_elem_of_fmap. eauto.
Qed.

Lemma store_value_network pick Q P rpc value proof q e :
  stable Q -> kept Q P -> participant rpc -> keys (value_key value) ->
  encode_request_with_proof (value_key value) value proof = Some q -> welcome Q P q ->
  network Q (swarm rpc e) ->
  let out := store_value_with_proof pick rpc value proof e in
  0 < out.1.2 /\ network (among Q P (nearest (value_key value))) (swarm rpc out.2).
Proof using home_inj homes_plain few company contacts_total keys_total H2.
  intros HQ HP Hp Hkey Hq Hwel Hm. cbv zeta.
  destruct (store_value_parts pick rpc value proof e) as (near & out & Hnear & Hout & ->). by eapply store_round_network.
Qed.

(** ** What a client keeps

    Whatever a participant does to the network short of storing what is not
    permitted. *)

Section keeping.
Context (pick : W -> nat) (Q : NodeId -> gmap Key Value -> D -> Prop) (rpc : Rpc RecommendedCloseNodes W).
Context (Q_stable : stable Q) (client : participant rpc) (all_keys : forall k, keys k).
Abbreviation ready := (fun e => network Q (swarm rpc e)).

Lemma lookup_node_keeps key : preserves ready (lookup_node pick rpc key).
Proof using All. intros e Hm. by apply (lookup_reaches pick Q rpc key e). Qed.

Lemma lookup_values_keeps key accept stop : preserves ready (lookup_values pick rpc key accept stop).
Proof using All. intros e Hm. by eapply (lookup_values_network pick Q rpc key accept stop e _ Q_stable client (all_keys key) Hm). Qed.

(** A permitted store, whether it is taken or not. *)
Lemma store_keeps c key value proof :
  resident c -> (forall m q, network Q m -> encode_request_with_proof key value proof = Some q -> permitted m q) ->
  preserves ready (store_with_proof rpc c key value proof).
Proof using All.
  intros [Hc Ha] Hper e Hm. unfold store_with_proof.
  destruct (encode_request_with_proof key value proof) as [q|] eqn:Hq; [|done]. rewrite Ha, bind_eq, ret_eq. cbn [snd].
  destruct (call_exchange Q rpc (robust_transport rpc) false Store q (id c) (Some c) e Q_stable client
    (pa_streams _ client) Hm Hc) as (now & c1 & Hfit & Hcall). cbv zeta in Hcall.
  destruct (Hcall ltac:(by left)) as [_ Hnet]. apply Hnet; [done|done|]. apply fit_handle; [done|done| |done].
  intros _. exists (swarm rpc e). auto.
Qed.
End keeping.
End society.
