(* ===== verification/PutGet.v ===== *)
(** * PutGet: a value that was put is found

    In a network of the program's own nodes ([Society]), [store_value] takes a blob
    to the nearest node to its key among others, and [lookup_value], from anywhere,
    asks it, whatever else the nodes serve as long as nobody puts a pointer under
    the key of the blob. *)

From S2P Require Import Prelude Slices Machine Contacts StaticBucket SiblingList Cache Progress.
From S2P Require Import Crates Text Package Wire Stream HandleRpc Rpc Lookup Converge Society.

#[local] Opaque K.

Section blob.
Context `{Sha256} `{Ed25519} `{CodecLaws} `{Hex} {W D : Type} `{Clock W} `{!DnsData D}.
Context (peers : W -> gmap SocketAddr (Context RecommendedCloseNodes D)).
Context (population : gset NodeId) (home_of : NodeId -> SocketAddr) (keys : Key -> Prop) (key : Key) (key_in : keys key).

(** A store request that does not put a pointer under the key. *)
Definition no_pointer (q : bytes) : Prop := forall p proof, deserialize q <> Some (MkStoreRequest key (Latest p) proof).

Definition pointer_free (j : NodeId) (v : gmap Key Value) (d : D) : Prop := forall p, v !! key <> Some (Latest p).

(** A blob of that key is there. *)
Definition holds (j : NodeId) (v : gmap Key Value) (d : D) : Prop :=
  exists b, v !! key = Some (Blob b) /\ key_for_value b = key.

Abbreviation stable := (stable population home_of keys (fun _ => no_pointer)).
Abbreviation kept := (kept population home_of keys (fun _ => no_pointer)).
Abbreviation network := (network population home_of keys).
Abbreviation participant := (participant peers population home_of (fun _ => no_pointer)).
Abbreviation swarm := (swarm peers).
Abbreviation nearest := (nearest population key).

Context (contacts_total : forall l : list Contact, is_Some (serialize l)).
Context (keys_total : forall k : Key, is_Some (serialize k)).
Context (replies_total : forall r : FindValueReply, is_Some (serialize r)).
Context (stores_total : forall r : StoreRequest, is_Some (serialize r)).
Context (home_inj : forall i j, i ∈ population -> j ∈ population -> home_of i = home_of j -> i = j).
Context (homes_plain : forall j, j ∈ population -> plain (home_of j)).
Context (few : forall k g, keys k -> g ∈ population -> uncrowded (others population g) g k).
Context (company : forall j, j ∈ population -> exists g, g ∈ population /\ g <> j).

(** What any permitted store leaves under the key. *)
Lemma no_pointer_store (c : Context RecommendedCloseNodes D) q :
  no_pointer q ->
  ctx_values (store_handle q c).2 !! key = ctx_values c !! key \/
  exists b, ctx_values (store_handle q c).2 !! key = Some (Blob b) /\ key_for_value b = key.
Proof using H2.
  intros Hq. destruct (store_handle_effect (fun _ _ => True) ltac:(done) c q) as (_ & _ & He).
  destruct (store_handle q c).1; [|left; by rewrite He].
  destruct He as (_ & k & value & proof & Hd & Hk & -> & _).
  destruct (decide (k = key)) as [->|Hne]; [|left; by rewrite lookup_insert_ne].
  rewrite lookup_insert_eq. destruct value as [b|p]; [|by destruct (Hq p proof)]. right. by exists b.
Qed.

Lemma pointer_free_stable : stable pointer_free.
Proof using H2.
  split; [|done]. intros m j c q _ _ Hq Hc _ p. destruct (no_pointer_store c q Hq) as [->|(b & -> & _)]; [apply Hc|done].
Qed.

Lemma holds_kept : kept pointer_free holds.
Proof using H2.
  split; [|done]. intros m j c q _ _ Hq _ Hh. unfold holds. by destruct (no_pointer_store c q Hq) as [->|Hb].
Qed.

Context (blob : bytes) (blob_key : key_for_value blob = key).

Lemma blob_welcome q :
  encode_request_with_proof key (Blob blob) [] = Some q -> welcome population home_of keys pointer_free holds q.
Proof using blob_key H2.
  intros Hq m j c _ _ Hfree. unfold store_handle, store_check. rewrite (deserialize_serialize _ _ Hq).
  rewrite bool_decide_false by (intros Hn; apply Hn; symmetry; exact blob_key).
  rewrite bind_eq, ret_eq. cbn [fst snd store_commit]. unfold commit_blob. rewrite bind_eq. cbn [gets fst snd].
  destruct (ctx_values c !! key) as [[b|p]|] eqn:Hv; [|by destruct (Hfree p)|];
    (rewrite bind_eq, ret_eq; cbn [fst snd ctx_values]; split; [done|]; split;
     [intros p; cbn; by rewrite lookup_insert_eq|exists blob; cbn; by rewrite lookup_insert_eq]).
Qed.

(** A blob that is put is on the nearest node. *)
Lemma put_network pick rpc e :
  participant rpc -> network pointer_free (swarm rpc e) ->
  network (among pointer_free holds nearest) (swarm rpc (store_value pick rpc (Blob blob) e).2).
Proof using home_inj homes_plain few company contacts_total keys_total stores_total blob_key key_in H2.
  intros Hp Hm. destruct (stores_total (MkStoreRequest key (Blob blob) [])) as [q Hq].
  pose proof (blob_welcome q Hq) as Hwel. unfold encode_request_with_proof in Hq. rewrite store_value_snd.
  assert (value_key (Blob blob) = key) as Hk by exact blob_key. revert Hq Hk. generalize (Blob blob) as value.
  intros value Hq Hk. rewrite <- Hk in Hq.
  replace (Society.nearest population key) with (Society.nearest population (value_key value)) by by rewrite Hk.
  eapply store_value_network; [done|done|done|done|done|done|apply pointer_free_stable|apply holds_kept|done|by rewrite Hk|exact Hq|done|done].
Qed.

(** A blob that the nearest node holds is found. *)
Lemma get_network pick rpc e :
  participant rpc -> network (among pointer_free holds nearest) (swarm rpc e) ->
  exists source found, (lookup_value pick rpc key e).1 = Some (source, found) /\ key_for_value found = key.
Proof using home_inj homes_plain few company contacts_total replies_total keys_total key_in H2.
  intros Hp Hm. destruct (lookup_value_eq pick rpc key e) as (out & Hout & ->).
  destruct (lookup_values_network peers population home_of keys (fun _ => no_pointer) contacts_total keys_total replies_total
    home_inj homes_plain few company pick _ rpc key (accept_blob key) true e out
    ltac:(apply stable_among; [apply pointer_free_stable|apply holds_kept]) Hp key_in Hm Hout) as (_ & Hsound & Hheed).
  destruct (nearest_inhabited peers population home_of (fun _ => no_pointer) rpc key Hp) as (z & Hz). specialize (Hheed z Hz).
  clear Hout. cbn [fst]. set (found := out.1) in *. clearbody found.
  assert (found <> []) as Hne.
  { destruct Hheed as [[_ ?]|(v & d & [_ Hh] & Hv)]; [done|]. destruct (Hh Hz) as (b & Hb & Hkb).
    intros E. specialize (Hv (Blob b) Hb ltac:(by apply bool_decide_true)). rewrite E in Hv. by apply not_elem_of_nil in Hv. }
  destruct found as [|[source value] rest]; [done|]. destruct (Hsound (source, value) ltac:(by left)) as [Hacc _].
  destruct value as [b|p]; [|done]. cbn in Hacc. apply bool_decide_eq_true in Hacc. eauto.
Qed.
End blob.
