(* ===== verification/Bootstrap.v ===== *)
(** * Bootstrap: joining through a seed

    Models [src/bootstrap.rs].  [random_id_in_bucket] indexes into an array, so
    it is partial here ([None] is the panic); that [bootstrap] never reaches the
    panic is a theorem.  [rand_id] is [rand::random::<NodeId>()]. *)

From S2P Require Import Prelude Slices Machine Contacts Crates Text Package Wire HandleRpc Rpc Lookup.

Inductive BootstrapError : Type := Unreachable | SelfSeed.

#[export] Instance BootstrapError_eq_dec : EqDecision BootstrapError.
Proof. solve_decision. Defined.

Definition bootstrap_error_to_string (e : BootstrapError) : string :=
  match e with
  | Unreachable => "seed did not respond"
  | SelfSeed => "seed is this node itself"
  end.

(** [distance[i] &= 0xFF >> n; distance[i] |= 0x80 >> n]. *)
Definition mark_byte (n : N) (b : byte) : byte :=
  u8 (N.lor (N.land (Byte.to_N b) (N.shiftr 255 n)) (N.shiftr 128 n)).

Definition random_id_in_bucket (draw my_id : NodeId) (bucket : nat) : option NodeId :=
  let i := bucket / 8 in
  (* [distance[..bucket / 8].fill(0)], then the indexed byte *)
  let distance := replicate i x00 ++ drop i (elems draw) in
  b ← distance !! i;
  distance ← array_of 32 (<[i := mark_byte (N.of_nat (bucket mod 8)) b]> distance);
  Some (xor_distance my_id distance).

Section bootstrap.
Context `{Sha256} `{Ed25519} `{Codec} `{Hex} {A W : Type} `{CloseNodes A} `{Clock W}.
Context (pick : W -> nat) (rand_id : M (Env A W) NodeId).

(** [for bucket in 0..cn_leading_zeroes]; [false] is the panic. *)
Fixpoint refresh_buckets (rpc : Rpc A W) (buckets : list nat) : M (Env A W) bool :=
  match buckets with
  | [] => mret true
  | bucket :: buckets =>
      draw ← rand_id;
      match random_id_in_bucket draw (id (my_contact rpc)) bucket with
      | None => mret false
      | Some target =>
          _ ← lookup_node pick rpc target;
          refresh_buckets rpc buckets
      end
  end.

Definition bootstrap (rpc : Rpc A W) (seed : SocketAddr)
    : M (Env A W) (option (result BootstrapError (list Contact))) :=
  pinged ← ping rpc seed;
  match pinged with
  | None => mret (Some (Err Unreachable))
  | Some seed_id =>
      if bool_decide (seed_id = id (my_contact rpc)) then mret (Some (Err SelfSeed)) else
      offer_contact (MkContact seed_id seed);;
      contacts ← lookup_node pick rpc (id (my_contact rpc));
      match contacts with
      | [] => mret (Some (Ok contacts))
      | closest_neighbour :: _ =>
          let cn_distance := xor_distance (id closest_neighbour) (id (my_contact rpc)) in
          let cn_leading_zeroes := leading_zeros cn_distance in
          fine ← refresh_buckets rpc (seq 0 cn_leading_zeroes);
          mret (if fine : bool then Some (Ok contacts) else None)
      end
  end.
End bootstrap.

(** ** A random id of a bucket *)

Lemma xor_distance_cancel a b : xor_distance a (xor_distance a b) = b.
Proof.
  apply id_val_inj. rewrite !id_val_xor, <- N.lxor_assoc, N.lxor_nilpotent. apply N.lxor_0_l.
Qed.

(** All bytes, for properties of single bytes that are checked by running. *)
Definition all_bytes : list byte := omap Byte.of_N (N.of_nat <$> seq 0 256).

Lemma elem_of_all_bytes b : b ∈ all_bytes.
Proof.
  unfold all_bytes. apply list_elem_of_omap. exists (Byte.to_N b). split; [|apply Byte.of_to_N].
  apply list_elem_of_fmap. exists (N.to_nat (Byte.to_N b)). split; [lia|].
  apply elem_of_seq. pose proof (Byte.to_N_bounded b). lia.
Qed.

Lemma mark_byte_zeros b n :
  n < 8 -> byte_leading_zeros (mark_byte (N.of_nat n) b) = n /\ mark_byte (N.of_nat n) b <> x00.
Proof.
  intros Hn.
  assert (forallb (fun n => forallb (fun b =>
    bool_decide (byte_leading_zeros (mark_byte (N.of_nat n) b) = n) &&
    negb (bool_decide (mark_byte (N.of_nat n) b = x00))) all_bytes) (seq 0 8) = true) as Hall
    by by vm_compute.
  rewrite forallb_forall in Hall.
  assert (In n (seq 0 8)) as Hin by (apply in_seq; lia).
  specialize (Hall n Hin). cbv beta in Hall. rewrite forallb_forall in Hall.
  assert (In b all_bytes) as Hb by apply list_elem_of_In, elem_of_all_bytes.
  specialize (Hall b Hb). cbv beta in Hall. by brefl.
Qed.

Lemma leading_zeros_from_zeros z k b rest :
  b <> x00 -> leading_zeros_from z (replicate k x00 ++ b :: rest) = z + 8 * k + byte_leading_zeros b.
Proof.
  intros Hb. revert z. induction k as [|k IH]; intros z; cbn [replicate app leading_zeros_from].
  - rewrite bool_decide_true by done. lia.
  - rewrite bool_decide_false by (intros Hx; by apply Hx). rewrite IH. lia.
Qed.

(** The drawn id exists and shares exactly [bucket] leading bits with ours. *)
Lemma random_id_in_bucket_spec draw my_id bucket :
  bucket < 256 ->
  exists t, random_id_in_bucket draw my_id bucket = Some t /\
    leading_zeros (xor_distance my_id t) = bucket.
Proof.
  intros Hb. unfold random_id_in_bucket.
  set (i := bucket / 8).
  assert (i < 32) as Hi by (apply Nat.Div0.div_lt_upper_bound; lia).
  assert (bucket mod 8 < 8) as Hr by (by apply Nat.mod_upper_bound).
  assert (bucket = 8 * i + bucket mod 8) as Hdiv by apply Nat.div_mod_eq.
  destruct (drop i (elems draw)) as [|b rest] eqn:Hd.
  { apply (f_equal length) in Hd. rewrite length_drop, array_length in Hd. simpl in Hd. lia. }
  assert (length rest = 31 - i) as Hrest.
  { apply (f_equal length) in Hd. rewrite length_drop, array_length in Hd. simpl in Hd. lia. }
  rewrite list_lookup_middle by by rewrite length_replicate.
  cbn [mbind option_bind].
  set (m := mark_byte (N.of_nat (bucket mod 8)) b).
  assert (<[i := m]> (replicate i x00 ++ b :: rest) = replicate i x00 ++ m :: rest) as ->.
  { rewrite insert_app_r_alt by (rewrite length_replicate; lia).
    by rewrite length_replicate, Nat.sub_diag. }
  destruct (array_of_is_Some 32 (replicate i x00 ++ m :: rest)) as [d Hd'].
  { rewrite length_app, length_replicate. simpl. lia. }
  rewrite Hd'. cbn [mbind option_bind]. eexists. split; [done|]. rewrite xor_distance_cancel.
  apply array_of_Some in Hd'. unfold leading_zeros. rewrite Hd'.
  destruct (mark_byte_zeros b (bucket mod 8) Hr) as [Hz Hne].
  rewrite leading_zeros_from_zeros by done. fold m in Hz. rewrite Hz. lia.
Qed.

Section joining.
Context `{Sha256} `{Ed25519} `{Codec} `{Hex} {A W : Type} `{CloseNodesSpec A} `{Clock W}.
Context (pick : W -> nat) (rand_id : M (Env A W) NodeId) (rpc : Rpc A W).

Lemma refresh_buckets_fine buckets (e : Env A W) :
  (forall b, b ∈ buckets -> b < 256) -> (refresh_buckets pick rand_id rpc buckets e).1 = true.
Proof.
  revert e. induction buckets as [|b buckets IH]; intros e Hb; [done|].
  cbn [refresh_buckets]. mstep.
  destruct (random_id_in_bucket_spec (rand_id e).1 (id (my_contact rpc)) b) as (t & -> & _); [set_solver|].
  mstep. apply IH. set_solver.
Qed.

(** A join that gets past the seed, step by step. *)
Lemma bootstrap_run seed seed_id (e e1 e2 e3 : Env A W) contacts :
  ping rpc seed e = (Some seed_id, e1) -> seed_id <> id (my_contact rpc) ->
  offer_contact (MkContact seed_id seed) e1 = (tt, e2) ->
  lookup_node pick rpc (id (my_contact rpc)) e2 = (contacts, e3) ->
  exists buckets, bootstrap pick rand_id rpc seed e =
    (Some (Ok contacts), (refresh_buckets pick rand_id rpc buckets e3).2).
Proof.
  intros Hping Hne Hoffer Hlookup. unfold bootstrap. rewrite (bind_run _ _ _ _ _ Hping), bool_decide_false by done.
  rewrite (bind_run _ _ _ _ _ Hoffer), (bind_run _ _ _ _ _ Hlookup). clear Hlookup.
  destruct contacts as [|c contacts]; [by exists []|]. cbv zeta.
  set (buckets := seq 0 _). exists buckets.
  assert ((refresh_buckets pick rand_id rpc buckets e3).1 = true) as Hfine.
  { apply refresh_buckets_fine. intros b Hb%elem_of_seq.
    pose proof (leading_zeros_le (xor_distance (id c) (id (my_contact rpc)))). lia. }
  rewrite bind_eq, Hfine. done.
Qed.

(** How a join ends, case by case. *)
Lemma bootstrap_cases seed (e : Env A W) :
  (bootstrap pick rand_id rpc seed e).1 = Some
    match (ping rpc seed e).1 with
    | None => Err Unreachable
    | Some seed_id =>
        if bool_decide (seed_id = id (my_contact rpc)) then Err SelfSeed
        else Ok (lookup_node pick rpc (id (my_contact rpc))
                   (offer_contact (MkContact seed_id seed) (ping rpc seed e).2).2).1
    end.
Proof.
  destruct (ping rpc seed e) as [[seed_id|] e1] eqn:Hping; cbn [fst snd].
  2: { unfold bootstrap. by rewrite (bind_run _ _ _ _ _ Hping). }
  case_bool_decide as Hme.
  { unfold bootstrap. by rewrite (bind_run _ _ _ _ _ Hping), bool_decide_true. }
  destruct (offer_contact (MkContact seed_id seed) e1) as [[] e2] eqn:Hoffer. cbn [fst snd].
  destruct (lookup_node pick rpc (id (my_contact rpc)) e2) as [contacts e3] eqn:Hlookup.
  by destruct (bootstrap_run seed seed_id e e1 e2 e3 contacts Hping Hme Hoffer Hlookup) as (buckets & ->).
Qed.
End joining.
