(* ===== verification/Joining.v ===== *)
(** * Joining: a network builds itself

    What [bootstrap] ([src/bootstrap.rs]) does for a network of the program's own
    nodes that is small enough for every table to hold everyone: a newcomer that
    joins through any member ends up knowing all of them, and known to all of them,
    while they go on serving each other.  So nodes that join one after the other
    build the network of which [Society] says what it achieves. *)

From S2P Require Import Prelude Slices Machine Contacts StaticBucket SiblingList Cache Progress.
From S2P Require Import Crates Text Package Wire Stream HandleRpc Rpc Lookup Converge Society Bootstrap.

#[local] Opaque K.

(** ** Tables *)

Section tables.
Context (population : gset NodeId) (home_of : NodeId -> SocketAddr).
Abbreviation resident := (resident population home_of).

(** The table of the node [j] names residents only, and so do the answers it
    has cached. *)
Record sociable (j : NodeId) (a : RecommendedCloseNodes) : Prop := {
  so_inv : sl_inv (inner a);
  so_me : sl_my_id (inner a) = j;
  so_fallback : sb_my_id (sl_fallback (inner a)) = j;
  so_known c : c ∈ contacts_iter (inner a) -> resident c;
  so_cached t e c : entries a !! t = Some e -> c ∈ e_contacts e -> resident c /\ id c <> j
}.

(** The node [i] is among the siblings and in its bucket. *)
Definition acquainted (a : RecommendedCloseNodes) (i : NodeId) : Prop :=
  (exists c, c ∈ sl_siblings (inner a) /\ id c = i) /\
  exists c, c ∈ bucket (sl_fallback (inner a)) (bucket_index (sl_fallback (inner a)) i) /\ id c = i.

(** [l] names [i]. *)
Definition names (l : list Contact) (i : NodeId) : Prop := exists c, c ∈ l /\ id c = i.

(** What is cached for the key [t] names [i]. *)
Definition recalls (t : NodeId) (a : RecommendedCloseNodes) (i : NodeId) : Prop :=
  forall e, entries a !! t = Some e -> names (e_contacts e) i.

(** Everyone fits into a sibling list, a bucket and an answer. *)
Context (small : size population <= S K).

(** [K] distinct others are all the others. *)
Lemma crowd j l i :
  j ∈ population -> NoDup (id <$> l) -> (forall c, c ∈ l -> resident c /\ id c <> j) -> K <= length l ->
  i ∈ population -> i <> j -> names l i.
Proof using small.
  intros Hj Hnd Hl Hlen Hi Hne.
  assert (list_to_set (id <$> l) ⊆ population ∖ {[j]}) as Hsub.
  { intros x (c & -> & Hc)%elem_of_list_to_set%list_elem_of_fmap. destruct (Hl c Hc) as [[Hp _] Hcj].
    by apply elem_of_difference; rewrite elem_of_singleton. }
  assert (size (population ∖ {[j]}) <= size (list_to_set (id <$> l) : gset NodeId)) as Hsz.
  { rewrite size_list_to_set, length_fmap by done. rewrite size_difference by set_solver.
    rewrite size_singleton. lia. }
  assert (i ∈ (list_to_set (id <$> l) : gset NodeId)) as Hin.
  { rewrite (set_subseteq_size_eq _ _ Hsub Hsz). by apply elem_of_difference; rewrite elem_of_singleton. }
  apply elem_of_list_to_set, list_elem_of_fmap in Hin as (c & -> & Hc). by exists c.
Qed.

Lemma sociable_sibling j a c : sociable j a -> c ∈ sl_siblings (inner a) -> resident c /\ id c <> j.
Proof.
  intros Ha Hc. split; [apply (so_known _ _ Ha); rewrite sibling_iter; apply elem_of_app; by left|].
  rewrite <- (so_me _ _ Ha). by apply (sl_not_me _ (so_inv _ _ Ha)).
Qed.

Lemma sociable_bucket j a c : sociable j a -> c ∈ contacts_iter (sl_fallback (inner a)) -> resident c /\ id c <> j.
Proof.
  intros Ha Hc. split; [apply (so_known _ _ Ha); rewrite sibling_iter; apply elem_of_app; by right|].
  apply elem_of_buckets in Hc as (i & Hc). rewrite <- (so_fallback _ _ Ha).
  by apply (sb_not_me _ (sl_fallback_inv _ (so_inv _ _ Ha)) _ _ Hc).
Qed.

(** *** Learning a contact *)

Lemma add_entries c (a : RecommendedCloseNodes) : entries (maybe_add_contact c a) = entries a.
Proof.
  cbn [maybe_add_contact Recommended_CloseNodes CachedCloseNodes_CloseNodes].
  unfold cached_maybe_add_contact. by destruct (invalidate_on_write _).
Qed.

Lemma add_inner c (a : RecommendedCloseNodes) :
  inner (maybe_add_contact c a) = maybe_add_contact c (inner a).
Proof.
  cbn [maybe_add_contact Recommended_CloseNodes CachedCloseNodes_CloseNodes].
  unfold cached_maybe_add_contact. by destruct (invalidate_on_write _).
Qed.

Lemma sociable_add j c a : resident c -> sociable j a -> sociable j (maybe_add_contact c a).
Proof.
  intros Hc [Hinv Hme Hfb Hk He]. split; rewrite ?add_inner, ?add_entries; [by apply sibling_add_inv|..].
  - cbn. unfold sibling_maybe_add_contact. by case_bool_decide.
  - cbn. unfold sibling_maybe_add_contact. case_bool_decide; [done|]. cbn.
    unfold static_maybe_add_contact. by case_bool_decide.
  - intros x [->|Hx]%cn_add_iter; [done|by apply Hk].
  - intros t e x. rewrite ?add_entries. apply He.
Qed.

(** Nobody has to leave: the sibling list takes in whoever is offered and keeps
    whoever is there, and so does each bucket. *)
Lemma siblings_add j c a i :
  j ∈ population -> resident c -> id c <> j -> sociable j a ->
  i = id c \/ names (sl_siblings (inner a)) i -> names (sl_siblings (inner (maybe_add_contact c a))) i.
Proof using small.
  intros Hj Hc Hne Ha Hi. pose proof (sociable_add j c a Hc Ha) as Ha'.
  pose proof (sl_sorted _ (so_inv _ _ Ha')) as Hsort. rewrite (so_me _ _ Ha') in Hsort.
  assert (forall x, x ∈ sl_siblings (inner (maybe_add_contact c a)) -> resident x /\ id x <> j) as Hout
    by (intros x; by apply sociable_sibling).
  revert Hsort Hout. rewrite add_inner. cbn [maybe_add_contact SiblingList_CloseNodes]. unfold sibling_maybe_add_contact.
  rewrite (so_me _ _ Ha), bool_decide_false by done. cbn [sl_siblings].
  pose proof (sl_sorted _ (so_inv _ _ Ha)) as Hold. rewrite (so_me _ _ Ha) in Hold.
  rewrite offer_sibling_spec by (try apply (sl_bounded _ (so_inv _ _ Ha)); done).
  set (l := sl_siblings (inner a)) in *. intros Hsort Hout.
  assert (exists x, x ∈ upsert j l c /\ id x = i) as (x & Hx & <-).
  { destruct (decide (i = id c)) as [->|Hic]; [exists c; split; [apply upsert_new|done]|].
    destruct Hi as [?|(x & Hx & <-)]; [done|]. exists x. split; [by apply upsert_other|done]. }
  assert (resident x /\ id x <> j) as [[Hxp _] Hxj].
  { apply upsert_elem_of in Hx as [->|Hx]; [done|by apply (sociable_sibling j a)]. }
  rewrite <- (take_drop SIBLINGS (upsert j l c)) in Hx. apply elem_of_app in Hx as [Hx|Hx]; [by exists x|].
  apply (crowd j); [done|by apply (sorted_ids j)|done| |done|done].
  apply list_elem_of_lookup in Hx as [k Hk]. rewrite lookup_drop in Hk. apply lookup_lt_Some in Hk.
  rewrite length_take. change SIBLINGS with K in *. lia.
Qed.

Lemma bucket_add j c a i :
  j ∈ population -> resident c -> id c <> j -> sociable j a ->
  let fb := sl_fallback (inner a) in let fb' := sl_fallback (inner (maybe_add_contact c a)) in
  i = id c \/ names (bucket fb (bucket_index fb i)) i -> names (bucket fb' (bucket_index fb' i)) i.
Proof using small.
  intros Hj Hc Hne Ha fb fb' Hi. subst fb'. pose proof (sociable_add j c a Hc Ha) as Ha'.
  assert (forall k x, x ∈ bucket (sl_fallback (inner (maybe_add_contact c a))) k -> resident x /\ id x <> j) as Hout.
  { intros k x Hx. apply (sociable_bucket j (maybe_add_contact c a)); [done|]. apply elem_of_buckets. by exists k. }
  pose proof (sb_ids _ (sl_fallback_inv _ (so_inv _ _ Ha'))) as Hids.
  pose proof (sl_fallback_inv _ (so_inv _ _ Ha)) as Hinv. fold fb in Hinv.
  revert Hout Hids. rewrite add_inner. cbn [maybe_add_contact SiblingList_CloseNodes]. unfold sibling_maybe_add_contact.
  rewrite (so_me _ _ Ha), bool_decide_false by done.
  cbn [sl_fallback maybe_add_contact StaticBucket_CloseNodes]. unfold static_maybe_add_contact. fold fb.
  rewrite bool_decide_false by (intros E; apply Hne; rewrite E; apply (so_fallback _ _ Ha)).
  set (k := bucket_index fb (id c)). set (fb' := MkStatic _ _). intros Hout Hids.
  change (bucket_index fb' i) with (bucket_index fb i).
  assert (forall n, bucket fb' n = if decide (k = n /\ k < length (sb_contacts fb)) then offer K c (bucket fb k) else bucket fb n) as Hb
    by (intros n; apply bucket_insert).
  destruct (decide (i = id c)) as [->|Hic].
  - fold k. assert (k < length (sb_contacts fb)) as Hk
      by (rewrite (sb_len _ Hinv); apply bucket_index_lt, (sb_max _ Hinv)).
    assert (bucket fb' k = offer K c (bucket fb k)) as Heq by (rewrite Hb; by rewrite decide_True).
    destruct (offer_covers K c (bucket fb k) (sb_bounded _ Hinv k)) as [(y & Hy & Hid)|Hfull]; rewrite <- Heq in *; [by exists y|].
    apply (crowd j); [done|apply Hids|apply Hout|lia|apply Hc|done].
  - destruct Hi as [?|(x & Hx & Hid)]; [done|]. rewrite Hb. destruct (decide _) as [[E _]|_]; [|by exists x].
    rewrite <- E in Hx. destruct (offer_keeps_id K c (bucket fb k) x Hx) as (y & Hy & Hyx). exists y. by rewrite Hyx.
Qed.

Lemma acquainted_add j c a i :
  j ∈ population -> resident c -> sociable j a -> acquainted a i -> acquainted (maybe_add_contact c a) i.
Proof using small.
  intros Hj Hc Ha [Hs Hb]. destruct (decide (id c = j)) as [Hcj|Hne].
  - unfold acquainted. rewrite add_inner. cbn [maybe_add_contact SiblingList_CloseNodes].
    unfold sibling_maybe_add_contact. by rewrite (so_me _ _ Ha), bool_decide_true.
  - split; [apply (siblings_add j)|apply (bucket_add j)]; auto.
Qed.

Lemma acquainted_new j c a :
  j ∈ population -> resident c -> id c <> j -> sociable j a -> acquainted (maybe_add_contact c a) (id c).
Proof using small. intros Hj Hc Hne Ha. split; [apply (siblings_add j)|apply (bucket_add j)]; auto. Qed.

(** *** Answering a query *)

Lemma inner_query now u (a : RecommendedCloseNodes) :
  close_nodes now u (inner a) = ((close_nodes now u (inner a)).1, inner a).
Proof. rewrite <- (pure_state now u (inner a)) at 3. apply surjective_pairing. Qed.

Lemma query_cases now u (a : RecommendedCloseNodes) :
  inner (close_nodes now u a).2 = inner a /\
  ((exists e, entries a !! u = Some e /\ (close_nodes now u a).1 = e_contacts e) \/
   (close_nodes now u a).1 = (close_nodes now u (inner a)).1) /\
  forall t e, entries (close_nodes now u a).2 !! t = Some e ->
    entries a !! t = Some e \/ (t = u /\ e_contacts e = (close_nodes now u (inner a)).1).
Proof.
  pose proof (inner_query now u a) as Hq. change (close_nodes now u a) with (cached_close_nodes now u a).
  unfold RecommendedCloseNodes in *.
  destruct (cached_query_cases now u a) as [(e & He & _ & ->)|(-> & Hin & _ & _ & _ & Hent)].
  - cbn [fst snd]. split; [done|]. split; [left; by exists e|by left].
  - rewrite Hin, Hq. split; [done|]. split; [by right|]. intros t e [?|[-> ->]]%Hent; [by left|by right].
Qed.

Lemma inner_answer now u j a c : sociable j a -> c ∈ (close_nodes now u (inner a)).1 -> resident c /\ id c <> j.
Proof.
  intros Ha. cbn [close_nodes SiblingList_CloseNodes]. rewrite sibling_query_eq.
  intros Hc. eapply closest_elem_of in Hc; [|apply _|apply same_id_spec].
  apply elem_of_app in Hc as [Hc|Hc]; [|by apply (sociable_sibling j a)].
  apply (sociable_bucket j a); [done|]. by apply (bucket_out now u _ (sl_fallback_inv _ (so_inv _ _ Ha))).
Qed.

(** Everyone acquainted is named. *)
Lemma inner_complete now u j a i :
  j ∈ population -> i ∈ population -> i <> j -> sociable j a -> acquainted a i -> names (close_nodes now u (inner a)).1 i.
Proof using small.
  intros Hj Hi Hne Ha [(c & Hc & <-) _].
  pose proof (fun x => inner_answer now u j a x Ha) as Hout. revert Hout.
  cbn [close_nodes SiblingList_CloseNodes]. rewrite sibling_query_eq. set (l := _ ++ _). intros Hout.
  destruct (closest_to_selection u l c) as [(y & Hy & Hid)|[Hl _]]; [apply elem_of_app; by right|by exists y|].
  apply (crowd j); [done|apply closest_to_NoDup|exact Hout|by rewrite Hl|done|done].
Qed.

Lemma sociable_query now u j a :
  sociable j a -> sociable j (close_nodes now u a).2 /\ forall c, c ∈ (close_nodes now u a).1 -> resident c /\ id c <> j.
Proof.
  intros Ha. destruct (query_cases now u a) as (Hin & Hout & Hent). split.
  - destruct Ha as [Hinv Hme Hfb Hk He]. split; rewrite ?Hin; [done..|].
    intros t e c [Ht|[-> ->]]%Hent; [by eapply He|]. by apply (inner_answer now u j a).
  - intros c. destruct Hout as [(e & He & ->)| ->]; [by eapply (so_cached _ _ Ha)|by apply inner_answer].
Qed.

Lemma acquainted_query now u a i : acquainted a i -> acquainted (close_nodes now u a).2 i.
Proof. destruct (query_cases now u a) as (Hin & _). unfold acquainted. by rewrite Hin. Qed.

Lemma recalls_query now u t j a i :
  j ∈ population -> i ∈ population -> i <> j -> sociable j a -> acquainted a i -> recalls t a i ->
  recalls t (close_nodes now u a).2 i /\ names (close_nodes now t a).1 i.
Proof using small.
  intros Hj Hi Hne Ha Hai Hr. destruct (query_cases now u a) as (_ & _ & Hent).
  destruct (query_cases now t a) as (_ & Hout & _). split.
  - intros e [He|[-> ->]]%Hent; [by apply Hr|by apply (inner_complete now u j)].
  - destruct Hout as [(e & He & ->)| ->]; [by apply Hr|by apply (inner_complete now t j)].
Qed.

Lemma recalls_add t c a i : recalls t a i -> recalls t (maybe_add_contact c a) i.
Proof. unfold recalls. by rewrite add_entries. Qed.
End tables.

(** ** The nodes of a network that is being joined *)

Section joining.
Context `{Sha256} `{Ed25519} `{CodecLaws} `{Hex} {W D : Type} `{Clock W} `{!DnsData D}.
Abbreviation node := (Context RecommendedCloseNodes D).
Context (peers : W -> gmap SocketAddr node).
Context (population : gset NodeId) (home_of : NodeId -> SocketAddr) (permitted : gmap SocketAddr node -> bytes -> Prop).
Abbreviation resident := (resident population home_of).
Abbreviation sociable := (sociable population home_of).
Abbreviation closed := (closed population home_of permitted).
Abbreviation net := (net population home_of).

(** Who knows whom. *)
Implicit Types known recalled : NodeId -> NodeId -> Prop.

(** The table of [j] is sociable; it holds whom [known] says, and whom [recalled]
    says also in what it has cached for [topic]. *)
Record table_ok (topic : NodeId) recalled known (j : NodeId) (a : RecommendedCloseNodes) : Prop := {
  to_sociable : sociable j a;
  to_knows i : i ∈ population -> i <> j -> known j i -> acquainted a i;
  to_recalls i : i ∈ population -> i <> j -> recalled j i -> acquainted a i /\ recalls topic a i
}.

Definition neighbour (topic : NodeId) recalled known (j : NodeId) (c : node) : Prop :=
  my_id c = j /\ table_ok topic recalled known j (ctx_nodes c).

Context (small : size population <= S K).

Lemma table_ok_add topic recalled known j c a :
  j ∈ population -> resident c -> table_ok topic recalled known j a ->
  table_ok topic recalled (fun x i => known x i \/ (x = j /\ i = id c)) j (maybe_add_contact c a).
Proof using small.
  intros Hj Hc [Hs Hk Hr]. split; [by apply sociable_add|..].
  - intros i Hi Hne [?|[_ ->]]; [|by apply (acquainted_new population home_of small j)].
    apply (acquainted_add population home_of small j); auto.
  - intros i Hi Hne Hri. destruct (Hr i Hi Hne Hri) as [? ?]. split; [|by apply recalls_add].
    by apply (acquainted_add population home_of small j).
Qed.

Lemma table_ok_weaken topic recalled known known' j a :
  (forall i, i ∈ population -> i <> j -> known' j i -> known j i) ->
  table_ok topic recalled known j a -> table_ok topic recalled known' j a.
Proof. intros Hk [? Hk' ?]. split; auto. Qed.

Lemma table_ok_query topic recalled known now u j a :
  j ∈ population -> table_ok topic recalled known j a -> table_ok topic recalled known j (close_nodes now u a).2.
Proof using small.
  intros Hj [Hs Hk Hr]. split; [by apply sociable_query|..].
  - intros i Hi Hne Hki. apply acquainted_query; auto.
  - intros i Hi Hne Hri. destruct (Hr i Hi Hne Hri) as [? ?]. split; [by apply acquainted_query|].
    by eapply (recalls_query population home_of small now u topic j).
Qed.

Lemma neighbour_handle topic recalled known now method q j c :
  j ∈ population -> neighbour topic recalled known j c -> neighbour topic recalled known j (handle now method q c).2.
Proof using small H2.
  intros Hj [Hid Ht]. destruct method; cbn [handle].
  - done.
  - destruct (store_handle_effect (fun _ _ => True) ltac:(done) c q) as (Hn & Hi & _). by split; rewrite ?Hn, ?Hi.
  - unfold find_node_handle. destruct (deserialize q); [|done]. mstep. split; [done|]. cbn. by apply table_ok_query.
  - unfold find_value_handle. destruct (deserialize q) as [k|]; [|done]. mstep. cbn [gets fst snd].
    destruct (ctx_values c !! k); [done|]. mstep. split; [done|]. cbn. by apply table_ok_query.
Qed.

Lemma neighbour_add topic recalled known j x c :
  j ∈ population -> resident x -> neighbour topic recalled known j c ->
  neighbour topic recalled (fun y i => known y i \/ (y = j /\ i = id x)) j (set_table (maybe_add_contact x (ctx_nodes c)) c).
Proof using small. intros Hj Hx [Hid Ht]. split; [done|]. by apply table_ok_add. Qed.

Lemma neighbour_weaken topic recalled known known' j c :
  (forall i, i ∈ population -> i <> j -> known' j i -> known j i) ->
  neighbour topic recalled known j c -> neighbour topic recalled known' j c.
Proof. intros Hk [? ?]. split; [done|]. by eapply table_ok_weaken. Qed.

Lemma neighbour_learning topic recalled known from reachable sender j c :
  (reachable = true -> sender ∈ population /\ from = home_of sender) -> j ∈ population ->
  neighbour topic recalled known j c ->
  neighbour topic recalled (fun y i => known y i \/ (reachable = true /\ y = j /\ i = sender)) j
    (after_learning from reachable sender c).
Proof using small.
  intros Hs Hj Hc. destruct reachable.
  - destruct (Hs eq_refl) as [Hin ->]. eapply neighbour_weaken; [|by apply (neighbour_add topic recalled known j (MkContact sender (home_of sender)))].
    cbn. intros i _ _ [?|(_ & ? & ?)]; auto.
  - eapply neighbour_weaken; [|exact Hc]. by intros i _ _ [?|(? & _)].
Qed.

(** Nobody forgets. *)
Lemma neighbour_closed topic recalled known : closed (neighbour topic recalled known).
Proof using small H2.
  intros m j c c' Hj _ Hc [now r Hr|now key|x Hx|domain].
  - destruct (dispatch_cases now r c) as [[-> _]|(sender & method & q & Hp & ->)]; [done|].
    destruct (Hr _ _ _ Hp) as [Hs _]. cbn [snd]. apply neighbour_handle; [done|].
    eapply neighbour_weaken; [|by apply neighbour_learning]. by left.
  - destruct Hc. split; [done|]. by apply table_ok_query.
  - eapply neighbour_weaken; [|by apply neighbour_add]. by left.
  - exact Hc.
Qed.

(** ** The newcomer's calls *)

Context (contacts_total : forall l : list Contact, is_Some (serialize l)).
Context (keys_total : forall k : Key, is_Some (serialize k)).
Context (home_inj : forall i j, i ∈ population -> j ∈ population -> home_of i = home_of j -> i = j).
Context (homes_plain : forall j, j ∈ population -> plain (home_of j)).
Context (pick : W -> nat) (rpc : Rpc RecommendedCloseNodes W).
Context (client : participant peers population home_of permitted rpc).
Abbreviation env := (Env RecommendedCloseNodes W).
Abbreviation swarm := (swarm peers rpc).

(** The others know each other, and say so to whoever asks for the newcomer. *)
Definition elders (j i : NodeId) : Prop := j <> me rpc /\ i <> me rpc.

Definition party known (e : env) : Prop := net (neighbour (me rpc) elders known) (swarm e).

Lemma party_weaken known known' e :
  (forall j i, i ∈ population -> i <> j -> known' j i -> known j i) -> party known e -> party known' e.
Proof.
  intros Hk Hm j Hj. destruct (Hm j Hj) as (c & Hc & Hn). exists c. split; [done|].
  eapply neighbour_weaken; [|exact Hn]. intros i. apply Hk.
Qed.

Lemma party_log known e e' : party known e -> table e' = table e -> world e' = world e -> party known e'.
Proof using home_inj client.
  intros Hm Ht Hw. eapply net_local; [done|done|exact Hm|done|done|]. intros c Hc Hn. rewrite Ht, <- Hc. by destruct c.
Qed.

Lemma party_table known e : party known e -> table_ok (me rpc) elders known (me rpc) (table e).
Proof using client.
  intros Hm. destruct (Hm (me rpc) (pa_in _ _ _ _ _ client)) as (c & Hc & _ & Ht). unfold Society.swarm in Hc.
  rewrite (pa_home _ _ _ _ _ client), lookup_alter_eq in Hc. destruct (peers (world e) !! home_of (me rpc)); [|done].
  by injection Hc as <-.
Qed.

Lemma party_offer known x e :
  party known e -> resident x -> party (fun j i => known j i \/ (j = me rpc /\ i = id x)) (offer_contact x e).2.
Proof using home_inj client small.
  intros Hm Hx. eapply net_local; [done|done|exact Hm|done|..].
  - intros i c Hne Hc. eapply neighbour_weaken; [|exact Hc]. by intros y _ _ [?|[? _]].
  - intros c Hc Hn. cbn [offer_contact on_table modify table snd]. rewrite <- Hc.
    by apply neighbour_add; [apply (pa_in _ _ _ _ _ client)|..].
Qed.

Lemma party_offers known l e :
  party known e -> (forall x, x ∈ l -> resident x) ->
  party (fun j i => known j i \/ (j = me rpc /\ names l i)) (for_each l offer_contact e).2.
Proof using home_inj client small.
  revert known e. induction l as [|x l IH]; intros known e Hm Hl.
  - eapply party_weaken; [|exact Hm]. intros j i _ _ [?|(_ & c & Hc & _)]; [done|by apply not_elem_of_nil in Hc].
  - cbn [for_each]. mstep. eapply party_weaken; [|apply IH; [apply (party_offer known x); [done|apply Hl; by left]|]].
    + cbv beta. intros j i _ _ [?|(-> & c & [->|Hc]%elem_of_cons & <-)]; [by do 2 left|left; by right|].
      right. split; [done|]. by exists c.
    + intros y Hy. apply Hl. by right.
Qed.

Lemma party_query known t e : party known e -> party known (query_table t e).2.
Proof using home_inj client small.
  intros Hm. eapply net_local; [done|done|exact Hm|done|done|]. intros c Hc [Hid Ht].
  split; [done|]. change (ctx_nodes (set_table _ c)) with (close_nodes (clock (world e)) t (table e)).2. rewrite <- Hc.
  apply table_ok_query; [apply (pa_in _ _ _ _ _ client)|exact Ht].
Qed.

(** Asked for anything, a node learns the newcomer; asked for the newcomer, it
    names everyone else. *)
Lemma party_find_node known t c e :
  party known e -> resident c -> id c <> me rpc ->
  let r := find_node rpc c t e in
  party (fun j i => known j i \/ (j = id c /\ i = me rpc)) r.2 /\ (forall x, x ∈ r.1 -> resident x) /\
  (t = me rpc -> forall i, i ∈ population -> i <> me rpc -> i <> id c -> names r.1 i).
Proof using home_inj homes_plain client small contacts_total keys_total H2.
  intros Hm [Hc Ha] Hne r. subst r. destruct (keys_total t) as [q Hq].
  destruct (call_served peers population home_of permitted home_inj _ rpc (transport rpc) true FindNode q (id c) (Some c) e
    (neighbour_closed (me rpc) elders known) client (pa_datagrams _ _ _ _ _ client) Hm Hc)
    as (now & from & c1 & Hn & Hfrom & Hcall). cbv zeta in Hcall. rewrite (Hfrom eq_refl) in Hcall.
  pose proof (neighbour_learning (me rpc) elders known (home_of (me rpc)) true (me rpc) (id c) c1
    (fun _ => conj (pa_in _ _ _ _ _ client) eq_refl) Hc Hn) as Hn'.
  set (c2 := after_learning _ _ _ c1) in *. set (known' := fun j i => known j i \/ (j = id c /\ i = me rpc)).
  assert (neighbour (me rpc) elders known' (id c) c2) as Hn2.
  { eapply neighbour_weaken; [|exact Hn']. intros i _ _ [?|[? ?]]; auto. }
  pose proof (neighbour_handle (me rpc) elders known' now FindNode q (id c) c2 Hc Hn2) as Hn3.
  cbn [handle] in *. unfold find_node_handle in *. rewrite (deserialize_serialize _ _ Hq), bind_eq, ret_eq in *.
  cbn [on_nodes fst snd] in *.
  destruct (contacts_total (close_nodes now t (ctx_nodes c2)).1) as [reply Hreply]. rewrite Hreply in Hcall.
  destruct (Hcall ltac:(by right)) as [Hout Hnet]. unfold find_node, find_node_encode_request. rewrite Hq, Ha.
  rewrite bind_eq, Hout, ret_eq. cbn [fst snd]. unfold find_node_decode_reply. rewrite (laws_contacts _ _ Hreply).
  destruct Hn2 as [_ [Hs _ Hr]]. cbn [default].
  rewrite (residents_sent population home_of homes_plain)
    by (intros x Hx; by apply (sociable_query population home_of now t (id c) (ctx_nodes c2)) in Hx as [? _]).
  split_and!.
  - apply Hnet; [by apply neighbour_closed| |exact Hn3].
    intros i x Hic. apply neighbour_weaken. by intros y _ _ [?|[? _]].
  - intros x Hx. by apply (sociable_query population home_of now t (id c) (ctx_nodes c2)) in Hx as [? _].
  - intros -> i Hi Him Hic. destruct (Hr i Hi Hic (conj Hne Him)) as [Hac Hrec].
    by apply (recalls_query population home_of small now (me rpc) (me rpc) (id c) (ctx_nodes c2) i).
Qed.

Lemma party_ping known s e :
  party known e -> s ∈ population -> (ping rpc (home_of s) e).1 = Some s /\ party known (ping rpc (home_of s) e).2.
Proof using home_inj client small keys_total H2.
  intros Hm Hs.
  destruct (call_served peers population home_of permitted home_inj _ rpc (transport rpc) true Ping [] s None e
    (neighbour_closed (me rpc) elders known) client (pa_datagrams _ _ _ _ _ client) Hm Hs)
    as (now & from & c1 & Hn & Hfrom & Hcall). cbv zeta in Hcall. rewrite (Hfrom eq_refl) in Hcall.
  pose proof (neighbour_learning (me rpc) elders known (home_of (me rpc)) true (me rpc) s c1
    (fun _ => conj (pa_in _ _ _ _ _ client) eq_refl) Hs Hn) as Hn'.
  cbn [handle] in Hcall. unfold ping_handle in Hcall. cbn [gets fst snd] in Hcall.
  rewrite (proj1 Hn') in Hcall. destruct (keys_total s) as [reply Hreply].
  destruct (Hcall ltac:(right; by rewrite Hreply)) as [Hout Hnet]. unfold ping. rewrite bind_eq, Hout, ret_eq. cbn [fst snd].
  rewrite Hreply. cbn [mbind option_bind]. unfold ping_decode_reply. split; [by apply deserialize_serialize|].
  apply Hnet; [by apply neighbour_closed|done|]. eapply neighbour_weaken; [|exact Hn']. by left.
Qed.

(** ** The newcomer's lookups *)

(** After what the lookup has done so far: the newcomer knows whom it has heard
    of, and whoever has answered knows the newcomer. *)
Definition met known (s : Lookup) (j i : NodeId) : Prop :=
  known j i \/ (j = me rpc /\ names (heard s) i) \/ (i = me rpc /\ j ∈ queried s /\ ~ names (in_flight s) j).

(** Besides, when it looks for itself, whoever has answered has named everyone. *)
Record meeting (t : NodeId) known (base : list Contact) (s : Lookup) (e : env) : Prop := {
  mt_party : party (met known s) e;
  mt_residents c : c ∈ base ++ heard s ++ in_flight s -> resident c /\ id c <> me rpc;
  mt_told i : t = me rpc -> i ∈ queried s -> names (in_flight s) i \/
    forall i', i' ∈ population -> i' <> me rpc -> i' <> i -> names (heard s) i'
}.

Lemma names_app l l' i : names (l ++ l') i <-> names l i \/ names l' i.
Proof. unfold names. set_solver. Qed.

Lemma meeting_top_up t known lookup_id base s e :
  linv t base s -> meeting t known base s e ->
  let r := top_up rpc lookup_id (ALPHA - length (in_flight s)) s e in meeting t known base r.1 r.2.
Proof using home_inj homes_plain client small contacts_total keys_total H2.
  intros Hi [Hp Hm Ht] r.
  destruct (top_up_spec rpc lookup_id (ALPHA - length (in_flight s)) s e) as (Htu & Htable & Hworld).
  fold r in Htu, Htable, Hworld. pose proof (candidates_known _ _ _ Hi) as Hk.
  destruct Htu as [_ Hh (st & Hf & Hq & _ & _ & _ & Hsub & _)]. split.
  - apply (party_log _ e); [|done|done]. eapply party_weaken; [|exact Hp]. unfold met.
    rewrite Hh, Hf, Hq. intros j i _ _ [?|[?|(-> & Hj & Hno)]]; [by left|by right; left|right; right].
    rewrite names_app in Hno. apply elem_of_union in Hj as [Hj%elem_of_ids|Hj]; [|tauto]. by destruct Hno; right.
  - rewrite Hh, Hf. intros c Hc.
    assert (c ∈ base ++ heard s ++ in_flight s \/ c ∈ st) as [?|Hst%Hsub%Hk] by set_solver; apply Hm; set_solver.
  - intros i Hme. rewrite Hq, Hh, Hf, names_app. intros [Hj%elem_of_ids|Hj]%elem_of_union; [by left; right|].
    destruct (Ht i Hme Hj); auto.
Qed.

Lemma meeting_round t known lookup_id base s e :
  linv t base s -> meeting t known base s e ->
  let r := lookup_round pick rpc t lookup_id s e in
  match r.1 with inl s' | inr s' => meeting t known base s' r.2 end.
Proof using home_inj homes_plain client small contacts_total keys_total H2.
  intros Hi Has. pose proof (meeting_top_up t known lookup_id base s e Hi Has) as Htop. cbv zeta in Htop |- *.
  unfold lookup_round. mstep. set (r1 := top_up _ _ _ _ e) in *.
  destruct (take_next_spec pick (in_flight r1.1) r1.2) as [He2 Hnext].
  destruct (take_next pick (in_flight r1.1) r1.2) as [[[peer still]|] e2]; cbn [fst snd] in *; subst e2; mstep; [|done].
  destruct Hnext as (a & b & Hf & ->). destruct Htop as [Hp Hm Ht]. rewrite Hf in Hm, Ht.
  destruct (Hm peer) as [Hpeer Hpm]; [set_solver|].
  destruct (party_find_node _ t peer r1.2 Hp Hpeer Hpm) as (Hp' & Hres & Htold).
  set (r2 := find_node rpc peer t r1.2) in *. cbn [fst snd].
  assert (forall c, c ∈ not_me rpc r2.1 -> resident c /\ id c <> me rpc) as Hnew.
  { intros c [Hne Hin]%list_elem_of_filter. split; [by apply Hres|done]. }
  assert (forall i, names (a ++ peer :: b) i <-> i = id peer \/ names (a ++ b) i) as Hall.
  { intros i. unfold names. set_solver. }
  split; cbn [heard in_flight queried].
  - eapply party_weaken; [|apply party_offers; [exact Hp'|intros x Hx; by apply Hnew]]. unfold met. rewrite Hf.
    cbn [heard in_flight queried]. intros j i _ _ [?|[[-> Hh]|(-> & Hq & Hno)]]; [by left; left; left|..].
    + apply names_app in Hh as [Hh|Hh]; [left; left; right; by left|by right].
    + left. destruct (decide (j = id peer)) as [->|Hne]; [by right|left; right; right].
      split; [done|]. split; [done|]. rewrite Hall. naive_solver.
  - intros c Hc.
    assert (c ∈ base ++ heard r1.1 ++ a ++ peer :: b \/ c ∈ not_me rpc r2.1) as [?|?] by set_solver; auto.
  - intros i Hme Hq. destruct (decide (i = id peer)) as [->|Hne].
    + right. intros i' Hi' Him Hne'. apply names_app. right.
      destruct (Htold Hme i' Hi' Him Hne') as (c & Hc & <-). exists c. split; [|done]. by apply list_elem_of_filter.
    + destruct (Ht i Hme Hq) as [Hfl|Hh]; [left|right].
      * apply Hall in Hfl. naive_solver.
      * intros i' ? ? ?. apply names_app. left. auto.
Qed.

(** What a lookup of the newcomer comes to. *)
Lemma meeting_lookup t known e :
  party known e ->
  let base := take K (sort_by_distance t (close_nodes (clock (world e)) t (table e)).1) in
  exists s, settled t base s /\ meeting t known base s (lookup_node pick rpc t e).2 /\
    (lookup_node pick rpc t e).1 = candidates s.
Proof using home_inj homes_plain client small contacts_total keys_total H2.
  intros Hp base.
  assert (exists s, (lookup_run pick rpc t e).1.2 = inr s /\ settled t base s /\
    meeting t known base s (lookup_run pick rpc t e).2) as (s & Hrun & Hset & Hmeet).
  { destruct (lookup_run_from pick rpc t e) as (lookup_id & e1 & Ht1 & Hw1 & -> & ->). fold base.
    apply (lookup_loop_settles_with pick rpc t lookup_id (meeting t known base) (meeting t known base)).
    - intros x e' Hx Hq. pose proof (meeting_round t known lookup_id base x e' Hx Hq) as Hr. cbv zeta in Hr.
      by destruct (lookup_round pick rpc t lookup_id x e').1.
    - apply linv_begin.
    - split; cbn [lookup_begin heard in_flight queried].
      + apply party_query, (party_log _ e); [|done|done]. eapply party_weaken; [|exact Hp].
        intros j i _ _ [?|[(_ & c & Hc & _)|(_ & Hc & _)]]; cbn in *; [done|set_solver|set_solver].
      + intros c Hc. rewrite !app_nil_r in Hc. unfold base in Hc. apply elem_of_take in Hc as (k & Hk & _).
        apply list_elem_of_lookup_2, elem_of_sort_by in Hk.
        destruct (party_table known e Hp) as [Hs _ _].
        by apply (sociable_query population home_of (clock (world e)) t (me rpc) (table e)) in Hk.
      + set_solver. }
  exists s. destruct (lookup_node_run pick rpc t e s Hrun) as (Hout & Htable & Hworld).
  split; [done|]. split; [|done]. destruct Hmeet as [Hp' Hm Ht]. split; [|done|done]. by eapply party_log.
Qed.

(** Everyone knows everyone. *)
Definition acquaintance : NodeId -> NodeId -> Prop := fun _ _ => True.

Lemma party_all known e :
  (forall j i, j ∈ population -> i ∈ population -> i <> j -> j = me rpc \/ i = me rpc -> known j i) ->
  party known e -> party acquaintance e.
Proof.
  intros Hk Hm j Hj. destruct (Hm j Hj) as (c & Hc & Hid & [Hs Hkn Hr]). exists c. split; [done|]. split; [done|].
  split; [done| |done]. intros i Hi Hne _. destruct (decide (j = me rpc \/ i = me rpc)); [by apply Hkn; auto|].
  apply Hr; [done|done|]. split; tauto.
Qed.

(** A lookup keeps everyone it has heard of. *)
Lemma settled_names t known base s e i :
  settled t base s -> meeting t known base s e -> names (base ++ heard s) i -> names (candidates s) i.
Proof using home_inj homes_plain client small contacts_total keys_total H2.
  intros Hset Hmeet (c & Hc & <-). rewrite (settled_closest _ _ _ Hset).
  assert (forall x, x ∈ base ++ heard s -> resident x /\ id x <> me rpc) as Hall.
  { intros x Hx. apply (mt_residents _ _ _ _ _ Hmeet). set_solver. }
  destruct (closest_to_selection t (base ++ heard s) c Hc) as [(y & Hy & Hid)|[Hl _]]; [by exists y|].
  destruct (Hall c Hc) as [[Hcp _] Hcm].
  apply (crowd population home_of small (me rpc)); [apply (pa_in _ _ _ _ _ client)|apply closest_to_NoDup| |by rewrite Hl|done|done].
  intros x Hx. apply Hall. by eapply closest_elem_of in Hx; [|apply _|apply same_id_spec].
Qed.

Lemma begin_names t l c : c ∈ l -> exists p, names (take K (sort_by_distance t l)) p.
Proof.
  intros Hc. destruct (take K (sort_by_distance t l)) as [|b l'] eqn:E; [exfalso|exists (id b), b; split; [by left|done]].
  apply (f_equal length) in E. unfold sort_by_distance in E. rewrite length_take, sort_by_length in E.
  pose proof K_two. destruct l; [by apply not_elem_of_nil in Hc|]. simpl in E. lia.
Qed.

(** The newcomer's lookup for itself, once it knows somebody. *)
Lemma self_lookup known seed e :
  party known e -> seed ∈ population -> seed <> me rpc -> known (me rpc) seed -> entries (table e) !! me rpc = None ->
  let r := lookup_node pick rpc (me rpc) e in
  party acquaintance r.2 /\ forall i, names r.1 i <-> i ∈ population /\ i <> me rpc.
Proof using home_inj homes_plain client small contacts_total keys_total H2.
  intros Hp Hseed Hne Hks Hfresh r. subst r.
  destruct (meeting_lookup (me rpc) known e Hp) as (s & Hset & Hmeet & ->).
  set (now := clock (world e)) in *. set (base := take K _) in *.
  assert (exists p, names base p) as (p & Hp0).
  { destruct (party_table known e Hp) as [Hs Hk _].
    assert (names (close_nodes now (me rpc) (table e)).1 seed) as (c & Hc & _).
    { destruct (query_cases now (me rpc) (table e)) as (_ & [(x & Hx & _)| ->] & _); [congruence|].
      apply (inner_complete population home_of small now (me rpc) (me rpc)); [apply (pa_in _ _ _ _ _ client)|done..|]. by apply Hk. }
    by apply (begin_names (me rpc) _ c). }
  pose proof (fun i => settled_names (me rpc) known base s _ i Hset Hmeet) as Hkeep.
  assert (forall i, names (candidates s) i -> i ∈ queried s /\
    forall i', i' ∈ population -> i' <> me rpc -> i' <> i -> names (heard s) i') as Htold.
  { intros i (c & Hc & <-). pose proof (se_queried _ _ _ Hset c Hc) as Hq. split; [done|].
    destruct (mt_told _ _ _ _ _ Hmeet (id c) eq_refl Hq) as [(x & Hx & _)|?]; [|done].
    rewrite (se_flight _ _ _ Hset) in Hx. by apply not_elem_of_nil in Hx. }
  assert (forall i, i ∈ population -> i <> me rpc -> names (candidates s) i) as Hall.
  { intros i Hi Him. apply Hkeep, names_app. destruct (decide (i = p)) as [->|Hip]; [by left|right].
    apply (Htold p); [apply Hkeep, names_app; by left|done..]. }
  split.
  - destruct Hmeet as [Hparty _ _]. eapply party_all; [|exact Hparty]. intros j i Hj Hi Hij [->| ->].
    + destruct (decide (i = seed)) as [->|Hs]; [by left|]. right; left. split; [done|].
      by apply (Htold seed); [apply Hall|..].
    + right; right. split; [done|]. split; [by apply Htold, Hall|].
      rewrite (se_flight _ _ _ Hset). intros (x & Hx & _). by apply not_elem_of_nil in Hx.
  - intros i. split; [|intros [? ?]; by apply Hall]. intros (c & Hc & <-).
    destruct (mt_residents _ _ _ _ _ Hmeet c) as [[? _] ?]; [|done].
    apply (candidates_known _ _ _ (se_inv _ _ _ Hset)) in Hc. rewrite app_assoc. apply elem_of_app. by left.
Qed.

(** ** Joining *)

Context (rand_id : M env NodeId) (draws : forall e, swarm (rand_id e).2 = swarm e).

Lemma party_lookup known t e : party known e -> party known (lookup_node pick rpc t e).2.
Proof using home_inj homes_plain client small contacts_total keys_total H2.
  intros Hp. destruct (meeting_lookup t known e Hp) as (s & _ & [Hp' _ _] & _).
  eapply party_weaken; [|exact Hp']. by left.
Qed.

Lemma party_refresh known buckets e : party known e -> party known (refresh_buckets pick rand_id rpc buckets e).2.
Proof using home_inj homes_plain client small contacts_total keys_total draws H2.
  revert e. induction buckets as [|b buckets IH]; intros e Hp; [done|]. cbn [refresh_buckets]. rewrite bind_eq.
  assert (party known (rand_id e).2) as Hp' by (unfold party; by rewrite draws).
  destruct (random_id_in_bucket _ _ _); [|done]. rewrite bind_eq. by apply IH, party_lookup.
Qed.

Lemma bootstrap_party seed e :
  party (fun _ _ => False) e -> seed ∈ population -> seed <> me rpc ->
  entries (table (ping rpc (home_of seed) e).2) !! me rpc = None ->
  let r := bootstrap pick rand_id rpc (home_of seed) e in
  (exists contacts, r.1 = Some (Ok contacts) /\ forall i, names contacts i <-> i ∈ population /\ i <> me rpc) /\
  party acquaintance r.2.
Proof using home_inj homes_plain client small contacts_total keys_total draws H2.
  intros Hp Hseed Hne Hfresh. destruct (party_ping _ seed e Hp Hseed) as [Hping Hp1].
  destruct (ping rpc (home_of seed) e) as [seed_id e1] eqn:Hrun1. cbn [fst snd] in *. subst seed_id.
  pose proof (party_offer _ (MkContact seed (home_of seed)) e1 Hp1 (conj Hseed eq_refl)) as Hp2.
  assert (entries (table (offer_contact (MkContact seed (home_of seed)) e1).2) !! me rpc = None) as Hf2.
  { change (table (offer_contact ?x e1).2) with (maybe_add_contact x (table e1)). by rewrite add_entries. }
  destruct (offer_contact (MkContact seed (home_of seed)) e1) as [[] e2] eqn:Hrun2. cbn [fst snd] in *.
  destruct (self_lookup _ seed e2 Hp2 Hseed Hne ltac:(by right) Hf2) as [Hp3 Hall].
  destruct (lookup_node pick rpc (me rpc) e2) as [contacts e3] eqn:Hrun3. cbn [fst snd] in *.
  destruct (bootstrap_run pick rand_id rpc (home_of seed) seed e e1 e2 e3 contacts Hrun1 Hne Hrun2 Hrun3)
    as (buckets & ->). cbn [fst snd]. split; [by exists contacts|by apply party_refresh].
Qed.
End joining.

(** ** Networks that were joined *)

Section assembling.
Context `{Sha256} `{Ed25519} `{CodecLaws} `{Hex} {W D : Type} `{Clock W} `{!DnsData D}.
Abbreviation node := (Context RecommendedCloseNodes D).
Context (peers : W -> gmap SocketAddr node) (home_of : NodeId -> SocketAddr).
Context (permitted : gmap SocketAddr node -> bytes -> Prop).
Implicit Types (P : gset NodeId) (m : gmap SocketAddr node).

(** Of the node [j]: it knows all the others, and only them. *)
Definition knows_all P (j : NodeId) (c : node) : Prop :=
  my_id c = j /\ sociable P home_of j (ctx_nodes c) /\
  forall i, i ∈ P -> i <> j -> acquainted (ctx_nodes c) i.

Definition complete P m : Prop := net P home_of (knows_all P) m.

(** A node as [Node::new] makes it. *)
Definition newborn (j : NodeId) (c : node) : Prop := my_id c = j /\ ctx_nodes c = recommended j.

(** Nobody has asked the node for the key. *)
Definition unasked (key : Key) (a : RecommendedCloseNodes) : Prop := entries a !! key = None.

(** The nodes of [P] came together: the first is alone; the others joined one
    after the other, each through some member, by [bootstrap], under an id that
    nobody had looked for before; and all of them go on serving each other. *)
Inductive assembled : gset NodeId -> gmap SocketAddr node -> Prop :=
  | assembled_first j c m : m !! home_of j = Some c -> newborn j c -> assembled {[j]} m
  | assembled_serve P m m' : assembled P m -> rtc (meanwhile P home_of permitted) m m' -> assembled P m'
  | assembled_join P m (rpc : Rpc RecommendedCloseNodes W) (pick : W -> nat)
      (rand_id : M (Env RecommendedCloseNodes W) NodeId) seed c e :
      let P' := {[me rpc]} ∪ P in
      assembled P m -> me rpc ∉ P -> seed ∈ P -> newborn (me rpc) c ->
      participant peers P' home_of permitted rpc ->
      (forall e, swarm peers rpc (rand_id e).2 = swarm peers rpc e) ->
      net P home_of (fun _ c => unasked (me rpc) (ctx_nodes c)) m ->
      swarm peers rpc e = <[home_of (me rpc) := c]> m ->
      unasked (me rpc) (table (ping rpc (home_of seed) e).2) ->
      assembled P' (swarm peers rpc (bootstrap pick rand_id rpc (home_of seed) e).2).

Lemma sociable_mono P P' j a : P ⊆ P' -> sociable P home_of j a -> sociable P' home_of j a.
Proof.
  intros Hsub [Hinv Hme Hfb Hk He].
  assert (forall c, Society.resident P home_of c -> Society.resident P' home_of c) as Hres by (intros c [? ?]; split; auto).
  split; [done..|by intros c Hc; apply Hres, Hk|]. intros t x c Ht Hc. destruct (He t x c Ht Hc). auto.
Qed.

Lemma sociable_newborn P j : sociable P home_of j (recommended j).
Proof.
  destruct (recommended_offered j []) as (Hi & He & _). destruct (offered_me j []) as [Hme Hfb]. cbn [foldl] in *.
  split; rewrite ?Hi; [apply offered_inv|done|done|..].
  - intros c Hc%(offered_known home_of). by apply not_elem_of_nil in Hc.
  - intros t x c Ht. rewrite He in Ht. by rewrite lookup_empty in Ht.
Qed.

(** A complete network is one in which nobody is new. *)
Lemma complete_neighbours topic P m :
  complete P m <-> net P home_of (neighbour P home_of topic (fun _ _ => False) acquaintance) m.
Proof.
  split; intros Hm j Hj; destruct (Hm j Hj) as (c & Hc & Hn); exists c; (split; [done|]).
  - destruct Hn as (Hid & Hs & Hk). split; [done|]. split; [done|intros i Hi Hne _; by apply Hk|done].
  - destruct Hn as (Hid & [Hs Hk _]). split; [done|]. split; [done|]. intros i Hi Hne. by apply Hk.
Qed.

Context (contacts_total : forall l : list Contact, is_Some (serialize l)).
Context (keys_total : forall k : Key, is_Some (serialize k)).

(** Joining takes a complete network to a complete one. *)
Lemma bootstrap_complete P m (rpc : Rpc RecommendedCloseNodes W) pick rand_id seed c e :
  let P' := {[me rpc]} ∪ P in
  size P' <= S K -> (forall i j, i ∈ P' -> j ∈ P' -> home_of i = home_of j -> i = j) ->
  (forall j, j ∈ P' -> plain (home_of j)) -> complete P m -> me rpc ∉ P -> seed ∈ P -> newborn (me rpc) c ->
  participant peers P' home_of permitted rpc ->
  (forall e, swarm peers rpc (rand_id e).2 = swarm peers rpc e) ->
  net P home_of (fun _ c => unasked (me rpc) (ctx_nodes c)) m ->
  swarm peers rpc e = <[home_of (me rpc) := c]> m ->
  unasked (me rpc) (table (ping rpc (home_of seed) e).2) ->
  let r := bootstrap pick rand_id rpc (home_of seed) e in
  (exists contacts, r.1 = Some (Ok contacts) /\ forall i, names contacts i <-> i ∈ P) /\
  complete P' (swarm peers rpc r.2).
Proof using contacts_total keys_total H2.
  intros P' Hsmall Hinj Hplain Hm Hnew Hseed [Hid Htable] Hpart Hdraws Hun Hswarm Hfresh r. subst r.
  assert (seed ∈ P') as HseedP by (subst P'; set_solver).
  assert (seed <> me rpc) as Hne by (by intros ->).
  assert (party peers P' home_of rpc (fun _ _ => False) e) as Hparty.
  { unfold party. rewrite Hswarm. intros j Hj. destruct (decide (j = me rpc)) as [->|Hjn].
    - rewrite lookup_insert_eq. exists c. split; [done|]. split; [done|]. rewrite Htable.
      split; [apply sociable_newborn|done|]. by intros i _ _ [? _].
    - assert (j ∈ P) as HjP by (subst P'; set_solver). rewrite lookup_insert_ne by (intros E; apply Hjn; symmetry; by apply Hinj; [subst P'; set_solver|..]).
      destruct (Hm j HjP) as (cj & Hcj & Hidj & Hs & Hk). destruct (Hun j HjP) as (cj' & Hcj' & Hunj).
      rewrite Hcj in Hcj'. injection Hcj' as <-. exists cj. split; [done|]. split; [done|].
      split; [by apply (sociable_mono P); [subst P'; set_solver|]|done|].
      intros i Hi Hij [_ Hin]. split; [apply Hk; [subst P'; set_solver|done]|]. intros x. by rewrite Hunj. }
  destruct (bootstrap_party peers P' home_of permitted Hsmall contacts_total keys_total Hinj Hplain pick rpc Hpart rand_id Hdraws
    seed e Hparty HseedP Hne Hfresh) as [(contacts & Hout & Hnames) Hp']. split.
  - exists contacts. split; [done|]. intros i. rewrite Hnames. subst P'. set_solver.
  - intros j Hj. destruct (Hp' j Hj) as (cj & Hcj & Hidj & [Hs Hk _]). exists cj. split; [done|]. split; [done|].
    split; [done|]. intros i Hi Hij. by apply Hk.
Qed.

Lemma assembled_complete P m :
  assembled P m -> size P <= S K -> (forall i j, i ∈ P -> j ∈ P -> home_of i = home_of j -> i = j) ->
  (forall j, j ∈ P -> plain (home_of j)) -> complete P m.
Proof using contacts_total keys_total H2.
  induction 1 as [j c m Hc [Hid Htable]|P m m' _ IH Hserve|P m rpc pick rand_id seed c e P' _ IH Hnew Hseed Hc Hpart Hdraws Hun Hswarm Hfresh];
    intros Hsmall Hinj Hplain.
  - intros i ->%elem_of_singleton. exists c. split; [done|]. split; [done|]. rewrite Htable.
    split; [apply sociable_newborn|]. by intros i ->%elem_of_singleton.
  - intros j0 Hj0. assert (complete P m') as Hall; [|by apply Hall]. apply (complete_neighbours j0). eapply net_meanwhile; [done|by apply neighbour_closed|exact Hserve|].
    by apply complete_neighbours, IH.
  - assert (P ⊆ P') as Hsub by (subst P'; set_solver). eapply bootstrap_complete; [done|done|done| |done..].
    apply IH; [|intros i j Hi Hj; apply Hinj; auto|auto]. apply subseteq_size in Hsub. lia.
Qed.

(** *** What a complete network is good for *)

(** A complete network is one in which every node knows its part of it, for keys
    that nobody has a stale answer for. *)
Lemma complete_network P keys (Q : NodeId -> gmap Key Value -> D -> Prop) m :
  complete P m ->
  net P home_of (fun j c => (forall k, keys k -> unasked k (ctx_nodes c)) /\ Q j (ctx_values c) (ctx_dns c)) m ->
  network P home_of keys Q m.
Proof.
  intros Hm HQ j Hj. destruct (Hm j Hj) as (c & Hc & Hid & Hs & Hk). destruct (HQ j Hj) as (c' & Hc' & Hun & Hq).
  rewrite Hc in Hc'. injection Hc' as <-. exists c. split; [done|]. split; [|done]. split.
  - intros key g Hkey Hg Hne. split; [|apply (so_me _ _ _ _ Hs)|intros x; by rewrite (Hun key Hkey)].
    split; rewrite ?(so_me _ _ _ _ Hs).
    + apply (so_inv _ _ _ _ Hs).
    + apply (so_fallback _ _ _ _ Hs).
    + intros x Hx. by apply resident_belongs, (so_known _ _ _ _ Hs).
    + intros i Hi Hij. pose proof Hi as Hi'. apply elem_of_others in Hi' as [Hi' _].
      destruct (Hk i Hi' Hij) as [_ (x & Hx & Hxi)]. exists x. by rewrite Hxi.
    + intros i Hi Hij. left. apply (Hk i); [by apply (elem_of_all P g)|done].
  - intros key x Hkey Hx. by rewrite (Hun key Hkey) in Hx.
Qed.

Lemma small_uncrowded P key g : size P <= S K -> g ∈ P -> uncrowded (others P g) g key.
Proof.
  intros Hs Hg p _ _. transitivity (size P); [|done]. apply subseteq_size. intros i. unfold sharing.
  intros [_ Hi]%elem_of_filter. by apply (elem_of_all P g).
Qed.

Lemma two_company P j : 2 <= size P -> exists g, g ∈ P /\ g <> j.
Proof.
  intros Hs. destruct (decide (P ∖ {[j]} = ∅)) as [He|(g & [Hg Hn]%elem_of_difference)%set_choose_L].
  - exfalso. assert (P ⊆ {[j]}) as Hsub%subseteq_size; [|rewrite size_singleton in Hsub; lia].
    intros x Hx. apply elem_of_singleton. destruct (decide (x = j)) as [|Hne]; [done|exfalso].
    assert (x ∈ P ∖ {[j]}) as Hin by (apply elem_of_difference; by rewrite elem_of_singleton).
    rewrite He in Hin. by apply not_elem_of_empty in Hin.
  - exists g. by rewrite elem_of_singleton in Hn.
Qed.
End assembling.
