(* ===== verification/Registry.v ===== *)
(** * Registry: publishing, installing and listing packages

    Models [src/registry.rs] and the two entry points of
    [src/version_chain.rs] that fetch a history through the DHT ([load_chain],
    [load_chain_from_pointer]).  The theorems: what [prepare_publication] builds
    on a verified history is a proof every node accepts; what [install_package]
    returns is the blob its owner signed for that version. *)

From S2P Require Import Prelude Slices Machine Contacts Crates Text Package VersionChain Wire HandleRpc Rpc Lookup.
From Stdlib Require Import Strings.Ascii.

Inductive PublishError : Type :=
  | VersionNotNewer
  | PreviousNotFound
  | PreviousNotLatest
  | WrongPackageHistory
  | EncodingFailed
  | PubNoDnsKey
  | WrongSigningKey
  | InvalidExistingHistory (e : ChainError)
  | BlobNotStored
  | RecordNotStored
  | PointerNotStored.

#[export] Instance PublishError_eq_dec : EqDecision PublishError.
Proof. solve_decision. Defined.

Record PreparedPublication : Type := MkPrepared {
  pp_blob : bytes;
  pp_record : Signed VersionRecord;
  pp_pointer : Signed LatestPointer;
  pp_proof : list (Signed VersionRecord)
}.

Record PublishReceipt : Type := MkReceipt {
  blob_key : Key;
  rec_key : Key;
  lat_key : Key;
  blob_accepted : nat;
  record_accepted : nat;
  latest_accepted : nat
}.

Inductive InstallError : Type :=
  | InvalidHistory (e : ChainError)
  | VersionNotFound (v : Version)
  | BlobUnavailable (k : Key).

#[export] Instance InstallError_eq_dec : EqDecision InstallError.
Proof. solve_decision. Defined.

Record InstalledPackage : Type := MkInstalled {
  ip_version : Version;
  ip_blob_key : Key;
  ip_blob : bytes
}.

Record PublishedVersion : Type := MkPublished {
  pv_version : Version;
  pv_blob_key : Key;
  pv_is_latest : bool
}.

Section prepare.
Context `{Sha256} `{Ed25519} `{Codec}.

Definition has_version (v : Version) (r : Signed VersionRecord) : bool :=
  bool_decide (vr_version (body r) = v).

(** The record to continue from: the requested one, or the newest. *)
Definition previous_index (existing : list (Signed VersionRecord)) (previous : option Version)
    : result PublishError (option nat) :=
  match previous with
  | Some requested =>
      i ← ok_or PreviousNotFound (position (has_version requested) existing); Ok (Some i)
  | None => match existing with [] => Ok None | _ :: _ => Ok (Some 0) end
  end.

(** Without [force], a publication continues the newest version upwards. *)
Definition check_continues (existing : list (Signed VersionRecord)) (version : Version)
    (index : option nat) (force : bool) : result PublishError unit :=
  if force then Ok tt else
  match existing with
  | [] => Ok tt
  | head :: _ =>
      if version_le version (vr_version (body head)) then Err VersionNotNewer
      else if bool_decide (index <> Some 0) then Err PreviousNotLatest else Ok tt
  end.

(** [existing[index]] cannot be out of range: see [previous_index_lookup]. *)
Definition prev_hash (existing : list (Signed VersionRecord)) (index : option nat)
    : result PublishError Key :=
  match index with
  | Some i => ok_or EncodingFailed (existing !! i ≫= record_key)
  | None => Ok (array_repeat 32 x00)
  end.

Definition prepare_publication (domain package : string) (version : Version) (blob : bytes)
    (signer : SigningKey) (existing : list (Signed VersionRecord)) (previous : option Version)
    (force : bool) : result PublishError PreparedPublication :=
  if existsb (fun r => negb (in_package domain package r)) existing then Err WrongPackageHistory else
  index ← previous_index existing previous;
  _ ← check_continues existing version index force;
  prev ← prev_hash existing index;
  record ← ok_or EncodingFailed
    (sign (MkVersionRecord VERSION_RECORD_TAG domain package version (key_for_value blob) prev) signer);
  hash ← ok_or EncodingFailed (record_key record);
  pointer ← ok_or EncodingFailed
    (sign (MkLatestPointer LATEST_POINTER_TAG domain package version hash) signer);
  let proof := record :: match index with Some i => drop i existing | None => [] end in
  Ok (MkPrepared blob record pointer proof).
End prepare.

Section registry.
Context `{Sha256} `{Ed25519} `{Codec} `{Hex} {A W : Type} `{CloseNodes A} `{Clock W}.
Context (pick : W -> nat) (rpc : Rpc A W) (dns : string -> M (Env A W) (option VerifyingKey)).

(** [|key| lookup::lookup_value(rpc, key).await.map(|(_, bytes)| bytes)]. *)
Definition fetch_record (key : Key) : M (Env A W) (option bytes) :=
  found ← lookup_value pick rpc key;
  mret (snd <$> found).

Definition load_chain_from_pointer (pointer : Signed LatestPointer)
    : M (Env A W) (result ChainError (list (Signed VersionRecord))) :=
  owner ← dns (lp_domain (body pointer));
  match owner with
  | None => mret (Err NoDnsKey)
  | Some owner =>
      walk_chain pointer owner (lp_domain (body pointer)) (lp_package (body pointer)) fetch_record
  end.

Definition load_chain (domain package : string)
    : M (Env A W) (result ChainError (list (Signed VersionRecord))) :=
  owner ← dns domain;
  match owner with
  | None => mret (Err NoDnsKey)
  | Some owner =>
      latest ← get_latest pick rpc dns domain package;
      match latest with
      | None => mret (Err NoLatestPointer)
      | Some latest => walk_chain latest owner domain package fetch_record
      end
  end.

(** [signer.verifying_key() == dns key], unless forced. *)
Definition check_signer (domain : string) (signer : SigningKey) (force : bool)
    : M (Env A W) (result PublishError unit) :=
  if force then mret (Ok tt) else
  owner ← dns domain;
  mret (match owner with
        | None => Err PubNoDnsKey
        | Some owner => if bool_decide (verifying_key signer <> owner) then Err WrongSigningKey else Ok tt
        end).

Definition existing_history (domain package : string)
    : M (Env A W) (result PublishError (list (Signed VersionRecord))) :=
  latest ← get_latest pick rpc dns domain package;
  match latest with
  | Some pointer =>
      chain ← load_chain_from_pointer pointer;
      mret (map_err InvalidExistingHistory chain)
  | None => mret (Ok [])
  end.

(** Store blob, record and pointer, in this order. *)
Definition store_publication (prepared : PreparedPublication)
    : M (Env A W) (result PublishError PublishReceipt) :=
  blob ← store_value_with_proof pick rpc (Blob (pp_blob prepared)) [];
  if bool_decide (blob.2 = 0) then mret (Err BlobNotStored) else
  match serialize (pp_record prepared) with
  | None => mret (Err EncodingFailed)
  | Some record_bytes =>
      record ← store_value_with_proof pick rpc (Blob record_bytes) [];
      if bool_decide (record.2 = 0) then mret (Err RecordNotStored) else
      latest ← store_value_with_proof pick rpc (Latest (pp_pointer prepared)) (pp_proof prepared);
      if bool_decide (latest.2 = 0) then mret (Err PointerNotStored) else
      mret (Ok (MkReceipt blob.1 record.1 latest.1 blob.2 record.2 latest.2))
  end.

Definition publish_package (domain package : string) (version : Version) (blob : bytes)
    (signer : SigningKey) (previous : option Version) (force : bool)
    : M (Env A W) (result PublishError PublishReceipt) :=
  allowed ← check_signer domain signer force;
  match allowed with
  | Err e => mret (Err e)
  | Ok _ =>
      existing ← existing_history domain package;
      match existing with
      | Err e => mret (Err e)
      | Ok existing =>
          match prepare_publication domain package version blob signer existing previous force with
          | Err e => mret (Err e)
          | Ok prepared => store_publication prepared
          end
      end
  end.

(** The record of the requested version, the newest by default. *)
Definition choose_record (history : list (Signed VersionRecord)) (requested : option Version)
    : result InstallError (Signed VersionRecord) :=
  match requested with
  | Some version => ok_or (VersionNotFound version) (find (has_version version) history)
  | None => ok_or (InvalidHistory EmptyChain) (head history)
  end.

Definition install_package (domain package : string) (requested_version : option Version)
    : M (Env A W) (result InstallError InstalledPackage) :=
  loaded ← load_chain domain package;
  match loaded with
  | Err e => mret (Err (InvalidHistory e))
  | Ok history =>
      match choose_record history requested_version with
      | Err e => mret (Err e)
      | Ok record =>
          let blob_key := vr_blob_hash (body record) in
          found ← lookup_value pick rpc blob_key;
          mret (match found with
                | None => Err (BlobUnavailable blob_key)
                | Some (_, blob) => Ok (MkInstalled (vr_version (body record)) blob_key blob)
                end)
      end
  end.

Definition show_package (domain package : string)
    : M (Env A W) (result ChainError (list PublishedVersion)) :=
  loaded ← load_chain domain package;
  mret (history ← loaded;
        Ok (imap (fun index record =>
              MkPublished (vr_version (body record)) (vr_blob_hash (body record)) (index =? 0)) history)).
End registry.

(** ** Preparing a publication *)

Section prepared.
Context `{Sha256} `{Ed25519Laws} `{CodecLaws}.

Lemma previous_index_lookup existing previous i :
  previous_index existing previous = Ok (Some i) -> is_Some (existing !! i).
Proof.
  unfold previous_index. destruct previous as [v|].
  - unfold position. destruct (list_find _ existing) as [[j r]|] eqn:E; simpl; [|done].
    intros [= <-]. apply list_find_Some in E as (-> & _). done.
  - destruct existing; [done|]. by intros [= <-].
Qed.

(** What an unforced publication consists of. *)
Lemma prepare_Ok d p v blob signer existing previous pub :
  prepare_publication d p v blob signer existing previous false = Ok pub ->
  pp_blob pub = blob /\ pp_proof pub = pp_record pub :: existing /\
  verify (pp_record pub) (verifying_key signer) = true /\
  verify (pp_pointer pub) (verifying_key signer) = true /\
  (exists prev,
    body (pp_record pub) = MkVersionRecord VERSION_RECORD_TAG d p v (key_for_value blob) prev /\
    match existing with
    | [] => prev = END_OF_CHAIN
    | h :: _ => record_key h = Some prev /\ version_lt (vr_version (body h)) v = true
    end) /\
  exists hash, record_key (pp_record pub) = Some hash /\
    body (pp_pointer pub) = MkLatestPointer LATEST_POINTER_TAG d p v hash.
Proof.
  unfold prepare_publication. destruct (existsb _ _); [done|].
  destruct (previous_index existing previous) as [index|] eqn:Hi; cbn [mbind result_bind ok_or]; [|done].
  destruct (check_continues existing v index false) as [[]|] eqn:Hc; cbn [mbind result_bind ok_or]; [|done].
  destruct (prev_hash existing index) as [prev|] eqn:Hp; cbn [mbind result_bind ok_or]; [|done].
  destruct (sign _ signer) as [record|] eqn:Hr; cbn [mbind result_bind ok_or]; [|done].
  destruct (record_key record) as [hash|] eqn:Hk; cbn [mbind result_bind ok_or]; [|done].
  destruct (sign (MkLatestPointer LATEST_POINTER_TAG d p v hash) signer) as [pointer|] eqn:Hl; cbn [mbind result_bind ok_or]; [|done].
      intros [= <-]; cbn [pp_blob pp_record pp_pointer pp_proof].
  assert (match existing with
    | [] => index = None /\ prev = END_OF_CHAIN
    | h :: _ => index = Some 0 /\ record_key h = Some prev /\ version_lt (vr_version (body h)) v = true
    end) as Hex.
  { unfold check_continues in Hc. destruct existing as [|h rest].
    - destruct index as [i|]; [|by injection Hp as <-].
      by destruct (previous_index_lookup _ _ _ Hi) as [? ?].
    - destruct (version_le v _) eqn:Hle; [done|]. apply version_le_false in Hle.
      case_bool_decide as H0'; [done|]. subst index. cbn in Hp.
      destruct (record_key h); cbn in Hp; [|done]. by injection Hp as <-. }
  assert (match index with Some i => drop i existing | None => [] end = existing) as ->.
  { destruct existing; [by destruct Hex as [-> _]|]. by destruct Hex as [-> _]. }
  split_and!; try done.
  - by eapply sign_verifies.
  - by eapply sign_verifies.
  - exists prev. split; [by eapply sign_body|]. destruct existing; naive_solver.
  - exists hash. split; [done|]. by eapply sign_body.
Qed.

(** Continuing a verified history, it is the pointer's verified history. *)
Lemma prepare_verified d p v blob signer existing previous pub k :
  prepare_publication d p v blob signer existing previous false = Ok pub ->
  contains_char ":"%char d = false ->
  existing = [] \/ history (verifying_key signer) d p k existing /\ k <> END_OF_CHAIN ->
  record_key (pp_record pub) <> Some END_OF_CHAIN ->
  verified (pp_pointer pub) (verifying_key signer) (pp_proof pub).
Proof.
  intros (_ & Hproof & Hvr & Hvp & (prev & Hb & Hprev) & hash & Hk & Hbp)%prepare_Ok Hcolon Hex Hne.
  assert (record_ok (verifying_key signer) d p hash (pp_record pub)) as Hok
    by (unfold record_ok; rewrite Hb; done).
  unfold verified, pointer_ok, latest_is_valid. rewrite Hbp. cbn.
  rewrite bool_decide_true, Hcolon, Hvp by done. cbn. rewrite Hproof. split_and!; try done.
  - intros ->. congruence.
  - destruct existing as [|h rest].
    + constructor; [done|]. by rewrite Hb.
    + destruct Hex as [?|[Hh Hk0]]; [done|]. destruct Hprev as [Hkh Hlt].
      pose proof (history_head _ _ _ _ _ Hh) as (r0 & rest0 & [= <- <-] & (Hk0' & _)).
      assert (prev = k) as -> by congruence.
      constructor; rewrite ?Hb; done.
  - cbn. by rewrite Hb.
Qed.

(** And every node accepts it as a proof. *)
Lemma prepare_validates d p v blob signer existing previous pub k :
  prepare_publication d p v blob signer existing previous false = Ok pub ->
  contains_char ":"%char d = false ->
  existing = [] \/ history (verifying_key signer) d p k existing /\ k <> END_OF_CHAIN ->
  NoDup (record_key <$> pp_proof pub) -> record_key (pp_record pub) <> Some END_OF_CHAIN ->
  length (pp_proof pub) <= MAX_CHAIN_LENGTH ->
  validate_chain_proof (pp_pointer pub) (verifying_key signer) (pp_proof pub) = Ok (pp_proof pub).
Proof.
  intros Hprep Hcolon Hex Hnd Hne Hlen.
  destruct (prepare_verified _ _ _ _ _ _ _ _ _ Hprep Hcolon Hex Hne) as (Hp & Hh & Hv).
  by apply validate_complete.
Qed.

(** It continues the pointer whose history it was built on. *)
Lemma prepare_continues d p v blob signer h rest previous pub old :
  prepare_publication d p v blob signer (h :: rest) previous false = Ok pub ->
  record_key h = Some (lp_version_record_hash (body old)) ->
  vr_version (body h) = lp_version (body old) ->
  continues_previous old (pp_pointer pub) (pp_proof pub) = true.
Proof.
  intros (_ & Hproof & _ & _ & (prev & Hb & Hk & Hlt) & hash & _ & Hbp)%prepare_Ok Hh Hv.
  apply continues_previous_spec. right. rewrite Hbp. cbn. split; [by rewrite <- Hv|].
  exists h. rewrite Hproof. split; [set_solver|done].
Qed.
End prepared.

(** ** Loading, installing, listing *)

Section loaded.
Context `{Sha256} `{Ed25519} `{Codec} `{Hex} {A W : Type} `{CloseNodes A} `{Clock W}.
Context (pick : W -> nat) (rpc : Rpc A W) (dns : string -> M (Env A W) (option VerifyingKey)).

(** A loaded history is a verified one, under the key DNS gave. *)
Lemma load_chain_sound domain package (e : Env A W) chain :
  (load_chain pick rpc dns domain package e).1 = Ok chain ->
  exists owner latest, (dns domain e).1 = Some owner /\
    pointer_ok latest owner domain package /\
    history owner domain package (lp_version_record_hash (body latest)) chain /\
    (vr_version ∘ body <$> head chain) = Some (lp_version (body latest)).
Proof.
  unfold load_chain. mstep. destruct (dns domain e).1 as [owner|]; [|done]. mstep.
  destruct (get_latest pick rpc dns domain package _).1 as [latest|]; [|done].
  match goal with |- (walk_chain ?a ?b ?d ?p ?f ?s).1 = _ -> _ =>
    destruct (walk_chain a b d p f s) as [r s'] eqn:Hw end.
  cbn. intros ->. apply walk_chain_sound in Hw as (Hp & Hh & Hv & _). eauto 10.
Qed.

Lemma load_from_pointer_sound pointer (e : Env A W) chain :
  (load_chain_from_pointer pick rpc dns pointer e).1 = Ok chain ->
  exists owner, (dns (lp_domain (body pointer)) e).1 = Some owner /\ verified pointer owner chain.
Proof.
  unfold load_chain_from_pointer. mstep.
  destruct (dns (lp_domain (body pointer)) e).1 as [owner|]; [|done].
  match goal with |- (walk_chain ?a ?b ?d ?p ?f ?s).1 = _ -> _ =>
    destruct (walk_chain a b d p f s) as [r s'] eqn:Hw end.
  cbn. intros ->. apply walk_chain_sound in Hw as (Hp & Hh & Hv & _).
  exists owner. split; [done|]. split; [|done]. done.
Qed.

Lemma choose_record_Ok history requested r :
  choose_record history requested = Ok r ->
  r ∈ history /\ match requested with
                 | Some v => vr_version (body r) = v
                 | None => head history = Some r
                 end.
Proof.
  unfold choose_record. destruct requested as [v|].
  - destruct (find (has_version v) history) as [r'|] eqn:E; simpl; [|done]. intros [= ->].
    apply find_some in E as [Hin Hv]. apply list_elem_of_In in Hin. split; [done|].
    unfold has_version in Hv. by brefl.
  - destruct history as [|h rest]; simpl; [done|]. intros [= ->]. split; [by left|done].
Qed.

(** An installed package is the blob the domain's owner signed for that
    version of that package. *)
Lemma install_sound domain package requested (e : Env A W) inst :
  (install_package pick rpc dns domain package requested e).1 = Ok inst ->
  exists owner r, (dns domain e).1 = Some owner /\ verify r owner = true /\
    vr_tag (body r) = VERSION_RECORD_TAG /\ vr_domain (body r) = domain /\
    vr_package (body r) = package /\ vr_version (body r) = ip_version inst /\
    vr_blob_hash (body r) = key_for_value (ip_blob inst) /\
    match requested with
    | Some v => ip_version inst = v
    | None => exists latest, latest_is_valid latest owner = true /\
        lp_domain (body latest) = domain /\ lp_package (body latest) = package /\
        lp_version (body latest) = ip_version inst
    end.
Proof.
  unfold install_package. mstep.
  destruct (load_chain pick rpc dns domain package e).1 as [chain|err] eqn:Hl; [|done].
  apply load_chain_sound in Hl as (owner & latest & Hd & (Hdom & Hpkg & Hval & _) & Hh & Hv).
  destruct (choose_record chain requested) as [r|err] eqn:Hc; [|done].
  apply choose_record_Ok in Hc as [Hin Hreq]. cbv zeta. mstep.
  destruct (lookup_value pick rpc (vr_blob_hash (body r)) _).1 as [[src bs]|] eqn:Hb; [|done].
  apply lookup_value_hash in Hb. cbn. intros [= <-]. cbn.
  destruct (history_ok _ _ _ _ _ _ Hh Hin) as (k & _ & Ht & Hrd & Hrp & Hrv).
  exists owner, r. split_and!; try done. destruct requested as [v|]; [done|].
  exists latest. split_and!; try done. rewrite Hreq in Hv. cbn in Hv. congruence.
Qed.

Lemma listing_sorted owner domain package k chain (f : nat -> bool) :
  history owner domain package k chain ->
  StronglySorted (fun a b => version_lt (pv_version b) (pv_version a) = true)
    (imap (fun i r => MkPublished (vr_version (body r)) (vr_blob_hash (body r)) (f i)) chain).
Proof.
  intros Hh. assert (chain = [] \/ history owner domain package k chain) as Hk by auto. clear Hh.
  revert k Hk f. induction chain as [|r chain IH]; intros k Hk f; [constructor|].
  destruct Hk as [?|Hk]; [done|]. rewrite imap_cons. constructor.
  - apply (IH (vr_prev (body r))). destruct chain; [by left|right]. by eapply history_tail.
  - apply Forall_forall. intros x Hx. apply list_elem_of_lookup in Hx as [i Hi].
    rewrite list_lookup_imap in Hi. apply fmap_Some in Hi as (r' & Hr' & ->). cbn.
    eapply history_decreasing; [exact Hk|]. by eapply list_elem_of_lookup_2.
Qed.

(** A listing shows the whole history, newest first, and marks the newest. *)
Lemma show_sound domain package (e : Env A W) versions :
  (show_package pick rpc dns domain package e).1 = Ok versions ->
  exists owner k chain, (dns domain e).1 = Some owner /\
    history owner domain package k chain /\
    versions = imap (fun i r => MkPublished (vr_version (body r)) (vr_blob_hash (body r)) (i =? 0)) chain /\
    StronglySorted (fun a b => version_lt (pv_version b) (pv_version a) = true) versions.
Proof.
  unfold show_package. mstep.
  destruct (load_chain pick rpc dns domain package e).1 as [chain|err] eqn:Hl; [|done].
  apply load_chain_sound in Hl as (owner & latest & Hd & _ & Hh & _). cbn. intros [= <-].
  exists owner, (lp_version_record_hash (body latest)), chain. split_and!; try done.
  by eapply (listing_sorted owner domain package _ chain (fun i => i =? 0)).
Qed.
End loaded.

(** ** Publishing *)

Section published.
Context `{Sha256} `{Ed25519Laws} `{CodecLaws} `{Hex} {A W : Type} `{CloseNodes A} `{Clock W}.
Context (pick : W -> nat) (rpc : Rpc A W) (dns : string -> M (Env A W) (option VerifyingKey)).

(** A receipt means at least one node took each of the three values, under
    the keys the values have. *)
Lemma store_publication_receipt prepared (e : Env A W) receipt :
  (store_publication pick rpc prepared e).1 = Ok receipt ->
  blob_key receipt = key_for_value (pp_blob prepared) /\
  record_key (pp_record prepared) = Some (rec_key receipt) /\
  lat_key receipt = value_key (Latest (pp_pointer prepared)) /\
  1 <= blob_accepted receipt <= K /\ 1 <= record_accepted receipt <= K /\
  1 <= latest_accepted receipt <= K.
Proof.
  unfold store_publication. mstep.
  destruct (store_value_bound pick rpc (Blob (pp_blob prepared)) [] e) as [Hk1 Hb1].
  set (r1 := store_value_with_proof pick rpc (Blob (pp_blob prepared)) [] e) in *.
  case_bool_decide as H1'; [done|].
  destruct (serialize (pp_record prepared)) as [bs|] eqn:Hs; [|done]. mstep.
  destruct (store_value_bound pick rpc (Blob bs) [] r1.2) as [Hk2 Hb2].
  set (r2 := store_value_with_proof pick rpc (Blob bs) [] r1.2) in *.
  case_bool_decide as H2'; [done|]. mstep.
  destruct (store_value_bound pick rpc (Latest (pp_pointer prepared)) (pp_proof prepared) r2.2) as [Hk3 Hb3].
  set (r3 := store_value_with_proof pick rpc (Latest (pp_pointer prepared)) (pp_proof prepared) r2.2) in *.
  clearbody r3. clearbody r2. clearbody r1. case_bool_decide as H3'; [done|]. mstep. cbn [fst]. intros [= <-].
  cbn [blob_key rec_key lat_key blob_accepted record_accepted latest_accepted].
  split_and!; try done; try lia. unfold record_key. rewrite Hs, Hk2. done.
Qed.

(** An unforced publication is signed with the domain's own key. *)
Lemma publish_signer domain package version blob signer previous (e : Env A W) receipt :
  (publish_package pick rpc dns domain package version blob signer previous false e).1 = Ok receipt ->
  (dns domain e).1 = Some (verifying_key signer).
Proof.
  unfold publish_package, check_signer. mstep.
  destruct (dns domain e).1 as [owner|]; [|done]. case_bool_decide as Hne; cbn; [done|].
  intros _. by rewrite Hne.
Qed.
End published.
