(* ===== verification/Publishing.v ===== *)
(** * Publishing: what is published can be installed

    A package of one owner in a network of the program's own nodes ([Society]).
    The nodes hold the blobs and records of its history under their hashes and
    pointers to its versions under its latest key; [publish_package] of
    [src/registry.rs] adds one more of each, and [install_package], from anywhere,
    gets the blob back, while the nodes go on serving requests that store nothing
    else under those keys. *)

From S2P Require Import Prelude Slices Machine Contacts StaticBucket SiblingList Cache Progress.
From S2P Require Import Crates Text Package VersionChain Wire Stream HandleRpc Rpc Lookup Converge Society Registry.
From Stdlib Require Import Strings.Ascii.

#[local] Opaque K.

Section package.
Context `{Sha256} `{Ed25519Laws} `{CodecLaws} `{Hex} {W D : Type} `{Clock W} `{!DnsData D}.
Abbreviation node := (Context RecommendedCloseNodes D).
Abbreviation env := (Env RecommendedCloseNodes W).
Context (peers : W -> gmap SocketAddr node) (population : gset NodeId) (home_of : NodeId -> SocketAddr).

(** The package, its owner's key, the blobs and encoded records under their
    hashes, and the states of a resolver that knows the owner. *)
Context (domain package : string) (owner : VerifyingKey) (stock : gmap Key bytes) (resolves : D -> Prop).

Abbreviation top := (latest_key domain package).
Abbreviation nearest := (nearest population).

(** The keys the package uses. *)
Definition tracked (key : Key) : Prop := key = top \/ is_Some (stock !! key).

(** Some node holds this pointer. *)
Definition held (m : gmap SocketAddr node) (p : Signed LatestPointer) : Prop :=
  exists j c, j ∈ population /\ m !! home_of j = Some c /\ ctx_values c !! top = Some (Latest p).

(** What others may ask to be stored: under the keys of the stock what belongs
    there, and of the pointers under the latest key that verify at all none of
    another domain, and those of the owner only when some node holds them. *)
Definition permitted (m : gmap SocketAddr node) (q : bytes) : Prop :=
  forall key value proof, deserialize q = Some (MkStoreRequest key value proof) ->
    (forall b, stock !! key = Some b -> value = Blob b) /\
    (forall p vk, key = top -> value = Latest p -> latest_is_valid p vk = true ->
       lp_domain (body p) = domain /\ (vk = owner -> held m p)).

(** The owner's pointer to a record. *)
Definition points (p : Signed LatestPointer) (r : Signed VersionRecord) : Prop :=
  pointer_ok p owner domain package /\ record_key r = Some (lp_version_record_hash (body p)) /\
  vr_version (body r) = lp_version (body p).

(** What is published: the history, newest first, the pointer to its newest
    record, and the keys of the stock that can be had. *)
Record Edition : Type := MkEdition {
  chain : list (Signed VersionRecord);
  newest : option (Signed LatestPointer);
  have : gset Key
}.

(** A node of the network: its resolver knows the owner, it has nothing else
    under the keys of the stock, of the keys that can be had it has what it is the
    nearest to, and a pointer under the latest key is to a record of the history, to
    the newest one only by the newest pointer. *)
Record stocked (s : Edition) (j : NodeId) (v : gmap Key Value) (d : D) : Prop := {
  sk_dns : resolves d;
  sk_own k b value : stock !! k = Some b -> v !! k = Some value -> value = Blob b;
  sk_have k : k ∈ have s -> nearest k j -> is_Some (v !! k);
  sk_chain p : v !! top = Some (Latest p) ->
    exists r, r ∈ chain s /\ points p r /\ (head (chain s) = Some r -> newest s = Some p)
}.

(** It has the newest pointer. *)
Definition leads (s : Edition) (j : NodeId) (v : gmap Key Value) (d : D) : Prop :=
  forall p, newest s = Some p -> v !! top = Some (Latest p).

(** The nearest node to the latest key leads. *)
Definition published (s : Edition) : NodeId -> gmap Key Value -> D -> Prop :=
  among (stocked s) (leads s) (nearest top).

(** The records of a history are among the stock that can be had. *)
Definition shelved (s : Edition) : Prop :=
  forall r k, r ∈ chain s -> record_key r = Some k -> k ∈ have s /\ stock !! k = serialize r.

(** A history that can be walked, and its newest pointer; or nothing yet. *)
Record sound (s : Edition) : Prop := {
  so_history : chain s = [] \/ exists k, history owner domain package k (chain s);
  so_newest : match chain s with
              | [] => newest s = None
              | r :: _ => exists p, newest s = Some p /\ points p r
              end;
  so_shelved : shelved s;
  so_short : length (chain s) <= MAX_CHAIN_LENGTH
}.

Abbreviation network := (network population home_of tracked).
Abbreviation swarm := (swarm peers).
Abbreviation stable := (stable population home_of tracked permitted).
Abbreviation kept := (kept population home_of tracked permitted).
Abbreviation participant := (participant peers population home_of permitted).

Context (resolves_owner : forall d, resolves d -> (get_dns_vk domain d).1 = Some owner).
Context (resolves_kept : forall d dom, resolves d -> resolves (get_dns_vk dom d).2).

Lemma head_newest s r r' :
  sound s -> head (chain s) = Some r -> r' ∈ chain s ->
  r' = r \/ version_lt (vr_version (body r')) (vr_version (body r)) = true.
Proof.
  intros [[Hnil|(k & Hh)] _ _ _] Hr Hin; [by rewrite Hnil in Hr|]. destruct (chain s) as [|x rest]; [done|].
  injection Hr as ->. apply elem_of_cons in Hin as [->|Hin]; [by left|right]. by eapply history_decreasing.
Qed.

Lemma newest_head s p : sound s -> newest s = Some p -> exists r, head (chain s) = Some r /\ points p r.
Proof.
  intros [_ Hn _ _] Hp. destruct (chain s) as [|r rest]; [congruence|]. destruct Hn as (p' & Hp' & ?).
  rewrite Hp in Hp'. injection Hp' as ->. by exists r.
Qed.

(** No pointer in the network is newer than the newest. *)
Lemma newest_most s p q r :
  sound s -> newest s = Some p -> r ∈ chain s -> points q r ->
  head (chain s) = Some r \/ version_lt (lp_version (body q)) (lp_version (body p)) = true.
Proof.
  intros Hs (h & Hh & _ & _ & Hv)%newest_head Hin (_ & _ & Hv'); [|done].
  destruct (head_newest s h r Hs Hh Hin) as [->|Hlt]; [by left|right]. by rewrite <- Hv, <- Hv'.
Qed.

Lemma version_unique s r r' :
  sound s -> r ∈ chain s -> r' ∈ chain s -> vr_version (body r') = vr_version (body r) -> r' = r.
Proof.
  intros [[Hnil|(k & Hh)] _ _ _] Hr Hr' Hv; [rewrite Hnil in Hr; by apply not_elem_of_nil in Hr|].
  induction Hh as [k x Hx|k x older rest Hx Hne Hh IH Hlt].
  - apply list_elem_of_singleton in Hr, Hr'. congruence.
  - assert (forall y, y ∈ older :: rest -> vr_version (body y) <> vr_version (body x)) as Hold.
    { intros y Hy E. assert (history owner domain package k (x :: older :: rest)) as Hall by by constructor.
      pose proof (history_decreasing _ _ _ _ _ _ _ Hall Hy) as Hbad. rewrite E in Hbad. by rewrite version_lt_irrefl in Hbad. }
    apply elem_of_cons in Hr as [->|Hr], Hr' as [->|Hr']; [done|by destruct (Hold _ Hr')|by destruct (Hold _ Hr)|auto].
Qed.

Lemma stocked_stable s : stable (stocked s).
Proof using resolves_owner resolves_kept H3.
  split; [|intros j v d dom [Hd Ho Hh Hc] _; by split; auto].
  intros m j c q Hm Hj Hq [Hd Ho Hh Hc] _.
  assert (resolves (ctx_dns (store_handle q c).2)) as Hd'
    by (destruct (store_handle_dns c q) as [->|(dom & ->)]; auto).
  destruct (store_handle_commits (fun dom vk => (get_dns_vk dom (ctx_dns c)).1 = Some vk) c q (fun _ _ Hx => Hx)) as (_ & _ & He).
  destruct (store_handle q c).1 as [reply|]; [|by rewrite He; split].
  destruct He as (_ & key & value & proof & Hdes & -> & Hv & Hstep). destruct (Hq _ _ _ Hdes) as [Hbelongs Hptr].
  split; [done|..].
  - rewrite Hv. intros k b value' Hk [[<- <-]|[_ Hold]]%lookup_insert_Some; [by apply Hbelongs|by eapply Ho].
  - rewrite Hv. intros k Hk Hnear. apply lookup_insert_is_Some'. right. by apply Hh.
  - intros p Hp. destruct (commit_step_new _ _ _ _ _ Hstep Hp) as [Hold|(vk & chain' & Hvk & (_ & _ & Hvalid & _) & _)];
      [by apply Hc|].
    rewrite Hv in Hp. apply lookup_insert_Some in Hp as [[Hk ->]|[_ Hold]]; [|by apply Hc].
    destruct (Hptr p vk Hk eq_refl Hvalid) as [Hdom Hheld].
    rewrite Hdom, resolves_owner in Hvk by done. injection Hvk as <-.
    destruct (Hheld eq_refl) as (i & c' & Hi & Hc' & Hp'). destruct (Hm i Hi) as (c'' & Hc'' & _ & Hok).
    rewrite Hc' in Hc''. injection Hc'' as <-. by apply (sk_chain _ _ _ _ Hok).
Qed.

(** The newest pointer is not replaced. *)
Lemma leads_kept s : sound s -> kept (stocked s) (leads s).
Proof using resolves_owner resolves_kept H3.
  intros Hs. split; [|done]. intros m j c q Hm Hj Hq Hst Hlead p Hp.
  pose proof (ke_store _ _ _ _ _ _ (stocked_stable s) m j c q Hm Hj Hq Hst Hst) as Hst'.
  destruct (store_handle_effect (fun _ _ => True) ltac:(done) c q) as (_ & _ & He).
  destruct (store_handle q c).1 as [reply|]; [|rewrite He; by apply Hlead].
  destruct He as (_ & key & value & proof & _ & _ & _ & Hstep).
  destruct (commit_step_pointer _ _ _ _ _ Hstep (Hlead p Hp)) as (new & Hnew & [<-|[Hlt%version_lt_val _]]); [done|].
  destruct (sk_chain _ _ _ _ Hst' new Hnew) as (r & Hr & Hpoints & Hsame).
  destruct (newest_most s p new r Hs Hp Hr Hpoints) as [Hhead|Hlt'%version_lt_val]; [|lia].
  rewrite (Hsame Hhead) in Hp. by injection Hp as <-.
Qed.

Lemma published_stable s : sound s -> stable (published s).
Proof using resolves_owner resolves_kept H3.
  intros Hs. apply stable_among; [apply stocked_stable|by apply leads_kept].
Qed.

(** ** Reading *)

(** A resolver of a client that asks, at most, the one of its own node. *)
Definition resolving (rpc : Rpc RecommendedCloseNodes W) (dns : string -> M env (option VerifyingKey)) : Prop :=
  forall e, network (fun _ _ d => resolves d) (swarm rpc e) ->
    (dns domain e).1 = Some owner /\
    rtc (meanwhile population home_of permitted) (swarm rpc e) (swarm rpc (dns domain e).2).

Context (contacts_total : forall l : list Contact, is_Some (serialize l)).
Context (keys_total : forall k : Key, is_Some (serialize k)).
Context (replies_total : forall r : FindValueReply, is_Some (serialize r)).
Context (home_inj : forall i j, i ∈ population -> j ∈ population -> home_of i = home_of j -> i = j).
Context (homes_plain : forall j, j ∈ population -> plain (home_of j)).
Context (few : forall key g, tracked key -> g ∈ population -> uncrowded (others population g) g key).
Context (company : forall j, j ∈ population -> exists g, g ∈ population /\ g <> j).
Context (stock_keys : forall k b, stock !! k = Some b -> key_for_value b = k).

Section reading.
Context (pick : W -> nat) (rpc : Rpc RecommendedCloseNodes W) (dns : string -> M env (option VerifyingKey)).
Context (client : participant rpc) (resolver : resolving rpc dns).
Context (s : Edition) (s_sound : sound s).
Abbreviation ready e := (network (published s) (swarm rpc e)).

Lemma dns_network e : ready e -> (dns domain e).1 = Some owner /\ ready (dns domain e).2.
Proof using resolves_owner resolves_kept home_inj few company s_sound resolver H3.
  intros Hm. destruct (resolver e) as [Hd Hrtc].
  { eapply network_weaken; [|exact Hm]. intros j v d [Hst _]. apply (sk_dns _ _ _ _ Hst). }
  split; [done|]. by eapply network_meanwhile; [..|by apply published_stable|exact Hrtc|].
Qed.

(** What is on the shelf is found. *)
Lemma lookup_stock k b e :
  k ∈ have s -> stock !! k = Some b -> ready e ->
  (snd <$> (lookup_value pick rpc k e).1) = Some b /\ ready (lookup_value pick rpc k e).2.
Proof using All.
  intros Hk Hb Hm. destruct (lookup_value_eq pick rpc k e) as (r & Hr & ->).
  destruct (lookup_values_network peers population home_of tracked permitted contacts_total keys_total replies_total
    home_inj homes_plain few company pick (published s) rpc k (accept_blob k) true e r
    ltac:(by apply published_stable) client ltac:(right; by rewrite Hb) Hm Hr) as (Hm' & Hsound & Hheed).
  destruct (nearest_inhabited peers population home_of permitted rpc k client) as (z & Hz). specialize (Hheed z Hz).
  clear Hr. cbn [fst snd]. split; [|exact Hm'].
  assert (r.1 <> []) as Hne.
  { destruct Hheed as [[_ ?]|(v & d & [Hst _] & Hv)]; [done|]. destruct (sk_have _ _ _ _ Hst k Hk Hz) as (value & Hval).
    pose proof (sk_own _ _ _ _ Hst k b value Hb Hval) as ->. intros E. rewrite E in Hv.
    specialize (Hv (Blob b) Hval ltac:(apply bool_decide_true; by apply stock_keys)). by apply not_elem_of_nil in Hv. }
  destruct r.1 as [|[source value] rest]; [done|].
  destruct (Hsound (source, value) ltac:(by left)) as (_ & j & v & d & _ & [Hst _] & Hval).
  by rewrite (sk_own _ _ _ _ Hst k b value Hb Hval).
Qed.

(** A pointer to a record of the history is accepted. *)
Lemma points_accepted p r : points p r -> accept_latest owner domain package (Latest p) = true.
Proof. intros ((Hd & Hp & Hv & _) & _). cbn. by rewrite Hd, Hp, Hv, !bool_decide_true. Qed.

(** The latest pointer is the newest. *)
Lemma get_latest_network e :
  ready e -> exists e', get_latest pick rpc dns domain package e = (newest s, e') /\ ready e'.
Proof using All.
  intros (Hd & Hm)%dns_network. destruct (get_latest_eq pick rpc dns domain package e owner Hd) as (out & Hout & ->).
  destruct (lookup_values_network peers population home_of tracked permitted contacts_total keys_total replies_total
    home_inj homes_plain few company pick (published s) rpc top (accept_latest owner domain package) false (dns domain e).2 out
    ltac:(by apply published_stable) client ltac:(by left) Hm Hout) as (Hm' & Hsound & Hheed).
  destruct (nearest_inhabited peers population home_of permitted rpc top client) as (z & Hz). specialize (Hheed z Hz).
  clear Hout. exists out.2. split; [|exact Hm']. f_equal.
  assert (forall q, q ∈ pointers out.1 ->
    exists r, r ∈ chain s /\ points q r /\ (head (chain s) = Some r -> newest s = Some q)) as Hall.
  { intros q [c Hin]%elem_of_pointers. destruct (Hsound _ Hin) as (_ & j & v & d & _ & [Hst _] & Hval).
    by apply (sk_chain _ _ _ _ Hst). }
  destruct Hheed as [[? _]|(v & d & [_ Hlead] & Hv)]; [done|]. specialize (Hlead Hz).
  destruct (newest s) as [p|] eqn:Hp.
  - destruct (newest_head s p s_sound Hp) as (h & Hh & Hpoints).
    assert (p ∈ pointers out.1) as Hin.
    { specialize (Hv _ (Hlead p Hp) (points_accepted p h Hpoints)).
      apply list_elem_of_fmap in Hv as ([c value] & Heq & Hin). cbn in Heq. subst value. apply elem_of_pointers. eauto. }
    destruct (max_by older_pointer (pointers out.1)) as [q|] eqn:Hmax.
    2: { apply max_by_None in Hmax. rewrite Hmax in Hin. by apply not_elem_of_nil in Hin. }
    apply (max_by_spec _ older_pointer_total older_pointer_trans) in Hmax as [Hq Hmax].
    specialize (Hmax p Hin). unfold older_pointer in Hmax. apply version_le_val in Hmax.
    destruct (Hall q Hq) as (r & Hr & Hqr & Hsame).
    destruct (newest_most s p q r s_sound Hp Hr Hqr) as [Hhead|Hlt%version_lt_val]; [|lia]. symmetry. by apply Hsame.
  - apply max_by_None. destruct (pointers out.1) as [|q l]; [done|].
    destruct (Hall q ltac:(by left)) as (r & Hr & _). pose proof (so_newest s s_sound) as Hn.
    destruct (chain s); [by apply not_elem_of_nil in Hr|]. destruct Hn as (? & ? & _). congruence.
Qed.

(** ** The history *)

Lemma fetch_serves : serves (fun e => ready e) (fetch_record pick rpc) (chain s).
Proof using All.
  intros r k e Hin Hk Hm. destruct (so_shelved s s_sound r k Hin Hk) as [Hhave Hstock].
  destruct (record_key_serialize r k Hk) as (bs & Hbs & _). rewrite Hbs in Hstock |- *.
  destruct (lookup_stock k bs e Hhave Hstock Hm) as [Hfound Hm'].
  destruct (lookup_value pick rpc k e) as [found e'] eqn:E. cbn [fst snd] in Hfound, Hm'.
  unfold fetch_record. rewrite (bind_run _ _ _ _ _ E), ret_eq. by split.
Qed.

Lemma walk_network p e :
  newest s = Some p -> ready e ->
  exists e', walk_chain p owner domain package (fetch_record pick rpc) e = (Ok (chain s), e') /\ ready e'.
Proof using All.
  intros (h & Hh & Hp & Hk & Hv)%newest_head Hm; [|done].
  destruct (walk_chain_complete p owner domain package (fetch_record pick rpc) (fun e => ready e) (chain s) e) as [Hw Hm'].
  - done.
  - destruct (so_history s s_sound) as [E|(k & Hhist)]; [by rewrite E in Hh|].
    pose proof (history_head _ _ _ _ _ Hhist) as (r0 & rest0 & Heq & Hk0 & _). rewrite Heq in Hh. injection Hh as ->.
    rewrite Hk in Hk0. by injection Hk0 as ->.
  - rewrite Hh. cbn. by rewrite Hv.
  - apply (so_short s s_sound).
  - apply fetch_serves.
  - done.
  - destruct (walk_chain p owner domain package (fetch_record pick rpc) e) as [res e']. cbn [fst snd] in *. subst res. eauto.
Qed.

(** What [publish_package] builds on. *)
Lemma existing_history_network e :
  ready e -> exists e', existing_history pick rpc dns domain package e = (Ok (chain s), e') /\ ready e'.
Proof using All.
  intros (e1 & E & Hm)%get_latest_network. unfold existing_history. rewrite (bind_run _ _ _ _ _ E).
  destruct (newest s) as [p|] eqn:Hp.
  - destruct (newest_head s p s_sound Hp) as (h & _ & (Hdom & Hpkg & _) & _). destruct (dns_network e1 Hm) as [Hd Hm1].
    destruct (walk_network p (dns domain e1).2 Hp Hm1) as (e2 & Hw & Hm2).
    exists e2. split; [|done]. unfold load_chain_from_pointer. rewrite bind_eq, bind_eq, Hdom, Hpkg, Hd, Hw. by rewrite ret_eq.
  - exists e1. split; [|done]. rewrite ret_eq. pose proof (so_newest s s_sound) as Hn.
    destruct (chain s); [done|]. destruct Hn as (? & ? & _). congruence.
Qed.

(** What [install_package] starts from. *)
Lemma load_chain_network e :
  chain s <> [] -> ready e -> exists e', load_chain pick rpc dns domain package e = (Ok (chain s), e') /\ ready e'.
Proof using All.
  intros Hne (Hd & (e1 & E & Hm)%get_latest_network)%dns_network. unfold load_chain. rewrite bind_eq, Hd, (bind_run _ _ _ _ _ E).
  destruct (newest s) as [p|] eqn:Hp; [by apply walk_network|]. pose proof (so_newest s s_sound) as Hn.
  destruct (chain s); [done|]. destruct Hn as (? & ? & _). congruence.
Qed.

Lemma choose_version r : r ∈ chain s -> choose_record (chain s) (Some (vr_version (body r))) = Ok r.
Proof using s_sound.
  intros Hin. unfold choose_record.
  destruct (find (has_version (vr_version (body r))) (chain s)) as [r'|] eqn:Hf; cbn.
  - apply find_some in Hf as [Hin' Hv]. apply list_elem_of_In in Hin'. unfold has_version in Hv.
    apply bool_decide_eq_true in Hv. by rewrite (version_unique s r r' s_sound Hin Hin' Hv).
  - apply list_elem_of_In in Hin. pose proof (find_none _ _ Hf _ Hin) as Hv. unfold has_version in Hv.
    by rewrite bool_decide_true in Hv.
Qed.

(** Any version whose blob is on the shelf can be installed. *)
Lemma install_network requested r b e :
  choose_record (chain s) requested = Ok r -> vr_blob_hash (body r) ∈ have s -> stock !! vr_blob_hash (body r) = Some b ->
  ready e ->
  (install_package pick rpc dns domain package requested e).1 = Ok (MkInstalled (vr_version (body r)) (vr_blob_hash (body r)) b).
Proof using All.
  intros Hr Hhave Hb Hm. assert (chain s <> []) as Hne by (intros E; rewrite E in Hr; by destruct requested).
  destruct (load_chain_network e Hne Hm) as (e1 & Hload & Hm1).
  destruct (lookup_stock _ b e1 Hhave Hb Hm1) as [Hfound _].
  destruct (lookup_value pick rpc (vr_blob_hash (body r)) e1) as [found e2] eqn:E. cbn [fst] in Hfound.
  unfold install_package. rewrite (bind_run _ _ _ _ _ Hload), Hr. cbv zeta. rewrite (bind_run _ _ _ _ _ E), ret_eq.
  destruct found as [[source b']|]; [|done]. cbn in Hfound. by injection Hfound as ->.
Qed.
End reading.
(** ** Writing *)

Context (stores_total : forall r : StoreRequest, is_Some (serialize r)).

(** One more key of the stock can be had. *)
Definition with_key (k : Key) (s : Edition) : Edition := MkEdition (chain s) (newest s) ({[k]} ∪ have s).

Lemma with_key_sound k s : sound s -> sound (with_key k s).
Proof.
  intros [Hh Hn Hs Hl]. split; try done. intros r k' Hr Hk. destruct (Hs r k' Hr Hk) as [? ?].
  split; [by apply elem_of_union_r|done].
Qed.

(** A blob of the stock is taken by every node. *)
Lemma stock_welcome s b q :
  sound s -> stock !! key_for_value b = Some b -> encode_request_with_proof (key_for_value b) (Blob b) [] = Some q ->
  welcome population home_of tracked (published s) (fun _ v _ => is_Some (v !! key_for_value b)) q.
Proof using resolves_owner resolves_kept H3.
  intros Hs Hb Hq m j c Hm Hj Hpub. pose proof (deserialize_serialize _ _ Hq) as Hdes.
  assert (permitted m q) as Hper.
  { intros key value proof. rewrite Hdes. intros [= <- <- <-]. rewrite Hb. split; [by intros b' [= ->]|done]. }
  pose proof (ke_store _ _ _ _ _ _ (published_stable s Hs) m j c q Hm Hj Hper Hpub Hpub) as Hpub'.
  assert ((store_handle q c).1 = Some STORED /\
    ctx_values (store_handle q c).2 = <[key_for_value b := Blob b]> (ctx_values c)) as [Hst Hv].
  { unfold store_handle, store_check. rewrite Hdes, bool_decide_false by (intros Hx; by apply Hx).
    rewrite bind_eq, ret_eq. cbn [fst snd store_commit]. unfold commit_blob. rewrite bind_eq. cbn [gets fst snd].
    destruct (ctx_values c !! key_for_value b) as [value|] eqn:Hold; [|done].
    by rewrite (sk_own _ _ _ _ (proj1 Hpub) _ _ _ Hb Hold). }
  split; [done|]. split; [done|]. by rewrite Hv, lookup_insert_eq.
Qed.

Lemma store_blob_network pick rpc s b e :
  participant rpc -> sound s -> stock !! key_for_value b = Some b -> network (published s) (swarm rpc e) ->
  exists n e', store_value_with_proof pick rpc (Blob b) [] e = ((key_for_value b, n), e') /\ 0 < n /\
    network (published (with_key (key_for_value b) s)) (swarm rpc e').
Proof using All.
  intros client Hs Hb Hm. destruct (stores_total (MkStoreRequest (key_for_value b) (Blob b) [])) as [q Hq].
  destruct (store_value_network peers population home_of tracked permitted contacts_total keys_total home_inj homes_plain few company
    pick (published s) (fun _ v _ => is_Some (v !! key_for_value b)) rpc (Blob b) [] q e) as [Hn Hm'];
    [by apply published_stable| |done|right; by exists b|done|by apply stock_welcome|done|].
  { split; [|done]. intros m j c q' _ _ _ _ Hsome.
    destruct (store_handle_effect (fun _ _ => True) ltac:(done) c q') as (_ & _ & He).
    destruct (store_handle q' c).1; [|by rewrite He]. destruct He as (_ & k & value & proof & _ & _ & -> & _).
    apply lookup_insert_is_Some'. by right. }
  pose proof (store_value_bound pick rpc (Blob b) [] e) as [Hk _].
  destruct (store_value_with_proof pick rpc (Blob b) [] e) as [[k n] e']. cbn [fst snd] in *. subst k.
  exists n, e'. split; [done|]. split; [done|]. eapply network_weaken; [|exact Hm'].
  intros j v d [[[Hd Ho Hh Hc] Hlead] Hsome]. split; [|done]. split; [done|done| |done].
  intros k [->%elem_of_singleton|Hk]%elem_of_union Hnear; [by apply Hsome|by apply Hh].
Qed.

(** *** The pointer *)

Section pointer.
Context (signer : SigningKey) (owner_signs : verifying_key signer = owner).
Context (version : Version) (blob : bytes) (previous : option Version) (pub : PreparedPublication).
Context (s : Edition) (s_sound : sound s).
Context (prepared : prepare_publication domain package version blob signer (chain s) previous false = Ok pub).
Context (no_colon : contains_char ":"%char domain = false).
Context (fresh : NoDup (record_key <$> pp_proof pub)) (not_zero : record_key (pp_record pub) <> Some END_OF_CHAIN).
Context (room : length (pp_proof pub) <= MAX_CHAIN_LENGTH).

(** The package with the publication's pointer. *)
Definition with_pointer : Edition := MkEdition (pp_proof pub) (Some (pp_pointer pub)) (have s).

Lemma existing_ok :
  chain s = [] \/ exists k, history (verifying_key signer) domain package k (chain s) /\ k <> END_OF_CHAIN.
Proof using s_sound owner_signs.
  destruct (so_history s s_sound) as [?|(k & Hh)]; [by left|right]. exists k. rewrite owner_signs. split; [done|].
  pose proof (so_newest s s_sound) as Hn. pose proof (history_head _ _ _ _ _ Hh) as (r & rest & E & Hk & _).
  rewrite E in Hn. destruct Hn as (p & _ & (_ & _ & _ & Hz) & Hk' & _). congruence.
Qed.

Lemma publication_validates :
  validate_chain_proof (pp_pointer pub) owner (pp_proof pub) = Ok (pp_proof pub).
Proof using All.
  rewrite <- owner_signs. destruct existing_ok as [E|(k & Hk)].
  - eapply (prepare_validates domain package version blob signer (chain s) previous pub END_OF_CHAIN); auto.
  - eapply (prepare_validates domain package version blob signer (chain s) previous pub k); auto.
Qed.

Lemma pointer_points : points (pp_pointer pub) (pp_record pub).
Proof using All.
  pose proof (validate_sound _ _ _ _ publication_validates) as (Hok & _).
  destruct (prepare_Ok _ _ _ _ _ _ _ _ prepared) as (_ & _ & _ & _ & (prev & Hb & _) & hash & Hk & Hbp).
  rewrite Hbp in Hok. split; [exact Hok|]. rewrite Hbp, Hb. done.
Qed.

(** Every record there is older. *)
Lemma publication_newer r : r ∈ chain s -> version_lt (vr_version (body r)) version = true.
Proof using All.
  intros Hr. destruct (prepare_Ok _ _ _ _ _ _ _ _ prepared) as (_ & _ & _ & _ & (prev & _ & Hprev) & _).
  destruct (chain s) as [|h rest] eqn:E; [by apply not_elem_of_nil in Hr|]. destruct Hprev as [_ Hlt].
  rewrite <- E in Hr. destruct (head_newest s h r s_sound ltac:(by rewrite E) Hr) as [->|Hle]; [done|].
  rewrite version_lt_val in *. lia.
Qed.

Lemma with_pointer_stocked j v d : stocked s j v d -> stocked with_pointer j v d.
Proof using All.
  destruct (prepare_Ok _ _ _ _ _ _ _ _ prepared) as (_ & Hproof & _ & _ & (prev & Hb & _) & _).
  intros [Hd Ho Hh Hc]. split; [done|done|done|]. intros p Hp. destruct (Hc p Hp) as (r & Hr & Hpoints & _).
  exists r. cbn [chain newest with_pointer]. rewrite Hproof. split; [by right|]. split; [done|]. intros [= <-].
  pose proof (publication_newer _ Hr) as Hlt. rewrite Hb in Hlt. cbn in Hlt. by rewrite version_lt_irrefl in Hlt.
Qed.
Context (record_shelved : forall k, record_key (pp_record pub) = Some k -> k ∈ have s /\ stock !! k = serialize (pp_record pub)).
Context (stock_top : stock !! top = None).

Lemma with_pointer_sound : sound with_pointer.
Proof using All.
  destruct (prepare_Ok _ _ _ _ _ _ _ _ prepared) as (_ & Hproof & _ & _ & _ & hash & _ & Hbp).
  pose proof (validate_sound _ _ _ _ publication_validates) as (_ & Hh & _). rewrite Hbp in Hh.
  split; cbn [chain newest have with_pointer].
  - right. eexists. exact Hh.
  - rewrite Hproof. eexists. split; [done|]. apply pointer_points.
  - intros r k. cbn [chain have with_pointer]. rewrite Hproof.
    intros [->|Hr]%elem_of_cons Hk; [by apply record_shelved|by apply (so_shelved s s_sound)].
  - done.
Qed.

Lemma pointer_key : value_key (Latest (pp_pointer pub)) = top.
Proof using All.
  destruct (prepare_Ok _ _ _ _ _ _ _ _ prepared) as (_ & _ & _ & _ & _ & hash & _ & Hbp). cbn. by rewrite Hbp.
Qed.

(** It continues whatever pointer a node may have. *)
Lemma pointer_continues old r :
  r ∈ pp_proof pub -> points old r -> (head (pp_proof pub) = Some r -> pp_pointer pub = old) ->
  continues_previous old (pp_pointer pub) (pp_proof pub) = true.
Proof using All.
  intros Hr (_ & Hk & Hv) Hsame. apply continues_previous_spec.
  destruct (prepare_Ok _ _ _ _ _ _ _ _ prepared) as (_ & Hproof & _ & _ & _ & hash & _ & Hbp).
  pose proof Hr as Hr'. rewrite Hproof in Hr. apply elem_of_cons in Hr as [->|Hr].
  - left. symmetry. apply Hsame. by rewrite Hproof.
  - right. split; [|eauto]. rewrite <- Hv, Hbp. by apply publication_newer.
Qed.

Lemma pointer_welcome q :
  encode_request_with_proof top (Latest (pp_pointer pub)) (pp_proof pub) = Some q ->
  welcome population home_of tracked (stocked with_pointer) (leads with_pointer) q.
Proof using All.
  intros Hq m j c _ _ [Hd Ho Hh Hc]. pose proof (deserialize_serialize _ _ Hq) as Hdes.
  destruct pointer_points as (Hok & _). pose proof Hok as (Hdom & _).
  destruct (store_accepts c q (pp_pointer pub) (pp_proof pub) owner (pp_proof pub)) as [Hst Hnew].
  { by rewrite pointer_key. }
  { rewrite Hdom. by apply resolves_owner. }
  { apply publication_validates. }
  { intros old Hold. rewrite pointer_key in Hold. destruct (Hc old Hold) as (r & Hr & Hpoints & Hsame).
    apply (pointer_continues old r Hr Hpoints). intros Hhead. specialize (Hsame Hhead). by injection Hsame. }
  rewrite pointer_key in Hnew. split; [done|].
  destruct (store_handle_effect (fun _ _ => True) ltac:(done) c q) as (_ & _ & He). rewrite Hst in He.
  destruct He as (_ & key & value & proof & Hdes' & _ & Hv & _). rewrite Hdes in Hdes'. injection Hdes' as <- <- <-.
  split; [|intros p [= <-]; exact Hnew]. split.
  - destruct (store_handle_dns c q) as [->|(dom & ->)]; auto.
  - rewrite Hv. intros k b value Hk [[<- <-]|[_ Hold]]%lookup_insert_Some; [by rewrite stock_top in Hk|by eapply Ho].
  - rewrite Hv. intros k Hk Hnear. apply lookup_insert_is_Some'. right. by apply Hh.
  - intros p Hp. rewrite Hnew in Hp. injection Hp as <-. exists (pp_record pub). cbn [chain newest with_pointer].
    destruct (prepare_Ok _ _ _ _ _ _ _ _ prepared) as (_ & -> & _). split; [by left|]. split; [apply pointer_points|done].
Qed.

Lemma store_pointer_network pick rpc e :
  participant rpc -> network (published s) (swarm rpc e) ->
  exists n e', store_value_with_proof pick rpc (Latest (pp_pointer pub)) (pp_proof pub) e = ((top, n), e') /\ 0 < n /\
    network (published with_pointer) (swarm rpc e').
Proof using All.
  intros client Hm. destruct (stores_total (MkStoreRequest top (Latest (pp_pointer pub)) (pp_proof pub))) as [q Hq].
  pose proof (pointer_welcome q Hq) as Hwel. pose proof (leads_kept with_pointer with_pointer_sound) as Hkept.
  pose proof (store_value_bound pick rpc (Latest (pp_pointer pub)) (pp_proof pub) e) as [Hk _]. rewrite pointer_key in Hk.
  assert (network (stocked with_pointer) (swarm rpc e)) as Hm1
    by (eapply network_weaken; [|exact Hm]; intros j v d [? _]; by apply with_pointer_stocked).
  destruct (store_value_network peers population home_of tracked permitted contacts_total keys_total home_inj homes_plain few company
    pick (stocked with_pointer) (leads with_pointer) rpc (Latest (pp_pointer pub)) (pp_proof pub) q e) as [Hn Hm'];
    [apply stocked_stable|done|done|rewrite pointer_key; by left|by rewrite pointer_key|done|done|].
  rewrite pointer_key in Hm'.
  destruct (store_value_with_proof pick rpc (Latest (pp_pointer pub)) (pp_proof pub) e) as [[k n] e'].
  cbn [fst snd] in *. subst k. exists n, e'. by split_and!.
Qed.
End pointer.

(** ** Publishing *)

(** The package after a publication. *)
Definition edition_after (pub : PreparedPublication) (s : Edition) : Edition :=
  with_pointer pub (from_option with_key Datatypes.id (record_key (pp_record pub))
    (with_key (key_for_value (pp_blob pub)) s)).

Lemma publish_network pick rpc dns signer version blob previous pub s e :
  participant rpc -> resolving rpc dns -> verifying_key signer = owner -> sound s ->
  prepare_publication domain package version blob signer (chain s) previous false = Ok pub ->
  contains_char ":"%char domain = false -> NoDup (record_key <$> pp_proof pub) ->
  record_key (pp_record pub) <> Some END_OF_CHAIN -> length (pp_proof pub) <= MAX_CHAIN_LENGTH ->
  stock !! top = None -> stock !! key_for_value blob = Some blob ->
  (forall rb, serialize (pp_record pub) = Some rb -> stock !! key_for_value rb = Some rb) ->
  network (published s) (swarm rpc e) ->
  sound (edition_after pub s) /\
  exists receipt e', publish_package pick rpc dns domain package version blob signer previous false e = (Ok receipt, e') /\
    network (published (edition_after pub s)) (swarm rpc e').
Proof using All.
  intros Hp Hdns Hown Hs Hprep Hcolon Hnd Hz Hlen Htop Hblob Hrec Hm.
  destruct (prepare_Ok _ _ _ _ _ _ _ _ Hprep) as (Hpb & _ & _ & _ & _ & rk & Hrk & _).
  destruct (record_key_serialize _ _ Hrk) as (rb & Hrb & Hrbk).
  set (s1 := with_key (key_for_value blob) s). set (s2 := with_key rk s1).
  assert (sound s2) as Hs2 by (by do 2 apply with_key_sound).
  assert (edition_after pub s = with_pointer pub s2) as Hafter
    by (unfold edition_after; rewrite Hrk; cbn [from_option]; by rewrite Hpb).
  assert (forall k, record_key (pp_record pub) = Some k -> k ∈ have s2 /\ stock !! k = serialize (pp_record pub)) as Hshelf.
  { intros k. rewrite Hrk. intros [= <-]. rewrite Hrb, <- Hrbk. split; [by apply elem_of_union_l, elem_of_singleton|by apply Hrec]. }
  split; [rewrite Hafter; by eapply (with_pointer_sound signer Hown version blob previous pub s2)|].
  destruct (dns_network rpc dns Hdns s Hs e Hm) as [Hd Hm1].
  destruct (existing_history_network pick rpc dns Hp Hdns s Hs _ Hm1) as (e2 & Hex & Hm2).
  destruct (store_blob_network pick rpc s blob e2 Hp Hs Hblob Hm2) as (n3 & e3 & H3' & Hn3 & Hm3).
  destruct (store_blob_network pick rpc s1 rb e3 Hp ltac:(by apply with_key_sound) ltac:(by apply Hrec) Hm3)
    as (n4 & e4 & H4' & Hn4 & Hm4). rewrite Hrbk in H4', Hm4.
  destruct (store_pointer_network signer Hown version blob previous pub s2 Hs2 Hprep Hcolon Hnd Hz Hlen
    Hshelf Htop pick rpc e4 Hp Hm4) as (n5 & e5 & H5' & Hn5 & Hm5).
  eexists (MkReceipt _ _ _ _ _ _), e5. rewrite Hafter. split; [|exact Hm5].
  unfold publish_package, check_signer. rewrite bind_eq, bind_eq, Hd, ret_eq. cbn [fst snd].
  rewrite bool_decide_false by (intros Hx; by apply Hx).
  rewrite (bind_run _ _ _ _ _ Hex), Hprep. unfold store_publication. rewrite Hpb, (bind_run _ _ _ _ _ H3'). cbn [snd].
  rewrite bool_decide_false, Hrb by lia. rewrite (bind_run _ _ _ _ _ H4'). cbn [snd]. rewrite bool_decide_false by lia.
  rewrite (bind_run _ _ _ _ _ H5'). cbn [snd]. rewrite bool_decide_false, ret_eq by lia. done.
Qed.
End package.
