(* ===== verification/Maintenance.v ===== *)
(** * Maintenance: one round of upkeep at a time

    Models [src/maintenance.rs]: [republish_values] and [check_liveness] over a
    lazily walked table.  [order] is the unspecified iteration order of the
    [HashSet] of dead contacts.  [jittered], which scales a period by a random
    [f64], is in [Jitter]. *)

From S2P Require Import Prelude Slices Machine Contacts Crates Text Package VersionChain Wire HandleRpc Rpc Lookup Registry.

Definition LIVENESS_CHECK_INTERVAL : Duration := from_secs 60.
Definition REPUBLISH_INTERVAL : Duration := from_secs (60 * 60).

Definition is_latest (v : Value) : bool := match v with Latest _ => true | Blob _ => false end.

(** The order of [sort_by_key(|(_, value)| matches!(value, Value::Latest(_)))]. *)
Definition blobs_first (a b : Key * Value) : comparison :=
  match is_latest a.2, is_latest b.2 with
  | false, true => Lt
  | true, false => Gt
  | _, _ => Eq
  end.

Section maintenance.
Context `{Sha256} `{Ed25519} `{Codec} `{Hex} {A W : Type} `{CloseNodes A} `{Clock W}.
Context (pick : W -> nat) (dns : string -> M (Env A W) (option VerifyingKey)).
Context (order : gset Contact -> list Contact).

(** The history a stored value is sent with; [None] skips the value. *)
Definition republish_proof (rpc : Rpc A W) (value : Value)
    : M (Env A W) (option (list (Signed VersionRecord))) :=
  match value with
  | Blob _ => mret (Some [])
  | Latest pointer =>
      chain ← load_chain_from_pointer pick rpc dns pointer;
      mret (match chain with Ok chain => Some chain | Err _ => None end)
  end.

Definition republish_one (rpc : Rpc A W) (kv : Key * Value) : M (Env A W) unit :=
  proof ← republish_proof rpc kv.2;
  match proof with
  | None => mret tt
  | Some proof =>
      targets ← lookup_node pick rpc kv.1;
      for_each (with_us rpc kv.1 targets)
        (fun target => _ ← store_with_proof rpc target kv.1 kv.2 proof; mret tt)
  end.

Definition republish_values (rpc : Rpc A W) (values : list (Key * Value)) : M (Env A W) unit :=
  for_each (sort_by blobs_first values) (republish_one rpc).

(** The body of the walk: ping, and note the contact if it is gone. *)
Definition probe_contact (rpc : Rpc A W) (dead : gset Contact) (contact : Contact)
    : M (Env A W) (gset Contact) :=
  answer ← ping rpc (address contact);
  mret (match answer with
        | Some i => if bool_decide (i = id contact) then dead else {[contact]} ∪ dead
        | None => {[contact]} ∪ dead
        end).

Fixpoint probe_all (rpc : Rpc A W) (dead : gset Contact) (l : list Contact) : M (Env A W) (gset Contact) :=
  match l with
  | [] => mret dead
  | contact :: l => dead ← probe_contact rpc dead contact; probe_all rpc dead l
  end.

(** Walking the iterator: each chunk is read when the walk reaches it. *)
Fixpoint probe_chunks (rpc : Rpc A W) (dead : gset Contact) (chunks : list (A -> list Contact))
    : M (Env A W) (gset Contact) :=
  match chunks with
  | [] => mret dead
  | chunk :: chunks =>
      contacts ← gets (fun e => chunk (table e));
      dead ← probe_all rpc dead contacts;
      probe_chunks rpc dead chunks
  end.

Definition check_liveness (rpc : Rpc A W) : M (Env A W) unit :=
  chunks ← gets (fun e => contacts_chunks (table e));
  dead ← probe_chunks rpc ∅ chunks;
  for_each (order dead) forget.
End maintenance.

(** ** Republishing *)

#[export] Instance blobs_first_total : TotalCmp blobs_first.
Proof.
  unfold blobs_first. split.
  - intros [k v]. simpl. by destruct (is_latest v).
  - intros [k v] [k' v']. simpl. by destruct (is_latest v), (is_latest v').
  - intros [k v] [k' v'] [k'' v'']. simpl. by destruct (is_latest v), (is_latest v'), (is_latest v'').
Qed.

(** Blobs, and so version records, go out before the pointers that need them. *)
Lemma republish_order values l1 kv l2 :
  sort_by blobs_first values = l1 ++ kv :: l2 -> is_latest kv.2 = false ->
  forall x, x ∈ l1 -> is_latest x.2 = false.
Proof.
  intros Hs Hkv x Hx.
  pose proof (sort_by_sorted blobs_first values) as Hsort. rewrite Hs in Hsort.
  apply list_elem_of_split in Hx as (a & b & ->). rewrite <- app_assoc in Hsort. simpl in Hsort.
  apply StronglySorted_app_1_r in Hsort. apply StronglySorted_inv in Hsort as [_ Hall].
  rewrite Forall_forall in Hall. specialize (Hall kv ltac:(set_solver)).
  unfold cle, blobs_first in Hall. rewrite Hkv in Hall. by destruct (is_latest x.2).
Qed.

Section upkeep.
Context `{Sha256} `{Ed25519} `{Codec} `{Hex} {A W : Type} `{CloseNodesSpec A} `{Clock W}.
Context (pick : W -> nat) (dns : string -> M (Env A W) (option VerifyingKey)).

(** A pointer is only republished with a history verified against DNS. *)
Lemma republish_proof_verified rpc pointer (e : Env A W) proof :
  (republish_proof pick dns rpc (Latest pointer) e).1 = Some proof ->
  exists owner, (dns (lp_domain (body pointer)) e).1 = Some owner /\ verified pointer owner proof.
Proof.
  unfold republish_proof. mstep.
  destruct (load_chain_from_pointer pick rpc dns pointer e).1 as [chain|] eqn:Hl; [|done].
  cbn. intros [= ->]. by apply load_from_pointer_sound in Hl.
Qed.

(** ** Liveness *)

(** Forgetting any number of contacts keeps the floor. *)
Lemma forget_all_floor (dead : list Contact) (e : Env A W) :
  size (ids_of (contacts_iter (table e))) `min` K <=
  size (ids_of (contacts_iter (table (for_each dead forget e).2))).
Proof.
  revert e. induction dead as [|c dead IH]; intros e; [simpl; lia|].
  cbn [for_each]. mstep. specialize (IH (forget c e).2). pose proof (forget_floor c e). lia.
Qed.

(** And removes no contact that is not among them. *)
Lemma forget_all_keeps (dead : list Contact) (e : Env A W) x :
  x ∈ contacts_iter (table e) -> x ∉ dead -> x ∈ contacts_iter (table (for_each dead forget e).2).
Proof.
  revert e. induction dead as [|c dead IH]; intros e Hx Hd; [done|].
  apply not_elem_of_cons in Hd as [Hc Hd]. cbn [for_each]. mstep. apply IH; [|done].
  cbn. destruct (plenty _ _); [|done]. by apply cn_remove_keeps.
Qed.

(** The states the walk goes through: each ping leads to the next one. *)
Inductive walked (rpc : Rpc A W) (e : Env A W) : Env A W -> Prop :=
| walked_start : walked rpc e e
| walked_ping a e' : walked rpc e e' -> walked rpc e (ping rpc a e').2.

Lemma walked_cons rpc a (e e' : Env A W) : walked rpc (ping rpc a e).2 e' -> walked rpc e e'.
Proof. induction 1; [apply walked_ping, walked_start|by apply walked_ping]. Qed.

(** [x] was pinged during a walk from [e] and did not answer with its own id. *)
Definition gone_at (rpc : Rpc A W) (e : Env A W) (x : Contact) : Prop :=
  exists e', walked rpc e e' /\ (ping rpc (address x) e').1 <> Some (id x).

Lemma probe_all_dead rpc dead l (e : Env A W) :
  (forall x, x ∈ (probe_all rpc dead l e).1 -> x ∈ dead \/ gone_at rpc e x) /\
  walked rpc e (probe_all rpc dead l e).2.
Proof.
  revert dead e. induction l as [|c l IH]; intros dead e; [split; [by left|apply walked_start]|].
  cbn [probe_all]. mstep. unfold probe_contact. mstep. cbn [fst snd].
  set (dead' := match (ping rpc (address c) e).1 with Some _ => _ | None => _ end).
  destruct (IH dead' (ping rpc (address c) e).2) as [IHd IHw].
  split; [|by apply walked_cons in IHw]. intros x [Hx|(e' & Hw & Hp)]%IHd.
  - destruct (decide (x ∈ dead)) as [?|Hnd]; [by left|]. right. exists e. split; [apply walked_start|].
    subst dead'. destruct (ping rpc (address c) e).1 as [i|] eqn:Hp.
    + case_bool_decide as Hi; [done|]. assert (x = c) as -> by set_solver. rewrite Hp. congruence.
    + assert (x = c) as -> by set_solver. by rewrite Hp.
  - right. exists e'. split; [by apply walked_cons in Hw|done].
Qed.

Lemma walked_trans rpc (e e1 e2 : Env A W) : walked rpc e e1 -> walked rpc e1 e2 -> walked rpc e e2.
Proof. intros Hw1 Hw2. induction Hw2; [done|by apply walked_ping]. Qed.

Lemma probe_chunks_dead rpc dead chunks (e : Env A W) x :
  x ∈ (probe_chunks rpc dead chunks e).1 -> x ∈ dead \/ gone_at rpc e x.
Proof.
  revert dead e. induction chunks as [|f chunks IH]; intros dead e Hx; [by left|].
  cbn [probe_chunks] in Hx. mstep in Hx.
  match type of Hx with context [probe_all rpc dead ?l ?s] =>
    destruct (probe_all_dead rpc dead l s) as [Hd Hw] end.
  apply IH in Hx as [Hx|(e' & He' & Hp)]; [by apply Hd in Hx|].
  right. exists e'. split; [by eapply walked_trans|done].
Qed.
End upkeep.
