(* ===== verification/Keeps.v ===== *)
(** * Keeps: what every client operation preserves

    A state predicate of a node is preserved by everything the client side does
    ([rpc.rs], [lookup.rs], [bootstrap.rs], [registry.rs], [maintenance.rs])
    when it is made of the routing table's invariant and of a predicate [J] on
    the rest of the world, and when the transports and the resolver preserve it:
    they are where the other tasks run.  One lemma per operation, by one
    tactic over the hint database [keeps]. *)

From S2P Require Import Prelude Slices Machine Contacts Crates Package VersionChain Wire HandleRpc.
From S2P Require Import Rpc Lookup Bootstrap Registry Maintenance.

Create HintDb keeps discriminated.

(** Walk through a monadic program; the leaves are hints or hypotheses. *)
Ltac keep_step :=
  match goal with
  | |- preserves _ (mret _) => apply preserves_ret
  | |- preserves _ (gets _) => apply preserves_gets
  | |- preserves _ (for_each _ _) => apply preserves_for_each; intros ? _
  | |- preserves _ (loop_until _ _ _) => apply preserves_loop_until; intros ?
  | |- preserves _ (_ _) => solve [eauto with keeps nocore]
  | |- preserves _ (mbind _ _) => apply preserves_bind; [|intros ?]
  | |- preserves _ (match ?x with _ => _ end) => destruct x
  | |- preserves _ (let _ := _ in _) => cbv zeta
  end.
Ltac keep := cbv zeta; repeat keep_step; eauto with keeps nocore.

Section keeps.
Context `{Sha256} `{Ed25519} `{Codec} `{Hex} {A W : Type} `{CloseNodesSpec A} `{Clock W}.
Context (J : W -> Prop).

Definition env_ok (e : Env A W) : Prop := cn_inv (table e) /\ J (world e).

Lemma keeps_on_table {X} (m : M A X) :
  (forall t, cn_inv t -> cn_inv (m t).2) -> preserves env_ok (on_table m).
Proof. intros Hm e [He Hj]. split; [apply Hm, He|done]. Qed.

Lemma keeps_next_lookup_id : preserves env_ok next_lookup_id.
Proof. by intros e. Qed.

Lemma keeps_info line : preserves env_ok (info line).
Proof. by intros e. Qed.

Lemma keeps_offer c : preserves env_ok (offer_contact c).
Proof. apply keeps_on_table. cbn. auto with kad. Qed.

Lemma keeps_query t : preserves env_ok (query_table t).
Proof.
  unfold query_table. apply preserves_bind; [apply preserves_gets|]. intros now.
  apply keeps_on_table. auto with kad.
Qed.

Lemma keeps_forget c : preserves env_ok (forget c).
Proof. intros e [He Hj]. split; [by apply forget_inv|done]. Qed.

#[local] Hint Resolve keeps_next_lookup_id keeps_info keeps_offer keeps_query keeps_forget : keeps.

Context (pick : W -> nat) (rpc : Rpc A W).

(** The other tasks keep it while a call is awaited. *)
Context (transport_ok : forall p a, preserves env_ok (transport rpc p a)).
Context (robust_ok : forall p a, preserves env_ok (robust_transport rpc p a)).

Lemma keeps_call (tr : RpcTransport A W) method req_body peer known :
  (forall p a, preserves env_ok (tr p a)) -> preserves env_ok (call rpc tr method req_body peer known).
Proof. intros Htr. unfold call. apply preserves_bind; [apply Htr|]. intros; keep. Qed.

Lemma keeps_find_node peer t : preserves env_ok (find_node rpc peer t).
Proof using transport_ok. pose proof (keeps_call (transport rpc)). unfold find_node. keep. Qed.

Lemma keeps_find_value peer key : preserves env_ok (find_value rpc peer key).
Proof using robust_ok. pose proof (keeps_call (robust_transport rpc)). unfold find_value. keep. Qed.

Lemma keeps_store peer key value proof : preserves env_ok (store_with_proof rpc peer key value proof).
Proof using robust_ok. pose proof (keeps_call (robust_transport rpc)). unfold store_with_proof. keep. Qed.

Lemma keeps_ping peer : preserves env_ok (ping rpc peer).
Proof using transport_ok. pose proof (keeps_call (transport rpc)). unfold ping. keep. Qed.

#[local] Hint Resolve keeps_find_node keeps_find_value keeps_store keeps_ping : keeps.

Lemma keeps_top_up lookup_id room s : preserves env_ok (top_up rpc lookup_id room s).
Proof.
  intros e [He Hj]. destruct (top_up_spec rpc lookup_id room s e) as (_ & Ht & Hw). split; congruence.
Qed.

#[local] Hint Resolve keeps_top_up : keeps.

Lemma keeps_lookup_loop target lookup_id s :
  preserves env_ok (lookup_loop pick rpc target lookup_id s).
Proof using transport_ok. unfold lookup_loop, lookup_round, take_next. keep. Qed.

#[local] Hint Resolve keeps_lookup_loop : keeps.

Lemma keeps_lookup_node target : preserves env_ok (lookup_node pick rpc target).
Proof using transport_ok. unfold lookup_node, lookup_run, node_lookup_end, lookup_start. keep. Qed.

#[local] Hint Resolve keeps_lookup_node : keeps.

Lemma keeps_values_loop key accept stop i budget cands flight probes found :
  preserves env_ok (values_loop pick rpc key accept stop i budget cands flight probes found).
Proof using robust_ok.
  revert cands flight probes found. induction budget as [|budget IH]; intros; [apply preserves_ret|].
  cbn [values_loop]. unfold take_next, lookup_probe. keep.
Qed.

#[local] Hint Resolve keeps_values_loop : keeps.

Lemma keeps_lookup_values key accept stop :
  preserves env_ok (lookup_values pick rpc key accept stop).
Proof using transport_ok robust_ok. unfold lookup_values, lookup_start, value_lookup_end. keep. Qed.

Lemma keeps_lookup_value key : preserves env_ok (lookup_value pick rpc key).
Proof using transport_ok robust_ok. pose proof keeps_lookup_values. unfold lookup_value. keep. Qed.

Lemma keeps_store_on key value proof targets n : preserves env_ok (store_on rpc key value proof targets n).
Proof using robust_ok.
  revert n. induction targets as [|t targets IH]; intros n; [apply preserves_ret|]. cbn [store_on]. keep.
Qed.

#[local] Hint Resolve keeps_lookup_values keeps_lookup_value keeps_store_on : keeps.

Lemma keeps_store_value value proof : preserves env_ok (store_value_with_proof pick rpc value proof).
Proof using transport_ok robust_ok. unfold store_value_with_proof. keep. Qed.

#[local] Hint Resolve keeps_store_value : keeps.

(** ** The registry *)

Context (dns : string -> M (Env A W) (option VerifyingKey)) (dns_ok : forall d, preserves env_ok (dns d)).
#[local] Hint Resolve dns_ok : keeps.

Lemma keeps_get_latest domain package : preserves env_ok (get_latest pick rpc dns domain package).
Proof using transport_ok robust_ok dns_ok. unfold get_latest. keep. Qed.

Lemma keeps_walk_loop {S} (I : S -> Prop) latest owner domain package (fetch : Key -> M S (option bytes))
    room current seen newer chain :
  (forall k, preserves I (fetch k)) ->
  preserves I (walk_loop latest owner domain package fetch room current seen newer chain).
Proof.
  intros Hf. revert current seen newer chain. induction room as [|room IH]; intros; cbn [walk_loop]; keep.
Qed.

Lemma keeps_walk_chain {S} (I : S -> Prop) latest owner domain package (fetch : Key -> M S (option bytes)) :
  (forall k, preserves I (fetch k)) -> preserves I (walk_chain latest owner domain package fetch).
Proof. intros Hf. pose proof (keeps_walk_loop I). unfold walk_chain. keep. Qed.

Lemma keeps_fetch_record key : preserves env_ok (fetch_record pick rpc key).
Proof using transport_ok robust_ok. unfold fetch_record. keep. Qed.

#[local] Hint Resolve keeps_get_latest keeps_walk_chain keeps_fetch_record : keeps.

Lemma keeps_load_from_pointer pointer : preserves env_ok (load_chain_from_pointer pick rpc dns pointer).
Proof using transport_ok robust_ok dns_ok. unfold load_chain_from_pointer. keep. Qed.

Lemma keeps_load_chain domain package : preserves env_ok (load_chain pick rpc dns domain package).
Proof using transport_ok robust_ok dns_ok. unfold load_chain. keep. Qed.

Lemma keeps_store_publication prepared : preserves env_ok (store_publication pick rpc prepared).
Proof using transport_ok robust_ok. unfold store_publication. keep. Qed.

#[local] Hint Resolve keeps_load_from_pointer keeps_load_chain keeps_store_publication : keeps.

Lemma keeps_publish domain package version blob signer previous force :
  preserves env_ok (publish_package pick rpc dns domain package version blob signer previous force).
Proof using transport_ok robust_ok dns_ok. unfold publish_package, check_signer, existing_history. keep. Qed.

Lemma keeps_install domain package requested : preserves env_ok (install_package pick rpc dns domain package requested).
Proof using transport_ok robust_ok dns_ok. unfold install_package. keep. Qed.

Lemma keeps_show domain package : preserves env_ok (show_package pick rpc dns domain package).
Proof using transport_ok robust_ok dns_ok. unfold show_package. keep. Qed.

(** ** Joining and upkeep *)

Lemma keeps_bootstrap (rand_id : M (Env A W) NodeId) seed :
  preserves env_ok rand_id -> preserves env_ok (bootstrap pick rand_id rpc seed).
Proof using transport_ok.
  intros Hr. unfold bootstrap. keep.
  match goal with |- preserves _ (refresh_buckets _ _ _ ?l) => induction l as [|b buckets IH] end;
    cbn [refresh_buckets]; keep.
Qed.

Lemma keeps_probe_all dead l : preserves env_ok (probe_all rpc dead l).
Proof using transport_ok.
  revert dead. induction l as [|c l IH]; intros dead; cbn [probe_all]; [keep|]. unfold probe_contact. keep.
Qed.

Lemma keeps_check_liveness order : preserves env_ok (check_liveness order rpc).
Proof using transport_ok.
  pose proof keeps_probe_all. unfold check_liveness. keep.
  match goal with |- preserves _ (probe_chunks _ ?d ?l) =>
    generalize d; induction l as [|f chunks IH] end; intros; cbn [probe_chunks]; keep.
Qed.

Lemma keeps_republish values : preserves env_ok (republish_values pick dns rpc values).
Proof using transport_ok robust_ok dns_ok. unfold republish_values, republish_one, republish_proof. keep. Qed.
End keeps.
