(* ===== verification/Restoring.v ===== *)
(** * Restoring: republishing brings a value back to where it is looked for

    Nodes join, and then the nearest node to a key may be one that never got the
    value.  In a network of the program's own nodes ([Society]), one round of
    [republish_values] ([src/maintenance.rs]) by any node that still has a blob puts
    it on the nearest node, and so it is found again from everywhere. *)

From S2P Require Import Prelude Slices Machine Contacts StaticBucket SiblingList Cache Progress.
From S2P Require Import Crates Text Package VersionChain Wire Stream HandleRpc Rpc Lookup Converge Society PutGet.
From S2P Require Import Registry Maintenance Keeps.

#[local] Opaque K.

(** A round of stores, with and without counting. *)
Lemma store_on_for_each `{Sha256} `{Ed25519} `{Codec} `{Hex} {A W : Type} `{CloseNodes A} `{Clock W}
    (rpc : Rpc A W) key value proof targets n (e : Env A W) :
  (for_each targets (fun target => _ ← store_with_proof rpc target key value proof; mret tt) e).2 =
  (store_on rpc key value proof targets n e).2.
Proof.
  revert n e. induction targets as [|t targets IH]; intros n e; [done|]. cbn [for_each store_on].
  rewrite !bind_eq, ret_eq. apply IH.
Qed.

Lemma for_each_app {S X} (l1 l2 : list X) (body : X -> M S unit) s :
  (for_each (l1 ++ l2) body s).2 = (for_each l2 body (for_each l1 body s).2).2.
Proof. revert s. induction l1 as [|x l1 IH]; intros s; [done|]. cbn [app for_each]. rewrite !bind_eq. apply IH. Qed.

Section restoring.
Context `{Sha256} `{Ed25519} `{CodecLaws} `{Hex} {W D : Type} `{Clock W} `{!DnsData D}.
Context (peers : W -> gmap SocketAddr (Context RecommendedCloseNodes D)).
Context (population : gset NodeId) (home_of : NodeId -> SocketAddr) (key : Key).

Definition any_key (k : Key) : Prop := True.

Abbreviation permitted := (fun _ => no_pointer key).
Abbreviation stable := (stable population home_of any_key permitted).
Abbreviation network := (network population home_of any_key).
Abbreviation participant := (participant peers population home_of permitted).
Abbreviation swarm := (swarm peers).
Abbreviation nearest := (nearest population key).

Context (contacts_total : forall l : list Contact, is_Some (serialize l)).
Context (keys_total : forall k : Key, is_Some (serialize k)).
Context (replies_total : forall r : FindValueReply, is_Some (serialize r)).
Context (stores_total : forall r : StoreRequest, is_Some (serialize r)).
Context (home_inj : forall i j, i ∈ population -> j ∈ population -> home_of i = home_of j -> i = j).
Context (homes_plain : forall j, j ∈ population -> plain (home_of j)).
Context (few : forall k g, any_key k -> g ∈ population -> uncrowded (others population g) g k).
Context (company : forall j, j ∈ population -> exists g, g ∈ population /\ g <> j).
Context (pick : W -> nat) (rpc : Rpc RecommendedCloseNodes W) (client : participant rpc).
Context (dns : string -> M (Env RecommendedCloseNodes W) (option VerifyingKey)).
Context (resolver : forall domain e,
  rtc (meanwhile population home_of permitted) (swarm rpc e) (swarm rpc (dns domain e).2)).

Section keeping.
Context (Q : NodeId -> gmap Key Value -> D -> Prop) (Q_stable : stable Q).
Abbreviation ready := (fun e => network Q (swarm rpc e)).

Lemma dns_keeps domain : preserves ready (dns domain).
Proof using home_inj few company resolver Q_stable H2. intros e Hm. eapply network_meanwhile; [done|done|done|exact Q_stable|apply resolver|exact Hm]. Qed.

Lemma fetch_record_keeps k : preserves ready (fetch_record pick rpc k).
Proof using All.
  unfold fetch_record, lookup_value. apply preserves_bind; [|intros ?; apply preserves_ret].
  apply preserves_bind; [|intros ?; apply preserves_ret]. eapply lookup_values_keeps; [done..|exact client|by intros ?].
Qed.

Lemma republish_proof_keeps value : preserves ready (republish_proof pick dns rpc value).
Proof using All.
  destruct value as [b|pointer]; [apply preserves_ret|]. apply preserves_bind; [|intros ?; apply preserves_ret].
  apply preserves_bind; [apply dns_keeps|]. intros [owner|]; [|apply preserves_ret].
  apply keeps_walk_chain. apply fetch_record_keeps.
Qed.

(** Republishing anything but a pointer under the key. *)
Lemma republish_one_keeps kv :
  (kv.1 = key -> is_latest kv.2 = false) -> preserves ready (republish_one pick dns rpc kv).
Proof using All.
  destruct kv as [k value]. intros Hkv. apply preserves_bind; [apply republish_proof_keeps|].
  intros [proof|]; [|apply preserves_ret]. intros e Hm.
  destruct (lookup_reaches peers population home_of any_key permitted contacts_total keys_total home_inj homes_plain few company
    pick Q rpc k e Q_stable client I Hm) as (Hm' & Hres & _). cbv zeta in Hres. rewrite bind_eq. cbn [fst] in *.
  set (near := lookup_node pick rpc k e) in *. clearbody near.
  refine (preserves_for_each ready _ _ _ near.2 Hm'). intros c Hc.
  apply preserves_bind; [|intros ?; apply preserves_ret].
  eapply store_keeps; [done..|by apply Hres|]. intros m q _ Hq p proof'. rewrite (deserialize_serialize _ _ Hq).
  intros [= -> -> _]. by specialize (Hkv eq_refl).
Qed.
End keeping.

(** Republishing the blob. *)
Lemma republish_blob_network blob e :
  key_for_value blob = key -> network (pointer_free key) (swarm rpc e) ->
  network (among (pointer_free key) (holds key) nearest) (swarm rpc (republish_one pick dns rpc (key, Blob blob) e).2).
Proof using All.
  intros Hk Hm. destruct (stores_total (MkStoreRequest key (Blob blob) [])) as [q Hq].
  unfold republish_one, republish_proof. cbn [fst snd]. rewrite bind_eq, ret_eq. cbn [fst snd]. rewrite bind_eq.
  rewrite (store_on_for_each rpc key (Blob blob) [] _ 0).
  eapply store_round_network; [done..|apply pointer_free_stable|apply holds_kept|done|done|exact Hq| |exact Hm|reflexivity|reflexivity].
  by eapply blob_welcome.
Qed.

(** A round by a node that has the blob. *)
Lemma republish_network values blob e :
  key_for_value blob = key -> (key, Blob blob) ∈ values ->
  (forall kv, kv ∈ values -> kv.1 = key -> is_latest kv.2 = false) -> network (pointer_free key) (swarm rpc e) ->
  network (among (pointer_free key) (holds key) nearest) (swarm rpc (republish_values pick dns rpc values e).2).
Proof using All.
  intros Hk Hin Hfree Hm. unfold republish_values.
  pose proof (sort_by_Permutation blobs_first values) as Hperm.
  rewrite <- Hperm in Hin. apply list_elem_of_split in Hin as (l1 & l2 & Hl).
  assert (forall kv, kv ∈ l1 ++ (key, Blob blob) :: l2 -> kv.1 = key -> is_latest kv.2 = false) as Hfree'
    by (intros kv Hkv; apply Hfree; by rewrite <- Hperm, Hl).
  rewrite Hl, for_each_app. cbn [for_each]. rewrite bind_eq.
  refine (preserves_for_each (fun e => network (among (pointer_free key) (holds key) nearest) (swarm rpc e)) l2 _ _ _ _).
  - intros kv Hkv. apply republish_one_keeps; [|apply Hfree'; set_solver].
    apply stable_among; [apply pointer_free_stable|apply holds_kept].
  - apply republish_blob_network; [done|].
    refine (preserves_for_each (fun e => network (pointer_free key) (swarm rpc e)) l1 _ _ e Hm).
    intros kv Hkv. apply republish_one_keeps; [apply pointer_free_stable|apply Hfree'; set_solver].
Qed.
End restoring.
