(* ===== verification/Node.v ===== *)
(** * Node: one node, its shared state and its tasks

    Models [src/node.rs].  A node's server, client calls and upkeep tasks share
    one routing table (an [Arc] held by both [Rpc] and [Context]), one value map
    and one resolver.  Its state is the client's environment: the table is
    there once, and the map and the resolver are part of the world the client
    does not touch.  The server's [Context] is a view on that state
    ([on_context]).  The periodic tasks and the commands are the activities a
    node performs; what happens at the awaits inside them is the relation
    [background]. *)

From S2P Require Import Prelude Slices Machine Contacts StaticBucket SiblingList Cache Crates Package Wire HandleRpc.
From S2P Require Import DnsKeys Network Rpc Lookup Bootstrap Registry Maintenance Keeps.

Record NodeWorld (D W : Type) : Type := MkNodeWorld {
  nw_values : gmap Key Value;
  nw_dns : D;
  nw_outside : W
}.
Arguments MkNodeWorld {D W} nw_values nw_dns nw_outside.
Arguments nw_values {D W} n.
Arguments nw_dns {D W} n.
Arguments nw_outside {D W} n.

Record Node : Type := MkNode { node_id : NodeId; node_address : SocketAddr }.

Definition contact (n : Node) : Contact := MkContact (node_id n) (node_address n).

#[export] Instance node_clock {D W} `{Clock W} : Clock (NodeWorld D W) := fun w => clock (nw_outside w).

(** The derived order of keys: byte by byte. *)
Definition by_key (a b : Key * Value) : comparison := lex_cmp (elems a.1) (elems b.1).

Section node.
Context `{Sha256} `{Ed25519} `{Codec} `{Hex} {D W : Type} `{!DnsData D} `{Clock W}.

Abbreviation A := RecommendedCloseNodes.
Abbreviation NodeEnv := (Env RecommendedCloseNodes (NodeWorld D W)).

(** The server's view of the shared state. *)
Definition context_of (n : Node) (e : NodeEnv) : Context A D :=
  MkContext (node_id n) (table e) (nw_values (world e)) (nw_dns (world e)).

Definition with_context (c : Context A D) (e : NodeEnv) : NodeEnv :=
  MkEnv (ctx_nodes c) (metrics e) (next_lookup e)
    (MkNodeWorld (ctx_values c) (ctx_dns c) (nw_outside (world e))).

Definition on_context {X} (n : Node) (m : M (Context A D) X) : M NodeEnv X :=
  fun e => let r := m (context_of n e) in (r.1, with_context r.2 e).

Definition set_values (values : gmap Key Value) (e : NodeEnv) : NodeEnv :=
  MkEnv (table e) (metrics e) (next_lookup e)
    (MkNodeWorld values (nw_dns (world e)) (nw_outside (world e))).

(** [Node::dns()], for the client side. *)
Definition node_dns (domain : string) : M NodeEnv (option VerifyingKey) :=
  fun e =>
    let r := get_dns_vk domain (nw_dns (world e)) in
    (r.1, MkEnv (table e) (metrics e) (next_lookup e)
            (MkNodeWorld (nw_values (world e)) r.2 (nw_outside (world e)))).

(** ** Starting a node *)

(** What the constructors share: a node with an empty state at [address]. *)
Definition node_start (address : SocketAddr) (dns : D) (lookups : u64) (outside : W) : Node * NodeEnv :=
  let id := node_id_from_address address in
  (MkNode id address, MkEnv (recommended id) [] lookups (MkNodeWorld ∅ dns outside)).

(** [udp] is the address the socket got, [listen] whether TCP binds it too. *)
Definition bind_with_dns (udp : result IoError SocketAddr) (listen : SocketAddr -> result IoError unit)
    (dns : D) (lookups : u64) (outside : W) : result IoError (Node * NodeEnv) :=
  address ← udp;
  _ ← listen address;
  Ok (node_start address dns lookups outside).

(** [FakeNode::new]: the node and its endpoint; [None] if no port is free. *)
Definition fake_node_new (dns : D) (lookups : u64) (outside : W) : M Network (option (Node * NodeEnv * nat)) :=
  fun net =>
    let bound := bind_any net in
    ((ep ← bound.1;
      e ← endpoints bound.2 !! ep;
      Some (node_start (ep_addr e) dns lookups outside, ep)), bound.2).

Definition node_rpc (n : Node) (transport robust : RpcTransport A (NodeWorld D W)) : Rpc A (NodeWorld D W) :=
  MkRpc (contact n) transport robust.

(** ** Snapshots *)

Definition routing_snapshot (e : NodeEnv) : list Contact * list (nat * list Contact) :=
  (siblings (inner (table e)), non_empty_buckets (sl_fallback (inner (table e)))).

(** [iter] is the order in which the map is iterated. *)
Definition datastore_snapshot (iter : gmap Key Value -> list (Key * Value)) (e : NodeEnv) : list (Key * Value) :=
  sort_by by_key (iter (nw_values (world e))).

(** ** What a node does *)

Inductive Activity : Type :=
| ActServe (now : Instant) (request : Request)
| ActPing (peer : SocketAddr)
| ActPut (value : Value)
| ActGet (key : Key)
| ActPublish (domain package : string) (version : Version) (blob : bytes) (signer : SigningKey)
    (previous : option Version) (force : bool)
| ActInstall (domain package : string) (requested : option Version)
| ActShow (domain package : string)
| ActJoin (seed : SocketAddr)
| ActLiveness
| ActRepublish.

Context (pick : NodeWorld D W -> nat) (rand_id : M NodeEnv NodeId)
  (order : gset Contact -> list Contact) (iter : gmap Key Value -> list (Key * Value)).
Context (n : Node) (rpc : Rpc A (NodeWorld D W)).

(** One round of the liveness task and of the republishing task. *)
Definition liveness_round : M NodeEnv unit := check_liveness order rpc.

Definition republish_round : M NodeEnv unit :=
  values ← gets (fun e => iter (nw_values (world e)));
  republish_values pick node_dns rpc values.

Definition perform (a : Activity) : M NodeEnv unit :=
  match a with
  | ActServe now request => _ ← on_context n (dispatch now request); mret tt
  | ActPing peer => _ ← ping rpc peer; mret tt
  | ActPut value => _ ← store_value pick rpc value; mret tt
  | ActGet key => _ ← lookup_value pick rpc key; mret tt
  | ActPublish domain package version blob signer previous force =>
      _ ← publish_package pick rpc node_dns domain package version blob signer previous force; mret tt
  | ActInstall domain package requested =>
      _ ← install_package pick rpc node_dns domain package requested; mret tt
  | ActShow domain package => _ ← show_package pick rpc node_dns domain package; mret tt
  | ActJoin seed => _ ← bootstrap pick rand_id rpc seed; mret tt
  | ActLiveness => liveness_round
  | ActRepublish => republish_round
  end.
End node.

(** ** What happens around an await *)

Section safety.
Context `{Sha256} `{Ed25519} `{CodecLaws} `{Hex} {D W : Type} `{!DnsData D} `{Clock W}.
Context (Auth : string -> VerifyingKey -> Prop)
  (dns_auth : forall domain d vk, (get_dns_vk domain d).1 = Some vk -> Auth domain vk).

Abbreviation NodeEnv := (Env RecommendedCloseNodes (NodeWorld D W)).

Context (n : Node).

(** The atomic steps of this node's tasks, and of everybody else. *)
Inductive background (e : NodeEnv) : NodeEnv -> Prop :=
| bg_serve now request : background e (on_context n (dispatch now request) e).2
| bg_commit values : commit_step Auth (nw_values (world e)) values -> background e (set_values values e)
| bg_offer c : background e (offer_contact c e).2
| bg_forget c : background e (forget c e).2
| bg_query t : background e (query_table t e).2
| bg_log line : background e (info line e).2
| bg_lookup_id : background e (next_lookup_id e).2
| bg_outside dns outside :
    background e (MkEnv (table e) (metrics e) (next_lookup e) (MkNodeWorld (nw_values (world e)) dns outside)).

(** The values have gone through commits only, since they were [m0]. *)
Definition committed (m0 : gmap Key Value) (w : NodeWorld D W) : Prop :=
  rtc (commit_step Auth) m0 (nw_values w).

Lemma serve_ok m0 now request : preserves (env_ok (committed m0)) (on_context n (dispatch now request)).
Proof using H2 dns_auth.
  intros e [Ht Hv]. split.
  - exact (dispatch_inv now request (context_of n e) Ht).
  - unfold committed in *. cbn.
    destruct (dispatch_values Auth dns_auth now request (context_of n e)) as [->|Hs]; [done|].
    by eapply rtc_r.
Qed.

Lemma background_ok m0 e e' : env_ok (committed m0) e -> background e e' -> env_ok (committed m0) e'.
Proof using H2 dns_auth.
  intros He Hb. destruct Hb as [now request|values Hs|c|c|t|line| |dns outside].
  - by apply serve_ok.
  - destruct He as [Ht Hv]. split; [done|]. unfold committed in *. cbn. by eapply rtc_r.
  - by apply keeps_offer.
  - by apply keeps_forget.
  - by apply keeps_query.
  - by apply keeps_info.
  - by apply keeps_next_lookup_id.
  - destruct He as [Ht Hv]. by split.
Qed.

(** A computation during which only background steps happen. *)
Definition backgrounded {X} (m : M NodeEnv X) : Prop := forall e, rtc background e (m e).2.

Lemma backgrounded_ok {X} m0 (m : M NodeEnv X) : backgrounded m -> preserves (env_ok (committed m0)) m.
Proof using H2 dns_auth.
  intros Hm e He. specialize (Hm e). induction Hm as [|e1 e2 e3 Hs _ IH]; [done|].
  apply IH. by eapply background_ok.
Qed.

Lemma node_dns_ok m0 domain : preserves (env_ok (committed m0)) (node_dns domain).
Proof. by intros e. Qed.

Context (pick : NodeWorld D W -> nat) (rand_id : M NodeEnv NodeId)
  (order : gset Contact -> list Contact) (iter : gmap Key Value -> list (Key * Value)).
Context (rpc : Rpc RecommendedCloseNodes (NodeWorld D W)).
Context (transport_bg : forall p a, backgrounded (transport rpc p a))
  (robust_bg : forall p a, backgrounded (robust_transport rpc p a)) (rand_bg : backgrounded rand_id).

Lemma perform_ok m0 a :
  preserves (env_ok (committed m0)) (perform pick rand_id order iter n rpc a).
Proof using H2 dns_auth transport_bg robust_bg rand_bg.
  pose proof (fun p a => backgrounded_ok m0 _ (transport_bg p a)) as Ht.
  pose proof (fun p a => backgrounded_ok m0 _ (robust_bg p a)) as Hr.
  pose proof (node_dns_ok m0) as Hd.
  destruct a; cbn [perform]; try (apply preserves_bind; [|intros; apply preserves_ret]).
  - apply serve_ok.
  - by apply keeps_ping.
  - unfold store_value. apply preserves_bind; [by apply keeps_store_value|]. intros; apply preserves_ret.
  - by apply keeps_lookup_value.
  - by apply keeps_publish.
  - by apply keeps_install.
  - by apply keeps_show.
  - by apply keeps_bootstrap; [|apply backgrounded_ok].
  - by apply keeps_check_liveness.
  - unfold republish_round. apply preserves_bind; [apply preserves_gets|]. intros values. by apply keeps_republish.
Qed.

(** Whatever a node does, in whatever interleaving. *)
Lemma activities_ok m0 acts :
  preserves (env_ok (committed m0)) (for_each acts (perform pick rand_id order iter n rpc)).
Proof using H2 dns_auth transport_bg robust_bg rand_bg.
  apply preserves_for_each. intros a _. apply perform_ok.
Qed.
End safety.

(** ** Snapshots list what is there *)

Lemma by_key_val a b : by_key a b = N.compare (id_val a.1) (id_val b.1).
Proof. unfold by_key, id_val. apply lex_cmp_be_val. by rewrite !array_length. Qed.

#[export] Instance by_key_total : TotalCmp by_key.
Proof.
  split.
  - intros a. rewrite by_key_val. apply N.compare_refl.
  - intros a b. rewrite !by_key_val. apply N.compare_antisym.
  - intros a b c. rewrite !by_key_val, !N.compare_ngt_iff. lia.
Qed.
