(* ===== verification/Upkeep.v ===== *)
(** * Upkeep: the periodic tasks of a node

    Models [periodic_task] of [src/node.rs]: two tasks, each of which sleeps for a
    jittered period, runs one round of upkeep ([Node]) and starts again.  When a
    sleeper is woken after its time is up, how long a round takes and what the
    node does meanwhile is the runtime's choice, so a run is a sequence of events.
    [began] and [started] are not in the code: they record what happened, for the
    statements. *)

From S2P Require Import Prelude Slices Machine Contacts Jitter Cache Crates Text Package VersionChain Wire HandleRpc DnsKeys.
From S2P Require Import Rpc Lookup Bootstrap Registry Maintenance Keeps Node.

Local Open Scope N_scope.

Inductive UpkeepTask : Type := LivenessTask | RepublishTask.

#[export] Instance UpkeepTask_eq_dec : EqDecision UpkeepTask.
Proof. solve_decision. Defined.

(** Where a task is in its loop. *)
Inductive Phase : Type :=
  | Sleeping (since until : Instant)
  | InRound.

Record Timer : Type := MkTimer {
  period : Duration;
  phase : Phase;
  started : Instant;
  began : nat
}.

(** [loop { sleep(jittered(period)).await; ... }], up to the first await. *)
Definition spawn_loop (now : Instant) (period : Duration) (factor : f64) : Timer :=
  MkTimer period (Sleeping now (now + jittered factor period)) now 0.

(** The sleep is over, if its time is up. *)
Definition wake (now : Instant) (t : Timer) : option Timer :=
  match phase t with
  | Sleeping _ until =>
      if until <=? now then Some (MkTimer (period t) InRound (started t) (began t + 1)) else None
  | InRound => None
  end.

(** The round is over: around the loop, to the next sleep. *)
Definition finish (now : Instant) (factor : f64) (t : Timer) : option Timer :=
  match phase t with
  | InRound => Some (MkTimer (period t) (Sleeping now (now + jittered factor (period t))) (started t) (began t))
  | Sleeping _ _ => None
  end.

Section upkeep.
Context `{Sha256} `{Ed25519} `{Codec} `{Hex} {D W : Type} `{!DnsData D} `{Clock W}.

Abbreviation NodeEnv := (Env RecommendedCloseNodes (NodeWorld D W)).

Context (pick : NodeWorld D W -> nat) (rand_id : M NodeEnv NodeId)
  (order : gset Contact -> list Contact) (iter : gmap Key Value -> list (Key * Value)).
Context (n : Node) (rpc : Rpc RecommendedCloseNodes (NodeWorld D W)).

Record Upkeep : Type := MkUpkeep {
  up_now : Instant;
  liveness : Timer;
  republish : Timer;
  up_node : NodeEnv
}.

Definition timer (task : UpkeepTask) (u : Upkeep) : Timer :=
  match task with LivenessTask => liveness u | RepublishTask => republish u end.

Definition set_timer (task : UpkeepTask) (t : Timer) (u : Upkeep) : Upkeep :=
  match task with
  | LivenessTask => MkUpkeep (up_now u) t (republish u) (up_node u)
  | RepublishTask => MkUpkeep (up_now u) (liveness u) t (up_node u)
  end.

(** Both tasks are spawned. *)
Definition periodic_task (republish_interval liveness_check_interval : Duration) (factors : f64 * f64)
    (now : Instant) (e : NodeEnv) : Upkeep :=
  MkUpkeep now (spawn_loop now liveness_check_interval factors.1) (spawn_loop now republish_interval factors.2) e.

Definition round_of (task : UpkeepTask) : Activity :=
  match task with LivenessTask => ActLiveness | RepublishTask => ActRepublish end.

(** What happens next. *)
Inductive UpkeepEvent : Type :=
  | Elapse (d : Duration)
  | Wake (task : UpkeepTask)
  | Finish (task : UpkeepTask) (factor : f64)
  | Does (a : Activity).

(** [None] if it cannot. *)
Definition upkeep_event (e : UpkeepEvent) (u : Upkeep) : option Upkeep :=
  match e with
  | Elapse d => Some (MkUpkeep (up_now u + d) (liveness u) (republish u) (up_node u))
  | Wake task => t ← wake (up_now u) (timer task u); Some (set_timer task t u)
  | Finish task factor =>
      t ← finish (up_now u) factor (timer task u);
      let u := set_timer task t u in
      Some (MkUpkeep (up_now u) (liveness u) (republish u)
              (perform pick rand_id order iter n rpc (round_of task) (up_node u)).2)
  | Does a =>
      Some (MkUpkeep (up_now u) (liveness u) (republish u) (perform pick rand_id order iter n rpc a (up_node u)).2)
  end.

Fixpoint upkeep_run (events : list UpkeepEvent) (u : Upkeep) : option Upkeep :=
  match events with
  | [] => Some u
  | e :: events => u ← upkeep_event e u; upkeep_run events u
  end.

(** The factors that the events draw are in range. *)
Definition draws_in_range (events : list UpkeepEvent) : Prop :=
  forall task factor, Finish task factor ∈ events -> in_jitter_range factor = true.

(** ** Spacing *)

(** A period of whole seconds, short enough to be exact as a double. *)
Definition whole (p : Duration) : Prop := exists s, 3 * s < 2 ^ 53 /\ p = from_secs s.

(** The sleeps are within bounds, and each round took half a period of sleep. *)
Record timer_ok (p : Duration) (start now : Instant) (t : Timer) : Prop := {
  to_period : period t = p;
  to_start : started t = start /\ start <= now;
  to_sleep since until : phase t = Sleeping since until ->
    since <= now /\ p <= 2 * (until - since) /\ 2 * (until - since) <= 3 * p /\
    N.of_nat (began t) * p <= 2 * (since - start) /\ start <= since;
  to_rate : N.of_nat (began t) * p <= 2 * (now - start)
}.

Lemma spawn_ok p now factor :
  whole p -> in_jitter_range factor = true -> timer_ok p now now (spawn_loop now p factor).
Proof.
  intros (s & Hs & ->) Hf. pose proof (jittered_bounds factor s Hs Hf).
  split; cbn [spawn_loop period phase started began]; [done|lia| |lia].
  intros since until [= <- <-]. lia.
Qed.

Lemma elapse_ok p start now d t : timer_ok p start now t -> timer_ok p start (now + d) t.
Proof.
  intros [Hp Hst Hsl Hr]. split; [done|lia| |lia]. intros since until Hph. specialize (Hsl since until Hph). lia.
Qed.

Lemma wake_ok p start now t t' : wake now t = Some t' -> timer_ok p start now t -> timer_ok p start now t'.
Proof.
  unfold wake. destruct (phase t) as [since until|] eqn:Hph; [|done].
  destruct (N.leb_spec until now) as [Hu|]; [|done]. intros [= <-] [Hp Hst Hsl Hr].
  split; cbn [period phase started began]; [done|done|done|].
  specialize (Hsl since until Hph). rewrite Nat2N.inj_add. change (N.of_nat 1) with 1. lia.
Qed.

Lemma finish_ok p start now factor t t' :
  whole p -> in_jitter_range factor = true ->
  finish now factor t = Some t' -> timer_ok p start now t -> timer_ok p start now t'.
Proof.
  intros (s & Hs & ->) Hf. unfold finish. destruct (phase t) as [since until|] eqn:Hph; [done|].
  intros [= <-] [Hp Hst Hsl Hr]. pose proof (jittered_bounds factor s Hs Hf).
  split; cbn [period phase started began]; [done|done| |done]. rewrite Hp. intros since until [= <- <-]. lia.
Qed.

(** Both timers, through any event. *)
Definition timers_ok (p q : Duration) (start : Instant) (u : Upkeep) : Prop :=
  timer_ok p start (up_now u) (liveness u) /\ timer_ok q start (up_now u) (republish u).

Lemma upkeep_event_ok p q start e u u' :
  whole p -> whole q -> draws_in_range [e] ->
  upkeep_event e u = Some u' -> timers_ok p q start u -> timers_ok p q start u'.
Proof.
  intros Hp Hq Hf He [Hl Hr]. destruct e as [d|task|task factor|a]; cbn [upkeep_event] in He.
  - injection He as <-. split; by apply elapse_ok.
  - apply bind_Some in He as (t & Ht & [= <-]). destruct task; split; try done; by eapply wake_ok.
  - apply bind_Some in He as (t & Ht & [= <-]).
    assert (in_jitter_range factor = true) as Hrange by (apply (Hf task); by left).
    destruct task; split; try done; by eapply finish_ok.
  - injection He as <-. by split.
Qed.

Lemma upkeep_run_ok p q start events u u' :
  whole p -> whole q -> draws_in_range events ->
  upkeep_run events u = Some u' -> timers_ok p q start u -> timers_ok p q start u'.
Proof.
  intros Hp Hq. revert u. induction events as [|e events IH]; intros u Hd Hr Hu; cbn [upkeep_run] in Hr; [by simplify_eq|].
  apply bind_Some in Hr as (u1 & He & Hr). apply (IH u1); [|done|].
  - intros task factor Hin. apply (Hd task factor). by right.
  - eapply upkeep_event_ok; [done|done| |done|done]. intros task factor Hin%list_elem_of_singleton. apply (Hd task).
    rewrite Hin. by left.
Qed.

(** A sleeper can be woken after at most one and a half periods. *)
Lemma wake_possible p q start task u since until :
  timers_ok p q start u -> phase (timer task u) = Sleeping since until ->
  let d := until - up_now u in
  2 * d <= 3 * period (timer task u) /\
  exists u', upkeep_run [Elapse d; Wake task] u = Some u' /\
    phase (timer task u') = InRound /\ (began (timer task u') = began (timer task u) + 1)%nat.
Proof.
  intros [Hl Hr] Hph. cbv zeta.
  assert (exists p' start', timer_ok p' start' (up_now u) (timer task u)) as (p' & start' & Ht)
    by (destruct task; eauto).
  pose proof (to_sleep _ _ _ _ Ht since until Hph) as Hs. rewrite (to_period _ _ _ _ Ht). split; [lia|].
  cbn [upkeep_run upkeep_event mbind option_bind].
  set (u1 := MkUpkeep _ _ _ _). assert (timer task u1 = timer task u) as E by (by destruct task).
  rewrite E. unfold wake. rewrite Hph.
  destruct (N.leb_spec until (up_now u1)) as [_|Hlt]; [|cbn [u1 up_now] in Hlt; lia].
  eexists. split; [done|]. by destruct task.
Qed.
End upkeep.
