(* ===== verification/Cli.v ===== *)
(** * Cli: the words of the command line

    Models the parsing and the texts of [src/cli.rs]: keys, package names,
    version selectors, the options of [publish], the file name an installation
    gets by default, the publisher's key, and the listings of the routing table
    and of the data store.  Texts are UTF-8 byte strings, as in Text. *)

From Stdlib Require Import Strings.Ascii.
From S2P Require Import Prelude Slices Machine Contacts Text Crates Address Package HandleRpc DnsKeys Rpc.

Local Open Scope string_scope.

(** [str::is_empty], [str::starts_with]. *)
Definition is_empty (s : string) : bool := match s with "" => true | _ => false end.
Definition starts_with (p s : string) : bool := match strip_prefix p s with Some _ => true | None => false end.

Section ids.
Context `{Hex}.

Definition short_id (id : bytes) : string :=
  let encoded := hex_encode id in
  let len := String.length encoded in
  if (len <=? 8)%nat then encoded
  else String.substring 0 4 encoded +:+ "…" +:+ String.substring (len - 4) 4 encoded.

Definition parse_key (input : string) : result string Key :=
  match hex_decode (as_bytes input) with
  | None => Err "key must be hexadecimal"
  | Some bytes =>
      match array_of ID_BYTES bytes with
      | None => Err ("key must contain exactly " +:+ show_usize (ID_BYTES * 2) +:+ " hexadecimal characters")
      | Some key => Ok key
      end
  end.
End ids.

(** ** Package names *)

Definition parse_package_name (input : string) : result string (string * string) :=
  '(domain, package) ← ok_or "expected DOMAIN:PACKAGE" (split_once ":" input);
  if is_empty domain || is_empty package || contains_char ":" package
  then Err "expected DOMAIN:PACKAGE"
  else Ok (domain, package).

Definition parse_install_name (input : string) : result string (string * string * option Version) :=
  '(name, version) ← ok_or "expected DOMAIN:PACKAGE:VERSION" (rsplit_once ":" input);
  '(domain, package) ← map_err (fun _ => "expected DOMAIN:PACKAGE:VERSION") (parse_package_name name);
  if String.eqb version "latest" then Ok (domain, package, None)
  else
    parsed ← map_err (fun _ => "invalid version; expected major.minor.patch or latest") (version_from_str version);
    Ok (domain, package, Some parsed).

(** ** [publish] *)

Record PublishArgs : Type := MkPublishArgs {
  pa_domain : string;
  pa_package : string;
  pa_version : Version;
  pa_filename : string;
  pa_previous : option Version;
  pa_force : bool
}.

(** The loop over the words: the flags so far and the positional words. *)
Fixpoint publish_words (parts : list string) (force : bool) (previous : option Version) (positional : list string)
    : result string (bool * option Version * list string) :=
  match parts with
  | [] => Ok (force, previous, positional)
  | part :: parts =>
      if String.eqb part "--force" then
        if force then Err "duplicate --force" else publish_words parts true previous positional
      else match strip_prefix "--prev=" part with
           | Some value =>
               match previous with
               | Some _ => Err "duplicate --prev"
               | None =>
                   version ← map_err (fun _ => "invalid previous version") (version_from_str value);
                   publish_words parts force (Some version) positional
               end
           | None =>
               if starts_with "--" part then Err "unknown publish option"
               else publish_words parts force previous (positional ++ [part])%list
           end
  end.

Definition parse_publish_args (parts : list string) : result string PublishArgs :=
  '(force, previous, positional) ← publish_words parts false None [];
  match positional with
  | [name; filename] =>
      '(domain, package, requested) ← parse_install_name name;
      version ← ok_or "publish requires a numeric version, not latest" requested;
      Ok (MkPublishArgs domain package version filename previous force)
  | _ => Err "expected DOMAIN:PACKAGE:VERSION FILENAME"
  end.

(** ** The default file name of an installation *)

Definition is_ascii_alphanumeric (c : ascii) : bool :=
  let n := N_of_ascii c in
  ((48 <=? n) && (n <=? 57) || (65 <=? n) && (n <=? 90) || (97 <=? n) && (n <=? 122))%N.

Definition plain_char (c : ascii) : bool :=
  is_ascii_alphanumeric c ||
  match c with "."%char | "-"%char | "_"%char => true | _ => false end.

(** A byte that continues a UTF-8 character: [10xxxxxx]. *)
Definition continuation (c : ascii) : bool := ((128 <=? N_of_ascii c) && (N_of_ascii c <? 192))%N.

(** [chars().map(..)]: one [_] for each character that is not plain. *)
Fixpoint sanitize (s : string) : string :=
  match s with
  | "" => ""
  | String c s =>
      if continuation c then sanitize s
      else String (if plain_char c then c else "_") (sanitize s)
  end.

Definition default_install_filename (domain package : string) (version : Version) : string :=
  sanitize (domain +:+ "-" +:+ package +:+ "-" +:+ version_to_string version +:+ ".pkg").

(** ** The publisher's key *)

Definition ascii_lower (c : ascii) : ascii :=
  let n := N_of_ascii c in if ((65 <=? n) && (n <=? 90))%N then ascii_of_N (n + 32) else c.

Fixpoint eq_ignore_ascii_case (s t : string) : bool :=
  match s, t with
  | "", "" => true
  | String a s, String b t => Ascii.eqb (ascii_lower a) (ascii_lower b) && eq_ignore_ascii_case s t
  | _, _ => false
  end.

(** [char::is_whitespace]: how many bytes of white space a text begins with. *)
Definition space_len (s : string) : nat :=
  match (N_of_ascii <$> String.list_ascii_of_string (String.substring 0 3 s)) with
  | a :: rest =>
      if ((9 <=? a) && (a <=? 13) || (a =? 32))%N then 1 else
      match rest with
      | b :: rest =>
          if ((a =? 194) && ((b =? 133) || (b =? 160)))%N then 2 else
          match rest with
          | c :: _ =>
              if ((a =? 225) && (b =? 154) && (c =? 128)
                  || (a =? 226) && (b =? 128) && ((128 <=? c) && (c <=? 138) || (c =? 168) || (c =? 169) || (c =? 175))
                  || (a =? 226) && (b =? 129) && (c =? 159)
                  || (a =? 227) && (b =? 128) && (c =? 128))%N
              then 3 else 0
          | [] => 0
          end
      | [] => 0
      end
  | [] => 0
  end.

(** [skip] bytes of a white space character are still to be passed over. *)
Fixpoint trim_start (skip : nat) (s : string) : string :=
  match s, skip with
  | "", _ => ""
  | String _ s', S skip => trim_start skip s'
  | String _ s', O => match space_len s with O => s | S skip => trim_start skip s' end
  end.

Fixpoint trim_end (s : string) : string :=
  match s with
  | "" => ""
  | String c s' => if is_empty (trim_start 0 s) then "" else String c (trim_end s')
  end.

Definition trim (s : string) : string := trim_end (trim_start 0 s).

(** [str::split_whitespace]: the word the text continues, and those after it. *)
Fixpoint words_from (skip : nat) (s : string) : string * list string :=
  match s, skip with
  | "", _ => ("", [])
  | String _ s', S skip => words_from skip s'
  | String c s', O =>
      match space_len s with
      | O => let (w, ws) := words_from 0 s' in (String c w, ws)
      | S skip => let (w, ws) := words_from skip s' in ("", if is_empty w then ws else w :: ws)
      end
  end.

Definition split_whitespace (s : string) : list string :=
  let (w, ws) := words_from 0 s in if is_empty w then ws else w :: ws.

Section signer.
Context `{Ed25519} `{Hex}.

(** The [DnsBackend::Fake] arm; [var] is the variable's value, if set. *)
Definition fake_publisher_key (var : option string) : result string SigningKey :=
  let identity := default (match FAKE_KEYS with k :: _ => fk_domain k | [] => "" end) var in
  match find (fun key => eq_ignore_ascii_case (fk_domain key) identity) FAKE_KEYS with
  | None => Err ("unknown fake publisher identity: " +:+ identity)
  | Some key => ok_or ("invalid fake publisher key for " +:+ identity) (fk_signing_key key)
  end.

(** The [DnsBackend::Real] arm; [read] is [fs::read_to_string]. *)
Definition real_publisher_key (var : option string) (read : string -> result string string)
    : result string SigningKey :=
  path ← ok_or "set D7024E_SIGNING_KEY_FILE to your private key file" var;
  contents ← map_err (fun error => "could not read signing key file: " +:+ error) (read path);
  match decode_to_slice 32 (as_bytes (trim contents)) with
  | None => Err "signing key must be exactly 64 hexadecimal characters"
  | Some bytes => Ok (sk_from_bytes bytes)
  end.

Definition load_publisher_key (fake : bool) (env_var : string -> option string)
    (read : string -> result string string) : result string SigningKey :=
  if fake then fake_publisher_key (env_var "D7024E_FAKE_PUBLISHER")
  else real_publisher_key (env_var "D7024E_SIGNING_KEY_FILE") read.
End signer.

Example words_example :
  split_whitespace "  show   example.org:tool  " = ["show"; "example.org:tool"] /\
  trim "  ab  c  " = "ab  c".
Proof. by vm_compute. Qed.

(** ** Listings *)

Definition nl : string := String "010"%char "".

Section listings.
Context `{Sha256} `{Ed25519} `{Codec} `{Hex}.
(** [bincode] with [DefaultOptions], fixed-width integers, a limit of 64 KiB
    and trailing bytes allowed. *)
Context (decode_limited : bytes -> option (Signed VersionRecord)).

Definition show_bytes (n : N) : string := "(" +:+ decimal 20 n +:+ " bytes)".

Definition describe_datastore_entry (key : Key) (value : Value) : string :=
  let key_hex := hex_encode (elems key) in
  let blob := key_hex +:+ "  blob " +:+ show_bytes (value_len value) in
  match value with
  | Latest pointer =>
      key_hex +:+ "  latest pointer " +:+ show_bytes (value_len value) +:+ nl +:+
      "    package: " +:+ lp_domain (body pointer) +:+ ":" +:+ lp_package (body pointer) +:+ nl +:+
      "    version: " +:+ version_to_string (lp_version (body pointer)) +:+ nl +:+
      "    record: " +:+ hex_encode (elems (lp_version_record_hash (body pointer)))
  | Blob bytes =>
      match decode_limited bytes with
      | None => blob
      | Some record =>
          if String.eqb (vr_tag (body record)) VERSION_RECORD_TAG && bool_decide (record_key record = Some key)
          then
            key_hex +:+ "  version record " +:+ show_bytes (value_len value) +:+ nl +:+
            "    package: " +:+ vr_domain (body record) +:+ ":" +:+ vr_package (body record) +:+ nl +:+
            "    version: " +:+ version_to_string (vr_version (body record)) +:+ nl +:+
            "    blob: " +:+ hex_encode (elems (vr_blob_hash (body record))) +:+ nl +:+
            "    prev: " +:+ hex_encode (elems (vr_prev (body record)))
          else blob
      end
  end.

(** The lines [show ds] prints. *)
Definition show_datastore (values : list (Key * Value)) : list string :=
  match values with
  | [] => ["<empty>"]
  | _ => (fun kv => describe_datastore_entry kv.1 kv.2) <$> values
  end.

Definition show_contact (indent : string) (c : Contact) : string :=
  indent +:+ short_id (elems (id c)) +:+ "  " +:+ socket_to_string (address c).

(** The lines [show rt] prints for a routing snapshot. *)
Definition show_routing_table (snapshot : list Contact * list (nat * list Contact)) : list string :=
  let (siblings, buckets) := snapshot in
  (["siblings:"] ++
   match siblings with [] => ["  <empty>"] | _ => show_contact "  " <$> siblings end ++
   ["buckets:"] ++
   match buckets with
   | [] => ["  <empty>"]
   | _ => mjoin ((fun '(index, contacts) =>
            ("  bucket " +:+ show_usize index +:+ ":") :: (show_contact "    " <$> contacts)) <$> buckets)
   end)%list.
End listings.

Definition help_lines : list string := [
  "commands:";
  "  ping IP:PORT";
  "  put FILENAME";
  "  get KEY [FILENAME]";
  "  install DOMAIN:PACKAGE:VERSION [FILENAME]";
  "  publish [--force] [--prev=VERSION] DOMAIN:PACKAGE:VERSION FILENAME";
  "  show rt";
  "  show ds";
  "  show dns DOMAIN";
  "  show DOMAIN:PACKAGE";
  "  help";
  "  exit"
].

(** ** What the parsers accept *)

Lemma is_empty_spec s : is_empty s = true <-> s = "".
Proof. by destruct s. Qed.

Lemma split_on_contains c sep s :
  c <> sep -> (forall p, p ∈ split_on sep s -> contains_char c p = false) -> contains_char c s = false.
Proof.
  intros Hc. induction s as [|a s IH]; intros Hp; [done|]. cbn [contains_char split_on] in *.
  destruct (ascii_dec a sep) as [->|Ha].
  - destruct (ascii_dec sep c); [congruence|]. apply IH. intros p Hin. apply Hp. by right.
  - destruct (split_on sep s) as [|h t] eqn:E.
    + specialize (Hp (String a "") ltac:(by left)). cbn in Hp. destruct (ascii_dec a c); [done|].
      apply IH. intros p Hin. set_solver.
    + pose proof (Hp (String a h) ltac:(by left)) as Hh. cbn in Hh. destruct (ascii_dec a c); [done|].
      apply IH. intros p [->|Hin]%elem_of_cons; [done|]. apply Hp. by right.
Qed.

Lemma parse_digits_free c max acc s n :
  parse_digits max acc s = Some n -> char_digit c = None -> contains_char c s = false.
Proof.
  intros Hp Hc. revert acc Hp. induction s as [|a s IH]; intros acc Hp; [done|].
  cbn [parse_digits contains_char] in *. destruct (ascii_dec a c) as [->|_]; [by rewrite Hc in Hp|].
  destruct (char_digit a) as [d|]; [|done]. cbn in Hp. case_match; [by eapply IH|done].
Qed.

Lemma parse_uint_free w c s n :
  parse_uint w s = Some n -> char_digit c = None -> c <> "+"%char -> contains_char c s = false.
Proof.
  unfold parse_uint. intros Hp Hc Hplus.
  set (digits := match s with String "+" rest => rest | _ => s end) in Hp.
  assert (s = digits \/ s = String "+" digits) as Hs.
  { subst digits. destruct s as [|[[] [] [] [] [] [] [] []] s]; (left; reflexivity) || (right; reflexivity). }
  clearbody digits. assert (contains_char c digits = false) as Hd.
  { destruct digits as [|a digits]; [done|]. apply fmap_Some in Hp as (m & Hm & _). by eapply parse_digits_free. }
  destruct Hs as [->| ->]; [done|]. cbn [contains_char]. by destruct (ascii_dec _ _).
Qed.

Lemma version_text_free v ver : version_from_str v = Ok ver -> contains_char ":" v = false.
Proof.
  unfold version_from_str. destruct (split_on "." v) as [|a [|b [|c [|]]]] eqn:E; try done.
  destruct (parse_uint 32 a) eqn:Ha; [|done]. destruct (parse_uint 32 b) eqn:Hb; [|done].
  destruct (parse_uint 32 c) eqn:Hc; [|done]. intros _.
  apply (split_on_contains _ "."); [done|]. rewrite E.
  intros p Hp. rewrite !elem_of_cons in Hp.
  destruct Hp as [->|[->|[->|Hp]]]; [by eapply parse_uint_free..|set_solver].
Qed.

(** A well-formed DOMAIN:PACKAGE. *)
Definition package_name (s domain package : string) : Prop :=
  s = domain +:+ ":" +:+ package /\ domain <> "" /\ package <> "" /\
  contains_char ":" domain = false /\ contains_char ":" package = false.

Lemma parse_package_name_spec s domain package :
  parse_package_name s = Ok (domain, package) <-> package_name s domain package.
Proof.
  unfold parse_package_name, package_name. split.
  - destruct (split_once ":" s) as [[h t]|] eqn:E; [|done]. cbn.
    destruct (is_empty h || is_empty t || contains_char ":" t) eqn:Hb; [done|]. intros [= -> ->].
    apply split_once_Some in E as [-> Hh]. apply orb_false_iff in Hb as [[Hd Hp]%orb_false_iff Hc].
    split_and!; try done; by intros ->.
  - intros (-> & Hd & Hp & Hcd & Hcp). change (":" +:+ package) with (String ":" package).
    rewrite split_once_sep by done. cbn. rewrite Hcp. by destruct domain, package.
Qed.

(** The selector after the last colon. *)
Definition selects (text : string) (requested : option Version) : Prop :=
  match requested with None => text = "latest" | Some v => version_from_str text = Ok v end.

Lemma parse_install_name_spec s domain package requested :
  parse_install_name s = Ok (domain, package, requested) <->
  exists name text, s = name +:+ ":" +:+ text /\ package_name name domain package /\ selects text requested.
Proof.
  unfold parse_install_name. split.
  - destruct (rsplit_once ":" s) as [[h t]|] eqn:E; [|done]. apply rsplit_once_Some in E as [-> _]. cbn.
    destruct (parse_package_name h) as [[d p]|] eqn:Hp; [|done]. cbn. apply parse_package_name_spec in Hp.
    destruct (String.eqb t "latest") eqn:Hl.
    + intros [= -> -> <-]. apply String.eqb_eq in Hl. by exists h, t.
    + destruct (version_from_str t) as [v|] eqn:Hv; [|done]. intros [= -> -> <-]. by exists h, t.
  - intros (name & text & -> & Hn & Hs). change (":" +:+ text) with (String ":" text).
    assert (contains_char ":" text = false) as Hf.
    { destruct requested as [v|]; [by eapply version_text_free|by rewrite Hs]. }
    rewrite rsplit_once_sep by done. cbn. apply parse_package_name_spec in Hn. rewrite Hn. cbn.
    destruct requested as [v|]; cbn in Hs; [|by rewrite Hs].
    destruct (String.eqb text "latest") eqn:Hl; [apply String.eqb_eq in Hl; by subst text|].
    by rewrite Hs.
Qed.

(** *** The words of [publish] *)

Definition is_option (part : string) : bool := starts_with "--" part.

(** The values given with [--prev=]. *)
Definition prev_values (parts : list string) : list string := omap (strip_prefix "--prev=") parts.

Definition positionals (parts : list string) : list string := List.filter (fun p => negb (is_option p)) parts.

(** [n] flags, and at most one previous version. *)
Definition known_option (part : string) : bool := String.eqb part "--force" || starts_with "--prev=" part.

Lemma force_not_prev part : String.eqb part "--force" = true -> strip_prefix "--prev=" part = None /\ is_option part = true.
Proof. intros ->%String.eqb_eq. done. Qed.

Lemma strip_prefix_Some p s r : strip_prefix p s = Some r -> s = p +:+ r.
Proof.
  revert s. induction p as [|a p IH]; intros s; cbn; [by intros [= ->]|].
  destruct s as [|b s]; [done|]. destruct (ascii_dec a b) as [->|]; [|done]. intros ->%IH. done.
Qed.

Lemma prev_is_option part v : strip_prefix "--prev=" part = Some v -> is_option part = true.
Proof. intros ->%strip_prefix_Some. done. Qed.

Definition count_force (parts : list string) : nat := length (List.filter (fun p => String.eqb p "--force") parts).

(** The flags are acceptable: only known ones, [--force] and [--prev=] at most
    once, counting what came before. *)
Definition flags_ok (parts : list string) (force : bool) (previous : option Version)
    (force' : bool) (previous' : option Version) : Prop :=
  (forall p, p ∈ parts -> is_option p = true -> known_option p = true) /\
  count_force parts + Nat.b2n force = Nat.b2n force' /\
  match prev_values parts with
  | [] => previous' = previous
  | [v] => previous = None /\ exists ver, version_from_str v = Ok ver /\ previous' = Some ver
  | _ => False
  end.

Lemma known_cons part parts :
  (forall p, p ∈ part :: parts -> is_option p = true -> known_option p = true) <->
  (is_option part = true -> known_option part = true) /\
  (forall p, p ∈ parts -> is_option p = true -> known_option p = true).
Proof.
  split.
  - intros Ha. split; [apply Ha; by left|]. intros p Hp. apply Ha. by right.
  - intros [Hh Ht] p [->|Hp]%elem_of_cons; [done|by apply Ht].
Qed.

Lemma flags_ok_force part parts force previous force' previous' :
  String.eqb part "--force" = true ->
  flags_ok (part :: parts) force previous force' previous' <->
  force = false /\ flags_ok parts true previous force' previous'.
Proof.
  intros Hf. destruct (force_not_prev part Hf) as [Hp Ho].
  unfold flags_ok, count_force, prev_values. rewrite known_cons. unfold known_option. cbn [List.filter omap list_omap].
  rewrite Hf, Hp. cbn [length orb]. split.
  - intros (Ha & Hc & Hv). destruct force; [destruct force'; cbn in Hc; lia|]. split_and!; [done|apply Ha| |done].
    cbn in Hc |- *. lia.
  - intros (-> & Ha & Hc & Hv). cbn in Hc |- *. split_and!; [done|exact Ha|lia|done].
Qed.

Lemma flags_ok_prev part parts force previous force' previous' v :
  String.eqb part "--force" = false -> strip_prefix "--prev=" part = Some v ->
  flags_ok (part :: parts) force previous force' previous' <->
  previous = None /\ exists ver, version_from_str v = Ok ver /\ flags_ok parts force (Some ver) force' previous'.
Proof.
  intros Hf Hp. unfold flags_ok, count_force, prev_values.
  rewrite known_cons. unfold known_option, starts_with. cbn [List.filter omap list_omap]. rewrite Hf, Hp. cbn [orb].
  change (omap (strip_prefix "--prev=") parts) with (prev_values parts).
  destruct (prev_values parts) as [|v1 [|v2 vs]].
  - split.
    + intros ([_ Ha] & Hc & -> & ver & Hv & ->). eauto 8.
    + intros (-> & ver & Hv & Ha & Hc & ->). split; [by split|]. split; [done|]. eauto.
  - split; [intros (_ & _ & [])|]. by intros (_ & ver & _ & _ & _ & ? & _).
  - split; [intros (_ & _ & [])|]. by intros (_ & ver & _ & _ & _ & []).
Qed.

Lemma flags_ok_other part parts force previous force' previous' :
  String.eqb part "--force" = false -> strip_prefix "--prev=" part = None ->
  flags_ok (part :: parts) force previous force' previous' <->
  is_option part = false /\ flags_ok parts force previous force' previous'.
Proof.
  intros Hf Hp. unfold flags_ok, count_force, prev_values.
  rewrite known_cons. unfold known_option, starts_with. cbn [List.filter omap list_omap]. rewrite Hf, Hp. cbn [orb].
  destruct (is_option part); [split; [intros ([Hk _] & _); by specialize (Hk eq_refl)|by intros [? _]]|].
  split.
  - intros ([_ Ha] & Hc & Hv). exact (conj eq_refl (conj Ha (conj Hc Hv))).
  - intros (_ & Ha & Hc & Hv). split; [by split|by split].
Qed.

(** What the loop accepts, from any accumulators. *)
Lemma publish_words_spec parts force previous positional force' previous' positional' :
  publish_words parts force previous positional = Ok (force', previous', positional') <->
  flags_ok parts force previous force' previous' /\ positional' = (positional ++ positionals parts)%list.
Proof.
  revert force previous positional. induction parts as [|part parts IH]; intros force previous positional.
  { unfold flags_ok. cbn. rewrite app_nil_r. split.
    - intros [= -> -> ->]. split_and!; [set_solver|done..].
    - intros ((_ & Hf & ->) & ->). by destruct force, force'. }
  cbn [publish_words]. unfold positionals. cbn [List.filter].
  destruct (String.eqb part "--force") eqn:Hf.
  { rewrite flags_ok_force, (proj2 (force_not_prev part Hf)) by done. cbn [negb].
    destruct force; [split; [done|intros [[? _] _]; done]|]. rewrite IH. naive_solver. }
  destruct (strip_prefix "--prev=" part) as [v|] eqn:Hp.
  - rewrite flags_ok_prev, (prev_is_option part v Hp) by done. cbn [negb].
    destruct previous; [split; [done|intros [[? _] _]; done]|].
    destruct (version_from_str v) as [ver|err]; cbn; [rewrite IH|]; naive_solver.
  - rewrite flags_ok_other by done. unfold is_option.
    destruct (starts_with "--" part); cbn [negb]; [split; [done|intros [[? _] _]; done]|].
    rewrite IH, <- app_assoc. naive_solver.
Qed.

Lemma parse_publish_args_spec parts a :
  parse_publish_args parts = Ok a <->
  exists name, positionals parts = [name; pa_filename a] /\
    flags_ok parts false None (pa_force a) (pa_previous a) /\
    parse_install_name name = Ok (pa_domain a, pa_package a, Some (pa_version a)).
Proof.
  unfold parse_publish_args. split.
  - destruct (publish_words parts false None []) as [[[f pv] pos]|] eqn:E; [|done].
    apply publish_words_spec in E as [Hfl ->]. cbn.
    destruct (positionals parts) as [|name [|file [|]]]; try done.
    destruct (parse_install_name name) as [[[d p] [v|]]|] eqn:Hn; cbn; try done.
    intros [= <-]. by exists name.
  - intros (name & Hpos & Hfl & Hn).
    assert (publish_words parts false None [] = Ok (pa_force a, pa_previous a, [name; pa_filename a])) as ->.
    { apply publish_words_spec. by rewrite Hpos. }
    cbn. rewrite Hn. cbn. by destruct a.
Qed.

(** ** The default file name *)

Lemma sanitize_plain s c : contains_char c (sanitize s) = true -> plain_char c = true.
Proof.
  induction s as [|a s IH]; [done|]. cbn [sanitize]. destruct (continuation a); [done|]. cbn [contains_char].
  destruct (ascii_dec _ c) as [<-|_]; [|done]. by destruct (plain_char a) eqn:Ha.
Qed.

Lemma sanitize_app s t : sanitize (s +:+ t) = sanitize s +:+ sanitize t.
Proof.
  induction s as [|a s IH]; [done|]. change (String a s +:+ t) with (String a (s +:+ t)).
  cbn [sanitize]. rewrite IH. by destruct (continuation a).
Qed.

(** A generated name is one plain path component: nothing but letters, digits,
    dots, dashes and underscores, ending in [.pkg]. *)
Lemma default_install_filename_plain domain package version :
  (forall c, contains_char c (default_install_filename domain package version) = true -> plain_char c = true) /\
  exists stem, default_install_filename domain package version = stem +:+ ".pkg".
Proof.
  unfold default_install_filename. split; [intros c; apply sanitize_plain|].
  rewrite !sanitize_app. change (sanitize ".pkg") with ".pkg".
  exists (sanitize domain +:+ sanitize "-" +:+ sanitize package +:+ sanitize "-" +:+ sanitize (version_to_string version)).
  by rewrite !append_assoc.
Qed.
