(* ===== verification/Shell.v ===== *)
(** * Shell: the read-eval loop of the command line

    Models [run] of [src/cli.rs], one definition per command, over the node of
    [Node] and the parsers of [Cli].  Standard input is the sequence of lines it
    yields; standard output is the sequence of texts printed; the file system is
    a parameter ([Files]) with the documented behaviour of the calls as laws; the
    metric lines of the lookups a command runs are appended to metrics.log in it.
    The process environment does not change while the program runs. *)

From Stdlib Require Import Strings.Ascii.
From S2P Require Import Prelude Slices Machine Contacts Jitter Cache Crates Text Address AddressParse Package VersionChain.
From S2P Require Import Wire HandleRpc DnsKeys Rpc Lookup Bootstrap Registry Keeps Node Cli.

Local Open Scope string_scope.

(** ** Texts of errors: [Display] is the derived [Debug] *)

Definition debug_key (key : Key) : string := "[" +:+ join ", " (show_byte <$> elems key) +:+ "]".

Definition debug_version (v : Version) : string :=
  "Version { major: " +:+ show_u32 (major v) +:+ ", minor: " +:+ show_u32 (minor v) +:+
  ", patch: " +:+ show_u32 (patch v) +:+ " }".

Definition chain_error_to_string (e : ChainError) : string :=
  match e with
  | NoDnsKey => "NoDnsKey"
  | NoLatestPointer => "NoLatestPointer"
  | InvalidLatestPointer => "InvalidLatestPointer"
  | MissingRecord key => "MissingRecord(" +:+ debug_key key +:+ ")"
  | HashMismatch key => "HashMismatch(" +:+ debug_key key +:+ ")"
  | InvalidEncoding key => "InvalidEncoding(" +:+ debug_key key +:+ ")"
  | InvalidRecord key => "InvalidRecord(" +:+ debug_key key +:+ ")"
  | HeadVersionMismatch => "HeadVersionMismatch"
  | NonDecreasingVersion => "NonDecreasingVersion"
  | Cycle key => "Cycle(" +:+ debug_key key +:+ ")"
  | TooManyVersions => "TooManyVersions"
  | EmptyChain => "EmptyChain"
  | DifferentPackage => "DifferentPackage"
  | UnexpectedRecords => "UnexpectedRecords"
  end.

Definition publish_error_to_string (e : PublishError) : string :=
  match e with
  | VersionNotNewer => "VersionNotNewer"
  | PreviousNotFound => "PreviousNotFound"
  | PreviousNotLatest => "PreviousNotLatest"
  | WrongPackageHistory => "WrongPackageHistory"
  | EncodingFailed => "EncodingFailed"
  | PubNoDnsKey => "NoDnsKey"
  | WrongSigningKey => "WrongSigningKey"
  | InvalidExistingHistory e => "InvalidExistingHistory(" +:+ chain_error_to_string e +:+ ")"
  | BlobNotStored => "BlobNotStored"
  | RecordNotStored => "RecordNotStored"
  | PointerNotStored => "PointerNotStored"
  end.

Definition install_error_to_string (e : InstallError) : string :=
  match e with
  | InvalidHistory e => "InvalidHistory(" +:+ chain_error_to_string e +:+ ")"
  | VersionNotFound v => "VersionNotFound(" +:+ debug_version v +:+ ")"
  | BlobUnavailable key => "BlobUnavailable(" +:+ debug_key key +:+ ")"
  end.

(** ** [{:.2?}] of a [Duration] *)

(** [n / d] to two decimals, a tie to the even digit. *)
Definition round_hundredths (n d : N) : N := div_half_even (n * 100) d.

Definition two_decimals (n d : N) (suffix : string) : string :=
  let q := round_hundredths n d in
  decimal 20 (q / 100) +:+ "." +:+ decimal 1 (q / 10 mod 10) +:+ decimal 1 (q mod 10) +:+ suffix.

Definition debug_duration_2 (d : Duration) : string :=
  if (1000000000 <=? d)%N then two_decimals d 1000000000 "s"
  else if (1000000 <=? d)%N then two_decimals d 1000000 "ms"
  else if (1000 <=? d)%N then two_decimals d 1000 "µs"
  else two_decimals d 1 "ns".

Example duration_2_text :
  (debug_duration_2 1234567, debug_duration_2 (from_millis 1999), debug_duration_2 999999, debug_duration_2 7)
  = ("1.23ms", "2.00s", "1000.00µs", "7.00ns").
Proof. by vm_compute. Qed.

(** ** [std::str::from_utf8] *)

Definition in_range (lo hi : N) (b : byte) : bool := ((lo <=? Byte.to_N b) && (Byte.to_N b <=? hi))%N.
Definition cont : byte -> bool := in_range 128 191.

Fixpoint utf8_valid (l : bytes) : bool :=
  match l with
  | [] => true
  | a :: l =>
      if in_range 0 127 a then utf8_valid l else
      match l with
      | [] => false
      | b :: l =>
          if in_range 194 223 a then cont b && utf8_valid l else
          match l with
          | [] => false
          | c :: l =>
              if in_range 224 239 a then
                (if in_range 224 224 a then in_range 160 191 b
                 else if in_range 237 237 a then in_range 128 159 b else cont b)
                && cont c && utf8_valid l
              else
              match l with
              | [] => false
              | d :: l =>
                  in_range 240 244 a &&
                  (if in_range 240 240 a then in_range 144 191 b
                   else if in_range 244 244 a then in_range 128 143 b else cont b)
                  && cont c && cont d && utf8_valid l
              end
          end
      end
  end.

Definition from_utf8 (l : bytes) : option string :=
  if utf8_valid l then Some (String.string_of_list_byte l) else None.

Example utf8_examples :
  (utf8_valid (as_bytes "blåbär …"), utf8_valid [xff], utf8_valid [xc3], utf8_valid [xed; xa0; x80],
   utf8_valid [xf0; x9f; x92; xa9], utf8_valid [xc0; x80]) = (true, false, false, false, true, false).
Proof. by vm_compute. Qed.

(** ** The host *)

(** [tokio::fs]: errors are what [Display] makes of them.  [fs_create_new] is
    [OpenOptions::new().write(true).create_new(true).open(..)], and
    [file_write_all] writes to the file so created.  [fs_append] is what arrives at
    a path when the program writes to the file it opened there to append to
    ([fern::log_file]). *)
Class Files (F : Type) := {
  fs_read : string -> F -> result string bytes;
  fs_write : string -> bytes -> M F (result string unit);
  fs_create_new : string -> M F (result string unit);
  file_write_all : string -> bytes -> M F (result string unit);
  fs_remove_file : string -> M F (result string unit);
  fs_append : string -> bytes -> M F (result string unit)
}.

(** [fs::read_to_string]. *)
Definition read_to_string {F} `{Files F} (path : string) (f : F) : result string string :=
  bytes ← fs_read path f;
  ok_or "stream did not contain valid UTF-8" (from_utf8 bytes).

Record Shell (E F : Type) : Type := MkShell {
  sh_node : E;
  sh_files : F;
  sh_out : list string
}.
Arguments MkShell {E F} sh_node sh_files sh_out.
Arguments sh_node {E F} s.
Arguments sh_files {E F} s.
Arguments sh_out {E F} s.

(** The file of the metrics ([logging.rs]); each line ends the line before it, and
    nobody hears of a line that could not be written. *)
Definition METRICS_LOG : string := "metrics.log".

Definition log_metrics {F} `{Files F} (lines : list string) (f : F) : F :=
  foldl (fun f line => (fs_append METRICS_LOG (as_bytes (line +:+ nl)) f).2) f lines.

Section host.
Context {A W F : Type} `{Files F}.
Abbreviation E := (Env A W).

(** The node acts, and the metric lines of its lookups go to their file. *)
Definition on_node {X} (m : M E X) : M (Shell E F) X :=
  fun s =>
    let r := m (sh_node s) in
    (r.1, MkShell r.2 (log_metrics (drop (length (metrics (sh_node s))) (metrics r.2)) (sh_files s)) (sh_out s)).
Definition on_files {X} (m : M F X) : M (Shell E F) X :=
  fun s => let r := m (sh_files s) in (r.1, MkShell (sh_node s) r.2 (sh_out s)).
Definition print (text : string) : M (Shell E F) unit :=
  modify (fun s => MkShell (sh_node s) (sh_files s) (sh_out s ++ [text])%list).
Definition println (text : string) : M (Shell E F) unit := print (text +:+ nl).
End host.

Definition show_len (l : bytes) : string := decimal 20 (N.of_nat (length l)).

(** ** The commands *)

(** Whether the loop goes on. *)
Inductive Flow : Type := Continue | Break.

(** The arms of the [match] on the words of a line. *)
Inductive Command : Type :=
  | CmdBlank
  | CmdPing (address : string)
  | CmdPut (filename : string)
  | CmdGet (key : string)
  | CmdGetToFile (key filename : string)
  | CmdShowRt
  | CmdShowDs
  | CmdShowDns (domain : string)
  | CmdShow (name : string)
  | CmdInstall (identifier : string) (output : option string)
  | CmdInstallUsage
  | CmdPublish (args : list string)
  | CmdHelp
  | CmdExit
  | CmdUnknown.

(** Which arm the words select, in the source's order. *)
Definition classify (parts : list string) : Command :=
  match parts with
  | [] => CmdBlank
  | ["ping"; address] => CmdPing address
  | ["put"; filename] => CmdPut filename
  | ["get"; key] => CmdGet key
  | ["get"; key; filename] => CmdGetToFile key filename
  | ["show"; "rt"] => CmdShowRt
  | ["show"; "ds"] => CmdShowDs
  | ["show"; "dns"; domain] => CmdShowDns domain
  | ["show"; name] => CmdShow name
  | ["install"; identifier] => CmdInstall identifier None
  | ["install"; identifier; filename] => CmdInstall identifier (Some filename)
  | "install" :: _ => CmdInstallUsage
  | "publish" :: args => CmdPublish args
  | ["help"] => CmdHelp
  | ["exit"] => CmdExit
  | _ => CmdUnknown
  end.

Example classify_examples :
  (classify ["show"; "dns"], classify ["show"; "dns"; "a.org"], classify ["install"], classify ["install"; "a"; "b"; "c"],
   classify ["publish"], classify ["exit"; "now"], classify ["ping"])
  = (CmdShow "dns", CmdShowDns "a.org", CmdInstallUsage, CmdInstallUsage, CmdPublish [], CmdUnknown, CmdUnknown).
Proof. reflexivity. Qed.

Section commands.
Context `{Sha256} `{Ed25519} `{Codec} `{Hex} `{DomainName} {R W F : Type} `{!Resolver R} `{Clock W} `{Files F}.

Abbreviation NodeEnv := (Env RecommendedCloseNodes (NodeWorld (DnsBackend (R := R)) W)).
Abbreviation ShellM X := (M (Shell NodeEnv F) X).

Context (pick : NodeWorld (DnsBackend (R := R)) W -> nat) (iter : gmap Key Value -> list (Key * Value)).
Context (rpc : Rpc RecommendedCloseNodes (NodeWorld (DnsBackend (R := R)) W)).
Context (env_var : string -> option string) (decode_limited : bytes -> option (Signed VersionRecord)).

(** What the node's other tasks do while a line is awaited. *)
Context (idle : M NodeEnv unit).

Definition ping_command (address : string) : ShellM unit :=
  match parse_socket_addr address with
  | None => println "invalid address"
  | Some address =>
      start ← gets (fun s => clock (world (sh_node s)));
      reply ← on_node (ping rpc address);
      match reply with
      | Some id =>
          elapsed ← gets (fun s => elapsed (clock (world (sh_node s))) start);
          on_node (offer_contact (MkContact id address));;
          println ("pong from " +:+ socket_to_string address +:+ " (" +:+ short_id (elems id) +:+ ") in " +:+
                   debug_duration_2 elapsed)
      | None => println ("no response from " +:+ socket_to_string address)
      end
  end.

Definition put_command (filename : string) : ShellM unit :=
  contents ← gets (fun s => fs_read filename (sh_files s));
  match contents with
  | Err e => println ("could not read " +:+ filename +:+ ": " +:+ e)
  | Ok value =>
      key ← on_node (store_value pick rpc (Blob value));
      println ("stored " +:+ show_len value +:+ " bytes as " +:+ hex_encode (elems key))
  end.

Definition from_text (source : Contact) (value : bytes) : string :=
  "received " +:+ show_len value +:+ " bytes from " +:+ socket_to_string (address source) +:+
  " (" +:+ short_id (elems (id source)) +:+ ")".

Definition get_command (key : string) : ShellM unit :=
  match parse_key key with
  | Err e => println e
  | Ok key =>
      found ← on_node (lookup_value pick rpc key);
      match found with
      | Some (source, value) =>
          println (from_text source value);;
          match from_utf8 value with
          | Some text => println text
          | None => println ("binary value (hex): " +:+ hex_encode value)
          end
      | None => println "value not found"
      end
  end.

Definition get_to_file_command (key filename : string) : ShellM unit :=
  match parse_key key with
  | Err e => println e
  | Ok key =>
      found ← on_node (lookup_value pick rpc key);
      match found with
      | Some (source, value) =>
          written ← on_files (fs_write filename value);
          match written with
          | Err e => println ("could not write " +:+ filename +:+ ": " +:+ e)
          | Ok _ => println (from_text source value +:+ " and wrote " +:+ filename)
          end
      | None => println "value not found"
      end
  end.

Definition show_rt_command : ShellM unit :=
  lines ← gets (fun s => show_routing_table (routing_snapshot (sh_node s)));
  for_each lines println.

Definition show_ds_command : ShellM unit :=
  lines ← gets (fun s => show_datastore decode_limited (datastore_snapshot iter (sh_node s)));
  for_each lines println.

Definition show_dns_command (domain : string) : ShellM unit :=
  key ← on_node (node_dns domain);
  match key with
  | Some key => println (domain +:+ ": " +:+ hex_encode (elems (vk_to_bytes key)))
  | None => println ("no public key found for " +:+ domain)
  end.

Definition show_package_command (name : string) : ShellM unit :=
  match parse_package_name name with
  | Err error => println error
  | Ok (domain, package) =>
      shown ← on_node (show_package pick rpc node_dns domain package);
      match shown with
      | Ok versions =>
          println (domain +:+ ":" +:+ package);;
          for_each versions (fun version =>
            println ("  " +:+ version_to_string (pv_version version) +:+
                     (if pv_is_latest version then " (latest)" else ""));;
            println ("    blob: " +:+ hex_encode (elems (pv_blob_key version))))
      | Err error => println ("could not show " +:+ domain +:+ ":" +:+ package +:+ ": " +:+ chain_error_to_string error)
      end
  end.

(** What [install] does with a verified package. *)
Definition save_installed (domain package filename : string) (installed : InstalledPackage) : ShellM unit :=
  created ← on_files (fs_create_new filename);
  match created with
  | Err error => println ("could not create " +:+ filename +:+ ": " +:+ error)
  | Ok _ =>
      written ← on_files (file_write_all filename (ip_blob installed));
      match written with
      | Err error =>
          _ ← on_files (fs_remove_file filename);
          println ("could not write " +:+ filename +:+ ": " +:+ error)
      | Ok _ =>
          println ("installed " +:+ domain +:+ ":" +:+ package +:+ ":" +:+ version_to_string (ip_version installed));;
          println ("  file: " +:+ filename);;
          println ("  size: " +:+ show_len (ip_blob installed) +:+ " bytes");;
          println ("  hash: " +:+ hex_encode (elems (ip_blob_key installed)))
      end
  end.

Definition install_command (identifier : string) (output : option string) : ShellM unit :=
  match parse_install_name identifier with
  | Err error => println error
  | Ok (domain, package, requested_version) =>
      installed ← on_node (install_package pick rpc node_dns domain package requested_version);
      match installed with
      | Err error => println ("could not install " +:+ identifier +:+ ": " +:+ install_error_to_string error)
      | Ok installed =>
          let filename := default (default_install_filename domain package (ip_version installed)) output in
          save_installed domain package filename installed
      end
  end.

Definition is_fake (dns : DnsBackend (R := R)) : bool := match dns with Fake _ => true | Real _ => false end.

Definition receipt_line (name : string) (key : Key) (accepted : nat) : string :=
  "  " +:+ name +:+ ": " +:+ hex_encode (elems key) +:+ " (" +:+ show_usize accepted +:+ " acknowledgments)".

Definition publish_command (args : list string) : ShellM unit :=
  match parse_publish_args args with
  | Err error =>
      println error;;
      println "usage: publish [--force] [--prev=VERSION] DOMAIN:PACKAGE:VERSION FILENAME"
  | Ok options =>
      contents ← gets (fun s => fs_read (pa_filename options) (sh_files s));
      match contents with
      | Err error => println ("could not read " +:+ pa_filename options +:+ ": " +:+ error)
      | Ok blob =>
          signer ← gets (fun s => load_publisher_key (is_fake (nw_dns (world (sh_node s)))) env_var
                                    (fun path => read_to_string path (sh_files s)));
          match signer with
          | Err error => println ("cannot publish: " +:+ error)
          | Ok signer =>
              result ← on_node (publish_package pick rpc node_dns (pa_domain options) (pa_package options)
                                  (pa_version options) blob signer (pa_previous options) (pa_force options));
              match result with
              | Ok receipt =>
                  println ("published " +:+ pa_domain options +:+ ":" +:+ pa_package options +:+ ":" +:+
                           version_to_string (pa_version options));;
                  println ("  size: " +:+ show_len blob +:+ " bytes");;
                  println (receipt_line "blob" (blob_key receipt) (blob_accepted receipt));;
                  println (receipt_line "record" (rec_key receipt) (record_accepted receipt));;
                  println (receipt_line "latest" (lat_key receipt) (latest_accepted receipt))
              | Err error => println ("publication failed: " +:+ publish_error_to_string error)
              end
          end
      end
  end.

Definition print_help : ShellM unit := for_each help_lines println.

(** The arm a line selects runs. *)
Definition execute (c : Command) : ShellM Flow :=
  match c with
  | CmdBlank => mret Continue
  | CmdPing address => ping_command address;; mret Continue
  | CmdPut filename => put_command filename;; mret Continue
  | CmdGet key => get_command key;; mret Continue
  | CmdGetToFile key filename => get_to_file_command key filename;; mret Continue
  | CmdShowRt => show_rt_command;; mret Continue
  | CmdShowDs => show_ds_command;; mret Continue
  | CmdShowDns domain => show_dns_command domain;; mret Continue
  | CmdShow name => show_package_command name;; mret Continue
  | CmdInstall identifier output => install_command identifier output;; mret Continue
  | CmdInstallUsage => println "usage: install DOMAIN:PACKAGE:VERSION [FILENAME]";; mret Continue
  | CmdPublish args => publish_command args;; mret Continue
  | CmdHelp => print_help;; mret Continue
  | CmdExit => mret Break
  | CmdUnknown => println "unknown command; type 'help'";; mret Continue
  end.

(** What the terminal does at a prompt. *)
Inductive Input : Type :=
  | Line (line : string)
  | FlushFails (e : IoError)
  | ReadFails (e : IoError).

(** The loop over the input, which ends with end of file at the latest. *)
Fixpoint run_loop (input : list Input) : ShellM (result IoError unit) :=
  print "kademlia> ";;
  on_node idle;;
  match input with
  | [] => mret (Ok tt)
  | FlushFails e :: _ => mret (Err e)
  | ReadFails e :: _ => mret (Err e)
  | Line line :: input =>
      flow ← execute (classify (split_whitespace line));
      match flow with
      | Continue => run_loop input
      | Break => mret (Ok tt)
      end
  end.

Definition run (input : list Input) : ShellM (result IoError unit) :=
  print_help;; run_loop input.
End commands.

Local Close Scope string_scope.

(** ** What the commands preserve *)

Section keeps.
Context `{Sha256} `{Ed25519} `{Codec} `{Hex} `{DomainName} {R W F : Type} `{!Resolver R} `{Clock W} `{Files F}.

Abbreviation NodeEnv := (Env RecommendedCloseNodes (NodeWorld (DnsBackend (R := R)) W)).

(** The node inside a shell. *)
Definition inside (P : NodeEnv -> Prop) (s : Shell NodeEnv F) : Prop := P (sh_node s).

Lemma inside_node {X} P (m : M NodeEnv X) : preserves P m -> preserves (inside P) (on_node m).
Proof. intros Hm s Hs. by apply Hm. Qed.

Lemma inside_files {X} P (m : M F X) : preserves (inside P) (on_files m).
Proof. by intros s Hs. Qed.

Lemma inside_println P text : preserves (inside P) (println text).
Proof. by intros s Hs. Qed.

Lemma inside_print P text : preserves (inside P) (print text).
Proof. by intros s Hs. Qed.

#[local] Hint Resolve inside_files inside_println inside_print : keeps.

Context (J : NodeWorld (DnsBackend (R := R)) W -> Prop).
Context (pick : NodeWorld (DnsBackend (R := R)) W -> nat) (iter : gmap Key Value -> list (Key * Value)).
Context (rpc : Rpc RecommendedCloseNodes (NodeWorld (DnsBackend (R := R)) W)).
Context (env_var : string -> option string) (decode_limited : bytes -> option (Signed VersionRecord)).
Context (transport_ok : forall p a, preserves (env_ok J) (transport rpc p a)).
Context (robust_ok : forall p a, preserves (env_ok J) (robust_transport rpc p a)).
Context (dns_ok : forall d, preserves (env_ok J) (node_dns d)).
Context (idle : M NodeEnv unit) (idle_ok : preserves (env_ok J) idle).

Abbreviation ok := (inside (env_ok J)).

Lemma inside_client {X} (m : M NodeEnv X) : preserves (env_ok J) m -> preserves ok (on_node m).
Proof. apply inside_node. Qed.

(** A command leaves the node's table sound and its world as it has to be. *)
Lemma keeps_execute c : preserves ok (execute pick iter rpc env_var decode_limited c).
Proof using transport_ok robust_ok dns_ok.
  assert (forall a, preserves ok (on_node (ping rpc a))) by (intros; by apply inside_client, keeps_ping).
  assert (forall x, preserves ok (on_node (offer_contact x))) by (intros; by apply inside_client, keeps_offer).
  assert (forall k, preserves ok (on_node (lookup_value pick rpc k)))
    by (intros; by apply inside_client, keeps_lookup_value).
  assert (forall v, preserves ok (on_node (store_value pick rpc v))).
  { intros v. apply inside_client. unfold store_value. apply preserves_bind; [by apply keeps_store_value|].
    intros; apply preserves_ret. }
  assert (forall d, preserves ok (on_node (node_dns d))) by (intros; by apply inside_client).
  assert (forall d p, preserves ok (on_node (show_package pick rpc node_dns d p)))
    by (intros; by apply inside_client, keeps_show).
  assert (forall d p v, preserves ok (on_node (install_package pick rpc node_dns d p v)))
    by (intros; by apply inside_client, keeps_install).
  assert (forall d p v b k o f, preserves ok (on_node (publish_package pick rpc node_dns d p v b k o f)))
    by (intros; by apply inside_client, keeps_publish).
  destruct c; cbn [execute];
    unfold ping_command, put_command, get_command, get_to_file_command, show_rt_command, show_ds_command,
      show_dns_command, show_package_command, install_command, save_installed, publish_command, print_help;
    keep.
Qed.

(** So does a whole session, whatever is typed. *)
Lemma keeps_run input : preserves ok (run pick iter rpc env_var decode_limited idle input).
Proof using transport_ok robust_ok dns_ok idle_ok.
  pose proof keeps_execute as Hx. pose proof (inside_client idle idle_ok) as Hi. unfold run. apply preserves_bind.
  { unfold print_help. keep. }
  intros _. induction input as [|[line|e|e] input IH]; cbn [run_loop]; keep.
Qed.
End keeps.

(** ** Files *)

(** What the calls do to the files there are.  A [tokio] file defers its last
    write to another thread, so after [write_all] a prefix may be there. *)
Class FilesLaws (F : Type) `{Files F} := {
  contents : F -> gmap string bytes;
  read_law path f bs : fs_read path f = Ok bs -> contents f !! path = Some bs;
  write_law path bs f :
    match (fs_write path bs f).1 with
    | Ok _ => contents (fs_write path bs f).2 = <[path := bs]> (contents f)
    | Err _ => contents (fs_write path bs f).2 = contents f \/
        exists part, part `prefix_of` bs /\ contents (fs_write path bs f).2 = <[path := part]> (contents f)
    end;
  create_law path f :
    match (fs_create_new path f).1 with
    | Ok _ => contents f !! path = None /\ contents (fs_create_new path f).2 = <[path := []]> (contents f)
    | Err _ => contents (fs_create_new path f).2 = contents f
    end;
  write_all_law path bs f : contents f !! path = Some [] ->
    exists part, part `prefix_of` bs /\ contents (file_write_all path bs f).2 = <[path := part]> (contents f);
  remove_law path f :
    match (fs_remove_file path f).1 with
    | Ok _ => contents (fs_remove_file path f).2 = delete path (contents f)
    | Err _ => contents (fs_remove_file path f).2 = contents f
    end;
  append_law path bs f :
    contents (fs_append path bs f).2 = contents f \/
    exists old more, contents f !! path = Some old /\ contents (fs_append path bs f).2 = <[path := old ++ more]> (contents f)
}.

Lemma insert_same_key {X} (m : gmap string X) k a b : <[k := a]> m = <[k := b]> m -> a = b.
Proof. intros Heq. apply (f_equal (lookup k)) in Heq. rewrite !lookup_insert_eq in Heq. by injection Heq. Qed.

(** No write of a file that was just created is cut short unnoticed. *)
Definition prompt_writes (F : Type) `{FilesLaws F} : Prop :=
  forall path bs f, contents f !! path = Some [] -> (file_write_all path bs f).1 = Ok tt ->
    contents (file_write_all path bs f).2 = <[path := bs]> (contents f).

Section files.
Context `{Sha256} `{Ed25519} `{Codec} `{Hex} `{DomainName} {R W F : Type} `{!Resolver R} `{Clock W} `{FilesLaws F}.

Abbreviation NodeEnv := (Env RecommendedCloseNodes (NodeWorld (DnsBackend (R := R)) W)).
Implicit Type s : Shell NodeEnv F.

(** The files after [install] saved a package: nothing changed, or a file that
    was not there holds a prefix of the package. *)
Definition saved (filename : string) (blob : bytes) (before after : gmap string bytes) : Prop :=
  after = before \/
  before !! filename = None /\ exists part, part `prefix_of` blob /\ after = <[filename := part]> before.

(** The files after lookups: at most [metrics.log] has grown. *)
Definition logged (before after : gmap string bytes) : Prop :=
  after = before \/
  exists old more, before !! METRICS_LOG = Some old /\ after = <[METRICS_LOG := old ++ more]> before.

Lemma logged_trans a b c : logged a b -> logged b c -> logged a c.
Proof.
  intros [->|(old & more & Ha & ->)]; [done|]. intros [->|(old' & more' & Hb & ->)]; right; [by exists old, more|].
  rewrite lookup_insert_eq in Hb. injection Hb as <-. exists old, (more ++ more').
  by rewrite insert_insert_eq, app_assoc.
Qed.

Lemma log_metrics_logged lines (f : F) : logged (contents f) (contents (log_metrics lines f)).
Proof.
  unfold log_metrics. revert f. induction lines as [|line lines IH]; intros f; [by left|]. cbn [foldl].
  eapply logged_trans; [|apply IH].
  destruct (append_law METRICS_LOG (as_bytes (line +:+ nl)) f) as [->|(old & more & Ho & ->)]; [by left|].
  right. by exists old, more.
Qed.

Lemma logged_keeps before after path :
  logged before after ->
  after !! path = before !! path \/
  path = METRICS_LOG /\ exists old more, before !! path = Some old /\ after !! path = Some (old ++ more).
Proof.
  intros [->|(old & more & Hb & ->)]; [by left|]. destruct (decide (path = METRICS_LOG)) as [->|Hne].
  - right. split; [done|]. exists old, more. by rewrite lookup_insert_eq.
  - left. by rewrite lookup_insert_ne.
Qed.

Lemma println_files text s : sh_files (println text s).2 = sh_files s.
Proof. done. Qed.

Lemma on_node_files {X} (m : M NodeEnv X) s : logged (contents (sh_files s)) (contents (sh_files (on_node m s).2)).
Proof. apply log_metrics_logged. Qed.

Lemma on_node_result {X} (m : M NodeEnv X) s : (on_node m s : X * Shell NodeEnv F).1 = (m (sh_node s)).1.
Proof. done. Qed.

Lemma save_installed_files domain package filename installed s :
  saved filename (ip_blob installed) (contents (sh_files s))
    (contents (sh_files (save_installed domain package filename installed s).2)).
Proof.
  unfold save_installed. mstep. pose proof (create_law filename (sh_files s)) as Hc. cbn [on_files fst snd].
  destruct (fs_create_new filename (sh_files s)) as [[u|e] f1]; cbn [fst snd] in *; [|by left].
  destruct Hc as [Hnone Hc]. mstep. cbn [on_files fst snd sh_files].
  destruct (write_all_law filename (ip_blob installed) f1) as (part & Hp & Hw).
  { by rewrite Hc, lookup_insert_eq. }
  destruct (file_write_all filename (ip_blob installed) f1) as [[u'|e] f2]; cbn [fst snd] in *; mstep.
  - right. split; [done|]. exists part. split; [done|]. rewrite !println_files. cbn [sh_files].
    by rewrite Hw, Hc, insert_insert_eq.
  - cbn [on_files fst snd sh_files]. pose proof (remove_law filename f2) as Hr. rewrite println_files. cbn [sh_files].
    destruct (fs_remove_file filename f2) as [[u'|e'] f3]; cbn [fst snd] in *; rewrite Hr, Hw, Hc, insert_insert_eq.
    + left. by apply delete_insert_id.
    + right. split; [done|]. by exists part.
Qed.

(** What [install] prints when it is done. *)
Definition installed_lines (domain package filename : string) (installed : InstalledPackage) : list string :=
  (fun line => line +:+ nl)%string <$>
    ["installed " +:+ domain +:+ ":" +:+ package +:+ ":" +:+ version_to_string (ip_version installed);
     "  file: " +:+ filename;
     "  size: " +:+ show_len (ip_blob installed) +:+ " bytes";
     "  hash: " +:+ hex_encode (elems (ip_blob_key installed))]%string.

(** When it prints that, the file was written to the end, as far as writes tell. *)
Lemma save_installed_reports domain package filename installed s :
  let s' := (save_installed domain package filename installed s).2 in
  prompt_writes F -> sh_out s' = (sh_out s ++ installed_lines domain package filename installed)%list ->
  contents (sh_files s) !! filename = None /\
  contents (sh_files s') = <[filename := ip_blob installed]> (contents (sh_files s)).
Proof.
  cbv zeta. intros Hprompt. unfold save_installed. mstep. pose proof (create_law filename (sh_files s)) as Hc.
  cbn [on_files fst snd].
  destruct (fs_create_new filename (sh_files s)) as [[u|e] f1]; cbn [fst snd] in *.
  2: { cbn [println print modify sh_out snd]. by intros Heq%app_inv_head. }
  destruct Hc as [Hnone Hc]. mstep. cbn [on_files fst snd sh_files].
  pose proof (Hprompt filename (ip_blob installed) f1) as Hw. rewrite Hc, lookup_insert_eq in Hw. specialize (Hw eq_refl).
  destruct (file_write_all filename (ip_blob installed) f1) as [[[]|e] f2]; cbn [fst snd] in *; mstep.
  - intros _. split; [done|]. rewrite !println_files. cbn [sh_files]. by rewrite Hw, insert_insert_eq.
  - cbn [on_files println print modify sh_out snd]. by intros Heq%app_inv_head.
Qed.

Context (pick : NodeWorld (DnsBackend (R := R)) W -> nat).
Context (rpc : Rpc RecommendedCloseNodes (NodeWorld (DnsBackend (R := R)) W)).

(** First the registry is asked, then the package is saved. *)
Lemma install_command_files identifier output s :
  let s' := (install_command pick rpc identifier output s).2 in
  exists looked, logged (contents (sh_files s)) looked /\
  (contents (sh_files s') = looked \/
   exists domain package requested installed,
    parse_install_name identifier = Ok (domain, package, requested) /\
    (install_package pick rpc node_dns domain package requested (sh_node s)).1 = Ok installed /\
    saved (default (default_install_filename domain package (ip_version installed)) output) (ip_blob installed)
      looked (contents (sh_files s'))).
Proof.
  cbv zeta. unfold install_command.
  destruct (parse_install_name identifier) as [[[domain package] requested]|e] eqn:Hp;
    [|exists (contents (sh_files s)); split; by left]. mstep.
  rewrite on_node_result. set (m := install_package pick rpc node_dns domain package requested) in *.
  exists (contents (sh_files (on_node m s).2)). split; [apply on_node_files|].
  destruct ((m (sh_node s)).1) as [installed|e] eqn:Hi; [|by left].
  right. exists domain, package, requested, installed. split; [done|]. split; [done|]. apply save_installed_files.
Qed.

(** What [install] did, by what the registry made of the request. *)
Lemma install_command_saves identifier output s domain package requested installed :
  let s' := (install_command pick rpc identifier output s).2 in
  let filename := default (default_install_filename domain package (ip_version installed)) output in
  parse_install_name identifier = Ok (domain, package, requested) ->
  (install_package pick rpc node_dns domain package requested (sh_node s)).1 = Ok installed ->
  prompt_writes F -> sh_out s' = (sh_out s ++ installed_lines domain package filename installed)%list ->
  exists looked, logged (contents (sh_files s)) looked /\ looked !! filename = None /\
    contents (sh_files s') = <[filename := ip_blob installed]> looked.
Proof.
  cbv zeta. intros Hp Hi Hprompt. unfold install_command. rewrite Hp. mstep. rewrite on_node_result.
  set (m := install_package pick rpc node_dns domain package requested) in *. rewrite Hi.
  change (sh_out s) with (sh_out (on_node m s).2). intros Hout.
  exists (contents (sh_files (on_node m s).2)). split; [apply on_node_files|]. by apply save_installed_reports.
Qed.

(** [get KEY FILENAME] leaves in the file bytes that hash to the key. *)
Lemma get_to_file_files key filename s :
  let s' := (get_to_file_command pick rpc key filename s).2 in
  exists looked, logged (contents (sh_files s)) looked /\
  (contents (sh_files s') = looked \/
   exists k value part, parse_key key = Ok k /\ key_for_value value = k /\ part `prefix_of` value /\
    contents (sh_files s') = <[filename := part]> looked).
Proof.
  cbv zeta. unfold get_to_file_command.
  destruct (parse_key key) as [k|e] eqn:Hk; [|exists (contents (sh_files s)); split; by left]. mstep.
  pose proof (on_node_files (lookup_value pick rpc k) s) as Hf. rewrite on_node_result.
  set (s1 := (on_node (lookup_value pick rpc k) s).2) in *. clearbody s1.
  exists (contents (sh_files s1)). split; [done|].
  destruct ((lookup_value pick rpc k (sh_node s)).1) as [[source value]|] eqn:Hl; [|by left].
  apply lookup_value_hash in Hl. mstep. cbn [on_files fst snd].
  pose proof (write_law filename value (sh_files s1)) as Hw.
  destruct (fs_write filename value (sh_files s1)) as [[u|e] f]; cbn [fst snd] in *; rewrite println_files; cbn [sh_files].
  - right. exists k, value, value. by split_and!.
  - destruct Hw as [Hw|(part & Hp & Hw)]; [by left|right]. exists k, value, part. by split_and!.
Qed.

(** ** What a session does to the files *)

Context (iter : gmap Key Value -> list (Key * Value)) (env_var : string -> option string).
Context (decode_limited : bytes -> option (Signed VersionRecord)) (idle : M NodeEnv unit).

Definition overwrites (c : Command) : option string :=
  match c with CmdGetToFile _ filename => Some filename | _ => None end.

(** The files of [base] outside [named] are as they were, but that [metrics.log]
    may have grown. *)
Definition untouched (named : string -> Prop) (base : gmap string bytes) s : Prop :=
  forall path bs, ~ named path -> base !! path = Some bs ->
    exists more, contents (sh_files s) !! path = Some (bs ++ more) /\ (path <> METRICS_LOG -> more = []).

Lemma untouched_println named base text : preserves (untouched named base) (println text).
Proof. by intros s Hs. Qed.

Lemma untouched_print named base text : preserves (untouched named base) (print text).
Proof. by intros s Hs. Qed.

Lemma untouched_logged named base s s' :
  untouched named base s -> logged (contents (sh_files s)) (contents (sh_files s')) -> untouched named base s'.
Proof.
  intros Hs Hl path bs Hn Hb. destruct (Hs path bs Hn Hb) as (more & Hc & Hm).
  destruct (logged_keeps _ _ path Hl) as [->|(-> & old & more' & Ho & ->)]; [by exists more|].
  rewrite Hc in Ho. injection Ho as <-. exists (more ++ more'). by rewrite app_assoc.
Qed.

Lemma untouched_on_node {X} named base (m : M NodeEnv X) : preserves (untouched named base) (on_node m).
Proof. intros s Hs. eapply untouched_logged; [exact Hs|apply on_node_files]. Qed.

#[local] Hint Resolve untouched_println untouched_print untouched_on_node : keeps.

Lemma saved_keeps filename blob before after path bs :
  saved filename blob before after -> before !! path = Some bs -> after !! path = Some bs.
Proof.
  intros [->|(Hnone & part & _ & ->)] Hp; [done|]. rewrite lookup_insert_ne; [done|]. by intros ->; simplify_eq.
Qed.

(** What is left of [untouched] when the lookups are done and a command has
    written its file. *)
Lemma untouched_looked named base s s' looked :
  untouched named base s -> logged (contents (sh_files s)) looked ->
  (forall path bs, ~ named path -> looked !! path = Some bs -> contents (sh_files s') !! path = Some bs) ->
  untouched named base s'.
Proof.
  intros Hs Hl Hkeep path bs Hn Hb. destruct (Hs path bs Hn Hb) as (more & Hc & Hm).
  destruct (logged_keeps _ _ path Hl) as [Heq|(-> & old & more' & Ho & Heq)].
  - exists more. split; [|done]. apply Hkeep; [done|]. by rewrite Heq.
  - rewrite Hc in Ho. injection Ho as <-. exists (more ++ more'). split; [|done].
    apply Hkeep; [done|]. by rewrite Heq, app_assoc.
Qed.

Lemma install_untouched named base identifier output :
  preserves (untouched named base) (install_command pick rpc identifier output).
Proof.
  intros s Hs. destruct (install_command_files identifier output s) as (looked & Hl & Hafter).
  eapply untouched_looked; [exact Hs|exact Hl|]. intros path bs _ Hp.
  destruct Hafter as [->|(? & ? & ? & ? & _ & _ & Hsaved)]; [done|]. by eapply saved_keeps.
Qed.

Lemma get_untouched (named : string -> Prop) base key filename :
  named filename -> preserves (untouched named base) (get_to_file_command pick rpc key filename).
Proof.
  intros Hf s Hs. destruct (get_to_file_files key filename s) as (looked & Hl & Hafter).
  eapply untouched_looked; [exact Hs|exact Hl|]. intros path bs Hn Hp.
  destruct Hafter as [->|(? & ? & ? & _ & _ & _ & ->)]; [done|].
  rewrite lookup_insert_ne; [done|]. by intros ->.
Qed.

Lemma execute_untouched (named : string -> Prop) base c :
  (forall filename, overwrites c = Some filename -> named filename) ->
  preserves (untouched named base) (execute pick iter rpc env_var decode_limited c).
Proof.
  pose proof (install_untouched named base) as Hi. pose proof (get_untouched named base) as Hg. intros Hc.
  destruct c as [| | | |key filename| | | | |identifier output| | | | |]; cbn [execute];
    try match goal with
    | |- context [ get_to_file_command ] => specialize (Hg key filename (Hc _ eq_refl))
    | |- context [ install_command ] => specialize (Hi identifier output)
    | _ => unfold ping_command, put_command, get_command, show_rt_command, show_ds_command,
             show_dns_command, show_package_command, publish_command, print_help
    end; keep.
Qed.

(** The files that the lines of a session name for [get KEY FILENAME]. *)
Definition named_by (input : list Input) (path : string) : Prop :=
  exists line, Line line ∈ input /\ overwrites (classify (split_whitespace line)) = Some path.

Lemma run_untouched input base :
  preserves (untouched (named_by input) base) (run pick iter rpc env_var decode_limited idle input).
Proof.
  unfold run. apply preserves_bind; [unfold print_help; keep|]. intros _.
  assert (forall rest, (forall i, i ∈ rest -> i ∈ input) ->
    preserves (untouched (named_by input) base) (run_loop pick iter rpc env_var decode_limited idle rest)) as Hgen;
    [|by apply Hgen].
  induction rest as [|[line|e|e] rest IH]; intros Hin; cbn [run_loop];
    do 2 (apply preserves_bind; [keep|intros _]); try apply preserves_ret.
  apply preserves_bind; [|intros []; [apply IH; set_solver|apply preserves_ret]].
  apply execute_untouched. intros filename Hf. exists line. split; [apply Hin; set_solver|done].
Qed.
End files.
