(* ===== verification/Program.v ===== *)
(** * Program: the entry point

    Models [src/main.rs]: the arguments, the node that is started, joining the
    network through the seed, and the session.  The periodic tasks started before
    the session act at its awaits ([Node]).  Starting the logger can fail and is
    a parameter; so are the sockets and the terminal. *)

From Stdlib Require Import Strings.Ascii.
From S2P Require Import Prelude Slices Machine Contacts Cache Crates Text Address AddressParse Package VersionChain.
From S2P Require Import Wire HandleRpc DnsKeys Rpc Lookup Bootstrap Registry Maintenance Keeps Node Cli Shell.

Local Open Scope string_scope.

(** ** The arguments *)

Definition USAGE : string := "usage: cargo run -- [--fake-dns] IP:PORT [BOOTSTRAP_IP:PORT]".

Inductive Args : Type :=
  | ArgsUsage
  | ArgsBadAddress
  | ArgsStart (use_fake_dns : bool) (bind_address : SocketAddr) (bootstrap_address : option SocketAddr).

(** [peek] and [next] on the arguments after the program's name. *)
Definition parse_args (args : list string) : Args :=
  let use_fake_dns := match args with arg :: _ => String.eqb arg "--fake-dns" | [] => false end in
  let args := if use_fake_dns then drop 1 args else args in
  match args with
  | [] => ArgsUsage
  | bind :: args =>
      match parse_socket_addr bind with
      | None => ArgsBadAddress
      | Some bind_address =>
          match args with
          | [] => ArgsStart use_fake_dns bind_address None
          | address :: args =>
              match parse_socket_addr address with
              | None => ArgsBadAddress
              | Some address =>
                  match args with
                  | [] => ArgsStart use_fake_dns bind_address (Some address)
                  | _ :: _ => ArgsUsage
                  end
              end
          end
      end
  end.

(** How the process ends. *)
Inductive Ended : Type :=
  | EndedOk
  | EndedErr (error : string)
  | EndedExit (code : N)
  | EndedPanic.

(** ** [main] *)

Section main.
Context `{Sha256} `{Ed25519} `{Codec} `{Hex} `{DomainName} {R W F : Type} `{!Resolver R} `{Clock W} `{Files F}.

Abbreviation Backend := (DnsBackend (R := R)).
Abbreviation NodeEnv := (Env RecommendedCloseNodes (NodeWorld Backend W)).
Abbreviation Session := (Shell NodeEnv F).

Context (pick : NodeWorld Backend W -> nat) (rand_id : M NodeEnv NodeId).
Context (iter : gmap Key Value -> list (Key * Value)).
Context (env_var : string -> option string) (decode_limited : bytes -> option (Signed VersionRecord)).

(** What a node's other tasks do while the session awaits a line. *)
Context (idle : Node -> M NodeEnv unit).

(** The transports a node is built with. *)
Context (make_rpc : Node -> Rpc RecommendedCloseNodes (NodeWorld Backend W)).

(** [RealNode::bind_with_dns]'s two sockets, and the fresh resolver. *)
Context (udp_bind : SocketAddr -> result IoError SocketAddr) (tcp_bind : SocketAddr -> result IoError unit).
Context (resolver : R) (io_error_text : IoError -> string).

Definition backend (use_fake_dns : bool) : Backend :=
  if use_fake_dns then Fake fake_dns_new else Real (MkDns resolver).

(** Joining through the seed: [None] to go on, or how the process ends. *)
Definition join_network (rpc : Rpc RecommendedCloseNodes (NodeWorld Backend W)) (seed : option SocketAddr)
    : M Session (option Ended) :=
  match seed with
  | Some seed =>
      println ("bootstrapping through " +:+ socket_to_string seed +:+ "...");;
      neighbours ← on_node (bootstrap pick rand_id rpc seed);
      match neighbours with
      | Some (Ok n) =>
          println ("bootstrap complete; lookup returned " +:+ show_usize (length n) +:+ " contacts");;
          mret None
      | Some (Err _) => mret (Some (EndedExit 1))
      | None => mret (Some EndedPanic)
      end
  | None => println "starting a new network";; mret None
  end.

(** The periods of the tasks started before the session. *)
Definition periods : Duration * Duration := (REPUBLISH_INTERVAL, LIVENESS_CHECK_INTERVAL).

(** From a bound node on. *)
Definition node_session (n : Node) (seed : option SocketAddr) (input : list Input) : M Session Ended :=
  println ("node address: " +:+ socket_to_string (node_address n));;
  println ("node id:      " +:+ hex_encode (elems (node_id n)));;
  ended ← join_network (make_rpc n) seed;
  match ended with
  | Some ended => mret ended
  | None =>
      out ← run pick iter (make_rpc n) env_var decode_limited (idle n) input;
      mret (match out with Ok _ => EndedOk | Err e => EndedErr (io_error_text e) end)
  end.

(** The outcome, and the session if a node was started. *)
Definition main (setup : result string unit) (args : list string) (lookups : u64) (outside : W) (files : F)
    (input : list Input) : Ended * option Session :=
  match setup with
  | Err e => (EndedErr e, None)
  | Ok _ =>
      match parse_args args with
      | ArgsUsage => (EndedOk, None)
      | ArgsBadAddress => (EndedErr "invalid socket address syntax", None)
      | ArgsStart use_fake_dns bind_address seed =>
          match bind_with_dns (udp_bind bind_address) tcp_bind (backend use_fake_dns) lookups outside with
          | Err e => (EndedErr (io_error_text e), None)
          | Ok (n, e) =>
              let r := node_session n seed input (MkShell e files []) in (r.1, Some r.2)
          end
      end
  end.
End main.

(** ** What a session preserves *)

Section session.
Context `{Sha256} `{Ed25519} `{CodecLaws} `{Hex} `{DomainName} {R W F : Type} `{!Resolver R} `{Clock W} `{Files F}.

Abbreviation Backend := (DnsBackend (R := R)).
Abbreviation NodeEnv := (Env RecommendedCloseNodes (NodeWorld Backend W)).

Context (pick : NodeWorld Backend W -> nat) (rand_id : M NodeEnv NodeId).
Context (iter : gmap Key Value -> list (Key * Value)).
Context (env_var : string -> option string) (decode_limited : bytes -> option (Signed VersionRecord)).
Context (idle : Node -> M NodeEnv unit).
Context (make_rpc : Node -> Rpc RecommendedCloseNodes (NodeWorld Backend W)) (io_error_text : IoError -> string).
Context (Auth : string -> VerifyingKey -> Prop)
  (dns_auth : forall domain (d : Backend) vk, (get_dns_vk domain d).1 = Some vk -> Auth domain vk).

(** While the node waits only its own tasks act on it. *)
Context (n : Node).
Context (transport_bg : forall p a, backgrounded Auth n (transport (make_rpc n) p a))
  (robust_bg : forall p a, backgrounded Auth n (robust_transport (make_rpc n) p a))
  (rand_bg : backgrounded Auth n rand_id) (idle_bg : backgrounded Auth n (idle n)).

Lemma keeps_session m0 seed input :
  preserves (inside (F := F) (env_ok (committed Auth m0)))
    (node_session pick rand_id iter env_var decode_limited idle make_rpc io_error_text n seed input).
Proof using dns_auth transport_bg robust_bg rand_bg idle_bg H2.
  pose proof (fun p a => backgrounded_ok Auth dns_auth n m0 _ (transport_bg p a)) as Ht.
  pose proof (fun p a => backgrounded_ok Auth dns_auth n m0 _ (robust_bg p a)) as Hr.
  unfold node_session. do 2 (apply preserves_bind; [apply inside_println|intros _]).
  apply preserves_bind.
  - unfold join_network. destruct seed as [seed|]; [|apply preserves_bind; [apply inside_println|intros; apply preserves_ret]].
    apply preserves_bind; [apply inside_println|intros _]. apply preserves_bind.
    { apply inside_node, keeps_bootstrap; [done|]. by apply (backgrounded_ok Auth dns_auth n). }
    intros [[neighbours|e]|]; [|apply preserves_ret..].
    apply preserves_bind; [apply inside_println|intros; apply preserves_ret].
  - intros [ended|]; [apply preserves_ret|]. apply preserves_bind; [|intros; apply preserves_ret].
    apply keeps_run; [done|done|intros; apply node_dns_ok|]. by apply (backgrounded_ok Auth dns_auth n).
Qed.
End session.

Section session_files.
Context `{Sha256} `{Ed25519} `{Codec} `{Hex} `{DomainName} {R W F : Type} `{!Resolver R} `{Clock W} `{FilesLaws F}.

Lemma session_untouched pick rand_id iter env_var decode_limited idle make_rpc io_error_text n seed input base :
  preserves (untouched (R := R) (W := W) (F := F) (named_by input) base)
    (node_session pick rand_id iter env_var decode_limited idle make_rpc io_error_text n seed input).
Proof.
  unfold node_session. do 2 (apply preserves_bind; [apply untouched_println|intros _]).
  apply preserves_bind.
  - unfold join_network. destruct seed as [seed|];
      [|apply preserves_bind; [apply untouched_println|intros; apply preserves_ret]].
    apply preserves_bind; [apply untouched_println|intros _]. apply preserves_bind; [apply untouched_on_node|].
    intros [[neighbours|e]|]; [|apply preserves_ret..].
    apply preserves_bind; [apply untouched_println|intros; apply preserves_ret].
  - intros [ended|]; [apply preserves_ret|]. apply preserves_bind; [apply run_untouched|intros; apply preserves_ret].
Qed.
End session_files.

(** ** What the arguments mean *)

(** The words of an invocation. *)
Definition words_of (use_fake_dns : bool) (bind : string) (seed : option string) : list string :=
  ((if use_fake_dns then ["--fake-dns"] else []) ++ bind :: option_list seed)%list.

Lemma parse_args_start args fake bind seed :
  parse_args args = ArgsStart fake bind seed <->
  exists bind_text seed_text, args = words_of fake bind_text seed_text /\
    parse_socket_addr bind_text = Some bind /\
    match seed_text, seed with
    | None, None => True
    | Some text, Some a => parse_socket_addr text = Some a
    | _, _ => False
    end.
Proof.
  split.
  - unfold parse_args. cbv zeta. intros Hp.
    destruct args as [|w args]; [done|].
    assert (exists words, w :: args = ((if fake then ["--fake-dns"] else []) ++ words)%list /\
      match words with
      | [] => False
      | b :: rest => parse_socket_addr b = Some bind /\
          match rest with
          | [] => seed = None
          | [s] => exists a, parse_socket_addr s = Some a /\ seed = Some a
          | _ => False
          end
      end) as (words & Heq & Hwords).
    { destruct (String.eqb w "--fake-dns") eqn:Hf; [apply String.eqb_eq in Hf as ->; cbn [drop] in Hp|].
      all: repeat case_match; try done; simplify_eq.
      all: eexists; (split; [reflexivity|]); cbn; rewrite ?drop_0 in *; simplify_eq; eauto. }
    destruct words as [|b rest]; [done|]. destruct Hwords as [Hb Hrest].
    destruct rest as [|s [|]]; [subst seed; exists b, None; done| |done].
    destruct Hrest as (a & Ha & ->). exists b, (Some s). done.
  - intros (b & st & -> & Hb & Hs). unfold parse_args, words_of. destruct fake; cbn [app].
    + change (String.eqb "--fake-dns" "--fake-dns") with true. cbn -[parse_socket_addr]. rewrite Hb.
      destruct st as [t|], seed as [a|]; try done. cbn -[parse_socket_addr]. by rewrite Hs.
    + destruct (String.eqb b "--fake-dns") eqn:Hf; [apply String.eqb_eq in Hf as ->; done|].
      cbn -[parse_socket_addr]. rewrite Hb.
      destruct st as [t|], seed as [a|]; try done. cbn -[parse_socket_addr]. by rewrite Hs.
Qed.
