(* ===== verification/Logging.v ===== *)
(** * Logging: where the lines of the log go

    Models [src/logging.rs].  The logger is built with the crate [fern], which is
    a parameter ([Fern]) with its documented behaviour: a dispatch has a level, filters,
    a format and outputs, and a record that level_passes goes, formatted, to each output in
    turn.  The lookups' metrics of [src/instrumentation.rs] are records of the target
    [metrics]. *)

From S2P Require Import Prelude Slices Machine Contacts Crates Text Wire.

Local Open Scope string_scope.

(** ** Records of the crate [log] *)

Inductive Level : Type := Error | Warn | Info | Debug | Trace.

#[export] Instance Level_eq_dec : EqDecision Level.
Proof. solve_decision. Defined.

(** From the most to the least serious. *)
Definition level_rank (l : Level) : nat :=
  match l with Error => 1 | Warn => 2 | Info => 3 | Debug => 4 | Trace => 5 end.

Definition level_name (l : Level) : string :=
  match l with Error => "ERROR" | Warn => "WARN" | Info => "INFO" | Debug => "DEBUG" | Trace => "TRACE" end.

(** [LevelFilter]: [None] is [Off]. *)
Definition LevelFilter : Type := option Level.

Definition level_passes (f : LevelFilter) (l : Level) : bool :=
  match f with None => false | Some most => (level_rank l <=? level_rank most)%nat end.

Record Metadata : Type := MkMetadata { md_level : Level; md_target : string }.

(** ** The crate [fern] *)

(** What a dispatch was built with. *)
Record Settings (Dispatch Output : Type) : Type := MkSettings {
  set_level : LevelFilter;
  set_filters : list (Metadata -> bool);
  set_format : string -> Metadata -> string;
  set_outputs : list (Output + Dispatch)
}.
Arguments MkSettings {Dispatch Output}.
Arguments set_level {Dispatch Output}.
Arguments set_filters {Dispatch Output}.
Arguments set_format {Dispatch Output}.
Arguments set_outputs {Dispatch Output}.

Class Fern (Dispatch Output : Type) := {
  dispatch_new : Dispatch;
  with_level : LevelFilter -> Dispatch -> Dispatch;
  with_filter : (Metadata -> bool) -> Dispatch -> Dispatch;
  with_format : (string -> Metadata -> string) -> Dispatch -> Dispatch;
  with_output : Output + Dispatch -> Dispatch -> Dispatch;
  stdout : Output;
  settings : Dispatch -> Settings Dispatch Output;
  (** What logging a message writes, line by line. *)
  written : Dispatch -> string -> Metadata -> list (Output * string)
}.

Class FernLaws (Dispatch Output : Type) `{Fern Dispatch Output} : Prop := {
  settings_new : settings dispatch_new = MkSettings (Some Trace) [] (fun message _ => message) [];
  settings_level f d :
    settings (with_level f d) = MkSettings f (set_filters (settings d)) (set_format (settings d)) (set_outputs (settings d));
  settings_filter p d :
    settings (with_filter p d) =
    MkSettings (set_level (settings d)) (set_filters (settings d) ++ [p]) (set_format (settings d)) (set_outputs (settings d));
  settings_format f d :
    settings (with_format f d) = MkSettings (set_level (settings d)) (set_filters (settings d)) f (set_outputs (settings d));
  settings_output o d :
    settings (with_output o d) =
    MkSettings (set_level (settings d)) (set_filters (settings d)) (set_format (settings d)) (set_outputs (settings d) ++ [o]);
  written_eq d message md :
    written d message md =
    let line := set_format (settings d) message md in
    if level_passes (set_level (settings d)) (md_level md) && forallb (fun p => p md) (set_filters (settings d))
    then flat_map (fun o => match o with inl out => [(out, line)] | inr d' => written d' line md end)
           (set_outputs (settings d))
    else []
}.

(** ** [setup] *)

Inductive InitError : Type :=
  | InitIo (e : IoError)
  | SetLoggerError.

Section setup.
Context {Dispatch Output F : Type} `{Fern Dispatch Output}.

(** [fern::log_file]: opens the file to append to it, and creates it if it must. *)
Context (log_file : string -> M F (result IoError Output)).

(** The process: its logger, once set, and the files. *)
Record Process : Type := MkProcess { logger : option Dispatch; files : F }.

(** [Dispatch::apply]: the logger of a process is set once. *)
Definition apply_logger (d : Dispatch) : M Process (result InitError unit) := fun p =>
  match logger p with
  | Some _ => (Err SetLoggerError, p)
  | None => (Ok tt, MkProcess (Some d) (files p))
  end.

Definition open_log (name : string) : M Process (result IoError Output) := fun p =>
  let r := log_file name (files p) in (r.1, MkProcess (logger p) r.2).

Definition console : Dispatch :=
  with_output (inl stdout)
    (with_format (fun message md => "[" +:+ level_name (md_level md) +:+ " " +:+ md_target md +:+ "] " +:+ message)
      (with_filter (fun md => negb (String.eqb (md_target md) "metrics"))
        (with_level (Some Info) dispatch_new))).

Definition metrics_dispatch (file : Output) : Dispatch :=
  with_output (inl file)
    (with_format (fun message _ => message)
      (with_filter (fun md => String.eqb (md_target md) "metrics")
        (with_level (Some Info) dispatch_new))).

Definition setup : M Process (result InitError unit) :=
  file ← open_log "metrics.log";
  match file with
  | Err e => mret (Err (InitIo e))
  | Ok file =>
      apply_logger (with_output (inr (metrics_dispatch file)) (with_output (inr console) dispatch_new))
  end.

(** What the process writes for [log::log!(target: .., level, ..)]. *)
Definition log_line (p : Process) (level : Level) (target message : string) : list (Output * string) :=
  match logger p with Some d => written d message (MkMetadata level target) | None => [] end.

(** [log::info!(target: "metrics", ..)]. *)
Definition metric_line (p : Process) (line : string) : list (Output * string) := log_line p Info "metrics" line.
End setup.

(** ** Where lines go *)

Section routed.
Context {Dispatch Output F : Type} `{FernLaws Dispatch Output}.
Context (log_file : string -> M F (result IoError Output)).

Lemma console_writes message md :
  written (console (Output := Output)) message md =
  if level_passes (Some Info) (md_level md) && negb (String.eqb (md_target md) "metrics")
  then [(stdout, "[" +:+ level_name (md_level md) +:+ " " +:+ md_target md +:+ "] " +:+ message)] else [].
Proof.
  rewrite written_eq. unfold console.
  rewrite settings_output, settings_format, settings_filter, settings_level, settings_new.
  cbn [set_level set_filters set_format set_outputs app forallb flat_map]. by rewrite andb_true_r.
Qed.

Lemma metrics_writes file message md :
  written (metrics_dispatch file) message md =
  if level_passes (Some Info) (md_level md) && String.eqb (md_target md) "metrics" then [(file, message)] else [].
Proof.
  rewrite written_eq. unfold metrics_dispatch.
  rewrite settings_output, settings_format, settings_filter, settings_level, settings_new.
  cbn [set_level set_filters set_format set_outputs app forallb flat_map]. by rewrite andb_true_r.
Qed.

Lemma root_writes (file : Output) message md :
  written (with_output (inr (metrics_dispatch file)) (with_output (inr console) dispatch_new)) message md =
  (written console message md ++ written (metrics_dispatch file) message md)%list.
Proof.
  rewrite written_eq, !settings_output, settings_new.
  cbn [set_level set_filters set_format set_outputs app forallb flat_map].
  assert (level_passes (Some Trace) (md_level md) = true) as -> by (by destruct (md_level md)).
  cbn [andb]. by rewrite app_nil_r.
Qed.

(** What [setup] leaves of the process. *)
Lemma setup_cases (p : Process (Dispatch := Dispatch)) :
  let opened := log_file "metrics.log" (files p) in
  setup log_file p =
  match opened.1 with
  | Err e => (Err (InitIo e), MkProcess (logger p) opened.2)
  | Ok file =>
      match logger p with
      | Some _ => (Err SetLoggerError, MkProcess (logger p) opened.2)
      | None => (Ok tt, MkProcess (Some (with_output (inr (metrics_dispatch file)) (with_output (inr console) dispatch_new))) opened.2)
      end
  end.
Proof.
  cbv zeta. unfold setup, open_log. rewrite bind_eq. cbn [fst snd].
  destruct (log_file "metrics.log" (files p)) as [[file|e] f]; [|done]. cbn [fst snd].
  unfold apply_logger. cbn [logger files]. by destruct (logger p).
Qed.

(** A serious line goes to one place: metrics, as they are, to the file, and
    everything else, with level and target, to the console. *)
Lemma log_line_routed (p : Process (Dispatch := Dispatch)) file level target message :
  logger p = None -> (log_file "metrics.log" (files p)).1 = Ok file ->
  log_line (setup log_file p).2 level target message =
  if level_passes (Some Info) level
  then if String.eqb target "metrics" then [(file, message)]
       else [(stdout, "[" +:+ level_name level +:+ " " +:+ target +:+ "] " +:+ message)]
  else [].
Proof using All.
  intros Hl Ho. rewrite setup_cases, Ho, Hl. unfold log_line. cbn [snd logger].
  rewrite root_writes, console_writes, metrics_writes. cbn [md_level md_target].
  by destruct (level_passes (Some Info) level), (String.eqb target "metrics").
Qed.
End routed.

(** C38: metrics are kept apart from everything else: [setup] succeeds exactly when the
    process has no logger yet and the file can be opened, and otherwise leaves the
    logger as it was; after it, a line of level [Info] or worse goes to exactly one
    place, a metric as it is to the file, any other with its level and target to the
    console; and less serious ones go nowhere. *)
Theorem log_lines_routed {Dispatch Output F : Type} `{FernLaws Dispatch Output}
    (log_file : string -> M F (result IoError Output)) (p : Process (Dispatch := Dispatch)) :
  let opened := (log_file "metrics.log" (files p)).1 in
  let after := setup log_file p in
  (after.1 = Ok tt <-> logger p = None /\ exists file, opened = Ok file) /\
  (after.1 <> Ok tt -> logger after.2 = logger p) /\
  forall file level target message, after.1 = Ok tt -> opened = Ok file ->
    log_line after.2 level target message =
    if level_passes (Some Info) level
    then if String.eqb target "metrics" then [(file, message)]
         else [(stdout, "[" +:+ level_name level +:+ " " +:+ target +:+ "] " +:+ message)]
    else [].
Proof.
  intros opened after.
  assert (after.1 = Ok tt <-> logger p = None /\ exists file, opened = Ok file) as Hiff.
  { subst after opened. rewrite setup_cases. destruct (log_file _ _).1 as [file|e], (logger p); cbn; split; try done; naive_solver. }
  split; [done|]. split.
  - subst after opened. rewrite setup_cases. destruct (log_file _ _).1 as [file|e]; [|done]. destruct (logger p) eqn:E; [done|].
    cbn. intros Hx. by destruct Hx.
  - intros file level target message [Hl _]%Hiff Ho. by apply log_line_routed.
Qed.

(** *** A dispatch as the tree it is *)

Inductive Tree : Type :=
  MkTree (l : LevelFilter) (filters : list (Metadata -> bool)) (f : string -> Metadata -> string)
    (outputs : list (string + Tree)).

Definition tree_settings (t : Tree) : Settings Tree string :=
  let '(MkTree l fs f os) := t in MkSettings l fs f os.

Fixpoint tree_written (t : Tree) (message : string) (md : Metadata) : list (string * string) :=
  let '(MkTree l fs f os) := t in
  if level_passes l (md_level md) && forallb (fun p => p md) fs
  then flat_map (fun o => match o with inl out => [(out, f message md)] | inr t' => tree_written t' (f message md) md end) os
  else [].

#[export] Instance tree_fern : Fern Tree string := {|
  dispatch_new := MkTree (Some Trace) [] (fun message _ => message) [];
  with_level l t := let s := tree_settings t in MkTree l (set_filters s) (set_format s) (set_outputs s);
  with_filter p t := let s := tree_settings t in MkTree (set_level s) (set_filters s ++ [p]) (set_format s) (set_outputs s);
  with_format f t := let s := tree_settings t in MkTree (set_level s) (set_filters s) f (set_outputs s);
  with_output o t := let s := tree_settings t in MkTree (set_level s) (set_filters s) (set_format s) (set_outputs s ++ [o]);
  stdout := "stdout";
  settings := tree_settings;
  written := tree_written
|}.

#[export] Instance tree_fern_laws : FernLaws Tree string.
Proof. split; try done. by intros [l fs f os]. Qed.

Definition ex_log_file (name : string) : M (list string) (result IoError string) :=
  fun names => (Ok name, names ++ [name])%list.

Lemma log_lines_routed_witness :
  let p := (setup (Dispatch := Tree) ex_log_file (MkProcess None [])).2 in
  metric_line p "event=lookup_end" = [("metrics.log", "event=lookup_end")] /\
  log_line p Warn "kademlia::lookup" "dropped" = [("stdout", "[WARN kademlia::lookup] dropped")].
Proof.
  destruct (log_lines_routed (Dispatch := Tree) ex_log_file (MkProcess None [])) as (_ & _ & Hlines).
  split; [exact (Hlines "metrics.log" Info "metrics" "event=lookup_end" eq_refl eq_refl)|].
  exact (Hlines "metrics.log" Warn "kademlia::lookup" "dropped" eq_refl eq_refl).
Defined.
