(* ===== verification/Instances.v ===== *)
(** * Instances: concrete stand-ins for the crates

    Executable instances of the parameter classes of Crates and HandleRpc, with
    their laws proved: a self-delimiting codec for every message, a checksum for
    the digest, and a signature scheme that carries the key.  They have the
    documented behaviour the development relies on and nothing of the security
    of the real crates; the worked examples run the model on them, and they show
    that the laws can hold together. *)

From S2P Require Import Prelude Slices Machine Contacts Crates Text Package VersionChain Wire HandleRpc.
From Stdlib Require Import Strings.Ascii.

(** ** A codec *)

(** Encoders whose output can be read back off the front of any bytes. *)
Class Enc (A : Type) := { enc : A -> bytes; dec : bytes -> option (A * bytes) }.
Class EncOk (A : Type) `{Enc A} : Prop := dec_enc (a : A) (rest : bytes) : dec (enc a ++ rest) = Some (a, rest).

#[export] Instance enc_byte : Enc byte :=
  {| enc b := [b]; dec l := match l with b :: l => Some (b, l) | [] => None end |}.
#[export] Instance enc_byte_ok : EncOk byte.
Proof. by intros a rest. Qed.

(** Lists: [x01] before each element, [x00] at the end. *)
Fixpoint enc_elements {A} `{Enc A} (l : list A) : bytes :=
  match l with
  | [] => [x00]
  | x :: l => x01 :: enc x ++ enc_elements l
  end.

Fixpoint dec_elements {A} `{Enc A} (fuel : nat) (l : bytes) : option (list A * bytes) :=
  match fuel, l with
  | S fuel, x01 :: l =>
      '(x, l) ← dec l;
      '(xs, l) ← dec_elements fuel l;
      Some (x :: xs, l)
  | S _, x00 :: l => Some ([], l)
  | _, _ => None
  end.

#[export] Instance enc_list {A} `{Enc A} : Enc (list A) :=
  {| enc := enc_elements; dec l := dec_elements (S (length l)) l |}.
#[export] Instance enc_list_ok {A} `{EncOk A} : EncOk (list A).
Proof.
  intros l rest. cbn [enc dec enc_list].
  assert (forall l rest fuel, length l < fuel ->
    dec_elements fuel (enc_elements l ++ rest) = Some (l, rest)) as Hgen.
  { clear l rest. intros l rest. induction l as [|x l IH]; intros [|fuel] Hf; try (simpl in Hf; lia); [done|].
    cbn [enc_elements app dec_elements]. rewrite <- app_assoc, dec_enc. cbn [mbind option_bind].
    rewrite IH by (simpl in Hf; lia). done. }
  apply Hgen. rewrite length_app.
  assert (length l < length (enc_elements l)); [|lia].
  induction l as [|x l IH]; simpl; [lia|]. rewrite length_app. lia.
Qed.

#[export] Instance enc_pair {A B} `{Enc A} `{Enc B} : Enc (A * B) :=
  {| enc p := enc p.1 ++ enc p.2; dec l := '(a, l) ← dec l; '(b, l) ← dec l; Some ((a, b), l) |}.
#[export] Instance enc_pair_ok {A B} `{EncOk A} `{EncOk B} : EncOk (A * B).
Proof.
  intros [a b] rest. cbn [enc dec enc_pair fst snd].
  rewrite <- app_assoc, dec_enc. cbn [mbind option_bind]. rewrite dec_enc. done.
Qed.

#[export] Instance enc_sum {A B} `{Enc A} `{Enc B} : Enc (A + B) :=
  {| enc s := match s with inl a => x00 :: enc a | inr b => x01 :: enc b end;
     dec l := match l with
              | x00 :: l => '(a, l) ← dec l; Some (inl a, l)
              | x01 :: l => '(b, l) ← dec l; Some (inr b, l)
              | _ => None
              end |}.
#[export] Instance enc_sum_ok {A B} `{EncOk A} `{EncOk B} : EncOk (A + B).
Proof. intros [a|b] rest; cbn; by rewrite dec_enc. Qed.

(** A type that is a view of an encodable one. *)
Definition enc_via {A B} `{Enc B} (to : A -> B) (back : B -> option A) : Enc A :=
  {| enc a := enc (to a); dec l := '(b, l) ← dec l; a ← back b; Some (a, l) |}.
Lemma enc_via_ok {A B} `{EncOk B} (to : A -> B) (back : B -> option A) :
  (forall a, back (to a) = Some a) -> @EncOk A (enc_via to back).
Proof. intros Hback a rest. unfold enc, dec, enc_via. rewrite dec_enc. cbn. by rewrite Hback. Qed.

(** [n] bytes as they are. *)
#[export] Instance enc_array n : Enc (array n) :=
  {| enc := elems; dec l := a ← array_of n (take n l); Some (a, drop n l) |}.
#[export] Instance enc_array_ok n : EncOk (array n).
Proof.
  intros a rest. cbn [enc dec enc_array].
  rewrite take_app_length', drop_app_length' by (symmetry; apply array_length). by rewrite array_of_elems.
Qed.

(** Integers as their big-endian bytes. *)
Program Definition be_array (n : nat) (v : N) : array n := MkArray (be_bytes n v) (by_eval _).
Next Obligation. intros n v. apply Is_true_eq_left, Nat.eqb_eq, be_bytes_length. Qed.

Lemma be_array_uint n (a : uint (8 * N.of_nat n)) : wrap (8 * N.of_nat n) (be_val (elems (be_array n (uval a)))) = a.
Proof.
  cbn [elems be_array]. rewrite be_val_be_bytes, N.mod_small; [apply wrap_uval|].
  pose proof (uint_bound a) as Ha. by rewrite N.pow_mul_r in Ha.
Qed.

#[export] Instance enc_u32 : Enc u32 :=
  enc_via (fun n => be_array 4 (uval n)) (fun l => Some (wrap 32 (be_val (elems l)))).
#[export] Instance enc_u32_ok : EncOk u32.
Proof. apply enc_via_ok. intros a. f_equal. apply (be_array_uint 4 a). Qed.

#[export] Instance enc_u16 : Enc u16 :=
  enc_via (fun n => be_array 2 (uval n)) (fun l => Some (wrap 16 (be_val (elems l)))).
#[export] Instance enc_u16_ok : EncOk u16.
Proof. apply enc_via_ok. intros a. f_equal. apply (be_array_uint 2 a). Qed.

#[export] Instance enc_string : Enc string := enc_via as_bytes (fun l => Some (String.string_of_list_byte l)).
#[export] Instance enc_string_ok : EncOk string.
Proof. apply enc_via_ok. intros s. f_equal. apply String.string_of_list_byte_of_string. Qed.

#[export] Instance enc_addr : Enc SocketAddr :=
  enc_via (fun a => match a with V4 ip p => inl (ip, p) | V6 ip p f s => inr (ip, p, f, s) end)
    (fun c => Some (match c with inl (ip, p) => V4 ip p | inr (ip, p, f, s) => V6 ip p f s end)).
#[export] Instance enc_addr_ok : EncOk SocketAddr.
Proof. apply enc_via_ok. by intros []. Qed.

#[export] Instance enc_contact : Enc Contact :=
  enc_via (fun c => (id c, address c)) (fun p => Some (MkContact p.1 p.2)).
#[export] Instance enc_contact_ok : EncOk Contact.
Proof. apply enc_via_ok. by intros []. Qed.

#[export] Instance enc_version : Enc Version :=
  enc_via (fun v => (major v, minor v, patch v)) (fun p => Some (MkVersion p.1.1 p.1.2 p.2)).
#[export] Instance enc_version_ok : EncOk Version.
Proof. apply enc_via_ok. by intros []. Qed.

#[export] Instance enc_record : Enc VersionRecord :=
  enc_via (fun r => (vr_tag r, vr_domain r, vr_package r, vr_version r, vr_blob_hash r, vr_prev r))
    (fun '(t, d, p, v, b, q) => Some (MkVersionRecord t d p v b q)).
#[export] Instance enc_record_ok : EncOk VersionRecord.
Proof. apply enc_via_ok. by intros []. Qed.

#[export] Instance enc_pointer : Enc LatestPointer :=
  enc_via (fun r => (lp_tag r, lp_domain r, lp_package r, lp_version r, lp_version_record_hash r))
    (fun '(t, d, p, v, h) => Some (MkLatestPointer t d p v h)).
#[export] Instance enc_pointer_ok : EncOk LatestPointer.
Proof. apply enc_via_ok. by intros []. Qed.

#[export] Instance enc_signed {T} `{Enc T} : Enc (Signed T) :=
  enc_via (fun s => (body s, sig s)) (fun p => Some (MkSigned p.1 p.2)).
#[export] Instance enc_signed_ok {T} `{EncOk T} : EncOk (Signed T).
Proof. apply enc_via_ok. by intros []. Qed.

#[export] Instance enc_value : Enc Value :=
  enc_via (fun v => match v with Blob b => inl b | Latest p => inr p end)
    (fun c => Some (match c with inl b => Blob b | inr p => Latest p end)).
#[export] Instance enc_value_ok : EncOk Value.
Proof. apply enc_via_ok. by intros []. Qed.

#[export] Instance enc_reply : Enc FindValueReply :=
  enc_via (fun v => match v with FoundValue b => inl b | Closest p => inr p end)
    (fun c => Some (match c with inl b => FoundValue b | inr p => Closest p end)).
#[export] Instance enc_reply_ok : EncOk FindValueReply.
Proof. apply enc_via_ok. by intros []. Qed.

#[export] Instance enc_request : Enc StoreRequest :=
  enc_via (fun r => (sr_key r, sr_value r, sr_proof r)) (fun p => Some (MkStoreRequest p.1.1 p.1.2 p.2)).
#[export] Instance enc_request_ok : EncOk StoreRequest.
Proof. apply enc_via_ok. by intros []. Qed.

(** The whole message, with nothing behind it. *)
Definition bincode_of {A} `{Enc A} : Bincode A := {|
  serialize a := Some (enc a);
  deserialize l := match dec l with Some (a, []) => Some a | _ => None end;
  serialized_size a := Some (N.of_nat (length (enc a)))
|}.

Lemma bincode_of_laws {A} `{EncOk A} : @BincodeLaws A bincode_of.
Proof.
  intros a bs. cbn. intros [= <-]. pose proof (dec_enc a []) as Hd. by rewrite app_nil_r in Hd; rewrite Hd.
Qed.

(** The same for what is sent as [sent] leaves it. *)
Definition bincode_as {A} `{Enc A} (sent : A -> A) : Bincode A := {|
  serialize a := Some (enc (sent a));
  deserialize l := match dec l with Some (a, []) => Some a | _ => None end;
  serialized_size a := Some (N.of_nat (length (enc (sent a))))
|}.

Lemma bincode_as_laws {A} `{EncOk A} (sent : A -> A) (a : A) (bs : bytes) :
  @serialize A (bincode_as sent) a = Some bs -> @deserialize A (bincode_as sent) bs = Some (sent a).
Proof. cbn. intros [= <-]. pose proof (dec_enc (sent a) []) as Hd. by rewrite app_nil_r in Hd; rewrite Hd. Qed.

#[export] Instance toy_codec : Codec := {|
  bincode_id := bincode_of;
  bincode_contacts := bincode_as (fmap serde_contact);
  bincode_find_value := bincode_as serde_find_value;
  bincode_store := bincode_of;
  bincode_record := bincode_of;
  bincode_pointer := bincode_of;
  bincode_signed_record := bincode_of;
  bincode_signed_pointer := bincode_of
|}.

#[export] Instance toy_codec_laws : CodecLaws.
Proof.
  split; [apply bincode_of_laws|apply (bincode_as_laws (fmap serde_contact))|apply (bincode_as_laws serde_find_value)|
    apply bincode_of_laws..].
Qed.

#[export] Instance toy_codec_sizes : CodecSizes.
Proof.
  split.
  - intros i q [= <-]. apply array_length.
  - intros l q [= <-]. rewrite <- (length_fmap serde_contact l). generalize (serde_contact <$> l) as l'. clear l. intros l.
    cbn [enc enc_list]. induction l as [|c l IH]; [simpl; lia|].
    cbn [enc_elements]. simpl. rewrite !length_app, array_length.
    assert (length (enc (address c)) <= 27) as Ha.
    { destruct (address c); unfold enc, enc_addr, enc_via, enc_sum, enc_pair, enc_u16, enc_u32, enc_array;
        cbn -[elems be_array length]; rewrite length_cons, ?length_app, !array_length; lia. }
    cbn in Ha. cbn [length]. lia.
Qed.

(** ** A digest and signatures *)

Definition checksum (l : bytes) : N :=
  foldl (fun h b => N.land (h * 257 + Byte.to_N b + 1) (N.ones 40)) 7%N l.

Definition n_array (n : nat) (v : N) : array n := be_array n v.

#[export] Instance toy_sha256 : Sha256 := fun l => n_array 32 (checksum l).

(** A signature is the signer's key followed by the message. *)
#[export] Instance toy_ed25519 : Ed25519 := {|
  SigningKey := array 32;
  VerifyingKey := array 32;
  Signature := array 32 * bytes;
  verifying_key k := k;
  sk_from_bytes k := k;
  sk_sign k m := (k, m);
  sig_to_bytes s := elems s.1 ++ s.2;
  sig_from_slice l := '(a, b) ← split_at_checked 32 l; k ← array_of 32 a; Some (k, b);
  vk_verify v m s := bool_decide (v = s.1) && bool_decide (m = s.2);
  vk_to_bytes v := v;
  vk_from_bytes v := Some v
|}.

#[export] Instance toy_ed25519_laws : Ed25519Laws.
Proof.
  split.
  - intros [k m]. cbn. rewrite split_at_app by apply array_length. cbn. by rewrite array_of_elems.
  - intros k m. cbn. by rewrite !bool_decide_true.
  - done.
Qed.

(** ** Hexadecimal and domain names *)

Definition nibble (n : N) : ascii := if (n <? 10)%N then ascii_of_N (48 + n) else ascii_of_N (87 + n).

Definition unnibble (c : ascii) : option N :=
  let n := N_of_ascii c in
  if (48 <=? n)%N && (n <=? 57)%N then Some (n - 48)%N
  else if (97 <=? n)%N && (n <=? 102)%N then Some (n - 87)%N
  else if (65 <=? n)%N && (n <=? 70)%N then Some (n - 55)%N
  else None.

Fixpoint toy_hex_encode (l : bytes) : string :=
  match l with
  | [] => EmptyString
  | b :: l => String (nibble (Byte.to_N b / 16)) (String (nibble (Byte.to_N b mod 16)) (toy_hex_encode l))
  end.

Fixpoint toy_hex_decode (s : bytes) : option bytes :=
  match s with
  | [] => Some []
  | a :: b :: s =>
      h ← unnibble (ascii_of_byte a); l ← unnibble (ascii_of_byte b); rest ← toy_hex_decode s;
      Some (u8 (16 * h + l) :: rest)
  | _ => None
  end.

#[export] Instance toy_hex : Hex := {| hex_encode := toy_hex_encode; hex_decode := toy_hex_decode |}.

Lemma unnibble_digit b n : unnibble (ascii_of_byte b) = Some n -> hex_digit b = true.
Proof. by destruct b. Qed.

Lemma toy_hex_decode_pair a b s bs :
  toy_hex_decode (a :: b :: s) = Some bs ->
  hex_digit a = true /\ hex_digit b = true /\ exists c rest, bs = c :: rest /\ toy_hex_decode s = Some rest.
Proof.
  cbn [toy_hex_decode]. intros (h & Ha & (l & Hb & (rest & Hs & [= <-])%bind_Some)%bind_Some)%bind_Some.
  apply unnibble_digit in Ha, Hb. eauto 8.
Qed.

#[export] Instance toy_hex_laws : HexLaws.
Proof.
  split.
  - intros bs. cbn [hex_decode hex_encode toy_hex]. induction bs as [|b bs IH]; [done|]. cbn [toy_hex_encode].
    change (toy_hex_decode (byte_of_ascii (nibble (Byte.to_N b / 16)) ::
      byte_of_ascii (nibble (Byte.to_N b mod 16)) :: as_bytes (toy_hex_encode bs)) = Some (b :: bs)).
    cbn [toy_hex_decode]. rewrite IH. by destruct b.
  - cbn. intros s. induction s as [[|a [|b s]] IH] using (induction_ltof1 _ length); [set_solver|done|].
    intros bs x (Ha & Hb & c & rest & -> & Hs)%toy_hex_decode_pair [->|[->|Hx]%elem_of_cons]%elem_of_cons; [done..|].
    by eapply (IH s); [unfold ltof; simpl; lia| |].
  - cbn. intros s. induction s as [[|a [|b s]] IH] using (induction_ltof1 _ length); [by intros bs [= <-]|done|].
    intros bs (Ha & Hb & c & rest & -> & Hs)%toy_hex_decode_pair.
    apply IH in Hs; [simpl; lia|unfold ltof; simpl; lia].
Qed.

#[export] Instance toy_names : DomainName := {|
  Name := string;
  name_from_str s := Some s;
  name_eq a b := bool_decide (a = b)
|}.

(** ** Example ids and contacts *)

Definition nid (v : N) : NodeId := n_array 32 v.
Definition naddr (v : N) : SocketAddr := V4 (n_array 4 (2130706432 + v)) (wrap 16 4000).
Definition nc (v : N) : Contact := MkContact (nid v) (naddr v).
