(* ===== verification/RoutingThms.v ===== *)
(** * RoutingThms: what the routing tables guarantee

    The metric, the bucket table, the sibling list, the cache and the deployed
    stack.  Each theorem is followed by an instance on a concrete table. *)

From S2P Require Import Prelude Slices Machine Contacts DumbBucket StaticBucket SiblingList Cache SharedCache Instances.

(** ** The metric *)

(** [xor_distance_cmp] orders ids by the numeric value of their XOR
    distance to the target, is a total order there, and two ids tie only if they
    are the same id; and the leading zeros of a distance count the leading bits
    the two ids share, so a bucket index is the length of the common prefix. *)
Theorem xor_metric (a b t : NodeId) :
  xor_distance_cmp a b t = N.compare (id_val (xor_distance a t)) (id_val (xor_distance b t)) /\
  xor_distance_cmp b a t = CompOpp (xor_distance_cmp a b t) /\
  (xor_distance_cmp a b t = Eq <-> a = b) /\
  (forall n, n <= B -> n <= leading_zeros (xor_distance a b) <-> shares_prefix n a b).
Proof.
  rewrite !id_val_xor. split; [apply xor_distance_cmp_val|]. split; [|split; [apply xor_distance_cmp_eq|]].
  - apply (cmp_sym (by_distance t) (MkContact a (naddr 0)) (MkContact b (naddr 0))).
  - intros n Hn. by apply shared_prefix.
Qed.

(** ** The bucket table *)

Section static.
Context {BUCKET_SIZE SEARCH_SHIFT MAX_BUCKETS : nat}.
Implicit Type s : StaticBucket BUCKET_SIZE SEARCH_SHIFT MAX_BUCKETS.

(** C26: whatever sequence of additions and removals built a bucket table,
    every contact is in the bucket of its id, no bucket is over capacity, no
    id occurs twice in the whole table and we are not in it. *)
Theorem static_table_well_formed (my_id : NodeId) s :
  0 < MAX_BUCKETS -> sb_reach my_id s ->
  (forall i c, c ∈ bucket s i -> bucket_index s (id c) = i /\ id c <> sb_my_id s) /\
  (forall i, length (bucket s i) <= BUCKET_SIZE) /\
  NoDup (id <$> contacts_iter s).
Proof.
  intros Hmax Hr. pose proof (sb_reach_inv my_id s Hmax Hr) as Hs.
  split; [intros i c Hc; split; [by apply (sb_home s Hs)|by eapply (sb_not_me s Hs)]|].
  split; [apply (sb_bounded s Hs)|by apply sb_iter_ids].
Qed.
End static.

(** The deployed bucket table, and examples of it; what the deployed cache wraps. *)
Abbreviation deployed := (StaticBucket K 0 ROUTING_BUCKETS).
Abbreviation stack := (SiblingList deployed SIBLINGS).

(** A query answers with the nearest [K] of a range of buckets around the
    target's own; the range holds at least [K] contacts or is the whole
    table, so the loop that widens it never gives up early. Where the target's
    own bucket holds [K] contacts, or the table holds at most [K], the answer is
    the [K] nearest of the whole table, as the baseline table would give. *)
Theorem static_query_range (now : Instant) (t : NodeId) (s : deployed) :
  sb_inv s ->
  (exists low high, low <= bucket_index s t <= high /\ high < ROUTING_BUCKETS /\
    k_nearest K t (range s low high) (close_nodes now t s).1 /\
    (K <= length (range s low high) \/ (low = 0 /\ high = ROUTING_BUCKETS - 1))) /\
  (K <= length (bucket s (bucket_index s t)) \/ length (contacts_iter s) <= K ->
   k_nearest K t (contacts_iter s) (close_nodes now t s).1).
Proof.
  intros Hs. split; [by apply static_close_nodes_range|].
  intros [Hk|Hk]; [by apply static_exact_home|by apply static_exact_small].
Qed.

Definition add_all {A} `{CloseNodes A} (a : A) (l : list Contact) : A :=
  foldl (fun a c => maybe_add_contact c a) a l.

Lemma add_all_reach (my_id : NodeId) l :
  sb_reach my_id (add_all (static_new my_id : deployed) l).
Proof.
  induction l as [|c l IH] using rev_ind; [constructor|].
  unfold add_all. rewrite foldl_app. by apply sb_reach_add.
Qed.

Lemma deployed_pos : 0 < ROUTING_BUCKETS.
Proof. apply (Nat.lt_0_succ 255). Qed.

Definition small_table : deployed := add_all (static_new (nid 0)) (nc <$> [1; 2; 3; 5; 8]%N).

Lemma static_table_well_formed_witness : NoDup (id <$> contacts_iter small_table).
Proof. apply (static_table_well_formed (nid 0) small_table deployed_pos (add_all_reach _ _)). Defined.

Lemma static_query_range_witness :
  k_nearest K (nid 5) (contacts_iter small_table) (close_nodes 0%N (nid 5) small_table).1.
Proof.
  apply (static_query_range 0%N (nid 5) small_table).
  - apply (sb_reach_inv (nid 0)); [apply deployed_pos|apply add_all_reach].
  - right. vm_compute. lia.
Defined.

(** ** The sibling list *)

Section siblings.
Context {C : Type} `{CloseNodesSpec C} {SIBLINGS : nat}.

(** C25: as long as nothing is removed, the sibling list is exactly the
    [SIBLINGS] contacts nearest to us among all that were ever offered, in
    order, each at the address it was last offered with, whatever the order
    of the offers. *)
Theorem siblings_are_nearest (my_id : NodeId) (fallback : C) (offers : list Contact) :
  cn_inv fallback ->
  let s := add_all (sibling_new my_id fallback : SiblingList C SIBLINGS) offers in
  StronglySorted (near_lt my_id) (siblings s) /\ length (siblings s) <= SIBLINGS /\
  (forall x, x ∈ siblings s -> latest_offers (others my_id offers) !! id x = Some (address x)) /\
  (forall x, latest_offers (others my_id offers) !! id x = Some (address x) ->
     x ∈ siblings s \/
     length (siblings s) = SIBLINGS /\ forall y, y ∈ siblings s -> near_lt my_id y x).
Proof.
  intros Hf s. set (l := foldl (upsert my_id) [] (others my_id offers)).
  destruct (offers_spec (sibling_new my_id fallback : SiblingList C SIBLINGS) offers) as (Hi & Hme & Heq).
  { by apply sibling_new_inv. }
  change (foldl _ _ offers) with s in Hi, Hme, Heq. cbn in Hme, Heq. fold l in Heq.
  pose proof (foldl_upsert_sorted my_id (others my_id offers)) as Hl. fold l in Hl.
  unfold siblings. rewrite Heq. split_and!.
  - by apply StronglySorted_take.
  - rewrite length_take. lia.
  - intros x Hx. apply foldl_upsert_latest with my_id. fold l.
    apply elem_of_take in Hx as (i & Hx & _). by eapply list_elem_of_lookup_2.
  - intros x Hx. apply (foldl_upsert_latest my_id) in Hx. fold l in Hx.
    rewrite <- (take_drop SIBLINGS l) in Hx, Hl. apply elem_of_app in Hx as [Hx|Hx]; [by left|right].
    split; [|intros y Hy; by eapply StronglySorted_app_1_elem_of].
    rewrite length_take. destruct (drop SIBLINGS l) eqn:Hd; [set_solver|].
    apply (f_equal length) in Hd. rewrite length_drop in Hd. simpl in Hd. lia.
Qed.
End siblings.

Lemma siblings_are_nearest_witness :
  nc 3 ∈ siblings (add_all (sibling_new (nid 0) (MkDumb []) : SiblingList DumbBucket 2) (nc <$> [8; 3; 5]%N)).
Proof.
  destruct (siblings_are_nearest (SIBLINGS := 2) (nid 0) (MkDumb []) (nc <$> [8; 3; 5]%N) ltac:(exact I))
    as (_ & _ & _ & Hall).
  destruct (Hall (nc 3)) as [Hin|[_ Hbad]]; [by vm_compute|exact Hin|].
  exfalso. assert (nc 5 ∈ siblings (add_all (sibling_new (nid 0) (MkDumb []) : SiblingList DumbBucket 2)
    (nc <$> [8; 3; 5]%N))) as H5 by (apply (bool_decide_unpack _); by vm_compute).
  apply Hbad in H5. by vm_compute in H5.
Defined.

(** ** The cache *)

(** C28: what a cache serves is current. However the steps of queries, writes and
    clears on any number of threads interleave, as long as the generation is bumped
    fewer than [2^64] times: an answer is what some query of the wrapped table for
    that target answered which began after every bump the serving query saw when it
    loaded the generation, so after every write that was finished by then (of a
    cache built by [new]), or every removal (of one built by [ttl_only]). And when
    the operations do not overlap, there were fewer than [2^64 - 1] writes, and the
    wrapped table's answers depend on nothing but its contents: a cache built by
    [new] answers what the wrapped table would answer now; and whatever the kind of
    cache, the next query after a removal answers what the wrapped table answers
    after it. *)
Theorem cache_transparent {C : Type} `{SharedTable C} `{!PureQuery C} (shards : nat) (shard : NodeId -> nat)
    (s0 s : CachedCloseNodes C) (ts : list (CacheTask (C := C))) (w : Shared) (n : N) (c : Contact) (now : Instant) (t : NodeId) :
  built s0 ->
  (rtc (shared_step shards shard) ([], shared s0) (ts, w) -> (sh_bumps w < 2 ^ 64)%N ->
   forall i u l loaded began, ts !! i = Some (Query u (Answered l) loaded began) -> asked_since w u loaded l) /\
  (cache_reach s0 n s -> (n + 1 < 2 ^ 64)%N ->
   (invalidate_on_write s0 = true -> (close_nodes now t s).1 = (close_nodes now t (inner s)).1) /\
   (close_nodes now t (remove_contact c s)).1 = (close_nodes now t (remove_contact c (inner s))).1).
Proof.
  intros Hb. split.
  - intros Hrun Hlt i u l lo be Hi.
    pose proof (shared_steps_current shards shard s0 _ _ Hrun Hlt (built_current s0 Hb)) as Hc.
    exact (cu_tasks _ _ Hc i u (Answered l) lo be Hi).
  - intros Hr Hn. destruct (cache_reach_exact s0 n s Hb Hr ltac:(lia)) as (Ho & Hg & _ & He). split.
    + intros Hinv. by apply query_exact, He.
    + destruct (bump_exact s (remove_contact c (inner s)) ltac:(lia) Ho) as (_ & Hex & _).
      by apply (query_exact now t (bump (set_inner (remove_contact c (inner s)) s))).
Qed.

(** Tasks over a table, on a map of one shard, taking turns as told. *)
Section turns.
Context {C : Type} `{SharedTable C}.

Definition one_shard (_ : NodeId) : nat := 0.

Definition turn (a : list (CacheTask (C := C)) * Shared) (i : nat) : list (CacheTask (C := C)) * Shared :=
  match a.1 !! i with
  | Some task => let r := task_step 1 one_shard 0%N task a.2 in (<[i := r.1]> a.1, r.2)
  | None => a
  end.

Definition turns (order : list nat) (a : list (CacheTask (C := C)) * Shared) : list (CacheTask (C := C)) * Shared := foldl turn a order.

Lemma turns_steps order a : rtc (shared_step 1 one_shard) a (turns order a).
Proof.
  unfold turns. revert a. induction order as [|i order IH]; intros a; [apply rtc_refl|]. cbn [foldl].
  etrans; [|apply IH]. unfold turn. destruct (a.1 !! i) as [task|] eqn:Hi; [|apply rtc_refl].
  destruct a as [ts w]. apply rtc_once. by apply step_run.
Qed.

(** The tasks of two queries of [t] and of a removal of [c]. *)
Definition ask_remove_ask (t : NodeId) (c : Contact) : list (CacheTask (C := C)) := [query_task t; remove_task c; query_task t].

Lemma ask_remove_ask_steps t c (s : CachedCloseNodes C) :
  rtc (shared_step 1 one_shard) ([], shared s) (ask_remove_ask t c, shared s).
Proof.
  eapply rtc_l; [apply step_query|]. eapply rtc_l; [apply step_remove|]. eapply rtc_l; [apply step_query|]. apply rtc_refl.
Qed.

(** A decidable reading of where a query is. *)
Definition answered (ts : list (CacheTask (C := C))) (i : nat) (t : NodeId) (l : list Contact) (loaded began : N) : bool :=
  match ts !! i with
  | Some (Query t' (Answered l') loaded' began') =>
      bool_decide (t' = t) && bool_decide (l' = l) && bool_decide (loaded' = loaded) && bool_decide (began' = began)
  | _ => false
  end.

Lemma answered_Some ts i t l loaded began :
  answered ts i t l loaded began = true -> ts !! i = Some (Query t (Answered l) loaded began).
Proof.
  unfold answered. destruct (ts !! i) as [[t' [] loaded' began'|parts bumps|k]|]; try done. intros Ha. brefl. congruence.
Qed.
End turns.

(** The removal comes while the first query is under way: what that one stores is
    already stale, and the second query asks again. *)
Definition ex_overlap : list (CacheTask (C := DumbBucket)) * Shared :=
  turns [0; 0; 0; 1; 0; 0; 1; 0; 2; 2; 2; 2; 2; 2]
    (ask_remove_ask (nid 1) (nc 3), shared (ttl_only (MkDumb [nc 3; nc 4]) CACHE_TTL CACHE_CAPACITY)).

Lemma cache_transparent_witness :
  let s := cached_maybe_add_contact (nc 7)
    (cached_close_nodes 0%N (nid 1) (ttl_only (MkDumb [nc 3; nc 4]) CACHE_TTL CACHE_CAPACITY)).2 in
  asked_since ex_overlap.2 (nid 1) 1 [nc 4] /\
  (close_nodes 1%N (nid 1) (remove_contact (nc 3) s)).1 =
  (close_nodes 1%N (nid 1) (remove_contact (nc 3) (inner s))).1.
Proof.
  destruct (cache_transparent 1 one_shard (ttl_only (MkDumb [nc 3; nc 4]) CACHE_TTL CACHE_CAPACITY)
    (cached_maybe_add_contact (nc 7)
      (cached_close_nodes 0%N (nid 1) (ttl_only (MkDumb [nc 3; nc 4]) CACHE_TTL CACHE_CAPACITY)).2)
    ex_overlap.1 ex_overlap.2 (0 + 1)%N (nc 3) 1%N (nid 1) (ttl_only_built _ _ _)) as [Hcur Hseq]. split.
  - apply (Hcur ltac:(rewrite <- (surjective_pairing ex_overlap); etrans; [apply ask_remove_ask_steps|apply turns_steps]) ltac:(by vm_compute) 2 (nid 1) [nc 4] 1%N 1%N).
    apply answered_Some. by vm_compute.
  - apply Hseq; [|done]. apply cr_add, cr_query, cr_built.
Defined.

(** Two overlapping queries can both find room for the last entry: a cache of
    capacity 1 with two entries. *)
Example overlap_overfills :
  let s := cached_new (MkDumb [nc 3]) CACHE_TTL 1 in
  let a := turns (mjoin (replicate 6 [0; 1])) ([query_task (nid 1); query_task (nid 2)], shared s) in
  rtc (shared_step 1 one_shard) ([], shared s) a /\ size (entries (sh_cache a.2)) = 2.
Proof.
  split; [|by vm_compute]. etrans; [|apply turns_steps].
  eapply rtc_l; [apply step_query|]. eapply rtc_l; [apply step_query|]. apply rtc_refl.
Qed.

(** ** The deployed stack *)

(** The states of the deployed table, whatever its users do. *)
Inductive rec_reach (my_id : NodeId) : RecommendedCloseNodes -> Prop :=
  | rr_new : rec_reach my_id (recommended my_id)
  | rr_query now t s : rec_reach my_id s -> rec_reach my_id (close_nodes now t s).2
  | rr_add c s : rec_reach my_id s -> rec_reach my_id (maybe_add_contact c s)
  | rr_remove c s : rec_reach my_id s -> rec_reach my_id (remove_contact c s).

Lemma rec_reach_inv my_id s : rec_reach my_id s -> cn_inv s.
Proof. induction 1; [apply recommended_inv|auto with kad..]. Qed.

(** C24: what the deployed table answers, however the steps of queries, additions,
    removals and clears on any number of threads interleave (a step is what
    happens under one lock or in one atomic operation): at most [K] contacts,
    nearest first. And as long as no two queries overlap, the cache never grows
    beyond its capacity, whatever writes happen meanwhile. (When they do overlap it
    can, which [overlap_overfills] runs.) *)
Theorem recommended_answers (my_id : NodeId) (shards : nat) (shard : NodeId -> nat)
    (ts : list (CacheTask (C := stack))) (w : Shared (C := stack)) :
  (forall k, shard k < shards) ->
  (rtc (shared_step shards shard) ([], shared (recommended my_id)) (ts, w) ->
   forall i t l loaded began, ts !! i = Some (Query t (Answered l) loaded began) ->
     length l <= K /\ StronglySorted (near_le t) l) /\
  (rtc (lone_step shards shard) ([], shared (recommended my_id)) (ts, w) ->
   size (entries (sh_cache w)) <= CACHE_CAPACITY).
Proof.
  intros Hshard. split.
  - intros Hrun i t l lo be Hi.
    assert (all_allowed (ts, w)) as [_ Hall]; [|exact (Hall i t (Answered l) lo be Hi)].
    eapply (shared_steps_allowed shards shard); [exact Hrun|]. split; [|done].
    intros u e He. cbn in He. by rewrite lookup_empty in He.
  - intros Hrun. refine (proj1 (lone_capacity shards shard Hshard (recommended my_id) (ts, w) _ _ Hrun)); [done|].
    cbn. unfold CACHE_CAPACITY. lia.
Qed.

(** Two queries and a removal on the deployed table that knows one contact, in
    turns. *)
Definition ex_deployed : list (CacheTask (C := stack)) * Shared (C := stack) :=
  turns (mjoin (replicate 530 [0; 1; 2; 3])) (add_task (nc 4) (recommended (nid 1)) :: ask_remove_ask (nid 9) (nc 5),
    shared (recommended (nid 1))).

Lemma ex_deployed_steps :
  rtc (shared_step 1 one_shard) ([], shared (recommended (nid 1))) ex_deployed.
Proof.
  unfold ex_deployed. etrans; [|apply turns_steps].
  eapply rtc_l; [apply step_add|]. eapply rtc_l; [apply step_query|]. eapply rtc_l; [apply step_remove|].
  eapply rtc_l; [apply step_query|]. apply rtc_refl.
Qed.

Lemma recommended_answers_witness :
  length [nc 4] <= K /\ StronglySorted (near_le (nid 9)) [nc 4] /\
  size (entries (sh_cache (shared (recommended (nid 1))))) <= CACHE_CAPACITY.
Proof.
  destruct (recommended_answers (nid 1) 1 one_shard ex_deployed.1 ex_deployed.2 ltac:(intros k; apply le_n)) as [Hall _].
  destruct (recommended_answers (nid 1) 1 one_shard [] (shared (recommended (nid 1))) ltac:(intros k; apply le_n)) as [_ Hcap].
  destruct (Hall ltac:(rewrite <- (surjective_pairing ex_deployed); exact ex_deployed_steps)
    1 (nid 9) [nc 4] 0%N 0%N ltac:(apply answered_Some; by vm_compute)) as [Hl Hs].
  split; [exact Hl|]. split; [exact Hs|]. apply Hcap, rtc_refl.
Defined.

(** Twenty-one contacts around our id 0: ten siblings, one contact in bucket
    11, nine in bucket 9 and one in bucket 12. *)
Definition lopsided : list Contact :=
  nc <$> ([1; 2; 3; 4; 5; 6; 7; 8; 9; 10; 2 ^ 244]%N ++
          ((fun i => 2 ^ 246 + i)%N <$> [0; 1; 2; 3; 4; 5; 6; 7; 8]%N) ++ [2 ^ 243]%N).

(** C27: the deployed table does not always answer with the [K] nearest it
    knows: widening both ways at once can stop before it reaches a bucket on the
    near side, and a contact nearer than every one answered is left out. *)
Theorem recommended_misses_nearest :
  exists (s : RecommendedCloseNodes) (t : NodeId) (x : Contact), rec_reach (nid 0) s /\
    x ∈ contacts_iter s /\ length (close_nodes 0%N t s).1 = K /\
    forall y, y ∈ (close_nodes 0%N t s).1 -> near_lt t x y.
Proof.
  exists (add_all (recommended (nid 0)) lopsided), (nid (2 ^ 245 + 2 ^ 243)), (nc (2 ^ 243)).
  split; [|split_and!].
  - assert (forall l, rec_reach (nid 0) (add_all (recommended (nid 0)) l)) as Hr; [|apply Hr].
    intros l. induction l as [|c l IH] using rev_ind; [constructor|].
    unfold add_all. rewrite foldl_app. by apply rr_add.
  - apply (bool_decide_unpack _). by vm_compute.
  - by vm_compute.
  - apply Forall_forall.
    assert (forallb (fun y => bool_decide (by_distance (nid (2 ^ 245 + 2 ^ 243)) (nc (2 ^ 243)) y = Lt))
      (close_nodes 0%N (nid (2 ^ 245 + 2 ^ 243)) (add_all (recommended (nid 0)) lopsided)).1 = true) as Hb
      by by vm_compute.
    apply Forall_forall. intros y Hy. rewrite forallb_forall in Hb.
    apply list_elem_of_In, Hb in Hy. by brefl.
Qed.
