(* ===== verification/TransportThms.v ===== *)
(** * TransportThms: framing, reply matching and retries

    What the wire format, the pool of pending requests, the retrying datagram
    transport and the one-request connections guarantee. *)

From S2P Require Import Prelude Slices Machine Contacts Crates Text Package Wire Pending Datagram Stream HandleRpc Rpc DumbBucket Instances.

(** ** Framing *)

(** C32: the server reads a request exactly when it is what the client frames,
    and reads back the sender, the method and the body that were framed; no
    method tag is a prefix of another. *)
Theorem request_framing_exact (payload : bytes) (sender : NodeId) (m : Method) (req_body : bytes) :
  parse_framed payload = Some (sender, m, req_body) <-> payload = rpc_request sender m req_body.
Proof. apply parse_framed_Some. Qed.

(** A node that receives what another node frames as a reply or as a
    request never confuses the two: a reply is handed to the waiter under the
    request's own id, a request is queued under it and touches no waiter. *)
Theorem receive_splits (draw : u64) (payload : bytes) (from : SocketAddr) (s : Receiver) :
  ID_LEN + length payload <= RECEIVE_BUFFER ->
  receive_datagram (frame_reply (request_id draw) payload) from s =
    MkReceiver (deliver (request_id draw) from payload (rcv_pending s)).2 (rcv_requests s) /\
  receive_datagram (frame_request (request_id draw) payload) from s =
    MkReceiver (rcv_pending s)
      ((fun q => (try_send (MkRequest (request_id draw) from true payload) q).2) <$> rcv_requests s).
Proof.
  intros Hl. split; [|by apply receive_request].
  rewrite receive_reply by done. by rewrite request_id_idemp.
Qed.

Lemma receive_splits_witness :
  rcv_pending (receive_datagram (frame_request (request_id (wrap 64 (2 ^ 63 + 5))) (as_bytes "PING"))
    (naddr 1) (MkReceiver pending_new None)) = pending_new.
Proof.
  rewrite (proj2 (receive_splits (wrap 64 (2 ^ 63 + 5)) (as_bytes "PING") (naddr 1) (MkReceiver pending_new None)
    ltac:(vm_compute; lia))). reflexivity.
Defined.

(** C23: everything that goes over datagrams fits the receive buffer, so nothing
    is cut: the PING and FIND_NODE requests of any client, and the replies of any
    node with a sound table, which the client's receive loop hands on whole. *)
Theorem datagrams_fit `{Sha256} `{Ed25519} `{CodecSizes} {A D : Type} `{CloseNodesSpec A} `{!DnsData D}
    (now : Instant) (draw : u64) (from peer : SocketAddr) (reachable : bool) (me : NodeId) (method : Method)
    (req_body : bytes) (c : Context A D) (s : Receiver) :
  cn_inv (ctx_nodes c) ->
  (method = Ping /\ req_body = []) \/ (method = FindNode /\ exists target, find_node_encode_request target = Some req_body) ->
  length (frame_request (request_id draw) (rpc_request me method req_body)) <= RECEIVE_BUFFER /\
  forall framed,
    (dispatch now (MkRequest (request_id draw) from reachable (rpc_request me method req_body)) c).1 = Some framed ->
    length framed <= RECEIVE_BUFFER /\
    exists reply, framed = frame_reply (request_id draw) reply /\
      receive_datagram framed peer s =
        MkReceiver (deliver (request_id draw) peer reply (rcv_pending s)).2 (rcv_requests s).
Proof.
  intros Hc Hm. split.
  - unfold frame_request, rpc_request. rewrite !length_app, to_be_bytes_length, array_length.
    destruct Hm as [[-> ->]|[-> [t Ht%size_id]]]; [|rewrite Ht]; apply Nat.leb_le; by vm_compute.
  - intros framed Hf.
    destruct (dispatch_short now (MkRequest (request_id draw) from reachable (rpc_request me method req_body))
      me method req_body c framed) as (reply & -> & Hl); [done|naive_solver|done|done|].
    assert (ID_LEN + length reply <= RECEIVE_BUFFER) as Hfit.
    { assert (ID_LEN + (8 + 64 * K) <= RECEIVE_BUFFER) by (apply Nat.leb_le; by vm_compute). lia. }
    split; [unfold frame_reply; by rewrite length_app, to_be_bytes_length|].
    exists reply. split; [done|]. cbn [req_id]. rewrite receive_reply by done. by rewrite request_id_idemp.
Qed.

(** ** Waiting for replies *)

(** C18: in every interleaving of registrations, deliveries and drops, the
    payload a waiter reads was delivered, after it registered, under its own id
    and by the very peer it is waiting for. *)
Theorem reply_authentic (tr : list Event) (p : Pending) (id : u64) (peer : SocketAddr)
    (r : PendingResponse) (v : bytes) :
  pending_run tr p -> Registered id peer (Some r) ∈ tr -> poll r p = Ready (Some v) ->
  since tr (Registered id peer (Some r)) (Delivered id peer v true).
Proof. apply poll_authentic. Qed.

Definition ex_id : u64 := wrap 64 7.

(** Register, a stray reply from another peer, then the reply. *)
Definition ex_run : list Event * Pending :=
  let r1 := register ex_id (naddr 1) pending_new in
  let r2 := deliver ex_id (naddr 2) [x00] r1.2 in
  let r3 := deliver ex_id (naddr 1) [x01] r2.2 in
  ([Delivered ex_id (naddr 1) [x01] r3.1; Delivered ex_id (naddr 2) [x00] r2.1;
    Registered ex_id (naddr 1) r1.1], r3.2).

Lemma ex_run_ok : pending_run ex_run.1 ex_run.2.
Proof. repeat (econstructor; [|exact I|constructor]). constructor. Qed.

Lemma reply_authentic_witness :
  since ex_run.1 (Registered ex_id (naddr 1) (Some (MkPendingResponse ex_id 0)))
    (Delivered ex_id (naddr 1) [x01] true).
Proof.
  apply (reply_authentic ex_run.1 ex_run.2 ex_id (naddr 1) (MkPendingResponse ex_id 0) [x01]).
  - apply ex_run_ok.
  - right. right. left.
  - by vm_compute.
Defined.

(** C31: as long as no id is handed out again while an earlier response for it
    is still held, a waiter never finds its channel closed without an answer, so
    the [unwrap] of [send_receive] cannot panic. Without that discipline it can:
    dropping an answered response removes the slot of a later request that drew
    the same id, and the later waiter finds its channel closed. *)
Theorem waiter_never_orphaned (tr : list Event) (p : Pending) (id : u64) (peer a b : SocketAddr)
    (r : PendingResponse) (v : bytes) :
  (pending_run tr p -> no_overlap tr ->
   Registered id peer (Some r) ∈ tr -> Dropped r ∉ tr -> poll r p <> Ready None) /\
  exists r2, (rereg id a b v pending_new).1 = Some r2 /\
    poll r2 (rereg id a b v pending_new).2 = Ready None.
Proof. split; [apply poll_never_none|apply rereg_orphans]. Qed.

Lemma waiter_never_orphaned_witness : poll (MkPendingResponse ex_id 0) ex_run.2 <> Ready None.
Proof.
  apply (waiter_never_orphaned ex_run.1 ex_run.2 ex_id (naddr 1) (naddr 1) (naddr 1) _ []).
  - apply ex_run_ok.
  - split; [set_solver|exact I].
  - right. right. left.
  - intros Hin. repeat (apply elem_of_cons in Hin as [Hin|Hin]; [discriminate Hin|]).
    by apply not_elem_of_nil in Hin.
Defined.


(** C16: a whole call of the datagram transport, whatever the other tasks do to the
    pool meanwhile: it sends the framed request at most [MAX_ATTEMPTS] times, always
    the same datagram to the same peer, under an id nobody was using; it returns
    only a reply the peer delivered under that id, an error of the socket, or a
    timeout. A timeout means that all [MAX_ATTEMPTS] sends were made and that at the
    end of the last wait the timer's branch was taken although a reply was there
    (the [select!] takes either branch when both are ready), or that no reply of
    the peer had been delivered under the id by then, unless an id was reused while
    still in use; and it panics only if an id was so reused. Only when every id it
    draws is in use does it go on drawing, and sends nothing. *)
Theorem send_receive_contract {W : Type}
    (send_packet : bytes -> SocketAddr -> M W (result IoError unit))
    (wait : PendingResponse -> Duration -> M (@env_state W) bool)
    (settle : PendingResponse -> @env_state W -> @env_state W)
    (draws : list u64) (payload : bytes) (address : SocketAddr) (s : Client W) :
  (forall msg d e, evolves msg e (wait msg d e).2) -> (forall msg e, evolves msg e (settle msg e)) -> consistent s ->
  let r := send_receive send_packet wait settle draws payload address s in
  consistent r.2 /\ call_contract send_packet wait settle address payload draws s r.2 r.1.
Proof. intros Hw Hl Hs. by apply send_receive_spec. Qed.

(** A silent network. *)
Definition silent_send (_ : bytes) (_ : SocketAddr) : M unit (result IoError unit) := mret (Ok tt).
Definition silent_wait (_ : PendingResponse) (_ : Duration) : M (@env_state unit) bool := mret true.
Definition settled {W} (_ : PendingResponse) (e : @env_state W) : @env_state W := e.
Definition idle : Client unit := MkClient pending_new [] tt [].

Lemma send_receive_contract_witness :
  let r := send_receive silent_send silent_wait settled [ex_id] [x01] (naddr 1) idle in
  consistent r.2 /\ call_contract silent_send silent_wait settled (naddr 1) [x01] [ex_id] idle r.2 r.1.
Proof.
  apply (send_receive_contract silent_send silent_wait settled).
  - intros msg d e Hrun. exists []. split; [reflexivity|]. split; [exact Hrun|set_solver].
  - intros msg e Hrun. exists []. split; [reflexivity|]. split; [exact Hrun|set_solver].
  - constructor.
Defined.

(** A peer that never answers: five sends, then the timeout. *)
Example silent_peer_times_out :
  let r := send_receive silent_send silent_wait settled [ex_id] [x01] (naddr 1) idle in
  r.1 = Returned (Err timed_out) /\ length (cl_outbox r.2) = MAX_ATTEMPTS.
Proof. by vm_compute. Qed.

(** C17: a call always comes to an end, and with a reply when one came in time: if
    the socket takes the sends, an unused id can be drawn, no id is handed out
    again while a response for it is still held, and no [select!] takes the timer
    over a reply that is already there, then the call returns a reply that was
    delivered under its id by the peer it asked, in whichever of its waits that
    was, or it makes all [MAX_ATTEMPTS] sends and times out, and then no such reply
    was delivered from the registration to the end of the last wait (one delivered
    after that, before the id is given up, is lost). *)
Theorem answered_call_returns {W : Type}
    (send_packet : bytes -> SocketAddr -> M W (result IoError unit))
    (wait : PendingResponse -> Duration -> M (@env_state W) bool)
    (settle : PendingResponse -> @env_state W -> @env_state W)
    (draws : list u64) (payload : bytes) (address : SocketAddr) (s : Client W) :
  (forall msg d e, evolves msg e (wait msg d e).2) -> (forall msg e, evolves msg e (settle msg e)) ->
  (forall msg d e, poll msg (wait msg d e).2.1.1 <> NotReady -> (wait msg d e).1 = false) ->
  (forall datagram a w, (send_packet datagram a w).1 = Ok tt) -> consistent s ->
  (exists draw, draw ∈ draws /\ slots (cl_pending s) !! request_id draw = None) ->
  let r := send_receive send_packet wait settle draws payload address s in
  no_overlap (cl_history r.2) ->
  exists draw msg, draw ∈ draws /\ slots (cl_pending s) !! request_id draw = None /\
    let registered := Registered (request_id draw) address (Some msg) in
    registered ∈ cl_history r.2 /\
    ((exists v, r.1 = Returned (Ok v) /\
        since (cl_history r.2) registered (Delivered (request_id draw) address v true)) \/
     (r.1 = Returned (Err timed_out) /\
        cl_outbox r.2 = cl_outbox s ++ replicate MAX_ATTEMPTS (address, frame_request (request_id draw) payload) /\
        exists e, let last := (wait msg RESEND_INTERVAL e).2 in
          cl_history r.2 = Dropped msg :: (settle msg last).1.2 /\
          forall v ok, ~ since last.1.2 registered (Delivered (request_id draw) address v ok))).
Proof.
  intros Hw Hl Htimer Hsend Hs Hfree r Hno.
  destruct (send_receive_spec send_packet wait settle Hw Hl draws payload address s Hs) as [_ Hcon]. fold r in Hcon.
  unfold call_contract in Hcon. destruct r.1 as [[v|e]| |].
  - destruct Hcon as (draw & msg & sends & Hin & Hslot & _ & _ & Hreg & Hv).
    exists draw, msg. split; [done|]. split; [done|]. split; [done|]. left. eauto.
  - destruct Hcon as (draw & msg & sends & Hin & Hslot & _ & Ho & Hreg & [(-> & -> & Hun)|(dg & a & w & He)]).
    + exists draw, msg. split; [done|]. split; [done|]. split; [done|]. right. split; [done|]. split; [done|].
      destruct Hun as (e & _ & Heq & [[Hp Ht]|Hnone]); [by rewrite (Htimer _ _ _ Hp) in Ht|].
      exists e. split; [done|by apply Hnone].
    + by rewrite Hsend in He.
  - by destruct Hcon as (draw & msg & sends & _ & _ & _ & _ & _ & ?).
  - destruct Hcon as [_ Hall], Hfree as (draw & Hin & Hslot). specialize (Hall draw Hin).
    rewrite Hslot in Hall. by destruct Hall.
Qed.

(** A peer that answers only the third request. *)
Definition slow_send (_ : bytes) (_ : SocketAddr) : M nat (result IoError unit) :=
  fun n => (Ok tt, S n).
Definition slow_wait (msg : PendingResponse) (_ : Duration) : M (@env_state nat) bool :=
  fun e =>
    let e' := if e.2 =? 3 then
        let d := deliver (pr_id msg) (naddr 1) [x07] e.1.1 in
        (d.2, Delivered (pr_id msg) (naddr 1) [x07] d.1 :: e.1.2, e.2)
      else e in
    (match poll msg e'.1.1 with NotReady => true | Ready _ => false end, e').
Definition slow_idle : Client nat := MkClient pending_new [] 0 [].

Lemma answered_call_returns_witness :
  (send_receive slow_send slow_wait settled [ex_id] [x01] (naddr 1) slow_idle).1 = Returned (Ok [x07]) /\
  exists draw msg, draw ∈ [ex_id] /\ slots (cl_pending slow_idle) !! request_id draw = None /\
    Registered (request_id draw) (naddr 1) (Some msg) ∈
      cl_history (send_receive slow_send slow_wait settled [ex_id] [x01] (naddr 1) slow_idle).2.
Proof.
  split; [by vm_compute|].
  destruct (answered_call_returns slow_send slow_wait settled [ex_id] [x01] (naddr 1) slow_idle) as (draw & msg & ? & ? & ? & _).
  - intros msg d e Hrun. unfold slow_wait. cbn [snd]. destruct (e.2 =? 3).
    + eexists [_]. split; [reflexivity|]. split; [econstructor; [exact Hrun|exact I|constructor]|].
      intros Hin%list_elem_of_singleton. discriminate Hin.
    + exists []. split; [reflexivity|]. split; [exact Hrun|set_solver].
  - intros msg e Hrun. exists []. split; [reflexivity|]. split; [exact Hrun|set_solver].
  - intros msg d e Hp. unfold slow_wait in *. cbn [fst snd] in *. by destruct (poll _ _).
  - reflexivity.
  - constructor.
  - exists ex_id. split; [by left|by vm_compute].
  - vm_compute. split; [|exact I]. intros peer r Hin. by apply not_elem_of_nil in Hin.
  - exists draw, msg. auto.
Defined.

(** The same peer, and a [select!] that takes the timer over the reply it has: the
    call sends on, and the timeout comes although the reply is there. *)
Example reply_loses_the_race :
  let raced := fun msg d e => (true, (slow_wait msg d e).2) in
  let r := send_receive slow_send raced settled [ex_id] [x01] (naddr 1) slow_idle in
  r.1 = Returned (Err timed_out) /\ length (cl_outbox r.2) = MAX_ATTEMPTS /\
  Delivered ex_id (naddr 1) [x07] true ∈ cl_history r.2.
Proof. vm_compute. split_and!; [done..|]. repeat (apply elem_of_cons; (left; reflexivity) || right). Qed.

(** ** Connections *)

(** Over a connection, the client returns what the peer wrote after its
    half-close exactly when it is led by the request's own id; anything else is
    an error and never a panic. *)
Theorem stream_reply_checked (draw : u64) (payload : bytes) (answer : bytes -> bytes) :
  (stream_send_receive draw payload (pipe_to answer)).1 =
    read_reply (request_id draw) (answer (frame_request (request_id draw) payload)) /\
  (forall reply_body, read_reply (request_id draw) (frame_reply (request_id draw) reply_body) = Ok reply_body) /\
  (forall reply reply_body, read_reply (request_id draw) reply = Ok reply_body ->
     exists echoed, reply = to_be_bytes echoed ++ reply_body /\ request_id echoed = request_id draw).
Proof.
  split; [apply stream_over_pipe|]. split; [apply read_reply_framed|apply read_reply_Ok].
Qed.

(** ** Client and server *)

Section agreement.
Context `{Sha256} `{Ed25519} `{CodecLaws} {A D : Type} `{CloseNodes A} `{!DnsData D}.

(** C22: what a client decodes from a served request is what the server's
    handler answered: the nearest contacts of FIND_NODE, the value or the
    nearest contacts of FIND_VALUE, the node's id of PING; except that the
    addresses of contacts lose what serde does not send, the flow information and
    the scope of an IPv6 address. *)
Theorem client_server_agree (now : Instant) (from : SocketAddr) (reachable : bool) (draw : u64)
    (me : NodeId) (target : NodeId) (q : bytes) (c : Context A D) (reply : bytes) :
  serialize target = Some q ->
  ((served now from reachable draw me FindNode q c).1 = Some reply ->
   find_node_decode_reply reply =
     Some (serde_contact <$> (close_nodes now target (ctx_nodes (after_learning from reachable me c))).1)) /\
  ((served now from reachable draw me FindValue q c).1 = Some reply ->
   deserialize reply = Some
     match ctx_values c !! target with
     | Some v => FoundValue v
     | None => Closest (serde_contact <$> (close_nodes now target (ctx_nodes (after_learning from reachable me c))).1)
     end) /\
  ((served now from reachable draw me Ping [] c).1 = Some reply ->
   ping_decode_reply reply = Some (my_id c)).
Proof.
  intros Hq. split; [by apply served_find_node|]. split; [by apply served_find_value|apply served_ping].
Qed.
End agreement.

(** A resolver that knows nobody. *)
#[export] Instance no_dns : DnsData unit := fun _ => mret None.

Definition ex_node : Context DumbBucket unit := MkContext (nid 9) (MkDumb [nc 1; nc 2; nc 3]) ∅ tt.

Lemma client_server_agree_witness :
  find_node_decode_reply (enc [nc 2; nc 3; nc 1]) =
  Some (serde_contact <$> (close_nodes 0%N (nid 2) (ctx_nodes (after_learning (naddr 4) false (nid 4) ex_node))).1).
Proof.
  apply (client_server_agree (A := DumbBucket) (D := unit) 0%N (naddr 4) false ex_id (nid 4) (nid 2)
    (enc (nid 2)) ex_node (enc [nc 2; nc 3; nc 1])); by vm_compute.
Defined.

(** A full answer of ten contacts. *)
Definition ex_full : Context DumbBucket unit :=
  MkContext (nid 9) (MkDumb (nc <$> [1; 2; 3; 4; 5; 6; 7; 8; 9; 10; 11; 12]%N)) ∅ tt.

Definition ex_find : Request :=
  MkRequest (request_id ex_id) (naddr 4) true (rpc_request (nid 4) FindNode (enc (nid 2))).

Lemma datagrams_fit_witness :
  exists framed, (dispatch 0%N ex_find ex_full).1 = Some framed /\ length framed <= RECEIVE_BUFFER.
Proof.
  destruct (dispatch 0%N ex_find ex_full).1 as [framed|] eqn:E; [|exfalso; revert E; by vm_compute].
  exists framed. split; [reflexivity|].
  refine (proj1 (proj2 (datagrams_fit 0%N ex_id (naddr 4) (naddr 9) true (nid 4) FindNode (enc (nid 2)) ex_full
    (MkReceiver pending_new None) I _) framed E)).
  right. split; [reflexivity|]. by exists (nid 2).
Defined.
