(* ===== verification/ToyNet.v ===== *)
(** * ToyNet: a small network to run the model on

    A handful of nodes, each a [Context] served by [dispatch], behind the two
    transports: the datagram one (requests teach the sender) and the
    connection-shaped one (they do not).  Used for the worked examples. *)

From S2P Require Import Prelude Slices Machine Contacts Crates Text Package VersionChain Wire.
From S2P Require Import Stream HandleRpc DumbBucket Rpc Lookup Bootstrap Registry Maintenance Instances.

(** A resolver that is a table of keys. *)
Definition Zone : Type := gmap string (array 32).
#[export] Instance zone_dns : DnsData Zone := fun domain => gets (fun z : Zone => z !! domain).

Abbreviation Server := (Context DumbBucket Zone).

Record Net : Type := MkNet { servers : gmap SocketAddr Server; zone : Zone }.

#[export] Instance net_clock : Clock Net := fun _ => 0%N.
Definition net_pick (_ : Net) : nat := 0.

Abbreviation NetEnv := (Env DumbBucket Net).

Definition set_world (f : Net -> Net) (e : NetEnv) : NetEnv :=
  MkEnv (table e) (metrics e) (next_lookup e) (f (world e)).

(** Deliver a request to the server at [address] and read its reply. *)
Definition net_transport (me : SocketAddr) (reachable : bool) : RpcTransport DumbBucket Net :=
  fun payload address e =>
    match servers (world e) !! address with
    | None => (Err (MkIoError TimedOut "no such node"), e)
    | Some server =>
        let id := request_id (wrap 64 42) in
        let r := dispatch 0%N (MkRequest id me reachable payload) server in
        (match r.1 with
         | None => Err (MkIoError TimedOut "not answered")
         | Some framed => read_reply id framed
         end,
         set_world (fun n => MkNet (<[address := r.2]> (servers n)) (zone n)) e)
    end.

(** The client with id 0. *)
Definition net_rpc : Rpc DumbBucket Net :=
  MkRpc (nc 0) (net_transport (naddr 0) true) (net_transport (naddr 0) false).

Definition net_dns (domain : string) : M NetEnv (option VerifyingKey) := gets (fun e => zone (world e) !! domain).

Definition ex_key : array 32 := nid 1234567.
Definition ex_sk : SigningKey := ex_key.
Definition ex_vk : VerifyingKey := ex_key.
Definition ex_domain : string := "example.test".
Definition ex_zone : Zone := {[ ex_domain := ex_key ]}.

(** Nodes 1 to 4 know each other in a ring; the client only knows node 1. *)
Definition ex_server (v : N) (knows : list N) : SocketAddr * Server :=
  (naddr v, MkContext (nid v) (MkDumb (nc <$> knows)) ∅ ex_zone).

Definition ex_net : Net :=
  MkNet (list_to_map [ex_server 1 [2]; ex_server 2 [3]; ex_server 3 [4]; ex_server 4 [1]]%N) ex_zone.

Definition ex_env : NetEnv := MkEnv (MkDumb [nc 1]) [] (wrap 64 1) ex_net.

Definition v100 : Version := MkVersion (wrap 32 1) (wrap 32 0) (wrap 32 0).
Definition v110 : Version := MkVersion (wrap 32 1) (wrap 32 1) (wrap 32 0).

Definition publish_v (v : Version) (blob : bytes) : M NetEnv (result PublishError PublishReceipt) :=
  publish_package net_pick net_rpc net_dns ex_domain "tool" v blob ex_key None false.

(** The network after two publications. *)
Definition ex_published : NetEnv :=
  (publish_v v110 [x02] (publish_v v100 [x01] ex_env).2).2.

(** The node lookup walks the ring; an example of the whole path. *)
Example ex_lookup : (lookup_node net_pick net_rpc (nid 4) ex_env).1 = nc <$> [4; 1; 2; 3]%N.
Proof. by vm_compute. Qed.

(** Publishing twice and installing gives back the newest, or the one asked for. *)
Example ex_install :
  (install_package net_pick net_rpc net_dns ex_domain "tool" None ex_published).1 =
    Ok (MkInstalled v110 (key_for_value [x02]) [x02]) /\
  (install_package net_pick net_rpc net_dns ex_domain "tool" (Some v100) ex_published).1 =
    Ok (MkInstalled v100 (key_for_value [x01]) [x01]).
Proof. by vm_compute. Qed.
