(* ===== verification/StorageThms.v ===== *)
(** * StorageThms: versions, signed histories and what nodes store

    What a verified history is worth, what a node can come to store whatever
    its peers send in whatever order, and what publishing and installing
    guarantee. *)

From S2P Require Import Prelude Slices Machine Contacts Crates Text Package VersionChain.
From S2P Require Import Wire HandleRpc DumbBucket Rpc Lookup Registry Maintenance Instances ToyNet.
From Stdlib Require Import Strings.Ascii.

(** ** Keys, versions, signatures *)

(** Two packages of valid domains share a latest key only if they are the
    same package, or the digest collides. *)
Theorem latest_key_separates `{Sha256} (d1 p1 d2 p2 : string) :
  contains_char ":"%char d1 = false -> contains_char ":"%char d2 = false ->
  latest_key d1 p1 = latest_key d2 p2 ->
  (d1 = d2 /\ p1 = p2) \/
  (as_bytes (latest_name d1 p1) <> as_bytes (latest_name d2 p2) /\
   hash_bytes (as_bytes (latest_name d1 p1)) = hash_bytes (as_bytes (latest_name d2 p2))).
Proof.
  intros H1 H2 Hk. destruct (decide (as_bytes (latest_name d1 p1) = as_bytes (latest_name d2 p2))) as [Heq|Hne].
  - left. by apply latest_name_inj, as_bytes_inj.
  - by right.
Qed.

Lemma latest_key_separates_witness :
  (ex_domain = ex_domain /\ "tool"%string = "tool"%string) \/
  (as_bytes (latest_name ex_domain "tool") <> as_bytes (latest_name ex_domain "tool") /\
   hash_bytes (as_bytes (latest_name ex_domain "tool")) = hash_bytes (as_bytes (latest_name ex_domain "tool"))).
Proof. apply (latest_key_separates ex_domain "tool" ex_domain "tool"); reflexivity. Defined.

(** ** Histories *)

Section histories.
Context `{Sha256} `{Ed25519} `{CodecLaws} {W : Type}.

(** C21: whatever the DHT serves, a walked chain is a history: every record is
    the owner's, of this package, stored under its own hash; each names the
    next by hash; versions strictly decrease from the pointer's; the last has
    no predecessor; and there are at most [MAX_CHAIN_LENGTH]. And a history whose
    records the DHT serves is walked to its end, in whatever way the serving
    state changes meanwhile. *)
Theorem walk_chain_exact (latest : Signed LatestPointer) (owner : VerifyingKey)
    (domain package : string) (fetch : Key -> M W (option bytes)) (I : W -> Prop) (w : W)
    (chain : list (Signed VersionRecord)) :
  let proper := pointer_ok latest owner domain package /\
    history owner domain package (lp_version_record_hash (body latest)) chain /\
    (vr_version ∘ body <$> head chain) = Some (lp_version (body latest)) /\
    length chain <= MAX_CHAIN_LENGTH in
  ((walk_chain latest owner domain package fetch w).1 = Ok chain -> proper) /\
  (proper -> serves I fetch chain -> I w -> (walk_chain latest owner domain package fetch w).1 = Ok chain).
Proof.
  intros proper. split.
  - intros Hw. eapply walk_chain_sound. rewrite <- Hw. apply surjective_pairing.
  - intros (? & ? & ? & ?) Hs Hw. by apply (walk_chain_complete _ _ _ _ _ I chain w).
Qed.

(** C10: a proof sent with a STORE is accepted only if it is, in some order,
    exactly the pointer's history: nothing missing, nothing extra. *)
Theorem proof_is_history (latest : Signed LatestPointer) (owner : VerifyingKey)
    (proof chain : list (Signed VersionRecord)) :
  validate_chain_proof latest owner proof = Ok chain ->
  verified latest owner chain /\ Permutation chain proof.
Proof. intros (Hp & Hh & Hv & Hperm)%validate_sound. done. Qed.

(** C30: the pointer pins the whole history: two walks that succeed from pointers
    with the same record hash return the same chain, whatever each of them was
    served, and even under different keys, names and versions; or two different
    encodings of walked records with one SHA-256 digest are exhibited. *)
Theorem pointer_pins_history {W' : Type} (latest latest' : Signed LatestPointer) (owner owner' : VerifyingKey)
    (d p d' p' : string) (fetch : Key -> M W (option bytes)) (fetch' : Key -> M W' (option bytes))
    (w : W) (w' : W') (c1 c2 : list (Signed VersionRecord)) :
  (walk_chain latest owner d p fetch w).1 = Ok c1 ->
  (walk_chain latest' owner' d' p' fetch' w').1 = Ok c2 ->
  lp_version_record_hash (body latest) = lp_version_record_hash (body latest') ->
  c1 = c2 \/
  exists r1 r2 b1 b2, r1 ∈ c1 /\ r2 ∈ c2 /\ serialize r1 = Some b1 /\ serialize r2 = Some b2 /\
    b1 <> b2 /\ hash_bytes b1 = hash_bytes b2.
Proof.
  intros H1w H2w Heq.
  assert (history owner d p (lp_version_record_hash (body latest)) c1) as Hh1
    by (eapply (walk_chain_sound latest owner d p fetch); rewrite <- H1w; apply surjective_pairing).
  assert (history owner' d' p' (lp_version_record_hash (body latest')) c2) as Hh2
    by (eapply (walk_chain_sound latest' owner' d' p' fetch'); rewrite <- H2w; apply surjective_pairing).
  rewrite <- Heq in Hh2. destruct (history_unique _ _ _ _ _ _ _ _ _ Hh1 Hh2) as [?|(r1 & r2 & Hr1 & Hr2 & Hne & Hk)];
    [by left|right].
  destruct (history_ok _ _ _ _ _ _ Hh1 Hr1) as (k & Hk1 & _). rewrite Hk1 in Hk. symmetry in Hk.
  apply record_key_serialize in Hk1 as (b1 & Hb1 & Hd1), Hk as (b2 & Hb2 & Hd2).
  exists r1, r2, b1, b2. split_and!; [done..| |].
  - intros <-. apply deserialize_serialize in Hb1, Hb2. congruence.
  - unfold key_for_value in *. congruence.
Qed.
End histories.

(** [compare_chains] answers exactly when both chains are non-empty and of
    one package, and its answer says precisely whether one is a suffix of the
    other; swapping the arguments swaps extension and rollback. *)
Theorem compare_chains_meaning (stored proposed : list (Signed VersionRecord)) (rel : ChainRelation) :
  (compare_chains stored proposed = Ok rel <->
   stored <> [] /\ proposed <> [] /\ one_package stored proposed /\ relates stored proposed rel) /\
  (compare_chains stored proposed = Ok rel -> compare_chains proposed stored = Ok (mirror rel)).
Proof.
  split; [apply compare_chains_spec|].
  rewrite !compare_chains_spec. intros (Hs & Hp & Hone & Hrel). split_and!; [done|done| |by apply relates_mirror].
  intros r1 r2 H1 H2. apply Hone; set_solver.
Qed.

(** The publication of version 1.0.0, and of 1.1.0 on top of it. *)
Definition ex_pub1 : result PublishError PreparedPublication :=
  prepare_publication ex_domain "tool" v100 [x01] ex_sk [] None false.
Definition no_pub : PreparedPublication :=
  MkPrepared [] (MkSigned (MkVersionRecord "" "" "" v100 (nid 0) (nid 0)) [])
    (MkSigned (MkLatestPointer "" "" "" v100 (nid 0)) []) [].
Definition get_pub (r : result PublishError PreparedPublication) : PreparedPublication :=
  match r with Ok p => p | Err _ => no_pub end.
Definition pub1 : PreparedPublication := Eval vm_compute in get_pub ex_pub1.
Definition ex_pub2 : result PublishError PreparedPublication :=
  prepare_publication ex_domain "tool" v110 [x02] ex_sk (pp_proof pub1) None false.
Definition pub2 : PreparedPublication := Eval vm_compute in get_pub ex_pub2.

Lemma ex_pub1_ok : ex_pub1 = Ok pub1.
Proof. by vm_compute. Qed.
Lemma ex_pub2_ok : ex_pub2 = Ok pub2.
Proof. by vm_compute. Qed.

Lemma proof_is_history_witness :
  verified (pp_pointer pub2) ex_vk (pp_proof pub2) /\ Permutation (pp_proof pub2) (pp_proof pub2).
Proof. apply (proof_is_history (pp_pointer pub2) ex_vk (pp_proof pub2) (pp_proof pub2)). by vm_compute. Defined.

Lemma pub2_verified : verified (pp_pointer pub2) ex_vk (pp_proof pub2).
Proof.
  assert (validate_chain_proof (pp_pointer pub2) ex_vk (pp_proof pub2) = Ok (pp_proof pub2)) as Hv
    by by vm_compute.
  destruct (validate_sound _ _ _ _ Hv) as (Hp & Hh & Hver & _).
  exact (conj Hp (conj Hh Hver)).
Qed.

(** The records of a proof as a store. *)
Definition ex_fetch (key : Key) : M (gmap Key bytes) (option bytes) := gets (fun m => m !! key).
Definition ex_records : gmap Key bytes :=
  list_to_map (omap (fun r => k ← record_key r; b ← serialize r; Some (k, b)) (pp_proof pub2)).

Lemma walk_chain_exact_witness :
  (walk_chain (pp_pointer pub2) ex_vk ex_domain "tool" ex_fetch ex_records).1 = Ok (pp_proof pub2) /\
  history ex_vk ex_domain "tool" (lp_version_record_hash (body (pp_pointer pub2))) (pp_proof pub2).
Proof.
  destruct (walk_chain_exact (pp_pointer pub2) ex_vk ex_domain "tool" ex_fetch
    (fun m => m = ex_records) ex_records (pp_proof pub2)) as [Hsound Hcomplete].
  enough ((walk_chain (pp_pointer pub2) ex_vk ex_domain "tool" ex_fetch ex_records).1 = Ok (pp_proof pub2)) as Hw
    by (split; [exact Hw|exact (proj1 (proj2 (Hsound Hw)))]).
  apply Hcomplete; [split_and!|..].
  - apply pub2_verified.
  - apply pub2_verified.
  - by vm_compute.
  - transitivity 2; [vm_compute; lia|apply Nat.leb_le; by vm_compute].
  - intros r k w Hin Hk ->. split; [|done].
    assert (forallb (fun r => bool_decide ((k ← record_key r; ex_records !! k) = serialize r)) (pp_proof pub2) = true)
      as Hall by by vm_compute.
    rewrite forallb_forall in Hall. apply list_elem_of_In, Hall in Hin. brefl.
    rewrite Hk in Hin. exact Hin.
  - reflexivity.
Defined.

(** A fetch that counts what it serves. *)
Definition counting_fetch (key : Key) : M (gmap Key bytes * nat) (option bytes) :=
  fun '(m, n) => (m !! key, (m, S n)).

Lemma pointer_pins_history_witness :
  pp_proof pub2 = pp_proof pub2 \/
  exists r1 r2 b1 b2, r1 ∈ pp_proof pub2 /\ r2 ∈ pp_proof pub2 /\ serialize r1 = Some b1 /\
    serialize r2 = Some b2 /\ b1 <> b2 /\ hash_bytes b1 = hash_bytes b2.
Proof.
  apply (pointer_pins_history (pp_pointer pub2) (pp_pointer pub2) ex_vk ex_vk ex_domain "tool" ex_domain "tool"
    ex_fetch counting_fetch ex_records (ex_records, 0)); by vm_compute.
Defined.

Lemma compare_chains_meaning_witness :
  compare_chains (pp_proof pub2) (pp_proof pub1) = Ok Rollback.
Proof. apply (compare_chains_meaning (pp_proof pub1) (pp_proof pub2) Extends). by vm_compute. Defined.

(** ** What a node stores *)

Section stores.
Context `{Sha256} `{Ed25519} `{CodecLaws} {A D : Type} `{CloseNodes A} `{!DnsData D}.
Context (Auth : string -> VerifyingKey -> Prop)
  (dns_auth : forall domain d vk, (get_dns_vk domain d).1 = Some vk -> Auth domain vk).

(** C1: however the steps of concurrent STORE handlers interleave, with each other
    and with whatever else leaves the values alone, from a node whose values are in
    order: every stored value is under its own key, every stored pointer is signed
    by a key the resolver gives for its domain and has a verified history, and a
    stored pointer never goes away and never goes back in version.  (A handler has
    two steps, its checks and its entry operation.) *)
Theorem interleaved_stores_safe (c c' : Context A D) (ts : list StoreTask) :
  values_ok Auth (ctx_values c) -> rtc store_step ([], c) (ts, c') ->
  values_ok Auth (ctx_values c') /\
  forall k old, ctx_values c !! k = Some (Latest old) ->
    exists new, ctx_values c' !! k = Some (Latest new) /\
      (old = new \/ version_lt (lp_version (body old)) (lp_version (body new)) = true).
Proof using dns_auth H2.
  intros Hm Hs. destruct (store_steps_commits Auth dns_auth _ _ Hs) as [_ Hcs]; [done|]. cbn [snd] in Hcs.
  split; [by eapply commits_ok|]. intros k old. by apply commits_pointer with Auth.
Qed.

(** C9: in any interleaving of STORE handlers, a step that replaces a stored
    pointer continues it: the old history is a suffix of the new one, unless two
    records with one hash are exhibited. So a node takes neither a rollback nor a
    fork. *)
Theorem replacement_continues (c0 : Context A D) (s s' : list StoreTask * Context A D) (k : Key)
    (old : Signed LatestPointer) (owner : VerifyingKey) (chain : list (Signed VersionRecord)) :
  rtc store_step ([], c0) s -> store_step s s' ->
  ctx_values s.2 !! k = Some (Latest old) -> verified old owner chain ->
  exists new, ctx_values s'.2 !! k = Some (Latest new) /\
    (old = new \/ exists owner' chain', Auth (lp_domain (body new)) owner' /\ verified new owner' chain' /\
      (chain `suffix_of` chain' \/
       exists r1 r2, r1 ∈ chain' /\ r2 ∈ chain /\ r1 <> r2 /\ record_key r1 = record_key r2)).
Proof using dns_auth H2.
  intros Hrun Hs Hk Hv. destruct (store_steps_commits Auth dns_auth _ _ Hrun) as [Hok _]; [done|].
  destruct (store_step_commits Auth dns_auth _ _ Hs Hok) as [_ [->|Hc]]; [exists old; by split; [|left]|].
  destruct (commit_step_pointer _ _ _ _ _ Hc Hk) as (new & Hnew & Hcont).
  exists new. split; [done|]. by eapply continues_history.
Qed.
End stores.

Section nodes.
Context `{Sha256} `{Ed25519} `{CodecLaws} {A D : Type} `{CloseNodes A} `{!DnsData D}.

(** C19: serving any request at all, valid or not, changes the stored values
    by at most one of the commits of the abstract store. *)
Theorem dispatch_refines_commits (Auth : string -> VerifyingKey -> Prop) (now : Instant)
    (request : Request) (c : Context A D) :
  (forall domain d vk, (get_dns_vk domain d).1 = Some vk -> Auth domain vk) ->
  ctx_values (dispatch now request c).2 = ctx_values c \/
  commit_step Auth (ctx_values c) (ctx_values (dispatch now request c).2).
Proof. intros Hd. by apply dispatch_values. Qed.

(** what a STORE accepted is what a FIND_VALUE for its key answers. *)
Theorem stored_is_found (c : Context A D) (now : Instant) (req_body : bytes) (key : Key) (value : Value)
    (proof : list (Signed VersionRecord)) (reply query : bytes) :
  deserialize req_body = Some (MkStoreRequest key value proof) ->
  (store_handle req_body c).1 = Some reply -> serialize key = Some query ->
  reply = STORED /\ (find_value_handle now query (store_handle req_body c).2).1 = serialize (FoundValue value).
Proof.
  intros Hd Hr Hq. split; [|by eapply (store_after_find (fun _ _ => True))].
  destruct (store_handle_effect (fun _ _ => True) ltac:(done) c req_body) as (_ & _ & He).
  rewrite Hr in He. by destruct He.
Qed.
End nodes.

(** C15: an unforced publication on a verified history (or the first one) is
    accepted by every node that resolves the domain to the signer's key and
    holds either no pointer for the package or the one the publication was built
    on, if the proof is no longer than [MAX_CHAIN_LENGTH] (the successor of a
    history of that length is refused), the domain has no colon, the request can be
    encoded, and the keys of the proof's records neither repeat nor are the
    end-of-chain key. *)
Theorem publication_accepted `{Sha256} `{Ed25519Laws} `{CodecLaws} {A D : Type} `{CloseNodes A} `{!DnsData D}
    (d p : string) (v : Version) (blob : bytes) (signer : SigningKey)
    (existing : list (Signed VersionRecord)) (previous : option Version) (pub : PreparedPublication)
    (k : Key) (c : Context A D) (req_body : bytes) :
  prepare_publication d p v blob signer existing previous false = Ok pub ->
  contains_char ":"%char d = false ->
  existing = [] \/ history (verifying_key signer) d p k existing /\ k <> END_OF_CHAIN ->
  NoDup (record_key <$> pp_proof pub) -> record_key (pp_record pub) <> Some END_OF_CHAIN ->
  length (pp_proof pub) <= MAX_CHAIN_LENGTH ->
  encode_request_with_proof (value_key (Latest (pp_pointer pub))) (Latest (pp_pointer pub)) (pp_proof pub)
    = Some req_body ->
  (get_dns_vk d (ctx_dns c)).1 = Some (verifying_key signer) ->
  (forall old, ctx_values c !! value_key (Latest (pp_pointer pub)) = Some (Latest old) ->
     exists h rest, existing = h :: rest /\ record_key h = Some (lp_version_record_hash (body old)) /\
       vr_version (body h) = lp_version (body old)) ->
  (store_handle req_body c).1 = Some STORED /\
  ctx_values (store_handle req_body c).2 !! latest_key d p = Some (Latest (pp_pointer pub)).
Proof.
  intros Hprep Hcolon Hex Hnd Hne Hlen Henc Hdns Hold.
  pose proof (prepare_Ok _ _ _ _ _ _ _ _ Hprep) as (_ & _ & _ & _ & _ & hash & _ & Hb).
  assert (latest_key d p = value_key (Latest (pp_pointer pub))) as -> by (cbn; by rewrite Hb).
  apply (store_accepts c req_body (pp_pointer pub) (pp_proof pub) (verifying_key signer) (pp_proof pub)).
  - by apply deserialize_serialize.
  - by rewrite Hb.
  - by eapply prepare_validates.
  - intros old (h & rest & -> & Hk & Hv)%Hold. by eapply prepare_continues.
Qed.

(** A resolver that knows one domain. *)
#[export] Instance one_owner : DnsData unit :=
  fun domain => mret (if bool_decide (domain = ex_domain) then Some ex_vk else None).

Definition only_ex (domain : string) (vk : VerifyingKey) : Prop := domain = ex_domain /\ vk = ex_vk.

Lemma one_owner_auth domain d vk : (get_dns_vk domain d).1 = Some vk -> only_ex domain vk.
Proof. cbn. case_bool_decide; [|done]. by intros [= <-]. Qed.

(** A node that holds version 1.0.0. *)
Definition ex_m1 : gmap Key Value := <[value_key (Latest (pp_pointer pub1)) := Latest (pp_pointer pub1)]> ∅.
Definition ex_m2 : gmap Key Value := <[value_key (Latest (pp_pointer pub2)) := Latest (pp_pointer pub2)]> ex_m1.

Lemma pub1_verified : verified (pp_pointer pub1) ex_vk (pp_proof pub1).
Proof.
  assert (validate_chain_proof (pp_pointer pub1) ex_vk (pp_proof pub1) = Ok (pp_proof pub1)) as Hv
    by by vm_compute.
  destruct (validate_sound _ _ _ _ Hv) as (Hp & Hh & Hver & _).
  exact (conj Hp (conj Hh Hver)).
Qed.

Lemma ex_lookup1 : ex_m1 !! value_key (Latest (pp_pointer pub2)) = Some (Latest (pp_pointer pub1)).
Proof.
  assert (value_key (Latest (pp_pointer pub2)) = value_key (Latest (pp_pointer pub1))) as -> by by vm_compute.
  apply lookup_insert_eq.
Qed.

(** Three handlers on an empty node, of the two publications and of a blob that
    hashes to their key: all three are checked before any of them commits. *)
Definition ex_store (p : PreparedPublication) : bytes :=
  enc (MkStoreRequest (value_key (Latest (pp_pointer p))) (Latest (pp_pointer p)) (pp_proof p)).
Definition ex_squat : bytes := as_bytes (latest_name ex_domain "tool").
Definition ex_arrived : list StoreTask :=
  [Arrived (ex_store pub1); Arrived (ex_store pub2); Arrived (enc (MkStoreRequest (key_for_value ex_squat) (Blob ex_squat) []))].
Definition ex_empty : Context DumbBucket unit := MkContext (nid 9) (MkDumb []) ∅ tt.

Definition take_turn (i : nat) (s : list StoreTask * Context DumbBucket unit) : list StoreTask * Context DumbBucket unit :=
  match s.1 !! i with
  | Some t => (<[i := (store_task t s.2).1]> s.1, (store_task t s.2).2)
  | None => s
  end.
Definition take_turns (order : list nat) : list StoreTask * Context DumbBucket unit :=
  foldl (fun s i => take_turn i s) (ex_arrived, ex_empty) order.

Lemma take_turn_step i s : is_Some (s.1 !! i) -> store_step s (take_turn i s).
Proof. intros [t Ht]. unfold take_turn. rewrite Ht. destruct s as [ts c]. by apply step_task. Qed.

Lemma take_turn_steps i s : rtc store_step s (take_turn i s).
Proof.
  destruct (s.1 !! i) as [t|] eqn:Ht; [|unfold take_turn; rewrite Ht; apply rtc_refl].
  apply rtc_once, take_turn_step. by rewrite Ht.
Qed.

Lemma take_turns_steps order : rtc store_step ([], ex_empty) (take_turns order).
Proof.
  unfold take_turns. induction order as [|i order IH] using rev_ind.
  - do 3 (eapply rtc_l; [apply step_arrive|]). apply rtc_refl.
  - rewrite foldl_app. cbn [foldl]. etrans; [exact IH|apply take_turn_steps].
Qed.

Lemma interleaved_stores_safe_witness :
  values_ok only_ex (ctx_values (take_turns [0; 1; 2; 2; 0; 1; 2]).2) /\
  ctx_values (take_turns [0; 1; 2; 2; 0; 1; 2]).2 !! latest_key ex_domain "tool" = Some (Latest (pp_pointer pub2)).
Proof.
  split; [|by vm_compute].
  refine (proj1 (interleaved_stores_safe only_ex one_owner_auth ex_empty _ (take_turns [0; 1; 2; 2; 0; 1; 2]).1 _ _)).
  - intros k v Hk. cbn in Hk. by rewrite lookup_empty in Hk.
  - apply (take_turns_steps [0; 1; 2; 2; 0; 1; 2]).
Defined.

Lemma replacement_continues_witness :
  exists new, ctx_values (take_turn 1 (take_turns [0; 1; 0])).2 !! value_key (Latest (pp_pointer pub1)) = Some (Latest new) /\
    (pp_pointer pub1 = new \/ exists owner' chain', only_ex (lp_domain (body new)) owner' /\ verified new owner' chain' /\
      (pp_proof pub1 `suffix_of` chain' \/
       exists r1 r2, r1 ∈ chain' /\ r2 ∈ pp_proof pub1 /\ r1 <> r2 /\ record_key r1 = record_key r2)).
Proof.
  apply (replacement_continues only_ex one_owner_auth ex_empty (take_turns [0; 1; 0]) (take_turn 1 (take_turns [0; 1; 0]))
    (value_key (Latest (pp_pointer pub1))) (pp_pointer pub1) ex_vk (pp_proof pub1)).
  - apply take_turns_steps.
  - apply take_turn_step, (bool_decide_unpack _). by vm_compute.
  - by vm_compute.
  - apply pub1_verified.
Defined.

Definition ex_holder : Context DumbBucket unit := MkContext (nid 9) (MkDumb []) ex_m1 tt.
Definition ex_blob_request : bytes := enc (MkStoreRequest (key_for_value [x07]) (Blob [x07]) []).

Lemma dispatch_refines_commits_witness :
  let request := MkRequest (wrap 64 1) (naddr 3) true (rpc_request (nid 3) Store ex_blob_request) in
  ctx_values (dispatch 0%N request ex_holder).2 = ctx_values ex_holder \/
  commit_step only_ex (ctx_values ex_holder) (ctx_values (dispatch 0%N request ex_holder).2).
Proof.
  apply (dispatch_refines_commits only_ex 0%N
    (MkRequest (wrap 64 1) (naddr 3) true (rpc_request (nid 3) Store ex_blob_request)) ex_holder).
  apply one_owner_auth.
Defined.

Lemma stored_is_found_witness :
  STORED = STORED /\
  (find_value_handle 0%N (enc (key_for_value [x07])) (store_handle ex_blob_request ex_holder).2).1 =
  serialize (FoundValue (Blob [x07])).
Proof.
  apply (stored_is_found ex_holder 0%N ex_blob_request (key_for_value [x07]) (Blob [x07]) []); by vm_compute.
Defined.

Lemma publication_accepted_witness :
  (store_handle (enc (MkStoreRequest (value_key (Latest (pp_pointer pub2))) (Latest (pp_pointer pub2)) (pp_proof pub2)))
     ex_holder).1 = Some STORED.
Proof.
  refine (proj1 (publication_accepted ex_domain "tool" v110 [x02] ex_sk (pp_proof pub1) None pub2
    (lp_version_record_hash (body (pp_pointer pub1))) ex_holder
    (enc (MkStoreRequest (value_key (Latest (pp_pointer pub2))) (Latest (pp_pointer pub2)) (pp_proof pub2)))
    _ _ _ _ _ _ _ _ _)).
  - apply ex_pub2_ok.
  - reflexivity.
  - right. split; [apply pub1_verified|]. by vm_compute.
  - apply (bool_decide_unpack _). by vm_compute.
  - by vm_compute.
  - apply Nat.leb_le. by vm_compute.
  - reflexivity.
  - reflexivity.
  - intros old Hold. cbn [ex_holder ctx_values] in Hold. rewrite ex_lookup1 in Hold. injection Hold as <-.
    exists (pp_record pub1), []. by vm_compute.
Defined.
