(* ===== verification/LookupThms.v ===== *)
(** * LookupThms: lookups, joining, publishing, installing and upkeep

    What the client side of a node guarantees over any network: the transports,
    the order in which replies arrive and everything other tasks do meanwhile
    are arbitrary. *)

From S2P Require Import Prelude Slices Machine Contacts Crates Text Package VersionChain Wire.
From S2P Require Import HandleRpc DumbBucket Rpc Lookup Bootstrap Registry Maintenance Instances ToyNet.

Section lookups.
Context `{Sha256} `{Ed25519} `{Codec} `{Hex} {A W : Type} `{CloseNodes A} `{Clock W}.
Context (pick : W -> nat) (rpc : Rpc A W).

(** C11: a node lookup always ends, whatever the peers answer. Its result is
    the [K] nearest, without repetition and nearest first, of the contacts it
    started from and all it was told of: each of these is in the result, by id,
    or the result is full of [K] strictly nearer ones. Every contact it returns
    was asked; nobody was asked twice; only contacts it knew of were asked; and
    nothing it was told makes it a candidate itself. *)
Theorem lookup_node_result (target : NodeId) (e : Env A W) :
  let base := take K (sort_by_distance target (close_nodes (clock (world e)) target (table e)).1) in
  let result := (lookup_node pick rpc target e).1 in
  exists s, (lookup_run pick rpc target e).1.2 = inr s /\
    result = closest_to target K (base ++ heard s) /\
    StronglySorted (near_lt target) result /\
    (forall x, x ∈ base ++ heard s ->
      (exists y, y ∈ result /\ id y = id x) \/
      (length result = K /\ forall y, y ∈ result -> near_lt target y x)) /\
    (forall c, c ∈ result -> id c ∈ queried s) /\
    probe_count s = size (queried s) /\ queried s ⊆ ids_of (base ++ heard s) /\
    (forall c, c ∈ heard s -> id c <> id (my_contact rpc)).
Proof.
  intros base result. destruct (lookup_node_settled pick rpc target e) as (s & Hrun & Hs & Ho & Hr).
  fold base in Hs. fold result in Hr. pose proof (settled_closest target base s Hs) as Hc. rewrite <- Hr in Hc.
  pose proof (se_inv _ _ _ Hs) as Hi.
  exists s. split; [done|]. split; [done|].
  split; [rewrite Hc; apply closest_sorted; [apply _|apply same_id_spec]|].
  split; [intros x Hx; rewrite Hc; by apply closest_to_optimal|].
  rewrite Hr. split; [apply (se_queried _ _ _ Hs)|].
  split; [apply (li_probes _ _ _ Hi)|split; [apply (li_asked _ _ _ Hi)|apply Ho]].
Qed.

(** C29: [get_latest] without a key for the domain finds nothing. With one, it
    looks up the nodes nearest to the package's key, then calls [find_value] on
    each of them, ourselves included, exactly once, doing nothing else between the
    calls but logging and offering contacts to the table; and its answer is one of
    the pointers they returned, for this package and valid under the domain's key,
    such that no valid pointer any of them returned is newer; or nothing, if none
    of them returned a valid pointer. *)
Theorem get_latest_newest (dns : string -> M (Env A W) (option VerifyingKey)) (domain package : string)
    (e : Env A W) :
  let r := get_latest pick rpc dns domain package e in
  let e0 := (dns domain e).2 in
  match (dns domain e).1 with
  | None => r = (None, e0)
  | Some owner =>
      let key := latest_key domain package in
      let valid p := lp_domain (body p) = domain /\ lp_package (body p) = package /\ latest_is_valid p owner = true in
      exists e1 calls e2, table e1 = table e0 /\ world e1 = world e0 /\
        let near := lookup_node pick rpc key e1 in
        asks rpc key calls near.2 e2 /\ Permutation calls.*1 (with_us rpc key near.1) /\
        table r.2 = table e2 /\ world r.2 = world e2 /\
        match r.1 with
        | Some p =>
            valid p /\ (exists source, (source, FoundValue (Latest p)) ∈ calls) /\
            forall source q, (source, FoundValue (Latest q)) ∈ calls -> valid q ->
              version_le (lp_version (body q)) (lp_version (body p)) = true
        | None => forall source q, (source, FoundValue (Latest q)) ∈ calls -> ~ valid q
        end
  end.
Proof.
  cbv zeta. destruct (dns domain e).1 as [owner|] eqn:Hd.
  2: { unfold get_latest. rewrite bind_eq, Hd. apply ret_eq. }
  destruct (get_latest_eq pick rpc dns domain package e owner Hd) as (out & Hout & ->).
  set (accept := accept_latest owner domain package) in *.
  destruct (lookup_values_asked pick rpc (latest_key domain package) accept (dns domain e).2)
    as (e1 & calls & e2 & Ht & Hw & Ha & Hp & Hk & Ht2 & Hw2). rewrite <- Hout in Hk, Ht2, Hw2.
  exists e1, calls, e2. split; [done|]. split; [done|]. split; [exact Ha|]. split; [exact Hp|].
  split; [exact Ht2|]. split; [exact Hw2|]. cbn [fst].
  assert (forall q, q ∈ pointers out.1 <-> (exists source, (source, FoundValue (Latest q)) ∈ calls) /\
    lp_domain (body q) = domain /\ lp_package (body q) = package /\ latest_is_valid q owner = true) as Hq.
  { intros q. rewrite elem_of_pointers, Hk.
    assert (accept (Latest q) = true <-> lp_domain (body q) = domain /\ lp_package (body q) = package /\
      latest_is_valid q owner = true) as <-
      by (unfold accept, accept_latest; by rewrite !andb_true_iff, !bool_decide_eq_true, (assoc and)).
    split; [intros [c [Hin Hv]%elem_of_kept]; eauto|]. intros [[c Hin] Hv]. exists c. by apply elem_of_kept. }
  destruct (max_by older_pointer (pointers out.1)) as [p|] eqn:Hm.
  - apply (max_by_spec _ older_pointer_total older_pointer_trans) in Hm as [[Hin Hv]%Hq Hmax].
    split; [done|]. split; [done|]. intros source q Hs Hvq. apply Hmax, Hq. eauto.
  - intros source q Hs Hvq. assert (q ∈ pointers out.1) as Hin by (apply Hq; eauto).
    apply max_by_None in Hm. rewrite Hm in Hin. by apply not_elem_of_nil in Hin.
Qed.

(** C13: an installed package is the blob that the domain's owner signed for
    that version of that package; the version is the requested one, or that of
    a valid latest pointer. *)
Theorem install_authentic (dns : string -> M (Env A W) (option VerifyingKey)) (domain package : string)
    (requested : option Version) (e : Env A W) (inst : InstalledPackage) :
  (install_package pick rpc dns domain package requested e).1 = Ok inst ->
  exists owner r, (dns domain e).1 = Some owner /\ verify r owner = true /\
    vr_tag (body r) = VERSION_RECORD_TAG /\ vr_domain (body r) = domain /\
    vr_package (body r) = package /\ vr_version (body r) = ip_version inst /\
    vr_blob_hash (body r) = key_for_value (ip_blob inst) /\
    match requested with
    | Some v => ip_version inst = v
    | None => exists latest, latest_is_valid latest owner = true /\
        lp_domain (body latest) = domain /\ lp_package (body latest) = package /\
        lp_version (body latest) = ip_version inst
    end.
Proof. apply install_sound. Qed.

(** A listing is the whole verified history, newest first with strictly
    decreasing versions, and marks exactly the newest. *)
Theorem show_lists_history (dns : string -> M (Env A W) (option VerifyingKey)) (domain package : string)
    (e : Env A W) (versions : list PublishedVersion) :
  (show_package pick rpc dns domain package e).1 = Ok versions ->
  exists owner k chain, (dns domain e).1 = Some owner /\ history owner domain package k chain /\
    versions = imap (fun i r => MkPublished (vr_version (body r)) (vr_blob_hash (body r)) (i =? 0)) chain /\
    StronglySorted (fun a b => version_lt (pv_version b) (pv_version a) = true) versions.
Proof. apply show_sound. Qed.
End lookups.


(** Of the two published versions the nodes hold, the newest. *)
Example ex_latest :
  (get_latest net_pick net_rpc net_dns ex_domain "tool" ex_published).1 ≫= (fun p => Some (lp_version (body p))) =
  Some v110.
Proof. by vm_compute. Qed.

Lemma install_authentic_witness :
  exists owner r, (net_dns ex_domain ex_published).1 = Some owner /\ verify r owner = true /\
    vr_tag (body r) = VERSION_RECORD_TAG /\ vr_domain (body r) = ex_domain /\
    vr_package (body r) = "tool"%string /\ vr_version (body r) = v100 /\
    vr_blob_hash (body r) = key_for_value [x01] /\ v100 = v100.
Proof.
  apply (install_authentic net_pick net_rpc net_dns ex_domain "tool" (Some v100) ex_published
    (MkInstalled v100 (key_for_value [x01]) [x01])).
  by vm_compute.
Defined.

Definition ex_listing : list PublishedVersion :=
  [MkPublished v110 (key_for_value [x02]) true; MkPublished v100 (key_for_value [x01]) false].

Lemma show_lists_history_witness :
  exists owner k chain, (net_dns ex_domain ex_published).1 = Some owner /\
    history owner ex_domain "tool" k chain /\
    ex_listing = imap (fun i r => MkPublished (vr_version (body r)) (vr_blob_hash (body r)) (i =? 0)) chain /\
    StronglySorted (fun a b => version_lt (pv_version b) (pv_version a) = true) ex_listing.
Proof. apply (show_lists_history net_pick net_rpc net_dns ex_domain "tool" ex_published ex_listing). by vm_compute. Defined.

(** ** Publishing *)

(** a receipt of an unforced publication means the signer's key is the one
    DNS gives for the domain, and that at least one and at most [K] nodes took
    each of blob, record and pointer, under the keys these values have. *)
Theorem publish_receipt_means `{Sha256} `{Ed25519Laws} `{CodecLaws} `{Hex} {A W : Type} `{CloseNodes A} `{Clock W}
    (pick : W -> nat) (rpc : Rpc A W) (dns : string -> M (Env A W) (option VerifyingKey))
    (domain package : string) (version : Version) (blob : bytes) (signer : SigningKey)
    (previous : option Version) (e : Env A W) (receipt : PublishReceipt) :
  (publish_package pick rpc dns domain package version blob signer previous false e).1 = Ok receipt ->
  (dns domain e).1 = Some (verifying_key signer) /\
  blob_key receipt = key_for_value blob /\ lat_key receipt = latest_key domain package /\
  (exists r, record_key r = Some (rec_key receipt) /\ verify r (verifying_key signer) = true /\
     vr_version (body r) = version /\ vr_blob_hash (body r) = blob_key receipt) /\
  1 <= blob_accepted receipt <= K /\ 1 <= record_accepted receipt <= K /\ 1 <= latest_accepted receipt <= K.
Proof.
  intros Hp. pose proof (publish_signer _ _ _ _ _ _ _ _ _ _ _ Hp) as Hd. split; [done|].
  revert Hp. unfold publish_package. mstep.
  destruct (check_signer dns domain signer false e).1; [|done]. mstep.
  destruct (existing_history pick rpc dns domain package _).1 as [existing|]; [|done].
  destruct (prepare_publication _ _ _ _ _ _ _ _) as [pub|] eqn:Hprep; [|done].
  intros (Hk1 & Hk2 & Hk3 & Hb1 & Hb2 & Hb3)%store_publication_receipt.
  apply prepare_Ok in Hprep as (Hblob & _ & Hv & _ & (prev & Hb & _) & hash & _ & Hbp).
  rewrite Hblob in Hk1. split; [done|]. split; [rewrite Hk3; cbn; by rewrite Hbp|]. split; [|done].
  exists (pp_record pub). rewrite Hb, Hk1. done.
Qed.

Definition ex_receipt : PublishReceipt :=
  Eval vm_compute in
    match (publish_v v100 [x01] ex_env).1 with Ok r => r | Err _ => MkReceipt (nid 0) (nid 0) (nid 0) 0 0 0 end.

Lemma publish_receipt_means_witness :
  (net_dns ex_domain ex_env).1 = Some (verifying_key ex_sk).
Proof.
  refine (proj1 (publish_receipt_means net_pick net_rpc net_dns ex_domain "tool" v100 [x01] ex_sk None
    ex_env ex_receipt _)).
  by vm_compute.
Defined.

(** ** Joining *)

(** C33: joining never panics: it fails with [Unreachable] exactly when the
    seed does not answer the PING, with [SelfSeed] exactly when it answers with
    our own id, and otherwise returns the lookup of our own id made after the
    seed was offered to the table; and every bucket it refreshes is refreshed
    with an id that shares exactly that many leading bits with ours. *)
Theorem bootstrap_outcome `{Sha256} `{Ed25519} `{Codec} `{Hex} {A W : Type} `{CloseNodesSpec A} `{Clock W}
    (pick : W -> nat) (rand_id : M (Env A W) NodeId) (rpc : Rpc A W) (seed : SocketAddr) (e : Env A W)
    (draw : NodeId) (bucket : nat) :
  bucket < B ->
  (bootstrap pick rand_id rpc seed e).1 = Some
    match (ping rpc seed e).1 with
    | None => Err Unreachable
    | Some seed_id =>
        if bool_decide (seed_id = id (my_contact rpc)) then Err SelfSeed
        else Ok (lookup_node pick rpc (id (my_contact rpc))
                   (offer_contact (MkContact seed_id seed) (ping rpc seed e).2).2).1
    end /\
  exists t, random_id_in_bucket draw (id (my_contact rpc)) bucket = Some t /\
    leading_zeros (xor_distance (id (my_contact rpc)) t) = bucket.
Proof. intros Hb. split; [apply bootstrap_cases|by apply random_id_in_bucket_spec]. Qed.

Definition ex_rand : M NetEnv NodeId := mret (nid 99).

Lemma bootstrap_outcome_witness :
  exists t, random_id_in_bucket (nid 99) (id (my_contact net_rpc)) 17 = Some t /\
    leading_zeros (xor_distance (id (my_contact net_rpc)) t) = 17.
Proof. apply (bootstrap_outcome net_pick ex_rand net_rpc (naddr 1) ex_env (nid 99) 17). unfold B. lia. Defined.

(** ** Upkeep *)

(** C35: a liveness round first pings its way through the table and then
    forgets the contacts that failed.  From the table as the pings left it, the
    forgetting never goes below [K] distinct ids (or below what there was), and
    whatever it takes out was pinged during the round and did not answer with
    its own id. *)
Theorem upkeep_keeps_floor `{Sha256} `{Ed25519} `{Codec} `{Hex} {A W : Type} `{CloseNodesSpec A} `{Clock W}
    (order : gset Contact -> list Contact) (rpc : Rpc A W) (e pinged : Env A W) :
  (forall s x, x ∈ order s -> x ∈ s) ->
  pinged = (probe_chunks rpc ∅ (contacts_chunks (table e)) e).2 ->
  size (ids_of (contacts_iter (table pinged))) `min` K <=
    size (ids_of (contacts_iter (table (check_liveness order rpc e).2))) /\
  (forall x, x ∈ contacts_iter (table pinged) ->
     x ∉ contacts_iter (table (check_liveness order rpc e).2) -> gone_at rpc e x).
Proof.
  intros Horder ->. unfold check_liveness. mstep. split; [apply forget_all_floor|].
  intros x Hx Hgone.
  destruct (decide (x ∈ order (probe_chunks rpc ∅ (contacts_chunks (table e)) e).1)) as [Hd|Hd];
    [|destruct Hgone; by apply forget_all_keeps].
  apply Horder in Hd. destruct (probe_chunks_dead _ _ _ _ _ Hd) as [?|?]; [set_solver|done].
Qed.

Lemma upkeep_keeps_floor_witness :
  exists pinged, pinged = (probe_chunks net_rpc ∅ (contacts_chunks (table ex_env)) ex_env).2 /\
  size (ids_of (contacts_iter (table pinged))) `min` K <=
    size (ids_of (contacts_iter (table (check_liveness elements net_rpc ex_env).2))).
Proof.
  exists (probe_chunks net_rpc ∅ (contacts_chunks (table ex_env)) ex_env).2. split; [reflexivity|].
  refine (proj1 (upkeep_keeps_floor elements net_rpc ex_env _ _ eq_refl)).
  intros s x. apply elem_of_elements.
Defined.
