(* ===== verification/NetworkThms.v ===== *)
(** * NetworkThms: what a network of these nodes achieves

    Theorems about many nodes at once: the deployed routing tables answer every
    query with progress towards its target, and so a lookup over the program's
    own servers ends at the nearest node there is. *)

From S2P Require Import Prelude Slices Machine Contacts DumbBucket StaticBucket SiblingList Cache Progress.
From S2P Require Import Crates Text Package VersionChain Wire Stream HandleRpc Rpc Lookup Converge Society PutGet.
From S2P Require Import Registry Publishing Maintenance Restoring Instances ToyNet StorageThms.
From Stdlib Require Import Strings.Ascii.

(** A node that was told once of everyone in the network, in any order and
    with any repetitions, answers every query, through its cache or not, with
    contacts of the network only, and with somebody strictly nearer to the target
    than itself unless nobody is, as long as no more nodes than a sibling list
    and its owner share the target's longest prefix in the network. *)
Theorem query_makes_progress (nodes : gset NodeId) (guest : NodeId) (home_of : NodeId -> SocketAddr)
    (p t : NodeId) (offers : list Contact) (now : Instant) :
  (forall c, c ∈ offers -> belongs nodes guest home_of c) ->
  (forall j, j ∈ everyone nodes guest -> j <> p -> exists c, c ∈ offers /\ id c = j) ->
  p ∈ nodes -> uncrowded nodes guest t ->
  let answer := (close_nodes now t (foldl (fun a c => maybe_add_contact c a) (recommended p) offers)).1 in
  (forall c, c ∈ answer -> belongs nodes guest home_of c) /\
  ((forall j, j ∈ nodes -> ~ nearer t j p) \/
   exists c, c ∈ answer /\ id c ∈ nodes /\ nearer t (id c) p).
Proof.
  intros Hb Hall Hp Hu. apply (informed_for_query nodes guest home_of now t t p); [done|done| |done].
  destruct (recommended_offered p offers) as (Hi & He & _). split; rewrite ?Hi, ?He.
  - by apply informed_offered.
  - apply offered_me.
  - by intros e.
Qed.

Section lookups.
Context `{Sha256} `{Ed25519} `{CodecLaws} `{Hex} {A W D : Type} `{CloseNodes A} `{Clock W} `{!DnsData D}.
Context (peers : W -> gmap SocketAddr (Context RecommendedCloseNodes D)).
Context (pick : W -> nat) (rpc : Rpc A W) (target : NodeId) (nodes : gset NodeId).
Context (home_of : NodeId -> SocketAddr).

(** C12: a lookup finds the node nearest to its target. Let the nodes be the
    program's own, at distinct addresses that serde keeps as they are ([plain]: no
    IPv6 flow information or scope; the client's address is such a one too), each at
    its address and knowing its part of the network: its table names only nodes and the client, its bucket for every
    other node holds a node, its sibling list holds all or the [SIBLINGS] nearest
    to it, and what it may have cached for the target names a node nearer to it,
    unless it is the nearest itself. Let no more than [SIBLINGS] and one of the nodes and the client
    share with the target the longest prefix that any node shares with it
    ([uncrowded]), let every contact list and the target be encodable, and let the
    datagrams of the client, which is none of the nodes, reach the node they are
    sent to and its replies come back. Then a lookup that starts from at least one
    contact and only from true contacts of nodes ends, and the first contact of its
    result is the node nearest to the target, at its true address, in whatever
    order the answers come. *)
Theorem lookup_finds_nearest (e : Env A W) :
  is_Some (serialize target) -> (forall l : list Contact, is_Some (serialize l)) ->
  (forall i j, i ∈ nodes -> j ∈ nodes -> home_of i = home_of j -> i = j) ->
  (forall j, j ∈ everyone nodes (id (my_contact rpc)) -> plain (home_of j)) ->
  address (my_contact rpc) = home_of (id (my_contact rpc)) -> id (my_contact rpc) ∉ nodes ->
  uncrowded nodes (id (my_contact rpc)) target ->
  delivers peers rpc -> swarm_ok peers rpc target nodes home_of (world e) ->
  let known := (close_nodes (clock (world e)) target (table e)).1 in
  known <> [] -> (forall c, c ∈ known -> member nodes home_of c) ->
  exists best rest, (lookup_node pick rpc target e).1 = best :: rest /\ member nodes home_of best /\
    forall j, j ∈ nodes -> j = id best \/ nearer target (id best) j.
Proof.
  intros Ht Hl Hinj Hplain Hme Hout Hu Hdel Hsw known Hne Hm.
  destruct (lookup_node_nearest pick rpc target nodes home_of (fun e => swarm_ok peers rpc target nodes home_of (world e)) Hout
    ltac:(by apply swarm_answers) ltac:(apply swarm_undisturbed) e Hsw Hne Hm) as (_ & _ & Hbest). exact Hbest.
Qed.
End lookups.

(** C3: what any node puts, any node can get, in a network that is in order for the
    key. That is: the nodes are the program's own, at least two, at distinct
    addresses that serde keeps as they are ([plain]: no IPv6 flow information or
    scope); each knows its part of the network (its table names only nodes of it,
    its bucket for every other node holds a node, its sibling list holds all or the
    [SIBLINGS] nearest to it, and what it has cached for the key names a node
    nearer to it, unless it is the nearest of the others itself); no more than [SIBLINGS]
    and one nodes share with the key the longest prefix that any other node shares
    with it ([uncrowded]); every message is encodable; no pointer is stored under
    the key. Then after a [store_value] of a blob a [lookup_value] for its key, from
    the node that put it or from another, ends with bytes of that key, in whatever
    order the answers come. Each node's client shares its routing table with its
    server, its calls reach the node they are meant for and its reply comes back,
    and during and between the two operations the nodes go on serving each other,
    looking up and learning contacts, one request at a time, with stores of anything
    but a pointer under that key; none leaves or is forgotten. *)
Theorem put_then_get `{Sha256} `{Ed25519} `{CodecLaws} `{Hex} {W D : Type} `{Clock W} `{!DnsData D}
    (peers : W -> gmap SocketAddr (Context RecommendedCloseNodes D)) (population : gset NodeId)
    (home_of : NodeId -> SocketAddr) (pick : W -> nat) (putter getter : Rpc RecommendedCloseNodes W) (blob : bytes)
    (e later : Env RecommendedCloseNodes W) :
  let key := key_for_value blob in
  (forall l : list Contact, is_Some (serialize l)) -> (forall k : Key, is_Some (serialize k)) ->
  (forall r : FindValueReply, is_Some (serialize r)) -> (forall r : StoreRequest, is_Some (serialize r)) ->
  (forall i j, i ∈ population -> j ∈ population -> home_of i = home_of j -> i = j) ->
  (forall j, j ∈ population -> plain (home_of j)) ->
  (forall g, g ∈ population -> uncrowded (others population g) g key) ->
  (forall j, j ∈ population -> exists g, g ∈ population /\ g <> j) ->
  participant peers population home_of (fun _ => no_pointer key) putter ->
  participant peers population home_of (fun _ => no_pointer key) getter ->
  network population home_of (eq key) (pointer_free key) (swarm peers putter e) ->
  rtc (meanwhile population home_of (fun _ => no_pointer key))
    (swarm peers putter (store_value pick putter (Blob blob) e).2) (swarm peers getter later) ->
  exists source found, (lookup_value pick getter key later).1 = Some (source, found) /\ key_for_value found = key.
Proof.
  intros key Hl Hk Hr Hs Hinj Hplain Hfew Hco Hput Hget Hok Hlater.
  apply (get_network peers population home_of (eq key) key eq_refl Hl Hk Hr Hinj Hplain (fun k g '(eq_refl) => Hfew g) Hco pick getter later Hget).
  apply (network_meanwhile population home_of (eq key) (fun _ => no_pointer key) Hinj (fun k g '(eq_refl) => Hfew g) Hco
    _ _ _ ltac:(apply stable_among; [apply pointer_free_stable|apply holds_kept]) Hlater).
  by apply put_network; [..|intros k g <-; apply Hfew| | | |].
Qed.

(** C5: republishing restores what is looked for in the wrong place. In a network
    that is in order as for [put_then_get], for all keys (at least two nodes of the
    program at distinct addresses that serde keeps; each knows its part of the
    network, with what it has cached for any key; no more than [SIBLINGS] and one
    nodes share with any key the longest prefix that another node shares with it;
    every message encodable; calls get through, nobody leaves), let some node hold
    a blob that others, the nearest one to its key included, need not have (they may
    have joined later), let no node hold a pointer under its key, and let the
    keeper's resolver touch no more of the network than nodes do anyway. After one
    round of [republish_values] over the keeper's own values a [lookup_value] for
    the key, from any node, ends with bytes of that key, whatever the nodes serve
    during and after the round, as long as nobody puts a pointer under it. *)
Theorem republish_then_get `{Sha256} `{Ed25519} `{CodecLaws} `{Hex} {W D : Type} `{Clock W} `{!DnsData D}
    (peers : W -> gmap SocketAddr (Context RecommendedCloseNodes D)) (population : gset NodeId)
    (home_of : NodeId -> SocketAddr) (pick : W -> nat) (keeper getter : Rpc RecommendedCloseNodes W)
    (dns : string -> M (Env RecommendedCloseNodes W) (option VerifyingKey)) (blob : bytes)
    (values : list (Key * Value)) (c : Context RecommendedCloseNodes D) (e later : Env RecommendedCloseNodes W) :
  let key := key_for_value blob in
  let others_do := rtc (meanwhile population home_of (fun _ => no_pointer key)) in
  (forall l : list Contact, is_Some (serialize l)) -> (forall k : Key, is_Some (serialize k)) ->
  (forall r : FindValueReply, is_Some (serialize r)) -> (forall r : StoreRequest, is_Some (serialize r)) ->
  (forall i j, i ∈ population -> j ∈ population -> home_of i = home_of j -> i = j) ->
  (forall j, j ∈ population -> plain (home_of j)) ->
  (forall k g, g ∈ population -> uncrowded (others population g) g k) ->
  (forall j, j ∈ population -> exists g, g ∈ population /\ g <> j) ->
  participant peers population home_of (fun _ => no_pointer key) keeper ->
  participant peers population home_of (fun _ => no_pointer key) getter ->
  (forall domain e, others_do (swarm peers keeper e) (swarm peers keeper (dns domain e).2)) ->
  network population home_of any_key (pointer_free key) (swarm peers keeper e) ->
  swarm peers keeper e !! home_of (me keeper) = Some c ->
  (forall k v, (k, v) ∈ values <-> ctx_values c !! k = Some v) -> ctx_values c !! key = Some (Blob blob) ->
  others_do (swarm peers keeper (republish_values pick dns keeper values e).2) (swarm peers getter later) ->
  exists source found, (lookup_value pick getter key later).1 = Some (source, found) /\ key_for_value found = key.
Proof.
  intros key others_do Hl Hk Hr Hs Hinj Hplain Hfew Hco Hkeep Hget Hdns Hok Hc Hvalues Hblob Hlater.
  apply (get_network peers population home_of any_key key I Hl Hk Hr Hinj Hplain (fun k g _ => Hfew k g) Hco pick getter later Hget).
  apply (network_meanwhile population home_of any_key (fun _ => no_pointer key) Hinj (fun k g _ => Hfew k g) Hco
    _ _ _ ltac:(apply stable_among; [apply pointer_free_stable|apply holds_kept]) Hlater).
  eapply republish_network; [done..|intros k g _; apply Hfew|done|done|done|reflexivity|by apply Hvalues| |done].
  intros [k v] Hkv%Hvalues Hkey. cbn [fst snd] in *. rewrite Hkey in Hkv.
  destruct (Hok (me keeper) (pa_in _ _ _ _ _ Hkeep)) as (c' & Hc' & _ & Hfree).
  rewrite Hc in Hc'. injection Hc' as <-. destruct v as [b|p]; [done|]. by destruct (Hfree p).
Qed.

(** C4: what is published can be installed. In a network that is in order as for
    [put_then_get], for the package's latest key and the keys of its stock of
    records and blobs (at least two nodes of the program at distinct addresses that
    serde keeps; each knows its part of the network, with what it has cached for
    these keys; no more than [SIBLINGS] and one nodes share with any of these keys
    the longest prefix that another node shares with it; every message encodable;
    calls get through, nobody leaves), whose nodes' resolvers give the signer's key
    for the domain, and which holds an edition of the package (a history the owner
    signed, possibly none yet, of which the nodes nearest to their keys hold the
    records and the pointer), take a publication by any node that
    [prepare_publication] allows on the history so far, unforced, whose domain has
    no colon, whose proof is no longer than [MAX_CHAIN_LENGTH], and whose records'
    keys neither repeat nor are the end-of-chain key. It succeeds; and then
    [install_package], from any node, gives exactly its blob as the newest version,
    and of every version whose blob is there exactly that blob when asked for it.
    Digests of the stock do not collide with each other or with the latest key; the
    answers come in any order, and during and between the operations the nodes go
    on serving each other, as long as nobody stores under the keys of the stock
    anything else, or under the latest key a verifying pointer of another domain,
    or one that the owner signed and no node holds. *)
Theorem publish_then_install `{Sha256} `{Ed25519Laws} `{CodecLaws} `{Hex} {W D : Type} `{Clock W} `{!DnsData D}
    (peers : W -> gmap SocketAddr (Context RecommendedCloseNodes D)) (population : gset NodeId)
    (home_of : NodeId -> SocketAddr) (domain package : string) (stock : gmap Key bytes) (resolves : D -> Prop)
    (pick : W -> nat) (publisher installer : Rpc RecommendedCloseNodes W)
    (dns dns' : string -> M (Env RecommendedCloseNodes W) (option VerifyingKey))
    (signer : SigningKey) (version : Version) (blob : bytes) (previous : option Version) (pub : PreparedPublication)
    (s : Edition) (e later : Env RecommendedCloseNodes W) :
  let owner := verifying_key signer in
  let allowed := permitted population home_of domain package owner stock in
  let ready := network population home_of (tracked domain package stock) in
  let s' := edition_after pub s in
  let run := publish_package pick publisher dns domain package version blob signer previous false e in
  (forall l : list Contact, is_Some (serialize l)) -> (forall k : Key, is_Some (serialize k)) ->
  (forall r : FindValueReply, is_Some (serialize r)) -> (forall r : StoreRequest, is_Some (serialize r)) ->
  (forall i j, i ∈ population -> j ∈ population -> home_of i = home_of j -> i = j) ->
  (forall j, j ∈ population -> plain (home_of j)) ->
  (forall key g, tracked domain package stock key -> g ∈ population -> uncrowded (others population g) g key) ->
  (forall j, j ∈ population -> exists g, g ∈ population /\ g <> j) ->
  (forall d, resolves d -> (get_dns_vk domain d).1 = Some owner) ->
  (forall d dom, resolves d -> resolves (get_dns_vk dom d).2) ->
  (forall k b, stock !! k = Some b -> key_for_value b = k) -> stock !! latest_key domain package = None ->
  stock !! key_for_value blob = Some blob ->
  (forall rb, serialize (pp_record pub) = Some rb -> stock !! key_for_value rb = Some rb) ->
  participant peers population home_of allowed publisher ->
  participant peers population home_of allowed installer ->
  resolving peers population home_of domain package owner stock resolves publisher dns ->
  resolving peers population home_of domain package owner stock resolves installer dns' ->
  sound domain package owner stock s ->
  prepare_publication domain package version blob signer (chain s) previous false = Ok pub ->
  contains_char ":"%char domain = false -> NoDup (record_key <$> pp_proof pub) ->
  record_key (pp_record pub) <> Some END_OF_CHAIN -> length (pp_proof pub) <= MAX_CHAIN_LENGTH ->
  ready (published population domain package owner stock resolves s) (swarm peers publisher e) ->
  rtc (meanwhile population home_of allowed) (swarm peers publisher run.2) (swarm peers installer later) ->
  (exists receipt, run.1 = Ok receipt) /\
  (install_package pick installer dns' domain package None later).1 = Ok (MkInstalled version (key_for_value blob) blob) /\
  forall r b, r ∈ pp_proof pub -> vr_blob_hash (body r) ∈ have s' -> stock !! vr_blob_hash (body r) = Some b ->
    (install_package pick installer dns' domain package (Some (vr_version (body r))) later).1 =
    Ok (MkInstalled (vr_version (body r)) (vr_blob_hash (body r)) b).
Proof.
  intros owner allowed ready s' run Hl Hk Hr Hst Hinj Hplain Hfew Hco Hres Hres' Hkeys Htop Hblob Hrec Hpub Hins Hdns Hdns' Hs
    Hprep Hcolon Hnd Hz Hlen Hok Hlater.
  destruct (publish_network peers population home_of domain package owner stock resolves Hres Hres' Hl Hk Hr Hinj Hplain Hfew Hco
    Hkeys Hst pick publisher dns signer version blob previous pub s e Hpub Hdns eq_refl Hs Hprep Hcolon Hnd Hz Hlen Htop
    Hblob Hrec Hok) as (Hs' & receipt & e' & Hrun & Hok'). fold s' in Hs', Hok'. subst run. rewrite Hrun in Hlater |- *.
  cbn [fst snd] in *. split; [eauto|].
  pose proof (network_meanwhile _ _ _ _ Hinj Hfew Hco _ _ _ (published_stable _ _ _ _ _ _ _ Hres Hres' s' Hs') Hlater Hok') as Hm.
  pose proof (install_network peers population home_of domain package owner stock resolves Hres Hres' Hl Hk Hr Hinj Hplain Hfew Hco
    Hkeys pick installer dns' Hins Hdns' s' Hs') as Hinstall.
  destruct (prepare_Ok _ _ _ _ _ _ _ _ Hprep) as (Hpb & Hproof & _ & _ & (prev & Hb & _) & rk & Hrk & _). split.
  - specialize (Hinstall None (pp_record pub) blob later). rewrite Hb in Hinstall. apply Hinstall; [|..|done|done].
    + cbn. by rewrite Hproof.
    + cbn. rewrite Hrk, Hpb. cbn. set_solver.
  - intros r b Hin Hhave Hb'. apply Hinstall; [|done|done|done]. by eapply choose_version.
Qed.

(** ** A network of three nodes and a visitor *)

Definition ex_nodes : gset NodeId := {[nid 1; nid 2; nid 3]}.
Definition ex_home (i : NodeId) : SocketAddr := naddr (id_val i).

Lemma ex_plain_home i : plain (ex_home i).
Proof. done. Qed.

Lemma ex_home_nid v : v ∈ [0; 1; 2; 3]%N -> ex_home (nid v) = naddr v.
Proof.
  intros Hv. assert (v = 0 \/ v = 1 \/ v = 2 \/ v = 3)%N as [->|[->|[->| ->]]] by set_solver; by vm_compute.
Qed.

Definition ex_everyone : list Contact := nc <$> [0; 1; 2; 3]%N.

Lemma ex_few t : uncrowded ex_nodes (nid 0) t.
Proof.
  intros p _ _. transitivity (size (everyone ex_nodes (nid 0))).
  - apply subseteq_size. intros i. unfold sharing. by intros [_ ?]%elem_of_filter.
  - apply Nat.leb_le. by vm_compute.
Qed.

Lemma ex_everyone_belongs c : c ∈ ex_everyone -> belongs ex_nodes (nid 0) ex_home c.
Proof.
  unfold ex_everyone. rewrite list_elem_of_fmap. intros (n & -> & Hn).
  assert (n = 0 \/ n = 1 \/ n = 2 \/ n = 3)%N as [->|[->|[->| ->]]] by set_solver;
    (split; [apply elem_of_everyone; unfold ex_nodes; set_solver|by vm_compute]).
Qed.

Lemma ex_everyone_all j : j ∈ everyone ex_nodes (nid 0) -> exists c, c ∈ ex_everyone /\ id c = j.
Proof.
  intros Hj%elem_of_everyone. unfold ex_nodes, ex_everyone in *.
  assert (j = nid 0 \/ j = nid 1 \/ j = nid 2 \/ j = nid 3) as [->|[->|[->| ->]]] by set_solver;
    eexists (nc _); (split; [|reflexivity]); set_solver.
Qed.

Lemma query_makes_progress_witness :
  exists c, c ∈ (close_nodes 0%N (nid 3)
      (foldl (fun a c => maybe_add_contact c a) (recommended (nid 1)) ex_everyone)).1 /\
    id c ∈ ex_nodes /\ nearer (nid 3) (id c) (nid 1).
Proof.
  destruct (proj2 (query_makes_progress ex_nodes (nid 0) ex_home (nid 1) (nid 3) ex_everyone 0%N
    ex_everyone_belongs (fun j Hj _ => ex_everyone_all j Hj) ltac:(unfold ex_nodes; set_solver) (ex_few _)))
    as [Hno|Hyes].
  - exfalso. apply (Hno (nid 2)); [unfold ex_nodes; set_solver|by vm_compute].
  - exact Hyes.
Defined.

(** The same network, served. *)
Abbreviation Swarm := (gmap SocketAddr (Context RecommendedCloseNodes Zone)).
Abbreviation SwarmEnv := (Env DumbBucket Swarm).

#[export] Instance swarm_clock : Clock Swarm := fun _ => 0%N.

Definition swarm_transport : RpcTransport DumbBucket Swarm := fun payload a e =>
  match world e !! a with
  | None => (Err (MkIoError TimedOut "no such node"), e)
  | Some c =>
      let r := dispatch 0%N (MkRequest (request_id (wrap 64 42)) (naddr 0) true payload) c in
      (match r.1 with
       | None => Err (MkIoError TimedOut "not answered")
       | Some framed => read_reply (request_id (wrap 64 42)) framed
       end, MkEnv (table e) (metrics e) (next_lookup e) (<[a := r.2]> (world e)))
  end.

Definition swarm_rpc : Rpc DumbBucket Swarm := MkRpc (nc 0) swarm_transport swarm_transport.

Definition swarm_node (v : N) : Context RecommendedCloseNodes Zone :=
  MkContext (nid v) (foldl (fun a c => maybe_add_contact c a) (recommended (nid v)) ex_everyone) ∅ ex_zone.

Definition swarm_of (vs : list N) : Swarm := list_to_map ((fun v => (naddr v, swarm_node v)) <$> vs).

Lemma swarm_of_lookup vs v :
  bool_decide (NoDup (naddr <$> vs)) = true -> v ∈ vs -> swarm_of vs !! naddr v = Some (swarm_node v).
Proof.
  intros Hnd%bool_decide_eq_true Hv. apply elem_of_list_to_map_1.
  - by rewrite <- list_fmap_compose.
  - apply list_elem_of_fmap. by exists v.
Qed.

Definition ex_swarm : Swarm := swarm_of [1; 2; 3]%N.
Definition ex_swarm_env : SwarmEnv := MkEnv (MkDumb [nc 1]) [] (wrap 64 1) ex_swarm.

Lemma swarm_delivers : delivers (fun w => w) swarm_rpc.
Proof.
  intros payload a e c Hc. exists 0%N, (wrap 64 42). cbv zeta.
  cbn [transport swarm_rpc]. unfold swarm_transport. rewrite Hc. cbn [fst snd world].
  split; [|done]. intros framed Hf. change (address (my_contact swarm_rpc)) with (naddr 0) in Hf.
  by rewrite Hf.
Qed.

Lemma ex_swarm_ok t : swarm_ok (fun w => w) swarm_rpc t ex_nodes ex_home ex_swarm.
Proof.
  intros j Hj. unfold ex_nodes in Hj.
  assert (exists v, v ∈ [1; 2; 3]%N /\ j = nid v) as (v & Hv & ->) by set_solver.
  exists (swarm_node v). split.
  - rewrite ex_home_nid by set_solver. by apply swarm_of_lookup; [vm_compute|].
  - destruct (recommended_offered (nid v) ex_everyone) as (Hi & He & _).
    split; cbn [ctx_nodes swarm_node]; rewrite ?Hi, ?He; [|apply offered_me|done].
    apply informed_offered; [exact ex_everyone_belongs|]. intros i Hi' _. by apply ex_everyone_all.
Qed.

Lemma lookup_finds_nearest_witness :
  exists best rest, (lookup_node (fun _ => 0) swarm_rpc (nid 7) ex_swarm_env).1 = best :: rest /\
    member ex_nodes ex_home best /\ forall j, j ∈ ex_nodes -> j = id best \/ nearer (nid 7) (id best) j.
Proof.
  apply (lookup_finds_nearest (fun w => w) (fun _ => 0) swarm_rpc (nid 7) ex_nodes ex_home ex_swarm_env).
  - by eexists.
  - intros l. by eexists.
  - intros i j. unfold ex_nodes. rewrite !elem_of_union, !elem_of_singleton.
    intros [[->| ->]| ->] [[->| ->]| ->] E; (reflexivity || (exfalso; revert E; by vm_compute)).
  - intros j _. apply ex_plain_home.
  - by vm_compute.
  - unfold ex_nodes. rewrite !elem_of_union, !elem_of_singleton. intros [[E|E]|E]; revert E; by vm_compute.
  - apply ex_few.
  - exact swarm_delivers.
  - apply ex_swarm_ok.
  - by vm_compute.
  - intros c Hc. assert (c = nc 1) as ->.
    { change (close_nodes _ _ _).1 with (take K (sort_by_distance (nid 7) [nc 1])) in Hc. set_solver. }
    split; [unfold ex_nodes; set_solver|by vm_compute].
Defined.

(** ** The same nodes, each asking the others *)

Definition ex_population : gset NodeId := {[nid 0; nid 1; nid 2; nid 3]}.

(** A request from the node at [me], whose server uses the table of its client. *)
Definition client_transport (me from : SocketAddr) (reachable : bool) (unanswered : IoError)
    : RpcTransport RecommendedCloseNodes Swarm := fun payload a e =>
  match world e !! a with
  | None => (Err (MkIoError TimedOut "no such node"), e)
  | Some c =>
      let self := bool_decide (a = me) in
      let r := dispatch 0%N (MkRequest (request_id (wrap 64 42)) from reachable payload)
                 (if self then set_table (table e) c else c) in
      (match r.1 with None => Err unanswered | Some framed => read_reply (request_id (wrap 64 42)) framed end,
       MkEnv (if self then ctx_nodes r.2 else table e) (metrics e) (next_lookup e) (<[a := r.2]> (world e)))
  end.

Definition client (v : N) : Rpc RecommendedCloseNodes Swarm :=
  MkRpc (nc v) (client_transport (naddr v) (naddr v) true (MkIoError TimedOut "not answered"))
    (client_transport (naddr v) (naddr 9) false (MkIoError UnexpectedEof "early eof")).

Definition ex_full_swarm : Swarm := swarm_of [0; 1; 2; 3]%N.

(** The environment of the node [v] as a client. *)
Definition at_client (v : N) (w : Swarm) : Env RecommendedCloseNodes Swarm :=
  MkEnv (default (recommended (nid v)) (ctx_nodes <$> w !! naddr v)) [] (wrap 64 1) w.

Lemma at_client_swarm v w : swarm (fun w => w) (client v) (at_client v w) = w.
Proof.
  unfold swarm. cbn [world at_client table]. apply alter_id. change (address (my_contact (client v))) with (naddr v).
  intros [i t vs d] ->. done.
Qed.

Lemma ex_population_cases i : i ∈ ex_population -> exists v, (v ∈ [0; 1; 2; 3]%N) /\ i = nid v.
Proof.
  unfold ex_population. rewrite !elem_of_union, !elem_of_singleton.
  intros [[[->| ->]| ->]| ->]; eexists; (split; [|reflexivity]); set_solver.
Qed.

Lemma ex_population_everyone g : g ∈ ex_population -> everyone (others ex_population g) g = everyone ex_nodes (nid 0).
Proof.
  intros Hg. apply set_eq. intros i. rewrite (elem_of_all ex_population g i Hg), elem_of_everyone.
  unfold ex_population, ex_nodes. set_solver.
Qed.

Lemma client_exchanges population permitted v from reachable unanswered :
  (reachable = true -> from = naddr v) -> (reachable = false -> peer_is_gone unanswered = false) ->
  exchanges (fun w => w) population ex_home permitted (client v)
    (client_transport (naddr v) from reachable unanswered) reachable.
Proof.
  intros Hfrom Hun payload a e c Hc. set (m := swarm (fun w => w) (client v) e) in *.
  exists m, c, 0%N, (wrap 64 42), from. split; [reflexivity|]. split; [exact Hc|]. split; [exact Hfrom|]. cbv zeta.
  subst m. unfold swarm in *. change (address (my_contact (client v))) with (naddr v) in *. cbv beta in *.
  set (r := MkRequest (request_id (wrap 64 42)) from reachable payload) in *. unfold client_transport.
  destruct (world e !! a) as [c0|] eqn:Hw.
  2: { exfalso. destruct (decide (a = naddr v)) as [->|Hne].
       - by rewrite lookup_alter_eq, Hw in Hc.
       - by rewrite lookup_alter_ne, Hw in Hc by done. }
  assert ((if bool_decide (a = naddr v) then set_table (table e) c0 else c0) = c) as ->.
  { case_bool_decide as Ha; [subst a|]; [rewrite lookup_alter_eq in Hc|rewrite lookup_alter_ne in Hc by done];
      rewrite Hw in Hc; by injection Hc as <-. }
  fold r. clearbody r. destruct (dispatch 0%N r c) as [reply c']. cbn [fst snd world table]. split.
  - destruct reply; [done|]. intros Hr. eauto.
  - refine (eq_ind _ _ (rtc_refl _ _) _ _). case_bool_decide as Ha; [subst a|].
    + apply map_eq. intros k. destruct (decide (k = naddr v)) as [->|Hk].
      * rewrite lookup_alter_eq, !lookup_insert_eq. by destruct c'.
      * by rewrite lookup_insert_ne, !lookup_alter_ne, lookup_insert_ne by done.
    + by rewrite alter_insert_ne.
Qed.

Lemma client_participant permitted v :
  v ∈ [0; 1; 2; 3]%N -> participant (fun w => w) ex_population ex_home permitted (client v).
Proof.
  intros Hv. assert (v = 0 \/ v = 1 \/ v = 2 \/ v = 3)%N as Hcases by set_solver. split.
  - unfold ex_population, client, me. cbn [my_contact id nc]. set_solver.
  - by destruct Hcases as [->|[->|[->| ->]]]; vm_compute.
  - by apply client_exchanges.
  - by apply client_exchanges.
Qed.

Lemma ex_company j : j ∈ ex_population -> exists g, g ∈ ex_population /\ g <> j.
Proof.
  intros (v & Hv & ->)%ex_population_cases. destruct (decide (v = 0%N)) as [->|Hne].
  - exists (nid 1). split; [unfold ex_population; set_solver|by vm_compute].
  - exists (nid 0). split; [unfold ex_population; set_solver|].
    assert (v = 1 \/ v = 2 \/ v = 3)%N as [->|[->| ->]] by set_solver; by vm_compute.
Qed.

(** Every node was told of everyone. *)
Lemma ex_peer_ok keys v : v ∈ [0; 1; 2; 3]%N -> peer_ok ex_population ex_home keys (nid v) (ctx_nodes (swarm_node v)).
Proof.
  intros Hv. destruct (recommended_offered (nid v) ex_everyone) as (Hi & He & _). cbn [ctx_nodes swarm_node]. split.
  - intros key g _ Hg Hne. pose proof (ex_population_everyone g Hg) as Hall.
    split; rewrite ?Hi, ?He; [|apply offered_me|done]. apply informed_offered.
    + intros c Hc. destruct (ex_everyone_belongs c Hc) as [? ?]. split; [by rewrite Hall|done].
    + intros i Hi' _. rewrite Hall in Hi'. by apply ex_everyone_all.
  - intros key e _. by rewrite He.
Qed.

Lemma ex_full_network keys Q :
  (forall v, v ∈ [0; 1; 2; 3]%N -> Q (nid v) ∅ (ctx_dns (swarm_node v))) ->
  network ex_population ex_home keys Q ex_full_swarm.
Proof.
  intros HQ j (v & Hv & ->)%ex_population_cases. exists (swarm_node v). split; [|split; [by apply ex_peer_ok|by apply HQ]].
  rewrite ex_home_nid by done. by apply swarm_of_lookup; [vm_compute|].
Qed.

Lemma ex_full_few key g : g ∈ ex_population -> uncrowded (others ex_population g) g key.
Proof.
  intros Hg p _ _. transitivity (size (everyone ex_nodes (nid 0))).
  - apply subseteq_size. intros i. unfold sharing. rewrite (ex_population_everyone g Hg).
    by intros [_ ?]%elem_of_filter.
  - apply Nat.leb_le. by vm_compute.
Qed.

Lemma ex_home_inj i j : i ∈ ex_population -> j ∈ ex_population -> ex_home i = ex_home j -> i = j.
Proof.
  intros (v & Hv & ->)%ex_population_cases (u & Hu & ->)%ex_population_cases.
  assert (v = 0 \/ v = 1 \/ v = 2 \/ v = 3)%N as Hv' by set_solver.
  assert (u = 0 \/ u = 1 \/ u = 2 \/ u = 3)%N as Hu' by set_solver.
  destruct Hv' as [->|[->|[->| ->]]], Hu' as [->|[->|[->| ->]]]; intros E;
    (reflexivity || (exfalso; revert E; by vm_compute)).
Qed.

Lemma ex_plain j : j ∈ ex_population -> plain (ex_home j).
Proof. intros _. apply ex_plain_home. Qed.

Lemma put_then_get_witness :
  let put := store_value (fun _ => 0) (client 0) (Blob [x2a]) (at_client 0 ex_full_swarm) in
  exists source found,
    (lookup_value (fun _ => 0) (client 3) (key_for_value [x2a])
       (at_client 3 (swarm (fun w => w) (client 0) put.2))).1 = Some (source, found) /\
    key_for_value found = key_for_value [x2a].
Proof.
  intros put.
  apply (put_then_get (fun w => w) ex_population ex_home (fun _ => 0) (client 0) (client 3) [x2a]
    (at_client 0 ex_full_swarm) (at_client 3 (swarm (fun w => w) (client 0) put.2))).
  - intros l. by eexists.
  - intros k. by eexists.
  - intros r. by eexists.
  - intros r. by eexists.
  - exact ex_home_inj.
  - exact ex_plain.
  - exact (ex_full_few _).
  - exact ex_company.
  - exact (client_participant _ 0 ltac:(by left)).
  - exact (client_participant _ 3 ltac:(by do 3 right; left)).
  - rewrite at_client_swarm. apply ex_full_network. intros v _ p. by rewrite lookup_empty.
  - rewrite at_client_swarm. reflexivity.
Defined.

(** *** Two publications, by two nodes *)

Definition ex_items : list bytes := [[x01]; enc (pp_record pub1); [x02]; enc (pp_record pub2)].
Definition ex_stock : gmap Key bytes := list_to_map ((fun b => (key_for_value b, b)) <$> ex_items).
Definition ex_unpublished : Edition := MkEdition [] None ∅.
Definition client_dns (domain : string) : M (Env RecommendedCloseNodes Swarm) (option VerifyingKey) :=
  gets (fun _ => ex_zone !! domain).

Abbreviation ex_allowed := (permitted ex_population ex_home ex_domain "tool" ex_vk ex_stock).
Abbreviation ex_catalogue := (published ex_population ex_domain "tool" ex_vk ex_stock (fun z : Zone => z = ex_zone)).
Abbreviation ex_sound := (sound ex_domain "tool" ex_vk ex_stock).

Lemma ex_stock_in b : b ∈ ex_items -> ex_stock !! key_for_value b = Some b.
Proof.
  intros Hb. apply elem_of_list_to_map_1.
  - apply (bool_decide_unpack _). by vm_compute.
  - apply list_elem_of_fmap. by exists b.
Qed.

Lemma ex_stock_keys k b : ex_stock !! k = Some b -> key_for_value b = k.
Proof. intros Hk%elem_of_list_to_map_2. apply list_elem_of_fmap in Hk as (b' & [= -> ->] & _). done. Qed.

Lemma client_resolving v :
  resolving (fun w => w) ex_population ex_home ex_domain "tool" ex_vk ex_stock (fun z : Zone => z = ex_zone)
    (client v) client_dns.
Proof. intros e _. split; [by vm_compute|reflexivity]. Qed.

Lemma ex_unpublished_sound : ex_sound ex_unpublished.
Proof. split; [by left|done|by intros r k ?%not_elem_of_nil|cbn; lia]. Qed.

Lemma ex_publish_first :
  ex_sound (edition_after pub1 ex_unpublished) /\
  exists receipt e1,
    publish_package (fun _ => 0) (client 0) client_dns ex_domain "tool" v100 [x01] ex_sk None false
      (at_client 0 ex_full_swarm) = (Ok receipt, e1) /\
    network ex_population ex_home (tracked ex_domain "tool" ex_stock) (ex_catalogue (edition_after pub1 ex_unpublished))
      (swarm (fun w => w) (client 0) e1).
Proof.
  eapply (publish_network (fun w => w) ex_population ex_home ex_domain "tool" ex_vk ex_stock (fun z : Zone => z = ex_zone)).
  - intros d ->. by vm_compute.
  - by intros d dom ->.
  - intros l. by eexists.
  - intros k. by eexists.
  - intros r. by eexists.
  - exact ex_home_inj.
  - exact ex_plain.
  - intros key g _. apply ex_full_few.
  - exact ex_company.
  - exact ex_stock_keys.
  - intros r. by eexists.
  - exact (client_participant _ 0 ltac:(by left)).
  - apply client_resolving.
  - reflexivity.
  - exact ex_unpublished_sound.
  - exact ex_pub1_ok.
  - reflexivity.
  - apply (bool_decide_unpack _). by vm_compute.
  - by vm_compute.
  - apply Nat.leb_le. by vm_compute.
  - by vm_compute.
  - apply ex_stock_in. by left.
  - intros rb [= <-]. apply ex_stock_in. by right; left.
  - rewrite at_client_swarm. apply ex_full_network. intros v _. split; [|done].
    split; [done|..]; cbn; intros *; rewrite ?lookup_empty; done.
Qed.

Lemma publish_then_install_witness :
  exists e1,
    let e2 := at_client 1 (swarm (fun w => w) (client 0) e1) in
    let run := publish_package (fun _ => 0) (client 1) client_dns ex_domain "tool" v110 [x02] ex_sk None false e2 in
    let later := at_client 3 (swarm (fun w => w) (client 1) run.2) in
    (exists receipt, publish_package (fun _ => 0) (client 0) client_dns ex_domain "tool" v100 [x01] ex_sk None false
       (at_client 0 ex_full_swarm) = (Ok receipt, e1)) /\
    (exists receipt, run.1 = Ok receipt) /\
    (install_package (fun _ => 0) (client 3) client_dns ex_domain "tool" None later).1 =
      Ok (MkInstalled v110 (key_for_value [x02]) [x02]) /\
    (install_package (fun _ => 0) (client 3) client_dns ex_domain "tool" (Some v100) later).1 =
      Ok (MkInstalled v100 (key_for_value [x01]) [x01]).
Proof.
  destruct ex_publish_first as (Hs1 & receipt & e1 & Hrun1 & Hok1). exists e1. intros e2 run later.
  split; [by exists receipt|].
  destruct (publish_then_install (fun w => w) ex_population ex_home ex_domain "tool" ex_stock (fun z : Zone => z = ex_zone)
    (fun _ => 0) (client 1) (client 3) client_dns client_dns ex_sk v110 [x02] None pub2
    (edition_after pub1 ex_unpublished) e2 later) as (Hreceipt & Hnew & Hold).
  - intros l. by eexists.
  - intros k. by eexists.
  - intros r. by eexists.
  - intros r. by eexists.
  - exact ex_home_inj.
  - exact ex_plain.
  - intros key g _. apply ex_full_few.
  - exact ex_company.
  - intros d ->. by vm_compute.
  - by intros d dom ->.
  - exact ex_stock_keys.
  - by vm_compute.
  - apply ex_stock_in. by right; right; left.
  - intros rb [= <-]. apply ex_stock_in. by right; right; right; left.
  - exact (client_participant _ 1 ltac:(by right; left)).
  - exact (client_participant _ 3 ltac:(by do 3 right; left)).
  - apply client_resolving.
  - apply client_resolving.
  - exact Hs1.
  - exact ex_pub2_ok.
  - reflexivity.
  - apply (bool_decide_unpack _). by vm_compute.
  - by vm_compute.
  - apply Nat.leb_le. by vm_compute.
  - subst e2. rewrite at_client_swarm. exact Hok1.
  - subst later. rewrite at_client_swarm. reflexivity.
  - split; [exact Hreceipt|]. split; [exact Hnew|].
    assert (vr_version (body (pp_record pub1)) = v100) as Hv by by vm_compute.
    assert (vr_blob_hash (body (pp_record pub1)) = key_for_value [x01]) as Hb by by vm_compute.
    specialize (Hold (pp_record pub1) [x01]). rewrite Hv, Hb in Hold. apply Hold.
    + apply (bool_decide_unpack _). by vm_compute.
    + apply (bool_decide_unpack _). by vm_compute.
    + apply ex_stock_in. by left.
Defined.

(** *** A value that only one node has *)

Definition ex_keeper : Context RecommendedCloseNodes Zone :=
  MkContext (nid 0) (ctx_nodes (swarm_node 0)) {[key_for_value [x2a] := Blob [x2a]]} ex_zone.
Definition ex_kept_swarm : Swarm := <[naddr 0 := ex_keeper]> ex_full_swarm.

Lemma ex_kept_network :
  network ex_population ex_home any_key (pointer_free (key_for_value [x2a])) ex_kept_swarm.
Proof.
  unfold ex_kept_swarm. rewrite <- (ex_home_nid 0) by (by left).
  apply (network_insert _ _ _ ex_home_inj (pointer_free (key_for_value [x2a]))); [apply ex_full_network| | |].
  - intros v _ p. by rewrite lookup_empty.
  - unfold ex_population. set_solver.
  - split; [apply ex_peer_ok; by left|]. intros p. cbn [ctx_values ex_keeper]. by rewrite lookup_singleton_eq.
  - done.
Qed.

Lemma republish_then_get_witness :
  let e := at_client 0 ex_kept_swarm in
  let round := republish_values (fun _ => 0) client_dns (client 0) [(key_for_value [x2a], Blob [x2a])] e in
  exists source found,
    (lookup_value (fun _ => 0) (client 3) (key_for_value [x2a])
       (at_client 3 (swarm (fun w => w) (client 0) round.2))).1 = Some (source, found) /\
    key_for_value found = key_for_value [x2a].
Proof.
  intros e round.
  apply (republish_then_get (fun w => w) ex_population ex_home (fun _ => 0) (client 0) (client 3) client_dns [x2a]
    [(key_for_value [x2a], Blob [x2a])] ex_keeper e (at_client 3 (swarm (fun w => w) (client 0) round.2))).
  - intros l. by eexists.
  - intros k. by eexists.
  - intros r. by eexists.
  - intros r. by eexists.
  - exact ex_home_inj.
  - exact ex_plain.
  - exact ex_full_few.
  - exact ex_company.
  - exact (client_participant _ 0 ltac:(by left)).
  - exact (client_participant _ 3 ltac:(by do 3 right; left)).
  - intros domain e0. reflexivity.
  - subst e. rewrite at_client_swarm. exact ex_kept_network.
  - subst e. rewrite at_client_swarm. change (me (client 0)) with (nid 0). rewrite ex_home_nid by (by left). apply lookup_insert_eq.
  - intros k v. rewrite list_elem_of_singleton. cbn [ctx_values ex_keeper]. rewrite lookup_singleton_Some. naive_solver.
  - apply lookup_singleton_eq.
  - rewrite at_client_swarm. reflexivity.
Defined.
