(* ===== verification/JoiningThms.v ===== *)
(** * JoiningThms: networks that build themselves

    The theorems about nodes that come together by [bootstrap]
    ([src/bootstrap.rs]): what one join does, and what a network that was built by
    joins achieves, with a network of three nodes that is built that way. *)

From S2P Require Import Prelude Slices Machine Contacts DumbBucket StaticBucket SiblingList Cache Progress.
From S2P Require Import Crates Text Package VersionChain Wire Stream HandleRpc Rpc Lookup Converge Society PutGet.
From S2P Require Import Bootstrap Joining Instances ToyNet NetworkThms.

(** C6: a join through any member completes the network. Let the nodes, the
    program's own, at distinct addresses that serde keeps as they are ([plain]: no
    IPv6 flow information or scope), all know each other, and be at most [K] beside
    the newcomer, so that the tables have room for all; let every contact list and
    key be encodable, calls reach their nodes and replies come back. A newcomer, just made,
    that calls [bootstrap] with the address of any of them gets exactly all of them
    as its neighbourhood, and afterwards every node, the new one included, has
    every other one in its sibling list and in its bucket, at its true address, and
    nobody else, in whatever order the answers come and whatever the nodes serve
    meanwhile. Nobody may have looked for the newcomer's id beforehand, neither a
    member before the join, nor anybody at the newcomer before the seed answered,
    since the answers to that are cached. *)
Theorem bootstrap_joins `{Sha256} `{Ed25519} `{CodecLaws} `{Hex} {W D : Type} `{Clock W} `{!DnsData D}
    (peers : W -> gmap SocketAddr (Context RecommendedCloseNodes D)) (home_of : NodeId -> SocketAddr)
    (permitted : gmap SocketAddr (Context RecommendedCloseNodes D) -> bytes -> Prop)
    (members : gset NodeId) (m : gmap SocketAddr (Context RecommendedCloseNodes D)) (pick : W -> nat)
    (rand_id : M (Env RecommendedCloseNodes W) NodeId) (rpc : Rpc RecommendedCloseNodes W)
    (seed : NodeId) (c : Context RecommendedCloseNodes D) (e : Env RecommendedCloseNodes W) :
  let everybody := {[me rpc]} ∪ members in
  let joined := bootstrap pick rand_id rpc (home_of seed) e in
  (forall l : list Contact, is_Some (serialize l)) -> (forall k : Key, is_Some (serialize k)) ->
  (forall i j, i ∈ everybody -> j ∈ everybody -> home_of i = home_of j -> i = j) ->
  (forall j, j ∈ everybody -> plain (home_of j)) -> size everybody <= S K ->
  complete home_of members m -> me rpc ∉ members -> seed ∈ members ->
  newborn (me rpc) c -> swarm peers rpc e = <[home_of (me rpc) := c]> m ->
  participant peers everybody home_of permitted rpc ->
  (forall e, swarm peers rpc (rand_id e).2 = swarm peers rpc e) ->
  net members home_of (fun _ c => unasked (me rpc) (ctx_nodes c)) m ->
  unasked (me rpc) (table (ping rpc (home_of seed) e).2) ->
  (exists contacts, joined.1 = Some (Ok contacts) /\ forall i, names contacts i <-> i ∈ members) /\
  complete home_of everybody (swarm peers rpc joined.2).
Proof.
  intros everybody joined Hl Hk Hinj Hplain Hsmall Hm Hnew Hseed Hc Hswarm Hpart Hdraws Hun Hfresh. subst joined everybody.
  exact (bootstrap_complete peers home_of permitted Hl Hk members m rpc pick rand_id seed c e
    Hsmall Hinj Hplain Hm Hnew Hseed Hc Hpart Hdraws Hun Hswarm Hfresh).
Qed.

(** C7: a network that was built by joins works. Let at least two nodes, at most [K]
    and one more, the program's own at distinct addresses that serde keeps as they
    are ([plain]: no IPv6 flow information or scope), have come together one after
    the other, each, just made, by one [bootstrap] through some node that was there,
    and let them go on serving each other. Each join is under the conditions of
    [bootstrap_joins]: no member has been asked for the newcomer's id before, nor
    has the newcomer itself before its seed answered (else what is cached for it
    makes the join find nobody); no other node joins meanwhile, none leaves; calls
    get through and every message is encodable. Then what any node puts any node can
    get: after a [store_value] of a blob under a key that no pointer occupies and
    that no node has cached an answer for, a [lookup_value] for its key, from any
    node, ends with bytes of that key, whatever the nodes serve meanwhile but
    pointers under that key. *)
Theorem assembled_put_then_get `{Sha256} `{Ed25519} `{CodecLaws} `{Hex} {W D : Type} `{Clock W} `{!DnsData D}
    (peers : W -> gmap SocketAddr (Context RecommendedCloseNodes D)) (population : gset NodeId)
    (home_of : NodeId -> SocketAddr) (pick : W -> nat) (putter getter : Rpc RecommendedCloseNodes W) (blob : bytes)
    (e later : Env RecommendedCloseNodes W) :
  let key := key_for_value blob in
  let allowed := fun _ : gmap SocketAddr (Context RecommendedCloseNodes D) => no_pointer key in
  (forall l : list Contact, is_Some (serialize l)) -> (forall k : Key, is_Some (serialize k)) ->
  (forall r : FindValueReply, is_Some (serialize r)) -> (forall r : StoreRequest, is_Some (serialize r)) ->
  (forall i j, i ∈ population -> j ∈ population -> home_of i = home_of j -> i = j) ->
  (forall j, j ∈ population -> plain (home_of j)) ->
  2 <= size population <= S K ->
  assembled peers home_of allowed population (swarm peers putter e) ->
  net population home_of (fun j c => unasked key (ctx_nodes c) /\ pointer_free key j (ctx_values c) (ctx_dns c))
    (swarm peers putter e) ->
  participant peers population home_of allowed putter -> participant peers population home_of allowed getter ->
  rtc (meanwhile population home_of allowed)
    (swarm peers putter (store_value pick putter (Blob blob) e).2) (swarm peers getter later) ->
  exists source found, (lookup_value pick getter key later).1 = Some (source, found) /\ key_for_value found = key.
Proof.
  intros key allowed Hl Hk Hr Hs Hinj Hplain [Htwo Hsmall] Hass Hun Hput Hget Hlater.
  pose proof (assembled_complete peers home_of allowed Hl Hk population _ Hass Hsmall Hinj Hplain) as Hm.
  assert (forall k g, eq key k -> g ∈ population -> uncrowded (others population g) g k) as Hfew
    by (intros k g _; by apply small_uncrowded).
  assert (forall j, j ∈ population -> exists g, g ∈ population /\ g <> j) as Hco by (intros j _; by apply two_company).
  apply (get_network peers population home_of (eq key) key eq_refl Hl Hk Hr Hinj Hplain Hfew Hco pick getter later Hget).
  apply (network_meanwhile population home_of (eq key) allowed Hinj Hfew Hco
    _ _ _ ltac:(apply stable_among; [apply pointer_free_stable|apply holds_kept]) Hlater).
  apply put_network; [done..|].
  apply complete_network; [done|]. intros j Hj. destruct (Hun j Hj) as (c & Hc & Hu & Hf).
  exists c. split; [done|]. split; [by intros k <-|done].
Qed.

(** ** Three nodes come together *)

(** Three ids that share no bit, or one, with each other. *)
Definition far0 : N := 0.
Definition far1 : N := 2 ^ 255 + 1.
Definition far2 : N := 2 ^ 254 + 2.

Definition born (v : N) : Context RecommendedCloseNodes Zone := MkContext (nid v) (recommended (nid v)) ∅ ex_zone.

(** The node [v] is started and joins at the node [seed]. *)
Definition ex_start (v : N) (m : Swarm) : Env RecommendedCloseNodes Swarm := at_client v (<[ex_home (nid v) := born v]> m).
Definition ex_join (v seed : N) (m : Swarm) :=
  bootstrap (fun _ => 0) (mret (nid 5)) (client v) (ex_home (nid seed)) (ex_start v m).

Definition ex_alone : Swarm := {[ex_home (nid far0) := born far0]}.
Definition ex_pair : Swarm := swarm (fun w => w) (client far1) (ex_join far1 far0 ex_alone).2.
Definition ex_trio : Swarm := swarm (fun w => w) (client far2) (ex_join far2 far1 ex_pair).2.

Definition asked (key : Key) (m : Swarm) (i : NodeId) : option bool :=
  (fun c => bool_decide (is_Some (entries (ctx_nodes c) !! key))) <$> m !! ex_home i.

Definition pair_ids : gset NodeId := {[nid far1]} ∪ {[nid far0]}.
Definition trio_ids : gset NodeId := {[nid far2]} ∪ pair_ids.

Lemma trio_cases i : i ∈ trio_ids -> exists v, (v = far0 \/ v = far1 \/ v = far2) /\ i = nid v.
Proof.
  unfold trio_ids, pair_ids. rewrite !elem_of_union, !elem_of_singleton. intros [->|[->| ->]]; eexists; (split; [|reflexivity]); auto.
Qed.

Lemma trio_home_inj i j : i ∈ trio_ids -> j ∈ trio_ids -> ex_home i = ex_home j -> i = j.
Proof.
  intros (v & Hv & ->)%trio_cases (u & Hu & ->)%trio_cases.
  destruct Hv as [->|[->| ->]], Hu as [->|[->| ->]]; intros E; (reflexivity || (exfalso; revert E; by vm_compute)).
Qed.

Lemma pair_in_trio : pair_ids ⊆ trio_ids.
Proof. apply union_subseteq_r. Qed.

Lemma client_joins population permitted v :
  nid v ∈ population -> naddr v = ex_home (nid v) -> participant (fun w => w) population ex_home permitted (client v).
Proof. intros Hin Hhome. split; [exact Hin|exact Hhome|by apply client_exchanges|by apply client_exchanges]. Qed.

Lemma asked_unasked members key m :
  (forall i, i ∈ members -> asked key m i = Some false) ->
  net members ex_home (fun _ c => unasked key (ctx_nodes c)) m.
Proof.
  intros Hall i Hi. specialize (Hall i Hi). unfold asked in Hall. destruct (m !! ex_home i) as [c|]; [|done].
  exists c. split; [done|]. injection Hall as Hn%bool_decide_eq_false. by apply eq_None_not_Some.
Qed.

Lemma ex_start_swarm v m :
  naddr v = ex_home (nid v) -> swarm (fun w => w) (client v) (ex_start v m) = <[ex_home (nid v) := born v]> m.
Proof. intros Hhome. apply at_client_swarm. Qed.

Lemma far_home v : v = far0 \/ v = far1 \/ v = far2 -> naddr v = ex_home (nid v).
Proof. intros [->|[->| ->]]; by vm_compute. Qed.

Lemma newcomer_unasked v seed m :
  (bool_decide (is_Some (entries (table (ping (client v) (ex_home (nid seed)) (ex_start v m)).2) !! nid v))) = false ->
  unasked (me (client v)) (table (ping (client v) (ex_home (nid seed)) (ex_start v m)).2).
Proof. intros Hn%bool_decide_eq_false. by apply eq_None_not_Some. Qed.

Lemma ex_assembled_join permitted members m v seed :
  assembled (fun w => w) ex_home permitted members m -> nid v ∉ members -> nid seed ∈ members ->
  naddr v = ex_home (nid v) -> net members ex_home (fun _ c => unasked (nid v) (ctx_nodes c)) m ->
  unasked (nid v) (table (ping (client v) (ex_home (nid seed)) (ex_start v m)).2) ->
  assembled (fun w => w) ex_home permitted ({[nid v]} ∪ members) (swarm (fun w => w) (client v) (ex_join v seed m).2).
Proof.
  intros Hm Hnew Hseed Hhome Hun Hfresh.
  assert (participant (fun w => w) ({[nid v]} ∪ members) ex_home permitted (client v)) as Hclient
    by (apply client_joins; [apply elem_of_union; left; by apply elem_of_singleton|done]).
  exact (assembled_join (fun w => w) ex_home permitted members m (client v) (fun _ => 0) (mret (nid 5)) (nid seed) (born v)
    (ex_start v m) Hm Hnew Hseed (conj eq_refl eq_refl) Hclient (fun _ => eq_refl) Hun (ex_start_swarm v m Hhome) Hfresh).
Qed.

Lemma ex_assembled_pair permitted : assembled (fun w => w) ex_home permitted pair_ids ex_pair.
Proof.
  apply ex_assembled_join.
  - apply (assembled_first _ _ _ _ (born far0)); [apply lookup_singleton_eq|by split].
  - rewrite elem_of_singleton. by vm_compute.
  - by apply elem_of_singleton.
  - apply far_home. auto.
  - apply asked_unasked. intros i ->%elem_of_singleton. by vm_compute.
  - apply newcomer_unasked. by vm_compute.
Qed.

Lemma pair_unasked : net pair_ids ex_home (fun _ c => unasked (nid far2) (ctx_nodes c)) ex_pair.
Proof.
  apply asked_unasked. intros i. unfold pair_ids. rewrite elem_of_union, !elem_of_singleton.
  intros [->| ->]; by vm_compute.
Qed.

Lemma trio_new : nid far2 ∉ pair_ids.
Proof. unfold pair_ids. rewrite elem_of_union, !elem_of_singleton. intros [E|E]; revert E; by vm_compute. Qed.

Lemma trio_size : 2 <= size trio_ids <= S K.
Proof. split; apply Nat.leb_le; by vm_compute. Qed.

Lemma trio_client permitted v :
  v = far0 \/ v = far1 \/ v = far2 -> participant (fun w => w) trio_ids ex_home permitted (client v).
Proof.
  intros Hv. apply client_joins; [|by apply far_home]. unfold trio_ids, pair_ids.
  rewrite !elem_of_union, !elem_of_singleton. destruct Hv as [->|[->| ->]]; auto.
Qed.

Lemma newcomer_trio : unasked (nid far2) (table (ping (client far2) (ex_home (nid far1)) (ex_start far2 ex_pair)).2).
Proof. apply newcomer_unasked. by vm_compute. Qed.

Lemma contacts_encoded (l : list Contact) : is_Some (serialize l).
Proof. by eexists. Qed.

Lemma keys_encoded (k : Key) : is_Some (serialize k).
Proof. by eexists. Qed.

Lemma pair_complete : complete ex_home pair_ids ex_pair.
Proof.
  eapply (assembled_complete (fun w => w) ex_home (fun _ _ => True)); [exact contacts_encoded|exact keys_encoded|apply ex_assembled_pair| | |intros j _; apply ex_plain_home].
  - apply Nat.leb_le. by vm_compute.
  - intros i j Hi%pair_in_trio Hj%pair_in_trio. by apply trio_home_inj.
Qed.

Lemma pair_seed : nid far1 ∈ pair_ids.
Proof. apply elem_of_union. left. by apply elem_of_singleton. Qed.

Lemma bootstrap_joins_witness :
  (exists contacts, (ex_join far2 far1 ex_pair).1 = Some (Ok contacts) /\
     forall i, names contacts i <-> i ∈ pair_ids) /\
  complete ex_home trio_ids (swarm (fun w => w) (client far2) (ex_join far2 far1 ex_pair).2).
Proof.
  exact (bootstrap_joins (fun w => w) ex_home (fun _ _ => True) pair_ids ex_pair (fun _ => 0) (mret (nid 5)) (client far2)
    (nid far1) (born far2) (ex_start far2 ex_pair) contacts_encoded keys_encoded
    trio_home_inj (fun j _ => ex_plain_home j) (proj2 trio_size) pair_complete trio_new pair_seed (conj eq_refl eq_refl)
    (ex_start_swarm far2 ex_pair (far_home far2 ltac:(auto))) (trio_client _ far2 ltac:(auto)) (fun _ => eq_refl)
    pair_unasked newcomer_trio).
Defined.

Lemma ex_assembled_trio permitted : assembled (fun w => w) ex_home permitted trio_ids ex_trio.
Proof.
  apply ex_assembled_join; [apply ex_assembled_pair|exact trio_new| |apply far_home; auto|exact pair_unasked|exact newcomer_trio].
  apply elem_of_union. left. by apply elem_of_singleton.
Qed.

(** Nobody has asked for the key, and no node has a value. *)
Lemma trio_ready key :
  (forall i, i ∈ trio_ids -> asked key ex_trio i = Some false) ->
  (forall i, i ∈ trio_ids -> (fun c => ctx_values c !! key) <$> ex_trio !! ex_home i = Some None) ->
  net trio_ids ex_home (fun j c => unasked key (ctx_nodes c) /\ pointer_free key j (ctx_values c) (ctx_dns c)) ex_trio.
Proof.
  intros Hasked Hfree i Hi. destruct (asked_unasked trio_ids key ex_trio Hasked i Hi) as (c & Hc & Hun).
  specialize (Hfree i Hi). rewrite Hc in Hfree. injection Hfree as Hv. exists c. split; [done|]. split; [done|].
  intros p. by rewrite Hv.
Qed.

Lemma trio_ready_42 :
  net trio_ids ex_home (fun j c => unasked (key_for_value [x2a]) (ctx_nodes c) /\
    pointer_free (key_for_value [x2a]) j (ctx_values c) (ctx_dns c)) ex_trio.
Proof.
  apply trio_ready; intros i (v & Hv & ->)%trio_cases; destruct Hv as [->|[->| ->]]; by vm_compute.
Qed.

Lemma assembled_put_then_get_witness :
  let put := store_value (fun _ => 0) (client far0) (Blob [x2a]) (at_client far0 ex_trio) in
  exists source found,
    (lookup_value (fun _ => 0) (client far2) (key_for_value [x2a])
       (at_client far2 (swarm (fun w => w) (client far0) put.2))).1 = Some (source, found) /\
    key_for_value found = key_for_value [x2a].
Proof.
  intros put.
  apply (assembled_put_then_get (fun w => w) trio_ids ex_home (fun _ => 0) (client far0) (client far2) [x2a]
    (at_client far0 ex_trio) (at_client far2 (swarm (fun w => w) (client far0) put.2))).
  - intros l. by eexists.
  - intros k. by eexists.
  - intros r. by eexists.
  - intros r. by eexists.
  - exact trio_home_inj.
  - intros j _. apply ex_plain_home.
  - exact trio_size.
  - rewrite at_client_swarm. apply ex_assembled_trio.
  - rewrite at_client_swarm. exact trio_ready_42.
  - apply trio_client. auto.
  - apply trio_client. auto.
  - rewrite at_client_swarm. reflexivity.
Defined.

(** The answers to queries for the newcomer's own id are cached too: asked for it
    before its seed has answered, a new node answers with nobody, and its join, which
    begins with the same question to its own table, ends well having found nobody. *)
Example ex_join_unheard :
  let e := ex_start far2 ex_pair in
  let asked_first := (query_table (nid far2) e).2 in
  (bootstrap (fun _ => 0) (mret (nid 5)) (client far2) (ex_home (nid far1)) asked_first).1 = Some (Ok []).
Proof. by vm_compute. Qed.
