(* ===== verification/NodeThms.v ===== *)
(** * NodeThms: a whole node, its resolver, its wire and its command line

    The composition: what holds of a node in every run, with its server, its
    client operations and its upkeep sharing one state; and the parts around
    it, the DNS texts, the in-process network and the words of the commands. *)

From S2P Require Import Prelude Slices Machine Contacts Cache Text Crates Package VersionChain Wire Pending.
From S2P Require Import HandleRpc DnsKeys Network Rpc Lookup Registry Maintenance Keeps Node Jitter Upkeep Cli Instances ToyNet StorageThms.
From Stdlib Require Import Strings.Ascii QArith.QArith.

Local Open Scope nat_scope.

(** ** The node *)

(** C2: a node that starts empty and then does anything at all - serves
    requests, joins, looks up, stores, publishes, installs, checks liveness,
    republishes - while its transports let arbitrary requests be served and
    other tasks run at every await, keeps a sound routing table, which answers
    every query with at most [K] contacts, nearest first; holds only values
    under their own keys and pointers with a verified history; and never loses
    a pointer or takes one back to an older version. *)
Theorem node_stays_safe `{Sha256} `{Ed25519} `{CodecLaws} `{Hex} {D W : Type} `{!DnsData D} `{Clock W}
    (Auth : string -> VerifyingKey -> Prop) (address : SocketAddr) (dns : D) (lookups : u64) (outside : W)
    (pick : NodeWorld D W -> nat) (rand_id : M (Env RecommendedCloseNodes (NodeWorld D W)) NodeId)
    (order : gset Contact -> list Contact) (iter : gmap Key Value -> list (Key * Value))
    (transport robust : RpcTransport RecommendedCloseNodes (NodeWorld D W)) (before after : list Activity) :
  let start := node_start address dns lookups outside in
  let rpc := node_rpc start.1 transport robust in
  let run acts e := (for_each acts (perform pick rand_id order iter start.1 rpc) e).2 in
  let e1 := run before start.2 in
  let e2 := run after e1 in
  (forall domain d vk, (get_dns_vk domain d).1 = Some vk -> Auth domain vk) ->
  (forall p a, backgrounded Auth start.1 (transport p a)) ->
  (forall p a, backgrounded Auth start.1 (robust p a)) -> backgrounded Auth start.1 rand_id ->
  (forall now t, length (close_nodes now t (table e2)).1 <= K /\
     StronglySorted (near_le t) (close_nodes now t (table e2)).1) /\
  values_ok Auth (nw_values (world e2)) /\
  forall k old, nw_values (world e1) !! k = Some (Latest old) ->
    exists new, nw_values (world e2) !! k = Some (Latest new) /\
      (old = new \/ version_lt (lp_version (body old)) (lp_version (body new)) = true).
Proof.
  intros start rpc run e1 e2 Hdns Ht Hr Hrand.
  assert (forall m0 acts, preserves (env_ok (committed Auth m0)) (fun e => (tt, run acts e))) as Hok.
  { intros m0 acts e He. by apply (activities_ok Auth Hdns). }
  assert (env_ok (committed Auth ∅) e2) as [Htab Hval].
  { apply (Hok ∅ after), (Hok ∅ before). split; [apply recommended_inv|]. apply rtc_refl. }
  assert (env_ok (committed Auth (nw_values (world e1))) e2) as [_ Hsince].
  { apply Hok. split; [|apply rtc_refl]. apply (Hok ∅ before). split; [apply recommended_inv|]. apply rtc_refl. }
  split; [intros now t; split; [by apply cn_query_length|by apply cn_query_sorted]|].
  split; [eapply commits_ok; [apply Hval|]; intros k v; by rewrite lookup_empty|].
  intros k old. by apply commits_pointer with Auth.
Qed.

(** A node whose calls time out, but which serves a STORE while they do. *)
#[export] Instance no_clock : Clock unit := fun _ => 0%N.

Definition ex_node : Node := (node_start (D:=unit) (W:=unit) (naddr 7) tt (wrap 64 1) tt).1.
Definition ex_store : Request := MkRequest (wrap 64 1) (naddr 3) true (rpc_request (nid 3) Store ex_blob_request).
Definition busy_transport : RpcTransport RecommendedCloseNodes (NodeWorld unit unit) :=
  fun _ _ => _ ← on_context ex_node (dispatch 0%N ex_store); mret (Err (MkIoError TimedOut "no answer")).

Lemma busy_background p a : backgrounded only_ex ex_node (busy_transport p a).
Proof. intros e. apply rtc_once. constructor. Qed.

Lemma node_stays_safe_witness :
  values_ok only_ex (nw_values (world
    (for_each [ActPing (naddr 3); ActLiveness]
      (perform (fun _ => 0) (mret (nid 1)) elements map_to_list ex_node (node_rpc ex_node busy_transport busy_transport))
      (node_start (D:=unit) (W:=unit) (naddr 7) tt (wrap 64 1) tt).2).2)).
Proof.
  refine (proj1 (proj2 (node_stays_safe only_ex (naddr 7) tt (wrap 64 1) tt (fun _ => 0) (mret (nid 1)) elements
    map_to_list busy_transport busy_transport [] [ActPing (naddr 3); ActLiveness]
    one_owner_auth busy_background busy_background _))).
  intros e. apply rtc_refl.
Defined.

(** ** Its periodic tasks *)

(** C34: the upkeep of a node is paced: whatever factors are drawn, whenever the
    sleepers are woken and whatever the node does meanwhile, a task whose period
    is in whole seconds begins at most two rounds per period since it was
    started; asleep, it can be woken after at most one and a half periods, and
    begins its next round then; and a round that ends leads to the next sleep. *)
Theorem upkeep_paced `{Sha256} `{Ed25519} `{Codec} `{Hex} {D W : Type} `{!DnsData D} `{Clock W}
    (pick : NodeWorld D W -> nat) (rand_id : M (Env RecommendedCloseNodes (NodeWorld D W)) NodeId)
    (order : gset Contact -> list Contact) (iter : gmap Key Value -> list (Key * Value))
    (n : Node) (rpc : Rpc RecommendedCloseNodes (NodeWorld D W)) (republish_s liveness_s : N)
    (factors : f64 * f64) (now : Instant) (e : Env RecommendedCloseNodes (NodeWorld D W))
    (events : list UpkeepEvent) (u : Upkeep) (task : UpkeepTask) :
  let run := upkeep_run pick rand_id order iter n rpc in
  (3 * republish_s < 2 ^ 53)%N -> (3 * liveness_s < 2 ^ 53)%N ->
  in_jitter_range factors.1 = true -> in_jitter_range factors.2 = true -> draws_in_range events ->
  run events (periodic_task (from_secs republish_s) (from_secs liveness_s) factors now e) = Some u ->
  let t := timer task u in
  let p := from_secs (match task with LivenessTask => liveness_s | RepublishTask => republish_s end) in
  (N.of_nat (began t) * p <= 2 * (up_now u - now))%N /\
  (forall since until, phase t = Sleeping since until ->
     let d := (until - up_now u)%N in
     (2 * d <= 3 * p)%N /\ exists u', run [Elapse d; Wake task] u = Some u' /\
       phase (timer task u') = InRound /\ began (timer task u') = began t + 1) /\
  (phase t = InRound -> forall factor, is_Some (run [Finish task factor] u)).
Proof.
  intros run Hr Hl Hf1 Hf2 Hd Hrun t p.
  assert (timers_ok (from_secs liveness_s) (from_secs republish_s) now u) as Hok.
  { eapply upkeep_run_ok; [eexists; eauto|eexists; eauto|exact Hd|exact Hrun|].
    split; apply spawn_ok; try done; eexists; eauto. }
  assert (timer_ok p now (up_now u) t) as Ht by (subst p t; destruct Hok; by destruct task).
  split; [apply (to_rate _ _ _ _ Ht)|]. split.
  - intros since until Hph. rewrite <- (to_period _ _ _ _ Ht). by eapply wake_possible.
  - intros Hph factor. subst run t. cbn [upkeep_run upkeep_event]. unfold finish. rewrite Hph. by eexists.
Qed.

(** The deployed intervals, with the shortest of sleeps. *)
Definition ex_upkeep : option (Upkeep (D:=unit) (W:=unit)) :=
  upkeep_run (fun _ => 0) (mret (nid 1)) elements map_to_list ex_node
    (node_rpc ex_node busy_transport busy_transport) [Elapse (from_secs 30); Wake LivenessTask]
    (periodic_task (from_secs (60 * 60)) (from_secs 60) (F64 1 1, F64 5 2) 0%N
      (node_start (naddr 7) tt (wrap 64 1) tt).2).

Lemma ex_upkeep_runs : match ex_upkeep with Some _ => true | None => false end = true.
Proof. by vm_compute. Qed.

Lemma upkeep_paced_witness :
  from_secs (60 * 60) = REPUBLISH_INTERVAL /\ exists u, ex_upkeep = Some u /\
    (N.of_nat (began (timer LivenessTask u)) * LIVENESS_CHECK_INTERVAL <= 2 * (up_now u - 0))%N.
Proof.
  split; [reflexivity|]. pose proof ex_upkeep_runs as Hruns. destruct ex_upkeep as [u|] eqn:Hu; [|discriminate Hruns].
  exists u. split; [reflexivity|]. unfold ex_upkeep in Hu.
  refine (proj1 (upkeep_paced (D:=unit) (W:=unit) (fun _ => 0) (mret (nid 1)) elements map_to_list ex_node
    (node_rpc ex_node busy_transport busy_transport) (60 * 60) 60 (F64 1 1, F64 5 2) 0%N
    (node_start (naddr 7) tt (wrap 64 1) tt).2 [Elapse (from_secs 30); Wake LivenessTask] u LivenessTask
    _ _ _ _ _ Hu)); try (vm_compute; reflexivity).
  intros task factor Hin. exfalso.
  repeat (apply elem_of_cons in Hin as [Hin|Hin]; [discriminate Hin|]). by apply not_elem_of_nil in Hin.
Defined.

(** ** DNS *)

(** C36: a TXT record gives a key exactly when, blanks at the ends aside, it is
    the prefix followed by 64 digits that decode to it; what a domain publishes
    with [format_vk] parses back; the table of test keys answers with the key of
    the first entry of that name, and real DNS with the first record that holds
    a key at all. *)
Theorem dns_key_text `{Ed25519Laws} `{HexLaws} `{DomainName} (txt : bytes) (vk : VerifyingKey) (domain : string)
    {R : Type} `{!Resolver R} (dns : Dns R) (name : Name) (records : list (option bytes)) :
  name_from_str domain = Some name -> (query_txt name (dns_resolver dns)).1 = Some records ->
  (parse_vk txt = Some vk <->
   exists w1 w2 digits key, txt = w1 ++ (as_bytes TXT_PREFIX ++ digits) ++ w2 /\
     Forall (fun b => ascii_whitespace b = true) w1 /\ Forall (fun b => ascii_whitespace b = true) w2 /\
     length digits = 64 /\ decode_to_slice 32 digits = Some key /\ vk_from_bytes key = Some vk) /\
  parse_vk (as_bytes (format_vk vk)) = Some vk /\
  (get_dns_vk domain fake_dns_new).1 =
    find_map (fun key => n ← name_from_str (fk_domain key); v ← fk_verifying_key key;
                         if name_eq n name then Some v else None) FAKE_KEYS /\
  ((get_dns_vk domain dns).1 = Some vk <->
   exists earlier found later, records = earlier ++ Some found :: later /\ parse_vk found = Some vk /\
     forall t, Some t ∈ earlier -> parse_vk t = None).
Proof.
  intros Hn Hq. split; [apply parse_vk_spec|]. split; [|split].
  - pose proof (parse_format_vk [] [] vk) as Hp. cbn [app] in Hp. rewrite app_nil_r in Hp. by apply Hp.
  - rewrite fake_dns_lookup. by rewrite Hn.
  - by eapply dns_first_key.
Qed.

(** A resolver that answers with two records, the second of which is a key. *)
#[export] Instance ex_resolver : Resolver unit := fun _ =>
  mret (Some [Some (as_bytes "v=spf1 -all"); None; Some (as_bytes (format_vk ex_vk))]).

Lemma dns_key_text_witness : (get_dns_vk ex_domain (MkDns tt)).1 = Some ex_vk.
Proof.
  refine (proj2 (proj2 (proj2 (proj2 (dns_key_text [] ex_vk ex_domain (MkDns tt) ex_domain _ eq_refl eq_refl)))) _).
  exists [Some (as_bytes "v=spf1 -all"); None], (as_bytes (format_vk ex_vk)), []. split; [done|].
  split; [by vm_compute|]. intros t Ht. rewrite !elem_of_cons in Ht.
  destruct Ht as [[= ->]|[?|?]]; [by vm_compute|done|set_solver].
Defined.

(** ** The in-process wire *)

(** C37: whatever is bound, unbound, sent, delayed, lost, received and dropped,
    in any order, a bound address leads to a live endpoint of that address, and
    every datagram an endpoint can receive was sent to its address with that
    sender and payload. On a wire without loss and latency a datagram to a bound
    address arrives at once, behind those already there. *)
Theorem wire_faithful (c : NetworkConfig) (tr : list NetEvent) (d : Q) (from to : SocketAddr) (p : bytes) :
  let n := net_run tr (with_config c) in
  (forall a ep, sockets n !! a = Some ep -> exists e, endpoints n !! ep = Some e /\ ep_addr e = a) /\
  (forall ep e sender q, endpoints n !! ep = Some e -> (sender, q) ∈ ep_inbox e ->
     exists d, EvSend d sender (ep_addr e) q ∈ tr) /\
  (forall ep e, loss (config n) = 0%Q -> latency (config n) = 0%N ->
     sockets n !! to = Some ep -> endpoints n !! ep = Some e ->
     endpoints (send d from to p n) !! ep =
       Some (MkEndpoint (ep_addr e) (ep_inbox e ++ [(from, p)]) (ep_connections e))).
Proof.
  intros n. pose proof (net_run_ok tr c) as Hok. fold n in Hok.
  split; [apply (no_bound _ _ Hok)|]. split; [intros ep e sender q; apply (no_inbox _ _ Hok)|].
  intros ep e Hl Hz Hs He. rewrite (send_perfect d from to p n ep e) by done. cbn. by rewrite lookup_insert_eq.
Qed.

(** Binding any free port, and finding an unbound one to dial from,
    succeed within one turn round the ports exactly when a port is free, and
    otherwise never do. *)
Theorem ports_found (n : Network) (tries : nat) :
  (is_Some (bind_any n).1 <-> exists port, (uval port <> 0)%N /\ sockets n !! V4 localhost port = None) /\
  (is_Some (search PORTS unbound n).1 <-> exists port, (uval port <> 0)%N /\ sockets n !! V4 localhost port = None) /\
  ((forall port, (uval port <> 0)%N -> is_Some (sockets n !! V4 localhost port)) ->
   (search tries bind n).1 = None).
Proof.
  split; [apply search_total, bind_wants|]. split; [apply search_total, unbound_wants|].
  intros Hall. apply search_exhausted; [apply bind_wants|done].
Qed.

(** ** The command line *)

(** [DOMAIN:PACKAGE:VERSION] parses exactly when domain and package are
    non-empty and free of colons and the version is three numbers or [latest];
    the text of a version parses back to it, and versions are ordered by their
    numbers. [publish] takes its words in any order: it accepts them exactly when
    every option is known, [--force] and [--prev=] come at most once, the
    previous version is a version, and the two other words are such a name with
    a numeric version, and a file. *)
Theorem command_words (s domain package : string) (requested : option Version) (v w : Version)
    (parts : list string) (a : PublishArgs) :
  (parse_install_name s = Ok (domain, package, requested) <->
   exists name text, s = (name +:+ ":" +:+ text)%string /\ package_name name domain package /\
     selects text requested) /\
  version_from_str (version_to_string v) = Ok v /\
  version_cmp v w = N.compare (version_val v) (version_val w) /\
  (parse_publish_args parts = Ok a <->
   exists name, positionals parts = [name; pa_filename a] /\
     flags_ok parts false None (pa_force a) (pa_previous a) /\
     parse_install_name name = Ok (pa_domain a, pa_package a, Some (pa_version a))).
Proof.
  split; [apply parse_install_name_spec|]. split; [apply version_text_round_trip|].
  split; [apply version_cmp_val|apply parse_publish_args_spec].
Qed.

Example publish_example :
  parse_publish_args ["--prev=1.0.0"; "example.test:tool:1.1.0"; "--force"; "tool.tar"]%string =
  Ok (MkPublishArgs "example.test" "tool" v110 "tool.tar" (Some v100) true).
Proof. by vm_compute. Qed.
