(* ===== verification/ShellThms.v ===== *)
(** * ShellThms: the server's loops and the program

    What holds of the parts around a node: its server takes in and answers
    requests, and the program that a user starts joins the network, runs
    commands and touches files. *)

From S2P Require Import Prelude Slices Machine Contacts DumbBucket Cache Text Crates Address AddressParse Package VersionChain Wire.
From S2P Require Import Instances ToyNet StorageThms NodeThms Datagram Stream HandleRpc Serve DnsKeys Rpc Lookup Registry Maintenance Keeps Node Cli Shell Program.

Local Open Scope nat_scope.

(** ** The server *)

(** C20: whatever arrives, however the loops and the spawned tasks take turns,
    and whatever connections bring, no request that was taken in is lost or
    answered twice, what is sent back goes to the sender of the request under
    its id, the routing table stays sound and the stored values change only by
    permitted commits; and from any such state, the server's own turns, without
    anything from outside, come to the end of all it has taken in. *)
Theorem server_answers_all `{Sha256} `{Ed25519} `{CodecLaws} {A D T S : Type} `{CloseNodesSpec A} `{!DnsData D}
    `{DataRxTx T} `{AsyncStream S} (Auth : string -> VerifyingKey -> Prop) (context : Context A D)
    (queue : RequestQueue) (socket : T) (events : list (ServeEvent S)) (now : Instant) :
  let s : Server A D T S := serve_events events (serve context queue socket) in
  let waiting := length (queued (requests s)) in
  let own := replicate waiting TurnDatagrams ++ replicate (length (tasks s) + waiting) (RunTask 0 now) in
  let s' := serve_events own s in
  (forall domain d vk, (get_dns_vk domain d).1 = Some vk -> Auth domain vk) ->
  cn_inv (ctx_nodes context) -> queued queue = [] ->
  accepted s ≡ₚ queued (requests s) ++ omap task_request (tasks s) ++ (outcomes s).*1 /\
  (forall request datagram to, (request, Some (datagram, to)) ∈ outcomes s ->
     to = req_from request /\ exists reply, datagram = frame_reply (req_id request) reply) /\
  cn_inv (ctx_nodes (srv_context s)) /\
  rtc (commit_step Auth) (ctx_values context) (ctx_values (srv_context s)) /\
  (datagrams_open s = true ->
   queued (requests s') = [] /\ tasks s' = [] /\ (outcomes s').*1 ≡ₚ accepted s).
Proof.
  intros s waiting own s' Hdns Hinv Hq.
  assert (server_ok Auth (ctx_values context) s) as Hok.
  { apply serve_events_ok; [done|]. split; [by unfold conserved; cbn; rewrite Hq| |done|apply rtc_refl].
    intros r d to Hin. cbn in Hin. set_solver. }
  pose proof Hok as [Hc Ha Ht Hv]. split_and!; [done..|]. intros Ho.
  by apply (all_served Auth Hdns (ctx_values context)).
Qed.

(** A socket that remembers what it sent. *)
#[export] Instance outbox : DataRxTx (list (bytes * SocketAddr)) := {
  send_packet payload to := fun sent => (Ok tt, sent ++ [(payload, to)]);
  receive_packet _ := mret (Err (MkIoError TimedOut "nothing"))
}.

Lemma server_answers_all_witness :
  let start : Server DumbBucket unit (list (bytes * SocketAddr)) Pipe :=
    serve (context_new (nid 7) (MkDumb []) tt) (MkRequestQueue 2 [] true) [] in
  let s := serve_events [Arrives ex_store; TurnStreams (Err (MkIoError TimedOut "aborted")); Arrives ex_store] start in
  accepted s = [ex_store; ex_store] /\
  (fst <$> outcomes (serve_events ([TurnDatagrams; TurnDatagrams] ++ [RunTask 0 5%N; RunTask 0 5%N]) s)) ≡ₚ accepted s.
Proof.
  cbv zeta. split; [by vm_compute|].
  refine (proj2 (proj2 (proj2 (proj2 (proj2 (proj2 (server_answers_all (A := DumbBucket) (D := unit)
    (T := list (bytes * SocketAddr)) (S := Pipe) only_ex (context_new (nid 7) (MkDumb []) tt) (MkRequestQueue 2 [] true) []
    [Arrives ex_store; TurnStreams (Err (MkIoError TimedOut "aborted")); Arrives ex_store] 5%N
    one_owner_auth _ eq_refl)))) _))); [|by vm_compute]. by cbn; auto with kad.
Defined.

(** ** The program *)

(** C39: the program starts a node exactly when its words are an optional
    [--fake-dns], an address to bind and an optional seed, each in the form the
    standard library parses; and the text it prints of any address, typed back,
    is read as that address, except for the flow label of an IPv6 address,
    which is not printed: distinct addresses have distinct texts up to it. *)
Theorem program_arguments (args : list string) (fake : bool) (bind seed a b : SocketAddr) :
  (parse_args args = ArgsStart fake bind None <->
   exists text, args = words_of fake text None /\ parse_socket_addr text = Some bind) /\
  (parse_args args = ArgsStart fake bind (Some seed) <->
   exists text seed_text, args = words_of fake text (Some seed_text) /\
     parse_socket_addr text = Some bind /\ parse_socket_addr seed_text = Some seed) /\
  parse_args (words_of fake (socket_to_string a) (Some (socket_to_string b))) =
    ArgsStart fake (without_flow a) (Some (without_flow b)) /\
  (socket_to_string a = socket_to_string b -> without_flow a = without_flow b).
Proof.
  split; [|split; [|split]].
  - rewrite parse_args_start. split.
    + intros (text & [st|] & ? & ? & ?); [done|]. eauto.
    + intros (text & ? & ?). exists text, None. done.
  - rewrite parse_args_start. split.
    + intros (text & [st|] & ? & ? & ?); [|done]. eauto.
    + intros (text & st & ? & ? & ?). exists text, (Some st). done.
  - apply parse_args_start. eexists _, (Some _). split; [done|]. by rewrite !parse_socket_text.
  - intros Heq. pose proof (parse_socket_text a) as Ha. rewrite Heq, parse_socket_text in Ha. by injection Ha.
Qed.

Lemma program_arguments_witness :
  socket_to_string (naddr 1) = "127.0.0.1:4000"%string /\
  parse_args (words_of true "127.0.0.1:4000" (Some "127.0.0.1:4000"%string)) =
    ArgsStart true (naddr 1) (Some (naddr 1)) /\
  without_flow (naddr 1) = without_flow (naddr 1).
Proof.
  split; [by vm_compute|].
  pose proof (program_arguments [] true (naddr 1) (naddr 1) (naddr 1) (naddr 1)) as (_ & _ & H & H').
  split; [exact H|exact (H' eq_refl)].
Defined.

(** C8: whatever the terminal, the files, the peers and the network do, a
    session of the program, from its arguments to its end, keeps a routing table
    that answers every query with at most [K] contacts nearest first, and holds
    only values under their own keys and pointers with a verified history.  A
    node runs exactly when the logger starts, the arguments parse and both
    sockets bind; and of the files there were when the logger had started, only
    those that the user names in a [get KEY FILENAME] can change, except that
    [metrics.log], where the lookups log, can grow at its end.  (While the node
    waits, for its peers or for a line, its own tasks act on it and nobody
    else.) *)
Theorem program_session_safe `{Sha256} `{Ed25519} `{CodecLaws} `{Hex} `{DomainName} {R W F : Type} `{!Resolver R}
    `{Clock W} `{FilesLaws F} (Auth : string -> VerifyingKey -> Prop)
    (pick : NodeWorld (DnsBackend (R := R)) W -> nat)
    (rand_id : M (Env RecommendedCloseNodes (NodeWorld (DnsBackend (R := R)) W)) NodeId)
    (iter : gmap Key Value -> list (Key * Value)) (env_var : string -> option string)
    (decode_limited : bytes -> option (Signed VersionRecord))
    (idle : Node -> M (Env RecommendedCloseNodes (NodeWorld (DnsBackend (R := R)) W)) unit)
    (make_rpc : Node -> Rpc RecommendedCloseNodes (NodeWorld (DnsBackend (R := R)) W))
    (udp_bind : SocketAddr -> result IoError SocketAddr) (tcp_bind : SocketAddr -> result IoError unit)
    (resolver : R) (io_error_text : IoError -> string) (setup : result string unit) (args : list string)
    (lookups : u64) (outside : W) (files : F) (input : list Input) :
  let r := main pick rand_id iter env_var decode_limited idle make_rpc udp_bind tcp_bind resolver io_error_text
             setup args lookups outside files input in
  (forall domain (d : DnsBackend (R := R)) vk, (get_dns_vk domain d).1 = Some vk -> Auth domain vk) ->
  (forall n p a, backgrounded Auth n (transport (make_rpc n) p a)) ->
  (forall n p a, backgrounded Auth n (robust_transport (make_rpc n) p a)) ->
  (forall n, backgrounded Auth n rand_id) -> (forall n, backgrounded Auth n (idle n)) ->
  (is_Some r.2 <-> setup = Ok tt /\ exists fake bind seed address,
     parse_args args = ArgsStart fake bind seed /\ udp_bind bind = Ok address /\ tcp_bind address = Ok tt) /\
  forall s, r.2 = Some s ->
    (forall now t, length (close_nodes now t (table (sh_node s))).1 <= K /\
       StronglySorted (near_le t) (close_nodes now t (table (sh_node s))).1) /\
    values_ok Auth (nw_values (world (sh_node s))) /\
    forall path bs, ~ named_by input path -> contents files !! path = Some bs ->
      exists more, contents (sh_files s) !! path = Some (bs ++ more) /\ (path <> METRICS_LOG -> more = []).
Proof.
  intros r Hdns Ht Hr Hrand Hidle. subst r. unfold main.
  destruct setup as [[]|e]; [|split; [split; [by intros []|by intros []]|done]].
  destruct (parse_args args) as [| |fake bind seed];
    [split; [split; [by intros []|by intros (_ & ? & ? & ? & ? & ? & _)]|done]..|].
  unfold bind_with_dns. destruct (udp_bind bind) as [address|e] eqn:Hu;
    [|split; [split; [by intros []|intros (_ & ? & ? & ? & ? & [= <- <- <-] & Hu' & _); congruence]|done]].
  cbn [mbind result_bind]. destruct (tcp_bind address) as [[]|e] eqn:Htcp;
    [|split; [split; [by intros []|intros (_ & ? & ? & ? & ? & [= <- <- <-] & Hu' & ?); congruence]|done]].
  split; [split; [eauto 10|eauto]|]. cbn [mbind result_bind node_start fst snd]. intros s [= <-].
  set (n := MkNode _ address). set (e0 := MkEnv _ _ _ _).
  set (session := node_session _ _ _ _ _ _ _ _ _ _ _).
  assert (inside (env_ok (committed Auth ∅)) (session (MkShell e0 files [])).2) as [Htab Hval].
  { apply (keeps_session pick rand_id iter env_var decode_limited idle make_rpc io_error_text Auth Hdns n (Ht n) (Hr n)
      (Hrand n) (Hidle n) ∅ seed input). split; [apply recommended_inv|apply rtc_refl]. }
  split; [intros now t; split; [by apply cn_query_length|by apply cn_query_sorted]|].
  split; [eapply commits_ok; [apply Hval|]; intros k v; by rewrite lookup_empty|].
  refine (session_untouched pick rand_id iter env_var decode_limited idle make_rpc io_error_text n seed input (contents files) _ _).
  intros path bs _ Hp. exists []. by rewrite app_nil_r.
Qed.

(** ** Files *)

(** C14: what [install] and [get KEY FILENAME] do to the files. First they look up,
    and of the files that were there [metrics.log] may grow at its end. After that
    [install] leaves every file that is there alone: if it makes a file, then the
    name was free and what is in the file is the beginning of a package that the
    owner of the domain signed; and where writes report their failures, if it says
    that the package is installed then the name was free and the file holds the
    whole package. [get KEY FILENAME] writes to that file the beginning of a value
    of that key, and nothing else. *)
Theorem file_commands_safe `{Sha256} `{Ed25519} `{Codec} `{Hex} `{DomainName} {R W F : Type} `{!Resolver R}
    `{Clock W} `{FilesLaws F} (pick : NodeWorld (DnsBackend (R := R)) W -> nat)
    (rpc : Rpc RecommendedCloseNodes (NodeWorld (DnsBackend (R := R)) W)) (identifier : string) (output : option string)
    (key filename : string) (s : Shell (Env RecommendedCloseNodes (NodeWorld (DnsBackend (R := R)) W)) F) :
  let before := contents (sh_files s) in
  let s1 := (install_command pick rpc identifier output s).2 in
  let s2 := (get_to_file_command pick rpc key filename s).2 in
  let named_file domain package (installed : InstalledPackage) :=
    default (default_install_filename domain package (ip_version installed)) output in
  (exists looked, logged before looked /\
   (contents (sh_files s1) = looked \/
    exists domain package requested installed owner record part,
     let file := named_file domain package installed in
     parse_install_name identifier = Ok (domain, package, requested) /\
     (install_package pick rpc node_dns domain package requested (sh_node s)).1 = Ok installed /\
     (node_dns domain (sh_node s)).1 = Some owner /\ verify record owner = true /\
     vr_domain (body record) = domain /\ vr_package (body record) = package /\
     vr_version (body record) = ip_version installed /\ vr_blob_hash (body record) = key_for_value (ip_blob installed) /\
     looked !! file = None /\ contents (sh_files s1) = <[file := part]> looked /\ part `prefix_of` ip_blob installed)) /\
  (forall domain package requested installed,
     let file := named_file domain package installed in
     parse_install_name identifier = Ok (domain, package, requested) ->
     (install_package pick rpc node_dns domain package requested (sh_node s)).1 = Ok installed ->
     prompt_writes F -> sh_out s1 = (sh_out s ++ installed_lines domain package file installed)%list ->
     exists looked, logged before looked /\ looked !! file = None /\
       contents (sh_files s1) = <[file := ip_blob installed]> looked) /\
  (exists looked, logged before looked /\
   (contents (sh_files s2) = looked \/
    exists value part, parse_key key = Ok (key_for_value value) /\ part `prefix_of` value /\
      contents (sh_files s2) = <[filename := part]> looked)).
Proof.
  intros before s1 s2 named_file. split; [|split].
  - destruct (install_command_files pick rpc identifier output s) as (looked & Hl & Hafter). exists looked. split; [done|].
    destruct Hafter as [?|(d & p & v & inst & Hp & Hi & Hs)]; [by left|].
    pose proof (install_sound pick rpc node_dns d p v (sh_node s) inst Hi) as
      (owner & r & Hd & Hv & _ & Hrd & Hrp & Hrv & Hrb & _).
    destruct Hs as [?|(Hnone & part & Hpart & Hafter)]; [by left|right].
    exists d, p, v, inst, owner, r, part. by split_and!.
  - intros d p v inst file Hp Hi Hprompt Hout. by apply (install_command_saves pick rpc identifier output s d p v inst).
  - destruct (get_to_file_files pick rpc key filename s) as (looked & Hl & Hafter). exists looked. split; [done|].
    destruct Hafter as [?|(k & value & part & Hk & Hh & Hp & Hafter)]; [by left|right].
    exists value, part. rewrite Hh. done.
Qed.

(** Files in memory, where every write happens at once. *)
#[export] Instance mem_files : Files (gmap string bytes) := {
  fs_read path := fun m => ok_or "No such file or directory (os error 2)"%string (m !! path);
  fs_write path bs := fun m => (Ok tt, <[path := bs]> m);
  fs_create_new path := fun m =>
    match m !! path with
    | Some _ => (Err "File exists (os error 17)"%string, m)
    | None => (Ok tt, <[path := []]> m)
    end;
  file_write_all path bs := fun m => (Ok tt, <[path := bs]> m);
  fs_remove_file path := fun m => (Ok tt, delete path m);
  fs_append path bs := fun m =>
    match m !! path with
    | Some old => (Ok tt, <[path := (old ++ bs)%list]> m)
    | None => (Err "no such file"%string, m)
    end
}.

#[export] Instance mem_laws : FilesLaws (gmap string bytes).
Proof.
  refine {| contents m := m |}.
  - intros path m bs. cbn. by destruct (m !! path); [intros [= ->]|].
  - done.
  - intros path m. cbn. by destruct (m !! path).
  - intros path bs m _. by exists bs.
  - done.
  - intros path bs m. cbn. destruct (m !! path) as [old|] eqn:Hold; [right|by left]. by exists old, bs.
Defined.

(** A node that reaches the network of [ex_published] and asks real DNS. *)
Abbreviation ExWorld := (NodeWorld (DnsBackend (R := unit)) unit).
Abbreviation ExEnv := (Env RecommendedCloseNodes ExWorld).

Definition replay : RpcTransport RecommendedCloseNodes ExWorld :=
  fun payload to e => ((net_transport (naddr 9) true payload to ex_published).1, e).
Definition replay_rpc : Rpc RecommendedCloseNodes ExWorld := MkRpc (nc 9) replay replay.

Definition ex_start : ExEnv := (node_start (naddr 9) (Real (MkDns tt)) (wrap 64 1) tt).2.
Definition ex_shell : Shell ExEnv (gmap string bytes) :=
  MkShell (offer_contact (nc 1) ex_start).2 (<[METRICS_LOG := []]> {[ "notes.txt"%string := [x41] ]}) [].

(** The package is in its file, the notes are as they were, the metrics have grown. *)
Example ex_install_changes :
  let files := contents (sh_files (install_command (fun _ => 0) replay_rpc "example.test:tool:1.0.0"
    (Some "tool.bin"%string) ex_shell).2) in
  files !! "tool.bin"%string = Some [x01] /\ files !! "notes.txt"%string = Some [x41] /\
  (0 <? length (default [] (files !! METRICS_LOG))) = true.
Proof. by vm_compute. Qed.

Lemma file_commands_safe_witness :
  let s1 := (install_command (fun _ => 0) replay_rpc "example.test:tool:1.0.0" (Some "tool.bin"%string) ex_shell).2 in
  exists looked, logged (contents (sh_files ex_shell)) looked /\ looked !! "tool.bin"%string = None /\
    contents (sh_files s1) = <["tool.bin"%string := [x01]]> looked.
Proof.
  cbv zeta.
  apply (proj1 (proj2 (file_commands_safe (fun _ => 0) replay_rpc "example.test:tool:1.0.0" (Some "tool.bin"%string)
    "" "" ex_shell)) "example.test"%string "tool"%string (Some v100) (MkInstalled v100 (key_for_value [x01]) [x01])).
  - by vm_compute.
  - by vm_compute.
  - by intros path bs f Hf _.
  - by vm_compute.
Defined.

(** A session in which a peer never answers. *)
Definition silent : RpcTransport RecommendedCloseNodes ExWorld := fun _ _ => mret (Err (MkIoError TimedOut "no answer")).
Definition any_owner (domain : string) (vk : VerifyingKey) : Prop :=
  exists d : DnsBackend (R := unit), (get_dns_vk domain d).1 = Some vk.

Definition ex_session : Ended * option (Shell ExEnv (gmap string bytes)) :=
  main (fun _ => 0) (mret (nid 1)) map_to_list (fun _ => None) (fun _ => None) (fun _ => mret tt)
    (fun n => MkRpc (contact n) silent silent) Ok (fun _ => Ok tt) tt message
    (Ok tt) ["127.0.0.7:4000"%string] (wrap 64 1) tt (<[METRICS_LOG := []]> {[ "notes.txt"%string := [x41] ]})
    [Line "put notes.txt"; Line "get 00 notes.txt"; Line "exit"].

(** A session that stores a file and types a key that is none. *)
Lemma program_session_safe_witness :
  exists s more, ex_session.2 = Some s /\ values_ok any_owner (nw_values (world (sh_node s))) /\
    contents (sh_files s) !! METRICS_LOG = Some more.
Proof.
  destruct (program_session_safe any_owner (fun _ => 0) (mret (nid 1)) map_to_list (fun _ => None)
    (fun _ => None) (fun _ => mret tt) (fun n => MkRpc (contact n) silent silent) Ok (fun _ => Ok tt) tt message (Ok tt)
    ["127.0.0.7:4000"%string] (wrap 64 1) tt
    (<[METRICS_LOG := []]> {[ "notes.txt"%string := [x41] ]} : gmap string bytes)
    [Line "put notes.txt"; Line "get 00 notes.txt"; Line "exit"]) as [Hruns Hsafe];
    [by intros d b vk; exists b|intros; intros ?; apply rtc_refl..|].
  destruct (proj2 Hruns) as [s Hs].
  - split; [reflexivity|]. exists false, (naddr 7), None, (naddr 7). split; [by vm_compute|]. split; reflexivity.
  - destruct (Hsafe s Hs) as (_ & Hv & Hf). destruct (Hf METRICS_LOG []) as (more & Hm & _).
    + intros (line & Hin & Hname).
      repeat (apply elem_of_cons in Hin as [Hin|Hin]; [injection Hin as ->; by vm_compute in Hname|]).
      by apply not_elem_of_nil in Hin.
    + reflexivity.
    + exists s, more. split; [exact Hs|]. split; [exact Hv|exact Hm].
Defined.

(** ** A write that fails late *)

(** Files whose last write fails after [write_all] has returned, as on a full
    disk with a [tokio] file that is dropped without a flush. *)
Record LateFiles : Type := MkLate { on_disk : gmap string bytes }.

#[export] Instance late_files : Files LateFiles := {
  fs_read path := fun f => fs_read path (on_disk f);
  fs_write path bs := fun f => (Err "No space left on device (os error 28)"%string, f);
  fs_create_new path := fun f => let r := fs_create_new path (on_disk f) in (r.1, MkLate r.2);
  file_write_all path bs := fun f => (Ok tt, f);
  fs_remove_file path := fun f => (Ok tt, MkLate (delete path (on_disk f)));
  fs_append path bs := fun f => (Err "No space left on device (os error 28)"%string, f)
}.

#[export] Instance late_laws : FilesLaws LateFiles.
Proof.
  refine {| contents f := on_disk f |}.
  - intros path f bs. cbn. by destruct (on_disk f !! path); [intros [= ->]|].
  - intros path bs f. by left.
  - intros path f. cbn. by destruct (on_disk f !! path).
  - intros path bs f Hf. exists []. split; [apply prefix_nil|]. by rewrite insert_id.
  - done.
  - intros path bs f. by left.
Defined.

(** C40: a package can be reported as installed while its file is empty: the
    write is handed over to another thread and its failure has nowhere to go,
    since the file is dropped without being flushed. *)
Theorem install_reports_unwritten `{Hex} (domain package filename : string) (installed : InstalledPackage)
    {R W : Type} (s : Shell (Env RecommendedCloseNodes (NodeWorld (DnsBackend (R := R)) W)) LateFiles) :
  let s' := (save_installed domain package filename installed s).2 in
  contents (sh_files s) !! filename = None ->
  sh_out s' = sh_out s ++ installed_lines domain package filename installed /\
  contents (sh_files s') = <[filename := []]> (contents (sh_files s)).
Proof.
  intros s' Hnone. subst s'. unfold save_installed. mstep. cbn [on_files fst snd].
  cbn in Hnone. cbn [fs_create_new late_files mem_files]. rewrite Hnone. cbn [fst snd]. mstep.
  cbn [on_files fst snd file_write_all late_files]. mstep. cbn [println print modify sh_out sh_files snd].
  split; [|done]. by rewrite <- !app_assoc.
Qed.

Lemma install_reports_unwritten_witness :
  let s : Shell ExEnv LateFiles := MkShell ex_start (MkLate ∅) [] in
  contents (sh_files (save_installed "example.test" "tool" "tool.bin" (MkInstalled v100 (key_for_value [x01]) [x01]) s).2)
  = <["tool.bin"%string := []]> ∅.
Proof.
  refine (proj2 (install_reports_unwritten "example.test" "tool" "tool.bin" (MkInstalled v100 (key_for_value [x01]) [x01])
    (MkShell ex_start (MkLate ∅) []) eq_refl)).
Defined.
