(* ===== verification/Sha256Digest.v ===== *)
(** * Sha256Digest: SHA-256 itself

    The digest of FIPS 180-4, executable, as an instance of the parameter
    [Sha256] of [Crates].  It is used to run the program's tests with the hash
    they were written for. *)

From S2P Require Import Prelude Slices Machine Crates Instances.

Local Open Scope N_scope.

Definition w32 (n : N) : N := N.land n (N.ones 32).
Definition rotr (k n : N) : N := N.lor (N.shiftr n k) (w32 (N.shiftl n (32 - k))).

Definition round_constants : list N :=
  [1116352408; 1899447441; 3049323471; 3921009573; 961987163; 1508970993; 2453635748; 2870763221;
   3624381080; 310598401; 607225278; 1426881987; 1925078388; 2162078206; 2614888103; 3248222580;
   3835390401; 4022224774; 264347078; 604807628; 770255983; 1249150122; 1555081692; 1996064986;
   2554220882; 2821834349; 2952996808; 3210313671; 3336571891; 3584528711; 113926993; 338241895;
   666307205; 773529912; 1294757372; 1396182291; 1695183700; 1986661051; 2177026350; 2456956037;
   2730485921; 2820302411; 3259730800; 3345764771; 3516065817; 3600352804; 4094571909; 275423344;
   430227734; 506948616; 659060556; 883997877; 958139571; 1322822218; 1537002063; 1747873779;
   1955562222; 2024104815; 2227730452; 2361852424; 2428436474; 2756734187; 3204031479; 3329325298]%N.

Definition initial_hash : list N :=
  [1779033703; 3144134277; 1013904242; 2773480762; 1359893119; 2600822924; 528734635; 1541459225]%N.

(** The message with its padding, and its words in blocks of sixteen. *)
Definition pad (message : bytes) : bytes :=
  let zeros := (119 - N.of_nat (length message) mod 64) mod 64 in
  (message ++ x80 :: replicate (N.to_nat zeros) x00 ++ be_bytes 8 (8 * N.of_nat (length message)))%list.

Fixpoint words (fuel : nat) (l : bytes) : list N :=
  match fuel with
  | O => []
  | S fuel => match l with [] => [] | _ => be_val (take 4 l) :: words fuel (drop 4 l) end
  end.

(** The schedule, newest word first. *)
Definition next_word (w : list N) : N :=
  let at_ i := default 0 (w !! i) in
  let x := at_ 14%nat in
  let y := at_ 1%nat in
  let s0 := N.lxor (N.lxor (rotr 7 x) (rotr 18 x)) (N.shiftr x 3) in
  let s1 := N.lxor (N.lxor (rotr 17 y) (rotr 19 y)) (N.shiftr y 10) in
  w32 (at_ 15%nat + s0 + at_ 6%nat + s1).

Fixpoint schedule (n : nat) (w : list N) : list N :=
  match n with O => w | S n => schedule n (next_word w :: w) end.

Definition sha_round (h : list N) (kw : N * N) : list N :=
  match h with
  | [a; b; c; d; e; f; g; hh] =>
      let s1 := N.lxor (N.lxor (rotr 6 e) (rotr 11 e)) (rotr 25 e) in
      let ch := N.lxor (N.land e f) (N.land (N.lxor e (N.ones 32)) g) in
      let t1 := hh + s1 + ch + kw.1 + kw.2 in
      let s0 := N.lxor (N.lxor (rotr 2 a) (rotr 13 a)) (rotr 22 a) in
      let maj := N.lxor (N.lxor (N.land a b) (N.land a c)) (N.land b c) in
      [w32 (t1 + s0 + maj); a; b; c; w32 (d + t1); e; f; g]
  | _ => h
  end.

Definition compress (h block : list N) : list N :=
  let w := rev (schedule 48 (rev block)) in
  zip_with (fun a b => w32 (a + b)) h (foldl sha_round h (zip round_constants w)).

Fixpoint digest_blocks (fuel : nat) (h ws : list N) : list N :=
  match fuel with
  | O => h
  | S fuel => match ws with [] => h | _ => digest_blocks fuel (compress h (take 16 ws)) (drop 16 ws) end
  end.

Definition digest_value (message : bytes) : N :=
  let padded := pad message in
  let ws := words (length padded) padded in
  foldl (fun acc x => acc * 2 ^ 32 + x) 0 (digest_blocks (length ws) initial_hash ws).

Definition sha256 (message : bytes) : array 32 := be_array 32 (digest_value message).

#[export] Instance fips_sha256 : Sha256 := sha256.

Example sha256_empty :
  be_val (elems (sha256 [])) = 0xe3b0c44298fc1c149afbf4c8996fb92427ae41e4649b934ca495991b7852b855.
Proof. by vm_compute. Qed.
