(* ===== verification/Replay.v ===== *)
(** * Replay: running the repository's own tests on the model

    The unit tests of [src/] are statements about concrete runs, so the model can
    run them: each test becomes a definition with the name of the test, the list
    of its assertions in order ([None] where an [unwrap] of the test would
    panic), and an example computes that all of them hold.  This file has what
    the tests share; the other files of this name hold the tests, by the part of
    the program they test. *)

From Stdlib Require Import Strings.Ascii.
From S2P Require Import Prelude Slices Machine Contacts Text Crates Package Wire DnsKeys Instances.

(** The assertions of a test. *)
Definition test : Type := option (list bool).

Definition passes (t : test) : bool :=
  match t with Some assertions => forallb (fun b => b) assertions | None => false end.

(** [assert_eq!] and [assert_ne!]. *)
Definition assert_eq {A} `{EqDecision A} (left right : A) : bool := bool_decide (left = right).
Definition assert_ne {A} `{EqDecision A} (left right : A) : bool := negb (bool_decide (left = right)).

(** [Result::unwrap]. *)
Definition unwrap {E A} (r : result E A) : option A := match r with Ok a => Some a | Err _ => None end.

(** [[b; 32]]. *)
Definition all_bytes (b : byte) : array 32 := be_array 32 (be_val (replicate 32 b)).

(** An id that starts with [b] and is zero otherwise, at a local port. *)
Definition first_byte_id (b : N) : NodeId := be_array 32 (b * 2 ^ 248).
Definition localhost_port (port : N) : SocketAddr := V4 (be_array 4 2130706433) (wrap 16 port).
Definition port_of (a : SocketAddr) : N := match a with V4 _ port | V6 _ port _ _ => uval port end.

(** [c.id[0]]. *)
Definition first_byte (c : Contact) : N := match elems (id c) with b :: _ => Byte.to_N b | [] => 0 end.

(** ** Keys *)

(** Signatures as in [Instances], except that the keys of the program's own test
    table have the public keys it lists. *)
Definition public_key (secret : array 32) : array 32 :=
  default secret (find_map (fun k =>
    s ← decode_to_slice 32 (as_bytes (fk_secret k));
    if bool_decide (s = secret) then decode_to_slice 32 (as_bytes (fk_public k)) else None) FAKE_KEYS).

#[export] Instance replay_ed25519 : Ed25519 := {|
  SigningKey := array 32;
  VerifyingKey := array 32;
  Signature := array 32 * bytes;
  verifying_key := public_key;
  sk_from_bytes k := k;
  sk_sign k m := (public_key k, m);
  sig_to_bytes s := elems s.1 ++ s.2;
  sig_from_slice l := '(a, b) ← split_at_checked 32 l; k ← array_of 32 a; Some (k, b);
  vk_verify v m s := bool_decide (v = s.1) && bool_decide (m = s.2);
  vk_to_bytes v := v;
  vk_from_bytes v := Some v
|}.

#[export] Instance replay_ed25519_laws : Ed25519Laws.
Proof.
  split.
  - intros [k m]. cbn. rewrite split_at_app by apply array_length. cbn. by rewrite array_of_elems.
  - intros k m. cbn. by rewrite !bool_decide_true.
  - done.
Qed.

Definition version (s : string) : option Version := unwrap (version_from_str s).

(** ** Domain names *)

(** As in the [domain] crate: no empty label, and case does not matter. *)
Definition lower_ascii (c : ascii) : ascii :=
  let n := N_of_ascii c in if (65 <=? n)%N && (n <=? 90)%N then ascii_of_N (n + 32) else c.

Definition lower (s : string) : string := String.string_of_list_ascii (lower_ascii <$> String.list_ascii_of_string s).

#[export] Instance replay_names : DomainName := {|
  Name := string;
  name_from_str s := if existsb (String.eqb EmptyString) (split_on "."%char s) then None else Some s;
  name_eq a b := String.eqb (lower a) (lower b)
|}.
