(* ===== verification/ReplayHashing.v ===== *)
(** * ReplayHashing: the tests of the hashes

    The tests of [src/hashing.rs], with SHA-256 itself for the hash. *)

From S2P Require Import Prelude Slices Machine Contacts Text Crates Address AddressParse Package Wire Instances Sha256Digest Replay.

Local Open Scope string_scope.

Definition sha256_matches_known_vector : test :=
  Some [ assert_eq (be_val (elems (hash_bytes (as_bytes "abc"))))
           0xba7816bf8f01cfea414140de5dae2223b00361a396177a9cb410ff61f20015ad%N ].

Definition value_key_is_sha256_of_value : test :=
  let value := as_bytes "hello kademlia" in
  Some [ assert_eq (key_for_value value) (hash_bytes value) ].

Definition node_id_is_hash_of_ip_and_port : test :=
  address ← parse_socket_addr "127.0.0.1:8000";
  Some [ assert_eq (node_id_from_address address) (hash_bytes (as_bytes "127.0.0.1:8000")) ].

Example hashing_tests_pass :
  forallb passes [ sha256_matches_known_vector; value_key_is_sha256_of_value; node_id_is_hash_of_ip_and_port ] = true.
Proof. by vm_compute. Qed.
