(* ===== verification/ReplayRouting.v ===== *)
(** * ReplayRouting: the tests of the routing tables

    The tests of [src/close_nodes/]: [dumb_bucket.rs], [static_bucket.rs],
    [sibling_list.rs] and [cache.rs].  A test that only checks that no lock is
    held, or that two threads do not deadlock, keeps its assertions on values:
    every operation of the model is one step. *)

From S2P Require Import Prelude Slices Machine Contacts DumbBucket StaticBucket SiblingList Cache Instances Replay.

Definition test_contact (first : N) (port : N) : Contact := MkContact (first_byte_id first) (localhost_port port).

Definition zero_id : NodeId := first_byte_id 0.

Definition add_contacts {A} `{CloseNodes A} (l : list Contact) (table : A) : A :=
  foldl (fun t c => maybe_add_contact c t) table l.

(** [v.sort()] and [v.dedup()] on bytes. *)
Definition sorted (l : list N) : list N := sort_by N.compare l.
Definition sorted_dedup (l : list N) : list N := dedup_by N.eqb (sorted l).

Definition close_now {A} `{CloseNodes A} (t : NodeId) (table : A) : list Contact := (close_nodes 0%N t table).1.

(** ** [dumb_bucket.rs] *)

Definition dumb_contacts_iter_yields_every_contact : test :=
  let table := MkDumb [] in
  let table' := add_contacts [test_contact 128 1000; test_contact 64 1000] table in
  Some [ assert_eq (length (contacts_iter table)) 0;
         assert_eq (first_byte <$> contacts_iter table') [128; 64]%N ].

Definition dumb_remove_contact_removes_only_that_contact : test :=
  let table := add_contacts [test_contact 128 1000; test_contact 64 1000] (MkDumb []) in
  let table1 := remove_contact (test_contact 128 1001) table in
  let table2 := remove_contact (test_contact 128 1000) table1 in
  Some [ assert_eq (length (contacts_iter table1)) 2;
         assert_eq (first_byte <$> contacts_iter table2) [64]%N ].

(** ** [static_bucket.rs] *)

Definition leading_zeros_counts_whole_id : test :=
  let id2 := be_array 32 (2 ^ 232) in
  Some [ assert_eq (leading_zeros zero_id) 256;
         assert_eq (leading_zeros (all_bytes x80)) 0;
         assert_eq (leading_zeros id2) 23 ].

Definition bucket_index_grows_with_shared_prefix_and_clamps : test :=
  let table : StaticBucket 2 0 8 := static_new zero_id in
  Some [ assert_eq (bucket_index table (id (test_contact 128 0))) 0;
         assert_eq (bucket_index table (id (test_contact 64 0))) 1;
         assert_eq (bucket_index table zero_id) 7 ].

Definition close_nodes_widens_past_the_home_bucket : test :=
  let table : StaticBucket 4 0 8 :=
    add_contacts ([0; 1; 2; 3]%N ≫= fun i => [test_contact (N.lor 128 i) (1000 + i); test_contact (N.lor 64 i) (2000 + i)])
      (static_new zero_id) in
  let close := close_now (id (test_contact 128 0)) table in
  Some [ assert_eq (length close) 8;
         assert_eq (id <$> head close) (Some (id (test_contact 128 0))) ].

Definition maybe_add_contact_refreshes_address_and_ignores_self : test :=
  let table : StaticBucket 4 0 8 := add_contacts [test_contact 128 1000; test_contact 128 1001] (static_new zero_id) in
  let close := close_now (id (test_contact 128 0)) table in
  let table' := maybe_add_contact (MkContact zero_id (localhost_port 9)) table in
  Some [ assert_eq (length close) 1;
         assert_eq (port_of ∘ address <$> head close) (Some 1001%N);
         assert_eq (length (close_now zero_id table')) 1 ].

Definition ids {A} `{CloseNodes A} (table : A) : list N := sorted (first_byte <$> contacts_iter table).

Definition contacts_iter_yields_every_bucket : test :=
  let table : StaticBucket 2 0 8 := static_new zero_id in
  let table' := add_contacts ((fun b => test_contact b 1000) <$> [128; 129; 64; 1]%N) table in
  Some [ assert_eq (ids table) [];
         assert_eq (ids table') [1; 64; 128; 129]%N ].

(** The iterator is the list of its chunks: bucket 1 is read once it is reached. *)
Definition contacts_iter_locks_a_bucket_only_while_cloning_it : test :=
  let table : StaticBucket 2 0 8 := add_contacts [test_contact 128 1000; test_contact 64 1000] (static_new zero_id) in
  match contacts_chunks table with
  | bucket0 :: rest =>
      let table' := maybe_add_contact (test_contact 65 1000) (remove_contact (test_contact 64 1000) table) in
      Some [ assert_eq (first_byte <$> bucket0 table) [128]%N;
             assert_eq (first_byte <$> mjoin ((fun chunk => chunk table') <$> rest)) [65]%N ]
  | [] => None
  end.

Definition remove_contact_frees_its_slot : test :=
  let table : StaticBucket 2 0 8 := add_contacts ((fun b => test_contact b 1000) <$> [128; 129; 130]%N) (static_new zero_id) in
  let table' := maybe_add_contact (test_contact 130 1000) (remove_contact (test_contact 128 1000) table) in
  Some [ assert_eq (ids table) [128; 129]%N;
         assert_eq (ids table') [129; 130]%N ].

Definition remove_contact_needs_the_exact_contact : test :=
  let table : StaticBucket 2 0 8 := maybe_add_contact (test_contact 128 1000) (static_new zero_id) in
  let table1 := remove_contact (test_contact 128 1001) (remove_contact (test_contact 129 1000) table) in
  let table2 := remove_contact (test_contact 128 1000) table1 in
  Some [ assert_eq (ids table1) [128]%N;
         assert_eq (ids table2) [] ].

(** ** [sibling_list.rs] *)

Abbreviation sibling_table := (SiblingList (StaticBucket 2 0 4) 3).

Definition new_sibling_table : sibling_table := sibling_new zero_id (static_new zero_id).

Definition keeps_the_closest_and_drops_the_rest : test :=
  let table := add_contacts ((fun b => test_contact b 1000) <$> [128; 1; 64; 2; 4]%N) new_sibling_table in
  Some [ assert_eq (first_byte <$> siblings table) [1; 2; 4]%N ].

Definition survives_eviction_from_the_fallback : test :=
  let table := add_contacts ((fun b => test_contact b 1000) <$> [1; 2; 4]%N) new_sibling_table in
  Some [ assert_eq (first_byte <$> close_now zero_id table) [1; 2; 4]%N ].

Definition merges_without_duplicating : test :=
  let table := maybe_add_contact (test_contact 1 1000) new_sibling_table in
  let table' := maybe_add_contact (test_contact 1 1001) table in
  Some [ assert_eq (length (close_now zero_id table)) 1;
         assert_eq (port_of ∘ address <$> head (siblings table')) (Some 1001%N) ].

Definition contacts_iter_covers_siblings_and_fallback : test :=
  let table := add_contacts ((fun b => test_contact b 1000) <$> [4; 2; 1; 128]%N) new_sibling_table in
  Some [ assert_eq (sorted_dedup (first_byte <$> contacts_iter table)) [1; 2; 4; 128]%N ].

Definition remove_contact_reaches_the_fallback : test :=
  let table := add_contacts [test_contact 1 1000; test_contact 128 1000] new_sibling_table in
  let table' := remove_contact (test_contact 1 1000) table in
  Some [ assert_eq (first_byte <$> siblings table') [128]%N;
         forallb (fun c => assert_ne (first_byte c) 1%N) (contacts_iter (sl_fallback table'));
         assert_eq (close_now zero_id table') [test_contact 128 1000] ].

(** ** [cache.rs] *)

(** Counts how often the cache reached the table below it. *)
Record Counting : Type := MkCounting { counted : StaticBucket 4 0 4; queries : nat }.

#[export] Instance Counting_CloseNodes : CloseNodes Counting := {
  close_nodes now t := fun s => ((close_nodes now t (counted s)).1, MkCounting (counted s) (queries s + 1));
  maybe_add_contact c s := MkCounting (maybe_add_contact c (counted s)) (queries s);
  remove_contact c s := MkCounting (remove_contact c (counted s)) (queries s);
  contacts_chunks s := (fun chunk s' => chunk (counted s')) <$> contacts_chunks (counted s)
}.

Definition counting_new : Counting := MkCounting (static_new zero_id) 0.
Definition test_cache (ttl : Duration) : CachedCloseNodes Counting := cached_new counting_new ttl 2.
Definition cache_queries (c : CachedCloseNodes Counting) : nat := queries (inner c).
Definition target_of (b : byte) : NodeId := all_bytes b.
Definition cached_contact (first : N) : Contact := test_contact first 1000.

(** [cache.close_nodes(..)] at a time. *)
Definition ask (now : Instant) (t : NodeId) (c : CachedCloseNodes Counting) := close_nodes now t c.

Definition repeated_targets_hit_the_cache : test :=
  let cache := (ask 1%N (target_of x01) (ask 0%N (target_of x01) (test_cache (from_secs 60))).2).2 in
  let cache' := (ask 2%N (target_of x02) cache).2 in
  Some [ assert_eq (cache_queries cache) 1;
         assert_eq (cache_queries cache') 2 ].

Definition a_new_contact_invalidates_every_target : test :=
  let cache := (ask 0%N (target_of x01) (test_cache (from_secs 60))).2 in
  let answer := ask 1%N (target_of x01) (maybe_add_contact (cached_contact 128) cache) in
  Some [ assert_eq answer.1 [cached_contact 128];
         assert_eq (cache_queries answer.2) 2 ].

Definition ttl_only_serves_through_writes : test :=
  let before := ask 0%N (target_of x01) (ttl_only counting_new (from_secs 60) 2) in
  let cache := maybe_add_contact (cached_contact 128) before.2 in
  let after := ask 1%N (target_of x01) cache in
  Some [ assert_eq after.1 before.1;
         assert_eq (close_now (target_of x01) (counted (inner after.2))) [cached_contact 128];
         assert_eq (cache_queries after.2) 1 ].

Definition expired_entries_are_recomputed : test :=
  let cache := (ask 0%N (target_of x01) (ask 0%N (target_of x01) (test_cache 0%N)).2).2 in
  Some [ assert_eq (cache_queries cache) 2 ].

Definition stays_within_capacity : test :=
  let cache := foldl (fun c i => (ask i (be_array 32 (be_val (replicate 32 (u8 i)))) c).2) (test_cache (from_secs 60))
                 [0; 1; 2; 3; 4; 5; 6; 7]%N in
  Some [ size (entries cache) <=? 2 ].

Definition contacts_iter_covers_the_table_below : test :=
  let cache := add_contacts [cached_contact 128; cached_contact 64] (test_cache (from_secs 60)) in
  let cache := (ask 0%N (target_of x01) cache).2 in
  Some [ assert_eq (sorted_dedup (first_byte <$> contacts_iter cache)) [64; 128]%N ].

(** The body both removal tests share. *)
Definition removal_is_seen (cache : CachedCloseNodes Counting) : test :=
  let first := ask 0%N (target_of x01) (maybe_add_contact (cached_contact 128) cache) in
  let second := ask 1%N (target_of x01) (remove_contact (cached_contact 128) first.2) in
  Some [ assert_eq first.1 [cached_contact 128];
         assert_eq second.1 [] ].

Definition a_removed_contact_is_not_served_from_the_cache : test := removal_is_seen (test_cache (from_secs 60)).

Definition ttl_only_still_drops_removed_contacts : test := removal_is_seen (ttl_only counting_new (from_secs 60) 2).

(** ** They all pass *)

Example routing_tests_pass :
  forallb passes
    [ dumb_contacts_iter_yields_every_contact; dumb_remove_contact_removes_only_that_contact;
      leading_zeros_counts_whole_id; bucket_index_grows_with_shared_prefix_and_clamps;
      close_nodes_widens_past_the_home_bucket; maybe_add_contact_refreshes_address_and_ignores_self;
      contacts_iter_yields_every_bucket; contacts_iter_locks_a_bucket_only_while_cloning_it;
      remove_contact_frees_its_slot; remove_contact_needs_the_exact_contact;
      keeps_the_closest_and_drops_the_rest; survives_eviction_from_the_fallback; merges_without_duplicating;
      contacts_iter_covers_siblings_and_fallback; remove_contact_reaches_the_fallback;
      repeated_targets_hit_the_cache; a_new_contact_invalidates_every_target; ttl_only_serves_through_writes;
      expired_entries_are_recomputed; stays_within_capacity; contacts_iter_covers_the_table_below;
      a_removed_contact_is_not_served_from_the_cache; ttl_only_still_drops_removed_contacts ] = true.
Proof. by vm_compute. Qed.
