(* ===== verification/ReplayPackages.v ===== *)
(** * ReplayPackages: the tests of packages, histories and the STORE handler

    The tests of [package.rs], [value.rs], [version_chain.rs] and
    [handle_rpc/store.rs].  They use no fixed digest, so they run with the
    checksum of [Instances] for the hash. *)

From S2P Require Import Prelude Slices Machine Contacts Cache Text Crates Address AddressParse Package VersionChain Wire HandleRpc DnsKeys.
From S2P Require Import Instances Replay.

Local Open Scope string_scope.

(** ** [package.rs] *)

Definition version_ordering : test :=
  a ← version "1.9.0"; b ← version "1.11.0"; c ← version "2.0.0";
  Some [ version_lt a b; version_lt b c ].

Definition version_parsing_from_string : test :=
  Some [ assert_eq (version "1.2.3") (Some (MkVersion (wrap 32 1) (wrap 32 2) (wrap 32 3))) ].

Definition versioning_parsing_bad_string : test :=
  Some [ assert_eq (version "1.2") None; assert_eq (version "1.2.x") None; assert_eq (version "latest") None ].

Definition version_display : test :=
  let v := MkVersion (wrap 32 1) (wrap 32 10) (wrap 32 0) in
  Some [ assert_eq (version_to_string v) "1.10.0"; assert_eq (version (version_to_string v)) (Some v) ].

Definition test_record : option VersionRecord :=
  v ← version "1.0.0";
  Some (MkVersionRecord VERSION_RECORD_TAG "rfin.ch" "java-pair" v (all_bytes x01) (all_bytes x00)).

Definition test_pointer (tag : string) : option LatestPointer :=
  v ← version "1.0.0"; Some (MkLatestPointer tag "rfin.ch" "java-pair" v (all_bytes x02)).

Definition signed_version_record_survives_the_wire : test :=
  record ← test_record;
  let signed := MkSigned record [] in
  bytes ← serialize signed;
  decoded ← deserialize (A := Signed VersionRecord) bytes;
  Some [ assert_eq decoded signed ].

Definition signed_latest_pointer_survives_the_wire : test :=
  pointer ← test_pointer LATEST_POINTER_TAG;
  let signed := MkSigned pointer [] in
  bytes ← serialize signed;
  decoded ← deserialize (A := Signed LatestPointer) bytes;
  Some [ assert_eq decoded signed ].

Definition latest_hashes_correctly : test :=
  Some [ assert_eq (latest_key "rfin.ch" "java-pair") (latest_key "rfin.ch" "java-pair");
         assert_ne (latest_key "rfin.ch" "java-pair") (latest_key "rfin.ch" "other");
         assert_ne (latest_key "rfin.ch" "java-pair") (latest_key "other.ch" "java-pair");
         assert_eq (latest_key "rfin.ch" "java-pair") (hash_bytes (as_bytes "rfin.ch:java-pair:latest")) ].

Definition owner_key : SigningKey := sk_from_bytes (all_bytes x07).
Definition imposter_key : SigningKey := sk_from_bytes (all_bytes x08).

Definition owner_signature_verifies : test :=
  record ← test_record; signed ← sign record owner_key;
  Some [ verify signed (verifying_key owner_key) ].

Definition imposter_signature_fails : test :=
  record ← test_record; signed ← sign record imposter_key;
  Some [ negb (verify signed (verifying_key owner_key)) ].

Definition set_blob_hash (h : Key) (r : VersionRecord) : VersionRecord :=
  MkVersionRecord (vr_tag r) (vr_domain r) (vr_package r) (vr_version r) h (vr_prev r).

Definition tampered_record_fails : test :=
  record ← test_record; signed ← sign record owner_key;
  let signed := MkSigned (set_blob_hash (all_bytes x09) (body signed)) (sig signed) in
  Some [ negb (verify signed (verifying_key owner_key)) ].

Definition garbage_signature_fails : test :=
  record ← test_record; signed ← sign record owner_key;
  Some [ negb (verify (MkSigned (body signed) [x01; x02; x03]) (verifying_key owner_key)) ].

Definition latest_pointer_can_be_signed : test :=
  pointer ← test_pointer LATEST_POINTER_TAG; signed ← sign pointer owner_key;
  Some [ verify signed (verifying_key owner_key) ].

Definition latest_is_valid_accepts_owner_signed_pointer : test :=
  pointer ← test_pointer LATEST_POINTER_TAG; signed ← sign pointer owner_key;
  Some [ latest_is_valid signed (verifying_key owner_key) ].

Definition latest_is_valid_rejects_wrong_tag : test :=
  pointer ← test_pointer VERSION_RECORD_TAG; signed ← sign pointer owner_key;
  Some [ negb (latest_is_valid signed (verifying_key owner_key)) ].

Definition latest_is_valid_rejects_colon_in_domain : test :=
  pointer ← test_pointer LATEST_POINTER_TAG;
  let pointer := MkLatestPointer (lp_tag pointer) "a:b" (lp_package pointer) (lp_version pointer)
                   (lp_version_record_hash pointer) in
  signed ← sign pointer owner_key;
  Some [ assert_eq (latest_key "a" "b:c") (latest_key "a:b" "c");
         negb (latest_is_valid signed (verifying_key owner_key)) ].

Definition latest_is_valid_rejects_other_signer : test :=
  pointer ← test_pointer LATEST_POINTER_TAG; signed ← sign pointer imposter_key;
  Some [ negb (latest_is_valid signed (verifying_key owner_key)) ].

(** ** [value.rs] *)

Definition signed_latest (domain package v : string) (signer : SigningKey) : option (Signed LatestPointer) :=
  parsed ← version v;
  sign (MkLatestPointer LATEST_POINTER_TAG domain package parsed (key_for_value (as_bytes v))) signer.

Definition blob_key_is_hash_of_bytes : test :=
  Some [ assert_eq (value_key (value_from (as_bytes "hello"))) (key_for_value (as_bytes "hello")) ].

Definition latest_key_comes_from_domain_and_package : test :=
  pointer ← test_pointer LATEST_POINTER_TAG;
  Some [ assert_eq (value_key (Latest (MkSigned pointer []))) (latest_key "rfin.ch" "java-pair") ].

(** ** [version_chain.rs] *)

Definition DOMAIN : string := "node0.d7024e.test".
Definition PACKAGE : string := "calculator".
Definition chain_signer : SigningKey := sk_from_bytes (all_bytes x01).

Definition create_record (v : string) (prev : Key) : option (Signed VersionRecord) :=
  parsed ← version v;
  sign (MkVersionRecord VERSION_RECORD_TAG DOMAIN PACKAGE parsed (all_bytes x07) prev) chain_signer.

(** The store with the record added, and its key. *)
Definition add_record (store : gmap Key bytes) (record : Signed VersionRecord) : option (gmap Key bytes * Key) :=
  bytes ← serialize record;
  let key := key_for_value bytes in
  Some (<[key := bytes]> store, key).

Definition create_latest (v : string) (head : Key) : option (Signed LatestPointer) :=
  parsed ← version v;
  sign (MkLatestPointer LATEST_POINTER_TAG DOMAIN PACKAGE parsed head) chain_signer.

(** [walk_chain(.., |key| ready(store.get(&key).cloned()))]. *)
Definition walk_store (pointer : Signed LatestPointer) (store : gmap Key bytes) :=
  (walk_chain pointer (verifying_key chain_signer) DOMAIN PACKAGE
     (fun key => gets (fun s : gmap Key bytes => s !! key)) store).1.

Definition valid_version_chain : test :=
  first ← create_record "1.0.0" END_OF_CHAIN;
  '(store, first_key) ← add_record ∅ first;
  second ← create_record "1.1.0" first_key;
  '(store, second_key) ← add_record store second;
  pointer ← create_latest "1.1.0" second_key;
  result ← unwrap (walk_store pointer store);
  Some [ assert_eq result [second; first] ].

Definition rejects_missing_record : test :=
  record ← create_record "2.0.0" (all_bytes x09);
  '(store, head) ← add_record ∅ record;
  pointer ← create_latest "2.0.0" head;
  Some [ assert_eq (walk_store pointer store) (Err (MissingRecord (all_bytes x09))) ].

Definition compares_version_histories : test :=
  first ← create_record "1.0.0" END_OF_CHAIN;
  first_key ← record_key first;
  second ← create_record "1.1.0" first_key;
  second_key ← record_key second;
  third ← create_record "2.0.0" second_key;
  let stored := [second; first] in
  let extended := [third; second; first] in
  forked ← create_record "2.0.0" first_key;
  conflicting ← sign (set_blob_hash (all_bytes x09) (body second)) chain_signer;
  Some [ assert_eq (compare_chains stored stored) (Ok Same);
         assert_eq (compare_chains stored extended) (Ok Extends);
         assert_eq (compare_chains extended stored) (Ok Rollback);
         assert_eq (compare_chains stored [forked; first]) (Ok Fork);
         assert_eq (compare_chains stored [conflicting; first]) (Ok Fork) ].

Definition validates_store_chain_proof : test :=
  first ← create_record "1.0.0" END_OF_CHAIN;
  first_key ← record_key first;
  second ← create_record "2.0.0" first_key;
  second_key ← record_key second;
  pointer ← create_latest "2.0.0" second_key;
  extra ← create_record "9.0.0" END_OF_CHAIN;
  let complete := [second; first] in
  let validate := validate_chain_proof pointer (verifying_key chain_signer) in
  Some [ assert_eq (validate complete) (Ok complete);
         assert_eq (validate [second]) (Err (MissingRecord first_key));
         assert_eq (validate (complete ++ [extra])%list) (Err UnexpectedRecords) ].

(** ** [handle_rpc/store.rs] *)

Abbreviation StoreContext := (Context RecommendedCloseNodes FakeDns).

Definition test_context : StoreContext := context_new (all_bytes x00) (recommended (all_bytes x00)) fake_dns_new.

Definition new_latest_must_continue_previous_history : test :=
  v1 ← version "1.0.0"; v2 ← version "2.0.0"; v3 ← version "3.0.0";
  let record v hash prev :=
    sign (MkVersionRecord VERSION_RECORD_TAG "node0.d7024e.test" "pkg" v hash prev) chain_signer in
  let pointer v hash := sign (MkLatestPointer LATEST_POINTER_TAG "node0.d7024e.test" "pkg" v hash) chain_signer in
  first ← record v1 (all_bytes x07) (all_bytes x00);
  first_hash ← record_key first;
  old ← pointer v1 first_hash;
  second ← record v2 (all_bytes x07) first_hash;
  second_hash ← record_key second;
  newer ← pointer v2 second_hash;
  fork ← record v3 (all_bytes x09) (all_bytes x00);
  fork_hash ← record_key fork;
  fork_pointer ← pointer v3 fork_hash;
  let valid_chain := [second; first] in
  Some [ continues_previous old newer valid_chain;
         continues_previous old old valid_chain;
         negb (continues_previous newer old valid_chain);
         negb (continues_previous old fork_pointer [fork]) ].

Definition store_request_can_carry_version_proof : test :=
  v ← version "1.0.0";
  record ← sign (MkVersionRecord VERSION_RECORD_TAG "node0.d7024e.test" "calculator" v (all_bytes x07) (all_bytes x00))
    chain_signer;
  let value := Blob (as_bytes "hello") in
  let key := value_key value in
  encoded ← encode_request_with_proof key value [record];
  decoded ← deserialize (A := StoreRequest) encoded;
  plain ← encode_request key value;
  decoded_plain ← deserialize (A := StoreRequest) plain;
  match decoded, decoded_plain with
  | MkStoreRequest k v proof, MkStoreRequest _ _ no_proof =>
      Some [ assert_eq k key; assert_eq v value; assert_eq proof [record]; assert_eq no_proof [] ]
  end.

Definition store_writes_the_value_and_acks : test :=
  let value := Blob (as_bytes "hello") in
  let key := value_key value in
  req_body ← encode_request key value;
  let '(reply, context) := store_handle req_body test_context in
  Some [ assert_eq reply (Some STORED); assert_eq (ctx_values context !! key) (Some value) ].

Definition invalid_overwrite_is_rejected_and_original_value_is_preserved : test :=
  let original := Blob (as_bytes "old") in
  let key := value_key original in
  let replacement := Blob (as_bytes "new") in
  body1 ← encode_request key original;
  let '(reply1, context1) := store_handle body1 test_context in
  body2 ← encode_request key replacement;
  let '(reply2, context2) := store_handle body2 context1 in
  Some [ assert_eq reply1 (Some STORED); assert_eq (ctx_values context1 !! key) (Some original);
         assert_ne key (value_key replacement);
         assert_eq reply2 None; assert_eq (ctx_values context2 !! key) (Some original) ].

Definition store_rejects_invalid_body : test :=
  let '(reply, context) := store_handle (as_bytes "too short") test_context in
  Some [ assert_eq reply None; assert_eq (size (ctx_values context)) 0 ].

Definition store_rejects_value_when_key_does_not_match_hash : test :=
  let value := Blob (as_bytes "hello") in
  let wrong_key := all_bytes x01 in
  req_body ← encode_request wrong_key value;
  let '(reply, context) := store_handle req_body test_context in
  Some [ assert_ne wrong_key (value_key value); assert_eq reply None; assert_eq (size (ctx_values context)) 0 ].

Definition storing_the_same_value_twice_is_allowed : test :=
  let value := Blob (as_bytes "hello") in
  let key := value_key value in
  req_body ← encode_request key value;
  let '(reply1, context1) := store_handle req_body test_context in
  let '(reply2, context2) := store_handle req_body context1 in
  Some [ assert_eq reply1 (Some STORED); assert_eq reply2 (Some STORED);
         assert_eq (ctx_values context2 !! key) (Some value) ].

(** [FAKE_KEYS[i]]. *)
Definition fake_key (i : nat) : option FakeKey := FAKE_KEYS !! i.

(** A pointer for [pkg] on the owner's domain, signed by [signer]. *)
Definition latest (owner : FakeKey) (v : string) (signer : FakeKey) : option Value :=
  key ← fk_signing_key signer;
  pointer ← signed_latest (fk_domain owner) "pkg" v key;
  Some (Latest pointer).

Definition publication (owner : FakeKey) (v : string) (signer : FakeKey) (older : list (Signed VersionRecord))
    (blob_hash : Key) : option (Value * list (Signed VersionRecord)) :=
  signing_key ← fk_signing_key signer;
  parsed ← version v;
  let prev := default (all_bytes x00) (head older ≫= record_key) in
  record ← sign (MkVersionRecord VERSION_RECORD_TAG (fk_domain owner) "pkg" parsed blob_hash prev) signing_key;
  hash ← record_key record;
  pointer ← sign (MkLatestPointer LATEST_POINTER_TAG (fk_domain owner) "pkg" parsed hash) signing_key;
  Some (Latest pointer, record :: older).

Definition store_proven (value : Value) (proof : list (Signed VersionRecord)) (c : StoreContext)
    : option (bool * StoreContext) :=
  req_body ← encode_request_with_proof (value_key value) value proof;
  let r := store_handle req_body c in
  Some (assert_eq r.1 (Some STORED), r.2).

Definition store_plain (value : Value) (c : StoreContext) : option (bool * StoreContext) := store_proven value [] c.

Definition held (value : Value) (c : StoreContext) : bool := assert_eq (ctx_values c !! value_key value) (Some value).
Definition nothing_held (c : StoreContext) : bool := assert_eq (size (ctx_values c)) 0.

Definition latest_signed_by_domain_owner_is_stored : test :=
  k0 ← fake_key 0;
  '(value, proof) ← publication k0 "1.0.0" k0 [] (all_bytes x07);
  '(stored, context) ← store_proven value proof test_context;
  Some [ stored; held value context ].

Definition latest_signed_by_another_key_is_rejected : test :=
  k0 ← fake_key 0; k1 ← fake_key 1;
  value ← latest k0 "1.0.0" k1;
  '(stored, context) ← store_plain value test_context;
  Some [ negb stored; nothing_held context ].

Definition latest_for_domain_without_dns_key_is_rejected : test :=
  k0 ← fake_key 0; signer ← fk_signing_key k0;
  pointer ← signed_latest "nobody.d7024e.test" "pkg" "1.0.0" signer;
  '(stored, context) ← store_plain (Latest pointer) test_context;
  Some [ negb stored; nothing_held context ].

Definition latest_changed_after_signing_is_rejected : test :=
  k0 ← fake_key 0;
  value ← latest k0 "1.0.0" k0;
  match value with
  | Blob _ => None
  | Latest pointer =>
      let b := body pointer in
      let changed := MkLatestPointer (lp_tag b) (lp_domain b) (lp_package b) (lp_version b) (all_bytes x09) in
      '(stored, context) ← store_plain (Latest (MkSigned changed (sig pointer))) test_context;
      Some [ negb stored; nothing_held context ]
  end.

Definition latest_under_wrong_key_is_rejected : test :=
  k0 ← fake_key 0;
  value ← latest k0 "1.0.0" k0;
  req_body ← encode_request (all_bytes x01) value;
  let '(reply, context) := store_handle req_body test_context in
  Some [ assert_eq reply None; nothing_held context ].

Definition newer_latest_replaces_older : test :=
  k0 ← fake_key 0;
  '(old, old_proof) ← publication k0 "1.0.0" k0 [] (all_bytes x07);
  '(new, new_proof) ← publication k0 "1.1.0" k0 old_proof (all_bytes x08);
  '(stored1, context) ← store_proven old old_proof test_context;
  '(stored2, context) ← store_proven new new_proof context;
  Some [ stored1; stored2; held new context ].

Definition older_latest_does_not_replace_newer : test :=
  k0 ← fake_key 0;
  '(old, old_proof) ← publication k0 "1.9.0" k0 [] (all_bytes x07);
  '(new, new_proof) ← publication k0 "1.10.0" k0 old_proof (all_bytes x08);
  '(stored1, context) ← store_proven new new_proof test_context;
  '(stored2, context) ← store_proven old old_proof context;
  Some [ stored1; negb stored2; held new context ].

Definition same_version_with_other_contents_is_rejected : test :=
  k0 ← fake_key 0;
  '(first, first_proof) ← publication k0 "1.0.0" k0 [] (all_bytes x07);
  '(other, other_proof) ← publication k0 "1.0.0" k0 [] (all_bytes x09);
  '(stored1, context) ← store_proven first first_proof test_context;
  '(stored2, context) ← store_proven other other_proof context;
  Some [ assert_ne first other; stored1; negb stored2; held first context ].

Definition same_latest_twice_is_allowed : test :=
  k0 ← fake_key 0;
  '(value, proof) ← publication k0 "1.0.0" k0 [] (all_bytes x07);
  '(stored1, context) ← store_proven value proof test_context;
  '(stored2, _) ← store_proven value proof context;
  Some [ stored1; stored2 ].

(** A blob of the public text a latest key hashes, so it lands on that key. *)
Definition squatting_blob (owner : FakeKey) : Value := Blob (as_bytes (fk_domain owner +:+ ":pkg:latest")).

Definition blob_does_not_replace_latest : test :=
  owner ← fake_key 0;
  '(latest, proof) ← publication owner "1.0.0" owner [] (all_bytes x07);
  let squatter := squatting_blob owner in
  '(stored1, context) ← store_proven latest proof test_context;
  '(stored2, context) ← store_plain squatter context;
  Some [ assert_eq (value_key latest) (value_key squatter); stored1; negb stored2; held latest context ].

Definition latest_replaces_squatting_blob : test :=
  owner ← fake_key 0;
  let squatter := squatting_blob owner in
  '(latest, proof) ← publication owner "1.0.0" owner [] (all_bytes x07);
  '(stored1, context) ← store_plain squatter test_context;
  '(stored2, context) ← store_proven latest proof context;
  Some [ assert_eq (value_key latest) (value_key squatter); stored1; stored2; held latest context ].

Definition forged_latest_does_not_replace_squatting_blob : test :=
  k0 ← fake_key 0; k1 ← fake_key 1;
  let blob := squatting_blob k0 in
  forged ← latest k0 "1.0.0" k1;
  '(stored1, context) ← store_plain blob test_context;
  '(stored2, context) ← store_plain forged context;
  Some [ stored1; negb stored2; held blob context ].

(** ** They all pass *)

Example package_tests_pass :
  forallb passes
    [ version_ordering; version_parsing_from_string; versioning_parsing_bad_string; version_display;
      signed_version_record_survives_the_wire; signed_latest_pointer_survives_the_wire; latest_hashes_correctly;
      owner_signature_verifies; imposter_signature_fails; tampered_record_fails; garbage_signature_fails;
      latest_pointer_can_be_signed; latest_is_valid_accepts_owner_signed_pointer; latest_is_valid_rejects_wrong_tag;
      latest_is_valid_rejects_colon_in_domain; latest_is_valid_rejects_other_signer;
      blob_key_is_hash_of_bytes; latest_key_comes_from_domain_and_package ] = true.
Proof. by vm_compute. Qed.

Example history_tests_pass :
  forallb passes
    [ valid_version_chain; rejects_missing_record; compares_version_histories; validates_store_chain_proof ] = true.
Proof. by vm_compute. Qed.

Example store_tests_pass :
  forallb passes
    [ new_latest_must_continue_previous_history; store_request_can_carry_version_proof;
      store_writes_the_value_and_acks; invalid_overwrite_is_rejected_and_original_value_is_preserved;
      store_rejects_invalid_body; store_rejects_value_when_key_does_not_match_hash;
      storing_the_same_value_twice_is_allowed; latest_signed_by_domain_owner_is_stored;
      latest_signed_by_another_key_is_rejected; latest_for_domain_without_dns_key_is_rejected;
      latest_changed_after_signing_is_rejected; latest_under_wrong_key_is_rejected; newer_latest_replaces_older;
      older_latest_does_not_replace_newer; same_version_with_other_contents_is_rejected; same_latest_twice_is_allowed;
      blob_does_not_replace_latest; latest_replaces_squatting_blob; forged_latest_does_not_replace_squatting_blob ] = true.
Proof. by vm_compute. Qed.
