(* ===== verification/ReplayServer.v ===== *)
(** * ReplayServer: the tests of the server's side

    The tests of [src/handle_rpc.rs], [handle_rpc/find_node.rs],
    [handle_rpc/find_value.rs] and [handle_rpc/ping.rs], and of the framing in
    [rpc_transport/stream_framing.rs].  A test that serves a real socket runs
    the loops of [Serve] over the same bytes, with a socket that keeps what was
    sent. *)

From S2P Require Import Prelude Slices Machine Contacts Cache Text Crates Address AddressParse Package VersionChain Wire.
From S2P Require Import Pending Datagram Stream HandleRpc Serve DnsKeys Instances Replay ReplayPackages.

Local Open Scope string_scope.

(** ** [handle_rpc/ping.rs], [find_node.rs] and [find_value.rs] *)

Definition node_context (my_id : NodeId) : StoreContext := context_new my_id (recommended my_id) fake_dns_new.

Definition ping_answers_with_our_own_id : test :=
  reply ← (ping_handle [] (node_context (all_bytes x07))).1;
  Some [ assert_eq (ping_decode_reply reply) (Some (all_bytes x07)) ].

Definition ping_with_an_unexpected_body_is_still_answered : test :=
  reply ← (ping_handle (as_bytes "not a ping") (node_context (all_bytes x07))).1;
  Some [ assert_eq (ping_decode_reply reply) (Some (all_bytes x07)) ].

Definition find_node_returns_the_contacts_it_knows : test :=
  a ← parse_socket_addr "127.0.0.1:8001";
  let known := MkContact (all_bytes x02) a in
  let context := (on_nodes (modify (maybe_add_contact known)) test_context).2 in
  req_body ← find_node_encode_request (all_bytes x01);
  reply ← (find_node_handle 0%N req_body context).1;
  contacts ← find_node_decode_reply reply;
  Some [ assert_eq contacts [known] ].

Definition find_node_reply_carries_no_id_of_its_own : test :=
  req_body ← find_node_encode_request (all_bytes x01);
  reply ← (find_node_handle 0%N req_body test_context).1;
  Some [ bool_decide (is_Some (find_node_decode_reply reply)) ].

Definition find_node_rejects_invalid_body : test :=
  Some [ assert_eq (find_node_handle 0%N (as_bytes "too short") test_context).1 None ].

(** A table that always answers the same contacts; [remove_contact] is
    [unimplemented!()] in the source and is never called. *)
Record FakeCloseNodes : Type := MkFakeCloseNodes { fake_contacts : list Contact }.

#[export] Instance FakeCloseNodes_CloseNodes : CloseNodes FakeCloseNodes := {
  close_nodes _ _ := fun t => (fake_contacts t, t);
  maybe_add_contact _ t := t;
  remove_contact _ t := t;
  contacts_chunks t := [fun _ => fake_contacts t]
}.

Definition fake_context (l : list Contact) : Context FakeCloseNodes FakeDns :=
  context_new (all_bytes x00) (MkFakeCloseNodes l) fake_dns_new.

Definition find_value_returns_stored_value : test :=
  let key : Key := all_bytes x01 in
  let value := value_from (as_bytes "hello") in
  let context := (insert_value key value (fake_context [])).2 in
  req_body ← serialize key;
  reply ← (find_value_handle 0%N req_body context).1;
  decoded ← deserialize (A := FindValueReply) reply;
  Some [ assert_eq decoded (FoundValue value) ].

Definition find_value_returns_closest_contacts_when_value_missing : test :=
  let key : Key := all_bytes x01 in
  a ← parse_socket_addr "127.0.0.1:8001"; b ← parse_socket_addr "127.0.0.1:8002";
  let contacts := [MkContact (all_bytes x02) a; MkContact (all_bytes x03) b] in
  req_body ← serialize key;
  reply ← (find_value_handle 0%N req_body (fake_context contacts)).1;
  decoded ← deserialize (A := FindValueReply) reply;
  Some [ assert_eq decoded (Closest contacts) ].

(** ** [handle_rpc.rs] *)

Definition addr : SocketAddr := localhost_port 4242.
Definition sender_id : NodeId := all_bytes x01.
Definition framed (rest : bytes) : bytes := (elems sender_id ++ rest)%list.
Definition framed_datagram (id : u64) (rest : bytes) : bytes := frame_request id (framed rest).
Definition TEST_ID : NodeId := all_bytes x00.
Definition pong : option bytes := serialize TEST_ID.
Definition long_id : u64 := wrap 64 0x0102030405060708.

Definition tags_are_split_off_the_front : test :=
  Some [ assert_eq (split_tag (as_bytes "FIND_NODEbody")) (Some (FindNode, as_bytes "body"));
         assert_eq (split_tag (as_bytes "FIND_VALUE")) (Some (FindValue, []));
         assert_eq (split_tag (as_bytes "PING")) (Some (Ping, []));
         assert_eq (split_tag (as_bytes "PIN")) None;
         assert_eq (split_tag (as_bytes "xPING")) None;
         assert_eq (split_tag []) None ].

Definition a_datagram_splits_into_its_id_and_the_request : test :=
  request ← from_datagram addr (to_be_bytes long_id ++ tag Ping)%list;
  Some [ assert_eq (req_id request) long_id; assert_eq (req_payload request) (tag Ping);
         assert_eq (req_from request) addr ].

Definition a_datagram_too_short_for_an_id_is_rejected : test :=
  let is_none l := match from_datagram addr l with None => true | Some _ => false end in
  Some [ is_none []; is_none (replicate (ID_LEN - 1) x00); negb (is_none (replicate ID_LEN x00)) ].

Definition framing_round_trips : test :=
  parsed ← from_datagram addr (frame_reply long_id (as_bytes "PONG"));
  Some [ assert_eq (req_id parsed) (reply_id long_id); assert_eq (req_payload parsed) (as_bytes "PONG") ].

Definition datagram_request (id : u64) (payload : bytes) : option Request := from_datagram addr (frame_request id payload).
Definition connection_request (id : u64) (payload : bytes) : option Request := from_connection addr (frame_request id payload).

Definition id7 : u64 := wrap 64 7.

Definition ping_is_answered_with_our_own_id : test :=
  request ← datagram_request id7 (framed (tag Ping)); pong ← pong;
  Some [ assert_eq (dispatch 0%N request test_context).1 (Some (frame_reply id7 pong)) ].

Definition requests_too_short_for_a_node_id_are_dropped : test :=
  request ← datagram_request id7 (replicate (NODE_ID_LEN - 1) x00);
  Some [ assert_eq (dispatch 0%N request test_context).1 None ].

(** [context.close_nodes.close_nodes(sender_id()).iter().any(..)]. *)
Definition learned (p : Contact -> bool) (context : StoreContext) : bool :=
  existsb p (close_nodes 0%N sender_id (ctx_nodes context)).1.

Definition from_sender (c : Contact) : bool := assert_eq (id c) sender_id.

Definition a_datagram_request_learns_the_sender_as_a_contact : test :=
  request ← datagram_request id7 (framed (tag Ping));
  let '(reply, context) := dispatch 0%N request test_context in
  _ ← reply;
  Some [ learned (fun c => from_sender c && assert_eq (address c) addr) context ].

Definition a_connection_request_does_not_learn_the_sender_as_a_contact : test :=
  request ← connection_request id7 (framed (tag Ping));
  let '(reply, context) := dispatch 0%N request test_context in
  _ ← reply;
  Some [ negb (learned from_sender context) ].

Definition unknown_methods_go_unanswered : test :=
  request ← datagram_request id7 (framed (as_bytes "NOT_A_METHOD"));
  Some [ assert_eq (dispatch 0%N request test_context).1 None ].

Definition the_reply_carries_the_request_id_back : test :=
  request ← datagram_request long_id (framed (tag Ping)); pong ← pong;
  datagram ← (dispatch 0%N request test_context).1;
  '(echoed, reply) ← split_at_checked ID_LEN datagram;
  Some [ assert_eq (from_be_bytes echoed) (reply_id long_id); assert_eq reply pong ].

(** A UDP socket that keeps what it sent. *)
Record SentPackets : Type := MkSentPackets { sent : list (bytes * SocketAddr) }.

#[export] Instance SentPackets_UdpSocket : UdpSocket SentPackets := {
  send_to l a := fun s => (Ok (length l), MkSentPackets (sent s ++ [(l, a)]));
  recv_from _ := fun s => (Err (MkIoError TimedOut "nothing arrives"), s)
}.

(** The server's end of a connection: the request to its end, and the reply. *)
Record Connection : Type := MkConnection { incoming : bytes; outgoing : bytes }.

#[export] Instance Connection_AsyncStream : AsyncStream Connection := {
  write_all l := fun s => (Ok tt, MkConnection (incoming s) (outgoing s ++ l));
  shutdown := fun s => (Ok tt, s);
  read_exact n := fun s => (Ok (take n (incoming s)), MkConnection (drop n (incoming s)) (outgoing s));
  read_to_end := fun s => (Ok (incoming s), MkConnection [] (outgoing s))
}.

(** A served node: the datagrams go through the transport's receive loop, its
    channel and [serve]'s loop, which spawns an answer for each. *)
Definition spawn_serve (context : StoreContext) (datagrams : list bytes)
    : Server RecommendedCloseNodes FakeDns SentPackets Connection :=
  let received := receive_loop ((fun d => Ok (d, addr)) <$> datagrams)
                    (MkReceiver pending_new (Some (MkRequestQueue 8 [] true))) in
  let server := serve context (default (MkRequestQueue 0 [] false) (rcv_requests received)) (MkSentPackets []) in
  serve_events (replicate (length datagrams) TurnDatagrams ++ replicate (length datagrams) (RunTask 0 0%N))%list server.

Definition replies_of (server : Server RecommendedCloseNodes FakeDns SentPackets Connection) : list bytes :=
  (sent (socket server)).*1.

Definition udp_requests_are_served_concurrently : test :=
  pong ← pong;
  let id1 := wrap 64 1 in let id2 := wrap 64 2 in
  let seen := replies_of (spawn_serve test_context [framed_datagram id1 (tag Ping); framed_datagram id2 (tag Ping)]) in
  Some [ bool_decide (frame_reply id1 pong ∈ seen); bool_decide (frame_reply id2 pong ∈ seen) ].

Definition a_reply_comes_back_tagged_under_the_request_id : test :=
  pong ← pong;
  reply ← head (replies_of (spawn_serve test_context [framed_datagram long_id (tag Ping)]));
  let echoed := from_be_bytes (take ID_LEN reply) in
  Some [ assert_eq (request_id echoed) long_id; is_reply echoed; assert_eq (drop ID_LEN reply) pong ].

Definition udp_find_node_round_trips_through_the_dispatcher : test :=
  a ← parse_socket_addr "127.0.0.1:8001";
  let known := MkContact (all_bytes x02) a in
  let context := (on_nodes (modify (maybe_add_contact known)) test_context).2 in
  req_body ← find_node_encode_request (all_bytes x01);
  reply ← head (replies_of (spawn_serve context [framed_datagram id7 (tag FindNode) ++ req_body]%list));
  contacts ← find_node_decode_reply (drop ID_LEN reply);
  Some [ bool_decide (known ∈ contacts); existsb from_sender contacts ].

(** [vec![0xAB; 5000]], and its STORE. *)
Definition large_value : bytes := replicate (N.to_nat 5000) xab.

Definition store_payload : option bytes :=
  req_body ← encode_request (key_for_value large_value) (Blob large_value);
  Some (framed (tag Store) ++ req_body)%list.

Definition holds_large_value (context : StoreContext) : bool :=
  assert_eq (ctx_values context !! key_for_value large_value) (Some (Blob large_value)).

Definition tcp_store_is_written_and_acked : test :=
  let store_id := wrap 64 0x1122334455667788 in
  payload ← store_payload;
  let served := (serve_connection 0%N addr (test_context, MkConnection (frame_request store_id payload) [])).2 in
  Some [ assert_eq (outgoing served.2) (frame_reply store_id STORED); holds_large_value served.1 ].

(** A connection over the fake wire: the accept loop answers what was written. *)
Definition served_pipe (context : StoreContext) : Pipe :=
  pipe_to (fun request => outgoing (serve_connection 0%N addr (context, MkConnection request [])).2.2).

Definition over_the_fake_stream_wire (payload : bytes) : result IoError bytes * StoreContext :=
  let exchange := stream_send_receive (wrap 64 42) payload (served_pipe test_context) in
  (exchange.1, (serve_connection 0%N addr (test_context, MkConnection (to_peer exchange.2) [])).2.1).

Definition store_over_the_fake_stream_wire_is_written_and_acked : test :=
  payload ← store_payload;
  let '(result, context) := over_the_fake_stream_wire payload in
  reply ← unwrap result;
  Some [ assert_eq reply STORED; holds_large_value context ].

Definition a_served_stream_request_does_not_learn_its_sender : test :=
  pong ← pong;
  let '(result, context) := over_the_fake_stream_wire (framed (tag Ping)) in
  reply ← unwrap result;
  Some [ assert_eq reply pong; negb (learned from_sender context) ].

(** ** [rpc_transport/stream_framing.rs] *)

(** The peer that reads the request and answers under its id, rewritten by
    [mangle_id]. *)
Definition spawn_peer (reply_body : bytes) (mangle_id : u64 -> u64) : Pipe :=
  pipe_to (fun request => to_be_bytes (mangle_id (reply_id (from_be_bytes (take ID_LEN request)))) ++ reply_body)%list.

Definition a_draw : u64 := wrap 64 0x8899aabbccddeeff.

Definition error_kind {A} (r : result IoError A) : option ErrorKind := match r with Ok _ => None | Err e => Some (kind e) end.

Definition round_trips_a_request_and_strips_the_echoed_id : test :=
  let client := spawn_peer (as_bytes "STORED") (fun id => id) in
  reply ← unwrap (stream_send_receive a_draw (as_bytes "STORE...") client).1;
  Some [ assert_eq reply (as_bytes "STORED") ].

Definition a_reply_under_the_wrong_id_is_an_error_not_a_panic : test :=
  let client := spawn_peer (as_bytes "STORED") (fun id => wrap 64 (uval id + 1)) in
  Some [ assert_eq (error_kind (stream_send_receive a_draw (as_bytes "STORE...") client).1) (Some InvalidData) ].

Definition a_peer_that_answers_nothing_ends_the_call : test :=
  Some [ bool_decide (is_Some (error_kind (stream_send_receive a_draw (as_bytes "ping") (pipe_to (fun _ => []))).1)) ].

Definition a_silent_peer_times_out : test :=
  Some [ assert_eq (error_kind (dial_and_send (Ok (pipe_to (fun _ => []))) a_draw (as_bytes "ping")
                                  (from_millis 50) (from_millis 51))) (Some TimedOut) ].

(** ** They all pass *)

Example handler_tests_pass :
  forallb passes
    [ ping_answers_with_our_own_id; ping_with_an_unexpected_body_is_still_answered;
      find_node_returns_the_contacts_it_knows; find_node_reply_carries_no_id_of_its_own; find_node_rejects_invalid_body;
      find_value_returns_stored_value; find_value_returns_closest_contacts_when_value_missing ] = true.
Proof. by vm_compute. Qed.

Example dispatch_tests_pass :
  forallb passes
    [ tags_are_split_off_the_front; a_datagram_splits_into_its_id_and_the_request;
      a_datagram_too_short_for_an_id_is_rejected; framing_round_trips; ping_is_answered_with_our_own_id;
      requests_too_short_for_a_node_id_are_dropped; a_datagram_request_learns_the_sender_as_a_contact;
      a_connection_request_does_not_learn_the_sender_as_a_contact; unknown_methods_go_unanswered;
      the_reply_carries_the_request_id_back ] = true.
Proof. by vm_compute. Qed.

Example served_tests_pass :
  forallb passes
    [ udp_requests_are_served_concurrently; a_reply_comes_back_tagged_under_the_request_id;
      udp_find_node_round_trips_through_the_dispatcher; tcp_store_is_written_and_acked;
      store_over_the_fake_stream_wire_is_written_and_acked; a_served_stream_request_does_not_learn_its_sender ] = true.
Proof. by vm_compute. Qed.

Example stream_tests_pass :
  forallb passes
    [ round_trips_a_request_and_strips_the_echoed_id; a_reply_under_the_wrong_id_is_an_error_not_a_panic;
      a_peer_that_answers_nothing_ends_the_call; a_silent_peer_times_out ] = true.
Proof. by vm_compute. Qed.
