(* ===== verification/ReplayShell.v ===== *)
(** * ReplayShell: the tests of keys in DNS and of the command line

    The tests of [src/dns_data.rs], [dns_data/fake_dns.rs] and the parsing and
    printing of [cli.rs]. *)

From Stdlib Require Import Strings.Ascii.
From S2P Require Import Prelude Slices Machine Contacts Text Crates Package Wire HandleRpc DnsKeys Cli Instances Replay.
From S2P Require Import ReplayPackages.

Local Open Scope string_scope.

(** ** [dns_data.rs] *)

Definition test_vk : VerifyingKey := verifying_key (sk_from_bytes (all_bytes x07)).

Definition format_then_parse_round_trips : test :=
  let txt := format_vk test_vk in
  Some [ starts_with TXT_PREFIX txt; assert_eq (parse_vk (as_bytes txt)) (Some test_vk) ].

Definition ignores_surrounding_whitespace : test :=
  let txt := "  " +:+ format_vk test_vk +:+ nl in
  Some [ assert_eq (parse_vk (as_bytes txt)) (Some test_vk) ].

Definition rejects_bad_records : test :=
  let hex_key := hex_encode (elems (vk_to_bytes test_vk)) in
  Some [ assert_eq (parse_vk []) None;
         assert_eq (parse_vk (as_bytes "v=spf1 -all")) None;
         assert_eq (parse_vk (as_bytes hex_key)) None;
         assert_eq (parse_vk (as_bytes (TXT_PREFIX +:+ String.substring 0 62 hex_key))) None;
         assert_eq (parse_vk (as_bytes (TXT_PREFIX +:+ hex_key +:+ "00"))) None ].

(** ** [fake_dns.rs] *)

Definition hardcoded_pairs_match : test :=
  Some ((fun key => assert_eq (verifying_key <$> fk_signing_key key) (fk_verifying_key key)) <$> FAKE_KEYS).

Definition has_one_record_per_key : test :=
  Some [ assert_eq (length (fd_records fake_dns_new)) (length FAKE_KEYS) ].

(** [dns.get_dns_vk(..)]. *)
Definition vk_of (dns : FakeDns) (domain : string) : option VerifyingKey := (get_dns_vk domain dns).1.

Definition lookup_returns_published_key : test :=
  Some ((fun key => assert_eq (vk_of fake_dns_new (fk_domain key)) (fk_verifying_key key)) <$> FAKE_KEYS).

Definition looked_up_key_verifies_signature : test :=
  key ← fake_key 2; signer ← fk_signing_key key;
  vk ← vk_of fake_dns_new (fk_domain key);
  Some [ vk_verify vk (as_bytes "hello") (sk_sign signer (as_bytes "hello")) ].

Definition unknown_domain_is_none : test := Some [ assert_eq (vk_of fake_dns_new "nobody.d7024e.test") None ].

(** [str::to_uppercase] of an ASCII string. *)
Definition to_uppercase (s : string) : string :=
  String.string_of_list_ascii ((fun c =>
    let n := N_of_ascii c in if (97 <=? n)%N && (n <=? 122)%N then ascii_of_N (n - 32) else c)
    <$> String.list_ascii_of_string s).

Definition domain_match_ignores_case : test :=
  key ← fake_key 1;
  Some [ assert_eq (vk_of fake_dns_new (to_uppercase (fk_domain key))) (fk_verifying_key key) ].

Definition invalid_domain_is_none : test := Some [ assert_eq (vk_of fake_dns_new "a..b") None ].

Definition shared_through_arc : test :=
  key ← fake_key 3;
  Some [ assert_eq (vk_of fake_dns_new (fk_domain key)) (fk_verifying_key key) ].

Definition skips_unrelated_txt_records : test :=
  key ← fake_key 0; name ← name_from_str (fk_domain key);
  let dns := MkFakeDns ((name, "v=spf1 -all") :: fd_records fake_dns_new) in
  Some [ assert_eq (vk_of dns (fk_domain key)) (fk_verifying_key key) ].

(** ** [cli.rs] *)

Definition is_err {E A} (r : result E A) : bool := match r with Ok _ => false | Err _ => true end.

(** [str::contains]. *)
Definition contains_str (needle s : string) : bool :=
  match String.index 0 needle s with Some _ => true | None => false end.

Definition parses_package_names : test :=
  Some [ assert_eq (parse_package_name "example.com:calculator") (Ok ("example.com", "calculator"));
         is_err (parse_package_name "example.com"); is_err (parse_package_name "example.com:");
         is_err (parse_package_name ":calculator"); is_err (parse_package_name "example.com:pkg:1.0.0") ].

Definition parses_install_names : test :=
  v ← version "1.2.3";
  first ← unwrap (parse_install_name "example.com:calculator:1.2.3");
  second ← unwrap (parse_install_name "example.com:calculator:latest");
  Some [ assert_eq first ("example.com", "calculator", Some v);
         assert_eq second ("example.com", "calculator", None);
         is_err (parse_install_name "example.com:calculator"); is_err (parse_install_name "example.com::1.0.0");
         is_err (parse_install_name "example.com:calculator:abc"); is_err (parse_install_name "example.com:calculator:1.0") ].

Definition generates_safe_install_filename : test :=
  v ← version "2.0.0";
  Some [ assert_eq (default_install_filename "example.com" "calculator" v) "example.com-calculator-2.0.0.pkg";
         negb (contains_char "/" (default_install_filename "example.com" "../calculator" v)) ].

Definition parses_publish_command : test :=
  v1 ← version "1.0.0"; v3 ← version "3.0.0";
  parsed ← unwrap (parse_publish_args
    ["--force"; "--prev=1.0.0"; "node0.d7024e.test:calculator:3.0.0"; "calculator.zip"]);
  Some [ assert_eq (pa_domain parsed) "node0.d7024e.test"; assert_eq (pa_package parsed) "calculator";
         assert_eq (pa_version parsed) v3; assert_eq (pa_previous parsed) (Some v1);
         assert_eq (pa_filename parsed) "calculator.zip"; pa_force parsed ].

Definition rejects_invalid_publish_commands : test :=
  Some [ is_err (parse_publish_args []);
         is_err (parse_publish_args ["example.com:calculator:latest"; "file.zip"]);
         is_err (parse_publish_args ["--prev=invalid"; "example.com:calculator:2.0.0"; "file.zip"]);
         is_err (parse_publish_args ["--force"; "--force"; "example.com:calculator:1.0.0"; "file.zip"]) ].

(** The limited decoder of the listing: at most 64 KiB, trailing bytes allowed. *)
Definition decode_at_most_64k (l : bytes) : option (Signed VersionRecord) :=
  if (N.of_nat (length l) <=? 65536)%N then fst <$> dec l else None.

Definition described (value : Value) : string := describe_datastore_entry decode_at_most_64k (value_key value) value.

Definition datastore_displays_plain_blobs : test :=
  let value := Blob (as_bytes "ordinary package bytes") in
  let display := described value in
  Some [ contains_str "blob" display; negb (contains_str "ordinary" display);
         negb (contains_str "version record" display) ].

Definition datastore_displays_version_records : test :=
  v ← version "1.0.0";
  record ← sign (MkVersionRecord VERSION_RECORD_TAG "example.com" "calculator" v (all_bytes x07) (all_bytes x00)) owner_key;
  record_bytes ← serialize record;
  let value := Blob record_bytes in
  let display := described value in
  Some [ contains_str "version record" display; contains_str "example.com:calculator" display;
         contains_str "1.0.0" display; contains_str (hex_encode (replicate 32 x07)) display ].

Definition datastore_displays_latest_pointers : test :=
  v ← version "2.0.0";
  pointer ← sign (MkLatestPointer LATEST_POINTER_TAG "example.com" "calculator" v (all_bytes x09)) owner_key;
  let value := Latest pointer in
  let display := described value in
  Some [ contains_str "latest pointer" display; contains_str "example.com:calculator" display;
         contains_str "2.0.0" display; contains_str (hex_encode (replicate 32 x09)) display ].

(** ** They all pass *)

Example dns_tests_pass :
  forallb passes
    [ format_then_parse_round_trips; ignores_surrounding_whitespace; rejects_bad_records; hardcoded_pairs_match;
      has_one_record_per_key; lookup_returns_published_key; looked_up_key_verifies_signature; unknown_domain_is_none;
      domain_match_ignores_case; invalid_domain_is_none; shared_through_arc; skips_unrelated_txt_records ] = true.
Proof. by vm_compute. Qed.

Example command_line_tests_pass :
  forallb passes
    [ parses_package_names; parses_install_names; generates_safe_install_filename; parses_publish_command;
      rejects_invalid_publish_commands; datastore_displays_plain_blobs; datastore_displays_version_records;
      datastore_displays_latest_pointers ] = true.
Proof. by vm_compute. Qed.
