(* ===== verification/ReplayLookup.v ===== *)
(** * ReplayLookup: the tests of the client and of the lookups

    The tests of [src/rpc.rs] and [lookup.rs], whose transports answer from
    fixed tables.  A transport whose own assertion fails answers with an error,
    which the result of the call then shows. *)

From S2P Require Import Prelude Slices Machine Contacts DumbBucket Cache Text Crates Address AddressParse Package.
From S2P Require Import VersionChain Wire Stream HandleRpc DnsKeys Rpc Lookup Instances Replay ReplayPackages ReplayServer.

Local Open Scope string_scope.

(** There is no world beside the table and the log. *)
#[export] Instance no_clock : Clock unit := fun _ => 0%N.

Definition ready_first (_ : unit) : nat := 0.

Definition env_with {A} (t : A) : Env A unit := MkEnv t [] (wrap 64 1) tt.

(** [Rpc::new(me(), transport, robust_transport, table)], and an operation on it. *)
Definition with_rpc {A X} (me : Contact) (transport robust : RpcTransport A unit) (t : A)
    (m : Rpc A unit -> M (Env A unit) X) : X * A :=
  let r := m (MkRpc me transport robust) (env_with t) in (r.1, table r.2).

(** A transport that does not touch the environment. *)
Definition answering {A} (answer : SocketAddr -> option bytes) : RpcTransport A unit :=
  fun _ to => mret (ok_or (MkIoError InvalidData "unserializable") (answer to)).

(** ** [rpc.rs] *)

Definition rpc_me : Contact := MkContact (all_bytes x09) (localhost_port 8010).
Definition peer_contact (a : SocketAddr) : Contact := MkContact (all_bytes x07) a.
Definition test_peer : SocketAddr := localhost_port 8000.

Record FakeTransport : Type := MkFakeTransport {
  expected_payload : bytes;
  expected_address : SocketAddr;
  response : bytes
}.

Definition fake_send_receive {A} (t : FakeTransport) : RpcTransport A unit :=
  fun payload to =>
    mret (if assert_eq payload (expected_payload t) && assert_eq to (expected_address t) then Ok (response t)
          else Err (MkIoError InvalidData "unexpected request")).

Definition never_called : FakeTransport := MkFakeTransport [] test_peer [].

Definition expecting (method : Method) (k : NodeId) (response : bytes) : option FakeTransport :=
  encoded ← serialize k;
  Some (MkFakeTransport (elems (id rpc_me) ++ tag method ++ encoded) test_peer response).

Definition find_node_sends_request_and_decodes_contacts : test :=
  let target := all_bytes x01 in
  let expected := [MkContact (all_bytes x02) (localhost_port 8001); MkContact (all_bytes x03) (localhost_port 8002)] in
  response ← serialize expected;
  transport ← expecting FindNode target response;
  let r := with_rpc rpc_me (fake_send_receive transport) (fake_send_receive never_called) (MkFakeCloseNodes [])
             (fun rpc => find_node rpc (peer_contact test_peer) target) in
  Some [ assert_eq r.1 expected ].

(** Both FIND_VALUE tests: the robust transport gives the expected reply. *)
Definition find_value_decodes (expected : FindValueReply) : test :=
  let key := all_bytes x01 in
  response ← serialize expected;
  robust ← expecting FindValue key response;
  let r := with_rpc rpc_me (fake_send_receive never_called) (fake_send_receive robust) (MkFakeCloseNodes [])
             (fun rpc => find_value rpc (peer_contact test_peer) key) in
  Some [ assert_eq r.1 expected ].

Definition find_value_sends_request_and_decodes_value : test :=
  find_value_decodes (FoundValue (value_from (as_bytes "hello"))).

Definition find_value_decodes_closest_contacts : test :=
  find_value_decodes (Closest [MkContact (all_bytes x02) (localhost_port 8001)]).

Definition failing_transport {A} (k : ErrorKind) : RpcTransport A unit := fun _ _ => mret (Err (MkIoError k "")).

(** The table of [failing_rpc], and an operation with every call failing. *)
Definition failing_table (peer : Contact) (others : nat) : DumbBucket :=
  MkDumb (peer :: ((fun i => MkContact (all_bytes (u8 (100 + N.of_nat i))) (localhost_port (9100 + N.of_nat i)))
                    <$> seq 0 others)).

Definition failing_rpc {X} (k : ErrorKind) (peer : Contact) (others : nat)
    (m : Rpc DumbBucket unit -> M (Env DumbBucket unit) X) : X * DumbBucket :=
  with_rpc rpc_me (failing_transport k) (failing_transport k) (failing_table peer others) m.

Definition table_holds (t : DumbBucket) (peer : Contact) : bool := bool_decide (peer ∈ dumb_contacts t).

Definition failing_peer : Contact := peer_contact test_peer.
Definition ask_node (rpc : Rpc DumbBucket unit) := find_node rpc failing_peer (all_bytes x00).

Definition a_peer_that_is_gone_is_removed : test :=
  Some ([TimedOut; ConnectionRefused; ConnectionReset] ≫= fun k =>
    let r := failing_rpc k failing_peer K ask_node in
    [assert_eq r.1 []; negb (table_holds r.2 failing_peer)]).

Definition every_rpc_to_a_known_contact_removes_it : test :=
  let stored := failing_rpc TimedOut failing_peer K (fun rpc =>
    store rpc failing_peer (all_bytes x00) (value_from (as_bytes "v"))) in
  let asked := failing_rpc TimedOut failing_peer K (fun rpc => find_value rpc failing_peer (all_bytes x00)) in
  Some [ negb stored.1; negb (table_holds stored.2 failing_peer);
         assert_eq asked.1 (Closest []); negb (table_holds asked.2 failing_peer) ].

Definition a_small_table_keeps_a_failing_peer : test :=
  Some [ table_holds (failing_rpc TimedOut failing_peer (K - 1) ask_node).2 failing_peer ].

Definition a_failure_on_our_side_keeps_the_peer : test :=
  Some ((fun k => table_holds (failing_rpc k failing_peer K ask_node).2 failing_peer)
          <$> [InvalidData; OtherKind "NotConnected"; OtherKind "AddrNotAvailable"]).

Definition a_failed_ping_removes_nothing : test :=
  let r := failing_rpc TimedOut failing_peer K (fun rpc => ping rpc (address failing_peer)) in
  Some [ assert_eq r.1 None; table_holds r.2 failing_peer ].

(** ** [lookup.rs] *)

Definition lookup_me : Contact := MkContact (all_bytes xff) (localhost_port 9000).

Definition ca : Contact := MkContact (all_bytes x08) (localhost_port 8001).
Definition cb : Contact := MkContact (all_bytes x04) (localhost_port 8002).
Definition cc : Contact := MkContact (all_bytes x02) (localhost_port 8003).

(** [FakeTransport { a, b, c }]: a knows b, b knows c. *)
Definition chain_transport {A} (a b c : Contact) : RpcTransport A unit :=
  answering (fun to =>
    serialize (if bool_decide (to = address a) then [b] else if bool_decide (to = address b) then [c] else [])).

(** [FakeRepliesTransport]: FIND_VALUE from a table. *)
Definition replies_transport {A} (replies : list (SocketAddr * FindValueReply)) : RpcTransport A unit :=
  answering (fun to => serialize (default (Closest []) (list_find (fun r => r.1 = to) replies ≫= fun x => Some x.2.2))).

(** [FakeValueTransport { a, b, c, value }]. *)
Definition value_transport {A} (value : bytes) : RpcTransport A unit :=
  replies_transport [(address ca, Closest [cb]); (address cb, Closest [cc]); (address cc, FoundValue (value_from value))].

(** [FakeMissingValueTransport { a, b }]. *)
Definition missing_value_transport {A} : RpcTransport A unit := replies_transport [(address ca, Closest [cb])].

Definition lookup_in {X} (robust : RpcTransport FakeCloseNodes unit)
    (m : Rpc FakeCloseNodes unit -> M (Env FakeCloseNodes unit) X) : X :=
  (with_rpc lookup_me (chain_transport ca cb cc) robust (MkFakeCloseNodes [ca]) m).1.

Definition value_lookup_finds_value_after_node_lookup : test :=
  let value := as_bytes "hello" in
  Some [ assert_eq (lookup_in (value_transport value) (fun rpc => lookup_value ready_first rpc (key_for_value value)))
           (Some (cc, value)) ].

Definition value_lookup_returns_none_when_value_is_not_found : test :=
  Some [ assert_eq (lookup_in missing_value_transport (fun rpc => lookup_value ready_first rpc (all_bytes x00))) None ].

Definition value_lookup_offers_closest_reply_contacts_to_the_routing_table : test :=
  let a := MkContact (all_bytes x08) (localhost_port 9101) in
  let newly_discovered := MkContact (all_bytes x04) (localhost_port 9102) in
  let r := with_rpc lookup_me (answering (fun _ => serialize (@nil Contact)))
             (replies_transport [(address a, Closest [newly_discovered])]) (MkDumb [a])
             (fun rpc => lookup_value ready_first rpc (all_bytes x00)) in
  Some [ assert_eq r.1 None; bool_decide (newly_discovered ∈ dumb_contacts r.2) ].

Definition lookup_follows_newly_discovered_contacts : test :=
  Some [ assert_eq (lookup_in (chain_transport ca cb cc) (fun rpc => lookup_node ready_first rpc (all_bytes x00)))
           [cc; cb; ca] ].

Definition lookup_offers_newly_discovered_contacts_to_the_routing_table : test :=
  let a := MkContact (all_bytes x08) (localhost_port 9001) in
  let b := MkContact (all_bytes x04) (localhost_port 9002) in
  let c := MkContact (all_bytes x02) (localhost_port 9003) in
  let r := with_rpc lookup_me (chain_transport a b c) (chain_transport a b c) (MkDumb [a])
             (fun rpc => lookup_node ready_first rpc (all_bytes x00)) in
  Some [ assert_eq (dumb_contacts r.2) [a; b; c] ].

Definition lookup_returns_empty_when_no_contacts_are_known : test :=
  let dummy := MkContact (all_bytes x01) (localhost_port 8001) in
  let r := with_rpc lookup_me (chain_transport dummy dummy dummy) (chain_transport dummy dummy dummy)
             (MkFakeCloseNodes []) (fun rpc => lookup_node ready_first rpc (all_bytes x00)) in
  Some [ assert_eq r.1 [] ].

Definition value_lookup_rejects_value_that_does_not_match_key : test :=
  let key := key_for_value (as_bytes "correct value") in
  Some [ assert_eq (lookup_in (value_transport (as_bytes "tampered value")) (fun rpc => lookup_value ready_first rpc key))
           None ].

(** ** [get_latest] *)

(** [dns.get_dns_vk] on the fixed table. *)
Definition fixed_dns {A} (domain : string) : M (Env A unit) (option VerifyingKey) :=
  mret (get_dns_vk domain fake_dns_new).1.

Definition get_latest_with (pointers : list (option (Signed LatestPointer))) (domain : string)
    : option (Signed LatestPointer) :=
  let replies := omap (fun '(contact, pointer) => p ← pointer; Some (address contact, FoundValue (Latest p)))
                   (zip [ca; cb; cc] pointers) in
  lookup_in (replies_transport replies) (fun rpc => get_latest ready_first rpc fixed_dns domain "pkg").

Definition node0 : string := "node0.d7024e.test".

(** [pointer(version, signer)] of the source. *)
Definition pointer_by (v : string) (signer : nat) : option (Signed LatestPointer) :=
  k ← fake_key signer; s ← fk_signing_key k; signed_latest node0 "pkg" v s.

Definition get_latest_skips_forged_pointer : test :=
  Some [ assert_eq (get_latest_with [pointer_by "9.0.0" 1; pointer_by "1.0.0" 0; None] node0) (pointer_by "1.0.0" 0) ].

Definition get_latest_returns_highest_version_when_replicas_disagree : test :=
  Some [ assert_eq (get_latest_with [pointer_by "1.0.0" 0; pointer_by "1.10.0" 0; pointer_by "1.9.0" 0] node0)
           (pointer_by "1.10.0" 0) ].

Definition get_latest_is_none_without_dns_key : test :=
  Some [ assert_eq (get_latest_with [pointer_by "1.0.0" 0; None; None] "nobody.d7024e.test") None ].

Definition get_latest_ignores_pointer_for_another_package : test :=
  k ← fake_key 0; s ← fk_signing_key k;
  other ← signed_latest (fk_domain k) "other" "1.0.0" s;
  Some [ assert_eq (get_latest_with [Some other; None; None] (fk_domain k)) None ].

(** ** They all pass *)

Example rpc_tests_pass :
  forallb passes
    [ find_node_sends_request_and_decodes_contacts; find_value_sends_request_and_decodes_value;
      find_value_decodes_closest_contacts; a_peer_that_is_gone_is_removed; every_rpc_to_a_known_contact_removes_it;
      a_small_table_keeps_a_failing_peer; a_failure_on_our_side_keeps_the_peer; a_failed_ping_removes_nothing ] = true.
Proof. by vm_compute. Qed.

Example lookup_tests_pass :
  forallb passes
    [ value_lookup_finds_value_after_node_lookup; value_lookup_returns_none_when_value_is_not_found;
      value_lookup_offers_closest_reply_contacts_to_the_routing_table; lookup_follows_newly_discovered_contacts;
      lookup_offers_newly_discovered_contacts_to_the_routing_table; lookup_returns_empty_when_no_contacts_are_known;
      value_lookup_rejects_value_that_does_not_match_key; get_latest_skips_forged_pointer;
      get_latest_returns_highest_version_when_replicas_disagree; get_latest_is_none_without_dns_key;
      get_latest_ignores_pointer_for_another_package ] = true.
Proof. by vm_compute. Qed.
