(* ===== verification/ReplayWires.v ===== *)
(** * ReplayWires: the tests of the transports

    The tests of [src/rpc_transport/]: [tcp_transport.rs],
    [networked_debug_transport.rs] and [retry_transport.rs].  The peers the tests
    spawn take their turns while the caller waits for a reply. *)

From Stdlib Require Import QArith.QArith.
From S2P Require Import Prelude Slices Machine Contacts Text Address AddressParse Wire Pending Datagram Stream.
From S2P Require Import Network Instances Replay ReplayServer.

Local Open Scope string_scope.

(** ** Datagrams on the in-process network *)

(** The network, and the channel to the server side if there is one. *)
Abbreviation FakeWire := (Network.Network * option RequestQueue)%type.

(** [rand::random::<f64>()]; nothing is lost on these networks. *)
Definition a_coin : Q := (1 # 2).

(** Everything queued at an endpoint, in order. *)
Definition take_inbox (ep : nat) (n : Network.Network) : list Packet * Network.Network :=
  match endpoints n !! ep with
  | None => ([], n)
  | Some e =>
      foldl (fun '(got, n) _ =>
               let r := Network.recv_from ep n in
               match r.1 with Ready (Some packet) => (got ++ [packet], r.2)%list | _ => (got, r.2) end)
        ([], n) (ep_inbox e)
  end.

(** [endpoint.send_to(..)]. *)
Definition send_from (ep : nat) (datagram : bytes) (to : SocketAddr) (n : Network.Network) : Network.Network :=
  (Network.send_packet a_coin ep datagram to n).2.

(** A spawned peer that answers every datagram. *)
Definition answer_each (ep : nat) (answer : bytes -> bytes) (n : Network.Network) : Network.Network :=
  let '(got, n) := take_inbox ep n in
  foldl (fun n '(from, datagram) => send_from ep (answer datagram) from n) n got.

(** Frame [reply_body] as the answer to [request]. *)
Definition reply_to (request reply_body : bytes) : bytes :=
  (to_be_bytes (reply_id (from_be_bytes (take ID_LEN request))) ++ reply_body)%list.

(** [spawn_echo_peer]. *)
Definition echo_peer (ep : nat) : Network.Network -> Network.Network :=
  answer_each ep (fun datagram => reply_to datagram (drop ID_LEN datagram)).

(** While the caller at [me] waits, the peers run and then its receive loop. *)
Definition peers_run (me : nat) (peers : Network.Network -> Network.Network) (_ : PendingResponse) (_ : Duration)
    : M (@env_state FakeWire) bool :=
  fun e => let '(pool, history, (n, queue)) := e in
  let '(got, n) := take_inbox me (peers n) in
  let received := receive_loop ((fun '(from, datagram) => Ok (datagram, from)) <$> got) (MkReceiver pool queue) in
  (false, (rcv_pending received, history, (n, rcv_requests received))).

(** [transport.send_receive(..)] of the transport bound at [me]. *)
Definition call_over (me : nat) (peers : Network.Network -> Network.Network) (queue : option RequestQueue)
    (payload : bytes) (to : SocketAddr) (n : Network.Network) : Outcome * Client FakeWire :=
  Datagram.send_receive
    (fun datagram to w => let r := Network.send_packet a_coin me datagram to w.1 in (r.1, (r.2, w.2)))
    (peers_run me peers) (fun _ e => e) [a_draw] payload to (MkClient pending_new [] (n, queue) []).

Definition answered_with (r : Outcome * Client FakeWire) : option bytes :=
  match r.1 with Returned (Ok reply) => Some reply | _ => None end.

(** [network.bind_any()] and [endpoint.local_addr()]. *)
Definition bind_one (n : Network.Network) : option (nat * SocketAddr * Network.Network) :=
  let r := bind_any n in ep ← r.1; e ← endpoints r.2 !! ep; Some (ep, ep_addr e, r.2).

(** ** [networked_debug_transport.rs] *)

Definition round_trips_through_the_fake_wire : test :=
  '(peer, peer_addr, n) ← bind_one network_new;
  '(me, _, n) ← bind_one n;
  reply ← answered_with (call_over me (echo_peer peer) None (as_bytes "ping") peer_addr n);
  Some [ assert_eq reply (as_bytes "ping") ].

Definition two_devices_talk_over_the_fake_network : test :=
  '(peer, peer_addr, n) ← bind_one network_new;
  '(me, _, n) ← bind_one n;
  let pongs := answer_each peer (fun datagram => reply_to datagram (as_bytes "pong: " ++ drop ID_LEN datagram)%list) in
  reply ← answered_with (call_over me pongs None (as_bytes "ping") peer_addr n);
  Some [ assert_eq reply (as_bytes "pong: ping") ].

Definition is_some {A} (o : option A) : bool := match o with Some _ => true | None => false end.

Definition dropping_an_endpoint_frees_its_address : test :=
  a ← parse_socket_addr "127.0.0.1:42";
  let first := Network.bind a network_new in
  endpoint ← first.1;
  let second := Network.bind a first.2 in
  let third := Network.bind a (drop_endpoint endpoint second.2) in
  Some [ negb (is_some second.1); is_some third.1 ].

(** [spawn_echo_listener]: a connection to it echoes the request's body. *)
Definition echo_connection (_ : nat) : Pipe := pipe_to (fun request => reply_to request (drop ID_LEN request)).

Definition stream_call (payload : bytes) (to : SocketAddr) (n : Network.Network) : option (result IoError bytes) :=
  (networked_send_receive echo_connection a_draw 0%N payload to n).1.

(** The body of both echo tests. *)
Definition connection_echoes (n : Network.Network) : test :=
  '(_, peer_addr, n) ← bind_one n;
  result ← stream_call (as_bytes "ping") peer_addr n;
  reply ← unwrap result;
  Some [ assert_eq reply (as_bytes "ping") ].

Definition a_connection_round_trips_through_the_fake_wire : test := connection_echoes network_new.

Definition loss_does_not_touch_connections : test := connection_echoes (with_config (MkNetworkConfig 0%N 1%Q)).

Definition connecting_to_an_unbound_address_is_refused : test :=
  dead ← parse_socket_addr "127.0.0.1:9999";
  result ← stream_call (as_bytes "ping") dead network_new;
  Some [ assert_eq (error_kind result) (Some ConnectionRefused) ].

Definition one_address_carries_both_shapes : test :=
  '(endpoint, a, n) ← bind_one network_new;
  '(sender, sender_addr, n) ← bind_one n;
  let n := send_from sender (as_bytes "a datagram") a n in
  let connected := Network.connect a n in
  connection ← connected.1; _ ← unwrap connection;
  let received := Network.recv_from endpoint connected.2 in
  let accepted := Network.accept endpoint received.2 in
  match received.1, accepted.1 with
  | Ready (Some (from, datagram)), Ready (Ok _) =>
      Some [ assert_eq datagram (as_bytes "a datagram"); assert_eq from sender_addr ]
  | _, _ => None
  end.

Definition the_dialling_address_is_not_one_anybody_is_bound_to : test :=
  '(listening, listener_addr, n) ← bind_one network_new;
  '(_, caller_addr, n) ← bind_one n;
  let connected := Network.connect listener_addr n in
  connection ← connected.1; _ ← unwrap connection;
  let accepted := Network.accept listening connected.2 in
  match accepted.1 with
  | Ready (Ok (_, from)) =>
      Some [ assert_ne from caller_addr; assert_ne from listener_addr; is_some (Network.bind from accepted.2).1 ]
  | _ => None
  end.

(** ** [retry_transport.rs] *)

Definition channel_of_8 : RequestQueue := MkRequestQueue 8 [] true.

(** What arrived on the request channel. *)
Definition inbox_of (r : Outcome * Client FakeWire) : list Request :=
  match (cl_world r.2).2 with Some q => queued q | None => [] end.

(** The silent peer only reads; another peer asks with the id it read. *)
Definition a_request_reusing_a_pending_id_is_not_mistaken_for_its_reply : test :=
  '(me, node, n) ← bind_one network_new;
  '(silent, silent_addr, n) ← bind_one n;
  '(peer, _, n) ← bind_one n;
  let reuse n :=
    match take_inbox silent n with
    | ((_, outgoing) :: _, n) => send_from peer (take ID_LEN outgoing ++ as_bytes "a question of theirs")%list node n
    | ([], n) => n
    end in
  let r := call_over me reuse (Some channel_of_8) (as_bytes "a question of our own") silent_addr n in
  request ← head (inbox_of r);
  Some [ assert_eq (req_id request) (request_id a_draw); assert_eq (req_payload request) (as_bytes "a question of theirs");
         match r.1 with Returned (Err _) => true | _ => false end ].

Definition a_tagged_datagram_is_delivered_as_a_reply : test :=
  '(me, _, n) ← bind_one network_new;
  '(peer, peer_addr, n) ← bind_one n;
  let answers := answer_each peer (fun datagram => reply_to datagram (as_bytes "an answer")) in
  let r := call_over me answers (Some channel_of_8) (as_bytes "ping") peer_addr n in
  reply ← answered_with r;
  Some [ assert_eq reply (as_bytes "an answer"); (length (inbox_of r) =? 0)%nat ].

Definition a_reply_from_the_wrong_peer_is_ignored : test :=
  '(me, _, n) ← bind_one network_new;
  '(peer, peer_addr, n) ← bind_one n;
  '(attacker, _, n) ← bind_one n;
  let both n :=
    match take_inbox peer n with
    | ((from, datagram) :: _, n) =>
        send_from peer (reply_to datagram (as_bytes "legitimate")) from
          (send_from attacker (reply_to datagram (as_bytes "forged")) from n)
    | ([], n) => n
    end in
  reply ← answered_with (call_over me both None (as_bytes "request") peer_addr n);
  Some [ assert_eq reply (as_bytes "legitimate") ].

(** ** [tcp_transport.rs] *)

(** [spawn_echo_server] plays the request back, its id included. *)
Definition spawn_echo_server : Pipe := pipe_to (fun request => request).

(** [spawn_server_with_reply] answers under the id that came in. *)
Definition spawn_server_with_reply (reply_body : bytes) : Pipe :=
  pipe_to (fun request => take 8 request ++ reply_body)%list.

(** [TcpTransport.send_receive(..)] over a connection that is there at once. *)
Definition tcp_call (connect : result IoError Pipe) (payload : bytes) : result IoError bytes :=
  dial_and_send connect a_draw payload STREAM_DEADLINE 0%N.

Definition round_trips_a_small_payload : test :=
  reply ← unwrap (tcp_call (Ok spawn_echo_server) (as_bytes "ping"));
  Some [ assert_eq reply (as_bytes "ping") ].

Definition round_trips_a_payload_larger_than_one_chunk : test :=
  reply ← unwrap (tcp_call (Ok spawn_echo_server) large_value);
  Some [ assert_eq reply large_value ].

Definition strips_the_echoed_id_and_returns_only_the_reply_body : test :=
  reply ← unwrap (tcp_call (Ok (spawn_server_with_reply (as_bytes "STORED"))) (as_bytes "STORE..."));
  Some [ assert_eq reply (as_bytes "STORED") ].

Definition connect_failure_is_surfaced_as_an_error : test :=
  Some [ is_some (error_kind (tcp_call (Err (MkIoError ConnectionRefused "connection refused")) (as_bytes "ping"))) ].

(** ** They all pass *)

Example wire_tests_pass :
  forallb passes
    [ round_trips_through_the_fake_wire; two_devices_talk_over_the_fake_network; dropping_an_endpoint_frees_its_address;
      a_connection_round_trips_through_the_fake_wire; loss_does_not_touch_connections;
      connecting_to_an_unbound_address_is_refused; one_address_carries_both_shapes;
      the_dialling_address_is_not_one_anybody_is_bound_to ] = true.
Proof. by vm_compute. Qed.

Example retry_tests_pass :
  forallb passes
    [ a_request_reusing_a_pending_id_is_not_mistaken_for_its_reply; a_tagged_datagram_is_delivered_as_a_reply;
      a_reply_from_the_wrong_peer_is_ignored ] = true.
Proof. by vm_compute. Qed.

Example tcp_tests_pass :
  forallb passes
    [ round_trips_a_small_payload; round_trips_a_payload_larger_than_one_chunk;
      strips_the_echoed_id_and_returns_only_the_reply_body; connect_failure_is_surfaced_as_an_error ] = true.
Proof. by vm_compute. Qed.
