(* ===== verification/ReplayNetwork.v ===== *)
(** * ReplayNetwork: a handful of nodes for the tests

    What [FakeNode::new] on a [Network] without loss or latency comes to: every
    node is a [Context] that serves requests at once, and its client shares its
    routing table with its server.  Time stands still, as in a test that takes
    no time: a cached answer stays fresh until it is cleared. *)

From S2P Require Import Prelude Slices Machine Contacts Cache Text Crates Package VersionChain Wire Stream HandleRpc DnsKeys.
From S2P Require Import Network Rpc Lookup Instances Replay.

Abbreviation FakeContext := (Context RecommendedCloseNodes FakeDns).

(** The nodes by address. *)
Abbreviation Nodes := (gmap SocketAddr FakeContext).
Abbreviation NodeClient := (Env RecommendedCloseNodes Nodes).

#[export] Instance still_clock : Clock Nodes := fun _ => 0%N.

Definition first_ready (_ : Nodes) : nat := 0.

Definition with_table (t : RecommendedCloseNodes) (c : FakeContext) : FakeContext :=
  MkContext (my_id c) t (ctx_values c) (ctx_dns c).

(** A request from the node at [me]; a node that calls itself serves with the
    table its client uses. *)
Definition fake_transport (me from : SocketAddr) (reachable : bool) (unanswered : IoError)
    : RpcTransport RecommendedCloseNodes Nodes :=
  fun payload to e =>
    match world e !! to with
    | None => (Err (MkIoError TimedOut "nobody there"), e)
    | Some c =>
        let self := bool_decide (to = me) in
        let request := MkRequest (request_id (wrap 64 42)) from reachable payload in
        let r := dispatch 0%N request (if self then with_table (table e) c else c) in
        (match r.1 with Some framed => read_reply (request_id (wrap 64 42)) framed | None => Err unanswered end,
         MkEnv (if self then ctx_nodes r.2 else table e) (metrics e) (next_lookup e) (<[to := r.2]> (world e)))
    end.

(** [node.contact()] and [node.rpc()]. *)
Definition contact_of (a : SocketAddr) : Contact := MkContact (node_id_from_address a) a.

Definition rpc_of (a : SocketAddr) : Rpc RecommendedCloseNodes Nodes :=
  MkRpc (contact_of a)
    (fake_transport a a true (MkIoError TimedOut "no answer"))
    (fake_transport a (localhost_port 1) false (MkIoError UnexpectedEof "early eof")).

(** A client operation of the node at [a]. *)
Definition at_node {X} (a : SocketAddr) (m : Rpc RecommendedCloseNodes Nodes -> M NodeClient X) : M Nodes (option X) :=
  fun nodes =>
    match nodes !! a with
    | None => (None, nodes)
    | Some c =>
        let r := m (rpc_of a) (MkEnv (ctx_nodes c) [] (wrap 64 1) nodes) in
        (Some r.1, alter (with_table (table r.2)) a (world r.2))
    end.

(** [FakeNode::new], [count] times. *)
Definition fake_address (i : nat) : SocketAddr := V4 localhost (wrap 16 (uval FIRST_EPHEMERAL_PORT + N.of_nat i)).

Definition fake_node (a : SocketAddr) : FakeContext :=
  let id := node_id_from_address a in context_new id (recommended id) fake_dns_new.

Definition fake_nodes (count : nat) : Nodes :=
  list_to_map ((fun i => (fake_address i, fake_node (fake_address i))) <$> seq 0 count).

(** [node.dns()]. *)
Definition fake_dns (domain : string) : M NodeClient (option VerifyingKey) := mret (get_dns_vk domain fake_dns_new).1.

(** ** Operations of a node *)

(** Run a client operation; the test goes on with its result and the nodes. *)
Definition run_at {X} (a : SocketAddr) (m : Rpc RecommendedCloseNodes Nodes -> M NodeClient X) (nodes : Nodes)
    : option (X * Nodes) :=
  let r := at_node a m nodes in x ← r.1; Some (x, r.2).

Abbreviation node_a := (fake_address 0).
Abbreviation node_b := (fake_address 1).
Abbreviation node_c := (fake_address 2).

Definition ping_at (a peer : SocketAddr) (nodes : Nodes) : option (option NodeId * Nodes) :=
  run_at a (fun rpc => ping rpc peer) nodes.

(** [lookup::get_latest(..)], unwrapped. *)
Definition latest_at (a : SocketAddr) (domain package : string) (nodes : Nodes)
    : option (Signed LatestPointer * Nodes) :=
  '(p, nodes) ← run_at a (fun rpc => get_latest first_ready rpc fake_dns domain package) nodes;
  p ← p; Some (p, nodes).
