(* ===== verification/ReplayNodes.v ===== *)
(** * ReplayNodes: the tests of joining, of nodes and of maintenance

    The tests of [src/bootstrap.rs], [node.rs] and [maintenance.rs].  Those of
    real nodes on loopback sockets exchange the same requests as those on the
    in-process network, so both run on the nodes of [ReplayNetwork]. *)

From S2P Require Import Prelude Slices Machine Contacts Cache Text Crates Package VersionChain Wire HandleRpc DnsKeys.
From S2P Require Import Rpc Lookup Bootstrap Maintenance Instances Replay ReplayPackages ReplayServer ReplayLookup ReplayNetwork.

Local Open Scope string_scope.

(** ** [bootstrap.rs] *)

Definition MY_ID : NodeId := all_bytes x01.
Definition SEED_ID : NodeId := all_bytes x02.
Definition seed_addr : SocketAddr := localhost_port 8000.
Definition bootstrap_me : Contact := MkContact MY_ID (localhost_port 9000).

(** A table that remembers what it was taught; it is neither walked nor asked to
    remove in these tests. *)
Record RecordingCloseNodes : Type := MkRecording { recorded : list Contact }.

#[export] Instance RecordingCloseNodes_CloseNodes : CloseNodes RecordingCloseNodes := {
  close_nodes _ _ := fun t => (recorded t, t);
  maybe_add_contact c t :=
    if existsb (fun known => bool_decide (id known = id c)) (recorded t) then t else MkRecording (recorded t ++ [c])%list;
  remove_contact _ t := t;
  contacts_chunks t := [fun _ => recorded t]
}.

(** The bootstrap tests' [FakeTransport]: [None] is the unreachable one. *)
Definition seed_transport (seed : option (NodeId * list Contact)) : RpcTransport RecordingCloseNodes unit :=
  fun payload _ => mret (
    match seed with
    | None => Err (MkIoError TimedOut "no answer")
    | Some (seed_id, contacts) =>
        '(_, rest) ← ok_or (MkIoError InvalidData "no node id") (split_at_checked NODE_ID_LEN payload);
        '(method, _) ← ok_or (MkIoError InvalidData "bad tag") (split_tag rest);
        ok_or (MkIoError InvalidData "unexpected method")
          (match method with
           | Ping => serialize seed_id
           | FindNode => serialize contacts
           | _ => None
           end)
    end).

(** [bootstrap(&rpc_with(transport), seed_addr())], and the table after it. *)
Definition bootstrap_with (seed : option (NodeId * list Contact))
    : option (result BootstrapError (list Contact) * list Contact) :=
  let r := with_rpc bootstrap_me (seed_transport seed) (seed_transport None) (MkRecording [])
             (fun rpc => bootstrap ready_first (mret (all_bytes x5a)) rpc seed_addr) in
  result ← r.1; Some (result, recorded r.2).

Definition seed_contact : Contact := MkContact SEED_ID seed_addr.
Definition neighbour : Contact := MkContact (all_bytes x03) (localhost_port 8001).

Definition bootstrap_records_the_seed : test :=
  '(result, known) ← bootstrap_with (Some (SEED_ID, []));
  _ ← unwrap result;
  Some [ assert_eq known [seed_contact] ].

Definition bootstrap_learns_the_seeds_neighbours : test :=
  '(result, known) ← bootstrap_with (Some (SEED_ID, [neighbour]));
  found ← unwrap result;
  Some [ bool_decide (neighbour ∈ found);
         assert_eq (sort_by (fun a b => N.compare (be_val (elems (id a))) (be_val (elems (id b)))) known)
           [seed_contact; neighbour] ].

Definition an_unreachable_seed_is_an_error : test :=
  '(result, known) ← bootstrap_with None;
  Some [ assert_eq result (Err Unreachable); assert_eq known [] ].

Definition a_seed_that_is_us_is_an_error : test :=
  '(result, known) ← bootstrap_with (Some (MY_ID, []));
  Some [ assert_eq result (Err SelfSeed); assert_eq known [] ].

Definition bootstrap_never_returns_us : test :=
  '(result, _) ← bootstrap_with (Some (SEED_ID, [bootstrap_me; neighbour]));
  found ← unwrap result;
  Some [ bool_decide (neighbour ∈ found); negb (existsb (fun c => bool_decide (id c = MY_ID)) found) ].

(** ** [node.rs] *)

Definition id_a : NodeId := node_id_from_address node_a.
Definition id_b : NodeId := node_id_from_address node_b.
Definition id_c : NodeId := node_id_from_address node_c.

Definition two_nodes_can_ping_each_other : test :=
  '(pong_b, _) ← ping_at node_a node_b (fake_nodes 2);
  Some [ assert_ne id_a id_b; assert_eq pong_b (Some id_b) ].

Definition fake_nodes_can_ping_each_other : test :=
  '(pong_b, _) ← ping_at node_a node_b (fake_nodes 2);
  Some [ assert_eq pong_b (Some id_b) ].

(** [contacts.iter().any(|c| c.id == .. && c.address == ..)]. *)
Definition lists (a : SocketAddr) (l : list Contact) : bool := bool_decide (contact_of a ∈ l).

Definition two_nodes_can_ping_and_learn_each_other : test :=
  '(pong_b, nodes) ← ping_at node_a node_b (fake_nodes 2);
  '(contacts, _) ← run_at node_b (fun _ => query_table id_a) nodes;
  Some [ assert_eq pong_b (Some id_b); lists node_a contacts ].

(** Three nodes in a line: a learns b, b learns c. *)
Definition line_of_three : option (list bool * Nodes) :=
  '(pong_a, nodes) ← ping_at node_b node_a (fake_nodes 3);
  '(pong_b, nodes) ← ping_at node_c node_b nodes;
  Some ([assert_eq pong_a (Some id_a); assert_eq pong_b (Some id_b)], nodes).

Definition fake_node_can_discover_another_node_through_lookup : test :=
  '(pongs, nodes) ← line_of_three;
  '(found, _) ← run_at node_a (fun rpc => lookup_node first_ready rpc id_c) nodes;
  Some (pongs ++ [lists node_c found])%list.

Definition node_can_discover_another_node_through_lookup : test := fake_node_can_discover_another_node_through_lookup.

Definition large_key : Key := key_for_value large_value.

Definition fake_nodes_can_store_and_find_value : test :=
  '(stored, nodes) ← run_at node_a (fun rpc => store rpc (contact_of node_b) large_key (value_from large_value)) (fake_nodes 2);
  '(result, _) ← run_at node_a (fun rpc => find_value rpc (contact_of node_b) large_key) nodes;
  Some [ stored; assert_eq result (FoundValue (value_from large_value)) ].

Definition real_nodes_can_store_and_find_value : test := fake_nodes_can_store_and_find_value.

Definition node_can_find_value_through_network : test :=
  '(pongs, nodes) ← line_of_three;
  '(stored, nodes) ← run_at node_a (fun rpc => store rpc (contact_of node_c) large_key (value_from large_value)) nodes;
  '(found, _) ← run_at node_a (fun rpc => lookup_value first_ready rpc large_key) nodes;
  Some (pongs ++ [stored; assert_eq found (Some (contact_of node_c, large_value))])%list.

Definition value_at (a from : SocketAddr) (key : Key) (nodes : Nodes) : option (FindValueReply * Nodes) :=
  run_at from (fun rpc => find_value rpc (contact_of a) key) nodes.

Definition high_level_store_replicates_value : test :=
  '(pongs, nodes) ← line_of_three;
  let value := value_from (as_bytes "hello kademlia") in
  '(key, nodes) ← run_at node_a (fun rpc => store_value first_ready rpc value) nodes;
  '(at_a, nodes) ← value_at node_a node_a key nodes;
  '(at_b, nodes) ← value_at node_b node_a key nodes;
  '(at_c, _) ← value_at node_c node_a key nodes;
  Some (pongs ++ [ assert_eq key (key_for_value (as_bytes "hello kademlia"));
                   assert_eq at_a (FoundValue value); assert_eq at_b (FoundValue value);
                   assert_eq at_c (FoundValue value) ])%list.

Definition stores_nothing (key : Key) (nodes : Nodes) (a : SocketAddr) : bool :=
  assert_eq (nodes !! a ≫= fun c => ctx_values c !! key) None.

Definition latest_pointer_round_trips_and_forgery_is_refused : test :=
  '(pongs, nodes) ← line_of_three;
  k0 ← fake_key 0; k1 ← fake_key 1;
  '(forged, forged_proof) ← publication k0 "9.0.0" k1 [] (all_bytes x07);
  '(genuine, genuine_proof) ← publication k0 "1.0.0" k0 [] (all_bytes x07);
  '((key, accepted), nodes) ← run_at node_a (fun rpc => store_value_with_proof first_ready rpc forged forged_proof) nodes;
  let refused := [assert_eq accepted 0%nat; stores_nothing key nodes node_a; stores_nothing key nodes node_b;
                  stores_nothing key nodes node_c] in
  '((genuine_key, accepted), nodes) ←
    run_at node_a (fun rpc => store_value_with_proof first_ready rpc genuine genuine_proof) nodes;
  '(found, _) ← run_at node_c (fun rpc => get_latest first_ready rpc fake_dns (fk_domain k0) "pkg") nodes;
  found ← found;
  Some (pongs ++ refused ++ [assert_eq genuine_key key; (0 <? accepted)%nat; assert_eq (Latest found) genuine])%list.

(** ** [maintenance.rs] *)

Definition dead_contact : Contact := MkContact (all_bytes x5a) (V4 (be_array 4 0x0a000001) (wrap 16 9)).

(** [node.rpc().close_nodes().maybe_add_contact(..)]. *)
Definition teach (a : SocketAddr) (c : Contact) (nodes : Nodes) : Nodes :=
  alter (fun ctx => with_table (maybe_add_contact c (ctx_nodes ctx)) ctx) a nodes.

(** Every distinct contact of a node. *)
Definition contacts_at (a : SocketAddr) (nodes : Nodes) : gset Contact :=
  match nodes !! a with Some c => list_to_set (contacts_iter (ctx_nodes c)) | None => ∅ end.

(** [node_with_live_contacts]: the first node knows the [K + 1] others. *)
Definition node_with_live_contacts : Nodes :=
  foldl (fun nodes i => teach node_a (contact_of (fake_address i)) nodes) (fake_nodes (K + 2)) (seq 1 (K + 1)).

Definition one_liveness_round (nodes : Nodes) : option Nodes := snd <$> run_at node_a (check_liveness elements) nodes.

Definition a_dead_contact_is_removed_and_live_ones_are_kept : test :=
  let nodes := teach node_a dead_contact node_with_live_contacts in
  let before := contacts_at node_a nodes in
  nodes' ← one_liveness_round nodes;
  Some [ bool_decide (dead_contact ∈ before); (K <? size before)%nat;
         assert_eq (contacts_at node_a nodes') (before ∖ {[dead_contact]}) ].

Definition a_contact_answering_with_another_id_is_removed : test :=
  let stale := MkContact (all_bytes x5a) (fake_address 1) in
  let nodes := teach node_a stale node_with_live_contacts in
  let before := contacts_at node_a nodes in
  nodes' ← one_liveness_round nodes;
  Some [ bool_decide (stale ∈ before); assert_eq (contacts_at node_a nodes') (before ∖ {[stale]}) ].

Definition a_small_table_keeps_its_dead_contacts : test :=
  let nodes := teach node_a dead_contact (teach node_a (contact_of node_b) (fake_nodes 2)) in
  nodes' ← one_liveness_round nodes;
  Some [ assert_eq (contacts_at node_a nodes') (contacts_at node_a nodes) ].

Definition republish_at (a : SocketAddr) (values : list (Key * Value)) (nodes : Nodes) : option Nodes :=
  snd <$> run_at a (fun rpc => republish_values first_ready fake_dns rpc values) nodes.

Definition republish_sends_value_to_current_close_nodes : test :=
  let value := as_bytes "republished value" in
  let key := key_for_value value in
  nodes ← republish_at node_a [(key, value_from value)] (teach node_a (contact_of node_b) (fake_nodes 2));
  '(result, _) ← value_at node_b node_a key nodes;
  Some [ assert_eq result (FoundValue (value_from value)) ].

Definition republish_latest_with_valid_proof : test :=
  k0 ← fake_key 0;
  let nodes := teach node_a (contact_of node_b) (fake_nodes 2) in
  '(latest_value, proof) ← publication k0 "1.0.0" k0 [] (all_bytes x07);
  record ← head proof;
  record_bytes ← serialize record;
  version_key ← record_key record;
  let latest_key := value_key latest_value in
  '(stored1, nodes) ← run_at node_a (fun rpc => store rpc (contact_of node_a) version_key (Blob record_bytes)) nodes;
  '(stored2, nodes) ← run_at node_a (fun rpc =>
    store_with_proof rpc (contact_of node_a) latest_key latest_value proof) nodes;
  nodes' ← republish_at node_a [(version_key, Blob record_bytes); (latest_key, latest_value)] nodes;
  '(found, _) ← latest_at node_b (fk_domain k0) "pkg" nodes';
  Some [ stored1; stored2; stores_nothing latest_key nodes node_b; negb (stores_nothing latest_key nodes' node_b);
         assert_eq (Latest found) latest_value ].

(** [holds(&node, key)]. *)
Definition node_holds (key : Key) (nodes : Nodes) (a : SocketAddr) : bool := negb (stores_nothing key nodes a).

(** The originals are the first [K] nodes, then come [K] replacements and the
    reader. *)
Definition originals : list SocketAddr := fake_address <$> seq 0 K.
Definition replacements : list SocketAddr := fake_address <$> seq K K.
Definition reader : SocketAddr := fake_address (K + K).

Definition republishing_keeps_value_alive_after_original_holders_leave : test :=
  let value := as_bytes "value that must survive churn" in
  let key := key_for_value value in
  let store_on_holder := fun acc holder =>
    '(oks, nodes) ← acc;
    '(ok, nodes) ← run_at node_a (fun rpc => store rpc (contact_of holder) key (value_from value)) nodes;
    Some (ok :: oks, nodes) in
  '(stored, nodes) ← foldl store_on_holder (Some ([], fake_nodes (K + K + 1))) originals;
  let all_hold := forallb (node_holds key nodes) originals in
  let nodes := foldl (fun nodes a => teach node_a (contact_of a) nodes) nodes replacements in
  (* all but the first unbind *)
  let nodes := foldl (fun nodes a => delete a nodes) nodes (drop 1 originals) in
  nodes ← republish_at node_a [(key, value_from value)] nodes;
  let republished_to := List.filter (node_holds key nodes) replacements in
  let nodes := delete node_a nodes in
  let nodes := foldl (fun nodes a => teach reader (contact_of a) nodes) nodes republished_to in
  '(result, _) ← run_at reader (fun rpc => lookup_value first_ready rpc key) nodes;
  '(_, found) ← result;
  Some (stored ++ [all_hold; (K - 1 <=? length republished_to)%nat; assert_eq found value])%list.

(** ** They all pass *)

Example bootstrap_tests_pass :
  forallb passes
    [ bootstrap_records_the_seed; bootstrap_learns_the_seeds_neighbours; an_unreachable_seed_is_an_error;
      a_seed_that_is_us_is_an_error; bootstrap_never_returns_us ] = true.
Proof. by vm_compute. Qed.

Example node_tests_pass :
  forallb passes
    [ two_nodes_can_ping_each_other; fake_nodes_can_ping_each_other; two_nodes_can_ping_and_learn_each_other;
      fake_node_can_discover_another_node_through_lookup; node_can_discover_another_node_through_lookup;
      fake_nodes_can_store_and_find_value; real_nodes_can_store_and_find_value; node_can_find_value_through_network;
      high_level_store_replicates_value; latest_pointer_round_trips_and_forgery_is_refused ] = true.
Proof. by vm_compute. Qed.

Example maintenance_tests_pass :
  forallb passes
    [ a_dead_contact_is_removed_and_live_ones_are_kept; a_contact_answering_with_another_id_is_removed;
      a_small_table_keeps_its_dead_contacts; republish_sends_value_to_current_close_nodes;
      republish_latest_with_valid_proof ] = true.
Proof. by vm_compute. Qed.

Example churn_test_passes : passes republishing_keeps_value_alive_after_original_holders_leave = true.
Proof. by vm_compute. Qed.
