(* ===== verification/ReplayRegistry.v ===== *)
(** * ReplayRegistry: the tests of the registry

    The tests of [src/registry.rs]: publishing, updating, installing and listing
    packages on networks of one to three nodes. *)

From S2P Require Import Prelude Slices Machine Contacts Cache Text Crates Package VersionChain Wire HandleRpc DnsKeys.
From S2P Require Import Rpc Lookup Registry Instances Replay ReplayNetwork ReplayPackages.

Local Open Scope string_scope.

(** [publish_package(node.rpc(), node.dns(), ..)]. *)
Definition publish (a : SocketAddr) (domain package v : string) (blob : string) (signer : SigningKey)
    (previous : option Version) (force : bool) (nodes : Nodes)
    : option (result PublishError PublishReceipt * Nodes) :=
  parsed ← version v;
  run_at a (fun rpc => publish_package first_ready rpc fake_dns domain package parsed (as_bytes blob) signer previous force)
    nodes.

Definition publish_ok (a : SocketAddr) (domain package v : string) (blob : string) (signer : SigningKey) (nodes : Nodes)
    : option (PublishReceipt * Nodes) :=
  '(r, nodes) ← publish a domain package v blob signer None false nodes;
  receipt ← unwrap r;
  Some (receipt, nodes).

(** [load_chain_from_pointer(..)], unwrapped. *)
Definition history_at (a : SocketAddr) (pointer : Signed LatestPointer) (nodes : Nodes)
    : option (list (Signed VersionRecord) * Nodes) :=
  '(h, nodes) ← run_at a (fun rpc => load_chain_from_pointer first_ready rpc fake_dns pointer) nodes;
  h ← unwrap h; Some (h, nodes).

Definition install_at (a : SocketAddr) (domain : string) (requested : option Version) (nodes : Nodes) :=
  run_at a (fun rpc => install_package first_ready rpc fake_dns domain "calculator" requested) nodes.

Definition versions_of (l : list (Signed VersionRecord)) : list Version := vr_version ∘ body <$> l.

(** The domain and the key of a test publisher. *)
Definition publisher (i : nat) : option (string * SigningKey) :=
  k ← fake_key i; s ← fk_signing_key k; Some (fk_domain k, s).

Definition prepared (v blob : string) (existing : list (Signed VersionRecord)) (previous : option Version) (force : bool) :=
  parsed ← version v;
  Some (prepare_publication "example.com" "calculator" parsed (as_bytes blob) chain_signer existing previous force).

Definition prepared_ok (v blob : string) (existing : list (Signed VersionRecord)) : option PreparedPublication :=
  r ← prepared v blob existing None false; unwrap r.

Definition creates_valid_publication_history : test :=
  first ← prepared_ok "1.0.0" "first version" [];
  second ← prepared_ok "2.0.0" "second version" (pp_proof first);
  validated ← unwrap (validate_chain_proof (pp_pointer second) (verifying_key chain_signer) (pp_proof second));
  Some [ assert_eq (vr_prev (body (pp_record first))) (all_bytes x00);
         assert_eq (length (pp_proof first)) 1;
         assert_eq (vr_blob_hash (body (pp_record first))) (key_for_value (pp_blob first));
         assert_eq (Some (vr_prev (body (pp_record second)))) (record_key (pp_record first));
         assert_eq (length (pp_proof second)) 2;
         assert_eq validated (pp_proof second) ].

(** [matches!(r, Err(e))]. *)
Definition fails_with {A} (r : result PublishError A) (e : PublishError) : bool :=
  match r with Ok _ => false | Err e' => assert_eq e' e end.

Definition rejects_invalid_update_unless_forced : test :=
  v1 ← version "1.0.0";
  first ← prepared_ok "1.0.0" "first" [];
  second ← prepared_ok "2.0.0" "second" (pp_proof first);
  rollback ← prepared "1.5.0" "rollback" (pp_proof second) None false;
  fork ← prepared "3.0.0" "fork" (pp_proof second) (Some v1) false;
  forced ← prepared "3.0.0" "fork" (pp_proof second) (Some v1) true;
  forced ← unwrap forced;
  Some [ fails_with rollback VersionNotNewer; fails_with fork PreviousNotLatest;
         assert_eq (compare_chains (pp_proof second) (pp_proof forced)) (Ok Fork) ].

Definition publishes_package_to_network : test :=
  '(domain, signer) ← publisher 0;
  v1 ← version "1.0.0"; v2 ← version "2.0.0";
  '(first, nodes) ← publish_ok node_a domain "calculator" "1.0.0" "calculator version 1" signer (fake_nodes 1);
  '(second, nodes) ← publish_ok node_a domain "calculator" "2.0.0" "calculator version 2" signer nodes;
  '(latest, nodes) ← latest_at node_a domain "calculator" nodes;
  '(history, _) ← history_at node_a latest nodes;
  Some [ (0 <? blob_accepted first)%nat; (0 <? record_accepted first)%nat; (0 <? latest_accepted first)%nat; (0 <? latest_accepted second)%nat;
         assert_eq (lat_key first) (lat_key second); assert_ne (blob_key first) (blob_key second);
         assert_eq (lp_version (body latest)) v2;
         assert_eq (versions_of history) [v2; v1] ].

Definition rejects_publication_from_wrong_owner : test :=
  '(domain, _) ← publisher 0; '(_, imposter) ← publisher 1;
  '(result, nodes) ← publish node_a domain "calculator" "1.0.0" "malicious package" imposter None false (fake_nodes 1);
  c ← nodes !! node_a;
  Some [ fails_with result WrongSigningKey; assert_eq (size (ctx_values c)) 0 ].

(** Two versions by their own texts, as the force tests publish them. *)
Definition two_versions (domain : string) (signer : SigningKey) (blob1 blob2 : string) : option Nodes :=
  '(_, nodes) ← publish_ok node_a domain "calculator" "1.0.0" blob1 signer (fake_nodes 1);
  '(_, nodes) ← publish_ok node_a domain "calculator" "2.0.0" blob2 signer nodes;
  Some nodes.

Definition rollback_is_rejected_even_with_force : test :=
  '(domain, signer) ← publisher 0; v2 ← version "2.0.0";
  nodes ← two_versions domain signer "1.0.0" "2.0.0";
  '(normal, nodes) ← publish node_a domain "calculator" "1.5.0" "rollback" signer None false nodes;
  '(forced, nodes) ← publish node_a domain "calculator" "1.5.0" "forced rollback" signer None true nodes;
  '(latest, _) ← latest_at node_a domain "calculator" nodes;
  Some [ fails_with normal VersionNotNewer; fails_with forced PointerNotStored;
         assert_eq (lp_version (body latest)) v2 ].

Definition fork_is_rejected_even_with_force : test :=
  '(domain, signer) ← publisher 0; v1 ← version "1.0.0"; v2 ← version "2.0.0";
  nodes ← two_versions domain signer "1.0.0" "2.0.0";
  '(normal, nodes) ← publish node_a domain "calculator" "3.0.0" "forked package" signer (Some v1) false nodes;
  '(forced, nodes) ← publish node_a domain "calculator" "3.0.0" "forced fork" signer (Some v1) true nodes;
  '(latest, _) ← latest_at node_a domain "calculator" nodes;
  Some [ fails_with normal PreviousNotLatest; fails_with forced PointerNotStored;
         assert_eq (lp_version (body latest)) v2 ].

Definition package_can_be_published_and_updated_across_nodes : test :=
  '(domain, signer) ← publisher 0; v1 ← version "1.0.0"; v2 ← version "2.0.0";
  '(pong_a, nodes) ← ping_at node_b node_a (fake_nodes 3);
  '(pong_b, nodes) ← ping_at node_c node_b nodes;
  '(first, nodes) ← publish_ok node_a domain "calculator" "1.0.0" "calculator version 1" signer nodes;
  '(latest_at_c, nodes) ← latest_at node_c domain "calculator" nodes;
  '(second, nodes) ← publish_ok node_c domain "calculator" "2.0.0" "calculator version 2" signer nodes;
  '(latest_at_b, nodes) ← latest_at node_b domain "calculator" nodes;
  '(history, nodes) ← history_at node_b latest_at_b nodes;
  newest ← head history;
  '(downloaded, _) ← run_at node_b (fun rpc => lookup_value first_ready rpc (vr_blob_hash (body newest))) nodes;
  downloaded ← downloaded;
  Some [ assert_eq pong_a (Some (node_id_from_address node_a)); assert_eq pong_b (Some (node_id_from_address node_b));
         (2 <=? latest_accepted first)%nat; assert_eq (lp_version (body latest_at_c)) v1;
         (2 <=? latest_accepted second)%nat; assert_eq (lp_version (body latest_at_b)) v2;
         assert_eq (versions_of history) [v2; v1];
         assert_eq downloaded.2 (as_bytes "calculator version 2") ].

(** [a.rpc().close_nodes().clear()]. *)
Definition clear_cache_at (a : SocketAddr) (nodes : Nodes) : Nodes :=
  alter (fun c => with_table (clear (ctx_nodes c)) c) a nodes.

(** [b.rpc().find_value(&b.contact(), key)]. *)
Definition own_value (a : SocketAddr) (key : Key) (nodes : Nodes) : option (FindValueReply * Nodes) :=
  run_at a (fun rpc => find_value rpc (contact_of a) key) nodes.

Definition stale_node_catches_up_after_missing_update : test :=
  '(domain, signer) ← publisher 0; v1 ← version "1.0.0"; v2 ← version "2.0.0"; v3 ← version "3.0.0";
  '(first, nodes) ← publish_ok node_a domain "calculator" "1.0.0" "version one" signer (fake_nodes 2);
  '(pointer_v1, nodes) ← latest_at node_a domain "calculator" nodes;
  '(proof_v1, nodes) ← history_at node_a pointer_v1 nodes;
  '(given, nodes) ← run_at node_b (fun rpc =>
    store_with_proof rpc (contact_of node_b) (lat_key first) (Latest pointer_v1) proof_v1) nodes;
  '(_, nodes) ← publish_ok node_a domain "calculator" "2.0.0" "version two" signer nodes;
  '(stale, nodes) ← own_value node_b (lat_key first) nodes;
  '(pong_a, nodes) ← ping_at node_b node_a nodes;
  '(pong_b, nodes) ← ping_at node_a node_b nodes;
  let nodes := clear_cache_at node_b (clear_cache_at node_a nodes) in
  '(third, nodes) ← publish_ok node_a domain "calculator" "3.0.0" "version three" signer nodes;
  '(updated, nodes) ← own_value node_b (lat_key first) nodes;
  match updated with
  | FoundValue (Latest pointer_v3) =>
      '(history, _) ← history_at node_b pointer_v3 nodes;
      oldest ← history !! 2;
      Some [ assert_eq (length proof_v1) 1; given; assert_eq stale (FoundValue (Latest pointer_v1));
             assert_eq pong_a (Some (node_id_from_address node_a)); assert_eq pong_b (Some (node_id_from_address node_b));
             (2 <=? latest_accepted third)%nat;
             assert_eq (lp_version (body pointer_v3)) v3;
             assert_eq (versions_of history) [v3; v2; v1];
             assert_eq (record_key oldest) (Some (lp_version_record_hash (body pointer_v1))) ]
  | _ => None
  end.

Definition installs_latest_and_older_version : test :=
  '(domain, signer) ← publisher 0; v1 ← version "1.0.0"; v2 ← version "2.0.0";
  nodes ← two_versions domain signer "first version" "second version";
  '(latest, nodes) ← install_at node_a domain None nodes;
  latest ← unwrap latest;
  '(older, _) ← install_at node_a domain (Some v1) nodes;
  older ← unwrap older;
  Some [ assert_eq (ip_version latest) v2; assert_eq (ip_blob latest) (as_bytes "second version");
         assert_eq (ip_blob_key latest) (key_for_value (ip_blob latest));
         assert_eq (ip_version older) v1; assert_eq (ip_blob older) (as_bytes "first version");
         assert_eq (ip_blob_key older) (key_for_value (ip_blob older)) ].

Definition install_rejects_unknown_version : test :=
  '(domain, signer) ← publisher 0; missing ← version "9.0.0";
  '(_, nodes) ← publish_ok node_a domain "calculator" "1.0.0" "first version" signer (fake_nodes 1);
  '(result, _) ← install_at node_a domain (Some missing) nodes;
  match result with
  | Err e => Some [ assert_eq e (VersionNotFound missing) ]
  | Ok _ => None
  end.

Definition install_fails_when_package_blob_is_missing : test :=
  '(domain, signer) ← publisher 0; v1 ← version "1.0.0";
  prepared ← unwrap (prepare_publication domain "calculator" v1 (as_bytes "package contents") signer [] None false);
  let missing_blob_key := key_for_value (pp_blob prepared) in
  record_bytes ← serialize (pp_record prepared);
  version_key ← record_key (pp_record prepared);
  '(stored1, nodes) ← run_at node_a (fun rpc => store rpc (contact_of node_a) version_key (Blob record_bytes)) (fake_nodes 1);
  let latest_value := Latest (pp_pointer prepared) in
  '(stored2, nodes) ← run_at node_a (fun rpc =>
    store_with_proof rpc (contact_of node_a) (value_key latest_value) latest_value (pp_proof prepared)) nodes;
  '(found, nodes) ← run_at node_a (fun rpc => lookup_value first_ready rpc missing_blob_key) nodes;
  '(result, _) ← install_at node_a domain None nodes;
  match result with
  | Err e => Some [ stored1; stored2; assert_eq found None; assert_eq e (BlobUnavailable missing_blob_key) ]
  | Ok _ => None
  end.

Definition show_lists_verified_versions : test :=
  '(domain, signer) ← publisher 0; v1 ← version "1.0.0"; v2 ← version "2.0.0";
  nodes ← two_versions domain signer "first" "second";
  '(versions, _) ← run_at node_a (fun rpc => show_package first_ready rpc fake_dns domain "calculator") nodes;
  versions ← unwrap versions;
  Some [ assert_eq (length versions) 2; assert_eq (pv_version <$> versions) [v2; v1];
         assert_eq (pv_is_latest <$> versions) [true; false];
         assert_eq (pv_blob_key <$> versions) [key_for_value (as_bytes "second"); key_for_value (as_bytes "first")] ].

(** ** They all pass *)

Example publication_tests_pass :
  forallb passes [ creates_valid_publication_history; rejects_invalid_update_unless_forced ] = true.
Proof. by vm_compute. Qed.

Example registry_tests_pass :
  forallb passes
    [ publishes_package_to_network; rejects_publication_from_wrong_owner; rollback_is_rejected_even_with_force;
      fork_is_rejected_even_with_force; package_can_be_published_and_updated_across_nodes;
      stale_node_catches_up_after_missing_update; installs_latest_and_older_version; install_rejects_unknown_version;
      install_fails_when_package_blob_is_missing; show_lists_verified_versions ] = true.
Proof. by vm_compute. Qed.
